(* ===== verification/_CoqProject ===== *)
-Q . S2P
Prelude.v
GoRt.v
Utf8.v
RaftTypes.v
RaftNode.v
RaftProto.v
RaftNet.v
RaftSpec.v
RaftSim.v
RaftSafety.v
RaftTheorems.v
RaftSends.v
RaftMem.v
RaftAlias.v
RaftShared.v
RaftValidity.v
KvRaft.v
KvTheorems.v
KvCluster.v
KvLinear.v
KvService.v
Labrpc.v
RaftHarness.v
HarnessNet.v
HarnessTheorems.v
LabCluster.v
LabTheorems.v
LabShared.v
KvHarness.v
MapReduce.v
MrTheorems.v
MrApps.v
EtcdStorage.v
RaftPb.v
RaftPbTheorems.v
EtcdNode.v
EtcdWire.v
EtcdTheorems.v
EtcdKv.v
EtcdServe.v
DisKV.v
ShardClerk.v
ShardServers.v
ShardHarness.v
RpcServers.v
MrRpc.v
LockService.v
Commands.v
