(* ===== verification/Prelude.v ===== *)
(** * Verification of the distributed-system repository

    The repository holds a Raft library with its persister, the services and
    test harnesses built on it, a simulated RPC network, a MapReduce library,
    servers on sockets (all under src/mit/src, the MIT 6.824 labs), and the etcd
    raft example (src/etcd-raft).  The code is in Go.

    ** How the parts interact

    The Raft peers (raft/raft.go) exchange messages over labrpc, keep their
    durable state in a [Persister] and deliver committed commands on a channel
    to a service.  The key/value server (kvraft/server.go) is such a service: its
    handlers append operations to the log, and wait until the apply loop reports
    them; clerks (kvraft/client.go) retry until a leader answers, and clients see only the clerks.  The harnesses
    (config.go of raft, kvraft, shardmaster, shardkv) start, crash, restart and
    partition the servers, and check what they apply.  The MapReduce master hands tasks to
    workers over a shared file system.  The etcd node feeds the batches of
    the vendored raft library into its storage and a key-value store; configuration changes
    travel as protobuf messages, and an HTTP server takes what the peers send.  The older
    services (viewservice, pbservice, paxos, kvpaxos, paxos-shardmaster, paxos-shardkv,
    diskv) accept connections on a socket in the same loop.

    ** Files

    - Prelude.v: shared tactics, hints and lemmas on lists and maps.
    - GoRt.v: the Go run time: a monad of computations that can panic, 64-bit
      [int], slices with their bounds checks, weakest preconditions.  Utf8.v: strings as
      UTF-8, and what encoding/json makes of strings that are not.
    - RaftTypes.v, RaftNode.v: the peer (raft/raft.go, persister.go).  The record
      [Raft] is the struct, each method is a definition of the same name ([Step],
      [stepFollower], [handleAppendEntries], [updateCommitIndex], [Make], ...).
    - RaftNet.v: a cluster of peers on a network that loses, delays and reorders,
      with crashes and restarts: [action], [reachable].
    - RaftProto.v: the abstract protocol and its safety.  RaftSpec.v: what
      each operation of a peer does.  RaftSim.v: each handler is simulated by
      actions of the protocol.  RaftSafety.v: the invariant of the cluster.
      RaftTheorems.v: the theorems.
      A request of RaftNet.v holds the entries of the log as they were when it was made; it
      is an intermediate model.
    - RaftSends.v: the messages a peer makes and their types.  RaftMem.v: the memory of a
      peer's log, which a waiting append request shares in the code.  RaftAlias.v: the
      cluster with that memory ([alias_exec]), and when it is a cluster of RaftNet.v.
      RaftShared.v: the theorems of the cluster with shared memory.
      RaftValidity.v: where the commands in the logs come from.
    - KvRaft.v, KvTheorems.v: server and clerk (kvraft/server.go, client.go,
      common.go), against the interface [ReplicatedLog] that the cluster implements.
    - KvCluster.v: the service as a whole, the cluster of RaftAlias.v with a server on every
      peer, the handlers and the clerks, which goroutines may share, as interleaved
      critical sections ([kaction]).  KvLinear.v:
      linearizable histories.  KvService.v: the invariant of the service and its theorems.
    - Labrpc.v: the simulated network (labrpc/labrpc.go).  [Network] is the struct;
      a call moves through the stages of [ProcessReq] one step at a time.
    - RaftHarness.v, HarnessNet.v, HarnessTheorems.v: raft/config.go, on the network
      of Labrpc.v and the peers of RaftNode.v.
    - LabCluster.v, LabTheorems.v: the whole of what a Raft test runs, the peers on the
      simulated network under the harness, as interleaved steps ([lab_step]), and its
      simulation by the cluster of RaftNet.v.  LabShared.v: the same with the memory of
      RaftMem.v and the crashed peers ([shared_lab_step]), and its theorems.
    - KvHarness.v: kvraft/config.go over any [Service] with a Raft peer.  ShardServers.v:
      shardmaster/server.go and shardkv/server.go, and shardmaster/config.go as an
      instance of KvHarness.v.  ShardHarness.v: shardkv/config.go.
    - MapReduce.v, MrTheorems.v: mapreduce/*.go over a map of files.  MrApps.v: the
      word count and inverted index of main/wc.go and main/ii.go.  MrRpc.v: the RPC server
      of the master, [Distributed], [Wait] and the end of a job.
    - EtcdStorage.v: the vendored [MemoryStorage], an instance of [StorageLaws].
      RaftPb.v, RaftPbTheorems.v: the vendored wire format (raftpb/raft.pb.go), the
      encoders and decoders of the seven message types.
    - EtcdNode.v, EtcdTheorems.v: etcd-raft/raft.go.  EtcdWire.v: configuration changes from
      the proposal to the node, through RaftPb.v.  EtcdKv.v: kvstore.go, httpapi.go.
      EtcdServe.v: listener.go, [serveRaft] and [stopHTTP] of raft.go, main.go.
    - DisKV.v: the shard files of diskv/server.go on a file system with crashes.
    - ShardClerk.v: the clerks of shardmaster, shardkv, diskv, paxos-shardmaster and
      paxos-shardkv.  LockService.v: lockservice/server.go and client.go.
    - RpcServers.v: the accept loop and the servers on sockets, each of them an instance
      of [SockServer] and [SockLaws].
    - Commands.v: the main programs (main/*.go), from their arguments to the calls above.

    ** What the theorems show

    - Raft: every reachable cluster refines the abstract protocol; elections are
      unique per term, logs match, leaders have what was committed, committed entries
      are durable, servers apply the same commands in order, and only commands that
      clients submitted; votes and logs survive a restart.  Messages are well typed, and no handler panics but [stepLeader] on a
      stale refusal, which does (and [Tick] when ten ticks wait).  Safety, refinement, log
      matching and the absence of panics are proved of the cluster with shared memory
      (RaftShared.v), for the runs in which no append request waits at a server that
      truncates its log ([calm]); State Machine Safety fails otherwise
      ([late_request_breaks_safety]).  Durability needs two servers ([single_server_forgets]).
    - Key/value service: every history the clients can see is linearizable, a request
      takes effect exactly once, replicas agree, and an operation whose handler reports
      success has been applied, in every interleaving of clerks, handlers, apply loops,
      crashes and losses.  All but the last are about the [orderly] runs: no [Get] handler
      takes the lock late (else see [late_get_not_linearizable]), a clerk is used by one
      goroutine at a time (else see [concurrent_clerk_not_linearizable]), clerks have
      different ids, and the logs are calm as above.  The clerk returns once a leader answers.
    - Network: a call is executed at most once, its reply is the handler's, and on a
      reliable network an undisturbed call to a live server succeeds.
    - Harnesses: links are enabled exactly between attached peers, partitions are
      what the tests ask for, and the checks of the harness hold of every run of the
      cluster.  The peers, the network and the harness together refine the cluster: in
      every interleaving the readers' checks pass and delivered requests are served, as
      long as the logs are calm and crashed peers send nothing more on [applyCh] ([settled]).
    - MapReduce: sequential jobs, and distributed ones whose [Wait] saw every goroutine,
      compute the reference result, for the two applications the counts and the index,
      when no file of an earlier job is left and the strings are valid UTF-8; [schedule]
      may return too early.
    - etcd example: without disk failures the node never fails on what the raft library
      promises; without snapshots, too, every committed entry is published once and in
      order, and the store is the replayed log as long as the node has saved no snapshot.
      Every raft message survives encoding and
      decoding, the decoders end on all data, a proposed configuration change is the one
      that nodes apply, and the server for the peers can always be stopped.
    - Others: replacing a key on disk is atomic under crashes of the process, a shard is read
      back, a lock is never released, the sharded clerks return what the right group said; a
      server on a socket serves a connection at most once, none that it accepts after
      it was killed, and then its loop ends.
    - Defects are theorems too: panics and wrong results at concrete runs.

    ** Bounds and fuel

    Indices, terms and counts of the Raft peer are unbounded [Z], and a cluster takes
    no step once a term is the largest [int] ([bounded]); request numbers of the clerk,
    MapReduce counters and etcd's [uint64] indices wrap at 64 bits, the counters of
    connections at 32.  The clerks of KvCluster.v take no new request once a number is the
    largest [int] ([kc_limits]).
    Endless retry loops ([clerk_loop], [master_loop], [shard_loop]) take a number of
    passes, and theorems state how many are enough for them to return.  [sov_loop]
    takes the ten iterations a 64-bit varint can need; [runes_upto] takes the length
    of the string, every rune being at least one byte.  [varint] takes eleven iterations,
    of which the code makes at most ten; the loops of [skipRaft] and [Unmarshal] take the length of
    the data, as every field has at least one byte ([unmarshal_terminates]).  Cluster size is any [n >= 2].

    ** Not modelled, and why

    - Logging, locking (critical sections are atomic steps) and real time: timers
      fire and messages arrive at any moment.
    - Data races within [GetState], which reads the term and the state without the lock.
    - What the handlers of a crashed peer do to it; its late messages on [applyCh] are steps of
      LabShared.v that the theorems exclude.
    - Crashes of a machine, which may lose file contents that were not synced (DisKV.v).
    - The vendored etcd raft beyond its storage and its wire format, its transport, the write-ahead
      log, net/http, the flag package, net/rpc and gob: they are inputs or parameters with the laws the code
      relies on, as is JSON in EtcdKv.v. *)
From Stdlib Require Export ZArith Lia.
From stdpp Require Export base tactics functions list list_numbers numbers gmap strings sorting relations.

(** ** Tactics *)


(** Turns the boolean tests the code is written with into propositions. *)
Ltac boolify :=
  repeat match goal with
  | H : (_ && _) = true |- _ => apply andb_true_iff in H as [? ?]
  | H : (_ && _) = false |- _ => apply andb_false_iff in H
  | H : (_ || _) = true |- _ => apply orb_true_iff in H
  | H : (_ || _) = false |- _ => apply orb_false_iff in H as [? ?]
  | H : negb _ = true |- _ => apply negb_true_iff in H
  | H : negb _ = false |- _ => apply negb_false_iff in H
  | H : (_ <? _)%Z = true |- _ => apply Z.ltb_lt in H
  | H : (_ <? _)%Z = false |- _ => apply Z.ltb_ge in H
  | H : (_ <=? _)%Z = true |- _ => apply Z.leb_le in H
  | H : (_ <=? _)%Z = false |- _ => apply Z.leb_gt in H
  | H : (_ =? _)%Z = true |- _ => apply Z.eqb_eq in H
  | H : (_ =? _)%Z = false |- _ => apply Z.eqb_neq in H
  end.

(** Splits on the first test or match of the goal. *)
Ltac case_test :=
  match goal with
  | |- context [if ?b then _ else _] => destruct b eqn:?; boolify
  | |- context [match ?x with _ => _ end] => destruct x eqn:?; boolify
  end.

(** ** Prefixes of lists, compared with [take] *)

Section take_eq.
Context {A : Type}.
Implicit Types l : list A.

Lemma take_eq_lookup (n : nat) l1 l2 :
  (∀ x, (x < n)%nat → l1 !! x = l2 !! x) → take n l1 = take n l2.
Proof.
  intros H. apply list_eq. intros x. destruct (decide (x < n)%nat).
  - rewrite !lookup_take_lt by done. auto.
  - rewrite !lookup_take_ge by lia. done.
Qed.

Lemma take_eq_lookup_1 (n x : nat) l1 l2 :
  take n l1 = take n l2 → (x < n)%nat → l1 !! x = l2 !! x.
Proof.
  intros H ?. rewrite <- (lookup_take_lt l1 n x), <- (lookup_take_lt l2 n x) by done.
  by rewrite H.
Qed.

Lemma take_eq_le (m n : nat) l1 l2 :
  take n l1 = take n l2 → (m ≤ n)%nat → take m l1 = take m l2.
Proof.
  intros H ?. apply take_eq_lookup. intros x ?. eapply take_eq_lookup_1; [done|lia].
Qed.

Lemma take_eq_length_le (n : nat) l1 l2 :
  take n l1 = take n l2 → (n ≤ length l1)%nat → (n ≤ length l2)%nat.
Proof. intros H ?. apply (f_equal length) in H. rewrite !length_take in H. lia. Qed.

Lemma take_eq_app (n : nat) l1 l2 : (n ≤ length l1)%nat → take n l1 = take n (l1 ++ l2).
Proof. intros. by rewrite take_app_le. Qed.

Lemma take_prefix_eq (n : nat) l1 l2 :
  l1 `prefix_of` l2 → (n ≤ length l1)%nat → take n l1 = take n l2.
Proof. intros [k ->]. apply take_eq_app. Qed.

End take_eq.

Lemma filter_all {A} (P : A → Prop) `{∀ x, Decision (P x)} (l : list A) :
  Forall P l → filter P l = l.
Proof.
  induction 1 as [|x l Hx _ IH]; [done|]. by rewrite filter_cons_True, IH.
Qed.

Lemma delete_missing {A} (l : list A) k : l !! k = None → delete k l = l.
Proof. revert k. induction l as [|x l IH]; intros [|k] H; simpl; try done. f_equal. by apply IH. Qed.

(** ** Runs *)

Lemma rtc_keeps {A} (R : relation A) (P : A → Prop) :
  (∀ x y, R x y → P x → P y) → ∀ x y, rtc R x y → P x → P y.
Proof. intros Hstep x y. induction 1; eauto. Qed.
