(* ===== verification/GoRt.v ===== *)
(** * The Go run time the modelled code relies on

    - [res], [M]: a computation over a mutable object that can panic;
    - [wrap64], [wrap32]: the two's-complement [int] and [int32];
    - [go_at], [go_slice], [go_set]: slices indexed by [int], with the run-time
      panic of an index out of range;
    - [Itoa], [sort_Strings]: library functions on strings;
    - [wp]: the weakest precondition used to state what a computation does. *)
From Stdlib Require Ascii.
From stdpp Require Import pretty.
From S2P Require Import Prelude.
Open Scope Z_scope.

(** ** Panicking computations over a state *)

Inductive res (A : Type) : Type :=
| Ok (a : A)
| Panic (why : string).
Arguments Ok {A} a.
Arguments Panic {A} why.

Definition M (S A : Type) : Type := S → res (A * S).

Definition ret {S A} (a : A) : M S A := λ s, Ok (a, s).
Definition bind {S A B} (m : M S A) (k : A → M S B) : M S B :=
  λ s, match m s with Ok (a, s') => k a s' | Panic w => Panic w end.
Definition panic {S A} (w : string) : M S A := λ _, Panic w.
Definition get {S} : M S S := λ s, Ok (s, s).
Definition modify {S} (f : S → S) : M S () := λ s, Ok (tt, f s).
Definition gets {S A} (f : S → A) : M S A := λ s, Ok (f s, s).

Declare Scope go_scope.
Delimit Scope go_scope with go.
Notation "x <- m ;; k" := (bind m (λ x, k))
  (at level 100, m at next level, right associativity) : go_scope.
Notation "m ;; k" := (bind m (λ _, k))
  (at level 100, right associativity) : go_scope.
Notation "'when' b 'do' m" := (if b then m else ret tt)
  (at level 99, b at level 98, m at level 98) : go_scope.
Open Scope go_scope.

(** [for _, x := range l { body }] *)
Fixpoint for_range {S A} (l : list A) (body : A → M S ()) : M S () :=
  match l with
  | [] => ret tt
  | x :: l' => body x ;; for_range l' body
  end.

(** A value that must be there, or the named run-time panic. *)
Definition must {S A} (w : string) (o : option A) : M S A :=
  match o with Some a => ret a | None => panic w end.

(** ** The [int] type *)

Definition max_int : Z := 2 ^ 63 - 1.
Definition wrap64 (z : Z) : Z := (z + 2 ^ 63) mod 2 ^ 64 - 2 ^ 63.

(** The 32-bit [int32]. *)
Definition wrap32 (z : Z) : Z := (z + 2 ^ 31) mod 2 ^ 32 - 2 ^ 31.

Lemma wrap64_id z : - 2 ^ 63 ≤ z ≤ max_int → wrap64 z = z.
Proof. unfold wrap64, max_int. intros. rewrite Z.mod_small; lia. Qed.

Lemma wrap64_range z : - 2 ^ 63 ≤ wrap64 z ≤ max_int.
Proof.
  unfold wrap64, max_int.
  pose proof (Z.mod_pos_bound (z + 2 ^ 63) (2 ^ 64) ltac:(lia)). lia.
Qed.

(** ** Slices *)

Definition go_len {A} (l : list A) : Z := Z.of_nat (length l).

(** [l[i]]: [None] stands for the run-time panic "index out of range". *)
Definition go_at {A} (l : list A) (i : Z) : option A :=
  if i <? 0 then None else l !! Z.to_nat i.

(** [l[lo:hi]]; capacities are not modelled, so a bound past the length panics. *)
Definition go_slice {A} (l : list A) (lo hi : Z) : option (list A) :=
  if (0 <=? lo) && (lo <=? hi) && (hi <=? go_len l)
  then Some (drop (Z.to_nat lo) (take (Z.to_nat hi) l)) else None.

(** [l[i] = x] *)
Definition go_set {A} (l : list A) (i : Z) (x : A) : option (list A) :=
  if (0 <=? i) && (i <? go_len l) then Some (<[Z.to_nat i := x]> l) else None.

(** [make([]T, n)] filled with the zero value. *)
Definition go_make {A} (n : Z) (zero : A) : list A := replicate (Z.to_nat n) zero.

Definition index_panic : string := "runtime error: index out of range".
Definition slice_panic : string := "runtime error: slice bounds out of range".

(** The indices [for i := range l] visits. *)
Definition go_range {A} (l : list A) : list Z := seqZ 0 (go_len l).

(** ** Strings *)

(** [strconv.Itoa] *)
Definition Itoa (z : Z) : string := pretty z.

(** [sort.Strings] *)
Definition sort_Strings (l : list string) : list string := merge_sort String.le l.

(** ** Weakest preconditions

    [wp E m Q s]: run from [s], [m] returns with [Q] of its result and final state, or
    panics with a message that satisfies [E]. *)

Definition wp {S A} (E : string → Prop) (m : M S A) (Q : A → S → Prop) (s : S) : Prop :=
  match m s with Ok (a, s') => Q a s' | Panic w => E w end.

Section wp.
Context {S : Type} (E : string → Prop).

Lemma wp_ret {A} (a : A) Q (s : S) : Q a s → wp E (ret a) Q s.
Proof. done. Qed.
Lemma wp_bind {A B} (m : M S A) (k : A → M S B) Q (s : S) :
  wp E m (λ a s', wp E (k a) Q s') s → wp E (bind m k) Q s.
Proof. unfold wp, bind. by destruct (m s) as [[a s']|]. Qed.
(** The first two statements of a sequence, taken together. *)
Lemma wp_bind_assoc {A B D} (m : M S A) (k : A → M S B) (h : B → M S D) Q (s : S) :
  wp E (bind m k) (λ b s', wp E (h b) Q s') s → wp E (bind m (λ a, bind (k a) h)) Q s.
Proof. unfold wp, bind. destruct (m s) as [[a s']|]; [|done]. by destruct (k a s') as [[b s'']|]. Qed.
Lemma wp_get Q (s : S) : Q s s → wp E get Q s.
Proof. done. Qed.
Lemma wp_gets {A} (f : S → A) Q (s : S) : Q (f s) s → wp E (gets f) Q s.
Proof. done. Qed.
Lemma wp_modify (f : S → S) Q (s : S) : Q tt (f s) → wp E (modify f) Q s.
Proof. done. Qed.
Lemma wp_panic {A} w (Q : A → S → Prop) (s : S) : E w → wp E (panic w) Q s.
Proof. done. Qed.
Lemma wp_must {A} w (o : option A) a Q (s : S) : o = Some a → Q a s → wp E (must w o) Q s.
Proof. by intros ->. Qed.
Lemma wp_mono {A} (m : M S A) (Q Q' : A → S → Prop) (s : S) :
  wp E m Q s → (∀ a s', Q a s' → Q' a s') → wp E m Q' s.
Proof. unfold wp. destruct (m s) as [[a s']|]; auto. Qed.

Lemma wp_weaken {A} (E' : string → Prop) (m : M S A) Q (s : S) :
  (∀ w, E' w → E w) → wp E' m Q s → wp E m Q s.
Proof. unfold wp. destruct (m s) as [[a s']|]; auto. Qed.

Lemma wp_ok {A} (m : M S A) Q (s : S) a s' : wp E m Q s → m s = Ok (a, s') → Q a s'.
Proof. unfold wp. intros H Heq. by rewrite Heq in H. Qed.
Lemma wp_panicked {A} (m : M S A) Q (s : S) w : wp E m Q s → m s = Panic w → E w.
Proof. unfold wp. intros H Heq. by rewrite Heq in H. Qed.

Lemma wp_total {A} (m : M S A) Q (s : S) :
  wp (λ _, False) m Q s → ∃ a s', m s = Ok (a, s') ∧ Q a s'.
Proof. unfold wp. destruct (m s) as [[a s']|]; naive_solver. Qed.

(** A loop keeps an invariant of the elements still to visit. *)
Lemma wp_for_range {A} (body : A → M S ()) (I : list A → S → Prop) l (s : S) :
  I l s → (∀ x l' s, I (x :: l') s → wp E (body x) (λ _, I l') s) →
  wp E (for_range l body) (λ _, I []) s.
Proof.
  intros H Hb. revert s H. induction l as [|x l IH]; intros s H; simpl; [by apply wp_ret|].
  apply wp_bind. eapply wp_mono; [by apply Hb|]. intros ? s' H'. by apply IH.
Qed.
End wp.

(** One step of symbolic execution. *)
Ltac wp_step :=
  lazymatch goal with
  | |- wp _ (bind _ _) _ _ => apply wp_bind
  | |- wp _ (ret _) _ _ => apply wp_ret
  | |- wp _ get _ _ => apply wp_get
  | |- wp _ (gets _) _ _ => apply wp_gets
  | |- wp _ (modify _) _ _ => apply wp_modify
  end; cbv beta.
Ltac wp_steps := repeat wp_step.

(** ** Parts of the state a computation does not touch *)

Definition keeps {S A B} (f : S → B) (m : M S A) : Prop :=
  ∀ s a s', m s = Ok (a, s') → f s' = f s.

Section keeps.
Context {S B : Type} (f : S → B).

Lemma keeps_ret {A} (a : A) : keeps f (ret a).
Proof. intros s a' s' H. by injection H as _ <-. Qed.
Lemma keeps_get : keeps f get.
Proof. intros s a' s' H. by injection H as _ <-. Qed.
Lemma keeps_gets {A} (g : S → A) : keeps f (gets g).
Proof. intros s a' s' H. by injection H as _ <-. Qed.
Lemma keeps_modify g : (∀ s, f (g s) = f s) → keeps f (modify g).
Proof. intros Hg s a' s' H. injection H as _ <-. apply Hg. Qed.
Lemma keeps_panic {A} w : keeps f (panic w : M S A).
Proof. by intros s a' s' H. Qed.
Lemma keeps_must {A} w (o : option A) : keeps f (must w o).
Proof. destruct o; [apply keeps_ret|apply keeps_panic]. Qed.
Lemma keeps_bind {A D} (m : M S A) (k : A → M S D) :
  keeps f m → (∀ a, keeps f (k a)) → keeps f (bind m k).
Proof.
  intros Hm Hk s a' s' H. unfold bind in H. destruct (m s) as [[a s1]|] eqn:E; [|done].
  etrans; [by eapply Hk|by eapply Hm].
Qed.
Lemma keeps_for_range {A} (l : list A) body :
  (∀ x, keeps f (body x)) → keeps f (for_range l body).
Proof.
  intros Hb. induction l as [|x l IH]; simpl; [apply keeps_ret|].
  by apply keeps_bind; [|intros _].
Qed.
End keeps.

Create HintDb keeps discriminated.

(** Splits a computation into its parts; operations with a lemma come from the database. *)
Ltac keeps_tac :=
  repeat lazymatch goal with
  | |- keeps _ (bind _ _) => apply keeps_bind; [|intros ?]
  | |- keeps _ (ret _) => apply keeps_ret
  | |- keeps _ get => apply keeps_get
  | |- keeps _ (gets _) => apply keeps_gets
  | |- keeps _ (panic _) => apply keeps_panic
  | |- keeps _ (must _ _) => apply keeps_must
  | |- keeps _ (modify _) => apply keeps_modify; intros ?; solve [reflexivity | by case_match]
  | |- keeps _ (for_range _ _) => apply keeps_for_range; intros ?
  | |- keeps _ (match ?x with _ => _ end) => destruct x
  | |- keeps _ _ => solve [auto with keeps nocore]
  end.

(** ** Facts on slices *)

Lemma go_at_Some {A} (l : list A) i x :
  go_at l i = Some x ↔ 0 ≤ i ∧ l !! Z.to_nat i = Some x.
Proof. unfold go_at. case_test; split; [done|lia|auto|by intros [??]]. Qed.

Lemma go_at_is_Some {A} (l : list A) i : 0 ≤ i < go_len l → is_Some (go_at l i).
Proof.
  unfold go_at, go_len. intros. case_test; [lia|]. apply lookup_lt_is_Some. lia.
Qed.

Lemma go_set_eq {A} (l : list A) i x :
  0 ≤ i < go_len l → go_set l i x = Some (<[Z.to_nat i := x]> l).
Proof.
  intros [? ?]. unfold go_set.
  by rewrite (proj2 (Z.leb_le _ _)), (proj2 (Z.ltb_lt _ _)).
Qed.

Lemma go_slice_eq {A} (l : list A) lo hi :
  0 ≤ lo ≤ hi → hi ≤ go_len l →
  go_slice l lo hi = Some (drop (Z.to_nat lo) (take (Z.to_nat hi) l)).
Proof.
  intros [? ?] ?. unfold go_slice. by rewrite !(proj2 (Z.leb_le _ _)).
Qed.

Lemma go_slice_tail {A} (l : list A) lo :
  0 ≤ lo ≤ go_len l → go_slice l lo (go_len l) = Some (drop (Z.to_nat lo) l).
Proof.
  intros. rewrite go_slice_eq by lia. unfold go_len. by rewrite Nat2Z.id, firstn_all.
Qed.

Lemma elem_of_go_range {A} (l : list A) i : i ∈ go_range l ↔ 0 ≤ i < go_len l.
Proof. unfold go_range. rewrite elem_of_seqZ. lia. Qed.

(** ** Loops over the numbers below [n] *)

(** By the number of the next iteration. *)
Lemma wp_for_seqZ {S} n (body : Z → M S ()) (I : Z → S → Prop) s :
  0 ≤ n → I 0 s → (∀ k s, I k s → 0 ≤ k < n → wp (λ _, False) (body k) (λ _, I (k + 1)) s) →
  wp (λ _, False) (for_range (seqZ 0 n) body) (λ _, I n) s.
Proof.
  intros Hn H0 Hb. eapply wp_mono.
  - apply (wp_for_range _ _ (λ l s, ∃ k, 0 ≤ k ≤ n ∧ l = seqZ k (n - k) ∧ I k s)).
    + exists 0. rewrite Z.sub_0_r. split_and!; [lia..|done|done].
    + intros x l s' (k & Hk & Hl & HI). destruct (decide (k = n)) as [->|].
      { by rewrite Z.sub_diag in Hl. }
      rewrite seqZ_cons in Hl by lia. injection Hl as -> ->.
      eapply wp_mono; [apply Hb; [done|lia]|]. intros ? s'' HI'. exists (k + 1).
      split_and!; [lia..| |done]. f_equal; lia.
  - intros ? s' (k & Hk & Hl & HI). destruct (decide (k = n)) as [->|]; [done|].
    rewrite seqZ_cons in Hl by lia. done.
Qed.

(** ** Decimal numbers *)

Definition digit (c : Ascii.ascii) : Prop := ∃ x, (x < 10)%N ∧ c = pretty_N_char x.

Fixpoint all_digits (s : string) : Prop :=
  match s with EmptyString => True | String.String c s' => digit c ∧ all_digits s' end.

Lemma pretty_N_go_digits (x : N) (s : string) :
  (all_digits s ∧ (x = 0%N → s ≠ EmptyString)) → all_digits (pretty_N_go x s) ∧ pretty_N_go x s ≠ EmptyString.
Proof.
  revert s. induction (N.lt_wf_0 x) as [x _ IH]; intros s [Hs Hne].
  destruct (decide (x = 0%N)) as [->|Hx]; [rewrite pretty_N_go_0; auto|].
  rewrite pretty_N_go_step by lia.
  apply IH; [apply N.div_lt; lia|]. split; [|done].
  split; [|done]. exists (x `mod` 10)%N. split; [apply N.mod_lt; lia|done].
Qed.

Lemma Itoa_digits z : 0 ≤ z → all_digits (Itoa z) ∧ Itoa z ≠ EmptyString.
Proof.
  intros Hz. destruct z as [|p|p]; [|..|lia].
  - split; [|done]. split; [|done]. by exists 0%N.
  - change (Itoa (Z.pos p)) with (pretty_N_go (N.pos p) EmptyString).
    apply pretty_N_go_digits. split; [done|]. lia.
Qed.

(** A digit is neither a dash nor the letter r. *)
Lemma digit_char c : digit c → c ≠ Ascii.ascii_of_nat 45 ∧ c ≠ Ascii.ascii_of_nat 114.
Proof.
  intros (x & Hx & ->).
  do 10 (destruct x as [|x _] using N.peano_ind; [done|]). lia.
Qed.

(** A run of digits ends at the first dash. *)
Lemma digits_dash a a' b b' :
  all_digits a → all_digits a' → (a +:+ "-" +:+ b = a' +:+ "-" +:+ b')%string → a = a' ∧ b = b'.
Proof.
  revert a'. induction a as [|c a IH]; intros [|c' a'] Ha Ha' Heq; cbn in *; simplify_eq; auto.
  - destruct Ha' as [Hd _]. by apply digit_char in Hd as [? _].
  - destruct Ha as [Hd _]. by apply digit_char in Hd as [? _].
  - destruct Ha, Ha'. edestruct (IH a') as [-> ->]; auto.
Qed.
