(* ===== verification/Utf8.v ===== *)
(** * Strings as UTF-8 ([unicode/utf8], [encoding/json])

    A Go string is a sequence of bytes.  [decode_rune] reads a code point at its start, [runes] all
    of them.  [json_string] is what becomes of a string that [encoding/json] writes and reads back:
    bytes that are not UTF-8 are replaced; a valid string stays as it is ([json_string_valid]). *)
From Stdlib Require Import Ascii.
From Stdlib Require Strings.String.
From S2P Require Import Prelude GoRt.
Open Scope Z_scope.

(** ** Strings as runes *)

Definition byte (c : ascii) : Z := Z.of_nat (nat_of_ascii c).
Definition between (lo x hi : Z) : bool := (lo <=? x) && (x <=? hi).

(** [utf8.DecodeRuneInString]: the code point and the number of its bytes; a byte
    that starts no valid sequence is one U+FFFD. *)
Definition decode_rune (s : list ascii) : Z * nat :=
  match map byte (take 4 s) with
  | [] => (65533, 0%nat)
  | b0 :: t =>
      if b0 <? 128 then (b0, 1%nat) else
      match t with
      | b1 :: t1 =>
          if between 194 b0 223 && between 128 b1 191
          then ((b0 - 192) * 64 + (b1 - 128), 2%nat) else
          match t1 with
          | b2 :: t2 =>
              if between 224 b0 239 && between (if b0 =? 224 then 160 else 128) b1 (if b0 =? 237 then 159 else 191)
                 && between 128 b2 191
              then ((b0 - 224) * 4096 + (b1 - 128) * 64 + (b2 - 128), 3%nat) else
              match t2 with
              | b3 :: _ =>
                  if between 240 b0 244 && between (if b0 =? 240 then 144 else 128) b1 (if b0 =? 244 then 143 else 191)
                     && between 128 b2 191 && between 128 b3 191
                  then ((b0 - 240) * 262144 + (b1 - 128) * 4096 + (b2 - 128) * 64 + (b3 - 128), 4%nat)
                  else (65533, 1%nat)
              | [] => (65533, 1%nat)
              end
          | [] => (65533, 1%nat)
          end
      | [] => (65533, 1%nat)
      end
  end.

(** The runes of a string with their bytes; a rune takes at least one byte, so the
    length of the string is fuel enough. *)
Fixpoint runes_upto (fuel : nat) (s : list ascii) : list (Z * list ascii) :=
  match fuel, s with
  | O, _ | _, [] => []
  | S fuel', _ => let '(r, n) := decode_rune s in (r, take n s) :: runes_upto fuel' (drop n s)
  end.
Definition runes (s : string) : list (Z * list ascii) :=
  let l := String.list_ascii_of_string s in runes_upto (length l) l.

(** A string as [encoding/json] writes and reads it: a byte that is not part of a valid
    sequence becomes U+FFFD. *)
Definition invalid_rune (r : Z * list ascii) : bool := (r.1 =? 65533) && (length r.2 =? 1)%nat.
Definition replacement : list ascii := map ascii_of_nat [239; 191; 189]%nat.
Definition json_string (s : string) : string :=
  String.string_of_list_ascii (concat (map (λ r, if invalid_rune r then replacement else r.2) (runes s))).
(** [utf8.ValidString] *)
Definition valid_utf8 (s : string) : bool := forallb (λ r, negb (invalid_rune r)) (runes s).

Lemma decode_rune_size l : l ≠ [] → (1 ≤ (decode_rune l).2)%nat.
Proof. unfold decode_rune. destruct l as [|c l]; [done|]. intros _. cbn [take map]. repeat case_match; simpl; lia. Qed.

Lemma runes_concat fuel l : (length l ≤ fuel)%nat → concat (map snd (runes_upto fuel l)) = l.
Proof.
  revert l. induction fuel as [|fuel IH]; intros l Hl; [by destruct l; [|simpl in Hl; lia]|].
  cbn [runes_upto]. destruct l as [|c l]; [done|]. pose proof (decode_rune_size (c :: l) ltac:(done)) as Hn.
  destruct (decode_rune (c :: l)) as [r n]. cbn [map snd concat] in *. rewrite IH; [apply take_drop|].
  rewrite length_drop. cbn [length] in *. lia.
Qed.

Lemma json_string_valid s : valid_utf8 s = true → json_string s = s.
Proof.
  unfold valid_utf8, json_string. intros Hv. rewrite <- (String.string_of_list_ascii_of_string s) at 2. f_equal.
  etrans; [|apply (runes_concat (length (String.list_ascii_of_string s)) (String.list_ascii_of_string s)); done].
  f_equal. fold (runes s).
  apply map_ext_in. intros r Hr. rewrite forallb_forall in Hv. by rewrite (proj1 (negb_true_iff _) (Hv r Hr)).
Qed.
