(* ===== verification/RaftTypes.v ===== *)
(** * Data of the MIT lab Raft peer (src/mit/src/raft/raft.go, persister.go)

    The records keep the fields of the Go structs.  A Go [int] is a [Z]; the
    commands of the replicated log (Go's [interface{}]) are an arbitrary type [C],
    [None] standing for [nil].  Fields that only carry logging, locking or
    unused channels are left out. *)
From S2P Require Import Prelude GoRt.
Open Scope Z_scope.

(** [const None int = -1] *)
Definition NoneId : Z := -1.

Inductive MessageType : Type :=
| MsgVote | MsgApp | MsgVoteResp | MsgAppResp | MsgStart | MsgState.

#[export] Instance MessageType_eq_dec : EqDecision MessageType.
Proof. solve_decision. Defined.

Inductive RaftState : Type := StateFollower | StateCandidate | StateLeader.

#[export] Instance RaftState_eq_dec : EqDecision RaftState.
Proof. solve_decision. Defined.

Definition convertStateToString (status : RaftState) : string :=
  match status with
  | StateFollower => "follower"
  | StateCandidate => "candidate"
  | StateLeader => "leader"
  end.

(** The two functions assigned to [raft.tick] and the three assigned to [raft.step]. *)
Inductive tickFunc : Type := tickElectionF | tickHeartbeatF.
Inductive stepFunc : Type := stepFollowerF | stepCandidateF | stepLeaderF.

(** [type Log struct]: a log entry. *)
Record Log (C : Type) : Type := mkLog {
  Log_Term : Z;
  Log_Command : option C;
  Log_Index : Z;
}.
Arguments mkLog {C}.
Arguments Log_Term {C}.
Arguments Log_Command {C}.
Arguments Log_Index {C}.

#[export] Instance Log_eq_dec {C} `{EqDecision C} : EqDecision (Log C).
Proof. solve_decision. Defined.

Record RequestVoteArgs : Type := mkRequestVoteArgs {
  RVA_Term : Z;
  RVA_CandidateId : Z;
  RVA_LastLogIndex : Z;
  RVA_LastLogTerm : Z;
}.

Record RequestVoteReply : Type := mkRequestVoteReply {
  RVR_Term : Z;
  RVR_VoteGranted : bool;
}.

Record AppendEntiesArgs (C : Type) : Type := mkAppendEntiesArgs {
  AEA_Term : Z;
  AEA_LeaderId : Z;
  AEA_LeaderCommit : Z;
  AEA_PrevLogIndex : Z;
  AEA_PrevLogTerm : Z;
  AEA_Entries : list (Log C);
}.
Arguments mkAppendEntiesArgs {C}.
Arguments AEA_Term {C}.
Arguments AEA_LeaderId {C}.
Arguments AEA_LeaderCommit {C}.
Arguments AEA_PrevLogIndex {C}.
Arguments AEA_PrevLogTerm {C}.
Arguments AEA_Entries {C}.

Record AppendEntiesReply : Type := mkAppendEntiesReply {
  AER_Term : Z;
  AER_Success : bool;
  AER_NextIndex : Z;
  AER_FollowerCommitIndex : Z;
  AER_ConflictTerm : Z;
  AER_ConflictIndex : Z;
}.

Definition RequestVoteReply_zero : RequestVoteReply := mkRequestVoteReply 0 false.
Definition AppendEntiesReply_zero : AppendEntiesReply := mkAppendEntiesReply 0 false 0 0 0 0.

(** The dynamic types that [Message.args] and [Message.reply] hold. *)
Inductive Args (C : Type) : Type :=
| NoArgs
| VoteArgs (a : RequestVoteArgs)
| AppArgs (a : AppendEntiesArgs C).
Arguments NoArgs {C}.
Arguments VoteArgs {C} a.
Arguments AppArgs {C} a.

Inductive Reply : Type :=
| NoReply
| VoteReply (r : RequestVoteReply)
| AppReply (r : AppendEntiesReply).

Record Message (C : Type) : Type := mkMessage {
  Msg_Type : MessageType;
  Msg_From : Z;
  Msg_To : Z;
  Msg_Term : Z;
  Msg_Index : Z;
  Msg_isLeader : bool;
  Msg_data : option C;
  Msg_svcMeth : string;
  Msg_args : Args C;
  Msg_reply : Reply;
}.
Arguments mkMessage {C}.
Arguments Msg_Type {C}.
Arguments Msg_From {C}.
Arguments Msg_To {C}.
Arguments Msg_Term {C}.
Arguments Msg_Index {C}.
Arguments Msg_isLeader {C}.
Arguments Msg_data {C}.
Arguments Msg_svcMeth {C}.
Arguments Msg_args {C}.
Arguments Msg_reply {C}.

Record ApplyMsg (C : Type) : Type := mkApplyMsg {
  Apply_Index : Z;
  Apply_Command : option C;
}.
Arguments mkApplyMsg {C}.
Arguments Apply_Index {C}.
Arguments Apply_Command {C}.

(** ** The persister

    encoding/gob is modelled as a stream of typed values: an encoder appends the
    value it is given, a decoder takes the first value of the stream; at the end
    of the stream [Decode] fails and leaves its target as it was. *)
Inductive gobval (C : Type) : Type :=
| GobInt (z : Z)
| GobLog (l : list (Log C)).
Arguments GobInt {C} z.
Arguments GobLog {C} l.

Definition gob_decode_int {C} (old : Z) (d : list (gobval C)) : Z * list (gobval C) :=
  match d with
  | GobInt z :: d' => (z, d')
  | _ :: d' => (old, d')
  | [] => (old, [])
  end.

Definition gob_decode_log {C} (old : list (Log C)) (d : list (gobval C)) :
    list (Log C) * list (gobval C) :=
  match d with
  | GobLog l :: d' => (l, d')
  | _ :: d' => (old, d')
  | [] => (old, [])
  end.

Record Persister (C : Type) : Type := mkPersister {
  raftstate : list (gobval C);
  snapshot : list Z;
}.
Arguments mkPersister {C}.
Arguments raftstate {C}.
Arguments snapshot {C}.

Definition MakePersister {C} : Persister C := mkPersister [] [].
Definition Persister_Copy {C} (ps : Persister C) : Persister C :=
  mkPersister ps.(raftstate) ps.(snapshot).
Definition SaveRaftState {C} (data : list (gobval C)) (ps : Persister C) : Persister C :=
  mkPersister data ps.(snapshot).
Definition ReadRaftState {C} (ps : Persister C) : list (gobval C) := ps.(raftstate).
Definition SaveSnapshot {C} (snap : list Z) (ps : Persister C) : Persister C :=
  mkPersister ps.(raftstate) snap.
Definition ReadSnapshot {C} (ps : Persister C) : list Z := ps.(snapshot).

(** ** The peer *)

Record Raft (C : Type) : Type := mkRaft {
  peers : list Z;                       (* the ends; [Call] on [peers[i]] reaches server [i] *)
  me : Z;
  persister : Persister C;
  currentTerm : Z;
  votedFor : Z;
  log : list (Log C);                   (* [nil] is [[]] *)
  commitIndex : Z;
  lastApplied : Z;
  nextIndex : list Z;
  matchIndex : list Z;
  state : RaftState;
  electionElapsed : Z;
  heartbeatElapsed : Z;
  heartbeatTimeout : Z;
  electionTimeout : Z;
  randomizedElectionTimeout : Z;
  tickc : Z;                            (* ticks buffered in the channel, capacity 10 *)
  tick : option tickFunc;
  lead : Z;
  votes : gmap Z bool;
  step : option stepFunc;
  commitc : list Z;                     (* commit indices sent and not yet received *)
  propc : list (Message C);             (* goroutines waiting to send on [propc] *)
  stopc : bool;                         (* is the channel closed? *)
  replyNextIndex : Z;
  globalRand : list Z;                  (* the raw draws [globalRand] will make next *)
}.
Arguments mkRaft {C}.
Arguments peers {C}.
Arguments me {C}.
Arguments persister {C}.
Arguments currentTerm {C}.
Arguments votedFor {C}.
Arguments log {C}.
Arguments commitIndex {C}.
Arguments lastApplied {C}.
Arguments nextIndex {C}.
Arguments matchIndex {C}.
Arguments state {C}.
Arguments electionElapsed {C}.
Arguments heartbeatElapsed {C}.
Arguments heartbeatTimeout {C}.
Arguments electionTimeout {C}.
Arguments randomizedElectionTimeout {C}.
Arguments tickc {C}.
Arguments tick {C}.
Arguments lead {C}.
Arguments votes {C}.
Arguments step {C}.
Arguments commitc {C}.
Arguments propc {C}.
Arguments stopc {C}.
Arguments replyNextIndex {C}.
Arguments globalRand {C}.

Section setters.
Context {C : Type}.
Implicit Types r : Raft C.

Definition set_peers (v : list Z) r : Raft C :=
  mkRaft v r.(me) r.(persister) r.(currentTerm) r.(votedFor) r.(log) r.(commitIndex)
    r.(lastApplied) r.(nextIndex) r.(matchIndex) r.(state) r.(electionElapsed)
    r.(heartbeatElapsed) r.(heartbeatTimeout) r.(electionTimeout) r.(randomizedElectionTimeout)
    r.(tickc) r.(tick) r.(lead) r.(votes) r.(step) r.(commitc) r.(propc) r.(stopc)
    r.(replyNextIndex) r.(globalRand).
Definition set_me (v : Z) r : Raft C :=
  mkRaft r.(peers) v r.(persister) r.(currentTerm) r.(votedFor) r.(log) r.(commitIndex)
    r.(lastApplied) r.(nextIndex) r.(matchIndex) r.(state) r.(electionElapsed)
    r.(heartbeatElapsed) r.(heartbeatTimeout) r.(electionTimeout) r.(randomizedElectionTimeout)
    r.(tickc) r.(tick) r.(lead) r.(votes) r.(step) r.(commitc) r.(propc) r.(stopc)
    r.(replyNextIndex) r.(globalRand).
Definition set_persister (v : Persister C) r : Raft C :=
  mkRaft r.(peers) r.(me) v r.(currentTerm) r.(votedFor) r.(log) r.(commitIndex) r.(lastApplied)
    r.(nextIndex) r.(matchIndex) r.(state) r.(electionElapsed) r.(heartbeatElapsed)
    r.(heartbeatTimeout) r.(electionTimeout) r.(randomizedElectionTimeout) r.(tickc) r.(tick)
    r.(lead) r.(votes) r.(step) r.(commitc) r.(propc) r.(stopc) r.(replyNextIndex)
    r.(globalRand).
Definition set_currentTerm (v : Z) r : Raft C :=
  mkRaft r.(peers) r.(me) r.(persister) v r.(votedFor) r.(log) r.(commitIndex) r.(lastApplied)
    r.(nextIndex) r.(matchIndex) r.(state) r.(electionElapsed) r.(heartbeatElapsed)
    r.(heartbeatTimeout) r.(electionTimeout) r.(randomizedElectionTimeout) r.(tickc) r.(tick)
    r.(lead) r.(votes) r.(step) r.(commitc) r.(propc) r.(stopc) r.(replyNextIndex)
    r.(globalRand).
Definition set_votedFor (v : Z) r : Raft C :=
  mkRaft r.(peers) r.(me) r.(persister) r.(currentTerm) v r.(log) r.(commitIndex)
    r.(lastApplied) r.(nextIndex) r.(matchIndex) r.(state) r.(electionElapsed)
    r.(heartbeatElapsed) r.(heartbeatTimeout) r.(electionTimeout) r.(randomizedElectionTimeout)
    r.(tickc) r.(tick) r.(lead) r.(votes) r.(step) r.(commitc) r.(propc) r.(stopc)
    r.(replyNextIndex) r.(globalRand).
Definition set_log (v : list (Log C)) r : Raft C :=
  mkRaft r.(peers) r.(me) r.(persister) r.(currentTerm) r.(votedFor) v r.(commitIndex)
    r.(lastApplied) r.(nextIndex) r.(matchIndex) r.(state) r.(electionElapsed)
    r.(heartbeatElapsed) r.(heartbeatTimeout) r.(electionTimeout) r.(randomizedElectionTimeout)
    r.(tickc) r.(tick) r.(lead) r.(votes) r.(step) r.(commitc) r.(propc) r.(stopc)
    r.(replyNextIndex) r.(globalRand).
Definition set_commitIndex (v : Z) r : Raft C :=
  mkRaft r.(peers) r.(me) r.(persister) r.(currentTerm) r.(votedFor) r.(log) v r.(lastApplied)
    r.(nextIndex) r.(matchIndex) r.(state) r.(electionElapsed) r.(heartbeatElapsed)
    r.(heartbeatTimeout) r.(electionTimeout) r.(randomizedElectionTimeout) r.(tickc) r.(tick)
    r.(lead) r.(votes) r.(step) r.(commitc) r.(propc) r.(stopc) r.(replyNextIndex)
    r.(globalRand).
Definition set_lastApplied (v : Z) r : Raft C :=
  mkRaft r.(peers) r.(me) r.(persister) r.(currentTerm) r.(votedFor) r.(log) r.(commitIndex) v
    r.(nextIndex) r.(matchIndex) r.(state) r.(electionElapsed) r.(heartbeatElapsed)
    r.(heartbeatTimeout) r.(electionTimeout) r.(randomizedElectionTimeout) r.(tickc) r.(tick)
    r.(lead) r.(votes) r.(step) r.(commitc) r.(propc) r.(stopc) r.(replyNextIndex)
    r.(globalRand).
Definition set_nextIndex (v : list Z) r : Raft C :=
  mkRaft r.(peers) r.(me) r.(persister) r.(currentTerm) r.(votedFor) r.(log) r.(commitIndex)
    r.(lastApplied) v r.(matchIndex) r.(state) r.(electionElapsed) r.(heartbeatElapsed)
    r.(heartbeatTimeout) r.(electionTimeout) r.(randomizedElectionTimeout) r.(tickc) r.(tick)
    r.(lead) r.(votes) r.(step) r.(commitc) r.(propc) r.(stopc) r.(replyNextIndex)
    r.(globalRand).
Definition set_matchIndex (v : list Z) r : Raft C :=
  mkRaft r.(peers) r.(me) r.(persister) r.(currentTerm) r.(votedFor) r.(log) r.(commitIndex)
    r.(lastApplied) r.(nextIndex) v r.(state) r.(electionElapsed) r.(heartbeatElapsed)
    r.(heartbeatTimeout) r.(electionTimeout) r.(randomizedElectionTimeout) r.(tickc) r.(tick)
    r.(lead) r.(votes) r.(step) r.(commitc) r.(propc) r.(stopc) r.(replyNextIndex)
    r.(globalRand).
Definition set_state (v : RaftState) r : Raft C :=
  mkRaft r.(peers) r.(me) r.(persister) r.(currentTerm) r.(votedFor) r.(log) r.(commitIndex)
    r.(lastApplied) r.(nextIndex) r.(matchIndex) v r.(electionElapsed) r.(heartbeatElapsed)
    r.(heartbeatTimeout) r.(electionTimeout) r.(randomizedElectionTimeout) r.(tickc) r.(tick)
    r.(lead) r.(votes) r.(step) r.(commitc) r.(propc) r.(stopc) r.(replyNextIndex)
    r.(globalRand).
Definition set_electionElapsed (v : Z) r : Raft C :=
  mkRaft r.(peers) r.(me) r.(persister) r.(currentTerm) r.(votedFor) r.(log) r.(commitIndex)
    r.(lastApplied) r.(nextIndex) r.(matchIndex) r.(state) v r.(heartbeatElapsed)
    r.(heartbeatTimeout) r.(electionTimeout) r.(randomizedElectionTimeout) r.(tickc) r.(tick)
    r.(lead) r.(votes) r.(step) r.(commitc) r.(propc) r.(stopc) r.(replyNextIndex)
    r.(globalRand).
Definition set_heartbeatElapsed (v : Z) r : Raft C :=
  mkRaft r.(peers) r.(me) r.(persister) r.(currentTerm) r.(votedFor) r.(log) r.(commitIndex)
    r.(lastApplied) r.(nextIndex) r.(matchIndex) r.(state) r.(electionElapsed) v
    r.(heartbeatTimeout) r.(electionTimeout) r.(randomizedElectionTimeout) r.(tickc) r.(tick)
    r.(lead) r.(votes) r.(step) r.(commitc) r.(propc) r.(stopc) r.(replyNextIndex)
    r.(globalRand).
Definition set_heartbeatTimeout (v : Z) r : Raft C :=
  mkRaft r.(peers) r.(me) r.(persister) r.(currentTerm) r.(votedFor) r.(log) r.(commitIndex)
    r.(lastApplied) r.(nextIndex) r.(matchIndex) r.(state) r.(electionElapsed)
    r.(heartbeatElapsed) v r.(electionTimeout) r.(randomizedElectionTimeout) r.(tickc) r.(tick)
    r.(lead) r.(votes) r.(step) r.(commitc) r.(propc) r.(stopc) r.(replyNextIndex)
    r.(globalRand).
Definition set_electionTimeout (v : Z) r : Raft C :=
  mkRaft r.(peers) r.(me) r.(persister) r.(currentTerm) r.(votedFor) r.(log) r.(commitIndex)
    r.(lastApplied) r.(nextIndex) r.(matchIndex) r.(state) r.(electionElapsed)
    r.(heartbeatElapsed) r.(heartbeatTimeout) v r.(randomizedElectionTimeout) r.(tickc) r.(tick)
    r.(lead) r.(votes) r.(step) r.(commitc) r.(propc) r.(stopc) r.(replyNextIndex)
    r.(globalRand).
Definition set_randomizedElectionTimeout (v : Z) r : Raft C :=
  mkRaft r.(peers) r.(me) r.(persister) r.(currentTerm) r.(votedFor) r.(log) r.(commitIndex)
    r.(lastApplied) r.(nextIndex) r.(matchIndex) r.(state) r.(electionElapsed)
    r.(heartbeatElapsed) r.(heartbeatTimeout) r.(electionTimeout) v r.(tickc) r.(tick) r.(lead)
    r.(votes) r.(step) r.(commitc) r.(propc) r.(stopc) r.(replyNextIndex) r.(globalRand).
Definition set_tickc (v : Z) r : Raft C :=
  mkRaft r.(peers) r.(me) r.(persister) r.(currentTerm) r.(votedFor) r.(log) r.(commitIndex)
    r.(lastApplied) r.(nextIndex) r.(matchIndex) r.(state) r.(electionElapsed)
    r.(heartbeatElapsed) r.(heartbeatTimeout) r.(electionTimeout) r.(randomizedElectionTimeout)
    v r.(tick) r.(lead) r.(votes) r.(step) r.(commitc) r.(propc) r.(stopc) r.(replyNextIndex)
    r.(globalRand).
Definition set_tick (v : option tickFunc) r : Raft C :=
  mkRaft r.(peers) r.(me) r.(persister) r.(currentTerm) r.(votedFor) r.(log) r.(commitIndex)
    r.(lastApplied) r.(nextIndex) r.(matchIndex) r.(state) r.(electionElapsed)
    r.(heartbeatElapsed) r.(heartbeatTimeout) r.(electionTimeout) r.(randomizedElectionTimeout)
    r.(tickc) v r.(lead) r.(votes) r.(step) r.(commitc) r.(propc) r.(stopc) r.(replyNextIndex)
    r.(globalRand).
Definition set_lead (v : Z) r : Raft C :=
  mkRaft r.(peers) r.(me) r.(persister) r.(currentTerm) r.(votedFor) r.(log) r.(commitIndex)
    r.(lastApplied) r.(nextIndex) r.(matchIndex) r.(state) r.(electionElapsed)
    r.(heartbeatElapsed) r.(heartbeatTimeout) r.(electionTimeout) r.(randomizedElectionTimeout)
    r.(tickc) r.(tick) v r.(votes) r.(step) r.(commitc) r.(propc) r.(stopc) r.(replyNextIndex)
    r.(globalRand).
Definition set_votes (v : gmap Z bool) r : Raft C :=
  mkRaft r.(peers) r.(me) r.(persister) r.(currentTerm) r.(votedFor) r.(log) r.(commitIndex)
    r.(lastApplied) r.(nextIndex) r.(matchIndex) r.(state) r.(electionElapsed)
    r.(heartbeatElapsed) r.(heartbeatTimeout) r.(electionTimeout) r.(randomizedElectionTimeout)
    r.(tickc) r.(tick) r.(lead) v r.(step) r.(commitc) r.(propc) r.(stopc) r.(replyNextIndex)
    r.(globalRand).
Definition set_step (v : option stepFunc) r : Raft C :=
  mkRaft r.(peers) r.(me) r.(persister) r.(currentTerm) r.(votedFor) r.(log) r.(commitIndex)
    r.(lastApplied) r.(nextIndex) r.(matchIndex) r.(state) r.(electionElapsed)
    r.(heartbeatElapsed) r.(heartbeatTimeout) r.(electionTimeout) r.(randomizedElectionTimeout)
    r.(tickc) r.(tick) r.(lead) r.(votes) v r.(commitc) r.(propc) r.(stopc) r.(replyNextIndex)
    r.(globalRand).
Definition set_commitc (v : list Z) r : Raft C :=
  mkRaft r.(peers) r.(me) r.(persister) r.(currentTerm) r.(votedFor) r.(log) r.(commitIndex)
    r.(lastApplied) r.(nextIndex) r.(matchIndex) r.(state) r.(electionElapsed)
    r.(heartbeatElapsed) r.(heartbeatTimeout) r.(electionTimeout) r.(randomizedElectionTimeout)
    r.(tickc) r.(tick) r.(lead) r.(votes) r.(step) v r.(propc) r.(stopc) r.(replyNextIndex)
    r.(globalRand).
Definition set_propc (v : list (Message C)) r : Raft C :=
  mkRaft r.(peers) r.(me) r.(persister) r.(currentTerm) r.(votedFor) r.(log) r.(commitIndex)
    r.(lastApplied) r.(nextIndex) r.(matchIndex) r.(state) r.(electionElapsed)
    r.(heartbeatElapsed) r.(heartbeatTimeout) r.(electionTimeout) r.(randomizedElectionTimeout)
    r.(tickc) r.(tick) r.(lead) r.(votes) r.(step) r.(commitc) v r.(stopc) r.(replyNextIndex)
    r.(globalRand).
Definition set_stopc (v : bool) r : Raft C :=
  mkRaft r.(peers) r.(me) r.(persister) r.(currentTerm) r.(votedFor) r.(log) r.(commitIndex)
    r.(lastApplied) r.(nextIndex) r.(matchIndex) r.(state) r.(electionElapsed)
    r.(heartbeatElapsed) r.(heartbeatTimeout) r.(electionTimeout) r.(randomizedElectionTimeout)
    r.(tickc) r.(tick) r.(lead) r.(votes) r.(step) r.(commitc) r.(propc) v r.(replyNextIndex)
    r.(globalRand).
Definition set_replyNextIndex (v : Z) r : Raft C :=
  mkRaft r.(peers) r.(me) r.(persister) r.(currentTerm) r.(votedFor) r.(log) r.(commitIndex)
    r.(lastApplied) r.(nextIndex) r.(matchIndex) r.(state) r.(electionElapsed)
    r.(heartbeatElapsed) r.(heartbeatTimeout) r.(electionTimeout) r.(randomizedElectionTimeout)
    r.(tickc) r.(tick) r.(lead) r.(votes) r.(step) r.(commitc) r.(propc) r.(stopc) v
    r.(globalRand).
Definition set_globalRand (v : list Z) r : Raft C :=
  mkRaft r.(peers) r.(me) r.(persister) r.(currentTerm) r.(votedFor) r.(log) r.(commitIndex)
    r.(lastApplied) r.(nextIndex) r.(matchIndex) r.(state) r.(electionElapsed)
    r.(heartbeatElapsed) r.(heartbeatTimeout) r.(electionTimeout) r.(randomizedElectionTimeout)
    r.(tickc) r.(tick) r.(lead) r.(votes) r.(step) r.(commitc) r.(propc) r.(stopc)
    r.(replyNextIndex) v.

End setters.
