(* ===== verification/RaftNode.v ===== *)
(** * The MIT lab Raft peer (src/mit/src/raft/raft.go)

    Every method of [Raft] that runs on the [run] goroutine, as a computation in
    the monad [M (Raft C)]: it reads and writes the peer, and a Go panic (or
    [log.Fatal], which also ends the process) is [Panic].

    - The [select] loop of [run] executes one of [run_tick], [Step] and
      [handleCommand] at a time, so each is one atomic step of the peer.
    - A goroutine started by [bcastRequestVoteRPC] or [bcastAppend] waits to send
      its request on [propc]: the request is added to the field [propc], from
      which [serveChannels] takes it.
    - A send on [commitc] adds to the field [commitc], from which [stateMachine]
      takes it.
    - The random draws of [globalRand] come from the field of that name.
    - What the logger writes is not modelled; where the arguments of a log call read the
      peer's log, the read is kept, because it can panic ([log_line]). *)
From S2P Require Import Prelude GoRt RaftTypes.
Open Scope Z_scope.

Section node.
Context {C : Type}.
Local Abbreviation Log := (RaftTypes.Log C).
Local Abbreviation Raft := (RaftTypes.Raft C).
Local Abbreviation Message := (RaftTypes.Message C).
Local Abbreviation Args := (RaftTypes.Args C).
Local Abbreviation AppendEntiesArgs := (RaftTypes.AppendEntiesArgs C).
Local Abbreviation ApplyMsg := (RaftTypes.ApplyMsg C).
Local Abbreviation Persister := (RaftTypes.Persister C).
Local Abbreviation gobval := (RaftTypes.gobval C).
Local Abbreviation RM := (M Raft).
Implicit Types (r : Raft) (m : Message) (ents : list Log).

(** ** Small helpers of the source *)

(** [globalRand.Intn(n)]: panics for [n <= 0], else draws a value of [[0, n)]. *)
Definition Intn (n : Z) : RM Z :=
  if n <=? 0 then panic "invalid argument to Intn" else
  rs <- gets globalRand ;;
  modify (set_globalRand (tail rs)) ;;
  ret (hd 0 rs mod n).

Definition go_min (x y : Z) : Z := if x <? y then x else y.
Definition go_max (x y : Z) : Z := if x >? y then x else y.

(** Type assertions on the interface fields of a message. *)
Definition as_VoteArgs (a : Args) : RM RequestVoteArgs :=
  match a with VoteArgs v => ret v | _ => panic "interface conversion" end.
Definition as_AppArgs (a : Args) : RM AppendEntiesArgs :=
  match a with AppArgs v => ret v | _ => panic "interface conversion" end.
Definition as_VoteReply (a : Reply) : RM RequestVoteReply :=
  match a with VoteReply v => ret v | _ => panic "interface conversion" end.
Definition as_AppReply (a : Reply) : RM AppendEntiesReply :=
  match a with AppReply v => ret v | _ => panic "interface conversion" end.

Definition with_reply m (rep : Reply) : Message :=
  mkMessage m.(Msg_Type) m.(Msg_From) m.(Msg_To) m.(Msg_Term) m.(Msg_Index)
    m.(Msg_isLeader) m.(Msg_data) m.(Msg_svcMeth) m.(Msg_args) rep.

(** ** Persistence *)

Definition persist_data r : list gobval :=
  [GobInt r.(currentTerm); GobLog r.(log); GobInt r.(votedFor)].

Definition persist : RM () :=
  modify (λ r, set_persister (SaveRaftState (persist_data r) r.(persister)) r).

Definition readPersist (data : list gobval) : RM () :=
  modify (λ r,
    let '(t, d1) := gob_decode_int r.(currentTerm) data in
    let '(l, d2) := gob_decode_log r.(log) d1 in
    let '(v, _) := gob_decode_int r.(votedFor) d2 in
    set_votedFor v (set_log l (set_currentTerm t r))).

(** ** The log *)

Definition GetState r : Z * bool :=
  (r.(currentTerm), bool_decide (r.(state) = StateLeader)).

Definition log_at (i : Z) : RM Log :=
  r <- get ;; must index_panic (go_at r.(log) i).

Definition lastIndex : RM Z :=
  r <- get ;;
  l <- log_at (go_len r.(log) - 1) ;;
  ret l.(Log_Index).

Definition lastTerm : RM Z :=
  i <- lastIndex ;;
  l <- log_at i ;;
  ret l.(Log_Term).

Definition reqMoreUpToDate (args : RequestVoteArgs) : RM bool :=
  r <- get ;;
  lastLog <- log_at (go_len r.(log) - 1) ;;
  let rlastTerm := args.(RVA_LastLogTerm) in
  let rlastIndex := args.(RVA_LastLogIndex) in
  ret ((rlastTerm >? lastLog.(Log_Term))
       || ((rlastTerm =? lastLog.(Log_Term)) && (rlastIndex >=? lastLog.(Log_Index)))).

Definition matchTerm (index term : Z) : RM bool :=
  li <- lastIndex ;;
  if index <=? li
  then (l <- log_at index ;; ret (l.(Log_Term) =? term))
  else ret false.

Definition term (index : Z) : RM Z :=
  l <- log_at index ;; ret l.(Log_Term).

Fixpoint findConflict ents : RM Z :=
  match ents with
  | [] => ret 0
  | ne :: ents' =>
      ok <- matchTerm ne.(Log_Index) ne.(Log_Term) ;;
      if negb ok then
        li <- lastIndex ;;
        (when ne.(Log_Index) <=? li do (term ne.(Log_Index) ;; ret tt)) ;;
        ret ne.(Log_Index)
      else findConflict ents'
  end.

Definition appendLog ents : RM Z :=
  match ents with
  | [] => lastIndex
  | e0 :: _ =>
      r <- get ;;
      let after := e0.(Log_Index) - 1 in
      if after <? r.(commitIndex) then panic "appendLog" else
      l <- must slice_panic (go_slice r.(log) 0 e0.(Log_Index)) ;;
      modify (set_log (l ++ ents)) ;;
      lastIndex
  end.

Fixpoint checkLog_from (i : Z) ents : bool :=
  match ents with
  | [] => true
  | l :: ents' => (i =? l.(Log_Index)) && checkLog_from (i + 1) ents'
  end.

Definition checkLog : RM () :=
  r <- get ;;
  if checkLog_from 0 r.(log) then ret tt else panic "error log index".

Definition quorum r : Z := go_len r.(peers) `quot` 2 + 1.

(** ** Commitment *)

Definition commitTo (tocommit : Z) : RM () :=
  li <- lastIndex ;;
  if tocommit >? li then panic " tocommit > r.lastIndex() " else
  r <- get ;;
  if r.(commitIndex) <? tocommit then
    modify (set_commitIndex tocommit) ;;
    modify (λ r, set_commitc (r.(commitc) ++ [tocommit]) r)
  else ret tt.

(** [sort.Sort(sort.Reverse(mis))] *)
Definition sort_reverse (l : list Z) : list Z := merge_sort (flip Z.le) l.

Definition updateCommitIndex : RM () :=
  r <- get ;;
  let mis := sort_reverse r.(matchIndex) in
  mci <- must index_panic (go_at mis (quorum r - 1)) ;;
  if mci >? r.(commitIndex) then
    l <- log_at mci ;;
    (when l.(Log_Term) =? r.(currentTerm) do commitTo mci)
  else ret tt.

(** ** Role changes *)

Definition resetRandomizedElectionTimeout : RM () :=
  r <- get ;;
  v <- Intn r.(electionTimeout) ;;
  modify (set_randomizedElectionTimeout (r.(electionTimeout) + v)).

Definition reset (term : Z) : RM () :=
  r <- get ;;
  (when negb (r.(currentTerm) =? term) do
     (modify (set_currentTerm term) ;; modify (set_votedFor NoneId))) ;;
  modify (set_lead NoneId) ;;
  modify (set_heartbeatElapsed 0) ;;
  modify (set_electionElapsed 0) ;;
  resetRandomizedElectionTimeout ;;
  modify (set_votes ∅) ;;
  modify (set_replyNextIndex 1) ;;
  modify (λ r, match r.(log) with [] => set_log [mkLog 1 None 0] r | _ => r end) ;;
  modify (λ r, set_nextIndex (go_make (go_len r.(peers)) 0) r) ;;
  modify (λ r, set_matchIndex (go_make (go_len r.(peers)) 0) r).

Definition becomeFollower (term lead : Z) : RM () :=
  reset term ;;
  modify (set_tick (Some tickElectionF)) ;;
  modify (set_state StateFollower) ;;
  modify (set_lead lead) ;;
  modify (set_step (Some stepFollowerF)).

Definition becomeCandidate : RM () :=
  r <- get ;;
  if bool_decide (r.(state) = StateLeader)
  then panic "invalid transition [leader -> candidate]" else
  reset (wrap64 (r.(currentTerm) + 1)) ;;
  modify (set_tick (Some tickElectionF)) ;;
  modify (λ r, set_votedFor r.(me) r) ;;
  modify (set_state StateCandidate) ;;
  modify (set_step (Some stepCandidateF)).

Definition set_nextIndex_at (i v : Z) : RM () :=
  r <- get ;;
  l <- must index_panic (go_set r.(nextIndex) i v) ;;
  modify (set_nextIndex l).
Definition set_matchIndex_at (i v : Z) : RM () :=
  r <- get ;;
  l <- must index_panic (go_set r.(matchIndex) i v) ;;
  modify (set_matchIndex l).

Definition becomeLeader : RM () :=
  r <- get ;;
  if bool_decide (r.(state) = StateFollower)
  then panic "invalid transition [follower -> leader]" else
  reset r.(currentTerm) ;;
  modify (λ r, set_lead r.(me) r) ;;
  modify (set_state StateLeader) ;;
  modify (set_tick (Some tickHeartbeatF)) ;;
  modify (set_step (Some stepLeaderF)) ;;
  for_range (go_range r.(peers)) (λ i, r <- get ;; set_nextIndex_at i (go_len r.(log))).

(** [poll] records a vote (the first one of [id] counts) and counts the granted ones. *)
Definition granted_votes (vs : gmap Z bool) : Z :=
  Z.of_nat (size (filter (λ kv, kv.2 = true) vs)).

Definition poll (id : Z) (v : bool) : RM Z :=
  r <- get ;;
  (when bool_decide (r.(votes) !! id = None) do
     modify (λ r, set_votes (<[id := v]> r.(votes)) r)) ;;
  gets (λ r, granted_votes r.(votes)).

(** ** Broadcasts *)

(** [go func(m) { rf.propc <- m; ... }]: a goroutine that waits to send [m]. *)
Definition spawn_send m : RM () := modify (λ r, set_propc (r.(propc) ++ [m]) r).

Definition bcastRequestVoteRPC : RM () :=
  persist ;;
  r <- get ;;
  for_range (go_range r.(peers)) (λ i,
    r <- get ;;
    when negb (i =? r.(me)) do
      (li <- lastIndex ;;
       lt <- lastTerm ;;
       let args := mkRequestVoteArgs r.(currentTerm) r.(me) li lt in
       spawn_send (mkMessage MsgVote r.(me) i r.(currentTerm) 0 false None
                     "Raft.RequestVote" (VoteArgs args) (VoteReply RequestVoteReply_zero)))).

(** The entries of a request are [rf.log[prevLogIndex+1:]], a slice of the log's array.  Here it is the
    list of entries as they are now; when the request is encoded the array may hold others:
    RaftMem.v, with RaftAlias.v, KvCluster.v and LabShared.v. *)
Definition bcastAppend : RM () :=
  persist ;;
  r <- get ;;
  for_range (go_range r.(peers)) (λ i,
    r <- get ;;
    when negb (i =? r.(me)) do
      (ni <- must index_panic (go_at r.(nextIndex) i) ;;
       let prevLogIndex := ni - 1 in
       li <- lastIndex ;;
       if (prevLogIndex <? 0) || (prevLogIndex >? li)
       then panic "prevLogIndex < 0 || prevLogIndex  > rf.lastIndex() " else
       pl <- log_at prevLogIndex ;;
       ents <- must slice_panic (go_slice r.(log) (prevLogIndex + 1) (go_len r.(log))) ;;
       let args := mkAppendEntiesArgs r.(currentTerm) r.(me) r.(commitIndex) prevLogIndex
                     pl.(Log_Term) ents in
       spawn_send (mkMessage MsgApp r.(me) i r.(currentTerm) 0 false None
                     "Raft.AppendEnties" (AppArgs args) (AppReply AppendEntiesReply_zero)))).

(** What the goroutine sends on [recvc] when its call returned [true]. *)
Definition resp_message m (rep : Reply) : Message :=
  match rep with
  | VoteReply v =>
      mkMessage MsgVoteResp m.(Msg_To) m.(Msg_From) v.(RVR_Term) 0 false None "" m.(Msg_args) rep
  | AppReply a =>
      mkMessage MsgAppResp m.(Msg_To) m.(Msg_From) a.(AER_Term) 0 false None "" m.(Msg_args) rep
  | NoReply => m
  end.

(** ** Elections and timers *)

Definition campaign : RM () :=
  becomeCandidate ;;
  r <- get ;;
  g <- poll r.(me) true ;;
  if quorum r =? g then becomeLeader else bcastRequestVoteRPC.

Definition pastElectionTimeout r : bool :=
  r.(electionElapsed) >=? r.(randomizedElectionTimeout).

Definition tickElection : RM () :=
  modify (λ r, set_electionElapsed (r.(electionElapsed) + 1) r) ;;
  r <- get ;;
  when pastElectionTimeout r do (modify (set_electionElapsed 0) ;; campaign).

Definition tickHeartbeat : RM () :=
  modify (λ r, set_heartbeatElapsed (r.(heartbeatElapsed) + 1) r) ;;
  r <- get ;;
  when r.(heartbeatElapsed) >=? r.(heartbeatTimeout) do
    (modify (set_heartbeatElapsed 0) ;; bcastAppend).

(** [Tick]: the timer goroutine; the channel holds ten ticks. *)
Definition Tick : RM () :=
  r <- get ;;
  if r.(tickc) <? 10 then modify (set_tickc (r.(tickc) + 1))
  else panic "A tick missed to fire. Node blocks too long!".

(** [case <-r.tickc: r.tick()] *)
Definition run_tick : RM () :=
  modify (λ r, set_tickc (r.(tickc) - 1) r) ;;
  r <- get ;;
  match r.(tick) with
  | Some tickElectionF => tickElection
  | Some tickHeartbeatF => tickHeartbeat
  | None => panic "nil function"
  end.

(** ** Message handlers *)

(** The loop that looks for the first entry of the conflicting term.  Its variable
    shadows the outer [ConflictIndex], so its result is not used. *)
Fixpoint conflict_scan (ct : Z) (i : nat) : RM Z :=
  match i with
  | O => ret 0
  | S i' =>
      l <- log_at (Z.of_nat i') ;;
      if negb (l.(Log_Term) =? ct) then ret (Z.of_nat i) else conflict_scan ct i'
  end.

(** The body of [handleAppendEntries], without its deferred check. *)
Definition handleAppendEntries_body m : RM AppendEntiesReply :=
  args <- as_AppArgs m.(Msg_args) ;;
  reply <- as_AppReply m.(Msg_reply) ;;
  modify (set_electionElapsed 0) ;;
  modify (set_lead m.(Msg_From)) ;;
  r <- get ;;
  if args.(AEA_PrevLogIndex) <? r.(commitIndex) then
    ret (mkAppendEntiesReply r.(currentTerm) true (r.(commitIndex) + 1) r.(commitIndex)
           reply.(AER_ConflictTerm) reply.(AER_ConflictIndex))
  else
  ok <- matchTerm args.(AEA_PrevLogIndex) args.(AEA_PrevLogTerm) ;;
  reply' <-
    (if (ok : bool) then
       let nexti := args.(AEA_PrevLogIndex) + go_len args.(AEA_Entries) + 1 in
       ci <- findConflict args.(AEA_Entries) ;;
       (if ci =? 0 then ret tt
        else if ci <=? r.(commitIndex) then panic "ci <= r.commitIndex"
        else
          let offset := args.(AEA_PrevLogIndex) + 1 in
          es <- must slice_panic (go_slice args.(AEA_Entries) (ci - offset) (go_len args.(AEA_Entries))) ;;
          appendLog es ;; ret tt) ;;
       checkLog ;;
       (if args.(AEA_LeaderCommit) >? r.(commitIndex) then
          li <- lastIndex ;;
          if args.(AEA_LeaderCommit) >? li then panic "args.LeaderCommit > rf.lastIndex()"
          else commitTo args.(AEA_LeaderCommit)
        else ret tt) ;;
       ret (mkAppendEntiesReply r.(currentTerm) true nexti reply.(AER_FollowerCommitIndex)
              reply.(AER_ConflictTerm) reply.(AER_ConflictIndex))
     else
       li <- lastIndex ;;
       cc <- (if args.(AEA_PrevLogIndex) <=? li then
                l <- log_at args.(AEA_PrevLogIndex) ;;
                let ct := l.(Log_Term) in
                conflict_scan ct (Z.to_nat args.(AEA_PrevLogIndex)) ;;
                ret (ct, 0)
              else ret (-1, -1)) ;;
       let ni := go_min (r.(commitIndex) + 1) (args.(AEA_PrevLogIndex) - 1) in
       ret (mkAppendEntiesReply r.(currentTerm) false (if ni <? 1 then 1 else ni)
              reply.(AER_FollowerCommitIndex) cc.1 cc.2)) ;;
  if reply'.(AER_NextIndex) <? 1 then panic "reply.NextIndex < 1" else
  modify (set_replyNextIndex reply'.(AER_NextIndex)) ;;
  r' <- get ;;
  ret (mkAppendEntiesReply reply'.(AER_Term) reply'.(AER_Success) reply'.(AER_NextIndex)
         r'.(commitIndex) reply'.(AER_ConflictTerm) reply'.(AER_ConflictIndex)).

Definition handleAppendEntries m : RM Message :=
  reply <- handleAppendEntries_body m ;;
  li <- lastIndex ;;
  if reply.(AER_NextIndex) >? li + 1 then panic "reply.NextIndex > rf.lastIndex() + 1"
  else ret (with_reply m (AppReply reply)).

(** The arguments of the log calls of the vote handlers read the last entry. *)
Definition log_line : RM () := lastTerm ;; lastIndex ;; ret tt.

Definition stepFollower m : RM Message :=
  match m.(Msg_Type) with
  | MsgVote =>
      args <- as_VoteArgs m.(Msg_args) ;;
      _ <- as_VoteReply m.(Msg_reply) ;;
      r <- get ;;
      grant <- (if (r.(votedFor) =? NoneId) || (r.(votedFor) =? args.(RVA_CandidateId))
                then reqMoreUpToDate args else ret false) ;;
      if (grant : bool) then
        modify (set_electionElapsed 0) ;;
        log_line ;;
        modify (set_votedFor args.(RVA_CandidateId)) ;;
        ret (with_reply m (VoteReply (mkRequestVoteReply r.(currentTerm) true)))
      else
        log_line ;;
        ret (with_reply m (VoteReply (mkRequestVoteReply r.(currentTerm) false)))
  | MsgApp => handleAppendEntries m
  | _ => ret m
  end.

Definition stepCandidate m : RM Message :=
  match m.(Msg_Type) with
  | MsgApp =>
      r <- get ;;
      becomeFollower r.(currentTerm) m.(Msg_From) ;;
      handleAppendEntries m
  | MsgVote =>
      _ <- as_VoteArgs m.(Msg_args) ;;
      _ <- as_VoteReply m.(Msg_reply) ;;
      log_line ;;
      r <- get ;;
      ret (with_reply m (VoteReply (mkRequestVoteReply r.(currentTerm) false)))
  | MsgVoteResp =>
      reply <- as_VoteReply m.(Msg_reply) ;;
      gr <- poll m.(Msg_From) reply.(RVR_VoteGranted) ;;
      r <- get ;;
      (if quorum r =? gr then becomeLeader ;; bcastAppend
       else if quorum r =? Z.of_nat (size r.(votes)) - gr
       then becomeFollower r.(currentTerm) NoneId
       else ret tt) ;;
      ret m
  | _ => ret m
  end.

(** [for i := args.PrevLogIndex-1; i > 0; i--]: the last entry of the conflicting term. *)
Fixpoint conflict_find (ct : Z) (i : nat) : RM Z :=
  match i with
  | O => ret 0
  | S i' =>
      l <- log_at (Z.of_nat i) ;;
      if l.(Log_Term) =? ct then ret (Z.of_nat i) else conflict_find ct i'
  end.

Definition stepLeader m : RM Message :=
  match m.(Msg_Type) with
  | MsgAppResp =>
      args <- as_AppArgs m.(Msg_args) ;;
      reply <- as_AppReply m.(Msg_reply) ;;
      li <- lastIndex ;;
      if reply.(AER_NextIndex) >? li + 1 then panic "reply.NextIndex > r.lastIndex()+1" else
      (if reply.(AER_Success) then
         r <- get ;;
         ni <- must index_panic (go_at r.(nextIndex) m.(Msg_From)) ;;
         when reply.(AER_NextIndex) >=? ni do
           (set_nextIndex_at m.(Msg_From) reply.(AER_NextIndex) ;;
            set_matchIndex_at m.(Msg_From) (reply.(AER_NextIndex) - 1) ;;
            updateCommitIndex)
       else
         nexti <- conflict_find reply.(AER_ConflictTerm) (Z.to_nat (args.(AEA_PrevLogIndex) - 1)) ;;
         if (nexti =? 0) && (reply.(AER_ConflictIndex) >? 0)
         then set_nextIndex_at m.(Msg_From) reply.(AER_ConflictIndex)
         else set_nextIndex_at m.(Msg_From) reply.(AER_NextIndex)) ;;
      ret m
  | _ => ret m
  end.

(** [r.step(r, m)] *)
Definition run_step m : RM Message :=
  r <- get ;;
  match r.(step) with
  | Some stepFollowerF => stepFollower m
  | Some stepCandidateF => stepCandidate m
  | Some stepLeaderF => stepLeader m
  | None => panic "nil function"
  end.

(** A request of an older term is refused. *)
Definition refuse_stale m : RM Message :=
  r <- get ;;
  match m.(Msg_Type) with
  | MsgApp =>
      reply <- as_AppReply m.(Msg_reply) ;;
      ret (with_reply m (AppReply (mkAppendEntiesReply r.(currentTerm) false (r.(commitIndex) + 1)
             reply.(AER_FollowerCommitIndex) reply.(AER_ConflictTerm) reply.(AER_ConflictIndex))))
  | MsgVote =>
      _ <- as_VoteReply m.(Msg_reply) ;;
      ret (with_reply m (VoteReply (mkRequestVoteReply r.(currentTerm) false)))
  | _ => ret m
  end.

Definition Step m : RM Message :=
  r <- get ;;
  m' <- (if m.(Msg_Term) >? r.(currentTerm) then
           becomeFollower m.(Msg_Term) NoneId ;; run_step m
         else if m.(Msg_Term) <? r.(currentTerm) then refuse_stale m
         else run_step m) ;;
  persist ;;
  ret m'.

(** ** The exported entry points *)

Definition RequestVote (args : RequestVoteArgs) : RM RequestVoteReply :=
  r <- get ;;
  m <- Step (mkMessage MsgVote args.(RVA_CandidateId) r.(me) args.(RVA_Term) 0 false None
               "Raft.RequestVote" (VoteArgs args) (VoteReply RequestVoteReply_zero)) ;;
  as_VoteReply m.(Msg_reply).

Definition AppendEnties (args : AppendEntiesArgs) : RM AppendEntiesReply :=
  r <- get ;;
  m <- Step (mkMessage MsgApp args.(AEA_LeaderId) r.(me) args.(AEA_Term) 0 false None
               "Raft.AppendEnties" (AppArgs args) (AppReply AppendEntiesReply_zero)) ;;
  as_AppReply m.(Msg_reply).

Definition with_result m (index term : Z) (isLeader : bool) : Message :=
  mkMessage m.(Msg_Type) m.(Msg_From) m.(Msg_To) term index isLeader
    m.(Msg_data) m.(Msg_svcMeth) m.(Msg_args) m.(Msg_reply).

Definition handleStart m : RM Message :=
  r <- get ;;
  if negb (bool_decide (r.(state) = StateLeader)) then ret (with_result m (-1) (-1) false)
  else
    let term := r.(currentTerm) in
    let index := go_len r.(log) in
    modify (set_log (r.(log) ++ [mkLog term m.(Msg_data) index])) ;;
    set_nextIndex_at r.(me) (index + 1) ;;
    set_matchIndex_at r.(me) index ;;
    bcastAppend ;;
    ret (with_result m index term true).

Definition handleState m : RM Message :=
  r <- get ;;
  ret (with_result m m.(Msg_Index) r.(currentTerm) (bool_decide (r.(state) = StateLeader))).

Definition handleCommand m : RM Message :=
  match m.(Msg_Type) with
  | MsgStart => handleStart m
  | MsgState => handleState m
  | _ => panic "un supported command"
  end.

Definition Start (command : option C) : RM (Z * Z * bool) :=
  r <- get ;;
  if negb (bool_decide (r.(state) = StateLeader)) then ret (-1, -1, false) else
  m <- handleCommand (mkMessage MsgStart 0 0 0 0 false command "" NoArgs NoReply) ;;
  ret (m.(Msg_Index), m.(Msg_Term), m.(Msg_isLeader)).

(** [close(rf.stopc)] *)
Definition Kill : RM () :=
  r <- get ;;
  if r.(stopc) then panic "close of closed channel" else modify (set_stopc true).

(** [serveChannels] takes the [k]-th waiting request from [propc]. *)
Definition serveChannels_take (k : nat) : RM (option Message) :=
  r <- get ;;
  match r.(propc) !! k with
  | None => ret None
  | Some m => modify (set_propc (delete k r.(propc))) ;; ret (Some m)
  end.

Fixpoint apply_entries (i : Z) (n : nat) : RM (list ApplyMsg) :=
  match n with
  | O => ret []
  | S n' =>
      l <- log_at i ;;
      rest <- apply_entries (i + 1) n' ;;
      ret (mkApplyMsg l.(Log_Index) l.(Log_Command) :: rest)
  end.

(** One round of [stateMachine]: the messages it sends on [applyCh]. *)
Definition stateMachine_recv : RM (list ApplyMsg) :=
  r <- get ;;
  match r.(commitc) with
  | [] => ret []
  | ci :: rest =>
      modify (set_commitc rest) ;;
      if ci >? r.(lastApplied) then
        li <- lastIndex ;;
        if li <? ci then panic "stateMachine error" else
        msgs <- apply_entries (r.(lastApplied) + 1) (Z.to_nat (ci - r.(lastApplied))) ;;
        modify (set_lastApplied ci) ;;
        ret msgs
      else ret []
  end.

(** What becomes ready first in the [select] of [run]. *)
Inductive run_case : Type :=
| OnTick | OnRecv (m : Message) | OnCommand (m : Message)
| OnStopc.

(** One iteration of the loop: the message that is answered, or [None] if the loop ends.  A case
    that is not ready is not taken. *)
Definition raft_run (c : run_case) : RM (option (option Message)) :=
  r <- get ;;
  match c with
  | OnTick => if 0 <? r.(tickc) then run_tick ;; ret (Some None) else ret (Some None)
  | OnRecv m => m' <- Step m ;; ret (Some (Some m'))
  | OnCommand m => m' <- handleCommand m ;; ret (Some (Some m'))
  | OnStopc => if r.(stopc) then ret None else ret (Some None)
  end.

(** The goroutine with the ticker; [false] if it ends. *)
Definition raft_ticker (fired : bool) : RM bool :=
  r <- get ;;
  if fired then Tick ;; ret true else ret (negb r.(stopc)).

(** [Detail]: [text] is the formatting, of the fields and of the entries not applied yet. *)
Definition Detail (text : Raft → list Log → string) : RM string :=
  r <- get ;;
  entries <- must slice_panic (go_slice r.(log) r.(lastApplied) (go_len r.(log))) ;;
  ret (text r entries).

(** [&Raft{}] with the fields [Make] assigns before [becomeFollower]. *)
Definition new_Raft (ps : list Z) (self : Z) (pers : Persister) (rand : list Z) : Raft :=
  mkRaft ps self pers 0 0 [] 0 0 [] [] StateFollower 0 0 5 10 0 0 None 0 ∅ None [] [] false 0 rand.

Definition Make (ps : list Z) (self : Z) (pers : Persister) (rand : list Z) : res Raft :=
  match (becomeFollower 1 NoneId ;; readPersist (ReadRaftState pers))
          (new_Raft ps self pers rand) with
  | Ok (_, r) => Ok r
  | Panic w => Panic w
  end.

End node.
