(* ===== verification/RaftProto.v ===== *)
(** * The Raft protocol, abstractly

    The specification the peers of src/mit/src/raft refine: servers with a
    term and a log, the votes they cast, the logs of elected leaders, and the
    acknowledgements of replicated prefixes, changed by the atomic actions of
    the protocol.  The state also keeps the history the safety argument needs
    (who voted for whom with which log, the log of the leader of every term,
    which prefixes were acknowledged in which term); it only grows.

    The results are [agree_at] (Log Matching), [elect_unique] (Election Safety)
    and [leader_completeness]. *)
From S2P Require Import Prelude GoRt RaftTypes.
Open Scope Z_scope.

(** ** Majorities *)

Definition nodes (n : Z) : gset Z := list_to_set (seqZ 0 n).

Definition quorum_set (n : Z) (Q : gset Z) : Prop :=
  Q ⊆ nodes n ∧ n < 2 * Z.of_nat (size Q).

Lemma nodes_size n : 0 ≤ n → Z.of_nat (size (nodes n)) = n.
Proof.
  intros. unfold nodes. rewrite size_list_to_set by apply NoDup_seqZ.
  rewrite length_seqZ. lia.
Qed.

Lemma elem_of_nodes n i : i ∈ nodes n ↔ 0 ≤ i < n.
Proof. unfold nodes. rewrite elem_of_list_to_set, elem_of_seqZ. lia. Qed.

Lemma quorum_inter n Q1 Q2 :
  0 ≤ n → quorum_set n Q1 → quorum_set n Q2 → ∃ j, j ∈ Q1 ∧ j ∈ Q2.
Proof.
  intros Hn [HQ1 Hs1] [HQ2 Hs2].
  destruct (decide (Q1 ∩ Q2 = ∅)) as [He|He].
  - assert (size (Q1 ∪ Q2) = (size Q1 + size Q2)%nat) as Hu
      by (apply size_union; clear HQ1 HQ2; set_solver).
    assert (size (Q1 ∪ Q2) ≤ size (nodes n))%nat as Hle
      by (apply subseteq_size; by apply union_least).
    pose proof (nodes_size n Hn). lia.
  - apply set_choose_L in He as [j Hj]. exists j. clear HQ1 HQ2; set_solver.
Qed.

Section proto.
Context {C : Type}.
Local Abbreviation Log := (RaftTypes.Log C).
Implicit Types (l L cl vl : list Log) (i j T k : Z).

Definition init_entry : Log := mkLog 1 None 0.

Record AState : Type := mkAState {
  a_term : Z → Z;
  a_log : Z → list Log;
  a_vote : gmap (Z * Z) (Z * list Log);  (* (voter, term) -> candidate, voter's log then *)
  a_cand : gmap (Z * Z) (list Log);      (* (candidate, term) -> its log when it stood *)
  a_lead : gmap Z (Z * list Log);        (* term -> leader, the leader's log *)
  a_elec : gmap Z (gset Z);              (* term -> the majority that elected the leader *)
  a_ack : gset (Z * Z * nat);            (* (server, term, index) acknowledged *)
}.
Implicit Types s : AState.

Definition a_init : AState :=
  mkAState (λ _, 1) (λ _, [init_entry]) ∅ ∅ ∅ ∅ ∅.

(** The log [cl] of a candidate is at least as up to date as the voter's [vl]. *)
Definition up_to_date cl vl : Prop :=
  ∃ ec ev, last cl = Some ec ∧ last vl = Some ev ∧
    (ev.(Log_Term) < ec.(Log_Term) ∨
     (ev.(Log_Term) = ec.(Log_Term) ∧ (length vl ≤ length cl)%nat)).

(** Same term at the same index. *)
Definition same_term_at (x : nat) l L : Prop :=
  ∃ a b, l !! x = Some a ∧ L !! x = Some b ∧ a.(Log_Term) = b.(Log_Term).

Variable n : Z.

(** ** The actions *)

(** [astep i s s']: server [i] acts. *)
Inductive astep : Z → AState → AState → Prop :=
| A_term s j T :
    a_term s j < T →
    astep j s (mkAState (<[j := T]> (a_term s)) (a_log s) (a_vote s) (a_cand s) (a_lead s)
               (a_elec s) (a_ack s))
| A_cand s j T :
    T = a_term s j + 1 →
    astep j s (mkAState (<[j := T]> (a_term s)) (a_log s)
               (<[(j, T) := (j, a_log s j)]> (a_vote s))
               (<[(j, T) := a_log s j]> (a_cand s)) (a_lead s) (a_elec s) (a_ack s))
| A_vote s j i cl :
    a_vote s !! (j, a_term s j) = None →
    a_cand s !! (i, a_term s j) = Some cl →
    up_to_date cl (a_log s j) →
    astep j s (mkAState (a_term s) (a_log s)
               (<[(j, a_term s j) := (i, a_log s j)]> (a_vote s))
               (a_cand s) (a_lead s) (a_elec s) (a_ack s))
| A_elect s i Q :
    a_lead s !! a_term s i = None →
    quorum_set n Q →
    (∀ j, j ∈ Q → ∃ vl, a_vote s !! (j, a_term s i) = Some (i, vl)) →
    a_cand s !! (i, a_term s i) = Some (a_log s i) →
    astep i s (mkAState (a_term s) (a_log s) (a_vote s) (a_cand s)
               (<[a_term s i := (i, a_log s i)]> (a_lead s))
               (<[a_term s i := Q]> (a_elec s)) (a_ack s))
| A_append s i e :
    a_lead s !! a_term s i = Some (i, a_log s i) →
    e.(Log_Term) = a_term s i →
    e.(Log_Index) = go_len (a_log s i) →
    astep i s (mkAState (a_term s) (<[i := a_log s i ++ [e]]> (a_log s)) (a_vote s) (a_cand s)
               (<[a_term s i := (i, a_log s i ++ [e])]> (a_lead s)) (a_elec s) (a_ack s))
| A_accept s j i LL L (p ci : nat) :
    a_lead s !! a_term s j = Some (i, LL) →
    L `prefix_of` LL →
    (p < ci)%nat → (ci ≤ length (a_log s j))%nat → (ci < length L)%nat →
    (∀ x, (p ≤ x < ci)%nat → same_term_at x (a_log s j) L) →
    ¬ same_term_at ci (a_log s j) L →
    astep j s (mkAState (a_term s) (<[j := take ci (a_log s j) ++ drop ci L]> (a_log s))
               (a_vote s) (a_cand s) (a_lead s) (a_elec s) (a_ack s))
| A_ack s j i LL (x : nat) :
    a_lead s !! a_term s j = Some (i, LL) →
    (x < length LL)%nat →
    take (S x) (a_log s j) = take (S x) LL →
    astep j s (mkAState (a_term s) (a_log s) (a_vote s) (a_cand s) (a_lead s) (a_elec s)
               ({[(j, a_term s j, x)]} ∪ a_ack s)).

(** ** The invariant *)

Definition wf_log l : Prop :=
  l !! 0%nat = Some init_entry ∧
  ∀ x e, l !! x = Some e → e.(Log_Index) = Z.of_nat x.

(** Every entry sits below the log of its term's leader, with everything before it. *)
Definition matches (lead : gmap Z (Z * list Log)) l : Prop :=
  ∀ x e, l !! S x = Some e →
    ∃ i L, lead !! e.(Log_Term) = Some (i, L) ∧ take (S (S x)) l = take (S (S x)) L.

Definition terms_le T l : Prop := ∀ x e, l !! x = Some e → e.(Log_Term) ≤ T.

Definition acked s j T (x : nat) : Prop := ∃ y, (x ≤ y)%nat ∧ (j, T, y) ∈ a_ack s.

(** Some leader of a term in [(T, T')] or [(T, T']] does not hold the first [S x]
    entries of [L], the log of the leader of [T]. *)
Definition lacking s T L (x : nat) (bound : Z → Prop) : Prop :=
  ∃ T2 i2 L2, T < T2 ∧ bound T2 ∧ a_lead s !! T2 = Some (i2, L2) ∧
    take (S x) L2 ≠ take (S x) L.

Definition own_term_at T L (x : nat) : Prop := ∃ e, L !! x = Some e ∧ e.(Log_Term) = T.

(** A well-formed log below the leaders' logs, with terms up to [T]. *)
Record good_log (lead : gmap Z (Z * list Log)) T l : Prop := mkGoodLog {
  gl_wf : wf_log l;
  gl_matches : matches lead l;
  gl_terms : terms_le T l;
}.

Record AInv s : Prop := mkAInv {
  ai_log : ∀ j, good_log (a_lead s) (a_term s j) (a_log s j);
  ai_cand : ∀ j T cl, a_cand s !! (j, T) = Some cl → good_log (a_lead s) (T - 1) cl;
  ai_lead : ∀ T i L, a_lead s !! T = Some (i, L) → good_log (a_lead s) T L;
  ai_vote : ∀ j T i vl, a_vote s !! (j, T) = Some (i, vl) → good_log (a_lead s) T vl;
  ai_term_pos : ∀ j, 1 ≤ a_term s j;
  ai_vote_term : ∀ j T v, a_vote s !! (j, T) = Some v → 1 < T ≤ a_term s j;
  ai_cand_term : ∀ j T cl, a_cand s !! (j, T) = Some cl → 1 < T ≤ a_term s j;
  ai_lead_term : ∀ T i L, a_lead s !! T = Some (i, L) → 1 < T ≤ a_term s i;
  ai_ack_term : ∀ j T x, acked s j T x → T ≤ a_term s j;
  ai_vote_cand : ∀ j T i vl, a_vote s !! (j, T) = Some (i, vl) →
    ∃ cl, a_cand s !! (i, T) = Some cl ∧ up_to_date cl vl;
  ai_lead_cand : ∀ T i L, a_lead s !! T = Some (i, L) →
    ∃ cl suf, a_cand s !! (i, T) = Some cl ∧ L = cl ++ suf ∧
      Forall (λ e, e.(Log_Term) = T) suf;
  ai_elec : ∀ T i L, a_lead s !! T = Some (i, L) →
    ∃ Q, a_elec s !! T = Some Q ∧ quorum_set n Q ∧
      ∀ j, j ∈ Q → ∃ vl, a_vote s !! (j, T) = Some (i, vl);
  ai_elec_lead : ∀ T Q, a_elec s !! T = Some Q → is_Some (a_lead s !! T);
  ai_ack_lead : ∀ j T x, acked s j T x →
    ∃ i L, a_lead s !! T = Some (i, L) ∧ (x < length L)%nat;
  ai_ack_log : ∀ j T x i L, acked s j T x → a_lead s !! T = Some (i, L) →
    own_term_at T L x →
    take (S x) (a_log s j) = take (S x) L ∨ lacking s T L x (λ T2, T2 ≤ a_term s j);
  ai_ack_vote : ∀ j T x i L T' i' vl, acked s j T x → a_lead s !! T = Some (i, L) →
    own_term_at T L x → T < T' → a_vote s !! (j, T') = Some (i', vl) →
    (∀ Q, a_elec s !! T' = Some Q → j ∈ Q) →
    take (S x) vl = take (S x) L ∨ lacking s T L x (λ T2, T2 < T');
}.

(** ** Logs below the same leaders agree *)

Lemma agree_at lead T1 T2 x l1 l2 :
  good_log lead T1 l1 → good_log lead T2 l2 →
  same_term_at x l1 l2 → take (S x) l1 = take (S x) l2.
Proof.
  intros [[H1 _] M1 _] [[H2 _] M2 _] (a & b & Ha & Hb & Hab).
  destruct x as [|x].
  - apply take_eq_lookup. intros y ?. replace y with 0%nat by lia. congruence.
  - destruct (M1 _ _ Ha) as (i1 & L1 & Hl1 & ->).
    destruct (M2 _ _ Hb) as (i2 & L2 & Hl2 & ->). congruence.
Qed.

(** Leaders' logs only grow, by entries of their own term. *)
Definition lead_le (lead lead' : gmap Z (Z * list Log)) : Prop :=
  ∀ T i L, lead !! T = Some (i, L) →
    ∃ suf, lead' !! T = Some (i, L ++ suf) ∧ Forall (λ e, e.(Log_Term) = T) suf.

Lemma lead_le_refl lead : lead_le lead lead.
Proof. intros T i L H. exists []. rewrite app_nil_r. auto. Qed.

Lemma lead_le_new lead T v : lead !! T = None → lead_le lead (<[T := v]> lead).
Proof.
  intros HN T' i L H. exists []. rewrite app_nil_r. split; [|done].
  rewrite lookup_insert_ne; congruence.
Qed.

Lemma lead_le_app lead T i L e :
  lead !! T = Some (i, L) → e.(Log_Term) = T →
  lead_le lead (<[T := (i, L ++ [e])]> lead).
Proof.
  intros HL He T' i' L' H. destruct (decide (T = T')) as [<-|].
  - simplify_eq. exists [e]. rewrite lookup_insert_eq. auto.
  - exists []. rewrite app_nil_r, lookup_insert_ne; auto.
Qed.

Lemma good_log_mono lead lead' T T' l :
  lead_le lead lead' → T ≤ T' → good_log lead T l → good_log lead' T' l.
Proof.
  intros Hle HT [Hw Hm Ht]. split; [done| |].
  - intros x e Hx. destruct (Hm x e Hx) as (i & L & HL & Hk).
    destruct (Hle _ _ _ HL) as (suf & HL' & _).
    exists i, (L ++ suf). split; [done|]. rewrite Hk.
    apply take_eq_app. eapply (take_eq_length_le _ l); [done|].
    apply lookup_lt_Some in Hx. lia.
  - intros x e Hx. apply Ht in Hx. lia.
Qed.

Lemma good_log_prefix lead T l l' :
  good_log lead T l' → l `prefix_of` l' → (0 < length l)%nat → good_log lead T l.
Proof.
  intros [[H0 H1] Hm Ht] Hpre Hl. split; [split| |].
  - rewrite (prefix_lookup_lt _ l') by done. done.
  - intros x e Hx. apply H1. by eapply prefix_lookup_Some.
  - intros x e Hx. pose proof (lookup_lt_Some _ _ _ Hx).
    destruct (Hm x e) as (i & L & ? & Hk); [by eapply prefix_lookup_Some|].
    exists i, L. split; [done|]. rewrite <- Hk. apply take_prefix_eq; [done|lia].
  - intros x e Hx. eapply Ht. by eapply prefix_lookup_Some.
Qed.

(** The leader's log after an append, below the leaders' logs after it. *)
Lemma good_log_app lead T i l e :
  good_log lead T l → lead !! T = Some (i, l) → e.(Log_Term) = T → e.(Log_Index) = go_len l →
  good_log (<[T := (i, l ++ [e])]> lead) T (l ++ [e]).
Proof.
  intros Hg HL He Hi. pose proof (lead_le_app _ _ _ _ e HL He) as Hle.
  destruct (good_log_mono _ _ T T _ Hle ltac:(lia) Hg) as [[H0 H1] Hm Ht].
  split; [split| |].
  - rewrite lookup_app_l; [done|]. by eapply lookup_lt_Some.
  - intros x e' Hx. apply lookup_app_Some in Hx as [?|[? Hx]]; [eauto|].
    apply list_lookup_singleton_Some in Hx as [? <-]. rewrite Hi. unfold go_len. lia.
  - intros x e' Hx. apply lookup_app_Some in Hx as [Hx|[Hge Hx]].
    + destruct (Hm x e' Hx) as (i' & L & ? & Hk).
      exists i', L. split; [done|]. rewrite <- Hk. symmetry. apply take_eq_app.
      apply lookup_lt_Some in Hx. lia.
    + apply list_lookup_singleton_Some in Hx as [? <-].
      exists i, (l ++ [e]). rewrite He, lookup_insert_eq. auto.
  - intros x e' Hx. apply lookup_app_Some in Hx as [Hx|[_ Hx]]; [eauto|].
    apply list_lookup_singleton_Some in Hx as [? <-]. lia.
Qed.

Lemma good_log_init : good_log ∅ 1 [init_entry].
Proof.
  split; [split|..]; [done| | |].
  - intros [|x] e ?; by simplify_eq/=.
  - intros x e ?. by simplify_eq/=.
  - intros [|x] e ?; by simplify_eq/=.
Qed.

Lemma wf_log_length l : wf_log l → (0 < length l)%nat.
Proof. intros [? _]. by eapply Nat.le_lt_trans; [|eapply lookup_lt_Some]; [lia|]. Qed.

Lemma up_to_date_refl l : wf_log l → up_to_date l l.
Proof.
  intros [Hw _]. assert (is_Some (last l)) as [e He]
    by (apply last_is_Some; intros Hnil; by rewrite Hnil in Hw).
  exists e, e. auto.
Qed.

(** ** Election Safety and Leader Completeness *)

Lemma elect_unique s T i i' L Q :
  0 ≤ n → AInv s → a_lead s !! T = Some (i', L) → quorum_set n Q →
  (∀ j, j ∈ Q → ∃ vl, a_vote s !! (j, T) = Some (i, vl)) → i = i'.
Proof.
  intros Hn I HL HQ Hv.
  destruct (ai_elec _ I _ _ _ HL) as (Q' & _ & HQ' & Hv').
  destruct (quorum_inter n Q Q') as (j & Hj & Hj'); [done..|].
  destruct (Hv j Hj) as [??], (Hv' j Hj') as [??]. congruence.
Qed.

Definition committed s T (x : nat) : Prop :=
  ∃ i L Q, a_lead s !! T = Some (i, L) ∧ own_term_at T L x ∧ quorum_set n Q ∧
    ∀ j, j ∈ Q → acked s j T x.

(** The last entry of a log that holds an entry of term [T] has at least that term. *)
Lemma last_term_ge s l T T1 L x ev :
  AInv s → good_log (a_lead s) T1 l → own_term_at T L x →
  take (S x) l = take (S x) L → last l = Some ev →
  T ≤ ev.(Log_Term) ∧ (S x ≤ length l)%nat.
Proof.
  intros I [Hw Hm _] (e & He & HT) Ht Hl.
  assert (l !! x = Some e) as Hx by (rewrite <- He; eapply take_eq_lookup_1; [done|lia]).
  pose proof (lookup_lt_Some _ _ _ Hx). split; [|lia].
  rewrite last_lookup in Hl. remember (Nat.pred (length l)) as y eqn:Hy.
  destruct (decide (y = x)) as [Heq|]; [subst y; rewrite Heq in Hl; simplify_eq; lia|].
  destruct y as [|y]; [lia|].
  destruct (Hm y ev Hl) as (i & Le & HLe & Hte).
  rewrite <- HT. eapply (gl_terms _ _ _ (ai_lead _ I _ _ _ HLe) x).
  rewrite <- Hx. symmetry. eapply take_eq_lookup_1; [done|lia].
Qed.

(** A candidate at least as up to date as a voter that holds an entry of a term [T] holds
    it too, when every leader after [T] does. *)
Lemma up_to_date_holds s T i L x T' T1 cl vl :
  AInv s → a_lead s !! T = Some (i, L) → own_term_at T L x →
  (∀ T2 i2 L2, T < T2 < T' → a_lead s !! T2 = Some (i2, L2) → take (S x) L2 = take (S x) L) →
  good_log (a_lead s) (T' - 1) cl → good_log (a_lead s) T1 vl →
  take (S x) vl = take (S x) L → up_to_date cl vl →
  take (S x) cl = take (S x) L ∧ (S x ≤ length cl)%nat.
Proof.
  intros I HL Hown IH [Hwc Hmc Htc] Hgv Hv (ec & ev & Hec & Hev & Hcmp).
  destruct (last_term_ge s vl T T1 L x ev) as [Hge Hlv]; [done..|].
  pose proof (wf_log_length _ Hwc).
  rewrite last_lookup in Hec. remember (Nat.pred (length cl)) as z eqn:Hz.
  assert (T ≤ ec.(Log_Term)) by lia.
  pose proof (ai_lead_term _ I _ _ _ HL).
  destruct z as [|z].
  { destruct Hwc as [Hw0 _]. simplify_eq. simpl in *. lia. }
  destruct (Hmc z ec Hec) as (ic & Lc & HLc & Htk).
  pose proof (Htc _ _ Hec).
  assert (take (S x) Lc = take (S x) L ∧ (x ≤ S z)%nat) as [Hx Hle].
  { destruct (decide (ec.(Log_Term) = T)) as [Heq|Hne].
    { rewrite Heq in HLc. simplify_eq. split; [done|lia]. }
    assert (take (S x) Lc = take (S x) L) as Hx by (eapply IH; [|done]; lia).
    split; [done|]. destruct (decide (x ≤ S z)%nat) as [|Hgt]; [done|exfalso].
    assert (L !! S z = Some ec) as Hbad.
    { rewrite <- Hec. transitivity (Lc !! S z); symmetry;
        (eapply take_eq_lookup_1; [done|lia]). }
    pose proof (gl_terms _ _ _ (ai_lead _ I _ _ _ HL) _ _ Hbad). lia. }
  split; [|lia]. rewrite <- Hx. eapply take_eq_le; [done|lia].
Qed.

(** An entry acknowledged by a majority in its own term is in the log of every later leader,
    with everything before it. *)
Lemma leader_completeness s T x i L :
  0 ≤ n → AInv s → committed s T x → a_lead s !! T = Some (i, L) →
  ∀ T' i' L', T ≤ T' → a_lead s !! T' = Some (i', L') → take (S x) L' = take (S x) L.
Proof.
  intros Hn I (i0 & L0 & Q & HL0 & Hown & HQ & Hack) HL.
  assert (i0 = i ∧ L0 = L) as [-> ->] by (split; congruence).
  intros T'. induction (Z.lt_wf T T') as [T' _ IH]; intros i' L' HTT HL'.
  destruct (decide (T' = T)) as [->|Hne]; [by simplify_eq|].
  destruct (ai_elec _ I _ _ _ HL') as (Q' & HE & HQ' & Hv').
  destruct (quorum_inter n Q Q') as (j & Hj & Hj'); [done..|].
  destruct (Hv' j Hj') as [vl Hvl].
  destruct (ai_vote_cand _ I _ _ _ _ Hvl) as (cl & Hcl & Hup).
  destruct (ai_lead_cand _ I _ _ _ HL') as (cl' & suf & Hcl' & -> & _).
  assert (cl = cl') as -> by congruence.
  assert (take (S x) vl = take (S x) L) as Hvx.
  { assert (T < T') as HT by lia.
    destruct (ai_ack_vote _ I j T x i L T' i' vl (Hack j Hj) HL Hown HT Hvl ltac:(congruence))
      as [|(T2 & i2 & L2 & ? & ? & HL2 & Hbad)]; [done|].
    exfalso. apply Hbad. simpl in *. apply (IH T2 ltac:(lia) i2); [lia|done]. }
  destruct (up_to_date_holds s T i L x T' T' cl' vl) as [Hcx Hlen];
    eauto using ai_cand, ai_vote.
  { intros T2 i2 L2 ? ?. apply (IH T2 ltac:(lia) i2); [lia|done]. }
  rewrite <- Hcx. symmetry. by apply take_eq_app.
Qed.

(** ** Every action preserves the invariant *)

(** Closes a clause that the action leaves as it was. *)
Ltac keep_field I := destruct I; assumption.

(** Splits on whether a binding of an updated map is the new one. *)
Ltac insert_cases H :=
  apply lookup_insert_Some in H as [[? ?]|[? H]]; simplify_eq.

Lemma fn_insert_le (f : Z → Z) j T i : f j ≤ T → f i ≤ (<[j := T]> f) i.
Proof.
  intros. destruct (decide (i = j)) as [->|].
  - by rewrite fn_lookup_insert.
  - rewrite fn_lookup_insert_ne by done. lia.
Qed.

(** What was acknowledged keeps its meaning when leaders' logs grow. *)
Lemma ack_down s lead' j T x i L' :
  AInv s → lead_le (a_lead s) lead' → acked s j T x → lead' !! T = Some (i, L') →
  ∃ L suf, a_lead s !! T = Some (i, L) ∧ L' = L ++ suf ∧ (x < length L)%nat ∧
    take (S x) L' = take (S x) L ∧ (own_term_at T L' x → own_term_at T L x).
Proof.
  intros I Hle Ha HL'. destruct (ai_ack_lead _ I _ _ _ Ha) as (i0 & L & HL & Hx).
  destruct (Hle _ _ _ HL) as (suf & HL2 & _). simplify_eq.
  exists L, suf. split_and!; [done..| |].
  - symmetry. by apply take_eq_app.
  - intros (e & He & ?). exists e. split; [|done]. by rewrite lookup_app_l in He.
Qed.

Lemma lacking_mono s s' T L suf x (P P' : Z → Prop) :
  lead_le (a_lead s) (a_lead s') → (∀ T2, P T2 → P' T2) → own_term_at T L x →
  lacking s T L x P → lacking s' T (L ++ suf) x P'.
Proof.
  intros Hle HP (e & He & HT) (T2 & i2 & L2 & ? & HP2 & HL2 & Hne).
  destruct (Hle _ _ _ HL2) as (suf2 & HL2' & Hsuf).
  exists T2, i2, (L2 ++ suf2). split_and!; auto. intros Heq.
  pose proof (lookup_lt_Some _ _ _ He).
  rewrite <- (take_eq_app _ L suf) in Heq by lia.
  destruct (decide (x < length L2)%nat) as [|Hge].
  - apply Hne. rewrite <- Heq. apply take_eq_app. lia.
  - assert ((L2 ++ suf2) !! x = Some e) as Hx
      by (rewrite <- He; eapply take_eq_lookup_1; [done|lia]).
    rewrite lookup_app_r in Hx by lia.
    rewrite Forall_lookup in Hsuf. apply Hsuf in Hx. simpl in Hx. lia.
Qed.

(** The clauses that relate acknowledgements to logs and votes follow from the old ones when
    terms and leaders' logs only grow. *)
Lemma ack_log_mono s s' j :
  AInv s → lead_le (a_lead s) (a_lead s') → a_ack s' = a_ack s →
  a_term s j ≤ a_term s' j → a_log s j `prefix_of` a_log s' j →
  ∀ T x i L, acked s' j T x → a_lead s' !! T = Some (i, L) → own_term_at T L x →
  take (S x) (a_log s' j) = take (S x) L ∨ lacking s' T L x (λ T2, T2 ≤ a_term s' j).
Proof.
  intros I Hle Hack Hterm Hpre T x i L Ha HL Hown.
  unfold acked in Ha. rewrite Hack in Ha.
  destruct (ack_down s _ j T x i L I Hle Ha HL) as (L0 & suf & HL0 & -> & Hx & Ht & Ho).
  destruct (ai_ack_log _ I j T x i L0 Ha HL0 (Ho Hown)) as [Hc|Hl].
  - left. rewrite Ht, <- Hc. symmetry. apply take_prefix_eq; [done|].
    eapply (take_eq_length_le _ L0); [done|lia].
  - right. eapply lacking_mono; [done| |auto|done]. simpl. lia.
Qed.

Lemma ack_vote_mono s s' j T x i L T' i' vl :
  AInv s → lead_le (a_lead s) (a_lead s') → acked s j T x →
  a_lead s' !! T = Some (i, L) → own_term_at T L x → T < T' →
  a_vote s !! (j, T') = Some (i', vl) → (∀ Q, a_elec s !! T' = Some Q → j ∈ Q) →
  take (S x) vl = take (S x) L ∨ lacking s' T L x (λ T2, T2 < T').
Proof.
  intros I Hle Ha HL Hown HT Hv HQ.
  destruct (ack_down s _ j T x i L I Hle Ha HL) as (L0 & suf & HL0 & -> & Hx & Ht & Ho).
  destruct (ai_ack_vote _ I j T x i L0 T' i' vl Ha HL0 (Ho Hown) HT Hv HQ) as [Hc|Hl].
  - left. congruence.
  - right. eapply lacking_mono; [done| |by apply Ho|done]. done.
Qed.

Ltac by_ack_log_mono s i I :=
  match goal with
  | |- context [lacking ?s'] => apply (ack_log_mono s s' i I); simpl; auto using lead_le_refl, Z.le_refl
  end.

Lemma AInv_init : AInv a_init.
Proof.
  assert (∀ j T x, ¬ acked a_init j T x) as Hna by (intros j T x (? & ? & ?); set_solver).
  constructor; simpl; intros; simplify_map_eq; try (exfalso; by eapply Hna).
  - apply good_log_init.
  - lia.
Qed.

(** The election majorities stay when votes are only added. *)
Lemma elec_votes_mono s (votes' : gmap (Z * Z) (Z * list Log)) :
  AInv s → (∀ key v, a_vote s !! key = Some v → votes' !! key = Some v) →
  ∀ T i L, a_lead s !! T = Some (i, L) →
    ∃ Q, a_elec s !! T = Some Q ∧ quorum_set n Q ∧
      ∀ j, j ∈ Q → ∃ vl, votes' !! (j, T) = Some (i, vl).
Proof.
  intros I Hv T i L HL. destruct (ai_elec _ I _ _ _ HL) as (Q & ? & ? & HQ).
  exists Q. split_and!; [done..|]. intros j Hj. destruct (HQ j Hj). eauto.
Qed.

Lemma insert_fresh {K V} `{Countable K} (m : gmap K V) key v :
  m !! key = None → ∀ key' v', m !! key' = Some v' → <[key := v]> m !! key' = Some v'.
Proof. intros HN key' v' ?. rewrite lookup_insert_ne; [done|congruence]. Qed.

Lemma AInv_term s j T :
  AInv s → a_term s j < T →
  AInv (mkAState (<[j := T]> (a_term s)) (a_log s) (a_vote s) (a_cand s) (a_lead s)
          (a_elec s) (a_ack s)).
Proof.
  intros I HT.
  assert (∀ i, a_term s i ≤ (<[j := T]> (a_term s)) i) as Hle
    by (intros; apply fn_insert_le; lia).
  constructor; simpl; try (keep_field I).
  - intros i. eapply good_log_mono; [apply lead_le_refl|apply Hle|apply I].
  - intros i. transitivity (a_term s i); [apply I|apply Hle].
  - intros i T' v Hv. pose proof (ai_vote_term _ I _ _ _ Hv). specialize (Hle i). lia.
  - intros i T' v Hv. pose proof (ai_cand_term _ I _ _ _ Hv). specialize (Hle i). lia.
  - intros T' i L HL. pose proof (ai_lead_term _ I _ _ _ HL). specialize (Hle i). lia.
  - intros i T' x Ha. pose proof (ai_ack_term _ I _ _ _ Ha). specialize (Hle i). lia.
  - intros i. by_ack_log_mono s i I.
Qed.

Lemma AInv_vote s j i cl :
  AInv s → a_vote s !! (j, a_term s j) = None → a_cand s !! (i, a_term s j) = Some cl →
  up_to_date cl (a_log s j) →
  AInv (mkAState (a_term s) (a_log s) (<[(j, a_term s j) := (i, a_log s j)]> (a_vote s))
          (a_cand s) (a_lead s) (a_elec s) (a_ack s)).
Proof.
  intros I HN Hc Hup. pose proof (ai_cand_term _ I _ _ _ Hc).
  constructor; simpl; try (keep_field I).
  - intros j' T' i' vl Hv. insert_cases Hv; [apply I|by eapply ai_vote].
  - intros j' T' v Hv. insert_cases Hv; [lia|by eapply ai_vote_term].
  - intros j' T' i' vl Hv. insert_cases Hv; [by eauto|by eapply ai_vote_cand].
  - apply elec_votes_mono; [done|by apply insert_fresh].
  - intros j' T x i' L T' i1 vl Ha HL Hown HT Hv HQ.
    insert_cases Hv; [|by eapply (ai_ack_vote _ I)].
    destruct (ai_ack_log _ I _ _ _ _ _ Ha HL Hown)
      as [|(T2 & i2 & L2 & ? & ? & HL2 & ?)]; [by left|]. right.
    exists T2, i2, L2. split_and!; [done| |done..]. simpl in *.
    destruct (decide (T2 = a_term s j')) as [->|]; [exfalso|lia].
    destruct (ai_elec _ I _ _ _ HL2) as (Q & HQ' & _ & HQ2).
    destruct (HQ2 j' (HQ Q HQ')) as [??]. congruence.
Qed.

Lemma AInv_cand s j T :
  AInv s → T = a_term s j + 1 →
  AInv (mkAState (<[j := T]> (a_term s)) (a_log s)
          (<[(j, T) := (j, a_log s j)]> (a_vote s))
          (<[(j, T) := a_log s j]> (a_cand s)) (a_lead s) (a_elec s) (a_ack s)).
Proof.
  intros I HT.
  assert (∀ i, a_term s i ≤ (<[j := T]> (a_term s)) i) as Hle
    by (intros; apply fn_insert_le; lia).
  assert ((<[j := T]> (a_term s)) j = T) as Hj by apply fn_lookup_insert.
  assert (a_vote s !! (j, T) = None) as HN.
  { apply eq_None_not_Some. intros [v Hv]. apply (ai_vote_term _ I) in Hv. lia. }
  assert (a_cand s !! (j, T) = None) as HNc.
  { apply eq_None_not_Some. intros [v Hv]. apply (ai_cand_term _ I) in Hv. lia. }
  pose proof (ai_term_pos _ I j) as Hpos.
  assert (good_log (a_lead s) (T - 1) (a_log s j)) as Hg
    by (replace (T - 1) with (a_term s j) by lia; apply I).
  constructor; simpl; try (keep_field I).
  - intros i. eapply good_log_mono; [apply lead_le_refl|apply Hle|apply I].
  - intros j' T' cl Hv. insert_cases Hv; [done|by eapply ai_cand].
  - intros j' T' i' vl Hv. insert_cases Hv; [|by eapply ai_vote].
    eapply good_log_mono; [apply lead_le_refl| |done]. lia.
  - intros i. transitivity (a_term s i); [apply I|apply Hle].
  - intros j' T' v Hv. insert_cases Hv; [lia|].
    pose proof (ai_vote_term _ I _ _ _ Hv). specialize (Hle j'). lia.
  - intros j' T' v Hv. insert_cases Hv; [lia|].
    pose proof (ai_cand_term _ I _ _ _ Hv). specialize (Hle j'). lia.
  - intros T' i L HL. pose proof (ai_lead_term _ I _ _ _ HL). specialize (Hle i). lia.
  - intros i T' x Ha. pose proof (ai_ack_term _ I _ _ _ Ha). specialize (Hle i). lia.
  - intros j' T' i' vl Hv. insert_cases Hv.
    + eexists. rewrite lookup_insert_eq. split; [done|]. by eapply up_to_date_refl, gl_wf.
    + destruct (ai_vote_cand _ I _ _ _ _ Hv) as (cl & ? & ?).
      exists cl. split; [|done]. by apply insert_fresh.
  - intros T' i L HL. destruct (ai_lead_cand _ I _ _ _ HL) as (cl & suf & ? & ?).
    exists cl, suf. split; [|done]. by apply insert_fresh.
  - apply elec_votes_mono; [done|by apply insert_fresh].
  - intros i. by_ack_log_mono s i I.
  - intros j' T1 x i' L T' i1 vl Ha HL Hown HT1 Hv HQ.
    insert_cases Hv; [|by eapply (ai_ack_vote _ I)].
    destruct (ai_ack_log _ I _ _ _ _ _ Ha HL Hown)
      as [|(T2 & i2 & L2 & ? & ? & HL2 & ?)]; [by left|]. right.
    exists T2, i2, L2. split_and!; [done| |done..]. simpl in *. lia.
Qed.

Lemma AInv_elect s i Q :
  AInv s → a_lead s !! a_term s i = None → quorum_set n Q →
  (∀ j, j ∈ Q → ∃ vl, a_vote s !! (j, a_term s i) = Some (i, vl)) →
  a_cand s !! (i, a_term s i) = Some (a_log s i) →
  AInv (mkAState (a_term s) (a_log s) (a_vote s) (a_cand s)
          (<[a_term s i := (i, a_log s i)]> (a_lead s))
          (<[a_term s i := Q]> (a_elec s)) (a_ack s)).
Proof.
  intros I HN HQ Hv Hc.
  pose proof (lead_le_new (a_lead s) (a_term s i) (i, a_log s i) HN) as Hle.
  assert (a_elec s !! a_term s i = None) as HNe.
  { apply eq_None_not_Some. intros [Q' He]. apply (ai_elec_lead _ I) in He as [??]. congruence. }
  constructor; simpl; try (keep_field I).
  - intros j. eapply good_log_mono; [done|reflexivity|apply I].
  - intros j T cl Hcl. eapply good_log_mono; [done|reflexivity|by eapply ai_cand].
  - intros T i' L HL. eapply good_log_mono; [done|reflexivity|].
    insert_cases HL; [apply I|by eapply ai_lead].
  - intros j T i' vl Hvl. eapply good_log_mono; [done|reflexivity|by eapply ai_vote].
  - intros T i' L HL. insert_cases HL; [by eapply ai_cand_term|by eapply ai_lead_term].
  - intros T i' L HL. insert_cases HL; [|by eapply ai_lead_cand].
    eexists _, []. rewrite app_nil_r. split_and!; [done..|constructor].
  - intros T i' L HL. insert_cases HL.
    + exists Q. rewrite lookup_insert_eq. auto.
    + destruct (ai_elec _ I _ _ _ HL) as (Q' & ? & ?). exists Q'.
      split; [|done]. by apply insert_fresh.
  - intros T Q' HQ'. insert_cases HQ'; [rewrite lookup_insert_eq; eauto|].
    rewrite lookup_insert_ne by done. by eapply ai_elec_lead.
  - intros j T x Ha. destruct (ai_ack_lead _ I _ _ _ Ha) as (i' & L & HL & ?).
    exists i', L. split; [|done]. by apply insert_fresh.
  - intros j. by_ack_log_mono s j I.
  - intros j T x i' L T' i1 vl Ha HL Hown HT Hvl HQ'.
    eapply (ack_vote_mono s (mkAState _ _ _ _ _ _ _)); eauto.
    intros Q2 HQ2. apply HQ'. by apply insert_fresh.
Qed.

Lemma AInv_append s i e :
  AInv s → a_lead s !! a_term s i = Some (i, a_log s i) →
  e.(Log_Term) = a_term s i → e.(Log_Index) = go_len (a_log s i) →
  AInv (mkAState (a_term s) (<[i := a_log s i ++ [e]]> (a_log s)) (a_vote s) (a_cand s)
          (<[a_term s i := (i, a_log s i ++ [e])]> (a_lead s)) (a_elec s) (a_ack s)).
Proof.
  intros I HL He Hi.
  pose proof (lead_le_app _ _ _ _ e HL He) as Hle.
  pose proof (good_log_app _ _ _ _ e (ai_log _ I i) HL He Hi) as Hg.
  constructor; simpl; try (keep_field I).
  - intros j. destruct (decide (j = i)) as [->|]; [by rewrite fn_lookup_insert|].
    rewrite fn_lookup_insert_ne by done. eapply good_log_mono; [done|reflexivity|apply I].
  - intros j T cl Hcl. eapply good_log_mono; [done|reflexivity|by eapply ai_cand].
  - intros T i' L' HL'. insert_cases HL'; [done|].
    eapply good_log_mono; [done|reflexivity|by eapply ai_lead].
  - intros j T i' vl Hvl. eapply good_log_mono; [done|reflexivity|by eapply ai_vote].
  - intros T i' L' HL'. insert_cases HL'; by eapply ai_lead_term.
  - intros T i' L' HL'. insert_cases HL'; [|by eapply ai_lead_cand].
    destruct (ai_lead_cand _ I _ _ _ HL) as (cl & suf & Hcl & -> & Hs).
    exists cl, (suf ++ [e]). rewrite app_assoc. split_and!; [done..|].
    apply Forall_app. auto.
  - intros T i' L' HL'. insert_cases HL'; by eapply ai_elec.
  - intros T Q HQ. apply (ai_elec_lead _ I) in HQ as [[i' L'] Hv].
    destruct (Hle _ _ _ Hv) as (? & ? & _). eauto.
  - intros j T x Ha. destruct (ai_ack_lead _ I _ _ _ Ha) as (i' & L & HL' & ?).
    destruct (Hle _ _ _ HL') as (suf & ? & _). exists i', (L ++ suf).
    rewrite length_app. split; [done|lia].
  - intros j. by_ack_log_mono s j I.
    destruct (decide (j = i)) as [->|].
    + rewrite fn_lookup_insert. by eexists.
    + by rewrite fn_lookup_insert_ne.
  - intros j T x i' L T' i1 vl Ha HL' Hown HT Hvl HQ'.
    by eapply (ack_vote_mono s (mkAState _ _ _ _ _ _ _)).
Qed.

(** Up to the first difference, the log agrees with the leader's. *)
Lemma accept_is_prefix s j i LL L (p ci : nat) :
  AInv s → a_lead s !! a_term s j = Some (i, LL) → L `prefix_of` LL →
  (p < ci ≤ length L)%nat →
  (∀ x, (p ≤ x < ci)%nat → same_term_at x (a_log s j) L) →
  take ci (a_log s j) = take ci L.
Proof.
  intros I HL Hpre Hp Hsame. destruct ci as [|ci]; [lia|].
  eapply (agree_at (a_lead s)); [apply I| |apply Hsame; lia].
  eapply good_log_prefix; [by eapply ai_lead|done|lia].
Qed.

(** The log a server ends with when it takes a leader's entries from a difference on. *)
Lemma ack_log_accept s j i LL L ci T x i1 L1 :
  AInv s → a_lead s !! a_term s j = Some (i, LL) → L `prefix_of` LL → (ci < length L)%nat →
  take ci (a_log s j) = take ci L → ¬ same_term_at ci (a_log s j) L →
  acked s j T x → a_lead s !! T = Some (i1, L1) → own_term_at T L1 x →
  take (S x) L = take (S x) L1 ∨ lacking s T L1 x (λ T2, T2 ≤ a_term s j).
Proof.
  intros I HL Hpre Hci Htk Hne Ha HL1 Hown.
  destruct (ai_ack_log _ I _ _ _ _ _ Ha HL1 Hown) as [Hc|Hl]; [|by right].
  destruct (decide (S x ≤ ci)%nat) as [|Hgt].
  { left. rewrite <- Hc. symmetry. by eapply take_eq_le. }
  right. assert (take (S x) LL ≠ take (S x) L1) as Hdiff.
  { intros Heq. apply Hne.
    destruct (lookup_lt_is_Some_2 L ci Hci) as [b Hb].
    exists b, b. split_and!; [|done..].
    rewrite (take_eq_lookup_1 _ ci _ _ Hc) by lia.
    rewrite <- (take_eq_lookup_1 _ ci _ _ Heq) by lia.
    by eapply prefix_lookup_Some. }
  exists (a_term s j), i, LL. pose proof (ai_ack_term _ I _ _ _ Ha).
  split_and!; [|done..]. destruct (decide (T = a_term s j)) as [->|]; [|lia].
  exfalso. apply Hdiff. congruence.
Qed.

Lemma AInv_accept s j i LL L (p ci : nat) :
  AInv s → a_lead s !! a_term s j = Some (i, LL) → L `prefix_of` LL →
  (p < ci)%nat → (ci ≤ length (a_log s j))%nat → (ci < length L)%nat →
  (∀ x, (p ≤ x < ci)%nat → same_term_at x (a_log s j) L) →
  ¬ same_term_at ci (a_log s j) L →
  AInv (mkAState (a_term s) (<[j := take ci (a_log s j) ++ drop ci L]> (a_log s))
          (a_vote s) (a_cand s) (a_lead s) (a_elec s) (a_ack s)).
Proof.
  intros I HL Hpre Hp Hci1 Hci2 Hsame Hne.
  pose proof (accept_is_prefix s j i LL L p ci I HL Hpre ltac:(lia) Hsame) as Htk.
  rewrite Htk, take_drop.
  constructor; simpl; try (keep_field I).
  - intros j'. destruct (decide (j' = j)) as [->|].
    + rewrite fn_lookup_insert. eapply good_log_prefix; [by eapply ai_lead|done|lia].
    + rewrite fn_lookup_insert_ne by done. apply I.
  - intros j' T x i1 L1 Ha HL1 Hown. destruct (decide (j' = j)) as [->|].
    + rewrite fn_lookup_insert. by eapply (ack_log_accept s j i LL).
    + rewrite fn_lookup_insert_ne by done. by eapply (ai_ack_log _ I).
Qed.

Lemma AInv_ack s j i LL (x : nat) :
  AInv s → a_lead s !! a_term s j = Some (i, LL) → (x < length LL)%nat →
  take (S x) (a_log s j) = take (S x) LL →
  AInv (mkAState (a_term s) (a_log s) (a_vote s) (a_cand s) (a_lead s) (a_elec s)
          ({[(j, a_term s j, x)]} ∪ a_ack s)).
Proof.
  intros I HL Hx Ht.
  set (s' := mkAState _ _ _ _ _ _ _).
  assert (∀ j' T y, acked s' j' T y →
            (j' = j ∧ T = a_term s j ∧ (y ≤ x)%nat) ∨ acked s j' T y) as Hack.
  { intros j' T y (z & ? & Hz). apply elem_of_union in Hz as [Hz|Hz].
    - left. apply elem_of_singleton in Hz. by simplify_eq.
    - right. by exists z. }
  constructor; simpl; try (keep_field I).
  - intros j' T y [(-> & -> & ?)|Ha]%Hack; [lia|by eapply ai_ack_term].
  - intros j' T y [(-> & -> & ?)|Ha]%Hack; [|by eapply ai_ack_lead].
    exists i, LL. split; [done|lia].
  - intros j' T y i' L [(-> & -> & ?)|Ha]%Hack HL' Hown; [|by eapply (ai_ack_log _ I)].
    simplify_eq. left. eapply take_eq_le; [done|lia].
  - intros j' T y i' L T' i1 vl [(-> & -> & ?)|Ha]%Hack HL' Hown HT Hv HQ;
      [|by eapply (ai_ack_vote _ I)].
    apply (ai_vote_term _ I) in Hv. lia.
Qed.

Lemma AInv_step i s s' : AInv s → astep i s s' → AInv s'.
Proof.
  intros I Hs. inv Hs; eauto using AInv_term, AInv_cand, AInv_vote, AInv_elect, AInv_append,
    AInv_accept, AInv_ack.
Qed.

Lemma AInv_rtc i s s' : AInv s → rtc (astep i) s s' → AInv s'.
Proof. intros I Hr. induction Hr; eauto using AInv_step. Qed.

(** ** The history only grows, and an action is local to its server *)

Record a_le (i : Z) s s' : Prop := mkALe {
  le_term : ∀ j, a_term s j ≤ a_term s' j;
  le_vote : ∀ key v, a_vote s !! key = Some v → a_vote s' !! key = Some v;
  le_cand : ∀ key v, a_cand s !! key = Some v → a_cand s' !! key = Some v;
  le_lead : lead_le (a_lead s) (a_lead s');
  le_ack : a_ack s ⊆ a_ack s';
  le_other_term : ∀ j, j ≠ i → a_term s' j = a_term s j;
  le_other_log : ∀ j, j ≠ i → a_log s' j = a_log s j;
  le_other_vote : ∀ j T, j ≠ i → a_vote s' !! (j, T) = a_vote s !! (j, T);
  le_other_lead : ∀ j T L, j ≠ i → a_lead s' !! T = Some (j, L) → a_lead s !! T = Some (j, L);
}.

Lemma lead_le_trans lead1 lead2 lead3 :
  lead_le lead1 lead2 → lead_le lead2 lead3 → lead_le lead1 lead3.
Proof.
  intros H1 H2 T i L HL. destruct (H1 _ _ _ HL) as (s1 & HL1 & F1).
  destruct (H2 _ _ _ HL1) as (s2 & HL2 & F2). exists (s1 ++ s2).
  rewrite app_assoc, Forall_app. auto.
Qed.

Lemma a_le_refl i s : a_le i s s.
Proof. split; auto using lead_le_refl, Z.le_refl. Qed.

Lemma a_le_trans i s1 s2 s3 : a_le i s1 s2 → a_le i s2 s3 → a_le i s1 s3.
Proof.
  intros A B. split.
  - intros j. etrans; [apply A|apply B].
  - intros key v ?. by apply B, A.
  - intros key v ?. by apply B, A.
  - eapply lead_le_trans; [apply A|apply B].
  - etrans; [apply A|apply B].
  - intros j Hj. rewrite (le_other_term _ _ _ B), (le_other_term _ _ _ A); auto.
  - intros j Hj. rewrite (le_other_log _ _ _ B), (le_other_log _ _ _ A); auto.
  - intros j T Hj. rewrite (le_other_vote _ _ _ B), (le_other_vote _ _ _ A); auto.
  - intros j T L Hj ?. by apply A, B.
Qed.

Lemma astep_le i s s' : AInv s → astep i s s' → a_le i s s'.
Proof.
  intros I Hs.
  assert (∀ T, a_term s i < T → a_vote s !! (i, T) = None ∧ a_cand s !! (i, T) = None) as Hfresh.
  { intros T HT. split; apply eq_None_not_Some; intros [v Hv].
    - apply (ai_vote_term _ I) in Hv. lia.
    - apply (ai_cand_term _ I) in Hv. lia. }
  inv Hs; split; simpl;
    try solve [intros; reflexivity | intros; assumption
      | intros; apply fn_insert_le; lia
      | intros; by rewrite fn_lookup_insert_ne
      | intros; rewrite lookup_insert_ne by congruence; reflexivity
      | intros; apply insert_fresh; [|assumption]; first [assumption | apply Hfresh; lia]
      | intros ??? ? HL; by insert_cases HL
      | apply lead_le_refl | by apply lead_le_new | by apply lead_le_app
      | apply union_subseteq_r].
Qed.

Lemma rtc_astep_le i s s' : AInv s → rtc (astep i) s s' → a_le i s s'.
Proof.
  intros I Hr. induction Hr; [apply a_le_refl|].
  eauto using a_le_trans, astep_le, AInv_step.
Qed.

Lemma acked_mono i s s' j T x : a_le i s s' → acked s j T x → acked s' j T x.
Proof. intros Hle (y & ? & Hy). exists y. split; [done|]. by apply (le_ack _ _ _ Hle). Qed.

Lemma committed_mono i s s' T x : a_le i s s' → committed s T x → committed s' T x.
Proof.
  intros Hle (i0 & L & Q & HL & (e & He & HT) & HQ & Ha).
  destruct (le_lead _ _ _ Hle _ _ _ HL) as (suf & HL' & _).
  exists i0, (L ++ suf), Q. split_and!; auto.
  - exists e. rewrite lookup_app_l by by eapply lookup_lt_Some. done.
  - intros j Hj. eapply acked_mono; eauto.
Qed.

End proto.
