(* ===== verification/RaftNet.v ===== *)
(** * A cluster of Raft peers on an unreliable network

    [n] peers of RaftNode.v connected by a network that loses, delays and
    reorders packets, with timers, client commands, crashes and restarts.  One
    [action] is one atomic step:

    - [ATimer i]: the ticker of server [i] fires ([Tick]);
    - [ATick i rs]: [run] takes a tick; [rs] are the random draws it makes;
    - [ASend i k]: [serveChannels] of [i] takes its [k]-th waiting request;
    - [ADeliver k rs]: packet [k] arrives.  A request runs the handler and its
      reply becomes a packet; a response goes to [Step];
    - [ALose k]: packet [k] is lost (the call returns [false], which the sender
      ignores);
    - [AStart i cmd]: a client calls [Start];
    - [AApply i]: [stateMachine] of [i] receives from [commitc] and applies;
    - [AKill i]: [Kill];
    - [ARestart i rs]: the process stops at an arbitrary time and [Make] runs
      with a copy of its persister.

    An action whose handler panics has no successor: the process is gone.  The
    model allows more than the code in two places: [commitc] is an unbounded
    queue, and a response may reach a later incarnation of the server that sent
    the request.  A request holds the entries of the log as they are when it is
    made; the code shares their memory with the log until the request is encoded,
    which RaftMem.v and RaftAlias.v model.  RaftShared.v carries over what is proved
    of this cluster. *)
From S2P Require Import Prelude GoRt RaftTypes RaftNode.
Open Scope Z_scope.

Section net.
Context {C : Type}.
Local Abbreviation Raft := (RaftTypes.Raft C).
Local Abbreviation Message := (RaftTypes.Message C).
Local Abbreviation ApplyMsg := (RaftTypes.ApplyMsg C).

Inductive packet : Type :=
| Request (m : Message)
| Response (m : Message).

Record Config : Type := mkConfig {
  servers : Z → Raft;
  net : list packet;
  applied : Z → list ApplyMsg;        (* sent on [applyCh] by the current incarnation *)
  history : list (Z * ApplyMsg);      (* sent on [applyCh] by anyone, ever *)
}.

Inductive action : Type :=
| ATimer (i : Z)
| ATick (i : Z) (rs : list Z)
| ASend (i : Z) (k : nat)
| ADeliver (k : nat) (rs : list Z)
| ALose (k : nat)
| AStart (i : Z) (cmd : option C)
| AApply (i : Z)
| AKill (i : Z)
| ARestart (i : Z) (rs : list Z).

(** The handler the RPC layer calls for a request, and the message its reply turns into. *)
Definition serve (m : Message) : M Raft (option Message) :=
  match m.(Msg_args) with
  | VoteArgs a => rep <- RequestVote a ;; ret (Some (resp_message m (VoteReply rep)))
  | AppArgs a => rep <- AppendEnties a ;; ret (Some (resp_message m (AppReply rep)))
  | NoArgs => ret None
  end.

Definition with_rand (rs : list Z) (c : Config) (i : Z) : Raft :=
  set_globalRand rs (servers c i).

(** Replaces server [i] and the network. *)
Definition set_server (c : Config) (i : Z) (r : Raft) (ps : list packet) : Config :=
  mkConfig (<[i := r]> (servers c)) ps (applied c) (history c).

Definition opt_packet (f : Message → packet) (o : option Message) : list packet :=
  match o with Some m => [f m] | None => [] end.

Definition valid_id (n i : Z) : bool := (0 <=? i) && (i <? n).

Definition net_exec (n : Z) (a : action) (c : Config) : option Config :=
  match a with
  | ATimer i =>
      if valid_id n i then
        match Tick (servers c i) with
        | Ok (_, r) => Some (set_server c i r (net c))
        | Panic _ => None
        end
      else None
  | ATick i rs =>
      if valid_id n i && (0 <? tickc (servers c i)) then
        match run_tick (with_rand rs c i) with
        | Ok (_, r) => Some (set_server c i r (net c))
        | Panic _ => None
        end
      else None
  | ASend i k =>
      if valid_id n i then
        match serveChannels_take k (servers c i) with
        | Ok (o, r) => Some (set_server c i r (net c ++ opt_packet Request o))
        | Panic _ => None
        end
      else None
  | ADeliver k rs =>
      match net c !! k with
      | Some (Request m) =>
          match serve m (with_rand rs c (Msg_To m)) with
          | Ok (o, r) =>
              Some (set_server c (Msg_To m) r (delete k (net c) ++ opt_packet Response o))
          | Panic _ => None
          end
      | Some (Response m) =>
          match Step m (with_rand rs c (Msg_To m)) with
          | Ok (_, r) => Some (set_server c (Msg_To m) r (delete k (net c)))
          | Panic _ => None
          end
      | None => None
      end
  | ALose k => Some (mkConfig (servers c) (delete k (net c)) (applied c) (history c))
  | AStart i cmd =>
      if valid_id n i then
        match Start cmd (servers c i) with
        | Ok (_, r) => Some (set_server c i r (net c))
        | Panic _ => None
        end
      else None
  | AApply i =>
      if valid_id n i then
        match stateMachine_recv (servers c i) with
        | Ok (ms, r) =>
            Some (mkConfig (<[i := r]> (servers c)) (net c)
                    (<[i := applied c i ++ ms]> (applied c))
                    (history c ++ map (pair i) ms))
        | Panic _ => None
        end
      else None
  | AKill i =>
      if valid_id n i then
        match Kill (servers c i) with
        | Ok (_, r) => Some (set_server c i r (net c))
        | Panic _ => None
        end
      else None
  | ARestart i rs =>
      if valid_id n i then
        let r := servers c i in
        match Make (peers r) (me r) (Persister_Copy (persister r)) rs with
        | Ok r' =>
            Some (mkConfig (<[i := r']> (servers c)) (net c) (<[i := []]> (applied c)) (history c))
        | Panic _ => None
        end
      else None
  end.

(** No term has reached the largest [int]. *)
Definition bounded (n : Z) (c : Config) : bool :=
  forallb (λ i, currentTerm (servers c i) <? max_int) (seqZ 0 n).

Definition net_step (n : Z) (c c' : Config) : Prop :=
  bounded n c = true ∧ ∃ a, net_exec n a c = Some c'.

(** Every server has just been made, with an empty persister. *)
Definition initial (n : Z) (c : Config) : Prop :=
  (∀ i, ∃ rs, Make (seqZ 0 n) i MakePersister rs = Ok (servers c i)) ∧
  net c = [] ∧ (∀ i, applied c i = []) ∧ history c = [].

Definition reachable (n : Z) (c : Config) : Prop :=
  ∃ c0, initial n c0 ∧ rtc (net_step n) c0 c.

(** ** Running a list of actions *)

Fixpoint net_run (n : Z) (acts : list action) (c : Config) : option Config :=
  match acts with
  | [] => Some c
  | a :: acts' =>
      if bounded n c then
        match net_exec n a c with Some c' => net_run n acts' c' | None => None end
      else None
  end.

Lemma net_run_steps n acts c c' : net_run n acts c = Some c' → rtc (net_step n) c c'.
Proof.
  revert c. induction acts as [|a acts IH]; intros c H; simpl in H.
  - injection H as ->. apply rtc_refl.
  - destruct (bounded n c) eqn:Hb; [|done].
    destruct (net_exec n a c) as [c1|] eqn:He; [|done].
    eapply rtc_l; [|by apply IH]. split; [done|by exists a].
Qed.

Lemma net_run_app n acts1 acts2 c :
  net_run n (acts1 ++ acts2) c =
    match net_run n acts1 c with Some c' => net_run n acts2 c' | None => None end.
Proof.
  revert c. induction acts1 as [|a acts1 IH]; intros c; simpl; [done|].
  destruct (bounded n c); [|done]. destruct (net_exec n a c); [apply IH|done].
Qed.

(** The cluster right after [Make], all random draws being 0. *)
Definition boot (n : Z) : Config :=
  mkConfig (λ i, match Make (seqZ 0 n) i MakePersister [] with
                 | Ok r => r
                 | Panic _ => new_Raft (seqZ 0 n) i MakePersister []
                 end) [] (λ _, []) [].

Lemma boot_initial n : initial n (boot n).
Proof.
  split_and!; [|done..]. intros i. exists []. unfold boot, servers.
  destruct (Make (seqZ 0 n) i MakePersister []) eqn:H; [done|].
  by vm_compute in H.
Qed.

Lemma net_run_reachable n acts c : net_run n acts (boot n) = Some c → reachable n c.
Proof. intros H. exists (boot n). split; [apply boot_initial|by eapply net_run_steps]. Qed.

(** ** A cluster of three, run *)

(** [k] ticks of server [i], all random draws being 0. *)
Definition ticks (i : Z) (k : nat) : list action :=
  concat (replicate k [ATimer i; ATick i [0]]).

(** Server 0 is elected by server 1. *)
Definition elect_0 : list action := ticks 0 10 ++ [ASend 0 0; ADeliver 0 [0]; ADeliver 0 [0]].

(** The configuration after a run that has no panic. *)
Definition after (acts : list action) : Config :=
  match net_run 3 acts (boot 3) with Some c => c | None => boot 3 end.
Definition runs (acts : list action) : bool :=
  match net_run 3 acts (boot 3) with Some _ => true | None => false end.

Lemma after_run acts : runs acts = true → net_run 3 acts (boot 3) = Some (after acts).
Proof. unfold runs, after. by destruct (net_run _ _ _). Qed.

Lemma after_reachable acts : runs acts = true → reachable 3 (after acts).
Proof.
  unfold runs, after. destruct (net_run _ _ _) as [c|] eqn:H; [|done]. intros _.
  by eapply net_run_reachable.
Qed.

Lemma after_steps acts1 acts2 :
  runs (acts1 ++ acts2) = true → rtc (net_step 3) (after acts1) (after (acts1 ++ acts2)).
Proof.
  unfold runs, after. rewrite net_run_app.
  destruct (net_run 3 acts1 (boot 3)) as [c|]; [|done].
  destruct (net_run 3 acts2 c) as [c'|] eqn:H; [|done]. intros _. by eapply net_run_steps.
Qed.

End net.
Arguments packet : clear implicits.
Arguments Config : clear implicits.
Arguments action : clear implicits.
