(* ===== verification/RaftSpec.v ===== *)
(** * What the operations of a Raft peer do

    Specifications of the operations of RaftNode.v on a peer whose log is well
    formed ([wf_log]: entry [x] carries index [x], entry 0 is the initial one),
    in the weakest-precondition style of GoRt.v.  They say what is returned and
    which fields change, and that none of the run-time checks fails. *)
From S2P Require Import Prelude GoRt RaftTypes RaftNode RaftProto RaftNet.
Open Scope Z_scope.

Section spec.
Context {C : Type} (E : string → Prop).
Local Abbreviation Log := (RaftTypes.Log C).
Local Abbreviation Raft := (RaftTypes.Raft C).
Implicit Types (r : Raft) (l L : list Log).

(** ** Reading the log *)

Lemma log_at_wp r i e Q :
  0 ≤ i → log r !! Z.to_nat i = Some e → Q e r → wp E (log_at i) Q r.
Proof.
  intros Hi He HQ. unfold log_at. wp_steps.
  eapply wp_must; [|done]. by apply go_at_Some.
Qed.

Lemma wf_log_last l : wf_log l → ∃ e, last l = Some e ∧ e.(Log_Index) = go_len l - 1.
Proof.
  intros Hw. pose proof (wf_log_length _ Hw). destruct Hw as [H0 Hi].
  destruct (last l) as [e|] eqn:He.
  - exists e. split; [done|]. rewrite last_lookup in He. rewrite (Hi _ _ He).
    unfold go_len. lia.
  - apply last_None in He. subst l. simpl in *. lia.
Qed.

Lemma log_at_last_wp r e Q :
  last (log r) = Some e → Q e r → wp E (log_at (go_len (log r) - 1)) Q r.
Proof.
  intros He HQ. assert (log r ≠ []) as Hne by (intros Hn; by rewrite Hn in He).
  rewrite last_lookup in He. destruct (log r) as [|x l'] eqn:Hl; [done|].
  rewrite <- Hl in *. unfold go_len.
  apply (log_at_wp _ _ e); [rewrite Hl; simpl; lia| |done].
  rewrite <- He. f_equal. rewrite Hl. simpl. lia.
Qed.

Lemma lastIndex_wp r Q :
  wf_log (log r) → Q (go_len (log r) - 1) r → wp E lastIndex Q r.
Proof.
  intros Hw HQ. destruct (wf_log_last _ Hw) as (e & He & Hi). unfold lastIndex.
  wp_steps. apply (log_at_last_wp _ e); [done|]. wp_steps. by rewrite Hi.
Qed.

Lemma lastTerm_wp r e Q :
  wf_log (log r) → last (log r) = Some e → Q e.(Log_Term) r → wp E lastTerm Q r.
Proof.
  intros Hw He HQ. unfold lastTerm. wp_steps. apply lastIndex_wp; [done|].
  wp_steps. apply (log_at_last_wp _ e); [done|]. by wp_steps.
Qed.

Lemma log_line_wp r Q : wf_log (log r) → Q tt r → wp E log_line Q r.
Proof.
  intros Hw HQ. destruct (wf_log_last _ Hw) as (e & He & _). unfold log_line. wp_steps.
  apply (lastTerm_wp _ e); [done..|]. wp_steps. by apply lastIndex_wp.
Qed.

(** The test of [RequestVote] is [up_to_date]. *)
Lemma reqMoreUpToDate_wp r (args : RequestVoteArgs) cl ec Q :
  wf_log (log r) → wf_log cl → last cl = Some ec →
  args.(RVA_LastLogIndex) = ec.(Log_Index) → args.(RVA_LastLogTerm) = ec.(Log_Term) →
  (∀ b : bool, (b = true ↔ up_to_date cl (log r)) → Q b r) →
  wp E (reqMoreUpToDate args) Q r.
Proof.
  intros Hw Hwc Hec Hi Ht HQ. destruct (wf_log_last _ Hw) as (ev & Hev & Hvi).
  destruct (wf_log_last _ Hwc) as (ec' & Hec' & Hci). simplify_eq.
  unfold reqMoreUpToDate. wp_steps. apply (log_at_last_wp _ ev); [done|]. wp_steps.
  apply HQ. rewrite Hi, Ht, Hci, Hvi. unfold up_to_date, go_len.
  rewrite orb_true_iff, andb_true_iff, Z.gtb_lt, Z.eqb_eq, Z.geb_le. split.
  - intros H. exists ec, ev. split_and!; [done..|]. destruct H as [?|[? ?]]; [by left|right; lia].
  - intros (? & ? & ? & ? & H). simplify_eq. destruct H as [?|[? ?]]; [by left|right; lia].
Qed.

Lemma matchTerm_wp r index term Q :
  wf_log (log r) → 0 ≤ index →
  (∀ b : bool, (b = true ↔ ∃ e, log r !! Z.to_nat index = Some e ∧ e.(Log_Term) = term) → Q b r) →
  wp E (matchTerm index term) Q r.
Proof.
  intros Hw Hi HQ. unfold matchTerm. wp_steps. apply lastIndex_wp; [done|].
  destruct (index <=? _) eqn:Hle; boolify.
  - destruct (go_at_is_Some (log r) index) as [e [_ He]%go_at_Some]; [lia|].
    wp_steps. apply (log_at_wp _ _ e); [done..|]. wp_steps. apply HQ.
    rewrite Z.eqb_eq. split; [eauto|]. intros (? & ? & ?). by simplify_eq.
  - wp_steps. apply HQ. split; [done|]. intros (e & He & _).
    apply lookup_lt_Some in He. unfold go_len in *. lia.
Qed.

(** ** Appending *)

Lemma same_term_at_dec_from (x : nat) l L e :
  L !! x = Some e →
  (∃ a, l !! x = Some a ∧ a.(Log_Term) = e.(Log_Term)) ↔ same_term_at x l L.
Proof.
  intros He. split.
  - intros (a & ? & ?). by exists a, e.
  - intros (a & b & ? & ? & ?). simplify_eq. eauto.
Qed.

(** [findConflict] on the entries of [L] from [p] on: the first index whose terms differ. *)
Lemma findConflict_wp r L (p : nat) Q :
  wf_log (log r) → wf_log L → (1 ≤ p)%nat →
  ((∀ x, (p ≤ x < length L)%nat → same_term_at x (log r) L) → Q 0 r) →
  (∀ ci, (p ≤ ci < length L)%nat → (∀ x, (p ≤ x < ci)%nat → same_term_at x (log r) L) →
     ¬ same_term_at ci (log r) L → Q (Z.of_nat ci) r) →
  wp E (findConflict (drop p L)) Q r.
Proof.
  intros Hw HwL. revert Q. remember (length L - p)%nat as k eqn:Hk. revert p Hk.
  induction k as [|k IH]; intros p Hk Q Hp H0 Hc.
  - rewrite drop_ge by lia. apply wp_ret. apply H0. lia.
  - destruct (lookup_lt_is_Some_2 L p ltac:(lia)) as [e He].
    rewrite (drop_S _ _ _ He). simpl.
    assert (e.(Log_Index) = Z.of_nat p) as Hep by (by apply HwL).
    wp_steps. apply matchTerm_wp; [done|lia|]. intros b Hb.
    rewrite Hep, Nat2Z.id, (same_term_at_dec_from p _ _ e He) in Hb.
    destruct b; simpl.
    + assert (same_term_at p (log r) L) as Hs by (by apply Hb).
      apply IH; [lia|lia|..].
      * intros Hall. apply H0. intros x ?. destruct (decide (x = p)) as [->|]; [done|].
        apply Hall. lia.
      * intros ci ? Hall Hn. apply Hc; [lia| |done]. intros x ?.
        destruct (decide (x = p)) as [->|]; [done|]. apply Hall. lia.
    + apply wp_bind, lastIndex_wp; [done|]. rewrite Hep.
      apply wp_bind, (wp_mono _ _ (λ _ r', r' = r)).
      * destruct (_ <=? _) eqn:Hle; boolify; [|done]. unfold term. wp_steps.
        destruct (go_at_is_Some (log r) (Z.of_nat p)) as [e' [_ He']%go_at_Some]; [lia|].
        by apply (log_at_wp _ _ e'); [lia|..].
      * intros [] r' ->. wp_steps. apply Hc; [lia|lia|]. rewrite <- Hb. done.
Qed.

Lemma appendLog_wp r e0 ents Q :
  wf_log (log r) → commitIndex r < e0.(Log_Index) ≤ go_len (log r) → 0 ≤ e0.(Log_Index) →
  (let l' := take (Z.to_nat e0.(Log_Index)) (log r) ++ e0 :: ents in
   wf_log l' ∧ Q (go_len l' - 1) (set_log l' r)) →
  wp E (appendLog (e0 :: ents)) Q r.
Proof.
  intros Hw Hc Hp [Hwl HQ]. unfold appendLog. wp_steps.
  destruct (_ <? _) eqn:Hlt; boolify; [lia|]. wp_steps.
  eapply wp_must; [by rewrite go_slice_eq by lia|].
  wp_steps. rewrite drop_0. by apply lastIndex_wp.
Qed.

Lemma checkLog_from_ok l (i : Z) :
  (∀ x e, l !! x = Some e → e.(Log_Index) = i + Z.of_nat x) → checkLog_from i l = true.
Proof.
  revert i. induction l as [|e l IH]; intros i H; simpl; [done|].
  rewrite (H 0%nat e eq_refl), IH.
  - rewrite andb_true_r. apply Z.eqb_eq. lia.
  - intros x e' He. rewrite (H (S x) e' He). lia.
Qed.

Lemma checkLog_wp r Q : wf_log (log r) → Q tt r → wp E checkLog Q r.
Proof.
  intros [_ Hi] HQ. unfold checkLog. wp_steps.
  rewrite checkLog_from_ok; [by apply wp_ret|]. intros x e He. by rewrite (Hi _ _ He).
Qed.

Lemma commitTo_wp r tocommit Q :
  wf_log (log r) → tocommit < go_len (log r) →
  (tocommit ≤ commitIndex r → Q tt r) →
  (commitIndex r < tocommit →
   Q tt (set_commitc (commitc r ++ [tocommit]) (set_commitIndex tocommit r))) →
  wp E (commitTo tocommit) Q r.
Proof.
  intros Hw Hc H1 H2. unfold commitTo. wp_steps. apply lastIndex_wp; [done|].
  rewrite Z.gtb_ltb. destruct (_ <? _) eqn:Hlt; boolify; [lia|]. wp_steps.
  destruct (commitIndex r <? tocommit) eqn:Hc2; boolify; wp_steps; auto.
Qed.

(** ** Role changes *)

(** The fields no role change touches. *)
Record frame r r' : Prop := mkFrame {
  fr_peers : peers r' = peers r;
  fr_me : me r' = me r;
  fr_persister : persister r' = persister r;
  fr_log : log r' = log r;
  fr_commitIndex : commitIndex r' = commitIndex r;
  fr_lastApplied : lastApplied r' = lastApplied r;
  fr_electionTimeout : electionTimeout r' = electionTimeout r;
  fr_commitc : commitc r' = commitc r;
  fr_propc : propc r' = propc r;
}.

(** The vote of a peer that enters [term]. *)
Definition vote_in term r : Z := if currentTerm r =? term then votedFor r else NoneId.

Lemma reset_wp r term Q :
  electionTimeout r = 10 → log r ≠ [] →
  (∀ r', frame r r' → state r' = state r → currentTerm r' = term → votedFor r' = vote_in term r →
     votes r' = ∅ → nextIndex r' = go_make (go_len (peers r)) 0 →
     matchIndex r' = go_make (go_len (peers r)) 0 → Q tt r') →
  wp E (reset term) Q r.
Proof.
  intros Het Hl HQ. unfold reset, resetRandomizedElectionTimeout, Intn, vote_in in *.
  wp_steps. destruct (currentTerm r =? term) eqn:Ht; boolify; simpl; wp_steps; simpl;
    rewrite Het; simpl; wp_steps; simpl; destruct (log r) eqn:Hlr; try done;
    apply HQ; simpl; auto; split; simpl; auto.
Qed.

Lemma becomeFollower_wp r term ld Q :
  electionTimeout r = 10 → log r ≠ [] →
  (∀ r', frame r r' → state r' = StateFollower → tick r' = Some tickElectionF →
     step r' = Some stepFollowerF → currentTerm r' = term → votedFor r' = vote_in term r → Q tt r') →
  wp E (becomeFollower term ld) Q r.
Proof.
  intros Het Hl HQ. unfold becomeFollower. wp_steps. apply reset_wp; [done..|].
  intros r' [] **. wp_steps. apply HQ; simpl; auto. split; auto.
Qed.

Lemma becomeCandidate_wp r Q :
  electionTimeout r = 10 → log r ≠ [] → state r ≠ StateLeader →
  - 2 ^ 63 ≤ currentTerm r < max_int →
  (∀ r', frame r r' → state r' = StateCandidate → tick r' = Some tickElectionF →
     step r' = Some stepCandidateF → currentTerm r' = currentTerm r + 1 →
     votedFor r' = me r → votes r' = ∅ → Q tt r') →
  wp E becomeCandidate Q r.
Proof.
  intros Het Hl Hst Hb HQ. unfold becomeCandidate. wp_steps.
  rewrite bool_decide_eq_false_2 by done. wp_steps. apply reset_wp; [done..|].
  intros r' [] **. wp_steps. apply HQ; simpl; auto; [split; auto|].
  rewrite <- (wrap64_id (currentTerm r + 1)); [done|]. unfold max_int in *. lia.
Qed.

Lemma set_nextIndex_at_wp r i v Q :
  0 ≤ i < go_len (nextIndex r) →
  Q tt (set_nextIndex (<[Z.to_nat i := v]> (nextIndex r)) r) → wp E (set_nextIndex_at i v) Q r.
Proof.
  intros. unfold set_nextIndex_at. wp_steps.
  eapply wp_must; [by apply go_set_eq|]. by wp_steps.
Qed.

Lemma set_matchIndex_at_wp r i v Q :
  0 ≤ i < go_len (matchIndex r) →
  Q tt (set_matchIndex (<[Z.to_nat i := v]> (matchIndex r)) r) → wp E (set_matchIndex_at i v) Q r.
Proof.
  intros. unfold set_matchIndex_at. wp_steps.
  eapply wp_must; [by apply go_set_eq|]. by wp_steps.
Qed.

(** The loop of [becomeLeader]: every [nextIndex] becomes the length of the log. *)
Lemma fill_nextIndex_wp r Q :
  length (nextIndex r) = length (peers r) →
  (∀ ni, length ni = length (peers r) → Forall (eq (go_len (log r))) ni →
     Q tt (set_nextIndex ni r)) →
  wp E (for_range (go_range (peers r))
          (λ i, r <- get ;; set_nextIndex_at i (go_len r.(log)))) Q r.
Proof.
  intros Hlen HQ.
  eapply wp_mono; [apply (wp_for_range _ _ (λ rest r1, ∃ ni, r1 = set_nextIndex ni r ∧
    length ni = length (peers r) ∧ (∀ i, i ∈ rest → 0 ≤ i < go_len (peers r)) ∧
    ∀ x v, ni !! x = Some v → Z.of_nat x ∈ rest ∨ v = go_len (log r)))|].
  - exists (nextIndex r). split_and!; [by destruct r|done| |].
    + intros i. by rewrite elem_of_go_range.
    + intros x v Hx%lookup_lt_Some. left. apply elem_of_go_range. unfold go_len. lia.
  - intros i rest r1 (ni & -> & Hn & Hin & Hv). wp_steps.
    assert (0 ≤ i < go_len (peers r)) as Hi by (apply Hin; by left).
    apply set_nextIndex_at_wp; simpl; [unfold go_len in *; lia|].
    exists (<[Z.to_nat i := go_len (log r)]> ni). rewrite length_insert. split_and!; [done..| |].
    + intros j Hj. apply Hin. by right.
    + intros x v [(<- & <- & _)|[? Hx]]%list_lookup_insert_Some; [by right|].
      destruct (Hv _ _ Hx) as [[Heq|?]%elem_of_cons|?]; [lia|auto..].
  - intros [] r1 (ni & -> & Hn & _ & Hv). apply HQ; [done|].
    apply Forall_lookup. intros x v Hx. destruct (Hv _ _ Hx) as [Hnil|]; [|done].
    by apply elem_of_nil in Hnil.
Qed.

Lemma becomeLeader_wp r Q :
  electionTimeout r = 10 → log r ≠ [] → state r ≠ StateFollower →
  (∀ r', frame r r' → state r' = StateLeader → tick r' = Some tickHeartbeatF →
     step r' = Some stepLeaderF → currentTerm r' = currentTerm r → votedFor r' = votedFor r →
     length (nextIndex r') = length (peers r) → Forall (eq (go_len (log r))) (nextIndex r') →
     matchIndex r' = go_make (go_len (peers r)) 0 → Q tt r') →
  wp E becomeLeader Q r.
Proof.
  intros Het Hl Hst HQ. unfold becomeLeader. wp_steps.
  rewrite bool_decide_eq_false_2 by done. wp_steps. apply reset_wp; [done..|].
  intros r' F Hs Hct Hvf Hvs Hni Hmi. wp_steps. rewrite <- (fr_peers _ _ F).
  match goal with |- wp _ _ _ ?r1 => change (peers r') with (peers r1) end.
  apply fill_nextIndex_wp; simpl.
  - rewrite Hni, (fr_peers _ _ F). unfold go_make, go_len.
    by rewrite length_replicate, Nat2Z.id.
  - intros ni Hn Hall. unfold vote_in in Hvf. rewrite Z.eqb_refl in Hvf.
    destruct F. apply HQ; simpl; auto; try congruence. split; simpl; auto.
Qed.

Lemma poll_wp r id v Q :
  (let vs := match votes r !! id with None => <[id := v]> (votes r) | Some _ => votes r end in
   Q (granted_votes vs) (set_votes vs r)) →
  wp E (poll id v) Q r.
Proof.
  intros HQ. unfold poll. wp_steps. destruct (votes r !! id) eqn:Hv; simpl in *.
  - wp_steps. by destruct r.
  - by wp_steps.
Qed.

(** ** Broadcasts *)

Definition persisted r : Raft := set_persister (SaveRaftState (persist_data r) (persister r)) r.

(** The requests the two broadcasts prepare for server [j]; [e] is the last entry of the
    log, or the one at [p]. *)
Definition vote_request r (e : Log) (j : Z) : Message C :=
  mkMessage MsgVote (me r) j (currentTerm r) 0 false None "Raft.RequestVote"
    (VoteArgs (mkRequestVoteArgs (currentTerm r) (me r) (go_len (log r) - 1) e.(Log_Term)))
    (VoteReply RequestVoteReply_zero).

Definition app_request r (p : nat) (e : Log) (j : Z) : Message C :=
  mkMessage MsgApp (me r) j (currentTerm r) 0 false None "Raft.AppendEnties"
    (AppArgs (mkAppendEntiesArgs (currentTerm r) (me r) (commitIndex r) (Z.of_nat p)
                e.(Log_Term) (drop (S p) (log r))))
    (AppReply AppendEntiesReply_zero).

(** A loop over the peers whose body only adds requests to [propc]. *)
Lemma spawn_loop_wp r (P : Message C → Prop) body Q :
  (∀ i q, 0 ≤ i < go_len (peers r) →
     wp E (body i) (λ _ r2, ∃ ms, r2 = set_propc (q ++ ms) r ∧ Forall P ms) (set_propc q r)) →
  (∀ ms, Forall P ms → Q tt (set_propc (propc r ++ ms) r)) →
  wp E (for_range (go_range (peers r)) body) Q r.
Proof.
  intros Hb HQ.
  eapply wp_mono; [apply (wp_for_range _ _ (λ rest r1, ∃ ms,
    r1 = set_propc (propc r ++ ms) r ∧ Forall P ms ∧ ∀ i, i ∈ rest → 0 ≤ i < go_len (peers r)))|].
  - exists []. rewrite app_nil_r. split_and!; [by destruct r|done|].
    intros i. by rewrite elem_of_go_range.
  - intros i rest r1 (ms & -> & HP & Hin). eapply wp_mono; [apply Hb, Hin; by left|].
    intros [] r2 (ms' & -> & HP'). exists (ms ++ ms'). rewrite app_assoc. split_and!; [done| |].
    + by apply Forall_app.
    + intros j Hj. apply Hin. by right.
  - intros [] r1 (ms & -> & HP & _). by apply HQ.
Qed.

Lemma bcastRequestVoteRPC_wp r e Q :
  wf_log (log r) → last (log r) = Some e →
  (∀ ms, Forall (λ m, ∃ j, 0 ≤ j < go_len (peers r) ∧ j ≠ me r ∧ m = vote_request r e j) ms →
     Q tt (set_propc (propc r ++ ms) (persisted r))) →
  wp E bcastRequestVoteRPC Q r.
Proof.
  intros Hw He HQ. unfold bcastRequestVoteRPC, persist. wp_steps.
  apply (spawn_loop_wp (persisted r) (λ m, ∃ j, 0 ≤ j < go_len (peers r) ∧ j ≠ me r ∧
    m = vote_request r e j)); [|apply HQ].
  intros i q Hi. wp_steps. simpl in *. destruct (i =? me r) eqn:Hme; boolify; simpl.
  - wp_steps. exists []. by rewrite app_nil_r.
  - wp_steps. apply lastIndex_wp; [done|]. apply wp_bind, (lastTerm_wp _ e); [done..|].
    unfold spawn_send. wp_steps. eexists [_]. split; [done|]. apply Forall_singleton. eauto.
Qed.

Lemma bcastAppend_wp r Q :
  wf_log (log r) → length (nextIndex r) = length (peers r) →
  Forall (λ x, 1 ≤ x ≤ go_len (log r)) (nextIndex r) →
  (∀ ms, Forall (λ m, ∃ j p e, 0 ≤ j < go_len (peers r) ∧ j ≠ me r ∧ log r !! p = Some e ∧
            m = app_request r p e j) ms →
     Q tt (set_propc (propc r ++ ms) (persisted r))) →
  wp E bcastAppend Q r.
Proof.
  intros Hw Hlen Hni HQ. unfold bcastAppend, persist. wp_steps.
  apply (spawn_loop_wp (persisted r) (λ m, ∃ j p e, 0 ≤ j < go_len (peers r) ∧ j ≠ me r ∧
    log r !! p = Some e ∧ m = app_request r p e j)); [|apply HQ].
  intros i q Hi. wp_steps. simpl in *. destruct (i =? me r) eqn:Hme; boolify; simpl.
  { wp_steps. exists []. by rewrite app_nil_r. }
  destruct (go_at_is_Some (nextIndex r) i) as [x Hx]; [unfold go_len in *; lia|].
  assert (1 ≤ x ≤ go_len (log r)) as Hb.
  { apply go_at_Some in Hx as [_ Hx]. by eapply Forall_lookup_1 in Hni. }
  wp_steps. eapply wp_must; [done|]. apply wp_bind, lastIndex_wp; [done|]. simpl.
  rewrite Z.gtb_ltb, (proj2 (Z.ltb_ge _ _)), (proj2 (Z.ltb_ge _ _)) by lia. simpl.
  destruct (go_at_is_Some (log r) (x - 1)) as [e [_ He]%go_at_Some]; [lia|].
  wp_steps. apply (log_at_wp _ _ e); [lia|done|]. wp_steps.
  eapply wp_must; [apply go_slice_tail; lia|]. unfold spawn_send. wp_steps.
  eexists [_]. split; [done|]. apply Forall_singleton.
  exists i, (Z.to_nat (x - 1)), e. split_and!; [lia..|done| ]. unfold app_request. simpl.
  replace (Z.of_nat (Z.to_nat (x - 1))) with (x - 1) by lia.
  by replace (S (Z.to_nat (x - 1))) with (Z.to_nat (x - 1 + 1)) by lia.
Qed.

(** ** Commitment *)

(** The indices of the elements with a property form a set of as many elements. *)
Lemma filter_index_set (P : Z → Prop) `{∀ x, Decision (P x)} (ml : list Z) :
  ∃ S : gset Z, size S = length (filter P ml) ∧
    ∀ j, j ∈ S → 0 ≤ j < go_len ml ∧ ∃ x, ml !! Z.to_nat j = Some x ∧ P x.
Proof.
  induction ml as [|x ml (S & Hs & HS)] using rev_ind.
  { exists ∅. split; [done|]. set_solver. }
  assert (∀ j, j ∈ S → 0 ≤ j < go_len (ml ++ [x]) ∧
            ∃ y, (ml ++ [x]) !! Z.to_nat j = Some y ∧ P y) as HS'.
  { intros j (Hj & y & Hy & HP)%HS. unfold go_len in *. rewrite length_app. split; [lia|].
    exists y. by rewrite lookup_app_l by by eapply lookup_lt_Some. }
  rewrite filter_app, length_app. destruct (decide (P x)) as [HP|HP].
  - exists ({[go_len ml]} ∪ S). rewrite filter_cons_True, filter_nil by done. split.
    + rewrite size_union, size_singleton, Hs; simpl; [lia|].
      intros j Hj%elem_of_singleton [? _]%HS. lia.
    + intros j [->%elem_of_singleton|Hj]%elem_of_union; [|auto].
      unfold go_len. rewrite length_app, Nat2Z.id. simpl. split; [lia|].
      exists x. by rewrite lookup_app_r, Nat.sub_diag by lia.
  - exists S. rewrite filter_cons_False, filter_nil by done. simpl. rewrite Nat.add_0_r. auto.
Qed.

(** Element [k] of the descending sort is reached by at least [k + 1] elements. *)
Lemma sort_reverse_count (ml : list Z) (k : nat) m :
  sort_reverse ml !! k = Some m → (k < length (filter (λ x, m ≤ x)%Z ml))%nat.
Proof.
  intros Hk. assert (sort_reverse ml ≡ₚ ml) as Hp by apply merge_sort_Permutation.
  rewrite <- Hp.
  assert (StronglySorted (flip Z.le) (sort_reverse ml)) as Hss.
  { apply StronglySorted_merge_sort; [|intros x y; unfold flip; lia].
    intros x y z. unfold flip. lia. }
  rewrite <- (take_drop (S k) (sort_reverse ml)), filter_app, length_app.
  assert (filter (λ x, m ≤ x) (take (S k) (sort_reverse ml)) = take (S k) (sort_reverse ml)) as ->.
  { apply filter_all. apply Forall_lookup. intros y x [Hx ?]%lookup_take_Some.
    destruct (decide (y = k)) as [->|]; [simplify_eq; lia|].
    eapply (StronglySorted_app_1_elem_of (flip Z.le) (take (S y) (sort_reverse ml))).
    - by rewrite take_drop.
    - apply list_elem_of_lookup. exists y. by rewrite lookup_take_lt by lia.
    - apply list_elem_of_lookup. exists (k - S y)%nat. rewrite lookup_drop, <- Hk. f_equal. lia. }
  rewrite length_take. apply lookup_lt_Some in Hk. lia.
Qed.

(** The leader commits an entry of its term that a majority has, or nothing. *)
Lemma updateCommitIndex_wp r n Q :
  wf_log (log r) → go_len (peers r) = n → 0 < n → go_len (matchIndex r) = n →
  Forall (λ x, 0 ≤ x < go_len (log r)) (matchIndex r) → 0 ≤ commitIndex r →
  Q tt r →
  (∀ mci e S, commitIndex r < mci < go_len (log r) →
     log r !! Z.to_nat mci = Some e → e.(Log_Term) = currentTerm r → quorum_set n S →
     (∀ j, j ∈ S → ∃ x, matchIndex r !! Z.to_nat j = Some x ∧ mci ≤ x) →
     Q tt (set_commitc (commitc r ++ [mci]) (set_commitIndex mci r))) →
  wp E updateCommitIndex Q r.
Proof.
  intros Hw Hp Hn Hm Hrange Hc H0 H1. unfold updateCommitIndex. wp_steps.
  unfold quorum. rewrite Hp.
  assert (sort_reverse (matchIndex r) ≡ₚ matchIndex r) as Hperm by apply merge_sort_Permutation.
  assert (0 ≤ n `quot` 2 < n) as Hq by (split; [apply Z.quot_pos; lia|apply Z.quot_lt; lia]).
  destruct (go_at_is_Some (sort_reverse (matchIndex r)) (n `quot` 2 + 1 - 1)) as [mci Hmci].
  { unfold go_len in *. rewrite Hperm. lia. }
  eapply wp_must; [done|]. apply go_at_Some in Hmci as [_ Hmci].
  assert (0 ≤ mci < go_len (log r)) as Hb.
  { rewrite Forall_forall in Hrange. apply Hrange. rewrite <- Hperm.
    by eapply list_elem_of_lookup_2. }
  rewrite Z.gtb_ltb. destruct (_ <? _) eqn:Hlt; boolify; [|by wp_steps].
  destruct (go_at_is_Some (log r) mci Hb) as [e [_ He]%go_at_Some].
  wp_steps. apply (log_at_wp _ _ e); [lia|done|].
  destruct (_ =? _) eqn:Ht; boolify; [|by wp_steps].
  apply commitTo_wp; [done|lia|lia|]. intros _.
  destruct (filter_index_set (λ x, mci ≤ x) (matchIndex r)) as (S & Hs & HS).
  apply sort_reverse_count in Hmci.
  apply (H1 mci e S); [lia|done..| |].
  - split.
    + intros j [? _]%HS. apply elem_of_nodes. lia.
    + pose proof (Z.quot_rem n 2 ltac:(lia)). pose proof (Z.rem_bound_pos n 2 ltac:(lia) ltac:(lia)).
      lia.
  - intros j (_ & x & ?)%HS. eauto.
Qed.

(** As many servers as [poll] counts have granted their vote. *)
Lemma granted_votes_set (vs : gmap Z bool) :
  ∃ S : gset Z, Z.of_nat (size S) = granted_votes vs ∧ ∀ j, j ∈ S → vs !! j = Some true.
Proof.
  exists (dom (filter (λ kv, kv.2 = true) vs)). split.
  - unfold granted_votes. by rewrite size_dom.
  - intros j [v [Hv Ht]%map_lookup_filter_Some]%elem_of_dom. simpl in Ht. by subst v.
Qed.

End spec.

(** ** What the handlers leave alone

    No handler of [run] moves [lastApplied] (only [stateMachine] does), changes the
    identity of the peer, stops it or saves a snapshot. *)

Definition identity {C} (r : Raft C) : list Z * Z * bool * list Z :=
  (peers r, me r, stopc r, snapshot (persister r)).
Definition fixed_part {C} (r : Raft C) : list Z * Z * bool * list Z * Z := (identity r, lastApplied r).

Section fixed.
Context {C : Type}.
Local Abbreviation kept := (keeps (fixed_part (C := C))).

Lemma lastIndex_kept : kept lastIndex.
Proof. unfold lastIndex, log_at. keeps_tac. Qed.
Lemma log_at_kept i : kept (log_at i).
Proof. unfold log_at. keeps_tac. Qed.
Lemma persist_kept : kept persist.
Proof. unfold persist. keeps_tac. Qed.
Lemma log_line_kept : kept log_line.
Proof. unfold log_line, lastTerm, lastIndex, log_at. keeps_tac. Qed.
Lemma term_kept i : kept (term i).
Proof. unfold term, log_at. keeps_tac. Qed.
Hint Resolve lastIndex_kept log_at_kept persist_kept log_line_kept term_kept : keeps.
Lemma matchTerm_kept i t : kept (matchTerm i t).
Proof. unfold matchTerm. keeps_tac. Qed.
Lemma commitTo_kept c : kept (commitTo c).
Proof. unfold commitTo. keeps_tac. Qed.
Hint Resolve matchTerm_kept commitTo_kept : keeps.
Lemma findConflict_kept ents : kept (findConflict ents).
Proof. induction ents; simpl; keeps_tac. Qed.
Lemma conflict_scan_kept ct x : kept (conflict_scan ct x).
Proof. induction x; simpl; keeps_tac. Qed.
Lemma conflict_find_kept ct x : kept (conflict_find ct x).
Proof. induction x; cbn [conflict_find]; keeps_tac. Qed.
Lemma appendLog_kept ents : kept (appendLog ents).
Proof. unfold appendLog. keeps_tac. Qed.
Lemma reset_kept t : kept (reset t).
Proof. unfold reset, resetRandomizedElectionTimeout, Intn. keeps_tac. Qed.
Hint Resolve findConflict_kept conflict_scan_kept conflict_find_kept appendLog_kept
  reset_kept : keeps.
Lemma becomeFollower_kept t l : kept (becomeFollower t l).
Proof. unfold becomeFollower. keeps_tac. Qed.
Lemma becomeLeader_kept : kept becomeLeader.
Proof. unfold becomeLeader, set_nextIndex_at. keeps_tac. Qed.
Lemma bcastAppend_kept : kept bcastAppend.
Proof. unfold bcastAppend, spawn_send. keeps_tac. Qed.
Lemma updateCommitIndex_kept : kept updateCommitIndex.
Proof. unfold updateCommitIndex. keeps_tac. Qed.
Hint Resolve becomeFollower_kept becomeLeader_kept bcastAppend_kept
  updateCommitIndex_kept : keeps.

Lemma handleAppendEntries_kept m : kept (handleAppendEntries m).
Proof.
  unfold handleAppendEntries, handleAppendEntries_body, as_AppArgs, as_AppReply, checkLog.
  keeps_tac.
Qed.
Hint Resolve handleAppendEntries_kept : keeps.

Lemma Step_kept m : kept (Step m).
Proof.
  unfold Step, refuse_stale, run_step, stepFollower, stepCandidate, stepLeader, poll,
    reqMoreUpToDate, set_nextIndex_at, set_matchIndex_at, as_AppArgs, as_AppReply,
    as_VoteArgs, as_VoteReply.
  keeps_tac.
Qed.
Hint Resolve Step_kept : keeps.

Lemma serve_kept m : kept (serve m).
Proof. unfold serve, RequestVote, AppendEnties, as_AppReply, as_VoteReply. keeps_tac. Qed.

Lemma run_tick_kept : kept run_tick.
Proof.
  unfold run_tick, tickElection, tickHeartbeat, campaign, becomeCandidate, poll,
    bcastRequestVoteRPC, lastTerm, spawn_send.
  keeps_tac.
Qed.

Lemma Start_kept cmd : kept (Start cmd).
Proof.
  unfold Start, handleCommand, handleStart, handleState, set_nextIndex_at, set_matchIndex_at.
  keeps_tac.
Qed.

Lemma kept_identity {A} (f : M (Raft C) A) : keeps fixed_part f → keeps identity f.
Proof. intros Hk r a r' H. apply Hk in H. unfold fixed_part in H. congruence. Qed.

Local Abbreviation same_peer := (keeps (identity (C := C))).

Lemma Tick_identity : same_peer Tick.
Proof. unfold Tick. keeps_tac. Qed.
Lemma serveChannels_take_identity k : same_peer (serveChannels_take k).
Proof. unfold serveChannels_take. keeps_tac. Qed.
Lemma apply_entries_identity i k : same_peer (apply_entries i k).
Proof. revert i. induction k; intros i; simpl; unfold log_at; keeps_tac. Qed.
Hint Resolve apply_entries_identity : keeps.
Lemma stateMachine_recv_identity : same_peer stateMachine_recv.
Proof. unfold stateMachine_recv, lastIndex, log_at. keeps_tac. Qed.

Lemma Make_identity ps i (p : Persister C) rs r :
  Make ps i p rs = Ok r → identity r = (ps, i, false, snapshot p).
Proof.
  assert (same_peer (becomeFollower 1 NoneId ;; readPersist (ReadRaftState p))) as Hk.
  { apply keeps_bind; [apply kept_identity, becomeFollower_kept|]. intros _. unfold readPersist.
    apply keeps_modify. intros r'. by repeat case_match. }
  unfold Make. destruct ((_ ;; _) (new_Raft ps i p rs)) as [[[] r']|] eqn:E; [|done].
  intros [= <-]. by rewrite (Hk _ _ _ E).
Qed.
End fixed.
