(* ===== verification/RaftSim.v ===== *)
(** * The peers refine the abstract protocol

    [NodeInv s i r] relates peer [i] of a cluster to the abstract state [s] of
    RaftProto.v, [packet_ok s p] says that a packet in flight tells the truth
    about [s].  Each handler of RaftNode.v is simulated by actions of its own
    server ([..._sim]), which keep what is known of the other servers and of
    the packets ([NodeInv_other], [packet_ok_mono]). *)
From S2P Require Import Prelude GoRt RaftTypes RaftNode RaftProto RaftNet RaftSpec.
Open Scope Z_scope.

Section sim.
Context {C : Type} (n : Z).
Local Abbreviation Log := (RaftTypes.Log C).
Local Abbreviation Raft := (RaftTypes.Raft C).
Local Abbreviation Message := (RaftTypes.Message C).
Local Abbreviation AState := (@RaftProto.AState C).
Implicit Types (s : AState) (r : Raft) (m : Message) (l L : list Log) (i j T c : Z).

(** ** The relation *)

Definition vote_ok s i T (v : Z) : Prop :=
  match a_vote s !! (i, T) with
  | None => v = NoneId
  | Some (w, _) => v = w ∧ 0 ≤ w
  end.

(** The first [S x] entries of [l] are below an entry committed in a term up to [T]. *)
Definition backed s T l (x : nat) : Prop :=
  ∃ T0 y i0 L0, T0 ≤ T ∧ (x ≤ y)%nat ∧ committed n s T0 y ∧
    a_lead s !! T0 = Some (i0, L0) ∧ take (S x) l = take (S x) L0.

Definition commit_ok s T l c : Prop :=
  0 ≤ c < go_len l ∧ (c = 0 ∨ backed s T l (Z.to_nat c)).

Definition vote_args_ok s (a : RequestVoteArgs) : Prop :=
  ∃ cl e, a_cand s !! (a.(RVA_CandidateId), a.(RVA_Term)) = Some cl ∧ last cl = Some e ∧
    a.(RVA_LastLogIndex) = e.(Log_Index) ∧ a.(RVA_LastLogTerm) = e.(Log_Term).

Definition app_args_ok s (a : AppendEntiesArgs C) : Prop :=
  ∃ LL L p e, a_lead s !! a.(AEA_Term) = Some (a.(AEA_LeaderId), LL) ∧ L `prefix_of` LL ∧
    L !! p = Some e ∧ a.(AEA_PrevLogIndex) = Z.of_nat p ∧ a.(AEA_PrevLogTerm) = e.(Log_Term) ∧
    a.(AEA_Entries) = drop (S p) L ∧ commit_ok s a.(AEA_Term) L a.(AEA_LeaderCommit).

Definition request_ok s m : Prop :=
  0 ≤ m.(Msg_From) < n ∧ 0 ≤ m.(Msg_To) < n ∧
  match m.(Msg_args) with
  | VoteArgs a => m.(Msg_From) = a.(RVA_CandidateId) ∧ vote_args_ok s a
  | AppArgs a => m.(Msg_From) = a.(AEA_LeaderId) ∧ app_args_ok s a
  | NoArgs => False
  end.

(** A reply of term 0 is one the receiver left empty; its sender ignores it. *)
Definition app_reply_ok s j (a : AppendEntiesArgs C) (p : AppendEntiesReply) : Prop :=
  p.(AER_Term) < 1 ∨
  1 ≤ p.(AER_NextIndex) ∧ a.(AEA_Term) ≤ p.(AER_Term) ∧
  if p.(AER_Success)
  then a.(AEA_Term) = p.(AER_Term) ∧ acked s j p.(AER_Term) (Z.to_nat (p.(AER_NextIndex) - 1))
  else p.(AER_ConflictIndex) ≤ 0 ∧
       ∃ l c, wf_log l ∧ commit_ok s p.(AER_Term) l c ∧ p.(AER_NextIndex) ≤ c + 1.

Definition response_ok s m : Prop :=
  0 ≤ m.(Msg_From) < n ∧ 0 ≤ m.(Msg_To) < n ∧
  match m.(Msg_reply) with
  | VoteReply v =>
      m.(Msg_Type) = MsgVoteResp ∧ m.(Msg_Term) = v.(RVR_Term) ∧
      (v.(RVR_VoteGranted) = true →
       ∃ vl, a_vote s !! (m.(Msg_From), v.(RVR_Term)) = Some (m.(Msg_To), vl))
  | AppReply p =>
      m.(Msg_Type) = MsgAppResp ∧ m.(Msg_Term) = p.(AER_Term) ∧
      ∃ a, m.(Msg_args) = AppArgs a ∧ a.(AEA_LeaderId) = m.(Msg_To) ∧
        app_args_ok s a ∧ app_reply_ok s m.(Msg_From) a p
  | NoReply => False
  end.

Definition packet_ok s (p : packet C) : Prop :=
  match p with Request m => request_ok s m | Response m => response_ok s m end.

Definition role_ok s i r : Prop :=
  match r.(state) with
  | StateFollower => tick r = Some tickElectionF ∧ step r = Some stepFollowerF
  | StateCandidate =>
      tick r = Some tickElectionF ∧ step r = Some stepCandidateF ∧
      a_cand s !! (i, currentTerm r) = Some (log r) ∧
      (∀ L, a_lead s !! currentTerm r ≠ Some (i, L)) ∧
      ∀ j, votes r !! j = Some true →
        0 ≤ j < n ∧ ∃ vl, a_vote s !! (j, currentTerm r) = Some (i, vl)
  | StateLeader =>
      tick r = Some tickHeartbeatF ∧ step r = Some stepLeaderF ∧
      a_lead s !! currentTerm r = Some (i, log r) ∧
      go_len (nextIndex r) = n ∧ go_len (matchIndex r) = n ∧
      Forall (λ x, 1 ≤ x ≤ go_len (log r)) (nextIndex r) ∧
      ∀ (j : nat) x, matchIndex r !! j = Some x →
        x = 0 ∨ 0 < x ∧ acked s (Z.of_nat j) (currentTerm r) (Z.to_nat x)
  end.

Record NodeInv s i r : Prop := mkNodeInv {
  ni_me : me r = i;
  ni_peers : go_len (peers r) = n;
  ni_timeout : electionTimeout r = 10;
  ni_term : a_term s i = currentTerm r;
  ni_log : a_log s i = log r;
  ni_vote : vote_ok s i (currentTerm r) (votedFor r);
  ni_role : role_ok s i r;
  ni_commit : commit_ok s (currentTerm r) (log r) (commitIndex r);
  ni_applied : 0 ≤ lastApplied r ≤ commitIndex r;
  ni_commitc : Forall (λ c, c ≤ commitIndex r) (commitc r);
  ni_propc : Forall (request_ok s) (propc r);
}.

(** What [Make] reads after a crash is what the peer has in memory. *)
Definition persist_ok r : Prop :=
  raftstate (persister r) = persist_data r ∨
  raftstate (persister r) = [] ∧ currentTerm r = 1 ∧ log r = [init_entry] ∧ votedFor r = NoneId.

(** ** The relation along the actions of one server *)

Section mono.
Context (i : Z) s s' (Hle : a_le i s s').

Lemma backed_mono T T' l x : T ≤ T' → backed s T l x → backed s' T' l x.
Proof.
  intros HT (T0 & y & i0 & L0 & HT0 & Hxy & Hc & HL & Ht).
  destruct (le_lead _ _ _ Hle _ _ _ HL) as (suf & HL' & _).
  exists T0, y, i0, (L0 ++ suf). split_and!; [lia|done|by eapply committed_mono|done|].
  rewrite Ht. apply take_eq_app.
  destruct Hc as (? & ? & ? & HL0 & (e & He%lookup_lt_Some & _) & _). simplify_eq. lia.
Qed.

Lemma commit_ok_mono T T' l c : T ≤ T' → commit_ok s T l c → commit_ok s' T' l c.
Proof. intros ? [? [?|?]]; split; [done|by left|done|right]. by eapply backed_mono. Qed.

Lemma vote_args_ok_mono a : vote_args_ok s a → vote_args_ok s' a.
Proof.
  intros (cl & e & Hc & ?). exists cl, e. split; [|done]. by apply (le_cand _ _ _ Hle).
Qed.

Lemma app_args_ok_mono a : app_args_ok s a → app_args_ok s' a.
Proof.
  intros (LL & L & p & e & HL & Hpre & Hp & Hi & Ht & He & Hc).
  destruct (le_lead _ _ _ Hle _ _ _ HL) as (suf & HL' & _).
  exists (LL ++ suf), L, p, e. split_and!; auto.
  - by apply prefix_app_r.
  - by eapply commit_ok_mono.
Qed.

Lemma request_ok_mono m : request_ok s m → request_ok s' m.
Proof.
  intros (? & ? & Hm). split_and!; [lia..|]. destruct (Msg_args m); [done|..];
    destruct Hm; split; auto using vote_args_ok_mono, app_args_ok_mono.
Qed.

Lemma app_reply_ok_mono j a p : app_reply_ok s j a p → app_reply_ok s' j a p.
Proof.
  intros [?|(? & ? & Hp)]; [by left|right]. split_and!; [done..|].
  destruct (AER_Success p).
  - destruct Hp. split; [done|]. by eapply acked_mono.
  - destruct Hp as (? & l & c & ? & Hc & ?). split; [done|]. exists l, c.
    split; [done|]. split; [|done]. eapply commit_ok_mono; [|exact Hc]. lia.
Qed.

Lemma response_ok_mono m : response_ok s m → response_ok s' m.
Proof.
  intros (? & ? & Hm). split_and!; [lia..|]. destruct (Msg_reply m) as [|v|p]; [done|..].
  - destruct Hm as (? & ? & Hv). split_and!; auto. intros [vl ?]%Hv. exists vl.
    by apply (le_vote _ _ _ Hle).
  - destruct Hm as (? & ? & a & ? & ? & ? & ?). split_and!; auto. exists a.
    auto using app_args_ok_mono, app_reply_ok_mono.
Qed.

Lemma packet_ok_mono p : packet_ok s p → packet_ok s' p.
Proof. destruct p; [apply request_ok_mono|apply response_ok_mono]. Qed.

(** The actions of server [i] keep the relation for every other server. *)
Lemma role_ok_other j r : j ≠ i → role_ok s j r → role_ok s' j r.
Proof.
  intros Hj. unfold role_ok. destruct (state r); [done|..].
  - intros (? & ? & Hc & Hnl & Hv). split_and!; auto.
    + by apply (le_cand _ _ _ Hle).
    + intros L HL%(le_other_lead _ _ _ Hle); [by eapply Hnl|done].
    + intros k [? [vl ?]]%Hv. split; [done|]. exists vl. by apply (le_vote _ _ _ Hle).
  - intros (? & ? & HL & ? & ? & ? & Hm). split_and!; auto.
    + destruct (le_lead _ _ _ Hle _ _ _ HL) as (suf & HL' & _).
      pose proof (le_other_lead _ _ _ Hle _ _ _ Hj HL'). congruence.
    + intros k x [?|[? ?]]%Hm; [by left|right]. split; [done|]. by eapply acked_mono.
Qed.

Lemma NodeInv_other j r : j ≠ i → NodeInv s j r → NodeInv s' j r.
Proof.
  intros Hj []. split; auto.
  - by rewrite (le_other_term _ _ _ Hle).
  - by rewrite (le_other_log _ _ _ Hle).
  - unfold vote_ok. by rewrite (le_other_vote _ _ _ Hle).
  - by apply role_ok_other.
  - by eapply commit_ok_mono.
  - eapply Forall_impl; [done|]. apply request_ok_mono.
Qed.

End mono.

(** ** Role changes *)

Context (Hn : 2 ≤ n).
Local Abbreviation AInv := (RaftProto.AInv n).
Local Abbreviation astep := (RaftProto.astep n).

(** The log of the leader of [T] holds what is committed up to [T]. *)
Lemma commit_leader s T l c i LL :
  AInv s → wf_log l → commit_ok s T l c → a_lead s !! T = Some (i, LL) →
  take (S (Z.to_nat c)) l = take (S (Z.to_nat c)) LL ∧ c < go_len LL.
Proof.
  intros I Hw [Hc Hb] HL. pose proof (gl_wf _ _ _ (ai_lead _ _ I _ _ _ HL)) as [H0 _].
  destruct Hw as [Hl0 _]. destruct Hb as [->|(T0 & y & i0 & L0 & HT0 & Hxy & Hcom & HL0 & Ht)].
  - pose proof (lookup_lt_Some _ _ _ H0). unfold go_len. split; [|lia].
    apply take_eq_lookup. intros x ?. replace x with 0%nat by lia. by rewrite H0, Hl0.
  - pose proof (leader_completeness n s T0 y i0 L0 ltac:(lia) I Hcom HL0 _ _ _ HT0 HL) as Hlc.
    assert (take (S (Z.to_nat c)) LL = take (S (Z.to_nat c)) L0) as Heq
      by (eapply take_eq_le; [exact Hlc|lia]).
    split; [by rewrite Ht, Heq|]. unfold go_len in *.
    enough (S (Z.to_nat c) ≤ length LL)%nat by lia.
    eapply (take_eq_length_le _ l LL); [by rewrite Ht, Heq|lia].
Qed.

Lemma NodeInv_wf s i r : AInv s → NodeInv s i r → wf_log (log r).
Proof. intros I N. rewrite <- (ni_log _ _ _ N). apply (ai_log _ _ I). Qed.

Lemma NodeInv_nonempty s i r : AInv s → NodeInv s i r → log r ≠ [].
Proof.
  intros I N Hl. pose proof (wf_log_length _ (NodeInv_wf _ _ _ I N)) as Hlen.
  rewrite Hl in Hlen. simpl in Hlen. lia.
Qed.

(** A change of term, vote and role, the rest of the peer being the same. *)
Lemma NodeInv_role s s' i r r' :
  a_le i s s' → NodeInv s i r → frame r r' → currentTerm r ≤ currentTerm r' →
  a_term s' i = currentTerm r' → a_log s' i = log r →
  vote_ok s' i (currentTerm r') (votedFor r') → role_ok s' i r' → NodeInv s' i r'.
Proof.
  intros Hle N F HT Hterm Hlog Hv Hr. split; auto.
  - rewrite (fr_me _ _ F). apply N.
  - rewrite (fr_peers _ _ F). apply N.
  - rewrite (fr_electionTimeout _ _ F). apply N.
  - by rewrite (fr_log _ _ F).
  - rewrite (fr_log _ _ F), (fr_commitIndex _ _ F). eapply commit_ok_mono; [done..|apply N].
  - rewrite (fr_lastApplied _ _ F), (fr_commitIndex _ _ F). apply N.
  - rewrite (fr_commitc _ _ F), (fr_commitIndex _ _ F). apply N.
  - rewrite (fr_propc _ _ F). eapply Forall_impl; [apply N|].
    intros ?. by eapply request_ok_mono.
Qed.

Lemma vote_ok_new s i T : AInv s → a_term s i < T → vote_ok s i T NoneId.
Proof.
  intros I HT. unfold vote_ok. destruct (a_vote s !! (i, T)) as [v|] eqn:Hv; [|done].
  apply (ai_vote_term _ _ I) in Hv. lia.
Qed.

Lemma becomeFollower_sim E s i r term ld :
  AInv s → NodeInv s i r → currentTerm r ≤ term →
  wp E (becomeFollower term ld) (λ _ r', ∃ s', rtc (astep i) s s' ∧ NodeInv s' i r' ∧
    frame r r' ∧ currentTerm r' = term ∧ state r' = StateFollower) r.
Proof.
  intros I N HT. apply becomeFollower_wp; [apply N|by eapply NodeInv_nonempty|].
  intros r' F Hst Htk Hsp Hct Hvf. unfold vote_in in Hvf.
  assert (∀ s', role_ok s' i r') as Hrole by (intros s'; unfold role_ok; by rewrite Hst).
  destruct (currentTerm r =? term) eqn:Heq; boolify.
  - exists s. split; [apply rtc_refl|]. split_and!; auto.
    eapply (NodeInv_role s); eauto using a_le_refl; try (rewrite Hct; try lia).
    + rewrite (ni_term _ _ _ N). lia.
    + apply N.
    + rewrite Hvf, <- Heq. apply N.
  - assert (astep i s (mkAState (<[i := term]> (a_term s)) (a_log s) (a_vote s) (a_cand s)
      (a_lead s) (a_elec s) (a_ack s))) as Hs
      by (constructor; rewrite (ni_term _ _ _ N); lia).
    eexists. split; [by apply rtc_once|]. split_and!; auto.
    eapply (NodeInv_role s); eauto using astep_le; simpl; try (rewrite Hct; try lia).
    + by rewrite fn_lookup_insert.
    + apply N.
    + rewrite Hvf. apply (vote_ok_new s); [done|]. rewrite (ni_term _ _ _ N). lia.
Qed.

(** A record update of fields outside the relation. *)
Ltac same_node N := destruct N; split; simpl; auto.

Lemma persist_ok_persisted r q : persist_ok (set_propc q (persisted r)).
Proof. by left. Qed.

Lemma quorum_gt_1 r : go_len (peers r) = n → quorum r ≠ 1.
Proof.
  intros Hp. unfold quorum. rewrite Hp.
  pose proof (Z.quot_le_mono 2 n 2 ltac:(lia) Hn) as Hq. change (2 `quot` 2) with 1 in Hq. lia.
Qed.

(** Standing for election, the vote for oneself included. *)
Lemma candidate_step s i r r' :
  AInv s → NodeInv s i r → 0 ≤ i < n → frame r r' →
  state r' = StateCandidate → tick r' = Some tickElectionF → step r' = Some stepCandidateF →
  currentTerm r' = currentTerm r + 1 → votedFor r' = i → votes r' = {[i := true]} →
  ∃ s', astep i s s' ∧ NodeInv s' i r'.
Proof.
  intros I N Hi F Hst Htk Hsp Hct Hvf Hvs.
  eexists. split; [by apply (A_cand n s i (a_term s i + 1))|].
  eapply (NodeInv_role s); [eapply astep_le; [done|by apply A_cand]|done|done|lia|..]; simpl.
  - rewrite fn_lookup_insert, (ni_term _ _ _ N). lia.
  - apply N.
  - unfold vote_ok. simpl. rewrite (ni_term _ _ _ N), Hct, lookup_insert_eq. split; [done|lia].
  - unfold role_ok. rewrite Hst, Hvs, Hct. simpl. rewrite (ni_term _ _ _ N). split_and!; auto.
    + rewrite lookup_insert_eq, (ni_log _ _ _ N). by rewrite (fr_log _ _ F).
    + intros L HL%(ai_lead_term _ _ I). rewrite (ni_term _ _ _ N) in HL. lia.
    + intros j Hj. apply lookup_singleton_Some in Hj as [<- _]. split; [done|].
      eexists. by rewrite lookup_insert_eq.
Qed.

Lemma vote_requests_ok s i r e ms :
  AInv s → NodeInv s i r → 0 ≤ i < n → state r = StateCandidate → last (log r) = Some e →
  Forall (λ m, ∃ j, 0 ≤ j < go_len (peers r) ∧ j ≠ me r ∧ m = vote_request r e j) ms →
  Forall (request_ok s) ms.
Proof.
  intros I N Hi Hst He Hms. eapply Forall_impl; [done|]. intros m (j & Hj & _ & ->).
  rewrite (ni_peers _ _ _ N) in Hj. pose proof (ni_role _ _ _ N) as Hr.
  unfold role_ok in Hr. rewrite Hst in Hr. destruct Hr as (_ & _ & Hc & _).
  unfold request_ok. simpl. rewrite (ni_me _ _ _ N). split_and!; [lia..|done|].
  exists (log r), e. simpl. split_and!; [done..| |done].
  destruct (wf_log_last _ (NodeInv_wf _ _ _ I N)) as (e' & He' & Hi'). by simplify_eq.
Qed.

Lemma NodeInv_broadcast s i r ms :
  NodeInv s i r → Forall (request_ok s) ms → NodeInv s i (set_propc (propc r ++ ms) (persisted r)).
Proof. intros N Hms. same_node N. by apply Forall_app. Qed.

Lemma campaign_sim E s i r :
  AInv s → NodeInv s i r → 0 ≤ i < n → state r ≠ StateLeader → currentTerm r < max_int →
  wp E campaign (λ _ r', ∃ s', rtc (astep i) s s' ∧ NodeInv s' i r' ∧ persist_ok r') r.
Proof.
  intros I N Hi Hst Hb. unfold campaign. wp_step.
  pose proof (ai_term_pos _ _ I i) as Hpos. rewrite (ni_term _ _ _ N) in Hpos.
  apply becomeCandidate_wp; [apply N|by eapply NodeInv_nonempty|done|unfold max_int in *; lia|].
  intros r1 F Hst1 Htk Hsp Hct Hvf Hvs. wp_steps. apply poll_wp. rewrite Hvs, lookup_empty. simpl.
  rewrite (fr_me _ _ F), (ni_me _ _ _ N) in *.
  assert (granted_votes (<[i := true]> ∅) = 1) as ->.
  { unfold granted_votes. by rewrite insert_empty, map_filter_singleton_True, map_size_singleton. }
  assert (quorum r1 ≠ 1) as Hq
    by (apply quorum_gt_1; rewrite (fr_peers _ _ F); apply N).
  destruct (_ =? _) eqn:Heq; boolify; [done|].
  destruct (candidate_step s i r (set_votes (<[i := true]> ∅) r1)) as (s1 & Hs & N1); auto.
  { destruct F. by split. }
  assert (AInv s1) as I1 by (by eapply AInv_step).
  destruct (wf_log_last _ (NodeInv_wf _ _ _ I1 N1)) as (e & He & _).
  apply (bcastRequestVoteRPC_wp _ _ e); [by eapply NodeInv_wf|done|].
  intros ms Hms. exists s1. split_and!; [by apply rtc_once| |apply persist_ok_persisted].
  apply NodeInv_broadcast; [done|]. by eapply vote_requests_ok.
Qed.

(** ** Timers and client commands *)

Lemma app_requests_ok s i r ms :
  NodeInv s i r → 0 ≤ i < n → state r = StateLeader →
  Forall (λ m, ∃ j p e, 0 ≤ j < go_len (peers r) ∧ j ≠ me r ∧ log r !! p = Some e ∧
            m = app_request r p e j) ms →
  Forall (request_ok s) ms.
Proof.
  intros N Hi Hst Hms. eapply Forall_impl; [done|]. intros m (j & p & e & Hj & _ & Hp & ->).
  rewrite (ni_peers _ _ _ N) in Hj. pose proof (ni_role _ _ _ N) as Hr.
  unfold role_ok in Hr. rewrite Hst in Hr. destruct Hr as (_ & _ & HL & _).
  unfold request_ok. simpl. rewrite (ni_me _ _ _ N). split_and!; [lia..|done|].
  exists (log r), (log r), p, e. simpl. do 6 (split; [done|]). apply N.
Qed.

Lemma bcastAppend_sim E s i r :
  AInv s → NodeInv s i r → 0 ≤ i < n → state r = StateLeader →
  wp E bcastAppend (λ _ r', NodeInv s i r' ∧ persist_ok r') r.
Proof.
  intros I N Hi Hst. pose proof (ni_role _ _ _ N) as Hr.
  unfold role_ok in Hr. rewrite Hst in Hr. destruct Hr as (_ & _ & _ & Hlen & _ & Hni & _).
  apply bcastAppend_wp; [by eapply NodeInv_wf| |done|].
  { pose proof (ni_peers _ _ _ N). unfold go_len in *. lia. }
  intros ms Hms. split; [|apply persist_ok_persisted].
  apply NodeInv_broadcast; [done|]. by eapply app_requests_ok.
Qed.

Lemma run_tick_sim s i r :
  AInv s → NodeInv s i r → 0 ≤ i < n → currentTerm r < max_int → persist_ok r →
  wp (λ _, False) run_tick
    (λ _ r', ∃ s', rtc (astep i) s s' ∧ NodeInv s' i r' ∧ persist_ok r') r.
Proof.
  intros I N Hi Hb Hp. unfold run_tick. wp_steps. simpl.
  pose proof (ni_role _ _ _ N) as Hr. unfold role_ok in Hr.
  assert (∀ r', NodeInv s i r' → persist_ok r' →
    ∃ s', rtc (astep i) s s' ∧ NodeInv s' i r' ∧ persist_ok r') as Hstay
    by eauto using rtc_refl.
  destruct (state r) eqn:Hst; [destruct Hr as [-> _]|destruct Hr as (-> & _)|destruct Hr as (-> & _)].
  1,2: unfold tickElection; wp_steps;
    destruct (pastElectionTimeout _); wp_steps; [|apply Hstay; [by same_node N|done]];
    apply campaign_sim; auto; [by same_node N|simpl; congruence].
  unfold tickHeartbeat. wp_steps. destruct (_ >=? _); wp_steps; [|apply Hstay; [by same_node N|done]].
  eapply wp_mono; [apply (bcastAppend_sim _ s i); auto; by same_node N|].
  intros _ r' [? ?]. auto.
Qed.

(** A leader appends an entry and acknowledges it itself. *)
Lemma append_actions s i e :
  a_lead s !! a_term s i = Some (i, a_log s i) → e.(Log_Term) = a_term s i →
  e.(Log_Index) = go_len (a_log s i) →
  ∃ s', rtc (astep i) s s' ∧ a_term s' = a_term s ∧ a_vote s' = a_vote s ∧
    a_log s' i = a_log s i ++ [e] ∧ a_lead s' !! a_term s i = Some (i, a_log s i ++ [e]) ∧
    acked s' i (a_term s i) (length (a_log s i)).
Proof.
  intros HL Ht Hx. pose proof (A_append n s i e HL Ht Hx) as S1.
  match type of S1 with RaftProto.astep _ _ _ ?x => pose (s1 := x); change x with s1 in S1 end.
  assert (take (S (length (a_log s i))) (a_log s1 i) =
          take (S (length (a_log s i))) (a_log s i ++ [e])) as Htk
    by (unfold s1; simpl; by rewrite fn_lookup_insert).
  pose proof (λ H1 H2, A_ack n s1 i i (a_log s i ++ [e]) (length (a_log s i)) H1 H2 Htk) as S2.
  eexists. split; [eapply rtc_l; [exact S1|]; eapply rtc_once, S2|]; simpl.
  - apply lookup_insert_eq.
  - rewrite length_app. simpl. lia.
  - split_and!; [done..| | |].
    + apply fn_lookup_insert.
    + apply lookup_insert_eq.
    + eexists. split; [done|]. simpl. apply elem_of_union_l. by apply elem_of_singleton.
Qed.

Lemma commit_ok_take s T l l' c :
  commit_ok s T l c → c < go_len l' →
  take (S (Z.to_nat c)) l' = take (S (Z.to_nat c)) l → commit_ok s T l' c.
Proof.
  intros [Hc Hb] Hl Ht. split; [lia|].
  destruct Hb as [?|(T0 & y & i0 & L0 & ? & ? & ? & ? & Htk)]; [by left|right].
  exists T0, y, i0, L0. split_and!; auto. congruence.
Qed.

Lemma commit_ok_app s T l e c : commit_ok s T l c → commit_ok s T (l ++ [e]) c.
Proof.
  intros Hc. pose proof (proj1 Hc). unfold go_len in *. eapply commit_ok_take; [done|..].
  - unfold go_len. rewrite length_app. lia.
  - rewrite take_app_le; [done|lia].
Qed.

(** The leader's log grows by the command. *)
Lemma append_sim s i r e :
  AInv s → NodeInv s i r → 0 ≤ i < n → state r = StateLeader →
  e.(Log_Term) = currentTerm r → e.(Log_Index) = go_len (log r) →
  ∃ s', rtc (astep i) s s' ∧
    NodeInv s' i (set_matchIndex (<[Z.to_nat i := go_len (log r)]> (matchIndex r))
      (set_nextIndex (<[Z.to_nat i := go_len (log r) + 1]> (nextIndex r))
        (set_log (log r ++ [e]) r))).
Proof.
  intros I N Hi Hst Ht Hx. pose proof (ni_role _ _ _ N) as Hr.
  unfold role_ok in Hr. rewrite Hst in Hr.
  destruct Hr as (Htk & Hsp & HL & Hni & Hmi & Hnx & Hm).
  pose proof (ni_term _ _ _ N) as Hterm. pose proof (ni_log _ _ _ N) as Hlog.
  destruct (append_actions s i e) as (s' & Hrtc & Hte & Hvo & Hlo & Hle' & Hack);
    rewrite ?Hterm, ?Hlog in *; [done..|].
  pose proof (rtc_astep_le n i s s' I Hrtc) as Hle. exists s'. split; [done|].
  assert (go_len (log r ++ [e]) = go_len (log r) + 1) as Hlen
    by (unfold go_len; rewrite length_app; simpl; lia).
  assert (0 < go_len (log r)) as Hpos.
  { pose proof (wf_log_length _ (NodeInv_wf _ _ _ I N)). unfold go_len. lia. }
  split; simpl; try apply N; [by rewrite Hte|done|unfold vote_ok; rewrite Hvo; apply N|..].
  - unfold role_ok. simpl. rewrite Hst. unfold go_len. rewrite !length_insert. fold (go_len (log r)).
    split_and!; auto.
    + apply Forall_insert; [|unfold go_len in *; lia]. eapply Forall_impl; [exact Hnx|].
      unfold go_len in *. simpl. lia.
    + intros j x [(<- & <- & _)|[_ Hj]]%list_lookup_insert_Some.
      * right. split; [done|]. unfold go_len. by rewrite Z2Nat.id, Nat2Z.id by lia.
      * destruct (Hm _ _ Hj) as [?|[? ?]]; [by left|right]. split; [done|]. by eapply acked_mono.
  - apply commit_ok_app. eapply commit_ok_mono; [done..|apply N].
  - eapply Forall_impl; [apply N|]. intros ?. by eapply request_ok_mono.
Qed.

Lemma Start_sim s i r cmd :
  AInv s → NodeInv s i r → 0 ≤ i < n → persist_ok r →
  wp (λ _, False) (Start cmd)
    (λ _ r', ∃ s', rtc (astep i) s s' ∧ NodeInv s' i r' ∧ persist_ok r') r.
Proof.
  intros I N Hi Hp. unfold Start, handleCommand, handleStart. wp_steps.
  destruct (bool_decide (state r = StateLeader)) eqn:Hst; simpl.
  2: { wp_steps. exists s. auto using rtc_refl. }
  pose proof Hst as Hld. apply bool_decide_eq_true in Hld. wp_steps. rewrite Hst. simpl. wp_steps.
  pose proof (ni_role _ _ _ N) as Hr. unfold role_ok in Hr. rewrite Hld in Hr.
  destruct Hr as (_ & _ & _ & Hni & Hmi & _). rewrite (ni_me _ _ _ N).
  apply set_nextIndex_at_wp; simpl; [lia|]. wp_steps. apply set_matchIndex_at_wp; simpl; [lia|]. wp_steps.
  destruct (append_sim s i r (mkLog (currentTerm r) cmd (go_len (log r)))) as (s' & Hrtc & N'); auto.
  eapply wp_mono; [apply (bcastAppend_sim _ s' i); eauto using AInv_rtc|].
  intros _ r' [? ?]. wp_steps. eauto.
Qed.

(** ** AppendEntries *)

Lemma ack_sim s i r k LL x :
  AInv s → NodeInv s i r → a_lead s !! currentTerm r = Some (k, LL) → (x < length LL)%nat →
  take (S x) (log r) = take (S x) LL →
  ∃ s', rtc (astep i) s s' ∧ NodeInv s' i r ∧ acked s' i (currentTerm r) x.
Proof.
  intros I N HL Hx Ht. rewrite <- (ni_term _ _ _ N) in HL |- *. rewrite <- (ni_log _ _ _ N) in Ht.
  pose proof (A_ack n s i k LL x HL Hx Ht) as Hs. pose proof (astep_le _ _ _ _ I Hs) as Hle.
  eexists. split; [by apply rtc_once|]. split.
  - destruct N. split; auto; try done.
    + unfold role_ok in *. destruct (state r); [done..|].
      destruct ni_role0 as (? & ? & ? & ? & ? & ? & Hm). split_and!; auto.
      intros j y [?|[? ?]]%Hm; [by left|right]. split; [done|]. by eapply acked_mono.
    + by eapply commit_ok_mono.
    + eapply Forall_impl; [done|]. intros ?. by eapply request_ok_mono.
  - exists x. split; [done|]. simpl. apply elem_of_union_l. by apply elem_of_singleton.
Qed.

(** A follower's committed entries never conflict with the leader's. *)
Lemma conflict_above_commit s i r k LL L ci :
  AInv s → NodeInv s i r → a_lead s !! currentTerm r = Some (k, LL) → L `prefix_of` LL →
  (ci < length L)%nat → ¬ same_term_at ci (log r) L → commitIndex r < Z.of_nat ci.
Proof.
  intros I N HL Hpre Hci Hns. destruct (Z_lt_le_dec (commitIndex r) (Z.of_nat ci)); [done|].
  destruct (commit_leader s (currentTerm r) (log r) (commitIndex r) k LL) as [Ht Hlt];
    [done|by eapply NodeInv_wf|apply N|done|].
  destruct (lookup_lt_is_Some_2 L ci Hci) as [e He]. exfalso. apply Hns. exists e, e.
  split_and!; [|done..]. rewrite (take_eq_lookup_1 _ ci _ _ Ht) by lia.
  by eapply prefix_lookup_Some.
Qed.

(** The follower's log becomes the leader's at the first conflict. *)
Lemma accept_log s i r k LL L p ci :
  AInv s → NodeInv s i r → a_lead s !! currentTerm r = Some (k, LL) → L `prefix_of` LL →
  (p < ci)%nat → (ci < length L)%nat → (∀ x, (p ≤ x < ci)%nat → same_term_at x (log r) L) →
  take ci (log r) = take ci L ∧ (ci ≤ length (log r))%nat.
Proof.
  intros I N HL Hpre Hp Hci Hall.
  assert (same_term_at (ci - 1) (log r) L) as Hs by (apply Hall; lia).
  replace ci with (S (ci - 1)) by lia. split.
  - eapply (agree_at (a_lead s)); [|eapply good_log_prefix|done].
    + rewrite <- (ni_log _ _ _ N). apply (ai_log _ _ I).
    + by eapply (ai_lead _ _ I).
    + done.
    + lia.
  - destruct Hs as (a & _ & Ha%lookup_lt_Some & _). lia.
Qed.

Lemma accept_sim s i r k LL L p ci :
  AInv s → NodeInv s i r → state r = StateFollower →
  a_lead s !! currentTerm r = Some (k, LL) → L `prefix_of` LL →
  (p < ci)%nat → (ci < length L)%nat → (∀ x, (p ≤ x < ci)%nat → same_term_at x (log r) L) →
  ¬ same_term_at ci (log r) L →
  ∃ s', rtc (astep i) s s' ∧ a_lead s' = a_lead s ∧
    NodeInv s' i (set_log (take ci (log r) ++ drop ci L) r).
Proof.
  intros I N Hst HL Hpre Hp Hci Hall Hns.
  destruct (accept_log s i r k LL L p ci) as [Htk Hlen]; [done..|].
  pose proof (conflict_above_commit s i r k LL L ci I N HL Hpre Hci Hns) as Hc.
  pose proof (ni_term _ _ _ N) as Hterm. pose proof (ni_log _ _ _ N) as Hlog.
  assert (astep i s (mkAState (a_term s) (<[i := take ci (a_log s i) ++ drop ci L]> (a_log s))
    (a_vote s) (a_cand s) (a_lead s) (a_elec s) (a_ack s))) as Hs
    by (eapply (A_accept n s i k LL L p ci); rewrite ?Hterm, ?Hlog; done).
  pose proof (astep_le _ _ _ _ I Hs) as Hle. rewrite Hlog in *.
  eexists. split; [by apply rtc_once|]. split; [done|].
  split; simpl; try apply N.
  - by rewrite fn_lookup_insert.
  - unfold role_ok. pose proof (ni_role _ _ _ N) as Hr. unfold role_ok in Hr.
    simpl. by rewrite Hst in *.
  - eapply commit_ok_mono; [done..|]. eapply commit_ok_take; [apply N|..].
    + unfold go_len. rewrite Htk, take_drop. lia.
    + rewrite Htk, take_drop. symmetry. eapply take_eq_le; [exact Htk|lia].
Qed.

(** A follower learns a commit index from the leader's prefix [L] it holds. *)
Lemma follower_commit_sim s i r L lc :
  NodeInv s i r → take (length L) (log r) = L → commit_ok s (currentTerm r) L lc →
  commitIndex r < lc →
  NodeInv s i (set_commitc (commitc r ++ [lc]) (set_commitIndex lc r)).
Proof.
  intros N HL Hc Hlt.
  assert (commit_ok s (currentTerm r) (log r) lc) as Hc'.
  { pose proof (proj1 Hc). unfold go_len in *. eapply commit_ok_take; [done|..].
    - assert (length L ≤ length (log r))%nat by (rewrite <- HL, length_take; lia).
      unfold go_len. lia.
    - rewrite <- HL, take_take. f_equal. lia. }
  destruct N. split; simpl; auto; [lia|]. apply Forall_app. split; [|by apply Forall_singleton].
  eapply Forall_impl; [done|]. simpl. lia.
Qed.

(** When all entries agree, the follower holds the leader's prefix already. *)
Lemma no_conflict_holds s i r k LL L p e :
  AInv s → NodeInv s i r → a_lead s !! currentTerm r = Some (k, LL) → L `prefix_of` LL →
  L !! p = Some e → same_term_at p (log r) L →
  (∀ x, (S p ≤ x < length L)%nat → same_term_at x (log r) L) → take (length L) (log r) = L.
Proof.
  intros I N HL Hpre Hp Hsp Hall. pose proof (lookup_lt_Some _ _ _ Hp).
  replace (length L) with (S (length L - 1)) by lia.
  transitivity (take (S (length L - 1)) L); [|rewrite take_ge by lia; done].
  eapply (agree_at (a_lead s)); [|eapply good_log_prefix|].
  - rewrite <- (ni_log _ _ _ N). apply (ai_log _ _ I).
  - by eapply (ai_lead _ _ I).
  - done.
  - lia.
  - destruct (decide (p = length L - 1)%nat) as [<-|]; [done|]. apply Hall. lia.
Qed.

Lemma take_drop_same {A} (ci : nat) (l1 l2 : list A) :
  take ci l1 = take ci l2 → take ci l1 ++ drop ci l2 = l2.
Proof. intros ->. apply take_drop. Qed.

(** [findConflict] and [appendLog] as [handleAppendEntries] combines them. *)
Lemma append_conflict_wp E s i r k LL L p e K :
  AInv s → NodeInv s i r → state r = StateFollower →
  a_lead s !! currentTerm r = Some (k, LL) → L `prefix_of` LL → L !! p = Some e →
  same_term_at p (log r) L →
  (∀ s1 l1, rtc (astep i) s s1 → a_lead s1 = a_lead s → NodeInv s1 i (set_log l1 r) →
     take (length L) l1 = L → K tt (set_log l1 r)) →
  wp E (ci <- findConflict (drop (S p) L) ;;
        if ci =? 0 then ret tt
        else if ci <=? commitIndex r then panic "ci <= r.commitIndex"
        else
          es <- must slice_panic (go_slice (drop (S p) L) (ci - (Z.of_nat p + 1))
                                    (go_len (drop (S p) L))) ;;
          appendLog es ;; ret tt) K r.
Proof.
  intros I N Hst HL Hpre Hp Hsp HK. pose proof (NodeInv_wf _ _ _ I N) as Hw.
  pose proof (lookup_lt_Some _ _ _ Hp) as Hpl.
  assert (wf_log L) as HwL.
  { eapply gl_wf, good_log_prefix; [by eapply (ai_lead _ _ I)|done|lia]. }
  apply wp_bind, findConflict_wp; [done..|lia| |].
  - intros Hall. simpl. wp_steps. replace r with (set_log (log r) r) by by destruct r.
    apply (HK s); [apply rtc_refl|done|by destruct r|]. by eapply no_conflict_holds.
  - intros ci Hci Hall Hns.
    assert (∀ x, (p ≤ x < ci)%nat → same_term_at x (log r) L) as Hall'.
    { intros x ?. destruct (decide (x = p)) as [->|]; [done|]. apply Hall. lia. }
    pose proof (conflict_above_commit s i r k LL L ci I N HL Hpre ltac:(lia) Hns) as Hc.
    destruct (accept_log s i r k LL L p ci) as [Htk Hlen]; [done..|lia|lia|done|].
    destruct (accept_sim s i r k LL L p ci) as (s1 & Hrtc & Hl1 & N1); [done..|lia|lia|done|done|].
    rewrite (take_drop_same _ _ _ Htk) in N1.
    destruct (_ =? _) eqn:?; boolify; [lia|]. destruct (_ <=? _) eqn:?; boolify; [lia|].
    wp_steps. eapply wp_must.
    { apply go_slice_tail. unfold go_len. rewrite length_drop. lia. }
    rewrite drop_drop. replace (S p + _)%nat with ci by lia.
    destruct (lookup_lt_is_Some_2 L ci ltac:(lia)) as [e0 He0]. rewrite (drop_S _ _ _ He0).
    pose proof (proj2 HwL _ _ He0) as Hi0. wp_steps.
    apply appendLog_wp; [done|unfold go_len; lia|lia|]. rewrite Hi0, Nat2Z.id, <- (drop_S _ _ _ He0).
    rewrite (take_drop_same _ _ _ Htk). split; [done|]. wp_steps.
    apply (HK s1); auto. by rewrite take_ge.
Qed.

Lemma conflict_scan_wp E r ct (x : nat) Q :
  (x ≤ length (log r))%nat → (∀ v, Q v r) → wp E (conflict_scan ct x) Q r.
Proof.
  intros Hx HQ. induction x as [|x IH]; simpl; [by wp_steps|]. wp_steps.
  destruct (lookup_lt_is_Some_2 (log r) x ltac:(lia)) as [e He].
  apply (log_at_wp _ _ _ e); [lia|by rewrite Nat2Z.id|].
  destruct (negb _); [by wp_steps|]. apply IH. lia.
Qed.

(** What the handler of a request of the current term gives back. *)
Definition app_post s i (a : AppendEntiesArgs C) (p : AppendEntiesReply) r' : Prop :=
  ∃ s', rtc (astep i) s s' ∧ NodeInv s' i r' ∧ app_reply_ok s' i a p ∧
    p.(AER_NextIndex) ≤ go_len (log r').

Lemma commitTo_leader_wp E s i r L lc Q :
  AInv s → NodeInv s i r → take (length L) (log r) = L → commit_ok s (currentTerm r) L lc →
  (∀ r', NodeInv s i r' → log r' = log r → currentTerm r' = currentTerm r → Q tt r') →
  wp E (if lc >? commitIndex r then
          li <- lastIndex ;;
          if lc >? li then panic "args.LeaderCommit > rf.lastIndex()" else commitTo lc
        else ret tt) Q r.
Proof.
  intros I N HL Hc HQ. pose proof (NodeInv_wf _ _ _ I N) as Hw.
  assert (lc < go_len (log r)) as Hlc.
  { destruct Hc as [[_ Hc] _]. unfold go_len in *.
    assert (length L ≤ length (log r))%nat by (rewrite <- HL, length_take; lia). lia. }
  rewrite !Z.gtb_ltb. destruct (_ <? lc) eqn:Hlt; boolify; [|wp_steps; auto].
  wp_steps. apply lastIndex_wp; [done|]. rewrite Z.gtb_ltb, (proj2 (Z.ltb_ge _ _)) by lia.
  apply commitTo_wp; auto. intros _. apply HQ; [|done..]. by eapply follower_commit_sim.
Qed.

Lemma app_stale_prev_sim s i r a k LL :
  AInv s → NodeInv s i r → a.(AEA_Term) = currentTerm r →
  a_lead s !! currentTerm r = Some (k, LL) →
  ∀ ct ci, app_post s i a
    (mkAppendEntiesReply (currentTerm r) true (commitIndex r + 1) (commitIndex r) ct ci) r.
Proof.
  intros I N Ha HL ct ci.
  destruct (commit_leader s (currentTerm r) (log r) (commitIndex r) k LL) as [Ht Hlt];
    [done|by eapply NodeInv_wf|apply N|done|]. destruct (ni_commit _ _ _ N) as [Hc _].
  destruct (ack_sim s i r k LL (Z.to_nat (commitIndex r))) as (s' & ? & ? & Hack);
    [done..|unfold go_len in *; lia|done|].
  exists s'. split_and!; [done..| |simpl; lia]. right. simpl. split_and!; [lia..|].
  by replace (commitIndex r + 1 - 1) with (commitIndex r) by lia.
Qed.

Lemma app_reject_sim s i r a ni fc ct ci :
  AInv s → NodeInv s i r → a.(AEA_Term) = currentTerm r → 1 ≤ ni ≤ commitIndex r + 1 → ci ≤ 0 →
  ∀ r', NodeInv s i r' → log r' = log r →
  app_post s i a (mkAppendEntiesReply (currentTerm r) false ni fc ct ci) r'.
Proof.
  intros I N Ha Hni Hci r' N' Hl. destruct (ni_commit _ _ _ N) as [Hc _].
  exists s. split_and!; [apply rtc_refl|done| |simpl; rewrite Hl; lia].
  right. simpl. do 3 (split; [lia|]). exists (log r), (commitIndex r).
  split; [by eapply NodeInv_wf|]. split; [apply N|lia].
Qed.

Lemma handleAppendEntries_body_sim E s i r m a rep :
  AInv s → NodeInv s i r → state r = StateFollower →
  m.(Msg_args) = AppArgs a → m.(Msg_reply) = AppReply rep →
  app_args_ok s a → a.(AEA_Term) = currentTerm r →
  wp E (handleAppendEntries_body m) (app_post s i a) r.
Proof.
  intros I N0 Hst Hargs Hrep (LL & L & p & e & HL & Hpre & Hp & Hprev & Hpt & Hents & Hlc) Ha.
  rewrite Ha in HL, Hlc. unfold handleAppendEntries_body. rewrite Hargs, Hrep. simpl. wp_steps.
  match goal with |- wp _ _ _ ?x => remember x as r1 eqn:Hr1 end.
  assert (NodeInv s i r1) as N by (subst r1; by same_node N0).
  assert (state r1 = StateFollower ∧ currentTerm r1 = currentTerm r) as [Hst1 Ht1] by (by subst r1).
  rewrite <- Ht1 in HL, Hlc, Ha. clear Hr1 N0 Hst Ht1 r.
  pose proof (NodeInv_wf _ _ _ I N) as Hw. destruct (ni_commit _ _ _ N) as [Hc _].
  destruct (_ <? _) eqn:Hlt; boolify; [wp_steps; by eapply app_stale_prev_sim|].
  rewrite Hprev, Hpt, Hents in *. wp_steps. apply matchTerm_wp; [done|lia|].
  intros b Hb. rewrite Nat2Z.id, (same_term_at_dec_from p _ _ e Hp) in Hb.
  destruct b.
  - assert (same_term_at p (log r1) L) as Hsp by (by apply Hb). clear Hb. wp_step.
    apply wp_bind_assoc. eapply (append_conflict_wp E s i r1 _ LL L p e); [done..|].
    intros s1 l1 Hrtc Hl1 N1 HL1. wp_steps.
    assert (AInv s1) as I1 by (by eapply AInv_rtc). apply checkLog_wp; [by eapply NodeInv_wf|]. wp_steps.
    eapply (commitTo_leader_wp E s1 i (set_log l1 r1) L); [exact I1|exact N1|exact HL1| |].
    { eapply (commit_ok_mono i s s1); [by eapply rtc_astep_le|reflexivity|exact Hlc]. }
    intros r2 N2 Hl2 Ht2. simpl in Hl2, Ht2. wp_steps. simpl.
    pose proof (lookup_lt_Some _ _ _ Hp) as Hpl.
    assert (Z.of_nat p + go_len (drop (S p) L) + 1 = Z.of_nat (length L)) as ->
      by (unfold go_len; rewrite length_drop; lia).
    destruct (_ <? _) eqn:?; boolify; [lia|]. wp_steps.
    pose proof (prefix_length _ _ Hpre).
    destruct (ack_sim s1 i r2 (AEA_LeaderId a) LL (length L - 1)) as (s3 & Hrtc3 & N3 & Hack);
      [done|done|by rewrite Ht2, Hl1|lia| |].
    { rewrite Hl2. replace (S (length L - 1)) with (length L) by lia. rewrite HL1.
      destruct Hpre as [suf ->]. by rewrite take_app_length. }
    exists s3. split_and!; [by etrans|by same_node N3| |].
    + right. simpl. split_and!; [lia..|]. rewrite <- Ht2.
      by replace (Z.to_nat (Z.of_nat (length L) - 1)) with (length L - 1)%nat by lia.
    + simpl. rewrite Hl2. unfold go_len. rewrite <- HL1 at 1. rewrite length_take. lia.
  - wp_steps. apply lastIndex_wp; [done|]. wp_steps.
    set (ni := go_min _ _).
    assert (ni ≤ commitIndex r1 + 1) as Hni by (unfold ni, go_min; case_test; lia).
    assert (1 ≤ (if ni <? 1 then 1 else ni) ≤ commitIndex r1 + 1) as Hni' by (case_test; lia).
    destruct (Z.of_nat p <=? _) eqn:Hle; boolify; wp_steps.
    + destruct (go_at_is_Some (log r1) (Z.of_nat p)) as [e' [_ He']%go_at_Some]; [lia|].
      apply (log_at_wp _ _ _ e'); [lia|done|]. wp_steps.
      apply conflict_scan_wp; [unfold go_len in *; lia|]. intros v. wp_steps. simpl.
      destruct (_ <? 1) eqn:? in |- * at 1; boolify; [lia|]. wp_steps.
      apply (app_reject_sim s i r1); auto; [lia|by same_node N].
    + simpl. destruct (_ <? 1) eqn:? in |- * at 1; boolify; [lia|]. wp_steps.
      apply (app_reject_sim s i r1); auto; [lia|by same_node N].
Qed.

Lemma handleAppendEntries_sim E s i r m a rep :
  AInv s → NodeInv s i r → state r = StateFollower →
  m.(Msg_args) = AppArgs a → m.(Msg_reply) = AppReply rep →
  app_args_ok s a → a.(AEA_Term) = currentTerm r →
  wp E (handleAppendEntries m) (λ m' r', ∃ p, m'.(Msg_reply) = AppReply p ∧ app_post s i a p r') r.
Proof.
  intros I N Hst Hargs Hrep Ha Ht. unfold handleAppendEntries. wp_steps.
  eapply wp_mono; [by eapply handleAppendEntries_body_sim|].
  intros p r' (s' & Hrtc & N' & Hok & Hni). wp_steps.
  apply lastIndex_wp; [eapply (NodeInv_wf s'); eauto using AInv_rtc|].
  rewrite Z.gtb_ltb, (proj2 (Z.ltb_ge _ _)) by lia. wp_steps.
  exists p. split; [done|]. by exists s'.
Qed.

(** ** RequestVote *)

Definition vote_post s i (a : RequestVoteArgs) (v : RequestVoteReply) r' : Prop :=
  ∃ s', rtc (astep i) s s' ∧ NodeInv s' i r' ∧
    (v.(RVR_VoteGranted) = true →
     ∃ vl, a_vote s' !! (i, v.(RVR_Term)) = Some (a.(RVA_CandidateId), vl)).

Lemma vote_refused s i r a (v : RequestVoteReply) :
  NodeInv s i r → v.(RVR_VoteGranted) = false → vote_post s i a v r.
Proof. intros N Hv. exists s. split_and!; [apply rtc_refl|done|congruence]. Qed.

(** A follower that has not voted in its term for another candidate grants the vote. *)
Lemma grant_sim s i r a cl :
  AInv s → NodeInv s i r → state r = StateFollower → a.(RVA_Term) = currentTerm r →
  0 ≤ a.(RVA_CandidateId) →
  votedFor r = NoneId ∨ votedFor r = a.(RVA_CandidateId) →
  a_cand s !! (a.(RVA_CandidateId), a.(RVA_Term)) = Some cl → up_to_date cl (log r) →
  vote_post s i a (mkRequestVoteReply (currentTerm r) true)
    (set_votedFor a.(RVA_CandidateId) (set_electionElapsed 0 r)).
Proof.
  intros I N Hst Ht Hcid Hvf Hc Hup. pose proof (ni_vote _ _ _ N) as Hv. unfold vote_ok in Hv.
  destruct (a_vote s !! (i, currentTerm r)) as [[w vl]|] eqn:Hav.
  - assert (w = a.(RVA_CandidateId)) as -> by (destruct Hv, Hvf; unfold NoneId in *; lia).
    exists s. split_and!; [apply rtc_refl| |eauto].
    same_node N. unfold vote_ok. by rewrite Hav.
  - pose proof (ni_term _ _ _ N) as Hterm. rewrite Ht, <- Hterm in Hc. rewrite <- Hterm in Hav.
    rewrite <- (ni_log _ _ _ N) in Hup. pose proof (A_vote n s i _ cl Hav Hc Hup) as Hs.
    pose proof (astep_le _ _ _ _ I Hs) as Hle.
    eexists. split; [by apply rtc_once|]. simpl. split.
    + eapply (NodeInv_role s); [done..| |simpl; lia| | | |]; simpl.
      * by split.
      * apply N.
      * apply N.
      * unfold vote_ok. simpl. rewrite Hterm, lookup_insert_eq. by split.
      * pose proof (ni_role _ _ _ N) as Hr. unfold role_ok in *. simpl. by rewrite Hst in *.
    + intros _. exists (a_log s i). by rewrite Hterm, lookup_insert_eq.
Qed.

Lemma stepFollower_vote_sim E s i r m a rep :
  AInv s → NodeInv s i r → state r = StateFollower →
  m.(Msg_Type) = MsgVote → m.(Msg_args) = VoteArgs a → m.(Msg_reply) = VoteReply rep →
  vote_args_ok s a → 0 ≤ a.(RVA_CandidateId) → a.(RVA_Term) = currentTerm r →
  wp E (stepFollower m) (λ m' r', ∃ v, m'.(Msg_reply) = VoteReply v ∧ vote_post s i a v r') r.
Proof.
  intros I N Hst Hty Hargs Hrep (cl & e & Hcl & He & Hi & Ht) Hcid Hterm.
  unfold stepFollower. rewrite Hty, Hargs, Hrep. simpl. wp_steps.
  assert (∀ v, v.(RVR_VoteGranted) = false → ∃ v', VoteReply v = VoteReply v' ∧ vote_post s i a v' r)
    as Hno by eauto using vote_refused.
  assert (wf_log (log r)) as Hw by (by eapply NodeInv_wf).
  destruct (_ || _) eqn:Hvf; boolify; wp_steps;
    [|apply log_line_wp; [done|]; wp_steps; by apply Hno].
  apply (reqMoreUpToDate_wp _ _ _ cl e); try done.
  { by eapply gl_wf, (ai_cand _ _ I). }
  intros b Hb. destruct b; wp_steps; (apply log_line_wp; [done|]); wp_steps; [|by apply Hno].
  eexists. split; [done|]. apply (grant_sim s i r a cl); auto; [|by apply Hb].
  destruct Hvf; boolify; auto.
Qed.

(** ** Elections *)

Lemma poll_sim s i r j b :
  NodeInv s i r → state r = StateCandidate → 0 ≤ j < n →
  (b = true → ∃ vl, a_vote s !! (j, currentTerm r) = Some (i, vl)) →
  NodeInv s i (set_votes (match votes r !! j with
                          | None => <[j := b]> (votes r) | Some _ => votes r end) r).
Proof.
  intros N Hst Hj Hb. pose proof (ni_role _ _ _ N) as Hr. same_node N.
  unfold role_ok in *. simpl. rewrite Hst in *. destruct Hr as (? & ? & ? & ? & Hv).
  split_and!; auto. intros k Hk. destruct (votes r !! j) eqn:Hvj; [auto|].
  apply lookup_insert_Some in Hk as [[<- ->]|[_ Hk]]; auto.
Qed.

Lemma quorum_votes s i r :
  NodeInv s i r → state r = StateCandidate → quorum r = granted_votes (votes r) →
  ∃ S, quorum_set n S ∧ ∀ j, j ∈ S → ∃ vl, a_vote s !! (j, currentTerm r) = Some (i, vl).
Proof.
  intros N Hst Hq. pose proof (ni_role _ _ _ N) as Hr. unfold role_ok in Hr. rewrite Hst in Hr.
  destruct Hr as (_ & _ & _ & _ & Hv). destruct (granted_votes_set (votes r)) as (S & Hs & HS).
  exists S. split; [split|].
  - intros j Hj%HS%Hv. apply elem_of_nodes. apply Hj.
  - rewrite Hs, <- Hq. unfold quorum. rewrite (ni_peers _ _ _ N).
    pose proof (Z.quot_rem n 2 ltac:(lia)). pose proof (Z.rem_bound_pos n 2 ltac:(lia) ltac:(lia)). lia.
  - intros j Hj%HS%Hv. apply Hj.
Qed.

(** A majority of votes makes the candidate the only leader of its term. *)
Lemma elect_sim s i r r' :
  AInv s → NodeInv s i r → state r = StateCandidate → quorum r = granted_votes (votes r) →
  frame r r' → state r' = StateLeader → tick r' = Some tickHeartbeatF →
  step r' = Some stepLeaderF → currentTerm r' = currentTerm r → votedFor r' = votedFor r →
  length (nextIndex r') = length (peers r) → Forall (eq (go_len (log r))) (nextIndex r') →
  matchIndex r' = go_make (go_len (peers r)) 0 →
  ∃ s', rtc (astep i) s s' ∧ NodeInv s' i r'.
Proof.
  intros I N Hst Hq F Hst' Htk Hsp Hct Hvf Hnl Hni Hmi.
  destruct (quorum_votes s i r N Hst Hq) as (Q & HQ & Hvotes).
  pose proof (ni_role _ _ _ N) as Hr. unfold role_ok in Hr. rewrite Hst in Hr.
  destruct Hr as (_ & _ & Hc & Hnotl & _). pose proof (ni_term _ _ _ N) as Hterm.
  assert (a_lead s !! currentTerm r = None) as HN.
  { destruct (a_lead s !! currentTerm r) as [[k L]|] eqn:HL; [|done]. exfalso.
    assert (i = k) as <- by (eapply (elect_unique n s _ i k L Q); eauto; lia). by eapply Hnotl. }
  rewrite <- Hterm in HN, Hvotes, Hc. rewrite <- (ni_log _ _ _ N) in Hc.
  pose proof (A_elect n s i Q HN HQ Hvotes Hc) as Hs. pose proof (astep_le _ _ _ _ I Hs) as Hle.
  eexists. split; [by apply rtc_once|].
  pose proof (ni_peers _ _ _ N) as Hpn. pose proof (wf_log_length _ (NodeInv_wf _ _ _ I N)).
  eapply (NodeInv_role s); [done..|lia|simpl; congruence|apply N|rewrite Hct, Hvf; apply N|].
  unfold role_ok. rewrite Hst', Hmi, Hct, (fr_log _ _ F). simpl. split_and!; auto.
  - by rewrite Hterm, lookup_insert_eq, (ni_log _ _ _ N).
  - unfold go_len in *. lia.
  - unfold go_make, go_len in *. rewrite length_replicate. lia.
  - eapply Forall_impl; [done|]. intros x <-. unfold go_len. lia.
  - intros j x [-> _]%lookup_replicate. by left.
Qed.

Lemma stepCandidate_resp_sim E s i r m v :
  AInv s → NodeInv s i r → 0 ≤ i < n → state r = StateCandidate →
  m.(Msg_Type) = MsgVoteResp → m.(Msg_reply) = VoteReply v → 0 ≤ m.(Msg_From) < n →
  (v.(RVR_VoteGranted) = true → ∃ vl, a_vote s !! (m.(Msg_From), currentTerm r) = Some (i, vl)) →
  wp E (stepCandidate m) (λ _ r', ∃ s', rtc (astep i) s s' ∧ NodeInv s' i r') r.
Proof.
  intros I N Hi Hst Hty Hrep Hj Hv. unfold stepCandidate. rewrite Hty, Hrep. simpl. wp_steps.
  apply poll_wp. simpl. pose proof (poll_sim s i r _ _ N Hst Hj Hv) as N1.
  match type of N1 with NodeInv _ _ ?x => set (r1 := x) in N1 |- * end.
  fold (votes r1). wp_steps. destruct (_ =? _) eqn:Hq; boolify.
  - wp_steps. apply becomeLeader_wp; [apply N1|by eapply NodeInv_nonempty| |].
    { unfold r1. simpl. congruence. }
    intros r' F Hst' **. destruct (elect_sim s i r1 r') as (s' & Hrtc & N'); auto.
    eapply wp_mono; [apply (bcastAppend_sim _ s' i); eauto using AInv_rtc|].
    intros _ r2 [? _]. wp_steps. eauto.
  - destruct (quorum r1 =? _).
    + wp_steps. eapply wp_mono; [apply (becomeFollower_sim _ s i); auto; lia|].
      intros _ r2 (s' & ? & ? & _). wp_steps. eauto.
    + wp_steps. exists s. split; [apply rtc_refl|done].
Qed.

(** ** Append replies at the leader *)

Lemma leader_next_sim s i r j x :
  NodeInv s i r → state r = StateLeader → 0 ≤ j < n → 1 ≤ x ≤ go_len (log r) →
  NodeInv s i (set_nextIndex (<[Z.to_nat j := x]> (nextIndex r)) r).
Proof.
  intros N Hst Hj Hx. pose proof (ni_role _ _ _ N) as Hr. same_node N.
  unfold role_ok in *. simpl. rewrite Hst in *. destruct Hr as (? & ? & ? & ? & ? & ? & ?).
  split_and!; auto.
  - unfold go_len in *. by rewrite length_insert.
  - by apply Forall_insert.
Qed.

Lemma leader_match_sim s i r j x :
  NodeInv s i r → state r = StateLeader → 0 ≤ j < n → 0 ≤ x →
  acked s j (currentTerm r) (Z.to_nat x) →
  NodeInv s i (set_matchIndex (<[Z.to_nat j := x]> (matchIndex r)) r).
Proof.
  intros N Hst Hj Hx Hack. pose proof (ni_role _ _ _ N) as Hr. same_node N.
  unfold role_ok in *. simpl. rewrite Hst in *. destruct Hr as (? & ? & ? & ? & ? & ? & Hm).
  split_and!; auto.
  - unfold go_len in *. by rewrite length_insert.
  - intros k y [(<- & <- & _)|[_ Hk]]%list_lookup_insert_Some; [|by apply Hm].
    rewrite Z2Nat.id by lia. destruct (decide (x = 0)); [by left|right; split; [lia|done]].
Qed.

Lemma acked_below_leader s i r j (x : nat) :
  AInv s → NodeInv s i r → state r = StateLeader → acked s j (currentTerm r) x →
  Z.of_nat x < go_len (log r).
Proof.
  intros I N Hst Hack. pose proof (ni_role _ _ _ N) as Hr. unfold role_ok in Hr. rewrite Hst in Hr.
  destruct Hr as (_ & _ & HL & _). destruct (ai_ack_lead _ _ I _ _ _ Hack) as (k & L & HL' & ?).
  unfold go_len. simplify_eq. lia.
Qed.

(** An entry of the leader's term that a majority acknowledged is committed. *)
Lemma leader_commit_ok s i r mci e S :
  NodeInv s i r → state r = StateLeader → commitIndex r < mci < go_len (log r) →
  log r !! Z.to_nat mci = Some e → e.(Log_Term) = currentTerm r → quorum_set n S →
  (∀ j, j ∈ S → ∃ x, matchIndex r !! Z.to_nat j = Some x ∧ mci ≤ x) →
  commit_ok s (currentTerm r) (log r) mci.
Proof.
  intros N Hst Hmci He Ht HS Hm. pose proof (ni_role _ _ _ N) as Hr.
  unfold role_ok in Hr. rewrite Hst in Hr. destruct Hr as (_ & _ & HL & _ & _ & _ & Hack).
  destruct (ni_commit _ _ _ N) as [Hc _]. split; [lia|right].
  exists (currentTerm r), (Z.to_nat mci), i, (log r). split_and!; auto; [lia|].
  exists i, (log r), S. split; [done|]. split; [by exists e|]. split; [done|].
  intros j Hj. destruct (Hm j Hj) as (x & Hx & Hle).
  destruct (Hack _ _ Hx) as [->|[_ (y & Hy & Hin)]]; [lia|].
  pose proof (proj1 (elem_of_nodes n j) (proj1 HS j Hj)). rewrite Z2Nat.id in Hin by lia.
  exists y. split; [lia|done].
Qed.

Lemma updateCommitIndex_sim E s i r :
  AInv s → NodeInv s i r → state r = StateLeader →
  wp E updateCommitIndex (λ _ r', NodeInv s i r') r.
Proof.
  intros I N Hst. pose proof (ni_role _ _ _ N) as Hr. unfold role_ok in Hr. rewrite Hst in Hr.
  destruct Hr as (_ & _ & HL & Hnl & Hml & _ & Hack). destruct (ni_commit _ _ _ N) as [Hc _].
  apply (updateCommitIndex_wp _ _ n); auto; [by eapply NodeInv_wf|apply N|lia| |lia|].
  - apply Forall_lookup. intros j x Hx. destruct (Hack _ _ Hx) as [->|[? Ha]]; [lia|].
    pose proof (acked_below_leader s i r _ _ I N Hst Ha). lia.
  - intros mci e S Hmci He Ht HS Hm.
    pose proof (leader_commit_ok s i r mci e S N Hst Hmci He Ht HS Hm).
    destruct N. split; simpl; auto; [lia|]. apply Forall_app. split; [|by apply Forall_singleton].
    eapply Forall_impl; [done|]. simpl. lia.
Qed.

Lemma conflict_find_wp E r ct (x : nat) Q :
  ((length (log r) ≤ x)%nat → x ≠ 0%nat → E index_panic) → (∀ v, Q v r) →
  wp E (conflict_find ct x) Q r.
Proof.
  intros HE HQ. destruct (decide (x = 0%nat)) as [->|Hx0]; [by apply wp_ret|].
  destruct (decide (length (log r) ≤ x)%nat) as [Hx|Hx].
  - destruct x as [|x]; [done|]. simpl. wp_steps. unfold log_at. wp_steps.
    unfold go_at. rewrite (proj2 (Z.ltb_ge _ _)) by lia.
    rewrite Nat2Z.id, lookup_ge_None_2 by lia. apply wp_panic. auto.
  - clear HE Hx0. induction x as [|x IH]; cbn [conflict_find]; [by apply wp_ret|]. wp_steps.
    destruct (lookup_lt_is_Some_2 (log r) (S x) ltac:(lia)) as [e He].
    apply (log_at_wp _ _ _ e); [lia|by rewrite Nat2Z.id|].
    destruct (_ =? _); [by wp_steps|]. apply IH. lia.
Qed.

(** The one run-time check that a reply can fail: a refusal of a request this server sent as
    the leader of an earlier term, for a position its log no longer has. *)
Definition stale_reply_panic r m : Prop :=
  state r = StateLeader ∧
  ∃ a p, m.(Msg_args) = AppArgs a ∧ m.(Msg_reply) = AppReply p ∧ p.(AER_Success) = false ∧
    p.(AER_Term) = currentTerm r ∧ a.(AEA_Term) < currentTerm r ∧
    go_len (log r) ≤ a.(AEA_PrevLogIndex) - 1.

Lemma next_index_bound s i r j a p :
  AInv s → NodeInv s i r → state r = StateLeader → app_reply_ok s j a p →
  p.(AER_Term) = currentTerm r → 1 ≤ p.(AER_NextIndex) ≤ go_len (log r).
Proof.
  intros I N Hst [Hp|(Hni & _ & Hp)] Ht.
  { pose proof (ai_term_pos _ _ I i) as Hpos. rewrite (ni_term _ _ _ N) in Hpos. lia. }
  split; [done|]. destruct (AER_Success p).
  - destruct Hp as [_ Hack]. rewrite Ht in Hack.
    pose proof (acked_below_leader s i r _ _ I N Hst Hack). lia.
  - destruct Hp as (_ & l & c & Hw & Hc & Hle). pose proof (ni_role _ _ _ N) as Hr.
    unfold role_ok in Hr. rewrite Hst in Hr. destruct Hr as (_ & _ & HL & _). rewrite Ht in Hc.
    destruct (commit_leader s _ _ _ _ _ I Hw Hc HL). lia.
Qed.

(** A refusal of a request of the current term names a position the leader has. *)
Lemma current_refusal_in_log s i r a :
  NodeInv s i r → state r = StateLeader → app_args_ok s a → a.(AEA_Term) = currentTerm r →
  a.(AEA_PrevLogIndex) < go_len (log r).
Proof.
  intros N Hst (LL & L & p & e & HL & Hpre & Hp & -> & _) Ht. rewrite Ht in HL.
  pose proof (ni_role _ _ _ N) as Hr. unfold role_ok in Hr. rewrite Hst in Hr.
  destruct Hr as (_ & _ & HL' & _). simplify_eq. unfold go_len.
  apply lookup_lt_Some in Hp. apply prefix_length in Hpre. lia.
Qed.

Lemma stepLeader_resp_sim s i r m a p :
  AInv s → NodeInv s i r → state r = StateLeader → 0 ≤ m.(Msg_From) < n →
  m.(Msg_Type) = MsgAppResp → m.(Msg_args) = AppArgs a → m.(Msg_reply) = AppReply p →
  app_args_ok s a → app_reply_ok s m.(Msg_From) a p → p.(AER_Term) = currentTerm r →
  wp (λ w, w = index_panic ∧ stale_reply_panic r m) (stepLeader m) (λ _ r', NodeInv s i r') r.
Proof.
  intros I N Hst Hj Hty Hargs Hrep Ha Hok Ht. unfold stepLeader. rewrite Hty, Hargs, Hrep. simpl.
  wp_steps. apply lastIndex_wp; [by eapply NodeInv_wf|].
  pose proof (next_index_bound s i r _ _ _ I N Hst Hok Ht) as Hni.
  rewrite Z.gtb_ltb, (proj2 (Z.ltb_ge _ _)) by lia. apply wp_bind.
  pose proof (ni_role _ _ _ N) as Hr. unfold role_ok in Hr. rewrite Hst in Hr.
  destruct Hr as (_ & _ & _ & Hnl & Hml & _).
  destruct Hok as [Hp|(_ & Hle & Hok)].
  { pose proof (ai_term_pos _ _ I i) as Hpos. rewrite (ni_term _ _ _ N) in Hpos. lia. }
  destruct (AER_Success p) eqn:Hsucc.
  - destruct (go_at_is_Some (nextIndex r) (Msg_From m)) as [ni Hat]; [lia|].
    wp_steps. eapply wp_must; [done|]. destruct (_ >=? _); wp_steps; [|done].
    apply set_nextIndex_at_wp; [lia|]. wp_steps. apply set_matchIndex_at_wp; [simpl; lia|]. wp_steps.
    eapply wp_mono; [apply (updateCommitIndex_sim _ s i)|intros; by wp_steps]; auto.
    destruct Hok as [_ Hack]. rewrite Ht in Hack.
    apply leader_match_sim; auto; [|lia]. by apply leader_next_sim.
  - destruct Hok as [Hci _]. apply wp_bind, conflict_find_wp.
    + intros Hlen Hx0. split; [done|]. split; [done|]. exists a, p.
      assert (a.(AEA_Term) ≠ currentTerm r) as Hne.
      { intros Heq. pose proof (current_refusal_in_log s i r a N Hst Ha Heq). unfold go_len in *. lia. }
      split_and!; [done..|lia|]. unfold go_len. lia.
    + intros v. rewrite (Z.gtb_ltb (AER_ConflictIndex p)), (proj2 (Z.ltb_ge 0 _)), andb_false_r by lia.
      apply set_nextIndex_at_wp; [lia|]. wp_steps. by apply leader_next_sim.
Qed.

(** ** Whole messages *)

(** [Step] enters the message's term, runs the handler of the role, and persists. *)
Lemma Step_wp E s i r m (Φ : AState → Message → Prop) :
  AInv s → NodeInv s i r →
  (∀ s1 r1, rtc (astep i) s s1 → AInv s1 → NodeInv s1 i r1 → currentTerm r1 = m.(Msg_Term) →
     r1 = r ∨ state r1 = StateFollower →
     wp E (run_step m) (λ m' r', ∃ s', rtc (astep i) s1 s' ∧ NodeInv s' i r' ∧ Φ s' m') r1) →
  (m.(Msg_Term) < currentTerm r → wp E (refuse_stale m) (λ m' r', r' = r ∧ Φ s m') r) →
  wp E (Step m) (λ m' r', ∃ s', rtc (astep i) s s' ∧ NodeInv s' i r' ∧ persist_ok r' ∧ Φ s' m') r.
Proof.
  intros I N Hrun Hstale. unfold Step. wp_steps.
  assert (∀ s1 r1, rtc (astep i) s s1 → NodeInv s1 i r1 → currentTerm r1 = m.(Msg_Term) →
    r1 = r ∨ state r1 = StateFollower →
    wp E (run_step m) (λ m' r', wp E (persist ;; ret m') (λ m' r', ∃ s', rtc (astep i) s s' ∧
      NodeInv s' i r' ∧ persist_ok r' ∧ Φ s' m') r') r1) as Hgo.
  { intros s1 r1 Hrtc N1 Ht Hr. eapply wp_mono; [eapply (Hrun s1); eauto using AInv_rtc|].
    intros m' r' (s' & ? & N' & HΦ). unfold persist. wp_steps. exists s'. split_and!; auto.
    - by etrans.
    - by same_node N'.
    - by left. }
  rewrite Z.gtb_ltb. destruct (_ <? _) eqn:Hgt; boolify; [|destruct (Msg_Term m <? _) eqn:Hlt; boolify].
  - wp_steps. eapply wp_mono; [apply (becomeFollower_sim _ s i); auto; lia|].
    intros [] r1 (s1 & Hrtc & N1 & _ & Ht & Hst). apply (Hgo s1); auto.
  - eapply wp_mono; [by apply Hstale|]. intros m' r' [-> HΦ]. unfold persist. wp_steps.
    exists s. split_and!; [apply rtc_refl|by same_node N|by left|done].
  - apply (Hgo s); auto using rtc_refl. lia.
Qed.

Lemma run_step_wp E s i r m Q :
  NodeInv s i r →
  wp E (match state r with
        | StateFollower => stepFollower m
        | StateCandidate => stepCandidate m
        | StateLeader => stepLeader m
        end) Q r → wp E (run_step m) Q r.
Proof.
  intros N HQ. unfold run_step. wp_steps. pose proof (ni_role _ _ _ N) as Hr. unfold role_ok in Hr.
  destruct (state r); [destruct Hr as [_ ->]|destruct Hr as (_ & -> & _)..]; done.
Qed.

Definition vote_answer i (a : RequestVoteArgs) s m : Prop :=
  ∃ v, m.(Msg_reply) = VoteReply v ∧
    (v.(RVR_VoteGranted) = true →
     ∃ vl, a_vote s !! (i, v.(RVR_Term)) = Some (a.(RVA_CandidateId), vl)).

Definition app_answer i (a : AppendEntiesArgs C) s m : Prop :=
  ∃ p, m.(Msg_reply) = AppReply p ∧ app_reply_ok s i a p.

Lemma RequestVote_sim E s i r a :
  AInv s → NodeInv s i r → vote_args_ok s a → 0 ≤ a.(RVA_CandidateId) →
  wp E (RequestVote a) (λ v r', ∃ s', rtc (astep i) s s' ∧ NodeInv s' i r' ∧ persist_ok r' ∧
    (v.(RVR_VoteGranted) = true →
     ∃ vl, a_vote s' !! (i, v.(RVR_Term)) = Some (a.(RVA_CandidateId), vl))) r.
Proof.
  intros I N Ha Hc. unfold RequestVote. wp_steps.
  eapply wp_mono; [apply (Step_wp _ s i _ _ (vote_answer i a)); [done..| |]|].
  - intros s1 r1 Hrtc I1 N1 Ht _. apply (run_step_wp _ s1 i); [done|]. simpl in Ht.
    destruct (state r1) eqn:Hst.
    + eapply wp_mono; [eapply (stepFollower_vote_sim _ s1 i); try done|].
      * eapply vote_args_ok_mono; [by eapply (rtc_astep_le n i s)|done].
      * intros m' r' (v & Hv & s' & ? & ? & ?). exists s'. split_and!; auto. by exists v.
    + unfold stepCandidate. simpl. wp_steps. apply log_line_wp; [by eapply NodeInv_wf|]. wp_steps.
      exists s1. split_and!; [apply rtc_refl|done|]. by eexists.
    + unfold stepLeader. simpl. wp_steps. exists s1. split_and!; [apply rtc_refl|done|].
      by eexists.
  - intros _. unfold refuse_stale. simpl. wp_steps. split; [done|]. by eexists.
  - intros m' r' (s' & ? & ? & ? & v & Hv & ?). rewrite Hv. simpl. wp_steps. eauto 6.
Qed.

Lemma AppendEnties_sim E s i r a :
  AInv s → NodeInv s i r → app_args_ok s a →
  wp E (AppendEnties a) (λ p r', ∃ s', rtc (astep i) s s' ∧ NodeInv s' i r' ∧ persist_ok r' ∧
    app_reply_ok s' i a p) r.
Proof.
  intros I N Ha. unfold AppendEnties. wp_steps.
  eapply wp_mono; [apply (Step_wp _ s i _ _ (app_answer i a)); [done..| |]|].
  - intros s1 r1 Hrtc I1 N1 Ht _. apply (run_step_wp _ s1 i); [done|]. simpl in Ht.
    assert (app_args_ok s1 a) as Ha1 by (eapply app_args_ok_mono; [by eapply (rtc_astep_le n i s)|done]).
    destruct (state r1) eqn:Hst.
    + unfold stepFollower. simpl. eapply wp_mono; [by eapply (handleAppendEntries_sim _ s1 i)|].
      intros m' r' (p & Hp & s' & ? & ? & ? & _). exists s'. split_and!; auto. by exists p.
    + unfold stepCandidate. simpl. wp_steps.
      eapply wp_mono; [apply (becomeFollower_sim _ s1 i); auto; lia|].
      intros [] r2 (s2 & Hrtc2 & N2 & _ & Ht2 & Hst2).
      assert (AInv s2) as I2 by eauto using AInv_rtc.
      eapply wp_mono; [eapply (handleAppendEntries_sim _ s2 i); try done|].
      * eapply app_args_ok_mono; [by eapply (rtc_astep_le n i s1)|done].
      * congruence.
      * intros m' r' (p & Hp & s' & ? & ? & ? & _). exists s'. split_and!; [by etrans|done|].
        by exists p.
    + unfold stepLeader. simpl. wp_steps. exists s1. split_and!; [apply rtc_refl|done|].
      eexists. split; [done|]. left. simpl. lia.
  - simpl. intros Hlt. unfold refuse_stale. simpl. wp_steps. split; [done|].
    eexists. split; [done|]. destruct (ni_commit _ _ _ N) as [Hc _]. right. simpl.
    do 3 (split; [lia|]). exists (log r), (commitIndex r).
    split; [by eapply NodeInv_wf|]. split; [apply N|lia].
  - intros m' r' (s' & ? & ? & ? & p & Hp & ?). rewrite Hp. simpl. wp_steps. eauto 6.
Qed.

Lemma serve_sim E s i r m :
  AInv s → NodeInv s i r → m.(Msg_To) = i → request_ok s m →
  wp E (serve m) (λ o r', ∃ s', rtc (astep i) s s' ∧ NodeInv s' i r' ∧ persist_ok r' ∧
    Forall (packet_ok s') (opt_packet Response o)) r.
Proof.
  intros I N Hto (Hf & Ht & Hm). unfold serve. destruct (Msg_args m) as [|a|a] eqn:Hargs; [done|..].
  - destruct Hm as [Hfrom Ha]. wp_steps. eapply wp_mono; [apply (RequestVote_sim _ s i); auto; lia|].
    intros v r' (s' & ? & ? & ? & Hv). wp_steps. exists s'. split_and!; auto.
    apply Forall_singleton. simpl. unfold response_ok. simpl. rewrite Hto in *.
    split_and!; try lia; auto. by rewrite Hfrom.
  - destruct Hm as [Hfrom Ha]. wp_steps. eapply wp_mono; [by apply (AppendEnties_sim _ s i)|].
    intros p r' (s' & ? & ? & ? & Hp). wp_steps. exists s'. split_and!; auto.
    apply Forall_singleton. simpl. unfold response_ok. simpl. rewrite Hto in *.
    split_and!; try lia; auto. exists a. split_and!; auto.
    eapply app_args_ok_mono; [by eapply (rtc_astep_le n i s)|done].
Qed.

Lemma Step_response_sim s i r m :
  AInv s → NodeInv s i r → 0 ≤ i < n → m.(Msg_To) = i → response_ok s m →
  wp (λ w, w = index_panic ∧ stale_reply_panic r m) (Step m)
    (λ _ r', ∃ s', rtc (astep i) s s' ∧ NodeInv s' i r' ∧ persist_ok r') r.
Proof.
  intros I N Hi Hto Hm.
  eapply wp_mono; [apply (Step_wp _ s i _ _ (λ _ _, True)); [done..| |]|].
  - intros s1 r1 Hrtc I1 N1 Ht Hr1. apply (run_step_wp _ s1 i); [done|].
    assert (∃ s', rtc (astep i) s1 s' ∧ NodeInv s' i r1 ∧ True) as Hstay
      by (exists s1; split_and!; auto using rtc_refl).
    assert (response_ok s1 m) as (Hf & _ & Hm1)
      by (eapply response_ok_mono; [by eapply (rtc_astep_le n i s)|done]).
    destruct (Msg_reply m) as [|v|p] eqn:Hrep; [done|..].
    + destruct Hm1 as (Hty & Hterm & Hv). destruct (state r1) eqn:Hst.
      * unfold stepFollower. rewrite Hty. by wp_steps.
      * eapply wp_mono; [eapply (stepCandidate_resp_sim _ s1 i); try done|].
        { intros [vl Hvl]%Hv. exists vl. by rewrite Ht, Hterm, <- Hto. }
        intros m' r' (s' & ? & ?). eauto.
      * unfold stepLeader. rewrite Hty. by wp_steps.
    + destruct Hm1 as (Hty & Hterm & a & Hargs & _ & Ha & Hok). destruct (state r1) eqn:Hst.
      * unfold stepFollower. rewrite Hty. by wp_steps.
      * unfold stepCandidate. rewrite Hty. by wp_steps.
      * destruct Hr1 as [->|?]; [|congruence].
        eapply wp_mono; [eapply (stepLeader_resp_sim s1 i); try done; congruence|].
        intros m' r' N'. exists s1. split_and!; auto using rtc_refl.
  - intros _. destruct Hm as (_ & _ & Hm). unfold refuse_stale. wp_steps.
    destruct (Msg_reply m); [done|..]; destruct Hm as [-> _]; by wp_steps.
  - intros m' r' (s' & ? & ? & ? & _). eauto.
Qed.

(** ** Applying and restarting *)

Definition entry_msg (e : Log) : ApplyMsg C := mkApplyMsg e.(Log_Index) e.(Log_Command).

Lemma apply_entries_wp E r (x k : nat) Q :
  (x + k ≤ length (log r))%nat → Q (map entry_msg (take k (drop x (log r)))) r →
  wp E (apply_entries (Z.of_nat x) k) Q r.
Proof.
  revert x Q. induction k as [|k IH]; intros x Q Hx HQ; simpl; [wp_steps; by rewrite take_0 in HQ|].
  destruct (lookup_lt_is_Some_2 (log r) x ltac:(lia)) as [e He].
  wp_steps. apply (log_at_wp _ _ _ e); [lia|by rewrite Nat2Z.id|]. wp_steps.
  replace (Z.of_nat x + 1) with (Z.of_nat (S x)) by lia. apply IH; [lia|]. wp_steps.
  by rewrite (drop_S _ _ _ He) in HQ.
Qed.

(** The messages of the entries after [lastApplied r] up to [lastApplied r']. *)
Lemma stateMachine_recv_sim s i r :
  AInv s → NodeInv s i r → persist_ok r →
  wp (λ _, False) stateMachine_recv (λ ms r', NodeInv s i r' ∧ persist_ok r' ∧ log r' = log r ∧
    lastApplied r ≤ lastApplied r' ∧
    ms = map entry_msg (drop (S (Z.to_nat (lastApplied r)))
                          (take (S (Z.to_nat (lastApplied r'))) (log r)))) r.
Proof.
  intros I N Hp. unfold stateMachine_recv. wp_steps.
  assert (drop (S (Z.to_nat (lastApplied r))) (take (S (Z.to_nat (lastApplied r))) (log r)) = [])
    as Hnil by (apply drop_ge; rewrite length_take; lia).
  destruct (commitc r) as [|ci rest] eqn:Hcc.
  { wp_steps. rewrite Hnil. done. }
  pose proof (ni_commitc _ _ _ N) as Hall. rewrite Hcc in Hall. inv Hall.
  wp_steps. rewrite Z.gtb_ltb. destruct (_ <? _) eqn:Hlt; boolify; wp_steps.
  2: { simpl. rewrite Hnil. split; [by same_node N|done]. }
  apply lastIndex_wp; [exact (NodeInv_wf _ _ _ I N)|]. simpl.
  destruct (ni_commit _ _ _ N) as [Hc _]. pose proof (ni_applied _ _ _ N).
  rewrite (proj2 (Z.ltb_ge _ _)) by lia. wp_steps.
  replace (lastApplied r + 1) with (Z.of_nat (S (Z.to_nat (lastApplied r)))) by lia.
  apply apply_entries_wp; simpl; [unfold go_len in *; lia|]. wp_steps. simpl.
  split_and!; [same_node N; lia|done|done|lia|].
  rewrite skipn_firstn_comm. do 2 f_equal. lia.
Qed.

End sim.
