(* ===== verification/RaftSafety.v ===== *)
(** * Safety of a cluster of Raft peers

    The configurations reachable from a fresh cluster satisfy [NetInv], which
    relates them to a state of the abstract protocol; the safety properties of
    Raft follow for the code. *)
From S2P Require Import Prelude GoRt RaftTypes RaftNode RaftProto RaftNet RaftSpec RaftSim.
Open Scope Z_scope.

Section safety.
Context {C : Type} (n : Z) (Hn : 2 ≤ n).
Local Abbreviation Log := (RaftTypes.Log C).
Local Abbreviation Raft := (RaftTypes.Raft C).
Local Abbreviation Config := (RaftNet.Config C).
Local Abbreviation ApplyMsg := (RaftTypes.ApplyMsg C).
Local Abbreviation AState := (@RaftProto.AState C).
Implicit Types (s : AState) (r : Raft) (c : Config) (i j T : Z).

(** ** Starting a peer *)

(** [Make] never panics; it restores the persisted term, log and vote. *)
Lemma Make_spec (ps : list Z) self (pers : Persister C) rs :
  ∃ r, Make ps self pers rs = Ok r ∧
    peers r = ps ∧ me r = self ∧ persister r = pers ∧ electionTimeout r = 10 ∧
    state r = StateFollower ∧ tick r = Some tickElectionF ∧ step r = Some stepFollowerF ∧
    commitIndex r = 0 ∧ lastApplied r = 0 ∧ commitc r = [] ∧ propc r = [] ∧
    (let '(t, d1) := gob_decode_int 1 (raftstate pers) in
     let '(l, d2) := gob_decode_log [init_entry] d1 in
     let '(v, _) := gob_decode_int NoneId d2 in
     currentTerm r = t ∧ log r = l ∧ votedFor r = v).
Proof.
  unfold Make, readPersist, ReadRaftState, bind.
  assert (∃ r0, becomeFollower 1 NoneId (new_Raft ps self pers rs) = Ok (tt, r0) ∧
    peers r0 = ps ∧ me r0 = self ∧ persister r0 = pers ∧ electionTimeout r0 = 10 ∧
    state r0 = StateFollower ∧ tick r0 = Some tickElectionF ∧ step r0 = Some stepFollowerF ∧
    commitIndex r0 = 0 ∧ lastApplied r0 = 0 ∧ commitc r0 = [] ∧ propc r0 = [] ∧
    currentTerm r0 = 1 ∧ log r0 = [init_entry] ∧ votedFor r0 = NoneId)
    as (r0 & -> & H) by (eexists; split; [vm_compute; reflexivity|done]).
  destruct H as (? & ? & ? & ? & ? & ? & ? & ? & ? & ? & ? & Ht & Hl & Hv).
  unfold modify. rewrite Ht, Hl, Hv.
  destruct (gob_decode_int 1 (raftstate pers)) as [t d1].
  destruct (gob_decode_log [init_entry] d1) as [l d2].
  destruct (gob_decode_int NoneId d2) as [v d3].
  eexists. split; [done|]. simpl. done.
Qed.

(** A peer made from what another incarnation persisted has its term, log and vote. *)
Lemma Make_restores r ps rs :
  persist_ok r → ∃ r', Make ps (me r) (Persister_Copy (persister r)) rs = Ok r' ∧
    currentTerm r' = currentTerm r ∧ log r' = log r ∧ votedFor r' = votedFor r ∧
    persist_ok r' ∧ peers r' = ps ∧ me r' = me r ∧ electionTimeout r' = 10 ∧
    state r' = StateFollower ∧ tick r' = Some tickElectionF ∧ step r' = Some stepFollowerF ∧
    commitIndex r' = 0 ∧ lastApplied r' = 0 ∧ commitc r' = [] ∧ propc r' = [].
Proof.
  intros Hp. destruct (Make_spec ps (me r) (Persister_Copy (persister r)) rs)
    as (r' & HM & H). exists r'. split; [done|]. simpl in H.
  destruct H as (? & ? & Hpers & ? & ? & ? & ? & ? & ? & ? & ? & Hdec).
  destruct Hp as [Hst|(Hst & Ht & Hl & Hv)]; rewrite Hst in Hdec; simpl in Hdec;
    destruct Hdec as (Ht' & Hl' & Hv'); (split; [congruence|split; [congruence|split; [congruence|split; [|done]]]]).
  - left. unfold persist_data in *. rewrite Hpers, Ht', Hl', Hv'. done.
  - right. rewrite Hpers. by simpl.
Qed.

(** ** Commands chosen by the cluster *)

Definition chosen s (msg : ApplyMsg) : Prop :=
  ∃ T y x i0 L e, committed n s T y ∧ a_lead s !! T = Some (i0, L) ∧ (x ≤ y)%nat ∧
    L !! x = Some e ∧ msg = entry_msg e ∧ msg.(Apply_Index) = Z.of_nat x.

(** Two commit indices agree on the entries below both. *)
Lemma committed_agree s T1 y1 i1 L1 T2 y2 i2 L2 x :
  AInv n s → committed n s T1 y1 → a_lead s !! T1 = Some (i1, L1) →
  committed n s T2 y2 → a_lead s !! T2 = Some (i2, L2) → (x ≤ y1)%nat → (x ≤ y2)%nat →
  take (S x) L1 = take (S x) L2.
Proof.
  intros I C1 H1 C2 H2 Hx1 Hx2. destruct (Z_le_gt_dec T1 T2).
  - symmetry. eapply take_eq_le; [eapply (leader_completeness n s T1 y1); eauto; lia|lia].
  - eapply take_eq_le; [eapply (leader_completeness n s T2 y2); eauto; lia|lia].
Qed.

Lemma chosen_unique s m1 m2 :
  AInv n s → chosen s m1 → chosen s m2 → Apply_Index m1 = Apply_Index m2 → m1 = m2.
Proof.
  intros I (T1 & y1 & x1 & i1 & L1 & e1 & C1 & H1 & Hx1 & He1 & Hm1 & Hi1)
    (T2 & y2 & x2 & i2 & L2 & e2 & C2 & H2 & Hx2 & He2 & Hm2 & Hi2) Heq.
  assert (x1 = x2) as -> by lia.
  pose proof (committed_agree s T1 y1 i1 L1 T2 y2 i2 L2 x2 I C1 H1 C2 H2 Hx1 Hx2) as Ht.
  apply (take_eq_lookup_1 _ x2) in Ht; [|lia]. subst. congruence.
Qed.

Lemma chosen_mono i s s' m : a_le i s s' → chosen s m → chosen s' m.
Proof.
  intros Hle (T & y & x & i0 & L & e & HC & HL & Hx & He & Hm & Hi).
  destruct (le_lead _ _ _ Hle _ _ _ HL) as (suf & HL' & _).
  exists T, y, x, i0, (L ++ suf), e. split_and!; auto; [by eapply committed_mono|].
  rewrite lookup_app_l; [done|]. by eapply lookup_lt_Some.
Qed.

Lemma commit_agree s T1 l1 (c1 : Z) T2 l2 (c2 : Z) x :
  AInv n s → wf_log l1 → wf_log l2 → commit_ok n s T1 l1 c1 → commit_ok n s T2 l2 c2 →
  (Z.of_nat x ≤ c1) → (Z.of_nat x ≤ c2) → take (S x) l1 = take (S x) l2.
Proof.
  intros I [W1 _] [W2 _] [B1 K1] [B2 K2] Hx1 Hx2. destruct (decide (x = 0%nat)) as [->|Hx0].
  - apply take_eq_lookup. intros y ?. replace y with 0%nat by lia. congruence.
  - destruct K1 as [?|(T & y & i1 & L1 & _ & Hy & HC & HL & Ht)]; [lia|].
    destruct K2 as [?|(T' & y' & i2 & L2 & _ & Hy' & HC' & HL' & Ht')]; [lia|].
    rewrite (take_eq_le (S x) _ _ _ Ht), (take_eq_le (S x) _ _ _ Ht') by lia.
    eapply (committed_agree s T y i1 L1 T' y' i2 L2); eauto; lia.
Qed.

Lemma commit_chosen s T l (c : Z) x e :
  wf_log l → commit_ok n s T l c → l !! x = Some e → (0 < x)%nat → Z.of_nat x ≤ c →
  chosen s (entry_msg e).
Proof.
  intros [_ Hw] [B K] He Hx Hc. destruct K as [?|(T0 & y & i0 & L0 & _ & Hy & HC & HL & Ht)]; [lia|].
  exists T0, y, x, i0, L0, e. split_and!; auto; [lia| |by simpl; apply Hw].
  rewrite <- He. symmetry. eapply take_eq_lookup_1; [done|lia].
Qed.

(** ** The invariant of the cluster *)

Record NetInv s c : Prop := mkNetInv {
  gi_abs : AInv n s;
  gi_node : ∀ i, 0 ≤ i < n → NodeInv n s i (servers c i);
  gi_persist : ∀ i, 0 ≤ i < n → persist_ok (servers c i);
  gi_net : Forall (packet_ok n s) (net c);
  gi_applied : ∀ i, 0 ≤ i < n → applied c i =
    map entry_msg (drop 1 (take (S (Z.to_nat (lastApplied (servers c i)))) (log (servers c i))));
  gi_history : Forall (λ p, chosen s p.2) (history c);
}.

(** Entries up to [lastApplied] never change. *)
Lemma applied_prefix_stable i s s' r r' :
  AInv n s → AInv n s' → a_le i s s' → NodeInv n s i r → NodeInv n s' i r' →
  lastApplied r' = lastApplied r →
  take (S (Z.to_nat (lastApplied r))) (log r') = take (S (Z.to_nat (lastApplied r))) (log r).
Proof.
  intros I I' Hle N N' Hla. pose proof (ni_applied _ _ _ _ N). pose proof (ni_applied _ _ _ _ N').
  eapply (commit_agree s' (currentTerm r') _ (commitIndex r') (currentTerm r) _ (commitIndex r));
    [done|by eapply NodeInv_wf|by eapply (NodeInv_wf _ s)|apply N'| |lia..].
  eapply commit_ok_mono; [done|reflexivity|apply N].
Qed.

(** Server [i] moves from its state to [r'] by actions of its own. *)
Lemma NetInv_server s s' c i r' ps :
  NetInv s c → 0 ≤ i < n → rtc (astep n i) s s' → NodeInv n s' i r' → persist_ok r' →
  lastApplied r' = lastApplied (servers c i) → Forall (packet_ok n s') ps →
  NetInv s' (set_server c i r' ps).
Proof.
  intros [I Hnd Hp Hnet Happ Hh] Hi Hrtc N' Hp' Hla Hps.
  pose proof (rtc_astep_le n i s s' I Hrtc) as Hle. pose proof (AInv_rtc n i s s' I Hrtc) as I'.
  split; simpl; auto.
  - intros j Hj. destruct (decide (j = i)) as [->|]; [by rewrite fn_lookup_insert|].
    rewrite fn_lookup_insert_ne by done. by eapply NodeInv_other; auto.
  - intros j Hj. destruct (decide (j = i)) as [->|]; [by rewrite fn_lookup_insert|].
    rewrite fn_lookup_insert_ne by done. auto.
  - intros j Hj. destruct (decide (j = i)) as [->|]; [rewrite fn_lookup_insert|].
    + rewrite Happ, Hla by done. do 2 f_equal. symmetry.
      eapply (applied_prefix_stable i s s'); auto.
    + rewrite fn_lookup_insert_ne by done. auto.
  - eapply Forall_impl; [done|]. intros p. by eapply chosen_mono.
Qed.

(** A handler run at server [i], with the post-condition its simulation lemma gives. *)
Lemma NetInv_handler {A} (m : M Raft A) E s c i r0 a r' :
  NetInv s c → 0 ≤ i < n → lastApplied r0 = lastApplied (servers c i) →
  wp E m (λ _ r', ∃ s', rtc (astep n i) s s' ∧ NodeInv n s' i r' ∧ persist_ok r') r0 →
  keeps fixed_part m → m r0 = Ok (a, r') →
  ∃ s', rtc (astep n i) s s' ∧ NetInv s' (set_server c i r' (net c)).
Proof.
  intros G Hi Hr0 Hwp Hk Hm. destruct (wp_ok _ _ _ _ _ _ Hwp Hm) as (s' & Hrtc & N' & Hp').
  exists s'. split; [done|]. eapply NetInv_server; eauto.
  - apply Hk in Hm. unfold fixed_part in Hm. congruence.
  - eapply Forall_impl; [apply G|]. intros p. eapply packet_ok_mono, rtc_astep_le; eauto. apply G.
Qed.

Lemma NodeInv_rand s i r rs : NodeInv n s i r → NodeInv n s i (set_globalRand rs r).
Proof. intros []. split; simpl; auto. Qed.

Lemma valid_id_spec i : valid_id n i = true ↔ 0 ≤ i < n.
Proof. unfold valid_id. rewrite andb_true_iff, Z.leb_le, Z.ltb_lt. done. Qed.

Lemma bounded_spec c i : bounded n c = true → 0 ≤ i < n → currentTerm (servers c i) < max_int.
Proof.
  unfold bounded. rewrite forallb_forall. intros H Hi. apply Z.ltb_lt, H.
  apply list_elem_of_In, elem_of_seqZ. lia.
Qed.

(** *** One lemma per action *)

Section actions.
Context (s : AState) (c : Config) (G : NetInv s c).

(** A change of fields outside the relation, the abstract state being the same. *)
Lemma NetInv_local i r' ps :
  0 ≤ i < n → NodeInv n s i r' → persist_ok r' → lastApplied r' = lastApplied (servers c i) →
  Forall (packet_ok n s) ps → NetInv s (set_server c i r' ps).
Proof. intros. eapply NetInv_server; eauto using rtc_refl. Qed.

Lemma Tick_inv i r' :
  0 ≤ i < n → Tick (servers c i) = Ok (tt, r') → NetInv s (set_server c i r' (net c)).
Proof.
  intros Hi. unfold Tick, bind, get. destruct (_ <? _); [|done]. intros H. injection H as <-.
  destruct (gi_node _ _ G i Hi). apply NetInv_local; auto; [|by apply G..]. split; simpl; auto.
Qed.

Lemma Kill_inv i r' :
  0 ≤ i < n → Kill (servers c i) = Ok (tt, r') → NetInv s (set_server c i r' (net c)).
Proof.
  intros Hi. unfold Kill, bind, get. destruct (stopc _); [done|]. intros H. injection H as <-.
  destruct (gi_node _ _ G i Hi). apply NetInv_local; auto; [|by apply G..]. split; simpl; auto.
Qed.

Lemma serveChannels_take_inv i k o r' :
  0 ≤ i < n → serveChannels_take k (servers c i) = Ok (o, r') →
  NetInv s (set_server c i r' (net c ++ opt_packet Request o)).
Proof.
  intros Hi. unfold serveChannels_take, bind, get. pose proof (gi_node _ _ G i Hi) as N.
  destruct (propc _ !! k) as [m|] eqn:Hk; intros H; injection H as <- <-; simpl.
  - apply NetInv_local; auto; [|by apply G| ].
    + destruct N. split; simpl; auto. by apply Forall_delete.
    + apply Forall_app. split; [apply G|]. apply Forall_singleton. simpl.
      eapply Forall_lookup_1; [apply N|done].
  - rewrite app_nil_r. apply NetInv_local; auto; by apply G.
Qed.

Lemma run_tick_inv i rs r' :
  0 ≤ i < n → bounded n c = true → run_tick (with_rand rs c i) = Ok (tt, r') →
  ∃ s', rtc (astep n i) s s' ∧ NetInv s' (set_server c i r' (net c)).
Proof.
  intros Hi Hb H. apply (NetInv_handler run_tick (λ _, False) s c i (with_rand rs c i) tt r');
    auto using run_tick_kept.
  apply run_tick_sim; auto; [apply G|apply NodeInv_rand, G; lia|by apply bounded_spec|].
  by apply (gi_persist _ _ G).
Qed.

Lemma Start_inv i cmd a r' :
  0 ≤ i < n → Start cmd (servers c i) = Ok (a, r') →
  ∃ s', rtc (astep n i) s s' ∧ NetInv s' (set_server c i r' (net c)).
Proof.
  intros Hi H. apply (NetInv_handler (Start cmd) (λ _, False) s c i (servers c i) a r');
    auto using Start_kept.
  apply Start_sim; auto; by apply G.
Qed.

Lemma deliver_request_inv k m rs o r' :
  net c !! k = Some (Request m) → serve m (with_rand rs c (Msg_To m)) = Ok (o, r') →
  ∃ s', rtc (astep n (Msg_To m)) s s' ∧
    NetInv s' (set_server c (Msg_To m) r' (delete k (net c) ++ opt_packet Response o)).
Proof.
  intros Hk H. pose proof (Forall_lookup_1 _ _ _ _ (gi_net _ _ G) Hk) as Hm. simpl in Hm.
  pose proof (proj1 (proj2 Hm)) as Hto. set (i := Msg_To m) in *.
  pose proof (serve_sim n Hn (λ _, False) s i (with_rand rs c i) m (gi_abs _ _ G)
    (NodeInv_rand _ _ _ _ (gi_node _ _ G i Hto)) eq_refl Hm) as Hwp.
  destruct (wp_ok _ _ _ _ _ _ Hwp H) as (s' & Hrtc & N' & Hp' & Hresp).
  exists s'. split; [done|]. eapply NetInv_server; eauto.
  - apply serve_kept in H. unfold fixed_part in H. simpl in H. congruence.
  - apply Forall_app. split; [|done]. apply Forall_delete. eapply Forall_impl; [apply G|].
    intros p. eapply packet_ok_mono, rtc_astep_le; eauto. apply G.
Qed.

Lemma lose_inv k : NetInv s (mkConfig (servers c) (delete k (net c)) (applied c) (history c)).
Proof. destruct G. split; simpl; auto. by apply Forall_delete. Qed.

Lemma Step_response_safe k m rs :
  net c !! k = Some (Response m) →
  wp (λ w, w = index_panic ∧ stale_reply_panic (servers c (Msg_To m)) m) (Step m)
    (λ _ r', ∃ s', rtc (astep n (Msg_To m)) s s' ∧ NodeInv n s' (Msg_To m) r' ∧ persist_ok r')
    (with_rand rs c (Msg_To m)).
Proof.
  intros Hk. pose proof (Forall_lookup_1 _ _ _ _ (gi_net _ _ G) Hk) as Hm. simpl in Hm.
  pose proof (proj1 (proj2 Hm)) as Hto.
  apply (Step_response_sim n Hn s _ (with_rand rs c (Msg_To m))); auto; [apply G|].
  apply NodeInv_rand, (gi_node _ _ G). lia.
Qed.

Lemma deliver_response_inv k m rs a r' :
  net c !! k = Some (Response m) → Step m (with_rand rs c (Msg_To m)) = Ok (a, r') →
  ∃ s', rtc (astep n (Msg_To m)) s s' ∧ NetInv s' (set_server c (Msg_To m) r' (delete k (net c))).
Proof.
  intros Hk H. pose proof (Forall_lookup_1 _ _ _ _ (gi_net _ _ G) Hk) as Hm. simpl in Hm.
  pose proof (proj1 (proj2 Hm)) as Hto.
  destruct (NetInv_handler (Step m) _ s c (Msg_To m) (with_rand rs c (Msg_To m)) a r' G Hto eq_refl
    (Step_response_safe k m rs Hk) (Step_kept m) H) as (s' & Hrtc & G').
  exists s'. split; [done|]. destruct G' as [? ? ? Hnet ? ?]. split; auto. by apply Forall_delete.
Qed.

Lemma restart_inv i rs r' :
  0 ≤ i < n →
  Make (peers (servers c i)) (me (servers c i)) (Persister_Copy (persister (servers c i))) rs = Ok r' →
  NetInv s (mkConfig (<[i := r']> (servers c)) (net c) (<[i := []]> (applied c)) (history c)).
Proof.
  intros Hi H. pose proof (gi_node _ _ G i Hi) as N.
  destruct (Make_restores (servers c i) (peers (servers c i)) rs (gi_persist _ _ G i Hi))
    as (r1 & H1 & Ht & Hl & Hv & Hp & Hps & Hme & Het & Hst & Htk & Hsp & Hci & Hla & Hcc & Hpc).
  rewrite H in H1. injection H1 as <-.
  assert (NodeInv n s i r') as N'.
  { destruct (ni_commit _ _ _ _ N) as [Hc _]. destruct N. split; rewrite ?Hme, ?Hps, ?Ht, ?Hl, ?Hv, ?Hci, ?Hla, ?Hcc, ?Hpc; auto; [| |lia].
    - unfold role_ok. by rewrite Hst.
    - split; [lia|by left]. }
  destruct G as [I Hnd Hpe Hnet Happ Hh]. split; simpl; auto; intros j Hj;
    (destruct (decide (j = i)) as [->|];
      [rewrite ?fn_lookup_insert|rewrite ?fn_lookup_insert_ne by done; auto]); [done..|].
  rewrite Hla. by destruct (log r').
Qed.

Lemma apply_inv i ms r' :
  0 ≤ i < n → stateMachine_recv (servers c i) = Ok (ms, r') →
  NetInv s (mkConfig (<[i := r']> (servers c)) (net c) (<[i := applied c i ++ ms]> (applied c))
              (history c ++ map (pair i) ms)).
Proof.
  intros Hi H. pose proof (gi_node _ _ G i Hi) as N. pose proof (gi_applied _ _ G i Hi) as Hai.
  pose proof (stateMachine_recv_sim n s i _ (gi_abs _ _ G) N (gi_persist _ _ G i Hi)) as Hwp.
  destruct (wp_ok _ _ _ _ _ _ Hwp H) as (N' & Hp' & Hl & Hla & ->).
  destruct G as [I Hnd Hpe Hnet Happ Hh]. pose proof (ni_applied _ _ _ _ N).
  split; simpl; auto; [intros j Hj..|];
    try (destruct (decide (j = i)) as [->|];
      [rewrite ?fn_lookup_insert|rewrite ?fn_lookup_insert_ne by done; auto]); [done..| |].
  - rewrite Hai, <- map_app. f_equal. rewrite Hl.
    set (a := Z.to_nat _). set (b := Z.to_nat _).
    assert (a ≤ b)%nat by lia. generalize (log (servers c i)). intros l.
    destruct l as [|x l]; [by rewrite take_nil, drop_nil|]. simpl. rewrite !drop_0.
    symmetry. etrans; [symmetry; apply (take_drop a)|]. rewrite take_take.
    by replace (a `min` b)%nat with a by lia.
  - apply Forall_app. split; [done|]. apply Forall_forall. intros p Hin.
    apply list_elem_of_In, in_map_iff in Hin as (msg & <- & Hin%in_map_iff). simpl.
    destruct Hin as (e & <- & He%list_elem_of_In%list_elem_of_lookup_1).
    destruct He as [x Hx]. rewrite lookup_drop in Hx.
    apply lookup_take_Some in Hx as [Hx Hlt]. pose proof (ni_applied _ _ _ _ N').
    eapply (commit_chosen s (currentTerm r') (log r') (commitIndex r')); [|apply N'|by rewrite Hl|lia|lia].
    by eapply NodeInv_wf.
Qed.

End actions.

(** ** Refinement: every step of the cluster is a sequence of actions of one server *)

Lemma net_step_sim s c c' :
  NetInv s c → net_step n c c' → ∃ i s', rtc (astep n i) s s' ∧ NetInv s' c'.
Proof.
  intros G [Hb [a Ha]].
  assert (NetInv s c' → ∃ i s', rtc (astep n i) s s' ∧ NetInv s' c') as Hstay
    by (exists 0, s; auto using rtc_refl).
  destruct a as [i|i rs|i k|k rs|k|i cmd|i|i|i rs]; cbn [net_exec] in Ha.
  all: try (destruct (valid_id n i) eqn:Hv; [apply valid_id_spec in Hv|done]); cbn [andb] in Ha.
  - destruct (Tick _) as [[[] r']|] eqn:H; [|done]. injection Ha as <-.
    by apply Hstay, Tick_inv.
  - destruct (0 <? _); [|done]. destruct (run_tick _) as [[[] r']|] eqn:H; [|done].
    injection Ha as <-. exists i. by eapply run_tick_inv.
  - destruct (serveChannels_take _ _) as [[o r']|] eqn:H; [|done]. injection Ha as <-.
    by apply Hstay, (serveChannels_take_inv _ _ G i k).
  - destruct (net c !! k) as [[m|m]|] eqn:Hk; [..|done].
    + destruct (serve _ _) as [[o r']|] eqn:H; [|done]. injection Ha as <-.
      exists (Msg_To m). by eapply deliver_request_inv.
    + destruct (Step _ _) as [[o r']|] eqn:H; [|done]. injection Ha as <-.
      exists (Msg_To m). by eapply deliver_response_inv.
  - injection Ha as <-. by apply Hstay, lose_inv.
  - destruct (Start _ _) as [[o r']|] eqn:H; [|done]. injection Ha as <-.
    exists i. by eapply Start_inv.
  - destruct (stateMachine_recv _) as [[ms r']|] eqn:H; [|done]. injection Ha as <-.
    by apply Hstay, apply_inv.
  - destruct (Kill _) as [[[] r']|] eqn:H; [|done]. injection Ha as <-. by apply Hstay, Kill_inv.
  - destruct (Make _ _ _ _) as [r'|] eqn:H; [|done]. injection Ha as <-.
    by apply Hstay, (restart_inv _ _ G i rs).
Qed.

Lemma initial_inv c : initial n c → NetInv a_init c.
Proof.
  intros (Hmk & Hnet & Happ & Hh).
  assert (∀ i, 0 ≤ i < n → NodeInv n a_init i (servers c i) ∧ persist_ok (servers c i) ∧
    lastApplied (servers c i) = 0 ∧ log (servers c i) = [init_entry]) as Hall.
  { intros i Hi. destruct (Hmk i) as [rs Hrs].
    destruct (Make_spec (seqZ 0 n) i MakePersister rs) as (r & Hr & H).
    rewrite Hrs in Hr. injection Hr as ->. simpl in H.
    destruct H as (Hps & Hme & Hpe & Het & Hst & Htk & Hsp & Hci & Hla & Hcc & Hpc & Ht & Hl & Hv).
    split_and!; [|right; by rewrite Hpe|done..].
    split; rewrite ?Hps, ?Hl, ?Ht, ?Hv, ?Hci, ?Hla, ?Hcc, ?Hpc; auto; [|done| | |lia].
    - unfold go_len. rewrite length_seqZ. lia.
    - unfold role_ok. by rewrite Hst.
    - split; [unfold go_len; simpl; lia|by left]. }
  split; rewrite ?Hnet, ?Hh; auto.
  - apply AInv_init.
  - intros i Hi. by apply Hall.
  - intros i Hi. by apply Hall.
  - intros i Hi. destruct (Hall i Hi) as (_ & _ & -> & ->). apply Happ.
Qed.

Lemma reachable_inv c :
  reachable n c → ∃ s, rtc (λ s s', ∃ i, astep n i s s') a_init s ∧ NetInv s c.
Proof.
  intros (c0 & Hi & Hr). apply initial_inv in Hi.
  assert (∀ s, NetInv s c0 → ∃ s', rtc (λ s s', ∃ i, astep n i s s') s s' ∧ NetInv s' c) as H; [|auto].
  clear Hi. induction Hr as [c|c1 c2 c3 Hst _ IH]; intros s G; [exists s; auto using rtc_refl|].
  destruct (net_step_sim _ _ _ G Hst) as (i & s' & Hrtc & G').
  destruct (IH s' G') as (s'' & ? & ?). exists s''. split; [|done]. etrans; [|done].
  eapply (rtc_congruence id); [|done]. intros x y ?. by exists i.
Qed.

End safety.
