(* ===== verification/RaftTheorems.v ===== *)
(** * What the Raft peers guarantee

    The safety properties of a cluster of [n >= 2] peers, for every reachable
    configuration of RaftNet.v, with runs of a cluster of three as witnesses; the panics
    that can and cannot happen; and two defects of the code.  Those that depend
    on what append requests carry are stated for the code, whose requests share
    the memory of the log, in RaftShared.v. *)
From S2P Require Import Prelude GoRt RaftTypes RaftNode RaftProto RaftNet RaftSpec RaftSim RaftSafety.
Open Scope Z_scope.

(** Server 0 replicates two commands to server 1 and commits the first. *)
Definition commit_42 : list (action Z) :=
  [AStart 0 (Some 42); ASend 0 3; ADeliver 0 []; ADeliver 0 []; AApply 0;
   AStart 0 (Some 43); ASend 0 4; ADeliver 0 []; AApply 1].

Section theorems.
Context {C : Type} (n : Z) (Hn : 2 ≤ n).
Implicit Types c : Config C.

(** State Machine Safety.  In every run of the cluster, whatever is lost, delayed,
    reordered or restarted, no two servers ever apply different commands for the same index. *)
Lemma cluster_state_machine_safety c i j m1 m2 :
  reachable n c → (i, m1) ∈ history c → (j, m2) ∈ history c →
  Apply_Index m1 = Apply_Index m2 → Apply_Command m1 = Apply_Command m2.
Proof.
  intros (s & _ & G)%reachable_inv H1 H2 Heq; [|done].
  pose proof (gi_history _ _ _ G) as Hh. rewrite Forall_forall in Hh.
  f_equal. eapply (chosen_unique n Hn s); [apply G|by apply Hh in H1|by apply Hh in H2|done].
Qed.

(** Refinement.  Every reachable configuration is the image of a run of the abstract Raft
    protocol: the terms and logs are those of the abstract servers, and a server that is leader
    in the code has been elected in its term by a majority, with its log as the term's log. *)
Lemma cluster_simulated c :
  reachable n c → ∃ s, rtc (λ s s', ∃ i, astep n i s s') a_init s ∧
    ∀ i, 0 ≤ i < n →
      a_term s i = currentTerm (servers c i) ∧ a_log s i = log (servers c i) ∧
      (state (servers c i) = StateLeader →
       a_lead s !! currentTerm (servers c i) = Some (i, log (servers c i)) ∧
       ∃ Q, quorum_set n Q ∧
         ∀ j, j ∈ Q → ∃ vl, a_vote s !! (j, currentTerm (servers c i)) = Some (i, vl)).
Proof.
  intros (s & Hr & G)%reachable_inv; [|done]. exists s. split; [done|]. intros i Hi.
  pose proof (gi_node _ _ _ G i Hi) as N. split_and!; [apply N|apply N|]. intros Hst.
  pose proof (ni_role _ _ _ _ N) as Hrole. unfold role_ok in Hrole. rewrite Hst in Hrole.
  destruct Hrole as (_ & _ & HL & _). split; [done|].
  destruct (ai_elec _ _ (gi_abs _ _ _ G) _ _ _ HL) as (Q & _ & ? & ?). by exists Q.
Qed.

Lemma leader_log s c i :
  NetInv n s c → 0 ≤ i < n → state (servers c i) = StateLeader →
  a_lead s !! currentTerm (servers c i) = Some (i, log (servers c i)).
Proof.
  intros G Hi Hst. pose proof (ni_role _ _ _ _ (gi_node _ _ _ G i Hi)) as Hrole.
  unfold role_ok in Hrole. rewrite Hst in Hrole. apply Hrole.
Qed.

(** C15: Election Safety.  Two servers that are leaders in the same term are the same server. *)
Theorem election_safety c i j :
  reachable n c → 0 ≤ i < n → 0 ≤ j < n →
  state (servers c i) = StateLeader → state (servers c j) = StateLeader →
  currentTerm (servers c i) = currentTerm (servers c j) → i = j.
Proof.
  intros (s & _ & G)%reachable_inv Hi Hj Hli Hlj Ht; [|done].
  pose proof (leader_log s c i G Hi Hli) as H1. pose proof (leader_log s c j G Hj Hlj) as H2.
  rewrite Ht in H1. congruence.
Qed.

(** Log Matching.  If the logs of two servers have entries of the same term at an index,
    they are identical up to that index. *)
Lemma cluster_log_matching c i j x :
  reachable n c → 0 ≤ i < n → 0 ≤ j < n →
  same_term_at x (log (servers c i)) (log (servers c j)) →
  take (S x) (log (servers c i)) = take (S x) (log (servers c j)).
Proof.
  intros (s & _ & G)%reachable_inv Hi Hj; [|done].
  rewrite <- (ni_log _ _ _ _ (gi_node _ _ _ G i Hi)), <- (ni_log _ _ _ _ (gi_node _ _ _ G j Hj)).
  eapply (agree_at (a_lead s)); apply (gi_abs _ _ _ G).
Qed.

(** Leader Completeness.  Every entry a server knows to be committed is in the log of
    every leader of that or a later term, at the same index. *)
Lemma cluster_leader_has_committed c i j x :
  reachable n c → 0 ≤ i < n → 0 ≤ j < n →
  state (servers c j) = StateLeader →
  currentTerm (servers c i) ≤ currentTerm (servers c j) →
  Z.of_nat x ≤ commitIndex (servers c i) →
  log (servers c j) !! x = log (servers c i) !! x ∧ (x < length (log (servers c j)))%nat.
Proof.
  intros (s & _ & G)%reachable_inv Hi Hj Hst Ht Hx; [|done].
  pose proof (gi_node _ _ _ G i Hi) as N. pose proof (gi_abs _ _ _ G) as I.
  destruct (commit_leader n Hn s (currentTerm (servers c j)) (log (servers c i))
    (commitIndex (servers c i)) j (log (servers c j))) as [Htk Hlt]; [done|by eapply NodeInv_wf| | |].
  - eapply (commit_ok_mono n 0 s s); [apply a_le_refl|exact Ht|apply N].
  - by apply leader_log.
  - destruct (ni_commit _ _ _ _ N) as [Hc _]. unfold go_len in *. split; [|lia].
    symmetry. eapply take_eq_lookup_1; [exact Htk|lia].
Qed.

(** Committed entries are final and common: two servers agree on every entry both know to
    be committed. *)
Theorem commit_agreement c i j x :
  reachable n c → 0 ≤ i < n → 0 ≤ j < n →
  Z.of_nat x ≤ commitIndex (servers c i) → Z.of_nat x ≤ commitIndex (servers c j) →
  log (servers c i) !! x = log (servers c j) !! x.
Proof.
  intros (s & _ & G)%reachable_inv Hi Hj Hx Hy; [|done].
  pose proof (gi_node _ _ _ G i Hi) as Ni. pose proof (gi_node _ _ _ G j Hj) as Nj.
  pose proof (gi_abs _ _ _ G) as I. eapply (take_eq_lookup_1 (S x)); [|lia].
  eapply (commit_agree n Hn s); [done|by eapply NodeInv_wf|by eapply (NodeInv_wf _ s j)|
    apply Ni|apply Nj|done..].
Qed.

(** What the service on [i] has received are the entries [1 .. lastApplied]. *)
Lemma applied_indices s c i :
  NetInv n s c → 0 ≤ i < n →
  map Apply_Index (applied c i) = seqZ 1 (lastApplied (servers c i)).
Proof.
  intros G Hi. pose proof (gi_node _ _ _ G i Hi) as N.
  pose proof (ni_applied _ _ _ _ N) as Hla. destruct (ni_commit _ _ _ _ N) as [Hc _].
  rewrite (gi_applied _ _ _ G i Hi).
  destruct (NodeInv_wf n s i _ (gi_abs _ _ _ G) N) as [_ Hw]. unfold go_len in Hc.
  apply list_eq. intros x. rewrite map_map, list_lookup_fmap, lookup_drop.
  destruct (decide (Z.of_nat x < lastApplied (servers c i))).
  - rewrite lookup_take_lt by lia.
    destruct (lookup_lt_is_Some_2 (log (servers c i)) (1 + x) ltac:(lia)) as [e He].
    rewrite He. simpl. rewrite lookup_seqZ_lt by lia. rewrite (Hw _ _ He). f_equal. lia.
  - rewrite lookup_take_ge by lia. by rewrite lookup_seqZ_ge by lia.
Qed.

(** C19: The service on a server receives the committed entries of its log in order, each
    exactly once: after a (re)start the messages on [applyCh] are those of the entries
    [1 .. lastApplied], and [lastApplied <= commitIndex]. *)
Theorem applied_in_order c i :
  reachable n c → 0 ≤ i < n →
  applied c i =
    map entry_msg (drop 1 (take (S (Z.to_nat (lastApplied (servers c i)))) (log (servers c i)))) ∧
  map Apply_Index (applied c i) = seqZ 1 (lastApplied (servers c i)) ∧
  0 ≤ lastApplied (servers c i) ≤ commitIndex (servers c i) ∧
  commitIndex (servers c i) < go_len (log (servers c i)).
Proof.
  intros (s & _ & G)%reachable_inv Hi; [|done]. pose proof (gi_node _ _ _ G i Hi) as N.
  pose proof (ni_applied _ _ _ _ N) as Hla. destruct (ni_commit _ _ _ _ N) as [Hc _].
  split_and!; [by apply G|by eapply applied_indices|lia..].
Qed.

(** ** Along a run *)

(** What the protocol remembers is kept by every later step. *)
Lemma run_sim s c c' :
  NetInv n s c → rtc (net_step n) c c' → ∃ s', NetInv n s' c' ∧
    (∀ i, a_term s i ≤ a_term s' i) ∧
    (∀ key v, a_vote s !! key = Some v → a_vote s' !! key = Some v) ∧
    lead_le (a_lead s) (a_lead s').
Proof.
  intros G Hr. revert s G. induction Hr as [c|c1 c2 c3 Hst _ IH]; intros s G.
  { exists s. split_and!; auto using lead_le_refl, Z.le_refl. }
  destruct (net_step_sim n Hn _ _ _ G Hst) as (i & s1 & Hrtc & G1).
  destruct (IH s1 G1) as (s' & G' & Ht & Hv & Hl).
  pose proof (rtc_astep_le n i s s1 (gi_abs _ _ _ G) Hrtc) as Hle.
  exists s'. split_and!; [done|..].
  - intros j. etrans; [apply Hle|apply Ht].
  - intros key v ?. by apply Hv, Hle.
  - eapply lead_le_trans; [apply Hle|done].
Qed.

(** Terms never decrease, not even across a crash and restart. *)
Theorem term_monotone c c' i :
  reachable n c → rtc (net_step n) c c' → 0 ≤ i < n →
  currentTerm (servers c i) ≤ currentTerm (servers c' i).
Proof.
  intros (s & _ & G)%reachable_inv Hr Hi; [|done].
  destruct (run_sim s c c' G Hr) as (s' & G' & Ht & _).
  rewrite <- (ni_term _ _ _ _ (gi_node _ _ _ G i Hi)), <- (ni_term _ _ _ _ (gi_node _ _ _ G' i Hi)).
  apply Ht.
Qed.

(** A server votes at most once per term: as long as it stays in a term, and even if it
    crashes and restarts in it, its vote does not change. *)
Theorem vote_once_per_term c c' i :
  reachable n c → rtc (net_step n) c c' → 0 ≤ i < n →
  currentTerm (servers c' i) = currentTerm (servers c i) →
  votedFor (servers c i) ≠ NoneId → votedFor (servers c' i) = votedFor (servers c i).
Proof.
  intros (s & _ & G)%reachable_inv Hr Hi Heq Hv; [|done].
  destruct (run_sim s c c' G Hr) as (s' & G' & _ & Hvote & _).
  pose proof (ni_vote _ _ _ _ (gi_node _ _ _ G i Hi)) as V.
  pose proof (ni_vote _ _ _ _ (gi_node _ _ _ G' i Hi)) as V'. unfold vote_ok in *.
  rewrite Heq in V'. destruct (a_vote s !! (i, currentTerm (servers c i))) as [[w vl]|] eqn:Ha; [|done].
  rewrite (Hvote _ _ Ha) in V'. destruct V, V'. congruence.
Qed.

(** Leader Append-Only.  While a server leads a term its log only grows. *)
Theorem leader_append_only c c' i :
  reachable n c → rtc (net_step n) c c' → 0 ≤ i < n →
  state (servers c i) = StateLeader → state (servers c' i) = StateLeader →
  currentTerm (servers c' i) = currentTerm (servers c i) →
  log (servers c i) `prefix_of` log (servers c' i).
Proof.
  intros (s & _ & G)%reachable_inv Hr Hi Hst Hst' Heq; [|done].
  destruct (run_sim s c c' G Hr) as (s' & G' & _ & _ & Hle).
  pose proof (leader_log s c i G Hi Hst) as HL. pose proof (leader_log s' c' i G' Hi Hst') as HL'.
  destruct (Hle _ _ _ HL) as (suf & HL2 & _). rewrite Heq, HL2 in HL'. exists suf. congruence.
Qed.

(** Committed entries survive: an entry a server knows to be committed is, in every later
    configuration, in the log of every server that knows that index to be committed. *)
Theorem commit_durable c c' i j x :
  reachable n c → rtc (net_step n) c c' → 0 ≤ i < n → 0 ≤ j < n →
  Z.of_nat x ≤ commitIndex (servers c i) → Z.of_nat x ≤ commitIndex (servers c' j) →
  log (servers c' j) !! x = log (servers c i) !! x.
Proof.
  intros (s & _ & G)%reachable_inv Hr Hi Hj Hx Hy; [|done].
  pose proof (gi_node _ _ _ G i Hi) as N. pose proof (NodeInv_wf n s i _ (gi_abs _ _ _ G) N) as Hw.
  pose proof (ni_commit _ _ _ _ N) as Hc. clear N.
  assert (∃ s', NetInv n s' c' ∧ ∃ T, commit_ok n s' T (log (servers c i)) (commitIndex (servers c i)))
    as (s' & G' & T & Hc').
  { revert Hc. generalize (log (servers c i)) (commitIndex (servers c i))
      (currentTerm (servers c i)). intros l ci T Hc. clear Hx Hw. revert s G Hc.
    induction Hr as [c|c1 c2 c3 Hst _ IH]; intros s G Hc; [by eauto|].
    destruct (net_step_sim n Hn _ _ _ G Hst) as (k & s1 & Hrtc & G1).
    apply (IH Hy s1 G1). eapply (commit_ok_mono n k s); [|reflexivity|done].
    eapply rtc_astep_le; [apply G|done]. }
  pose proof (gi_node _ _ _ G' j Hj) as N'. eapply (take_eq_lookup_1 (S x)); [|lia].
  eapply (commit_agree n Hn s'); [apply G'|eapply (NodeInv_wf _ s' j); [apply G'|done]|done|
    apply N'|exact Hc'|done..].
Qed.

(** C28: In a cluster of at least two servers a crash loses nothing that matters.  Restarting a
    server from a copy of its persister succeeds at any time, and gives it back the term, the vote
    and the log it had.  (A single server wins its election before it persists anything:
    [single_server_forgets].) *)
Theorem restart_durable c i rs :
  reachable n c → 0 ≤ i < n →
  ∃ c', net_exec n (ARestart i rs) c = Some c' ∧
    currentTerm (servers c' i) = currentTerm (servers c i) ∧
    votedFor (servers c' i) = votedFor (servers c i) ∧
    log (servers c' i) = log (servers c i) ∧ state (servers c' i) = StateFollower.
Proof.
  intros (s & _ & G)%reachable_inv Hi; [|done].
  destruct (Make_restores (servers c i) (peers (servers c i)) rs (gi_persist _ _ _ G i Hi))
    as (r' & HM & ? & ? & ? & _ & _ & _ & _ & ? & _).
  cbn [net_exec]. rewrite (proj2 (valid_id_spec n i) Hi), HM.
  eexists. split; [done|]. simpl. rewrite fn_lookup_insert. done.
Qed.

(** ** Run-time panics *)

Lemma request_served c k m rs :
  reachable n c → net c !! k = Some (Request m) →
  ∃ o r', serve m (with_rand rs c (Msg_To m)) = Ok (o, r').
Proof.
  intros (s & _ & G)%reachable_inv Hk; [|done].
  pose proof (Forall_lookup_1 _ _ _ _ (gi_net _ _ _ G) Hk) as Hm. simpl in Hm.
  destruct (wp_total _ _ _ (serve_sim n Hn _ s (Msg_To m) (with_rand rs c (Msg_To m)) m (gi_abs _ _ _ G)
    (NodeInv_rand _ _ _ _ _ (gi_node _ _ _ G _ (proj1 (proj2 Hm)))) eq_refl Hm)) as (o & r' & H & _). eauto.
Qed.

(** The entries that [Detail] prints are within the log. *)
Lemma detail_returns c i text :
  reachable n c → 0 ≤ i < n → ∃ d, Detail text (servers c i) = Ok (d, servers c i).
Proof.
  intros (s & _ & G)%reachable_inv Hi; [|done]. pose proof (gi_node _ _ _ G i Hi) as N.
  pose proof (ni_applied _ _ _ _ N). destruct (ni_commit _ _ _ _ N) as [? _].
  unfold Detail, bind, get. rewrite go_slice_tail by lia. by eexists.
Qed.

(** In a reachable configuration whose terms are below the largest [int], no check and no
    index of the code fails when the ticker fires while fewer than ten ticks wait, a waiting tick is
    processed, a client command starts, a request is served, committed entries are applied, or a
    server restarts: each of them returns. *)
Lemma cluster_handlers_return c :
  reachable n c → bounded n c = true →
  (∀ i, 0 ≤ i < n → tickc (servers c i) < 10 → ∃ r', Tick (servers c i) = Ok (tt, r')) ∧
  (∀ i rs, 0 ≤ i < n → ∃ r', run_tick (with_rand rs c i) = Ok (tt, r')) ∧
  (∀ i cmd, 0 ≤ i < n → ∃ a r', Start cmd (servers c i) = Ok (a, r')) ∧
  (∀ k m rs, net c !! k = Some (Request m) → ∃ o r', serve m (with_rand rs c (Msg_To m)) = Ok (o, r')) ∧
  (∀ i, 0 ≤ i < n → ∃ ms r', stateMachine_recv (servers c i) = Ok (ms, r')) ∧
  (∀ i ps pers rs, ∃ r', Make (C := C) ps i pers rs = Ok r').
Proof.
  intros Hr Hb. destruct (reachable_inv n Hn c Hr) as (s & _ & G). pose proof (gi_abs _ _ _ G) as I.
  assert (∀ A (m : M (Raft C) A) Q r, wp (λ _, False) m Q r → ∃ a r', m r = Ok (a, r')) as Hok.
  { intros A m Q r Hwp. destruct (m r) as [[a r']|w] eqn:H; [eauto|].
    by destruct (wp_panicked _ _ _ _ _ Hwp H). }
  split_and!.
  - intros i Hi Ht. unfold Tick, bind, get. by rewrite (proj2 (Z.ltb_lt _ _) Ht); eexists.
  - intros i rs Hi. destruct (Hok _ run_tick _ _ (run_tick_sim n Hn s i (with_rand rs c i) I
      (NodeInv_rand _ _ _ _ _ (gi_node _ _ _ G i Hi)) Hi (bounded_spec n c i Hb Hi)
      (gi_persist _ _ _ G i Hi))) as ([] & r' & H). eauto.
  - intros i cmd Hi. eapply Hok, (Start_sim n s i); auto; by apply G.
  - intros k m rs. by apply request_served.
  - intros i Hi. eapply Hok, (stateMachine_recv_sim n s i); auto; by apply G.
  - intros i ps pers rs. destruct (Make_spec ps i pers rs) as (r' & H & _). eauto.
Qed.


End theorems.

(** ** The properties on a run of three servers *)

Definition demo : Config Z := after (elect_0 ++ commit_42).

Lemma demo_reachable : reachable 3 demo.
Proof. apply after_reachable. vm_compute. reflexivity. Qed.

Definition elected : Config Z := after elect_0.

Lemma elected_reachable : reachable 3 elected.
Proof. apply after_reachable. vm_compute. reflexivity. Qed.

Lemma elected_to_demo : rtc (net_step 3) elected demo.
Proof. apply after_steps. vm_compute. reflexivity. Qed.

Lemma election_safety_witness :
  state (servers demo 0) = StateLeader ∧ (0 : Z) = 0.
Proof.
  split; [vm_compute; reflexivity|].
  apply (election_safety 3 ltac:(lia) demo 0 0 demo_reachable); try lia;
    vm_compute; reflexivity.
Defined.

Lemma commit_agreement_witness : log (servers demo 0) !! 1%nat = log (servers demo 1) !! 1%nat.
Proof.
  apply (commit_agreement 3 ltac:(lia) demo 0 1 1 demo_reachable); try lia;
    vm_compute; discriminate.
Defined.

Lemma applied_in_order_witness :
  applied demo 0 = [mkApplyMsg 1 (Some 42)] ∧
  map Apply_Index (applied demo 0) = seqZ 1 (lastApplied (servers demo 0)).
Proof.
  split; [vm_compute; reflexivity|].
  apply (applied_in_order 3 ltac:(lia) demo 0 demo_reachable). lia.
Defined.

Lemma term_monotone_witness :
  currentTerm (servers elected 2) ≤ currentTerm (servers demo 2).
Proof.
  apply (term_monotone 3 ltac:(lia) _ _ 2 elected_reachable elected_to_demo). lia.
Defined.

Lemma vote_once_per_term_witness :
  votedFor (servers elected 1) = 0 ∧
  votedFor (servers demo 1) = votedFor (servers elected 1).
Proof.
  split; [vm_compute; reflexivity|].
  apply (vote_once_per_term 3 ltac:(lia) _ _ 1 elected_reachable elected_to_demo); try lia;
    vm_compute; [reflexivity|discriminate].
Defined.

Lemma leader_append_only_witness :
  log (servers elected 0) `prefix_of` log (servers demo 0).
Proof.
  apply (leader_append_only 3 ltac:(lia) _ _ 0 elected_reachable elected_to_demo); try lia;
    vm_compute; reflexivity.
Defined.

Lemma commit_durable_witness : log (servers demo 1) !! 1%nat = log (servers demo 0) !! 1%nat.
Proof.
  apply (commit_durable 3 ltac:(lia) demo demo 0 1 1 demo_reachable); try lia; [apply rtc_refl|..];
    vm_compute; discriminate.
Defined.

Lemma restart_durable_witness :
  ∃ c', net_exec 3 (ARestart 1 []) demo = Some c' ∧ currentTerm (servers c' 1) = 2.
Proof.
  destruct (restart_durable 3 ltac:(lia) demo 1 [] demo_reachable) as (c' & H & Ht & _); [lia|].
  exists c'. split; [done|]. rewrite Ht. vm_compute. reflexivity.
Defined.

(** ** Two defects *)

(** Server 0 leads term 2 and takes five commands; deposed by the candidacy of server 1 it
    leads term 4, and its request to server 2, for position 5, stays in the network.  Server 2
    leads term 5 and makes server 0 drop its five entries.  Server 0 leads term 6; server 2,
    now in term 6 too, refuses the old request. *)
Definition stale_run : list (action Z) :=
  elect_0 ++ replicate 5 (AStart 0 (Some 7)) ++ ticks 1 10 ++
  [ASend 1 0; ADeliver 0 [0]; ALose 0] ++
  ticks 0 10 ++ [ASend 0 13; ADeliver 0 [0]; ADeliver 0 [0]; ASend 0 15] ++
  ticks 2 40 ++ [ASend 2 7; ADeliver 1 [0]; ADeliver 1 [0]; AStart 2 (Some 9); ASend 2 9;
                 ADeliver 1 [0]; ALose 1] ++
  ticks 0 10 ++ [ASend 0 15; ADeliver 1 [0]; ADeliver 1 [0]; ASend 0 15; ADeliver 1 [0];
                 ALose 1; ADeliver 0 [0]].

Definition first_packet (c : Config Z) : Message Z :=
  match net c with
  | Response m :: _ | Request m :: _ => m
  | [] => mkMessage MsgState 0 0 0 0 false None EmptyString NoArgs NoReply
  end.

Lemma stale_run_reachable : reachable 3 (after stale_run).
Proof. apply after_reachable. vm_compute. reflexivity. Qed.

Lemma stale_run_packet :
  net (after stale_run) !! 0%nat = Some (Response (first_packet (after stale_run))).
Proof. vm_compute. reflexivity. Qed.

Lemma stale_run_panics :
  Step (first_packet (after stale_run))
    (with_rand [] (after stale_run) (Msg_To (first_packet (after stale_run)))) = Panic index_panic.
Proof. vm_compute. reflexivity. Qed.

(** C38: A leader can crash on a late reply: a cluster of three reaches a configuration in
    which delivering a response makes [stepLeader] index its log out of range. *)
Theorem stale_refusal_crashes_leader :
  ∃ (c : Config Z) k m, reachable 3 c ∧ net c !! k = Some (Response m) ∧
    Step m (with_rand [] c (Msg_To m)) = Panic index_panic.
Proof.
  exists (after stale_run), 0%nat, (first_packet (after stale_run)).
  split_and!; [apply stale_run_reachable|apply stale_run_packet|apply stale_run_panics].
Qed.


(** With one server [campaign] wins and returns before any [persist], so that a restart takes the
    server back to the first term. *)
Lemma single_server_forgets :
  (λ c, (state (servers c 0), currentTerm (servers c 0))) <$> net_run 1 (ticks 0 10) (boot (C := Z) 1) =
    Some (StateLeader, 2) ∧
  (λ c, currentTerm (servers c 0)) <$> net_run 1 (ticks 0 10 ++ [ARestart 0 []]) (boot (C := Z) 1) = Some 1.
Proof. split; vm_compute; reflexivity. Qed.

Section conflict.
Context {C : Type}.

Lemma wp_any {A} (m : M (Raft C) A) r : wp (λ _, True) m (λ _ _, True) r.
Proof. unfold wp. by destruct (m r) as [[a r']|]. Qed.

Lemma wp_skip {A B} (m : M (Raft C) A) (k : A → M (Raft C) B) Q r :
  (∀ a r', wp (λ _, True) (k a) Q r') → wp (λ _, True) (bind m k) Q r.
Proof. intros H. apply wp_bind. eapply wp_mono; [apply wp_any|]. auto. Qed.

(** The fast roll back of a refused request is never used: whatever the follower's log,
    the reply of [handleAppendEntries] carries a [ConflictIndex] of 0 or -1, although
    the comments promise the first index of the conflicting term (the loop that computes it
    assigns a variable that shadows the one returned). *)
Theorem conflict_index_never_found (r r' : Raft C) m m' :
  m.(Msg_reply) = AppReply AppendEntiesReply_zero → handleAppendEntries m r = Ok (m', r') →
  ∃ p, m'.(Msg_reply) = AppReply p ∧ (p.(AER_ConflictIndex) = 0 ∨ p.(AER_ConflictIndex) = -1).
Proof.
  intros Hrep H. revert H. apply (wp_ok (λ _, True) _ (λ m' _, ∃ p, m'.(Msg_reply) = AppReply p ∧
    (p.(AER_ConflictIndex) = 0 ∨ p.(AER_ConflictIndex) = -1))).
  unfold handleAppendEntries. apply wp_bind.
  eapply (wp_mono _ _ (λ p _, AER_ConflictIndex p = 0 ∨ AER_ConflictIndex p = -1)).
  - unfold handleAppendEntries_body. apply wp_skip. intros args r1. rewrite Hrep. simpl. wp_steps.
    case_test; [wp_steps; by left|]. apply wp_skip. intros ok r2. apply wp_bind.
    eapply (wp_mono _ _ (λ p _, AER_ConflictIndex p = 0 ∨ AER_ConflictIndex p = -1)).
    + destruct ok.
      * do 4 (apply wp_skip; intros ? ?). wp_steps. by left.
      * apply wp_skip. intros li r3. apply wp_bind. case_test.
        -- do 2 (apply wp_skip; intros ? ?). wp_steps. by left.
        -- wp_steps. by right.
    + intros p r3 Hp. case_test; [by apply wp_panic|]. wp_steps. done.
  - intros p r1 Hp. apply wp_skip. intros li r2. case_test; [by apply wp_panic|]. wp_steps.
    by exists p.
Qed.
End conflict.

(** A follower whose last two entries are of term 2 refuses a request whose previous entry is
    of term 3: the conflicting term is reported, its first index is not. *)
Definition refused : Message Z :=
  mkMessage MsgApp 1 0 3 0 false None EmptyString
    (AppArgs (mkAppendEntiesArgs 3 1 0 2 3 [])) (AppReply AppendEntiesReply_zero).
Definition refusing : Raft Z :=
  set_log [mkLog 1 None 0; mkLog 2 (Some 5) 1; mkLog 2 (Some 6) 2]
    (set_currentTerm 3 (new_Raft [0; 1; 2] 0 MakePersister [])).

Lemma conflict_index_never_found_witness :
  ∃ m' r', handleAppendEntries refused refusing = Ok (m', r') ∧
    ∃ p, m'.(Msg_reply) = AppReply p ∧ (p.(AER_ConflictIndex) = 0 ∨ p.(AER_ConflictIndex) = -1).
Proof.
  destruct (handleAppendEntries refused refusing) as [[m' r']|] eqn:H; [|by vm_compute in H].
  exists m', r'. split; [done|].
  exact (conflict_index_never_found refusing r' refused m' eq_refl H).
Defined.
