(* ===== verification/RaftSends.v ===== *)
(** * What the handlers of a Raft peer send

    Every operation of a peer adds requests to [propc] and takes none away, and
    the requests it adds are those of the peer as the operation leaves it: from
    the peer itself, with the service method, the argument type and the reply
    type that belong together, and with the entries of its log
    ([spawns], one lemma per operation).  So no request is ever ill typed
    ([messages_typed]), although [Message] holds its arguments as [interface{}]. *)
From S2P Require Import Prelude GoRt RaftTypes RaftNode RaftNet RaftSpec RaftSim RaftSafety.
Open Scope Z_scope.

Section sends.
Context {C : Type}.
Local Abbreviation Raft := (RaftTypes.Raft C).
Local Abbreviation Message := (RaftTypes.Message C).
Local Abbreviation RM := (M Raft).
Implicit Types (r : Raft) (m : Message).

(** The dynamic types of a request and the method it calls. *)
Definition request_typed m : Prop :=
  match m.(Msg_args) with
  | VoteArgs _ => m.(Msg_Type) = MsgVote ∧ m.(Msg_svcMeth) = "Raft.RequestVote" ∧
      m.(Msg_reply) = VoteReply RequestVoteReply_zero
  | AppArgs _ => m.(Msg_Type) = MsgApp ∧ m.(Msg_svcMeth) = "Raft.AppendEnties" ∧
      m.(Msg_reply) = AppReply AppendEntiesReply_zero
  | NoArgs => False
  end.

Definition response_typed m : Prop :=
  match m.(Msg_args), m.(Msg_reply) with
  | VoteArgs _, VoteReply _ => m.(Msg_Type) = MsgVoteResp
  | AppArgs _, AppReply _ => m.(Msg_Type) = MsgAppResp
  | _, _ => False
  end.

Definition packet_typed (p : packet C) : Prop :=
  match p with Request m => request_typed m | Response m => response_typed m end.

(** The entries of an append request are the tail of a log. *)
Definition tail_of (l : list (Log C)) (a : AppendEntiesArgs C) : Prop :=
  0 ≤ a.(AEA_PrevLogIndex) < go_len l ∧
  a.(AEA_Entries) = drop (Z.to_nat (a.(AEA_PrevLogIndex) + 1)) l.

Definition entries_of (l : list (Log C)) m : Prop :=
  match m.(Msg_args) with AppArgs a => tail_of l a | _ => True end.

Definition sent_by r m : Prop :=
  m.(Msg_From) = me r ∧ request_typed m ∧ entries_of (log r) m.

(** ** Operations that add requests *)

(** What [sent_by] reads of a peer, and its waiting requests. *)
Definition outgoing r : Z * list (Log C) * list Message := (me r, log r, propc r).

Definition spawns {A} (f : RM A) : Prop :=
  ∀ r a r', f r = Ok (a, r') → ∃ ms, propc r' = propc r ++ ms ∧ Forall (sent_by r') ms.

(** [f] adds requests and leaves the rest of [outgoing] alone. *)
Definition adds {A} (f : RM A) : Prop :=
  ∀ r a r', f r = Ok (a, r') → me r' = me r ∧ log r' = log r ∧
    ∃ ms, propc r' = propc r ++ ms ∧ Forall (sent_by r) ms.

Lemma sent_by_same r r' m : me r' = me r → log r' = log r → sent_by r m → sent_by r' m.
Proof. unfold sent_by. intros -> ->. done. Qed.

Lemma quiet_spawns {A} (f : RM A) : keeps propc f → spawns f.
Proof. intros Hk r a r' H. exists []. rewrite app_nil_r. split; [by eapply Hk|done]. Qed.

Lemma adds_spawns {A} (f : RM A) : adds f → spawns f.
Proof.
  intros Ha r a r' H. destruct (Ha _ _ _ H) as (Hm & Hl & ms & Hp & Hf). exists ms. split; [done|].
  eapply Forall_impl; [done|]. intros m. by apply sent_by_same.
Qed.

Lemma spawns_after {A B} (f : RM A) (k : A → RM B) :
  keeps propc f → (∀ a, spawns (k a)) → spawns (bind f k).
Proof.
  intros Hf Hk r b r' H. unfold bind in H. destruct (f r) as [[a r1]|] eqn:E; [|done].
  destruct (Hk _ _ _ _ H) as (ms & Hp & Hms). exists ms. split; [|done].
  rewrite Hp. by rewrite (Hf _ _ _ E).
Qed.

Lemma spawns_before {A B} (f : RM A) (k : A → RM B) :
  spawns f → (∀ a, keeps outgoing (k a)) → spawns (bind f k).
Proof.
  intros Hf Hk r b r' H. unfold bind in H. destruct (f r) as [[a r1]|] eqn:E; [|done].
  destruct (Hf _ _ _ E) as (ms & Hp & Hms). apply Hk in H. injection H as Hm Hl Hq.
  exists ms. split; [congruence|]. eapply Forall_impl; [done|]. intros m. by apply sent_by_same.
Qed.

Lemma adds_nothing {A} (f : RM A) : keeps outgoing f → adds f.
Proof.
  intros Hk r a r' H. apply Hk in H. injection H as Hm Hl Hq. split_and!; [done..|].
  exists []. by rewrite app_nil_r.
Qed.

Lemma adds_seq {A B} (f : RM A) (k : A → RM B) : adds f → (∀ a, adds (k a)) → adds (bind f k).
Proof.
  intros Hf Hk r b r' H. unfold bind in H. destruct (f r) as [[a r1]|] eqn:E; [|done].
  destruct (Hf _ _ _ E) as (Hm & Hl & ms & Hp & Hms).
  destruct (Hk _ _ _ _ H) as (Hm' & Hl' & ms' & Hp' & Hms').
  split_and!; [congruence..|]. exists (ms ++ ms'). rewrite Hp', Hp, app_assoc. split; [done|].
  apply Forall_app. split; [done|]. eapply Forall_impl; [done|]. intros m. by apply sent_by_same.
Qed.

Lemma adds_for_range {A} (l : list A) body : (∀ x, adds (body x)) → adds (for_range l body).
Proof.
  intros Hb. induction l as [|x l IH]; simpl; [by apply adds_nothing, keeps_ret|].
  by apply adds_seq; [|intros _].
Qed.

(** ** The operations of the peer *)

(** Operations that only read. *)
Lemma must_same {A} w (o : option A) r a r' : must w o r = Ok (a, r') → r' = r.
Proof. destruct o; [|done]. by intros [= _ ->]. Qed.
Lemma log_at_same i r l r' : log_at i r = Ok (l, r') → r' = r.
Proof. unfold log_at, bind, get. apply must_same. Qed.
Lemma lastIndex_same r i r' : lastIndex r = Ok (i, r') → r' = r.
Proof.
  unfold lastIndex, bind, get. destruct (log_at _ r) as [[l r1]|] eqn:E; [|done].
  apply log_at_same in E as ->. by intros [= _ ->].
Qed.

Local Abbreviation unseen := (keeps outgoing).
Local Abbreviation quiet := (keeps (propc (C := C))).

Lemma persist_unseen : unseen persist.
Proof. unfold persist. keeps_tac. Qed.
Lemma lastIndex_unseen : unseen lastIndex.
Proof. unfold lastIndex, log_at. keeps_tac. Qed.
Lemma lastTerm_unseen : unseen lastTerm.
Proof. unfold lastTerm, lastIndex, log_at. keeps_tac. Qed.

Lemma bcastRequestVoteRPC_adds : adds bcastRequestVoteRPC.
Proof.
  apply adds_seq; [apply adds_nothing, persist_unseen|]. intros _.
  apply adds_seq; [apply adds_nothing, keeps_get|]. intros r0. apply adds_for_range. intros i r a r' H.
  unfold bind at 1, get at 1 in H. destruct (negb _); [|by apply (adds_nothing _ (keeps_ret _ _)) in H].
  unfold bind in H. destruct (lastIndex r) as [[li r1]|] eqn:E1; [|done].
  destruct (lastTerm r1) as [[lt r2]|] eqn:E2; [|done].
  apply lastIndex_unseen in E1. apply lastTerm_unseen in E2. rewrite E1 in E2. injection E2 as Hm Hl Hq.
  injection H as _ <-. simpl. split_and!; [done..|]. eexists [_]. rewrite Hq. split; [done|]. by constructor.
Qed.

(** The body of the loop, with its guards passed: the request made for peer [i]. *)
Lemma append_request_tail r prev li lt ents :
  (prev <? 0) || (prev >? li) = false → log_at prev r = Ok (lt, r) →
  go_slice (log r) (prev + 1) (go_len (log r)) = Some ents →
  0 ≤ prev < go_len (log r) ∧ ents = drop (Z.to_nat (prev + 1)) (log r).
Proof.
  intros [Hp _]%orb_false_iff Hat Hsl. apply Z.ltb_ge in Hp. unfold log_at, bind, get, must in Hat.
  destruct (go_at (log r) prev) as [l|] eqn:E; [|done].
  apply go_at_Some in E as [_ E%lookup_lt_Some]. assert (prev < go_len (log r)) by (unfold go_len; lia).
  rewrite go_slice_tail in Hsl by lia. by injection Hsl as <-.
Qed.

Lemma bcastAppend_adds : adds bcastAppend.
Proof.
  apply adds_seq; [apply adds_nothing, persist_unseen|]. intros _.
  apply adds_seq; [apply adds_nothing, keeps_get|]. intros r0. apply adds_for_range. intros i r a r' H.
  unfold bind at 1, get at 1 in H. destruct (negb _); [|by apply (adds_nothing _ (keeps_ret _ _)) in H].
  unfold bind in H. destruct (must _ (go_at (nextIndex r) i) r) as [[ni r1]|] eqn:E0; [|done].
  apply must_same in E0 as ->. destruct (lastIndex r) as [[li r1]|] eqn:E1; [|done].
  apply lastIndex_same in E1 as ->. destruct (_ || _) eqn:Hb; [done|].
  destruct (log_at (ni - 1) r) as [[pl r2]|] eqn:E2; [|done]. pose proof E2 as E3. apply log_at_same in E3 as ->.
  destruct (must _ (go_slice _ _ _) r) as [[ents r3]|] eqn:E4; [|done].
  pose proof E4 as E5. apply must_same in E5 as ->. unfold must in E4.
  destruct (go_slice _ _ _) as [es|] eqn:Hs; [|done]. injection E4 as ->.
  injection H as _ <-. split_and!; [done..|]. eexists [_]. split; [done|]. constructor; [|done].
  split_and!; [done..|]. exact (append_request_tail r (ni - 1) li pl ents Hb E2 Hs).
Qed.

Lemma lastIndex_quiet : quiet lastIndex.
Proof. unfold lastIndex, log_at. keeps_tac. Qed.
Lemma log_at_quiet i : quiet (log_at i).
Proof. unfold log_at. keeps_tac. Qed.
Lemma persist_quiet : quiet persist.
Proof. unfold persist. keeps_tac. Qed.
Lemma log_line_quiet : quiet log_line.
Proof. unfold log_line, lastTerm, lastIndex, log_at. keeps_tac. Qed.
Lemma term_quiet i : quiet (term i).
Proof. unfold term, log_at. keeps_tac. Qed.
Hint Resolve lastIndex_quiet log_at_quiet persist_quiet log_line_quiet term_quiet : keeps.
Lemma matchTerm_quiet i t : quiet (matchTerm i t).
Proof. unfold matchTerm. keeps_tac. Qed.
Lemma commitTo_quiet c : quiet (commitTo c).
Proof. unfold commitTo. keeps_tac. Qed.
Hint Resolve matchTerm_quiet commitTo_quiet : keeps.
Lemma findConflict_quiet ents : quiet (findConflict ents).
Proof. induction ents; simpl; keeps_tac. Qed.
Lemma conflict_scan_quiet ct x : quiet (conflict_scan ct x).
Proof. induction x; simpl; keeps_tac. Qed.
Lemma conflict_find_quiet ct x : quiet (conflict_find ct x).
Proof. induction x; cbn [conflict_find]; keeps_tac. Qed.
Lemma appendLog_quiet ents : quiet (appendLog ents).
Proof. unfold appendLog. keeps_tac. Qed.
Lemma reset_quiet t : quiet (reset t).
Proof. unfold reset, resetRandomizedElectionTimeout, Intn. keeps_tac. Qed.
Hint Resolve findConflict_quiet conflict_scan_quiet conflict_find_quiet appendLog_quiet
  reset_quiet : keeps.
Lemma becomeFollower_quiet t l : quiet (becomeFollower t l).
Proof. unfold becomeFollower. keeps_tac. Qed.
Lemma becomeCandidate_quiet : quiet becomeCandidate.
Proof. unfold becomeCandidate. keeps_tac. Qed.
Lemma becomeLeader_quiet : quiet becomeLeader.
Proof. unfold becomeLeader, set_nextIndex_at. keeps_tac. Qed.
Lemma poll_quiet id v : quiet (poll id v).
Proof. unfold poll. keeps_tac. Qed.
Lemma updateCommitIndex_quiet : quiet updateCommitIndex.
Proof. unfold updateCommitIndex. keeps_tac. Qed.
Hint Resolve becomeFollower_quiet becomeCandidate_quiet becomeLeader_quiet poll_quiet
  updateCommitIndex_quiet : keeps.
Lemma handleAppendEntries_quiet m : quiet (handleAppendEntries m).
Proof.
  unfold handleAppendEntries, handleAppendEntries_body, as_AppArgs, as_AppReply, checkLog.
  keeps_tac.
Qed.
Hint Resolve handleAppendEntries_quiet : keeps.
Hint Resolve persist_unseen : keeps.

(** The operation sends at most in one place, with quiet operations before it and operations
    that change nothing of [outgoing] behind it. *)
Ltac spawns_tac :=
  repeat lazymatch goal with
  | |- spawns (bind _ _) =>
      first [apply spawns_after; [solve [keeps_tac]|intros ?]
            |apply spawns_before; [|intros ?; solve [keeps_tac]]]
  | |- spawns (match ?x with _ => _ end) => destruct x
  | |- spawns bcastAppend => apply adds_spawns, bcastAppend_adds
  | |- spawns bcastRequestVoteRPC => apply adds_spawns, bcastRequestVoteRPC_adds
  | |- spawns _ => apply quiet_spawns; solve [keeps_tac]
  end.

Lemma run_step_spawns m : spawns (run_step m).
Proof.
  unfold run_step, stepFollower, stepCandidate, stepLeader, reqMoreUpToDate, set_nextIndex_at,
    set_matchIndex_at, as_AppArgs, as_AppReply, as_VoteArgs, as_VoteReply.
  spawns_tac.
Qed.

Lemma Step_spawns m : spawns (Step m).
Proof.
  unfold Step. apply spawns_after; [keeps_tac|]. intros r.
  apply spawns_before; [|intros; keeps_tac].
  destruct (_ >? _); [|destruct (_ <? _)].
  - apply spawns_after; [keeps_tac|]. intros _. apply run_step_spawns.
  - unfold refuse_stale, as_AppReply, as_VoteReply. spawns_tac.
  - apply run_step_spawns.
Qed.

Lemma serve_spawns m : spawns (serve m).
Proof.
  unfold serve, RequestVote, AppendEnties, as_AppReply, as_VoteReply.
  destruct (Msg_args m); [spawns_tac|..]; (apply spawns_before; [|intros; keeps_tac]);
    (apply spawns_after; [keeps_tac|intros r]); (apply spawns_before; [apply Step_spawns|intros; keeps_tac]).
Qed.

Lemma run_tick_spawns : spawns run_tick.
Proof. unfold run_tick, tickElection, tickHeartbeat, campaign. spawns_tac. Qed.

Lemma Start_spawns cmd : spawns (Start cmd).
Proof.
  unfold Start, handleCommand, handleStart, set_nextIndex_at, set_matchIndex_at. cbn [Msg_Type].
  spawns_tac.
Qed.

Lemma Tick_quiet : quiet Tick.
Proof. unfold Tick. keeps_tac. Qed.
Lemma apply_entries_quiet i k : quiet (apply_entries i k).
Proof. revert i. induction k; intros i; simpl; keeps_tac. Qed.
Hint Resolve apply_entries_quiet : keeps.
Lemma stateMachine_recv_quiet : quiet stateMachine_recv.
Proof. unfold stateMachine_recv. keeps_tac. Qed.
Lemma Kill_quiet : quiet Kill.
Proof. unfold Kill. keeps_tac. Qed.

(** ** The cluster *)

Implicit Types c : Config C.

(** A computation run at server [i] of the cluster. *)
Lemma ran_spawns {A} (f : RM A) c i r0 a r' :
  f r0 = Ok (a, r') → spawns f → keeps me f →
  me r0 = me (servers c i) → propc r0 = propc (servers c i) → ∀ j, let s := servers c j in let s' := (<[i := r']> (servers c)) j in
    me s' = me s ∧ ∃ ms, propc s' = propc s ++ ms ∧ Forall (sent_by s') ms.
Proof.
  intros H Hs Hk Hm Hp j. simpl. destruct (decide (j = i)) as [->|].
  - rewrite fn_lookup_insert, <- Hm, <- Hp. split; [by eapply Hk|by eapply Hs].
  - rewrite fn_lookup_insert_ne by done. split; [done|]. exists []. by rewrite app_nil_r.
Qed.

Lemma same_me {A} (f : RM A) : keeps identity f → keeps me f.
Proof. intros H r a r' Hf. apply H in Hf. unfold identity in Hf. congruence. Qed.

(** Every action but sending and restarting only adds requests to [propc]. *)
Lemma exec_spawns n a c c' :
  net_exec n a c = Some c' → (∀ i k, a ≠ ASend i k) → (∀ i rs, a ≠ ARestart i rs) →
  ∀ j, me (servers c' j) = me (servers c j) ∧
    ∃ ms, propc (servers c' j) = propc (servers c j) ++ ms ∧ Forall (sent_by (servers c' j)) ms.
Proof.
  intros He Hs Hr. destruct a as [i|i rs|i k|k rs|k|i cmd|i|i|i rs]; cbn [net_exec] in He;
    try (by destruct (Hs i k)); try (by destruct (Hr i rs)).
  all: try (destruct (valid_id n i); [|done]); cbn [andb] in He.
  - destruct (Tick _) as [[[] r']|] eqn:H; [|done]. injection He as <-.
    apply (ran_spawns _ _ _ _ _ _ H); [by apply quiet_spawns, Tick_quiet|unfold Tick; keeps_tac|done..].
  - destruct (0 <? _); [|done]. destruct (run_tick _) as [[[] r']|] eqn:H; [|done]. injection He as <-.
    apply (ran_spawns _ _ _ _ _ _ H); [apply run_tick_spawns|apply same_me, kept_identity, run_tick_kept|done..].
  - destruct (net c !! k) as [[m|m]|]; [..|done].
    + destruct (serve _ _) as [[o r']|] eqn:H; [|done]. injection He as <-.
      apply (ran_spawns _ _ _ _ _ _ H); [apply serve_spawns|apply same_me, kept_identity, serve_kept|done..].
    + destruct (Step _ _) as [[o r']|] eqn:H; [|done]. injection He as <-.
      apply (ran_spawns _ _ _ _ _ _ H); [apply Step_spawns|apply same_me, kept_identity, Step_kept|done..].
  - injection He as <-. intros j. split; [done|]. exists []. by rewrite app_nil_r.
  - destruct (Start _ _) as [[o r']|] eqn:H; [|done]. injection He as <-.
    apply (ran_spawns _ _ _ _ _ _ H); [apply Start_spawns|apply same_me, kept_identity, Start_kept|done..].
  - destruct (stateMachine_recv _) as [[ms r']|] eqn:H; [|done]. injection He as <-.
    apply (ran_spawns _ _ _ _ _ _ H); [apply quiet_spawns, stateMachine_recv_quiet|apply same_me, stateMachine_recv_identity|done..].
  - destruct (Kill _) as [[[] r']|] eqn:H; [|done]. injection He as <-.
    apply (ran_spawns _ _ _ _ _ _ H); [apply quiet_spawns, Kill_quiet|unfold Kill; keeps_tac|done..].
Qed.

Lemma Make_fresh ps i (p : Persister C) rs r : Make ps i p rs = Ok r → me r = i ∧ propc r = [].
Proof.
  intros H. destruct (Make_spec ps i p rs) as (r1 & H1 & _ & Hm & _ & _ & _ & _ & _ & _ & _ & _ & Hp & _).
  rewrite H in H1. by injection H1 as <-.
Qed.

(** Sending takes one request; restarting drops all of them. *)
Lemma exec_send n i k c c' :
  net_exec n (ASend i k) c = Some c' →
  ∃ o, o = propc (servers c i) !! k ∧ net c' = net c ++ opt_packet Request o ∧
    servers c' = <[i := set_propc (delete k (propc (servers c i))) (servers c i)]> (servers c).
Proof.
  cbn [net_exec]. destruct (valid_id n i); [|done]. unfold serveChannels_take, bind, get.
  destruct (propc (servers c i) !! k) as [m|] eqn:E; intros [= <-].
  - by exists (Some m).
  - exists None. split_and!; [done..|]. rewrite delete_missing by done. simpl. f_equal.
    by destruct (servers c i).
Qed.

Lemma exec_restart n i rs c c' :
  net_exec n (ARestart i rs) c = Some c' → net c' = net c ∧
  ∃ r, me r = me (servers c i) ∧ propc r = [] ∧ servers c' = <[i := r]> (servers c).
Proof.
  cbn [net_exec]. destruct (valid_id n i); [|done]. destruct (Make _ _ _ _) as [r|] eqn:H; [|done].
  intros [= <-]. split; [done|]. exists r. by destruct (Make_fresh _ _ _ _ _ H).
Qed.

(** ** Type safety *)

Definition typed_inv c : Prop :=
  (∀ i, me (servers c i) = i ∧
        Forall (λ m, Msg_From m = i ∧ request_typed m) (propc (servers c i))) ∧
  Forall packet_typed (net c).

Lemma serve_typed m r o r' :
  request_typed m → serve m r = Ok (o, r') → Forall packet_typed (opt_packet Response o).
Proof.
  unfold serve, request_typed, bind, ret. destruct m as [ty f t tm ix ld d sm args rep]. simpl.
  destruct args as [|a|a]; [done|..]; intros (-> & -> & ->).
  - destruct (RequestVote a r) as [[v r1]|]; [|done]. intros [= <- <-]. by repeat constructor.
  - destruct (AppendEnties a r) as [[v r1]|]; [|done]. intros [= <- <-]. by repeat constructor.
Qed.

Lemma action_kinds (a : action C) :
  (∃ i k, a = ASend i k) ∨ (∃ i rs, a = ARestart i rs) ∨
  ((∀ i k, a ≠ ASend i k) ∧ (∀ i rs, a ≠ ARestart i rs)).
Proof. destruct a; eauto; right; right; by split. Qed.

Lemma exec_net_typed n a c c' :
  net_exec n a c = Some c' → (∀ i k, a ≠ ASend i k) → Forall packet_typed (net c) →
  Forall packet_typed (net c').
Proof.
  intros He Hs Hn. destruct a as [i|i rs|i k|k rs|k|i cmd|i|i|i rs]; cbn [net_exec] in He;
    try (by destruct (Hs i k)).
  all: try (destruct (valid_id n i); [|done]); cbn [andb] in He.
  3: { destruct (net c !! k) as [[m|m]|] eqn:Hk; [..|done].
    - destruct (serve _ _) as [[o r']|] eqn:H; [|done]. injection He as <-. simpl.
      apply Forall_app. split; [by apply Forall_delete|]. eapply serve_typed; [|done].
      exact (Forall_lookup_1 _ _ _ _ Hn Hk).
    - destruct (Step _ _) as [[o r']|]; [|done]. injection He as <-. by apply Forall_delete. }
  3: { injection He as <-. by apply Forall_delete. }
  all: repeat case_match; try done; by injection He as <-.
Qed.

Lemma typed_inv_exec n a c c' : net_exec n a c = Some c' → typed_inv c → typed_inv c'.
Proof.
  intros He [Hs Hn]. destruct (action_kinds a) as [(i & k & ->)|[(i & rs & ->)|[Hns Hnr]]].
  - destruct (exec_send _ _ _ _ _ He) as (o & Ho & Hnet & Hsv). split.
    + intros j. rewrite Hsv. destruct (decide (j = i)) as [->|]; [|by rewrite fn_lookup_insert_ne].
      rewrite fn_lookup_insert. split; [apply Hs|]. by apply Forall_delete, Hs.
    + rewrite Hnet. apply Forall_app. split; [done|]. destruct o as [m|]; [|by constructor].
      constructor; [|done]. destruct (Hs i) as [_ Hf]. symmetry in Ho.
      by apply (Forall_lookup_1 _ _ _ _ Hf Ho).
  - destruct (exec_restart _ _ _ _ _ He) as (Hnet & r & Hm & Hp & Hsv). split; [|by rewrite Hnet].
    intros j. rewrite Hsv. destruct (decide (j = i)) as [->|]; [|by rewrite fn_lookup_insert_ne].
    rewrite fn_lookup_insert, Hp, Hm. split; [apply Hs|done].
  - pose proof (exec_spawns _ _ _ _ He Hns Hnr) as Hsp. split.
    + intros j. destruct (Hsp j) as (Hm & ms & Hp & Hms). destruct (Hs j) as [Hj Hf].
      split; [congruence|]. rewrite Hp. apply Forall_app. split; [done|].
      eapply Forall_impl; [done|]. intros m (Hfrom & Ht & _). split; [congruence|done].
    + eapply exec_net_typed; eauto.
Qed.

Lemma typed_reachable n c : reachable n c → typed_inv c.
Proof.
  intros (c0 & (Hmk & Hnet & _) & Hr). eapply (rtc_keeps (net_step n) typed_inv); [|done|].
  - intros x y (_ & a & He). by eapply typed_inv_exec.
  - split; [|by rewrite Hnet]. intros i. destruct (Hmk i) as [rs Hi].
    apply Make_fresh in Hi as [-> ->]. by split.
Qed.

(** [f] fails no type assertion, whatever the state of the peer, and its result satisfies [P]. *)
Definition assertion_panic : string := "interface conversion".
Definition safely {A} (P : A → Prop) (f : RM A) : Prop :=
  ∀ r, wp (λ w, w ≠ assertion_panic) f (λ a _, P a) r.
Local Abbreviation safe := (safely (λ _, True)).

Lemma safely_bind {A B} (P : A → Prop) (Q : B → Prop) (f : RM A) (k : A → RM B) :
  safely P f → (∀ a, P a → safely Q (k a)) → safely Q (bind f k).
Proof. intros Hf Hk r. apply wp_bind. eapply wp_mono; [apply Hf|]. intros a r' Ha. by apply Hk. Qed.
Lemma safely_ret {A} (P : A → Prop) a : P a → safely P (ret a).
Proof. intros Ha r. by apply wp_ret. Qed.
Lemma safely_must {A} w (o : option A) : w ≠ assertion_panic → safe (must w o).
Proof. intros Hw r. by destruct o; [apply wp_ret|apply wp_panic]. Qed.
Lemma safely_panic {A} (P : A → Prop) w : w ≠ assertion_panic → safely P (panic w).
Proof. intros Hw r. by apply wp_panic. Qed.
Lemma safely_for_range {A} (l : list A) body : (∀ x, safe (body x)) → safe (for_range l body).
Proof.
  intros Hb. induction l; simpl; [by apply safely_ret|]. by eapply safely_bind; [|intros _ _].
Qed.

Create HintDb safely discriminated.

Ltac safely_tac :=
  repeat lazymatch goal with
  | |- safely _ (bind _ _) => apply (safely_bind (λ _, True)); [|intros ? _]
  | |- safely _ (panic _) => apply safely_panic; discriminate
  | |- safely _ (must _ _) => apply safely_must; discriminate
  | |- safely _ (for_range _ _) => apply safely_for_range; intros ?
  | |- safely _ (match ?x with _ => _ end) => destruct x
  | |- safely _ (ret _) => apply safely_ret; try done
  | |- safely _ get => intros ?; exact I
  | |- safely _ (gets _) => intros ?; exact I
  | |- safely _ (modify _) => intros ?; exact I
  | |- safely _ _ => solve [auto with safely nocore]
  end.

Lemma lastIndex_safe : safe lastIndex.
Proof. unfold lastIndex, log_at. safely_tac. Qed.
Lemma log_at_safe i : safe (log_at i).
Proof. unfold log_at. safely_tac. Qed.
Lemma lastTerm_safe : safe lastTerm.
Proof. unfold lastTerm, lastIndex, log_at. safely_tac. Qed.
Lemma log_line_safe : safe log_line.
Proof. unfold log_line, lastTerm, lastIndex, log_at. safely_tac. Qed.
Lemma persist_safe : safe persist.
Proof. unfold persist. safely_tac. Qed.
Lemma reset_safe t : safe (reset t).
Proof. unfold reset, resetRandomizedElectionTimeout, Intn. safely_tac. Qed.
Hint Resolve lastIndex_safe log_at_safe lastTerm_safe log_line_safe persist_safe reset_safe : safely.
Lemma matchTerm_safe i t : safe (matchTerm i t).
Proof. unfold matchTerm. safely_tac. Qed.
Lemma commitTo_safe ci : safe (commitTo ci).
Proof. unfold commitTo. safely_tac. Qed.
Hint Resolve matchTerm_safe commitTo_safe : safely.
Lemma findConflict_safe ents : safe (findConflict ents).
Proof. induction ents; simpl; unfold term; safely_tac. Qed.
Lemma conflict_scan_safe ct x : safe (conflict_scan ct x).
Proof. induction x; simpl; safely_tac. Qed.
Lemma conflict_find_safe ct x : safe (conflict_find ct x).
Proof. induction x; cbn [conflict_find]; safely_tac. Qed.
Lemma appendLog_safe ents : safe (appendLog ents).
Proof. unfold appendLog. safely_tac. Qed.
Lemma becomeFollower_safe t l : safe (becomeFollower t l).
Proof. unfold becomeFollower. safely_tac. Qed.
Lemma becomeLeader_safe : safe becomeLeader.
Proof. unfold becomeLeader, set_nextIndex_at. safely_tac. Qed.
Lemma updateCommitIndex_safe : safe updateCommitIndex.
Proof. unfold updateCommitIndex. safely_tac. Qed.
Lemma bcastAppend_safe : safe bcastAppend.
Proof. unfold bcastAppend, spawn_send. safely_tac. Qed.
Lemma poll_safe id v : safe (poll id v).
Proof. unfold poll. safely_tac. Qed.
Hint Resolve findConflict_safe conflict_scan_safe conflict_find_safe appendLog_safe
  becomeFollower_safe becomeLeader_safe updateCommitIndex_safe bcastAppend_safe poll_safe : safely.

(** A message keeps the dynamic type of its reply. *)
Definition same_reply m m' : Prop :=
  match m.(Msg_reply), m'.(Msg_reply) with
  | VoteReply _, VoteReply _ => True
  | AppReply _, AppReply _ => True
  | _, _ => False
  end.

Lemma handleAppendEntries_safe m a p :
  m.(Msg_args) = AppArgs a → m.(Msg_reply) = AppReply p → safely (same_reply m) (handleAppendEntries m).
Proof.
  intros Ha Hp. unfold handleAppendEntries, handleAppendEntries_body, checkLog, same_reply.
  rewrite Ha, Hp. cbn [as_AppArgs as_AppReply]. safely_tac.
Qed.

Lemma typed_shape m :
  request_typed m ∨ response_typed m →
  (∃ a v, m.(Msg_args) = VoteArgs a ∧ m.(Msg_reply) = VoteReply v ∧
     (m.(Msg_Type) = MsgVote ∨ m.(Msg_Type) = MsgVoteResp)) ∨
  (∃ a p, m.(Msg_args) = AppArgs a ∧ m.(Msg_reply) = AppReply p ∧
     (m.(Msg_Type) = MsgApp ∨ m.(Msg_Type) = MsgAppResp)).
Proof.
  unfold request_typed, response_typed. destruct (Msg_args m), (Msg_reply m); naive_solver.
Qed.

Lemma run_step_safe m : request_typed m ∨ response_typed m → safely (same_reply m) (run_step m).
Proof.
  intros [(a & v & Ha & Hr & Ht)|(a & p & Ha & Hr & Ht)]%typed_shape;
    unfold run_step, stepFollower, stepCandidate, stepLeader, reqMoreUpToDate, set_nextIndex_at,
      set_matchIndex_at, same_reply;
    destruct Ht as [-> | ->]; rewrite ?Ha, ?Hr; cbn [as_VoteArgs as_AppArgs as_VoteReply as_AppReply];
    pose proof (handleAppendEntries_safe m) as Hh; unfold same_reply in Hh; rewrite ?Ha, ?Hr in Hh;
    repeat first [by eapply Hh|progress safely_tac]; by rewrite Hr.
Qed.

Lemma refuse_stale_safe m : request_typed m ∨ response_typed m → safely (same_reply m) (refuse_stale m).
Proof.
  intros [(a & v & Ha & Hr & Ht)|(a & p & Ha & Hr & Ht)]%typed_shape; unfold refuse_stale, same_reply;
    destruct Ht as [-> | ->]; rewrite ?Hr; cbn [as_VoteReply as_AppReply]; safely_tac; by rewrite Hr.
Qed.

Lemma Step_safe m : request_typed m ∨ response_typed m → safely (same_reply m) (Step m).
Proof.
  intros Ht. unfold Step. apply (safely_bind (λ _, True)); [safely_tac|]. intros r _.
  apply (safely_bind (same_reply m)); [|intros m' Hm'; safely_tac].
  destruct (_ >? _); [|destruct (_ <? _); [by apply refuse_stale_safe|by apply run_step_safe]].
  apply (safely_bind (λ _, True)); [safely_tac|]. intros _ _. by apply run_step_safe.
Qed.

Lemma serve_safe m : request_typed m → safe (serve m).
Proof.
  unfold request_typed, serve. destruct (Msg_args m) as [|a|a]; [done|..]; intros _;
    unfold RequestVote, AppendEnties.
  all: eapply (safely_bind (λ _, True)); [|intros; safely_tac].
  all: eapply (safely_bind (λ _, True)); [safely_tac|intros r _].
  all: eapply safely_bind; [apply Step_safe; by left|]; unfold same_reply; cbn [Msg_reply];
    intros m' Hm'; destruct (Msg_reply m'); try done; cbn [as_VoteReply as_AppReply]; safely_tac.
Qed.

Lemma safely_not_panic {A} (P : A → Prop) (f : RM A) r : safely P f → f r ≠ Panic assertion_panic.
Proof. intros Hf Hp. by destruct (wp_panicked _ _ _ _ _ (Hf r) Hp). Qed.

(** C27: Messages are well typed.  In every run of a cluster, a waiting request comes from the peer
    it waits at, and a request in flight has the method, the arguments and the reply that belong
    together, as has a response; so none of the type assertions on the [interface{}] fields of a
    message fails, at whatever peer it arrives. *)
Theorem messages_typed n c :
  reachable n c →
  (∀ i m, m ∈ propc (servers c i) → Msg_From m = i ∧ request_typed m) ∧
  (∀ m r, Request m ∈ net c → request_typed m ∧ serve m r ≠ Panic assertion_panic) ∧
  (∀ m r, Response m ∈ net c → response_typed m ∧ Step m r ≠ Panic assertion_panic).
Proof.
  intros [Hs Hn]%typed_reachable. rewrite Forall_forall in Hn. split_and!.
  - intros i m Hm. destruct (Hs i) as [_ Hf]. rewrite Forall_forall in Hf. by apply Hf.
  - intros m r Hm%Hn. split; [done|]. by eapply safely_not_panic, serve_safe.
  - intros m r Hm%Hn. split; [done|]. eapply safely_not_panic, Step_safe. by right.
Qed.

End sends.

(** Server 0 has asked for votes; one request is in flight, one reply, one request waits. *)
Definition asking : Config Z := after (ticks 0 10 ++ [ASend 0 0; ADeliver 0 [0]; ASend 0 0]).

Lemma asking_reachable : reachable 3 asking.
Proof. apply after_reachable. vm_compute. reflexivity. Qed.

Lemma messages_typed_witness :
  (length (net asking) = 2)%nat ∧ Forall packet_typed (net asking).
Proof.
  split; [vm_compute; reflexivity|].
  destruct (messages_typed 3 asking asking_reachable) as (_ & H1 & H2).
  apply Forall_forall. intros [m|m] Hm; [apply (H1 m (servers asking 0) Hm)|apply (H2 m (servers asking 0) Hm)].
Defined.
