(* ===== verification/RaftMem.v ===== *)
(** * The memory of a peer's log (src/mit/src/raft/raft.go, [bcastAppend], [appendLog])

    [bcastAppend] puts [rf.log[prevLogIndex+1:]] into a request: a slice, which
    shares the backing array of [rf.log].  The array is read when
    [ClientEnd.Call] encodes the request, after a goroutine has passed it through
    [propc].  Meanwhile [appendLog], which truncates the log and appends to it,
    may overwrite the array in place.

    A [Mem] is the array the log of a peer lies in, the arrays before it, and for
    each request that waits in [propc] the array it was made from.  An append
    that fits into the array writes it, one that does not allocates a new one
    (of any larger size), and a request is encoded from the array it was made from.
    [mem_ok] says that all waiting requests still read as they were made; it is
    kept as long as no append request waits while the log is truncated ([calm]).

    The models that run peers have a [Mem] for each of them: RaftAlias.v, KvCluster.v
    and LabShared.v. *)
From S2P Require Import Prelude GoRt RaftTypes RaftNode RaftNet RaftSends.
Open Scope Z_scope.

Section mem.
Context {C : Type}.
Local Abbreviation Log := (RaftTypes.Log C).
Local Abbreviation Message := (RaftTypes.Message C).
Local Abbreviation Raft := (RaftTypes.Raft C).
Implicit Types (arr l : list Log) (r : Raft).

Definition zero_Log : Log := mkLog 0 None 0.

Record Mem : Type := mkMem {
  m_array : list Log;          (* the array [rf.log] lies in *)
  m_gen : nat;                 (* how many arrays were allocated before it *)
  m_old : nat → list Log;      (* the arrays before it *)
  m_tags : list nat;           (* the array of each request in [propc] *)
}.
Implicit Types m : Mem.

Definition array_at m (g : nat) : list Log := if decide (g = m_gen m) then m_array m else m_old m g.

(** [append]: the array that holds the log [l] afterwards, and whether it is a new one. *)
Definition append_array (extra : nat) arr l : list Log * bool :=
  if (length l <=? length arr)%nat then (l ++ drop (length l) arr, false)
  else (l ++ replicate extra zero_Log, true).

(** The entries as [Encode] finds them in the array. *)
Definition read_entries arr (a : AppendEntiesArgs C) : list Log :=
  take (length a.(AEA_Entries)) (drop (Z.to_nat (a.(AEA_PrevLogIndex) + 1)) arr).

Definition encode_request arr (msg : Message) : Message :=
  match msg.(Msg_args) with
  | AppArgs a =>
      mkMessage msg.(Msg_Type) msg.(Msg_From) msg.(Msg_To) msg.(Msg_Term) msg.(Msg_Index) msg.(Msg_isLeader)
        msg.(Msg_data) msg.(Msg_svcMeth)
        (AppArgs (mkAppendEntiesArgs a.(AEA_Term) a.(AEA_LeaderId) a.(AEA_LeaderCommit)
           a.(AEA_PrevLogIndex) a.(AEA_PrevLogTerm) (read_entries arr a)))
        msg.(Msg_reply)
  | _ => msg
  end.

(** The [k]-th waiting request, as it goes out. *)
Definition encode_at m (k : nat) (msg : Message) : Message :=
  match m_tags m !! k with Some g => encode_request (array_at m g) msg | None => msg end.

(** The memory of a process that has just started. *)
Definition mem_make r : Mem := mkMem (log r) 0 (λ _, []) [].

(** A handler has left the peer in state [r]. *)
Definition mem_sync (extra : nat) r m : Mem :=
  let '(arr, fresh) := append_array extra (m_array m) (log r) in
  let g := if fresh then S (m_gen m) else m_gen m in
  mkMem arr g (if fresh then <[m_gen m := m_array m]> (m_old m) else m_old m)
    (m_tags m ++ replicate (length (propc r) - length (m_tags m)) g).

(** [serveChannels] has taken the [k]-th request. *)
Definition mem_take (k : nat) m : Mem := mkMem (m_array m) (m_gen m) (m_old m) (delete k (m_tags m)).

(** No append request waits at a peer whose log is truncated. *)
Definition no_append (msg : Message) : bool :=
  match msg.(Msg_args) with AppArgs _ => false | _ => true end.
Definition calm r r' : Prop :=
  log r `prefix_of` log r' ∨ Forall (λ msg, no_append msg = true) (propc r).

(** ** Requests that read as they were made *)

Definition intact r m (msg : Message) (g : nat) : Prop :=
  ∀ a, msg.(Msg_args) = AppArgs a → (g ≤ m_gen m)%nat ∧
    read_entries (array_at m g) a = a.(AEA_Entries) ∧
    (g = m_gen m → (Z.to_nat (a.(AEA_PrevLogIndex) + 1) + length a.(AEA_Entries) ≤ length (log r))%nat).

Record mem_ok r m : Prop := mkMemOk {
  mo_log : log r `prefix_of` m_array m;
  mo_tags : Forall2 (intact r m) (propc r) (m_tags m);
}.

Lemma read_prefix l l' (s k : nat) :
  l `prefix_of` l' → (s + k ≤ length l)%nat → take k (drop s l') = take k (drop s l).
Proof. intros [t ->] H. rewrite drop_app_le, take_app_le by (rewrite ?length_drop; lia). done. Qed.

Lemma encode_intact arr (msg : Message) :
  (∀ a, msg.(Msg_args) = AppArgs a → read_entries arr a = a.(AEA_Entries)) → encode_request arr msg = msg.
Proof.
  intros H. unfold encode_request. destruct (Msg_args msg) as [|a|a] eqn:Ha; [done..|].
  rewrite (H a eq_refl). destruct msg; simpl in *; subst. by destruct a.
Qed.

(** A request of a memory in order goes out as it was made. *)
Lemma encode_at_ok r m k msg : mem_ok r m → propc r !! k = Some msg → encode_at m k msg = msg.
Proof.
  intros [_ Ht] Hk. unfold encode_at. destruct (m_tags m !! k) as [g|] eqn:Hg; [|done].
  apply encode_intact. intros a Ha. by destruct (Forall2_lookup_lr _ _ _ _ _ _ Ht Hk Hg a Ha) as (_ & ? & _).
Qed.

(** The array an append leaves behind holds the log. *)
Lemma append_array_log extra arr l : l `prefix_of` (append_array extra arr l).1.
Proof. unfold append_array. case_match; by eexists. Qed.

Lemma mem_sync_log extra r m : log r `prefix_of` m_array (mem_sync extra r m).
Proof.
  unfold mem_sync. pose proof (append_array_log extra (m_array m) (log r)) as H.
  by destruct (append_array _ _ _) as [arr fr].
Qed.

(** What [bcastAppend] has just made reads as it was made. *)
Lemma tail_reads arr l (a : AppendEntiesArgs C) :
  l `prefix_of` arr → tail_of l a → read_entries arr a = a.(AEA_Entries) ∧
    (Z.to_nat (a.(AEA_PrevLogIndex) + 1) + length a.(AEA_Entries) ≤ length l)%nat.
Proof.
  intros Hp [Hr He]. unfold go_len in Hr. unfold read_entries. rewrite He, length_drop.
  split; [|lia]. rewrite (read_prefix l) by (done || lia).
  by rewrite firstn_all2 by (rewrite length_drop; lia).
Qed.

(** Vote requests have no entries. *)
Lemma no_append_intact r r' m m' ms gs :
  Forall (λ msg, no_append msg = true) ms → Forall2 (intact r m) ms gs → Forall2 (intact r' m') ms gs.
Proof.
  intros Hno H. induction H as [|msg g ms gs _ _ IH]; inv Hno; constructor; [|by apply IH].
  intros a Ha. unfold no_append in *. by rewrite Ha in *.
Qed.

(** The requests that waited while the log grew. *)
Lemma intact_grown extra r r' m msg g :
  log r `prefix_of` m_array m → log r `prefix_of` log r' →
  intact r m msg g → intact r' (mem_sync extra r' m) msg g.
Proof.
  intros Harr Hlog Hin a Ha. destruct (Hin a Ha) as (Hg & Hread & Hlen).
  unfold mem_sync, append_array, array_at.
  destruct (length (log r') <=? length (m_array m))%nat eqn:Hle; cbn [m_gen m_array m_old].
  - split; [done|]. unfold array_at in Hread. case_decide as Hd; [|done]. specialize (Hlen Hd).
    assert (Z.to_nat (AEA_PrevLogIndex a + 1) + length (AEA_Entries a) ≤ length (log r'))%nat
      by (apply prefix_length in Hlog; lia).
    split; [|done]. rewrite <- Hread. unfold read_entries.
    rewrite (read_prefix (log r')) by first [done|by eexists].
    rewrite (read_prefix _ (log r') _ _ Hlog) by done.
    by rewrite (read_prefix _ (m_array m) _ _ Harr) by done.
  - split; [lia|]. rewrite decide_False by lia. split; [|lia].
    unfold array_at in Hread. case_decide as Hd; [subst g; by rewrite fn_lookup_insert|].
    by rewrite fn_lookup_insert_ne by congruence.
Qed.

(** The requests that have just been made. *)
Lemma intact_new extra r m msg :
  sent_by r msg → intact r (mem_sync extra r m) msg (m_gen (mem_sync extra r m)).
Proof.
  intros (_ & _ & Hm) a Ha. unfold entries_of in Hm. rewrite Ha in Hm.
  destruct (tail_reads _ _ _ (mem_sync_log extra r m) Hm) as [Hr Hl]. split_and!; [done| |done].
  unfold array_at. by rewrite decide_True.
Qed.

Lemma mem_sync_tags extra r m :
  m_tags (mem_sync extra r m) =
  m_tags m ++ replicate (length (propc r) - length (m_tags m)) (m_gen (mem_sync extra r m)).
Proof. unfold mem_sync. by destruct (append_array _ _ _) as [arr fr]. Qed.

(** ** The memory stays in order *)

Lemma mem_ok_make r : propc r = [] → mem_ok r (mem_make r).
Proof. intros Hp. split; [done|]. rewrite Hp. constructor. Qed.

Lemma mem_ok_sync extra r r' m ms :
  mem_ok r m → propc r' = propc r ++ ms → Forall (sent_by r') ms → calm r r' → mem_ok r' (mem_sync extra r' m).
Proof.
  intros [Hl Ht] Hp Hms Hc. split; [apply mem_sync_log|].
  rewrite mem_sync_tags, Hp. pose proof (Forall2_length _ _ _ Ht) as Hlen.
  rewrite length_app, <- Hlen, Nat.add_comm, Nat.add_sub. apply Forall2_app.
  - destruct Hc as [Hpre|Hno].
    + eapply Forall2_impl; [exact Ht|]. intros msg g. by apply intact_grown.
    + by eapply no_append_intact.
  - clear Hp. induction Hms as [|msg ms Hm _ IH]; simpl; constructor; [by apply intact_new|done].
Qed.

(** A peer whose log and requests have not changed. *)
Lemma mem_ok_same r r' m : log r' = log r → propc r' = propc r → mem_ok r m → mem_ok r' m.
Proof.
  intros Hl Hp [Hlog Ht]. split; [by rewrite Hl|]. rewrite Hp. eapply Forall2_impl; [exact Ht|].
  intros msg g. unfold intact. by rewrite Hl.
Qed.

Lemma mem_ok_still extra r r' m : log r' = log r → propc r' = propc r → mem_ok r m → mem_ok r' (mem_sync extra r' m).
Proof.
  intros Hl Hp H. eapply (mem_ok_sync _ r _ _ []); [done|by rewrite app_nil_r|constructor|left; by rewrite Hl].
Qed.

Lemma mem_ok_take r r' m k :
  log r' = log r → propc r' = delete k (propc r) → mem_ok r m → mem_ok r' (mem_take k m).
Proof.
  intros Hl Hp [Hlog Ht]. split; simpl; [by rewrite Hl|]. rewrite Hp.
  eapply Forall2_impl; [by apply Forall2_delete|]. intros msg g. unfold intact, array_at. by rewrite Hl.
Qed.
End mem.
Arguments Mem : clear implicits.
