(* ===== verification/RaftAlias.v ===== *)
(** * A cluster whose append requests share the log's memory

    RaftNet.v copies the entries of an append request when the request is made.  In
    the code the request shares the memory of the log until it is encoded
    (RaftMem.v).  Here every peer of the cluster has such a memory, and a request is
    encoded when it is sent: this is the cluster as the code runs it.

    - [prompt_refines]: as long as a peer that truncates its log has no append
      request waiting, the two models agree;
    - [shared_reachable]: the configurations of such runs, of which RaftShared.v proves
      the safety properties;
    - [late_request_breaks_safety]: otherwise two servers can apply different commands at
      the same index. *)
From S2P Require Import Prelude GoRt RaftTypes RaftNode RaftNet RaftSpec RaftSim RaftSafety RaftSends RaftMem.
Open Scope Z_scope.

Section alias.
Context {C : Type}.
Local Abbreviation Log := (RaftTypes.Log C).
Local Abbreviation Message := (RaftTypes.Message C).
Implicit Types (c : Config C).

Record AliasConfig : Type := mkAlias { al_base : Config C; al_mem : Z → Mem C }.
Implicit Types al : AliasConfig.

(** The server an action runs at. *)
Definition actor (a : action C) c : option Z :=
  match a with
  | ATimer i | ATick i _ | ASend i _ | AStart i _ | AApply i | AKill i | ARestart i _ => Some i
  | ADeliver k _ =>
      match net c !! k with Some (Request m) | Some (Response m) => Some (Msg_To m) | None => None end
  | ALose _ => None
  end.

(** Server [i] has moved to its state in [c']. *)
Definition sync (i : Z) (extra : nat) c' al : AliasConfig :=
  mkAlias c' (<[i := mem_sync extra (servers c' i) (al_mem al i)]> (al_mem al)).

(** [serveChannels] sends the [k]-th waiting request of server [i]; [c'] is the cluster after that if
    requests were copies. *)
Definition send_shared (i : Z) (k : nat) c' al : AliasConfig :=
  let c := al_base al in
  match propc (servers c i) !! k with
  | Some m =>
      mkAlias (mkConfig (servers c') (net c ++ [Request (encode_at (al_mem al i) k m)]) (applied c') (history c'))
        (<[i := mem_take k (al_mem al i)]> (al_mem al))
  | None => mkAlias c' (al_mem al)
  end.

(** [extra]: how much larger than needed an array is that is allocated in the step. *)
Definition alias_exec (n : Z) (a : action C) (extra : nat) al : option AliasConfig :=
  match net_exec n a (al_base al) with
  | None => None
  | Some c' =>
      match a with
      | ASend i k => Some (send_shared i k c' al)
      | ARestart i _ => Some (mkAlias c' (<[i := mem_make (servers c' i)]> (al_mem al)))
      | _ =>
          match actor a (al_base al) with
          | Some i => Some (sync i extra c' al)
          | None => Some (mkAlias c' (al_mem al))
          end
      end
  end.

Definition alias_step (n : Z) al al' : Prop :=
  bounded n (al_base al) = true ∧ ∃ a extra, alias_exec n a extra al = Some al'.

Definition alias_initial (n : Z) al : Prop :=
  initial n (al_base al) ∧ ∀ i, al_mem al i = mem_make (servers (al_base al) i).

(** No append request waits at a server whose log is about to be truncated. *)
Definition prompt al al' : Prop := ∀ i, calm (servers (al_base al) i) (servers (al_base al') i).

Definition prompt_step (n : Z) al al' : Prop := alias_step n al al' ∧ prompt al al'.

(** What the cluster can reach in prompt steps. *)
Definition shared_reachable (n : Z) al : Prop :=
  ∃ al0, alias_initial n al0 ∧ rtc (prompt_step n) al0 al.

(** ** The invariant *)

Definition alias_inv al : Prop := ∀ i, mem_ok (servers (al_base al) i) (al_mem al i).

Lemma exec_actor n (a : action C) c c' :
  net_exec n a c = Some c' →
  (∀ j, actor a c ≠ Some j → servers c' j = servers c j).
Proof.
  intros He j Hj. destruct a as [i|i rs|i k|k rs|k|i cmd|i|i|i rs]; cbn [net_exec actor] in *.
  4: destruct (net c !! k) as [[m|m]|]; [..|done].
  all: repeat case_match; try done; injection He as <-; try done; cbn [servers set_server];
    by rewrite fn_lookup_insert_ne by congruence.
Qed.

(** Only the memory of server [i] has changed. *)
Lemma alias_inv_update al c' i m' :
  alias_inv al → (∀ j, j ≠ i → servers c' j = servers (al_base al) j) → mem_ok (servers c' i) m' →
  alias_inv (mkAlias c' (<[i := m']> (al_mem al))).
Proof.
  intros I Ho Hm j. cbn [al_base al_mem]. destruct (decide (j = i)) as [->|Hj].
  - by rewrite fn_lookup_insert.
  - rewrite fn_lookup_insert_ne, Ho by done. apply I.
Qed.

(** Encoding an intact request gives what RaftNet.v sends. *)
Lemma send_ok n al i k c' :
  alias_inv al → net_exec n (ASend i k) (al_base al) = Some c' →
  al_base (send_shared i k c' al) = c' ∧ alias_inv (send_shared i k c' al).
Proof.
  intros I He. destruct (exec_send _ _ _ _ _ He) as (o & Ho & Hnet & Hs). unfold send_shared.
  assert (∀ j, j ≠ i → servers c' j = servers (al_base al) j) as Hoth
    by (intros j Hj; by rewrite Hs, fn_lookup_insert_ne).
  destruct (propc _ !! k) as [m|] eqn:Hm; subst o; simpl in Hnet.
  - rewrite (encode_at_ok _ _ _ _ (I i) Hm), <- Hnet.
    assert (mkConfig (servers c') (net c') (applied c') (history c') = c') as -> by (by destruct c').
    split; [done|]. apply alias_inv_update; [done..|]. rewrite Hs, fn_lookup_insert.
    by eapply mem_ok_take; [| |apply I].
  - split; [done|]. intros j. cbn [al_base al_mem]. destruct (decide (j = i)) as [->|Hj]; [|by rewrite Hoth].
    rewrite Hs, fn_lookup_insert. eapply mem_ok_same; [..|apply I]; [done|]. simpl. by rewrite delete_missing.
Qed.

Lemma prompt_exec n a extra al al' :
  alias_inv al → alias_exec n a extra al = Some al' → prompt al al' →
  net_exec n a (al_base al) = Some (al_base al') ∧ alias_inv al'.
Proof.
  intros I He Hpr. unfold alias_exec in He.
  destruct (net_exec n a (al_base al)) as [c'|] eqn:Hex; [|done].
  destruct (action_kinds a) as [(i & k & ->)|[(i & rs & ->)|[Hns Hnr]]].
  - injection He as <-. destruct (send_ok _ _ _ _ _ I Hex) as [-> ?]. done.
  - injection He as <-. split; [done|]. destruct (exec_restart _ _ _ _ _ Hex) as (_ & r & _ & Hp & Hs).
    apply alias_inv_update; [done| |].
    + intros j Hj. by rewrite Hs, fn_lookup_insert_ne.
    + apply mem_ok_make. by rewrite Hs, fn_lookup_insert.
  - pose proof (exec_spawns _ _ _ _ Hex Hns Hnr) as Hsp. pose proof (exec_actor _ _ _ _ Hex) as Hac.
    assert (match actor a (al_base al) with Some i => sync i extra c' al | None => mkAlias c' (al_mem al) end = al') as <-.
    { destruct a; try (by destruct (Hns i k)); try (by destruct (Hnr i rs)); simpl in *; repeat case_match; congruence. }
    clear He. destruct (actor a (al_base al)) as [i|]; (split; [done|]).
    + destruct (Hsp i) as (_ & ms & Hp & Hms). apply alias_inv_update; [done|intros j Hj; apply Hac; congruence|].
      eapply mem_ok_sync; [apply I|done..|apply Hpr].
    + intros j. cbn [al_base al_mem]. by rewrite Hac.
Qed.

Lemma prompt_sim n al al' :
  alias_inv al → prompt_step n al al' → net_step n (al_base al) (al_base al') ∧ alias_inv al'.
Proof.
  intros I [[Hb (a & extra & He)] Hpr]. destruct (prompt_exec _ _ _ _ _ I He Hpr) as [Hex I'].
  split; [split; [done|by exists a]|done].
Qed.

Lemma initial_alias_inv n al : alias_initial n al → alias_inv al.
Proof.
  intros ((Hmk & _) & Hmem) i. rewrite Hmem. apply mem_ok_make.
  destruct (Hmk i) as [rs Hi]. by apply Make_fresh in Hi as [_ ->].
Qed.

(** A prompt run is a run of the cluster of RaftNet.v. *)
Lemma prompt_run n al0 al :
  alias_initial n al0 → rtc (prompt_step n) al0 al → rtc (net_step n) (al_base al0) (al_base al).
Proof.
  intros H0 Hr. apply initial_alias_inv in H0.
  induction Hr as [al|al1 al2 al3 Hst _ IH]; [done|].
  destruct (prompt_sim _ _ _ H0 Hst) as [H1 H2]. eapply rtc_l; [done|by apply IH].
Qed.

Lemma shared_base n al : shared_reachable n al → reachable n (al_base al).
Proof. intros (al0 & H0 & Hr). exists (al_base al0). split; [apply H0|by eapply prompt_run]. Qed.

(** C14: Append requests are what they were when they were made, as long as every server sends the
    append requests that wait at it before it truncates its log: then every run of the code,
    whose requests share the memory of the log, is a run of the cluster of RaftNet.v, so that
    all that is proved of that cluster holds. *)
Theorem prompt_refines n al0 al :
  alias_initial n al0 → rtc (prompt_step n) al0 al → reachable n (al_base al).
Proof. intros H0 Hr. exists (al_base al0). split; [apply H0|by eapply prompt_run]. Qed.

(** ** Runs *)

Definition alias_boot (n : Z) : AliasConfig :=
  mkAlias (boot n) (λ i, mem_make (servers (boot n) i)).

Lemma alias_boot_initial n : alias_initial n (alias_boot n).
Proof. split; [apply boot_initial|done]. Qed.

(** Runs the actions; [ok al al'] is what is asked of every step. *)
Fixpoint alias_run (ok : AliasConfig → action C → AliasConfig → bool) (n : Z)
    (acts : list (action C)) al : option AliasConfig :=
  match acts with
  | [] => Some al
  | a :: acts' =>
      if bounded n (al_base al) then
        match alias_exec n a 1 al with
        | Some al' => if ok al a al' then alias_run ok n acts' al' else None
        | None => None
        end
      else None
  end.

Lemma alias_run_steps ok (R : AliasConfig → AliasConfig → Prop) n acts al al' :
  (∀ al1 a al2, alias_exec n a 1 al1 = Some al2 → ok al1 a al2 = true →
     bounded n (al_base al1) = true → R al1 al2) →
  alias_run ok n acts al = Some al' → rtc R al al'.
Proof.
  intros HR. revert al. induction acts as [|a acts IH]; intros al H; simpl in H; [by injection H as ->|].
  destruct (bounded n (al_base al)) eqn:Hb; [|done].
  destruct (alias_exec n a 1 al) as [al1|] eqn:He; [|done]. destruct (ok al a al1) eqn:Hok; [|done].
  eapply rtc_l; [by eapply HR|by apply IH].
Qed.

Definition any_step (_ : AliasConfig) (_ : action C) (_ : AliasConfig) : bool := true.

(** The log of the server that moves is only extended. *)
Definition extends `{EqDecision C} al (a : action C) al' : bool :=
  match actor a (al_base al) with
  | Some i => bool_decide (log (servers (al_base al) i) `prefix_of` log (servers (al_base al') i))
  | None => true
  end.

Lemma alias_exec_servers n a extra al al' c' :
  net_exec n a (al_base al) = Some c' → alias_exec n a extra al = Some al' →
  ∀ j, servers (al_base al') j = servers c' j.
Proof.
  unfold alias_exec, send_shared. intros -> He j. by repeat case_match; simplify_eq/=.
Qed.

Lemma extends_prompt `{EqDecision C} n a al al' :
  alias_exec n a 1 al = Some al' → extends al a al' = true → prompt al al'.
Proof.
  intros He Hx i. left. destruct (net_exec n a (al_base al)) as [c'|] eqn:Hex;
    [|unfold alias_exec in He; by rewrite Hex in He].
  pose proof (alias_exec_servers _ _ _ _ _ _ Hex He) as Hs.
  destruct (decide (actor a (al_base al) = Some i)) as [Ha|Ha].
  - unfold extends in Hx. rewrite Ha in Hx. by apply bool_decide_eq_true in Hx.
  - by rewrite Hs, (exec_actor _ _ _ _ Hex).
Qed.

Lemma extends_reachable `{EqDecision C} n acts al :
  alias_run extends n acts (alias_boot n) = Some al → shared_reachable n al.
Proof.
  intros Hrun. exists (alias_boot n). split; [apply alias_boot_initial|].
  eapply (alias_run_steps extends (prompt_step n)); [|exact Hrun].
  intros al1 a al2 He Hx Hb. split; [split; [exact Hb|by exists a, 1%nat]|by eapply extends_prompt].
Qed.

(** The configuration of three servers after a run in which logs only grow. *)
Definition shared_after `{EqDecision C} (acts : list (action C)) : AliasConfig :=
  match alias_run extends 3 acts (alias_boot 3) with Some al => al | None => alias_boot 3 end.
Definition shared_runs `{EqDecision C} (acts : list (action C)) : bool :=
  match alias_run extends 3 acts (alias_boot 3) with Some _ => true | None => false end.

Lemma shared_after_reachable `{EqDecision C} (acts : list (action C)) :
  shared_runs acts = true → shared_reachable 3 (shared_after acts).
Proof.
  unfold shared_runs, shared_after. destruct (alias_run _ _ _ _) as [al|] eqn:Hrun; [|done]. intros _.
  by eapply extends_reachable.
Qed.

End alias.

(** Server 0 is elected, takes a command, and sends it to server 1. *)
Definition prompt_acts : list (action Z) :=
  elect_0 ++ [AStart 0 (Some 5); ASend 0 3; ADeliver 0 [0]; ADeliver 0 [0]].

Lemma prompt_refines_witness :
  ∃ al, alias_run extends 3 prompt_acts (alias_boot 3) = Some al ∧ reachable 3 (al_base al) ∧
    map Log_Command (log (servers (al_base al) 1)) = [None; Some 5].
Proof.
  destruct (alias_run extends 3 prompt_acts (alias_boot 3)) as [al|] eqn:Hrun.
  - exists al. split; [reflexivity|]. split.
    + apply (prompt_refines 3 (alias_boot 3) al (alias_boot_initial 3)).
      eapply (alias_run_steps extends (prompt_step 3)); [|exact Hrun].
      intros al1 a al2 He Hx Hb. split; [split; [exact Hb|by exists a, 1%nat]|by eapply extends_prompt].
    + vm_compute in Hrun. injection Hrun as <-. reflexivity.
  - exfalso. vm_compute in Hrun. discriminate Hrun.
Defined.

(** ** A late request *)

(** Request [k] of server [i] is sent and answered, or its reply is lost. *)
Definition call (i : Z) (k : nat) : list (action Z) := [ASend i k; ADeliver 0 [0]; ADeliver 0 [0]].
Definition one_way (i : Z) (k : nat) : list (action Z) := [ASend i k; ADeliver 0 [0]; ALose 0].

(** Seven servers.  Server 0 leads term 2, takes commands 10 and 20 and sends them to server 3;
    the same request for server 2 waits. *)
Definition first_leader : list (action Z) :=
  ticks 0 10 ++ call 0 3 ++ call 0 3 ++ call 0 3 ++
  [AStart 0 (Some 10); AStart 0 (Some 20)] ++ one_way 0 17.

(** Server 1 leads term 3 with the votes of 4, 5 and 6, takes command 30 and sends it to server 0,
    which overwrites its log; then the request of server 0 for server 2 is sent. *)
Definition second_leader : list (action Z) :=
  ticks 1 20 ++ call 1 9 ++ call 1 9 ++ call 1 9 ++ [AStart 1 (Some 30)] ++ one_way 1 15 ++
  one_way 0 16.

(** Server 3 leads term 4 with the votes of 2, 4 and 5, takes command 40, and commits its log. *)
Definition third_leader : list (action Z) :=
  ticks 3 20 ++ call 3 8 ++ call 3 8 ++ call 3 8 ++ [AStart 3 (Some 40)] ++
  call 3 17 ++ call 3 17 ++ call 3 17 ++ ticks 3 5 ++ call 3 21 ++ call 3 21 ++ [AApply 3] ++
  ticks 3 5 ++ call 3 24 ++ [AApply 2].

Definition late_acts : list (action Z) := first_leader ++ second_leader ++ third_leader.

Lemma late_run_history :
  option_map (λ al, history (al_base al)) (alias_run any_step 7 late_acts (alias_boot 7)) = Some
    [(3, mkApplyMsg 1 (Some 10)); (3, mkApplyMsg 2 (Some 20)); (3, mkApplyMsg 3 (Some 40));
     (2, mkApplyMsg 1 (Some 30)); (2, mkApplyMsg 2 (Some 20)); (2, mkApplyMsg 3 (Some 40))].
Proof. vm_compute. reflexivity. Qed.

(** C40: State Machine Safety fails if a request is encoded after the log it shares was overwritten:
    a cluster of seven reaches a configuration in which two servers have applied different
    commands at index 1, although no message was changed, only delayed or lost. *)
Theorem late_request_breaks_safety :
  ∃ al, rtc (alias_step 7) (alias_boot 7) al ∧
    (3, mkApplyMsg 1 (Some 10)) ∈ history (al_base al) ∧
    (2, mkApplyMsg 1 (Some 30)) ∈ history (al_base al).
Proof.
  pose proof late_run_history as Hh.
  destruct (alias_run any_step 7 late_acts (alias_boot 7)) as [al|] eqn:Hrun; [|discriminate Hh].
  exists al. split.
  - apply (alias_run_steps any_step (alias_step 7) 7 late_acts (alias_boot 7) al); [|exact Hrun].
    intros al1 a al2 He _ Hb. split; [exact Hb|exists a, 1%nat; exact He].
  - injection Hh as ->. split; [left|do 3 right; left].
Qed.
