(* ===== verification/RaftShared.v ===== *)
(** * What the Raft peers guarantee, with shared log memory

    The safety properties of the cluster as the code runs it (RaftAlias.v): [n >= 2]
    peers whose append requests share the memory of the log, in the runs in which no
    server truncates its log while an append request waits at it
    ([shared_reachable]).  Without that condition they fail
    ([late_request_breaks_safety]). *)
From S2P Require Import Prelude GoRt RaftTypes RaftNode RaftProto RaftNet RaftSpec RaftSim RaftSafety RaftTheorems.
From S2P Require Import RaftSends RaftMem RaftAlias.
Open Scope Z_scope.

Section shared.
Context {C : Type} (n : Z) (Hn : 2 ≤ n).
Implicit Types al : AliasConfig (C := C).

(** C1: State Machine Safety.  In every run of a cluster of at least two servers, whatever is lost,
    delayed, reordered or restarted, no two servers ever apply different commands for the same
    index, provided that no server truncates its log while an append request, whose entries share
    the memory of the log, still waits at it to be encoded (and that terms stay below the
    largest [int]). *)
Theorem state_machine_safety al i j m1 m2 :
  shared_reachable n al → (i, m1) ∈ history (al_base al) → (j, m2) ∈ history (al_base al) →
  Apply_Index m1 = Apply_Index m2 → Apply_Command m1 = Apply_Command m2.
Proof. intros Hr. apply (cluster_state_machine_safety n Hn). by apply shared_base. Qed.

(** C3: Refinement.  Every configuration the cluster reaches without truncating a log while an append
    request that shares its memory waits is the image of a run of the abstract Raft protocol: the
    terms and logs are those of the abstract servers, and a server that is leader in the code has
    been elected in its term by a majority, with its log as the term's log.  (At least two
    servers, terms below the largest [int].) *)
Theorem cluster_refines_protocol al :
  shared_reachable n al → let c := al_base al in
  ∃ s, rtc (λ s s', ∃ i, astep n i s s') a_init s ∧
    ∀ i, 0 ≤ i < n →
      a_term s i = currentTerm (servers c i) ∧ a_log s i = log (servers c i) ∧
      (state (servers c i) = StateLeader →
       a_lead s !! currentTerm (servers c i) = Some (i, log (servers c i)) ∧
       ∃ Q, quorum_set n Q ∧
         ∀ j, j ∈ Q → ∃ vl, a_vote s !! (j, currentTerm (servers c i)) = Some (i, vl)).
Proof. intros Hr. apply (cluster_simulated n Hn). by apply shared_base. Qed.

(** C17: Log Matching.  If the logs of two servers have entries of the same term at an index, they are
    identical up to that index, as long as no server has truncated its log while an append
    request that shares its memory waited.  (At least two servers, terms below the largest [int].) *)
Theorem log_matching al i j x :
  shared_reachable n al → 0 ≤ i < n → 0 ≤ j < n → let c := al_base al in
  same_term_at x (log (servers c i)) (log (servers c j)) →
  take (S x) (log (servers c i)) = take (S x) (log (servers c j)).
Proof. intros Hr. apply (cluster_log_matching n Hn). by apply shared_base. Qed.

(** C16: Leader Completeness.  Every entry a server knows to be committed is in the log of every leader
    of that or a later term, at the same index, as long as no server has truncated its log while an
    append request that shares its memory waited.  (At least two servers, terms below the largest
    [int].) *)
Theorem leader_has_committed al i j x :
  shared_reachable n al → 0 ≤ i < n → 0 ≤ j < n → let c := al_base al in
  state (servers c j) = StateLeader →
  currentTerm (servers c i) ≤ currentTerm (servers c j) →
  Z.of_nat x ≤ commitIndex (servers c i) →
  log (servers c j) !! x = log (servers c i) !! x ∧ (x < length (log (servers c j)))%nat.
Proof. intros Hr. apply (cluster_leader_has_committed n Hn). by apply shared_base. Qed.

(** C26: No check and no index of the code fails, in a cluster of at least two servers whose terms are
    below the largest [int] and whose logs were never truncated while an append request that shares
    their memory waited, when the ticker fires while fewer than ten ticks wait (with ten, [Tick]
    panics), a waiting tick is processed, a client command starts, a request is served, committed
    entries are applied, or a server restarts: each of them returns. *)
Theorem handlers_do_not_panic al :
  shared_reachable n al → let c := al_base al in bounded n c = true →
  (∀ i, 0 ≤ i < n → tickc (servers c i) < 10 → ∃ r', Tick (servers c i) = Ok (tt, r')) ∧
  (∀ i rs, 0 ≤ i < n → ∃ r', run_tick (with_rand rs c i) = Ok (tt, r')) ∧
  (∀ i cmd, 0 ≤ i < n → ∃ a r', Start cmd (servers c i) = Ok (a, r')) ∧
  (∀ k m rs, net c !! k = Some (Request m) → ∃ o r', serve m (with_rand rs c (Msg_To m)) = Ok (o, r')) ∧
  (∀ i, 0 ≤ i < n → ∃ ms r', stateMachine_recv (servers c i) = Ok (ms, r')) ∧
  (∀ i ps pers rs, ∃ r', Make (C := C) ps i pers rs = Ok r').
Proof. intros Hr. apply (cluster_handlers_return n Hn). by apply shared_base. Qed.

(** With ten ticks waiting [Tick] panics. *)
Lemma full_ticks_panic r : 10 ≤ tickc r → ∃ w, Tick (C := C) r = Panic w.
Proof. intros Ht. unfold Tick, bind, get. rewrite (proj2 (Z.ltb_ge _ _) Ht). by eexists. Qed.
End shared.

(** ** A run of three servers *)

Definition shared_demo : AliasConfig := shared_after (elect_0 ++ commit_42).

Lemma shared_demo_reachable : shared_reachable 3 shared_demo.
Proof. apply shared_after_reachable. vm_compute. reflexivity. Qed.

Lemma state_machine_safety_witness :
  ∃ m1 m2, (0, m1) ∈ history (al_base shared_demo) ∧ (1, m2) ∈ history (al_base shared_demo) ∧
    Apply_Index m1 = 1 ∧ Apply_Command m1 = Apply_Command m2.
Proof.
  assert (history (al_base shared_demo) = [(0, mkApplyMsg 1 (Some 42)); (1, mkApplyMsg 1 (Some 42))]) as H
    by (vm_compute; reflexivity).
  exists (mkApplyMsg 1 (Some 42)), (mkApplyMsg 1 (Some 42)).
  assert ((0, mkApplyMsg 1 (Some 42)) ∈ history (al_base shared_demo)) as H0 by (rewrite H; left).
  assert ((1, mkApplyMsg 1 (Some 42)) ∈ history (al_base shared_demo)) as H1 by (rewrite H; right; left).
  split_and!; [done..|]. apply (state_machine_safety 3 ltac:(lia) shared_demo 0 1); auto.
  apply shared_demo_reachable.
Defined.

Lemma cluster_refines_protocol_witness :
  ∃ s, rtc (λ s s', ∃ i, astep 3 i s s') a_init s ∧ a_log s 2 = log (servers (al_base shared_demo) 2).
Proof.
  destruct (cluster_refines_protocol 3 ltac:(lia) shared_demo shared_demo_reachable) as (s & Hr & H).
  exists s. split; [done|]. apply (H 2). lia.
Defined.

Lemma log_matching_witness :
  take 3 (log (servers (al_base shared_demo) 0)) = take 3 (log (servers (al_base shared_demo) 1)).
Proof.
  apply (log_matching 3 ltac:(lia) shared_demo 0 1 2 shared_demo_reachable); try lia.
  exists (mkLog 2 (Some 43) 2), (mkLog 2 (Some 43) 2). split_and!; vm_compute; reflexivity.
Defined.

Lemma leader_has_committed_witness :
  log (servers (al_base shared_demo) 0) !! 1%nat = log (servers (al_base shared_demo) 1) !! 1%nat ∧
  (1 < length (log (servers (al_base shared_demo) 0)))%nat.
Proof.
  apply (leader_has_committed 3 ltac:(lia) shared_demo 1 0 1 shared_demo_reachable); try lia;
    vm_compute; try reflexivity; discriminate.
Defined.

Lemma handlers_do_not_panic_witness :
  bounded 3 (al_base shared_demo) = true ∧ ∃ r', run_tick (with_rand [7] (al_base shared_demo) 0) = Ok (tt, r').
Proof.
  assert (bounded 3 (al_base shared_demo) = true) as Hb by (vm_compute; reflexivity). split; [done|].
  apply (handlers_do_not_panic 3 ltac:(lia) shared_demo shared_demo_reachable Hb). lia.
Defined.
