(* ===== verification/RaftValidity.v ===== *)
(** * Where the commands of a cluster come from

    A peer writes to its log only what a client submitted or what another peer sent
    it: [draws P f] says that [f] keeps all entries of the log within [P], and there
    is one lemma for each operation.  So every entry in a log, in a waiting
    request and in flight was submitted ([valid_inv]), and so was every command
    that is applied ([applied_was_submitted]). *)
From S2P Require Import Prelude GoRt RaftTypes RaftNode RaftNet RaftSpec RaftProto RaftSim RaftSafety RaftTheorems RaftSends.
Open Scope Z_scope.

Section validity.
Context {C : Type}.
Local Abbreviation Raft := (RaftTypes.Raft C).
Local Abbreviation Message := (RaftTypes.Message C).
Local Abbreviation Log := (RaftTypes.Log C).
Local Abbreviation RM := (M Raft).
Implicit Types (r : Raft) (m : Message) (P : Log → Prop).

(** ** Operations and the entries they write *)

Definition draws P {A} (f : RM A) : Prop :=
  ∀ r a r', Forall P (log r) → f r = Ok (a, r') → Forall P (log r').

(** The entries a message carries. *)
Definition carries P m : Prop :=
  match m.(Msg_args) with AppArgs a => Forall P a.(AEA_Entries) | _ => True end.

Lemma keeps_draws P {A} (f : RM A) : keeps log f → draws P f.
Proof. intros Hk r a r' Hl H. by rewrite (Hk _ _ _ H). Qed.

Lemma draws_bind P {A B} (f : RM A) (k : A → RM B) :
  draws P f → (∀ a, draws P (k a)) → draws P (bind f k).
Proof.
  intros Hf Hk r b r' Hl H. unfold bind in H. destruct (f r) as [[a r1]|] eqn:E; [|done].
  eapply Hk; [|done]. by eapply Hf.
Qed.

Lemma draws_for_range P {A} (l : list A) body : (∀ x, draws P (body x)) → draws P (for_range l body).
Proof.
  intros Hb. induction l as [|x l IH]; simpl; [by apply keeps_draws, keeps_ret|].
  by apply draws_bind; [|intros _].
Qed.

Lemma draws_append P ents : Forall P ents → draws P (appendLog ents).
Proof.
  intros He r a r' Hl H. unfold appendLog in H. destruct ents as [|e0 ents].
  { by apply lastIndex_same in H as ->. }
  unfold bind, get in H. destruct (_ <? _); [done|].
  destruct (go_slice (log r) 0 (Log_Index e0)) as [l|] eqn:Hs; [|done]. simpl in H.
  apply lastIndex_same in H as ->. simpl. apply Forall_app. split; [|done].
  unfold go_slice in Hs. destruct (_ && _); [|done]. injection Hs as <-. by apply Forall_drop, Forall_take.
Qed.

Local Abbreviation still := (keeps (log (C := C))).

Lemma persist_still : still persist.
Proof. unfold persist. keeps_tac. Qed.
Lemma lastIndex_still : still lastIndex.
Proof. unfold lastIndex, log_at. keeps_tac. Qed.
Lemma log_at_still i : still (log_at i).
Proof. unfold log_at. keeps_tac. Qed.
Lemma lastTerm_still : still lastTerm.
Proof. unfold lastTerm, lastIndex, log_at. keeps_tac. Qed.
Lemma log_line_still : still log_line.
Proof. unfold log_line, lastTerm, lastIndex, log_at. keeps_tac. Qed.
Lemma term_still i : still (term i).
Proof. unfold term, log_at. keeps_tac. Qed.
Hint Resolve persist_still lastIndex_still log_at_still lastTerm_still log_line_still term_still : keeps.
Lemma matchTerm_still i t : still (matchTerm i t).
Proof. unfold matchTerm. keeps_tac. Qed.
Lemma commitTo_still ci : still (commitTo ci).
Proof. unfold commitTo. keeps_tac. Qed.
Hint Resolve matchTerm_still commitTo_still : keeps.
Lemma findConflict_still ents : still (findConflict ents).
Proof. induction ents; simpl; keeps_tac. Qed.
Lemma conflict_scan_still ct x : still (conflict_scan ct x).
Proof. induction x; simpl; keeps_tac. Qed.
Lemma conflict_find_still ct x : still (conflict_find ct x).
Proof. induction x; cbn [conflict_find]; keeps_tac. Qed.
Lemma bcastAppend_still : still bcastAppend.
Proof. intros r a r' H. by apply bcastAppend_adds in H as (_ & ? & _). Qed.
Lemma bcastRequestVoteRPC_still : still bcastRequestVoteRPC.
Proof. intros r a r' H. by apply bcastRequestVoteRPC_adds in H as (_ & ? & _). Qed.
Hint Resolve findConflict_still conflict_scan_still conflict_find_still
  bcastAppend_still bcastRequestVoteRPC_still : keeps.
Lemma poll_still id v : still (poll id v).
Proof. unfold poll. keeps_tac. Qed.
Lemma updateCommitIndex_still : still updateCommitIndex.
Proof. unfold updateCommitIndex. keeps_tac. Qed.
Hint Resolve poll_still updateCommitIndex_still : keeps.
Lemma Tick_still : still Tick.
Proof. unfold Tick. keeps_tac. Qed.
Lemma Kill_still : still Kill.
Proof. unfold Kill. keeps_tac. Qed.
Lemma apply_entries_still i k : still (apply_entries i k).
Proof. revert i. induction k; intros i; simpl; keeps_tac. Qed.
Hint Resolve apply_entries_still : keeps.
Lemma stateMachine_recv_still : still stateMachine_recv.
Proof. unfold stateMachine_recv. keeps_tac. Qed.

Create HintDb draws discriminated.

(** Splits an operation into its parts, which leave the log alone or have a lemma. *)
Ltac draws_tac :=
  repeat lazymatch goal with
  | |- draws _ (match ?x with _ => _ end) => destruct x
  | |- draws _ (bind _ _) => apply draws_bind; [|intros ?]
  | |- draws _ _ => first [solve [auto with draws nocore]|apply keeps_draws; solve [keeps_tac]]
  end.

Section entries.
Context (P : Log → Prop) (HP : P init_entry).

Lemma reset_draws t : draws P (reset t).
Proof.
  unfold reset, resetRandomizedElectionTimeout, Intn.
  assert (draws P (modify (λ r, match log r with [] => set_log [mkLog 1 None 0] r | _ => r end))) as Hinit.
  { intros r a r' Hl [= _ <-]. destruct (log r) eqn:E; [by repeat constructor|]. by rewrite <- E in Hl. }
  draws_tac; exact Hinit.
Qed.
Hint Resolve reset_draws : draws.
Lemma becomeFollower_draws t l : draws P (becomeFollower t l).
Proof. unfold becomeFollower. draws_tac. Qed.
Lemma becomeCandidate_draws : draws P becomeCandidate.
Proof. unfold becomeCandidate. draws_tac. Qed.
Lemma becomeLeader_draws : draws P becomeLeader.
Proof. unfold becomeLeader, set_nextIndex_at. draws_tac. Qed.
Hint Resolve becomeFollower_draws becomeCandidate_draws becomeLeader_draws : draws.
Lemma run_tick_draws : draws P run_tick.
Proof. unfold run_tick, tickElection, tickHeartbeat, campaign. draws_tac. Qed.

Lemma as_AppArgs_inv (x : Args C) r a r' : as_AppArgs x r = Ok (a, r') → x = AppArgs a ∧ r' = r.
Proof. destruct x; simpl; try done. by intros [= -> ->]. Qed.

Lemma handleAppendEntries_draws m : carries P m → draws P (handleAppendEntries m).
Proof.
  intros Hm. apply draws_bind; [|intros; draws_tac]. intros r a r' Hl H.
  unfold handleAppendEntries_body in H. unfold bind at 1 in H.
  destruct (as_AppArgs (Msg_args m) r) as [[args r1]|] eqn:E; [|done].
  apply as_AppArgs_inv in E as [E ->]. unfold carries in Hm. rewrite E in Hm.
  assert (∀ lo hi es, go_slice (AEA_Entries args) lo hi = Some es → draws P (appendLog es)) as Happ.
  { intros lo hi es Hs. apply draws_append. unfold go_slice in Hs. destruct (_ && _); [|done].
    injection Hs as <-. by apply Forall_drop, Forall_take. }
  revert H. match goal with |- ?f r = _ → _ => assert (draws P f) as Hd end; [|by apply Hd].
  unfold as_AppReply, checkLog.
  assert (∀ lo hi, draws P (es <- must slice_panic (go_slice (AEA_Entries args) lo hi) ;; appendLog es ;; ret tt)) as Hpart.
  { intros lo hi. destruct (go_slice _ _ _) as [es|] eqn:Hs; [|by intros r0 b r1].
    intros r0 b r1 Hl0 H0. unfold bind, must, ret in H0.
    destruct (appendLog es r0) as [[i r2]|] eqn:E0; [|done]. injection H0 as _ <-. by eapply Happ. }
  repeat lazymatch goal with
  | |- draws _ (es <- must _ (go_slice (AEA_Entries args) _ _) ;; _) => apply Hpart
  | |- draws _ (match ?x with _ => _ end) => destruct x
  | |- draws _ (bind _ _) => apply draws_bind; [|intros ?]
  | |- draws _ _ => apply keeps_draws; solve [keeps_tac]
  end.
Qed.

Lemma run_step_draws m : carries P m → draws P (run_step m).
Proof.
  intros Hm. unfold run_step, stepFollower, stepCandidate, stepLeader, reqMoreUpToDate, set_nextIndex_at,
    set_matchIndex_at, as_AppArgs, as_AppReply, as_VoteArgs, as_VoteReply.
  pose proof (handleAppendEntries_draws m Hm) as Ha. draws_tac; exact Ha.
Qed.
Hint Resolve run_step_draws : draws.

Lemma Step_draws m : carries P m → draws P (Step m).
Proof. intros Hm. unfold Step, refuse_stale, as_AppReply, as_VoteReply. draws_tac. Qed.
Hint Resolve Step_draws : draws.

Lemma serve_draws m : carries P m → draws P (serve m).
Proof.
  intros Hm. unfold serve, RequestVote, AppendEnties, as_AppReply, as_VoteReply.
  unfold carries in Hm. destruct (Msg_args m); draws_tac; by apply Step_draws.
Qed.

Lemma Start_draws cmd : (∀ t i, P (mkLog t cmd i)) → draws P (Start cmd).
Proof.
  intros Hc r a r' Hl H. unfold Start, bind at 1, get at 1 in H.
  destruct (negb _); [by injection H as _ <-|]. unfold handleCommand, handleStart in H. cbn [Msg_Type Msg_data] in H.
  unfold bind at 1 2, get at 1 in H. destruct (negb _); [by injection H as _ <-|].
  unfold bind at 1, modify at 1 in H.
  set (r1 := set_log (log r ++ [mkLog (currentTerm r) cmd (go_len (log r))]) r) in H.
  assert (Forall P (log r1)) as Hl1 by (simpl; apply Forall_app; by split; [|constructor]).
  match type of H with context [?g r1] => assert (draws P g) as Hd end.
  { unfold set_nextIndex_at, set_matchIndex_at. draws_tac. }
  match type of H with context [match ?x with _ => _ end] => destruct x as [[m r2]|] eqn:E end; [|done].
  injection H as _ <-. by eapply Hd.
Qed.
End entries.

(** ** The cluster *)

Implicit Types c : Config C.

Definition packet_carries P (p : packet C) : Prop :=
  match p with Request m | Response m => carries P m end.

(** All entries in logs, waiting requests and packets are in [P], and so are those applied. *)
Record valid_inv P c : Prop := mkValid {
  vi_log : ∀ i, Forall P (log (servers c i));
  vi_propc : ∀ i, Forall (carries P) (propc (servers c i));
  vi_net : Forall (packet_carries P) (net c);
  vi_history : Forall (λ p, ∃ e, P e ∧ p.2 = entry_msg e ∧ 0 < Log_Index e) (history c);
}.

Lemma carries_mono P Q m : (∀ e, P e → Q e) → carries P m → carries Q m.
Proof. intros H. unfold carries. destruct (Msg_args m); try done. intros ?. eapply Forall_impl; eauto. Qed.

Lemma valid_inv_mono P Q c : (∀ e, P e → Q e) → valid_inv P c → valid_inv Q c.
Proof.
  intros H [Hl Hp Hn Hh]. split; [intros i..| |]; eapply Forall_impl; eauto using carries_mono.
  - intros [m|m]; simpl; eauto using carries_mono.
  - intros p (e & ? & ? & ?). eauto.
Qed.

Section exec.
Context (P : Log → Prop) (HP : P init_entry).

(** A request carries entries of the log of its sender. *)
Lemma sent_carries r m : Forall P (log r) → sent_by r m → carries P m.
Proof.
  intros Hl (_ & _ & He). unfold entries_of, carries in *. destruct (Msg_args m) as [| |a]; try done.
  destruct He as [_ ->]. by apply Forall_drop.
Qed.

Lemma serve_carries m r o r' :
  carries P m → serve m r = Ok (o, r') → Forall (packet_carries P) (opt_packet Response o).
Proof.
  unfold serve, bind, ret. intros Hm. destruct m as [ty f t tm ix ld d sm args rep]. simpl.
  destruct args as [|a|a]; [by intros [= <- _]|..].
  - destruct (RequestVote a r) as [[v r1]|]; [|done]. intros [= <- _]. by repeat constructor.
  - destruct (AppendEnties a r) as [[v r1]|]; [|done]. intros [= <- _]. by constructor.
Qed.

Lemma log_update c i r' :
  Forall P (log r') → (∀ j, Forall P (log (servers c j))) → ∀ j, Forall P (log ((<[i := r']> (servers c)) j)).
Proof.
  intros Hr Hl j. destruct (decide (j = i)) as [->|]; [by rewrite fn_lookup_insert|].
  by rewrite fn_lookup_insert_ne.
Qed.

Lemma ran_draws {A} (f : RM A) c i r0 a r' :
  f r0 = Ok (a, r') → draws P f → log r0 = log (servers c i) → (∀ j, Forall P (log (servers c j))) →
  ∀ j, Forall P (log ((<[i := r']> (servers c)) j)).
Proof. intros H Hd Hl Hall. apply log_update; [|done]. eapply Hd; [|done]. by rewrite Hl. Qed.

Section step.
Context (n : Z) (Hn : 2 ≤ n) (c c' : Config C) (a : action C).
Context (Hr : reachable n c) (He : net_exec n a c = Some c').
Context (Hstart : ∀ i cmd, a = AStart i cmd → ∀ t k, P (mkLog t cmd k)) (V : valid_inv P c).

Lemma exec_log : ∀ j, Forall P (log (servers c' j)).
Proof using All.
  destruct (reachable_inv n Hn c Hr) as (s & _ & G). pose proof (vi_log _ _ V) as Hl.
  destruct a as [i|i rs|i k|k rs|k|i cmd|i|i|i rs]; cbn [net_exec] in He.
  all: try (destruct (valid_id n i) eqn:Hv; [apply (valid_id_spec n) in Hv|done]); cbn [andb] in He.
  - destruct (Tick _) as [[[] r']|] eqn:H; [|done]. injection He as <-.
    apply (ran_draws _ _ _ _ _ _ H); [apply keeps_draws, Tick_still|done..].
  - destruct (0 <? _); [|done]. destruct (run_tick _) as [[[] r']|] eqn:H; [|done]. injection He as <-.
    apply (ran_draws _ _ _ _ _ _ H); [by apply run_tick_draws|done..].
  - destruct (serveChannels_take _ _) as [[o r']|] eqn:H; [|done]. injection He as <-.
    apply (ran_draws _ _ _ _ _ _ H); [|done..]. apply keeps_draws. unfold serveChannels_take. keeps_tac.
  - destruct (net c !! k) as [[m|m]|] eqn:Hk; [..|done];
      pose proof (Forall_lookup_1 _ _ _ _ (vi_net _ _ V) Hk) as Hm; simpl in Hm.
    + destruct (serve _ _) as [[o r']|] eqn:H; [|done]. injection He as <-.
      apply (ran_draws _ _ _ _ _ _ H); [by apply serve_draws|done..].
    + destruct (Step _ _) as [[o r']|] eqn:H; [|done]. injection He as <-.
      apply (ran_draws _ _ _ _ _ _ H); [by apply Step_draws|done..].
  - by injection He as <-.
  - destruct (Start _ _) as [[o r']|] eqn:H; [|done]. injection He as <-.
    apply (ran_draws _ _ _ _ _ _ H); [|done..]. apply Start_draws. by eapply Hstart.
  - destruct (stateMachine_recv _) as [[ms r']|] eqn:H; [|done]. injection He as <-.
    apply (ran_draws _ _ _ _ _ _ H); [apply keeps_draws, stateMachine_recv_still|done..].
  - destruct (Kill _) as [[[] r']|] eqn:H; [|done]. injection He as <-.
    apply (ran_draws _ _ _ _ _ _ H); [apply keeps_draws, Kill_still|done..].
  - destruct (Make_restores (servers c i) (peers (servers c i)) rs (gi_persist _ _ _ G i Hv))
      as (r1 & H1 & _ & Hlog & _). rewrite H1 in He. injection He as <-. simpl.
    apply log_update; [by rewrite Hlog|done].
Qed.

Lemma exec_propc : ∀ j, Forall (carries P) (propc (servers c' j)).
Proof using All.
  pose proof exec_log as Hl. pose proof (vi_propc _ _ V) as Hp.
  destruct (action_kinds a) as [(i & k & ->)|[(i & rs & ->)|[Hns Hnr]]]; intros j.
  - destruct (exec_send _ _ _ _ _ He) as (o & _ & _ & Hsv). rewrite Hsv.
    destruct (decide (j = i)) as [->|]; [|by rewrite fn_lookup_insert_ne].
    rewrite fn_lookup_insert. simpl. by apply Forall_delete.
  - destruct (exec_restart _ _ _ _ _ He) as (_ & r & _ & Hpr & Hsv). rewrite Hsv.
    destruct (decide (j = i)) as [->|]; [|by rewrite fn_lookup_insert_ne].
    by rewrite fn_lookup_insert, Hpr.
  - destruct (exec_spawns _ _ _ _ He Hns Hnr j) as (_ & ms & -> & Hms). apply Forall_app. split; [done|].
    eapply Forall_impl; [exact Hms|]. intros m. by apply sent_carries.
Qed.

Lemma exec_net : Forall (packet_carries P) (net c').
Proof using All.
  pose proof (vi_net _ _ V) as Hnet. destruct (action_kinds a) as [(i & k & ->)|[(i & rs & ->)|[Hns Hnr]]].
  - destruct (exec_send _ _ _ _ _ He) as (o & Ho & -> & _). apply Forall_app. split; [done|].
    destruct o as [m|]; constructor; [|done]. symmetry in Ho.
    exact (Forall_lookup_1 _ _ _ _ (vi_propc _ _ V i) Ho).
  - by destruct (exec_restart _ _ _ _ _ He) as (-> & _).
  - destruct a as [i|i rs|i k|k rs|k|i cmd|i|i|i rs]; cbn [net_exec] in He; try by destruct (Hns i k).
    3: { destruct (net c !! k) as [[m|m]|] eqn:Hk; [..|done];
           pose proof (Forall_lookup_1 _ _ _ _ Hnet Hk) as Hm; simpl in Hm.
      - destruct (serve _ _) as [[o r']|] eqn:H; [|done]. injection He as <-. simpl.
        apply Forall_app. split; [by apply Forall_delete|]. by eapply serve_carries.
      - destruct (Step _ _) as [[o r']|]; [|done]. injection He as <-. by apply Forall_delete. }
    3: { injection He as <-. by apply Forall_delete. }
    all: repeat case_match; try done; by injection He as <-.
Qed.

Lemma exec_history : Forall (λ p, ∃ e, P e ∧ p.2 = entry_msg e ∧ 0 < Log_Index e) (history c').
Proof using All.
  destruct (reachable_inv n Hn c Hr) as (s & _ & G). pose proof (vi_history _ _ V) as Hh.
  destruct a as [i|i rs|i k|k rs|k|i cmd|i|i|i rs]; cbn [net_exec] in He.
  7: { destruct (valid_id n i) eqn:Hv; [apply (valid_id_spec n) in Hv|done].
    destruct (stateMachine_recv _) as [[ms r']|] eqn:H; [|done]. injection He as <-. simpl.
    pose proof (stateMachine_recv_sim n s i _ (gi_abs _ _ _ G) (gi_node _ _ _ G i Hv)
      (gi_persist _ _ _ G i Hv)) as Hwp.
    destruct (wp_ok _ _ _ _ _ _ Hwp H) as (_ & _ & _ & _ & ->).
    apply Forall_app. split; [done|]. apply Forall_fmap, Forall_fmap, Forall_lookup. intros x e Hx.
    rewrite lookup_drop in Hx. apply lookup_take_Some in Hx as [Hx _]. exists e.
    split_and!; [by eapply Forall_lookup_1; [apply (vi_log _ _ V i)|]|done|].
    destruct (NodeInv_wf n s i _ (gi_abs _ _ _ G) (gi_node _ _ _ G i Hv)) as [_ Hw].
    rewrite (Hw _ _ Hx). lia. }
  all: repeat case_match; try done; by injection He as <-.
Qed.

Lemma valid_inv_exec : valid_inv P c'.
Proof using All. split; [apply exec_log|apply exec_propc|apply exec_net|apply exec_history]. Qed.
End step.

Lemma valid_inv_initial n c : initial n c → valid_inv P c.
Proof.
  intros (Hmk & Hnet & _ & Hh). split; [intros i..| |]; rewrite ?Hnet, ?Hh; try done.
  - destruct (Hmk i) as [rs Hi]. destruct (Make_spec (C := C) (seqZ 0 n) i MakePersister rs) as (r & Hr & Hrest).
    rewrite Hi in Hr. injection Hr as ->. simpl in Hrest.
    destruct Hrest as (_ & _ & _ & _ & _ & _ & _ & _ & _ & _ & _ & _ & -> & _). by repeat constructor.
  - destruct (Hmk i) as [rs Hi]. by apply Make_fresh in Hi as [_ ->].
Qed.
End exec.

(** ** Validity *)

(** A client submitted the command in the run. *)
Definition submitted (acts : list (action C)) (cmd : option C) : Prop := ∃ i, AStart i cmd ∈ acts.

(** A run keeps the entries of a cluster within those submitted. *)
Lemma net_run_valid n acts c0 c :
  2 ≤ n → reachable n c0 → net_run n acts c0 = Some c → ∀ P, P init_entry →
  (∀ cmd, submitted acts cmd → ∀ t k, P (mkLog t cmd k)) → valid_inv P c0 → valid_inv P c.
Proof.
  intros Hn. revert c0. induction acts as [|a acts IH]; intros c0 Hr H P HP Hsub V; simpl in H.
  { by injection H as <-. }
  destruct (bounded n c0) eqn:Hb; [|done]. destruct (net_exec n a c0) as [c1|] eqn:He; [|done].
  eapply (IH c1); [|done..| |].
  - destruct Hr as (ci & Hi & Hs). exists ci. split; [done|]. eapply rtc_r; [done|]. by split; [|exists a].
  - intros cmd [i Hin]. apply Hsub. exists i. by right.
  - eapply (valid_inv_exec P HP n Hn c0 c1 a Hr He); [|done]. intros i cmd ->. apply Hsub. exists i. by left.
Qed.

(** C8: Validity.  Every command a server applies was submitted by a client in the run:
    [Start] was called with it at some server. *)
Theorem applied_was_submitted n acts c i msg :
  2 ≤ n → net_run n acts (boot n) = Some c → (i, msg) ∈ history c →
  submitted acts (Apply_Command msg) ∧ 0 < Apply_Index msg.
Proof.
  intros Hn Hrun Hin. pose proof (net_run_reachable n acts c Hrun) as Hr.
  set (P (e : Log) := e = init_entry ∨ submitted acts (Log_Command e)).
  assert (valid_inv P c) as V.
  { eapply (net_run_valid n acts (boot n)); [done|exact (ex_intro _ _ (conj (boot_initial n) (rtc_refl _ _)))|done| | |].
    - by left.
    - intros cmd Hs t k. by right.
    - apply (valid_inv_initial P (or_introl eq_refl) n), boot_initial. }
  pose proof (vi_history _ _ V) as Hh. rewrite Forall_forall in Hh.
  destruct (Hh _ Hin) as (e & [->|Hs] & Hm & Hpos); [done|]. simpl in Hm. by subst msg.
Qed.

(** No two messages of the history have the same index. *)
Lemma history_unique n c i j (m m' : ApplyMsg C) :
  2 ≤ n → reachable n c → (i, m) ∈ history c → (j, m') ∈ history c → Apply_Index m = Apply_Index m' → m = m'.
Proof.
  intros Hn (s & _ & G)%reachable_inv H H' Heq; [|done]. pose proof (gi_history _ _ _ G) as Hh.
  rewrite Forall_forall in Hh. eapply (chosen_unique n Hn s); [apply G|by apply Hh in H|by apply Hh in H'|done].
Qed.

(** What an incarnation applied is part of the history. *)
Lemma applied_in_history n c i (m : ApplyMsg C) : reachable n c → m ∈ applied c i → (i, m) ∈ history c.
Proof.
  intros (c0 & (_ & _ & Ha & _) & Hr). revert i m.
  eapply (rtc_keeps (net_step n) (λ c, ∀ i (m : ApplyMsg C), m ∈ applied c i → (i, m) ∈ history c)); [|done|].
  - intros x y (_ & a & He) IH i m.
    destruct a as [j|j rs|j k|k rs|k|j cmd|j|j|j rs]; cbn [net_exec] in He.
    7: { destruct (valid_id n j); [|done]. destruct (stateMachine_recv _) as [[ms r']|]; [|done].
      injection He as <-. simpl. rewrite elem_of_app. destruct (decide (i = j)) as [->|].
      - rewrite fn_lookup_insert, elem_of_app. intros [?|?]; [left; by apply IH|right].
        by apply list_elem_of_fmap_2.
      - rewrite fn_lookup_insert_ne by done. left. by apply IH. }
    8: { destruct (valid_id n j); [|done]. destruct (Make _ _ _ _) as [r'|]; [|done].
      injection He as <-. simpl. destruct (decide (i = j)) as [->|].
      - rewrite fn_lookup_insert. by intros []%elem_of_nil.
      - rewrite fn_lookup_insert_ne by done. apply IH. }
    all: repeat case_match; try done; injection He as <-; apply IH.
  - intros i m. rewrite Ha. by intros []%elem_of_nil.
Qed.

End validity.

(** The entry the demonstration run commits was submitted at server 0. *)
Lemma applied_was_submitted_witness : submitted (elect_0 ++ commit_42) (Some 42).
Proof.
  apply (applied_was_submitted 3 (elect_0 ++ commit_42) demo 1 (mkApplyMsg 1 (Some 42))).
  - lia.
  - apply after_run. vm_compute. reflexivity.
  - assert (history demo = [(0, mkApplyMsg 1 (Some 42)); (1, mkApplyMsg 1 (Some 42))]) as H
      by (vm_compute; reflexivity).
    rewrite H. right. left.
Defined.
