(* ===== verification/KvRaft.v ===== *)
(** * The key/value service on Raft (src/mit/src/kvraft)

    [RaftKV]: the server's state and the parts of its goroutines that run under
    the lock.  [getApply_msg] handles one message of [applyCh]; [AppendLog] is
    split where it blocks: [AppendLog_register] after [Start] returned an index,
    [AppendLog_wait] when the channel delivers or the timer fires.  A channel of
    capacity one is an [option Op].  [Clerk]: the client's request counter and
    its retry loop against an oracle for [Call].

    The server is proved against the interface [ReplicatedLog], which the Raft
    cluster of RaftNet.v implements ([raft_replicated_log]). *)
From S2P Require Import Prelude GoRt RaftTypes RaftNode RaftProto RaftNet RaftSpec RaftSim RaftSafety.
Open Scope Z_scope.

(** ** Data *)

Record Op : Type := mkOp {
  Op_Type : string;
  Op_Key : string;
  Op_Value : string;
  Op_Id : Z;
  Op_ReqId : Z;
}.

#[export] Instance Op_eq_dec : EqDecision Op.
Proof. solve_decision. Defined.

Record RaftKV : Type := mkRaftKV {
  db : gmap string string;
  result : gmap Z (option Op);    (* index -> its channel, with the value it buffers *)
  ack : gmap Z Z;
  prevIndex : Z;
  kv_stopc : bool;                (* is the channel closed? *)
}.

Definition set_db (v : gmap string string) (kv : RaftKV) : RaftKV :=
  mkRaftKV v (result kv) (ack kv) (prevIndex kv) (kv_stopc kv).
Definition set_result (v : gmap Z (option Op)) (kv : RaftKV) : RaftKV :=
  mkRaftKV (db kv) v (ack kv) (prevIndex kv) (kv_stopc kv).
Definition set_ack (v : gmap Z Z) (kv : RaftKV) : RaftKV :=
  mkRaftKV (db kv) (result kv) v (prevIndex kv) (kv_stopc kv).
Definition set_prevIndex (v : Z) (kv : RaftKV) : RaftKV :=
  mkRaftKV (db kv) (result kv) (ack kv) v (kv_stopc kv).
Definition set_kv_stopc (v : bool) (kv : RaftKV) : RaftKV :=
  mkRaftKV (db kv) (result kv) (ack kv) (prevIndex kv) v.

Record PutAppendArgs : Type := mkPutAppendArgs {
  PA_Key : string; PA_Value : string; PA_Op : string; PA_Id : Z; PA_ReqId : Z;
}.
Record GetArgs : Type := mkGetArgs { GA_Key : string; GA_Id : Z; GA_ReqId : Z }.
Record PutAppendReply : Type := mkPutAppendReply { PR_WrongLeader : bool; PR_Err : string }.
Record GetReply : Type := mkGetReply { GR_WrongLeader : bool; GR_Err : string; GR_Value : string }.

Definition kv_OK : string := "OK".

(** [kv.db[key]]: the zero value for a missing key. *)
Definition db_get (d : gmap string string) (key : string) : string := default EmptyString (d !! key).

(** ** The server *)

(** The maps [StartKVServer] makes. *)
Definition StartKVServer : RaftKV := mkRaftKV ∅ ∅ ∅ 0 false.

Definition checkDup (op : Op) (kv : RaftKV) : bool :=
  match ack kv !! Op_Id op with
  | Some v => v >=? Op_ReqId op
  | None => false
  end.

(** The switch on the operation's type. *)
Definition apply_op (op : Op) (d : gmap string string) : gmap string string :=
  if decide (Op_Type op = "Put") then <[Op_Key op := Op_Value op]> d
  else if decide (Op_Type op = "Append")
  then <[Op_Key op := (db_get d (Op_Key op) +:+ Op_Value op)%string]> d
  else d.

Definition getApply_update (op : Op) (kv : RaftKV) : RaftKV :=
  if checkDup op kv then kv
  else set_ack (<[Op_Id op := Op_ReqId op]> (ack kv)) (set_db (apply_op op (db kv)) kv).

(** The channel is emptied, or made, and then filled. *)
Definition notify (index : Z) (op : Op) (kv : RaftKV) : RaftKV :=
  set_result (<[index := Some op]> (result kv)) kv.

Definition getApply_msg (m : ApplyMsg Op) : M RaftKV () :=
  kv <- get ;;
  let index := m.(Apply_Index) in
  op <- must "interface conversion" m.(Apply_Command) ;;
  if (index >? 1) && negb (kv.(prevIndex) =? index - 1) then panic "unordered index" else
  modify (set_prevIndex index) ;;
  modify (getApply_update op) ;;
  modify (notify index op).

Fixpoint getApply (ms : list (ApplyMsg Op)) : M RaftKV () :=
  match ms with
  | [] => ret tt
  | m :: ms' => getApply_msg m ;; getApply ms'
  end.

(** The channel of an index, made when it is not there. *)
Definition AppendLog_register (index : Z) : M RaftKV () :=
  modify (λ kv, match result kv !! index with
                | Some _ => kv
                | None => set_result (<[index := None]> (result kv)) kv
                end).

(** [AppendLog] up to its [select]: [None] when the peer is not the leader, else the index. *)
Definition AppendLog_begin (entry : Op) : M (Raft Op * RaftKV) (option Z) := λ '(rf, kv),
  match Start (Some entry) rf with
  | Ok ((index, _, isLeader), rf') =>
      if negb isLeader then Ok (None, (rf', kv))
      else match AppendLog_register index kv with
           | Ok (_, kv') => Ok (Some index, (rf', kv'))
           | Panic w => Panic w
           end
  | Panic w => Panic w
  end.

(** The [select] of [AppendLog]: the timer has fired ([timeout]), or the channel has a value,
    which is compared with the entry; [None] while it blocks. *)
Definition AppendLog_wait (timeout : bool) (index : Z) (entry : Op) : M RaftKV (option bool) :=
  if timeout then ret (Some false) else
  kv <- get ;;
  match result kv !! index with
  | Some (Some op) =>
      modify (set_result (<[index := None]> (result kv))) ;;
      ret (Some (bool_decide (op = entry)))
  | _ => ret None
  end.

Definition Get_entry (args : GetArgs) : Op :=
  mkOp "Get" (GA_Key args) EmptyString (GA_Id args) (GA_ReqId args).
Definition PutAppend_entry (args : PutAppendArgs) : Op :=
  mkOp (PA_Op args) (PA_Key args) (PA_Value args) (PA_Id args) (PA_ReqId args).

(** The rest of the handlers once [AppendLog] returned [ok]. *)
Definition Get_finish (args : GetArgs) (ok : bool) : M RaftKV GetReply :=
  if negb ok then ret (mkGetReply true EmptyString EmptyString)
  else
    kv <- get ;;
    modify (set_ack (<[GA_Id args := GA_ReqId args]> (ack kv))) ;;
    ret (mkGetReply false kv_OK (db_get (db kv) (GA_Key args))).

Definition PutAppend_finish (ok : bool) : PutAppendReply :=
  if negb ok then mkPutAppendReply true EmptyString else mkPutAppendReply false kv_OK.

Definition RaftKV_Kill : M (Raft Op * RaftKV) () := λ '(rf, kv),
  match Kill rf with
  | Ok (_, rf') =>
      if kv_stopc kv then Panic "close of closed channel" else Ok (tt, (rf', set_kv_stopc true kv))
  | Panic w => Panic w
  end.

(** ** The client *)

Record Clerk : Type := mkClerk { ck_id : Z; ck_reqId : Z }.

(** [MakeClerk]; [rand] is what [nrand] drew, below [2 ^ 62]. *)
Definition nrand (rand : Z) : Z := rand mod 2 ^ 62.
Definition MakeClerk (rand : Z) : Clerk := mkClerk (nrand rand) 0.

(** The request number of a new request; [reqId] is an [int64]. *)
Definition next_req (ck : Clerk) : Z * Clerk :=
  (ck_reqId ck, mkClerk (ck_id ck) (wrap64 (ck_reqId ck + 1))).

(** [for { for _, c := range ck.servers { ... } }]: the calls are numbered; [call k c] is the
    outcome of call [k], to server [c]: [None] when [Call] returned [false]. *)
Section clerk.
Context {Rep : Type} (wrong : Rep → bool) (call : nat → Z → option Rep) (nservers : Z).

Fixpoint clerk_pass (cs : list Z) (k : nat) : option Rep * nat :=
  match cs with
  | [] => (None, k)
  | c :: cs' =>
      match call k c with
      | Some rep => if negb (wrong rep) then (Some rep, S k) else clerk_pass cs' (S k)
      | None => clerk_pass cs' (S k)
      end
  end.

Fixpoint clerk_loop (fuel : nat) (k : nat) : option Rep :=
  match fuel with
  | O => None
  | S fuel' =>
      match clerk_pass (seqZ 0 nservers) k with
      | (Some rep, _) => Some rep
      | (None, k') => clerk_loop fuel' k'
      end
  end.
End clerk.

(** [Clerk.Get] and [Clerk.PutAppend]: the value returned, when the loop ends within [fuel]
    passes over the servers. *)
Definition Clerk_Get (call : GetArgs → nat → Z → option GetReply) (nservers : Z) (fuel : nat)
    (key : string) (ck : Clerk) : option string * Clerk :=
  let '(r, ck') := next_req ck in
  (GR_Value <$> clerk_loop GR_WrongLeader (call (mkGetArgs key (ck_id ck) r)) nservers fuel 0, ck').

Definition Clerk_PutAppend (call : PutAppendArgs → nat → Z → option PutAppendReply)
    (nservers : Z) (fuel : nat) (key value op : string) (ck : Clerk) : option () * Clerk :=
  let '(r, ck') := next_req ck in
  ((λ _, tt) <$> clerk_loop PR_WrongLeader
      (call (mkPutAppendArgs key value op (ck_id ck) r)) nservers fuel 0, ck').

Definition Clerk_Put call nservers fuel (key value : string) (ck : Clerk) :=
  Clerk_PutAppend call nservers fuel key value "Put" ck.
Definition Clerk_Append call nservers fuel (key value : string) (ck : Clerk) :=
  Clerk_PutAppend call nservers fuel key value "Append" ck.

(** ** Replaying a log of operations *)

(** The effect of the committed operations on the maps of a server. *)
Definition replay (ops : list Op) (kv : RaftKV) : RaftKV :=
  fold_left (λ kv op, getApply_update op kv) ops kv.

(** What the service promises: each request takes effect once, at its first occurrence. *)
Definition req (op : Op) : Z * Z := (Op_Id op, Op_ReqId op).

Fixpoint firsts (seen : list (Z * Z)) (ops : list Op) : list Op :=
  match ops with
  | [] => []
  | op :: ops' =>
      if decide (req op ∈ seen) then firsts seen ops'
      else op :: firsts (req op :: seen) ops'
  end.

Definition spec_db (ops : list Op) : gmap string string :=
  fold_left (λ d op, apply_op op d) (firsts [] ops) ∅.

(** A client starts a request only after its earlier ones were committed: the first
    occurrence of a request is above all requests of its client before it. *)
Definition client_order (ops : list Op) : Prop :=
  ∀ pre op post, ops = pre ++ op :: post → req op ∉ map req pre →
    ∀ op', op' ∈ pre → Op_Id op' = Op_Id op → Op_ReqId op' < Op_ReqId op.

(** [ack] is the latest request of each client. *)
Definition ack_ok (ops : list Op) (a : gmap Z Z) : Prop :=
  ∀ id, match a !! id with
        | Some v => (id, v) ∈ map req ops ∧ ∀ op, op ∈ ops → Op_Id op = id → Op_ReqId op ≤ v
        | None => ∀ op, op ∈ ops → Op_Id op ≠ id
        end.

Lemma elem_of_req (op : Op) ops : op ∈ ops → req op ∈ map req ops.
Proof. apply list_elem_of_fmap_2. Qed.

(** Under [client_order] the duplicate check is exact. *)
Lemma checkDup_exact pre op post kv :
  client_order (pre ++ op :: post) → ack_ok pre (ack kv) →
  checkDup op kv = bool_decide (req op ∈ map req pre).
Proof.
  intros Hord Hack. unfold checkDup. specialize (Hack (Op_Id op)).
  destruct (ack kv !! Op_Id op) as [v|] eqn:Hv; case_bool_decide as Hin.
  - destruct Hack as [_ Hmax]. apply list_elem_of_fmap in Hin as (op' & Heq & Hin').
    injection Heq as Hid Hr. apply Z.geb_le. rewrite Hr. by apply Hmax.
  - destruct Hack as [Hlast _]. apply list_elem_of_fmap in Hlast as (op' & Heq & Hin').
    injection Heq as Hid ->. rewrite Z.geb_leb. apply Z.leb_gt.
    by eapply (Hord pre op post).
  - apply list_elem_of_fmap in Hin as (op' & Heq & Hin'). injection Heq as Hid _.
    by destruct (Hack op').
  - done.
Qed.

Lemma ack_ok_snoc pre op post kv :
  client_order (pre ++ op :: post) → ack_ok pre (ack kv) →
  ack_ok (pre ++ [op]) (ack (getApply_update op kv)).
Proof.
  intros Hord Hack. pose proof (checkDup_exact pre op post kv Hord Hack) as Hdup.
  unfold getApply_update. rewrite Hdup. case_bool_decide as Hin; intros id.
  - specialize (Hack id). destruct (ack kv !! id) as [v|] eqn:Hv.
    + destruct Hack as [Hl Hm]. rewrite map_app. split; [by apply elem_of_app; left|].
      intros op' [?| ->%list_elem_of_singleton]%elem_of_app Hid; [by apply Hm|].
      apply list_elem_of_fmap in Hin as (op1 & Heq & Hin1). injection Heq as Hid1 ->.
      apply Hm; [done|congruence].
    + intros op' [?| ->%list_elem_of_singleton]%elem_of_app; [by apply Hack|].
      apply list_elem_of_fmap in Hin as (op1 & Heq & Hin1). injection Heq as -> _. by apply Hack.
  - simpl. destruct (decide (Op_Id op = id)) as [<-|Hne].
    + rewrite lookup_insert_eq, map_app. split; [by apply elem_of_app; right; left|].
      intros op' [Hin'| ->%list_elem_of_singleton]%elem_of_app Hid; [|lia].
      apply Z.lt_le_incl. by eapply (Hord pre op post).
    + rewrite lookup_insert_ne by done. specialize (Hack id).
      destruct (ack kv !! id) as [v|].
      * destruct Hack as [Hl Hm]. rewrite map_app. split; [by apply elem_of_app; left|].
        intros op' [?| ->%list_elem_of_singleton]%elem_of_app Hid; [by apply Hm|done].
      * intros op' [?| ->%list_elem_of_singleton]%elem_of_app; [by apply Hack|done].
Qed.

Lemma firsts_seen seen seen' ops :
  (∀ x, x ∈ seen ↔ x ∈ seen') → firsts seen ops = firsts seen' ops.
Proof.
  revert seen seen'. induction ops as [|op ops IH]; intros seen seen' H; simpl; [done|].
  destruct (decide (req op ∈ seen)) as [Hin|Hin]; destruct (decide (req op ∈ seen')) as [Hin'|Hin'].
  - by apply IH.
  - by apply H in Hin.
  - by apply H in Hin'.
  - f_equal. apply IH. intros x. rewrite !elem_of_cons. by rewrite H.
Qed.

Lemma replay_spec pre ops kv :
  client_order (pre ++ ops) → ack_ok pre (ack kv) →
  db (replay ops kv) = fold_left (λ d op, apply_op op d) (firsts (map req pre) ops) (db kv).
Proof.
  revert pre kv. induction ops as [|op ops IH]; intros pre kv Hord Hack; simpl; [done|].
  pose proof (checkDup_exact pre op ops kv Hord Hack) as Hdup.
  pose proof (ack_ok_snoc pre op ops kv Hord Hack) as Hack'.
  assert (client_order ((pre ++ [op]) ++ ops)) as Hord' by (by rewrite <- app_assoc).
  rewrite (IH _ _ Hord' Hack'). clear IH Hord'.
  unfold getApply_update in *. rewrite Hdup in *.
  destruct (decide (req op ∈ map req pre)) as [Hin|Hin].
  - rewrite bool_decide_eq_true_2 by done. f_equal. apply firsts_seen. intros x.
    rewrite map_app, elem_of_app. simpl. rewrite list_elem_of_singleton.
    split; [intros [?| ->]; auto|auto].
  - rewrite bool_decide_eq_false_2 by done. simpl. f_equal. apply firsts_seen. intros x.
    rewrite map_app, elem_of_app, elem_of_cons. simpl. rewrite list_elem_of_singleton. tauto.
Qed.

Lemma replay_spec_start ops :
  client_order ops → db (replay ops StartKVServer) = spec_db ops.
Proof.
  intros H. apply (replay_spec [] ops StartKVServer H). intros id. simpl. rewrite lookup_empty.
  intros op Hin. by apply elem_of_nil in Hin.
Qed.

(** ** Applying the messages of a replicated log *)

(** The operations of a stream of messages whose commands are operations. *)
Definition ops_of (ms : list (ApplyMsg Op)) : list Op := omap Apply_Command ms.

Lemma getApply_msg_ok m op kv :
  m.(Apply_Command) = Some op → m.(Apply_Index) = prevIndex kv + 1 →
  getApply_msg m kv =
    Ok (tt, notify m.(Apply_Index) op (getApply_update op (set_prevIndex m.(Apply_Index) kv))).
Proof.
  intros Hop Hi. unfold getApply_msg, bind, get, must, modify. rewrite Hop. simpl.
  replace (prevIndex kv =? Apply_Index m - 1) with true by (symmetry; apply Z.eqb_eq; lia).
  by rewrite andb_false_r.
Qed.

(** Two servers with the same database and acknowledgements. *)
Definition same_maps (kv kv' : RaftKV) : Prop := db kv = db kv' ∧ ack kv = ack kv'.

#[export] Instance same_maps_equiv : Equivalence same_maps.
Proof.
  split; [by split|by intros ?? []; split|]. intros ??? [] []. split; congruence.
Qed.

#[export] Instance getApply_update_proper op :
  Proper (same_maps ==> same_maps) (getApply_update op).
Proof.
  intros kv kv' [Hd Ha]. unfold getApply_update, checkDup. rewrite Ha.
  destruct (ack kv' !! Op_Id op) as [v|]; [destruct (_ >=? _)|]; split; simpl; congruence.
Qed.

#[export] Instance replay_proper ops : Proper (same_maps ==> same_maps) (replay ops).
Proof.
  induction ops as [|op ops IH]; intros kv kv' H; simpl; [done|]. apply IH. by rewrite H.
Qed.

Lemma getApply_update_prev op kv : prevIndex (getApply_update op kv) = prevIndex kv.
Proof. unfold getApply_update. by destruct (checkDup op kv). Qed.

(** Messages in order are applied without a panic, and have the effect of [replay]. *)
Lemma getApply_replay ms kv kv0 :
  map Apply_Index ms = seqZ (prevIndex kv + 1) (go_len ms) →
  Forall (λ m, is_Some m.(Apply_Command)) ms → same_maps kv kv0 →
  ∃ kv', getApply ms kv = Ok (tt, kv') ∧ prevIndex kv' = prevIndex kv + go_len ms ∧
    same_maps kv' (replay (ops_of ms) kv0).
Proof.
  revert kv kv0. induction ms as [|m ms IH]; intros kv kv0 Hi Hc Hs.
  - exists kv. unfold go_len. simpl. split_and!; [done|lia|done].
  - inv Hc. match goal with H : is_Some _ |- _ => destruct H as [op Hop] end.
    unfold go_len in Hi. simpl in Hi. rewrite Nat2Z.inj_succ, seqZ_cons in Hi by lia.
    injection Hi as Hm Hms. simpl. unfold bind. rewrite (getApply_msg_ok m op kv Hop Hm).
    set (kv1 := notify _ _ _).
    assert (prevIndex kv1 = Apply_Index m) as Hp1 by (unfold kv1; simpl; by rewrite getApply_update_prev).
    destruct (IH kv1 (getApply_update op kv0)) as (kv' & -> & Hp & Hs').
    + rewrite Hp1, Hms, Hm. unfold go_len. do 2 f_equal; lia.
    + done.
    + unfold kv1. by apply getApply_update_proper.
    + exists kv'. split_and!; [done| |].
      * rewrite Hp, Hp1, Hm. unfold go_len. simpl. lia.
      * unfold ops_of in *. simpl. by rewrite Hop.
Qed.

(** ** The interface to the replicated log *)

(** What the service needs of consensus: every server receives the commands in the order of
    their indices, without gaps, and two servers receive the same command at an index. *)
Class ReplicatedLog (Conf Cmd : Type) : Type := {
  rl_reachable : Conf → Prop;
  rl_server : Z → Prop;
  rl_applied : Conf → Z → list (ApplyMsg Cmd);
  rl_in_order : ∀ c i, rl_reachable c → rl_server i →
    map Apply_Index (rl_applied c i) = seqZ 1 (go_len (rl_applied c i));
  rl_agree : ∀ c i j k m m', rl_reachable c → rl_server i → rl_server j →
    rl_applied c i !! k = Some m → rl_applied c j !! k = Some m' → m = m';
}.

(** The Raft cluster provides it. *)
Section raft_instance.
Context {Cmd : Type} (n : Z) (Hn : 2 ≤ n).

Lemma raft_applied_length (c : Config Cmd) s i :
  NetInv n s c → 0 ≤ i < n → go_len (applied c i) = lastApplied (servers c i).
Proof.
  intros G Hi. rewrite (gi_applied _ _ _ G i Hi). pose proof (gi_node _ _ _ G i Hi) as N.
  pose proof (ni_applied _ _ _ _ N). destruct (ni_commit _ _ _ _ N) as [Hc _]. unfold go_len in *.
  rewrite length_map, length_drop, length_take. lia.
Qed.

Lemma raft_applied_lookup (c : Config Cmd) s i k m :
  NetInv n s c → 0 ≤ i < n → applied c i !! k = Some m →
  ∃ e, log (servers c i) !! S k = Some e ∧ m = entry_msg e ∧ Z.of_nat (S k) ≤ lastApplied (servers c i).
Proof.
  intros G Hi Hk. pose proof (raft_applied_length c s i G Hi) as Hlen.
  pose proof (lookup_lt_Some _ _ _ Hk). rewrite (gi_applied _ _ _ G i Hi) in Hk.
  rewrite list_lookup_fmap, lookup_drop in Hk. apply fmap_Some in Hk as (e & He & ->).
  apply lookup_take_Some in He as [He _]. exists e. unfold go_len in *. split_and!; [done..|lia].
Qed.

#[export] Instance raft_replicated_log : ReplicatedLog (Config Cmd) Cmd.
Proof.
  refine {| rl_reachable := reachable n; rl_server := λ i, 0 ≤ i < n; rl_applied := applied |}.
  - intros c i (s & _ & G)%reachable_inv Hi; [|done]. pose proof (gi_node _ _ _ G i Hi) as N.
    apply list_eq. intros k. destruct (applied c i !! k) as [m|] eqn:Hk.
    + destruct (raft_applied_lookup c s i k m G Hi Hk) as (e & He & -> & Hle).
      rewrite list_lookup_fmap, Hk. simpl. pose proof (raft_applied_length c s i G Hi).
      rewrite lookup_seqZ_lt by lia.
      destruct (NodeInv_wf n s i _ (gi_abs _ _ _ G) N) as [_ Hw]. rewrite (Hw _ _ He). f_equal. lia.
    + rewrite list_lookup_fmap, Hk. simpl. apply lookup_ge_None in Hk.
      rewrite lookup_seqZ_ge; [done|]. unfold go_len. lia.
  - intros c i j k m m' (s & _ & G)%reachable_inv Hi Hj Hm Hm'; [|done].
    destruct (raft_applied_lookup c s i k m G Hi Hm) as (e & He & -> & Hle).
    destruct (raft_applied_lookup c s j k m' G Hj Hm') as (e' & He' & -> & Hle').
    pose proof (gi_node _ _ _ G i Hi) as Ni. pose proof (gi_node _ _ _ G j Hj) as Nj.
    pose proof (ni_applied _ _ _ _ Ni). pose proof (ni_applied _ _ _ _ Nj).
    pose proof (gi_abs _ _ _ G) as I. f_equal.
    assert (take (S (S k)) (log (servers c i)) = take (S (S k)) (log (servers c j))) as Ht.
    { eapply (commit_agree n Hn s); [done|by eapply NodeInv_wf|by eapply (NodeInv_wf _ s j)|
        apply Ni|apply Nj|lia..]. }
    apply (take_eq_lookup_1 _ (S k)) in Ht; [|lia]. congruence.
Defined.

Lemma raft_rl_applied c i : rl_applied (ReplicatedLog := raft_replicated_log) c i = applied c i.
Proof. reflexivity. Qed.
End raft_instance.
