(* ===== verification/KvTheorems.v ===== *)
(** * What the key/value service guarantees

    The servers of KvRaft.v run the log of any [ReplicatedLog]; the witnesses
    use the Raft cluster.  A run of a server is a list of events: messages of
    [applyCh] and the critical sections of the handlers, in any interleaving.
    Exactly-once semantics needs that no [Get]
    handler takes the lock late; [late_get_applies_twice] shows why. *)
From S2P Require Import Prelude GoRt RaftTypes RaftNode RaftProto RaftNet RaftSpec RaftSim RaftSafety KvRaft.
Open Scope Z_scope.

(** ** The server's part of the handlers, as events *)

Inductive kv_event : Type :=
| KApply (m : ApplyMsg Op)
| KRegister (index : Z)
| KWait (timeout : bool) (index : Z) (entry : Op)
| KGetFinish (args : GetArgs).

Definition kv_event_exec (e : kv_event) : M RaftKV () :=
  match e with
  | KApply m => getApply_msg m
  | KRegister index => AppendLog_register index
  | KWait timeout index entry => AppendLog_wait timeout index entry ;; ret tt
  | KGetFinish args => Get_finish args true ;; ret tt
  end.

Definition kv_run (evs : list kv_event) : M RaftKV () := for_range evs kv_event_exec.

Definition kv_applies (evs : list kv_event) : list (ApplyMsg Op) :=
  omap (λ e, match e with KApply m => Some m | _ => None end) evs.

(** A buffered value was applied at its index. *)
Definition result_ok (ms : list (ApplyMsg Op)) (kv : RaftKV) : Prop :=
  ∀ i op, result kv !! i = Some (Some op) → mkApplyMsg i (Some op) ∈ ms.

Lemma result_ok_event ms e kv kv' :
  result_ok ms kv → kv_event_exec e kv = Ok (tt, kv') → result_ok (ms ++ kv_applies [e]) kv'.
Proof.
  intros Hr. destruct e as [m|i|t i en|a]; simpl; unfold kv_applies; simpl; rewrite ?app_nil_r.
  - destruct m as [i cmd]. unfold getApply_msg, bind, get, must, modify. simpl.
    destruct cmd as [op|]; [|done]. simpl. destruct (_ && _); [done|]. intros H. injection H as <-.
    intros j op'. simpl. intros [[<- Heq]|[_ Hj]]%lookup_insert_Some; apply elem_of_app.
    + injection Heq as <-. right. by apply list_elem_of_singleton.
    + left. apply Hr. unfold getApply_update in Hj. by destruct (checkDup _ _).
  - intros H. injection H as <-. destruct (result kv !! i) eqn:Hi; [done|].
    intros j op'. simpl. intros [[_ ?]|[_ ?]]%lookup_insert_Some; [done|auto].
  - unfold AppendLog_wait, bind, get, modify, ret. destruct t; [intros H; by injection H as <-|].
    destruct (result kv !! i) as [[op|]|] eqn:Hi; intros H; injection H as <-; try done.
    intros j op'. simpl. intros [[_ ?]|[_ ?]]%lookup_insert_Some; [done|auto].
  - intros H. injection H as <-. done.
Qed.

Lemma result_ok_run ms evs kv kv' :
  result_ok ms kv → kv_run evs kv = Ok (tt, kv') → result_ok (ms ++ kv_applies evs) kv'.
Proof.
  revert ms kv. unfold kv_run. induction evs as [|e evs IH]; intros ms kv Hr H; simpl in H.
  - injection H as <-. by rewrite app_nil_r.
  - unfold bind in H. destruct (kv_event_exec e kv) as [[[] kv1]|] eqn:He; [|done].
    replace (kv_applies (e :: evs)) with (kv_applies [e] ++ kv_applies evs)
      by (unfold kv_applies; by rewrite <- omap_app).
    rewrite app_assoc. eapply IH; [|done]. by eapply result_ok_event.
Qed.

(** C6: A handler that reports success tells the truth: when [AppendLog] returns [true] for an
    entry at an index, the server has applied exactly that entry at that index, whatever the
    interleaving of the handlers with the apply loop. *)
Theorem append_true_means_applied evs kv kv' index entry :
  kv_run evs StartKVServer = Ok (tt, kv) →
  AppendLog_wait false index entry kv = Ok (Some true, kv') →
  mkApplyMsg index (Some entry) ∈ kv_applies evs.
Proof.
  intros Hrun Hw. assert (result_ok (kv_applies evs) kv) as Hr
    by (by apply (result_ok_run [] evs StartKVServer)).
  unfold AppendLog_wait, bind, get, modify, ret in Hw.
  destruct (result kv !! index) as [[op|]|] eqn:Hi; [|done..].
  injection Hw as Heq _. apply bool_decide_eq_true in Heq as <-. by apply Hr.
Qed.

(** ** Runs of a server and the log they apply *)

Definition log_ops (evs : list kv_event) : list Op := ops_of (kv_applies evs).

Lemma kv_applies_app evs evs' : kv_applies (evs ++ evs') = kv_applies evs ++ kv_applies evs'.
Proof. apply omap_app. Qed.

Lemma log_ops_app evs evs' : log_ops (evs ++ evs') = log_ops evs ++ log_ops evs'.
Proof. unfold log_ops, ops_of. by rewrite kv_applies_app, omap_app. Qed.

(** Every [Get] handler takes the lock while its request is the client's acknowledged one. *)
Definition in_time (evs : list kv_event) : Prop :=
  ∀ pre args post, evs = pre ++ KGetFinish args :: post →
    ack (replay (log_ops pre) StartKVServer) !! GA_Id args = Some (GA_ReqId args).

(** Every [Get] handler takes the lock after its entry was applied, and before a later request
    of its client is. *)
Definition gets_prompt (evs : list kv_event) : Prop :=
  ∀ pre args post, evs = pre ++ KGetFinish args :: post →
    (GA_Id args, GA_ReqId args) ∈ map req (log_ops pre) ∧
    ∀ op, op ∈ log_ops pre → Op_Id op = GA_Id args → Op_ReqId op ≤ GA_ReqId args.

Lemma replay_snoc ops op kv : replay (ops ++ [op]) kv = getApply_update op (replay ops kv).
Proof. unfold replay. by rewrite fold_left_app. Qed.

Lemma ack_ok_replay pre post :
  client_order (pre ++ post) → ack_ok pre (ack (replay pre StartKVServer)).
Proof.
  revert post. induction pre as [|op pre IH] using rev_ind; intros post Hord.
  - intros id. simpl. rewrite lookup_empty. intros op Hin. by apply elem_of_nil in Hin.
  - rewrite <- app_assoc in Hord. rewrite replay_snoc. eapply ack_ok_snoc; [done|]. by eapply IH.
Qed.

Lemma gets_prompt_in_time evs : client_order (log_ops evs) → gets_prompt evs → in_time evs.
Proof.
  intros Hord Hp pre args post Heq. destruct (Hp pre args post Heq) as [Hin Hmax].
  rewrite Heq, log_ops_app in Hord. pose proof (ack_ok_replay _ _ Hord (GA_Id args)) as Hack.
  apply list_elem_of_fmap in Hin as (op & Hreq & Hin). injection Hreq as Hid Hr.
  destruct (ack _ !! GA_Id args) as [v|]; [|by destruct (Hack op Hin)].
  destruct Hack as [Hlast Hle]. apply list_elem_of_fmap in Hlast as (op' & Hreq' & Hin').
  injection Hreq' as Hid' ->. f_equal. apply Z.le_antisymm; [by apply Hmax|].
  rewrite Hr. by apply Hle.
Qed.

(** Handlers that are in time leave the maps to the apply loop. *)
Lemma kv_event_replay pre e post kv :
  in_time (pre ++ e :: post) → Forall (λ m, is_Some m.(Apply_Command)) (kv_applies [e]) →
  map Apply_Index (kv_applies [e]) = seqZ (prevIndex kv + 1) (go_len (kv_applies [e])) →
  same_maps kv (replay (log_ops pre) StartKVServer) →
  ∃ kv', kv_event_exec e kv = Ok (tt, kv') ∧ prevIndex kv' = prevIndex kv + go_len (kv_applies [e]) ∧
    same_maps kv' (replay (log_ops (pre ++ [e])) StartKVServer).
Proof.
  intros Ht Hc Hi Hs. rewrite log_ops_app. destruct e as [m|i|t i en|args].
  - destruct (getApply_replay [m] kv (replay (log_ops pre) StartKVServer) Hi Hc Hs) as (kv' & Hr & Hp & Hm).
    exists kv'. simpl in Hr. unfold bind in Hr. simpl.
    destruct (getApply_msg m kv) as [[[] kv1]|]; [|done]. injection Hr as <-.
    split_and!; [done..|]. unfold replay in *. by rewrite fold_left_app.
  - rewrite app_nil_r, Z.add_0_r. eexists. split; [reflexivity|]. by destruct (result kv !! i).
  - rewrite app_nil_r, Z.add_0_r. simpl. unfold bind, AppendLog_wait, get, modify, ret.
    destruct t; [by eexists|]. unfold bind.
    destruct (result kv !! i) as [[op|]|]; by (eexists; split; [reflexivity|]).
  - rewrite app_nil_r, Z.add_0_r. eexists. split; [reflexivity|]. split; [done|].
    destruct Hs as [Hd Ha]. split; [done|]. simpl. rewrite Ha.
    apply insert_id. by eapply Ht.
Qed.

Lemma kv_run_replay_from pre evs kv :
  in_time (pre ++ evs) → Forall (λ m, is_Some m.(Apply_Command)) (kv_applies evs) →
  map Apply_Index (kv_applies evs) = seqZ (prevIndex kv + 1) (go_len (kv_applies evs)) →
  same_maps kv (replay (log_ops pre) StartKVServer) →
  ∃ kv', kv_run evs kv = Ok (tt, kv') ∧ prevIndex kv' = prevIndex kv + go_len (kv_applies evs) ∧
    same_maps kv' (replay (log_ops (pre ++ evs)) StartKVServer).
Proof.
  revert pre kv. unfold kv_run. induction evs as [|e evs IH]; intros pre kv Ht Hc Hi Hs.
  - exists kv. rewrite app_nil_r. simpl. unfold go_len. simpl. split_and!; [done|lia|done].
  - change (kv_applies (e :: evs)) with (kv_applies ([e] ++ evs)) in *.
    rewrite kv_applies_app in *. apply Forall_app in Hc as [Hc1 Hc2].
    unfold go_len in *. rewrite length_app, Nat2Z.inj_add in *.
    rewrite map_app, seqZ_app in Hi by lia.
    apply app_inj_1 in Hi as [Hi1 Hi2]; [|rewrite length_map, length_seqZ; lia].
    destruct (kv_event_replay pre e evs kv Ht Hc1 Hi1 Hs) as (kv1 & Hrun & Hp & Hs1).
    cbn [for_range]. unfold bind. rewrite Hrun. replace (pre ++ e :: evs) with ((pre ++ [e]) ++ evs) in *
      by (by rewrite <- app_assoc).
    destruct (IH (pre ++ [e]) kv1 Ht Hc2) as (kv' & Hrun' & Hp' & Hs'); [|done|].
    + rewrite Hi2, Hp. unfold go_len. f_equal; lia.
    + exists kv'. split_and!; [done| |done]. rewrite Hp', Hp. unfold go_len. lia.
Qed.

Lemma kv_run_replay evs ms :
  kv_applies evs = ms → in_time evs → Forall (λ m, is_Some m.(Apply_Command)) ms →
  map Apply_Index ms = seqZ 1 (go_len ms) →
  ∃ kv, kv_run evs StartKVServer = Ok (tt, kv) ∧ prevIndex kv = go_len ms ∧
    same_maps kv (replay (ops_of ms) StartKVServer).
Proof. intros <- Ht Hc Hi. by apply (kv_run_replay_from [] evs StartKVServer). Qed.

Section service.
Context {Conf : Type} `{RL : ReplicatedLog Conf Op}.

(** All commands of a server's stream are operations. *)
Definition all_ops (ms : list (ApplyMsg Op)) : Prop := Forall (λ m, is_Some m.(Apply_Command)) ms.

(** Exactly-once semantics.  A server that applies the log while its handlers run, in any
    interleaving in which a [Get] handler takes the lock before a later request of its client
    is applied, never sees an index out of order, and its database is the one the specification
    gives: every request takes effect exactly once, at its first occurrence in the log.
    Clients may retry a request any number of times; they start a request only after their
    earlier ones. *)
Theorem kv_exactly_once c i evs :
  rl_reachable c → rl_server (Cmd := Op) (Conf := Conf) i → all_ops (rl_applied c i) →
  client_order (ops_of (rl_applied c i)) →
  kv_applies evs = rl_applied c i → gets_prompt evs →
  ∃ kv, kv_run evs StartKVServer = Ok (tt, kv) ∧
    db kv = spec_db (ops_of (rl_applied c i)) ∧ prevIndex kv = go_len (rl_applied c i).
Proof.
  intros Hr Hi Ha Ho He Hg.
  destruct (kv_run_replay evs (rl_applied c i)) as (kv & H & Hp & Hd & _);
    [done| |done|by apply rl_in_order|].
  - apply gets_prompt_in_time; [|done]. unfold log_ops. by rewrite He.
  - exists kv. split_and!; [done| |done]. rewrite Hd. by apply replay_spec_start.
Qed.

End service.

(** ** The client *)

Section clerk_loop.
Context {Rep : Type} (wrong : Rep → bool) (call : nat → Z → option Rep) (ns : nat).

(** Call [k] of the loop goes to server [k mod ns]. *)
Definition good (k : nat) (rep : Rep) : Prop :=
  call k (Z.of_nat (k mod ns)) = Some rep ∧ wrong rep = false.

(** A pass over the servers from [x] on, starting with call [k]. *)
Lemma clerk_pass_spec (x k q : nat) :
  (x ≤ ns)%nat → k = (q * ns + x)%nat →
  (∃ k' rep, (k ≤ k' < q * ns + ns)%nat ∧ good k' rep ∧ (∀ k1, (k ≤ k1 < k')%nat → ∀ r, ¬ good k1 r) ∧
     clerk_pass wrong call (seqZ (Z.of_nat x) (Z.of_nat (ns - x))) k = (Some rep, S k')) ∨
  ((∀ k1, (k ≤ k1 < q * ns + ns)%nat → ∀ r, ¬ good k1 r) ∧
     clerk_pass wrong call (seqZ (Z.of_nat x) (Z.of_nat (ns - x))) k = (None, (q * ns + ns)%nat)).
Proof.
  remember (ns - x)%nat as d eqn:Hd. revert x k Hd. induction d as [|d IH]; intros x k Hd Hx Hk.
  { right. split; [lia|]. simpl. f_equal. lia. }
  rewrite Nat2Z.inj_succ, seqZ_cons by lia. simpl.
  assert (k mod ns = x)%nat as Hmod.
  { subst k. rewrite Nat.add_comm, Nat.Div0.mod_add, Nat.mod_small; lia. }
  replace (Z.succ (Z.of_nat x)) with (Z.of_nat (S x)) by lia.
  replace (Z.pred (Z.succ (Z.of_nat d))) with (Z.of_nat d) by lia.
  destruct (call k (Z.of_nat x)) as [rep|] eqn:Hc; [destruct (wrong rep) eqn:Hw; simpl|].
  2: { left. exists k, rep. split; [lia|]. split; [split; [by rewrite Hmod|done]|].
       split; [lia|done]. }
  all: assert (∀ r, ¬ good k r) as Hbad by (intros r [H1 H2]; rewrite Hmod in H1; congruence).
  all: destruct (IH (S x) (S k)) as [(k' & rep' & ? & Hg & Hno & ->)|[Hno ->]]; [lia..| |].
  1,3: left; exists k', rep'; (split; [lia|]); (split; [done|]); (split; [|done]);
    intros k1 ?; destruct (decide (k1 = k)) as [->|]; [done|apply Hno; lia].
  all: right; split; [|done]; intros k1 ?; destruct (decide (k1 = k)) as [->|]; [done|apply Hno; lia].
Qed.

(** The loop returns the reply of the first call that reaches a leader. *)
Lemma clerk_loop_first fuel q k rep :
  (0 < ns)%nat → (q * ns ≤ k < (q + fuel) * ns)%nat → good k rep →
  (∀ k1, (q * ns ≤ k1 < k)%nat → ∀ r, ¬ good k1 r) →
  clerk_loop wrong call (Z.of_nat ns) fuel (q * ns) = Some rep.
Proof.
  intros Hns. revert q. induction fuel as [|fuel IH]; intros q Hk Hg Hno; [lia|]. simpl.
  destruct (clerk_pass_spec 0 (q * ns) q) as [(k' & rep' & Hk' & Hg' & Hno' & Hp)|[Hno' Hp]]; [lia..| |];
    rewrite Nat.sub_0_r in Hp; change (Z.of_nat 0) with 0 in Hp; rewrite Hp.
  - destruct (decide (k' = k)) as [->|Hne].
    + destruct Hg, Hg'. congruence.
    + destruct (decide (k' < k)%nat).
      * by destruct (Hno k' ltac:(lia) rep').
      * by destruct (Hno' k ltac:(lia) rep).
  - replace (q * ns + ns)%nat with (S q * ns)%nat by lia.
    assert (q * ns + ns ≤ k)%nat as Hge.
    { destruct (decide (k < q * ns + ns)%nat); [|lia]. by destruct (Hno' k ltac:(lia) rep). }
    apply IH; [lia|done|]. intros k1 ?. apply Hno. lia.
Qed.
End clerk_loop.

(** [Clerk.Get] ends as soon as a call reaches a leader, and returns the value of that
    reply: if the first successful call is number [k] of the endless loop over the servers,
    [k / servers + 1] passes give its value. *)
Theorem clerk_get_returns call (ns fuel k : nat) key ck rep :
  (0 < ns)%nat → (k < fuel * ns)%nat →
  good GR_WrongLeader (call (mkGetArgs key (ck_id ck) (ck_reqId ck))) ns k rep →
  (∀ k1, (k1 < k)%nat → ∀ r, ¬ good GR_WrongLeader (call (mkGetArgs key (ck_id ck) (ck_reqId ck))) ns k1 r) →
  (Clerk_Get call (Z.of_nat ns) fuel key ck).1 = Some (GR_Value rep).
Proof.
  intros Hns Hk Hg Hno. unfold Clerk_Get. simpl.
  rewrite (clerk_loop_first _ _ ns fuel 0 k rep); [done|done|lia|done|].
  intros k1 ?. apply Hno. lia.
Qed.

(** The request numbers of the next [k] requests of a clerk. *)
Fixpoint requests (k : nat) (ck : Clerk) : list Z :=
  match k with
  | O => []
  | S k' => let '(r, ck') := next_req ck in r :: requests k' ck'
  end.

Lemma requests_from id a (k : nat) :
  0 ≤ a → a + Z.of_nat k ≤ 2 ^ 63 → requests k (mkClerk id a) = seqZ a (Z.of_nat k).
Proof.
  revert a. induction k as [|k IH]; intros a Ha Hk; [done|].
  rewrite Nat2Z.inj_succ, seqZ_cons by lia. cbn [requests next_req ck_reqId ck_id]. f_equal.
  rewrite Z.pred_succ. destruct k as [|k]; [done|]. rewrite wrap64_id by (unfold max_int; lia).
  rewrite <- (Z.add_1_r a), IH by lia. done.
Qed.

(** C35: Request numbers of a clerk are 0, 1, 2, ...: until 2^63 requests were made, no
    two requests of a clerk carry the same number, and a later one carries a larger one. *)
Theorem clerk_request_numbers rand (k : nat) :
  Z.of_nat k ≤ 2 ^ 63 → requests k (MakeClerk rand) = seqZ 0 (Z.of_nat k).
Proof. intros Hk. apply requests_from; lia. Qed.

(** ** Runs *)

(** Server 0 of a cluster of three takes a put, an append, the append again because the client
    retried it, and a get; servers 0 and 1 have applied them, server 2 nothing. *)
Definition op_put : Op := mkOp "Put" "k" "a" 7 0.
Definition op_append : Op := mkOp "Append" "k" "b" 7 1.
Definition get_args : GetArgs := mkGetArgs "k" 7 2.

Definition kv_acts : list (action Op) :=
  elect_0 ++ [AStart 0 (Some op_put); AStart 0 (Some op_append); AStart 0 (Some op_append);
              AStart 0 (Some (Get_entry get_args));
              ASend 0 9; ADeliver 0 []; ADeliver 0 []; AApply 0] ++
  ticks 0 5 ++ [ASend 0 10; ADeliver 0 []; AApply 1].

Definition kv_conf : Config Op := after kv_acts.

Definition kv_msgs : list (ApplyMsg Op) :=
  [mkApplyMsg 1 (Some op_put); mkApplyMsg 2 (Some op_append);
   mkApplyMsg 3 (Some op_append); mkApplyMsg 4 (Some (Get_entry get_args))].

Lemma kv_conf_reachable : reachable 3 kv_conf.
Proof. apply after_reachable. vm_compute. reflexivity. Qed.

Lemma kv_conf_applied i : i = 0 ∨ i = 1 → applied kv_conf i = kv_msgs.
Proof. intros [->| ->]; vm_compute; reflexivity. Qed.

Lemma kv_conf_order : client_order (ops_of kv_msgs).
Proof.
  intros pre op post Heq Hnew op' Hin Hid.
  destruct pre as [|o1 [|o2 [|o3 [|o4 pre]]]]; simplify_eq/=; [by apply elem_of_nil in Hin| | | |by destruct pre].
  - apply list_elem_of_singleton in Hin as ->. simpl. lia.
  - destruct Hnew. right. left.
  - rewrite !elem_of_cons in Hin. destruct Hin as [->|[->|[->|[]%elem_of_nil]]]; simpl; lia.
Qed.

(** The leader's run: the handler of the get waits for index 4 while the log is applied. *)
Definition leader_events : list kv_event :=
  [KApply (mkApplyMsg 1 (Some op_put)); KApply (mkApplyMsg 2 (Some op_append)); KRegister 4;
   KApply (mkApplyMsg 3 (Some op_append)); KWait false 4 (Get_entry get_args);
   KApply (mkApplyMsg 4 (Some (Get_entry get_args))); KWait false 4 (Get_entry get_args);
   KGetFinish get_args].

Lemma leader_prompt : gets_prompt leader_events.
Proof.
  intros pre args post Heq.
  do 7 (destruct pre as [|? pre]; [discriminate Heq|]; injection Heq as <- Heq).
  destruct pre as [|? pre]; [|injection Heq as _ Heq; by destruct pre].
  injection Heq as <- _. split; [right; right; right; left|].
  intros op Hin _. unfold log_ops in Hin. simpl in Hin. rewrite !elem_of_cons in Hin.
  destruct Hin as [->|[->|[->|[->|[]%elem_of_nil]]]]; simpl; lia.
Qed.

Lemma kv_exactly_once_witness :
  ∃ kv, kv_run leader_events StartKVServer = Ok (tt, kv) ∧ db kv !! "k" = Some "ab"%string.
Proof.
  pose proof (kv_exactly_once (RL := raft_replicated_log 3 ltac:(lia)) kv_conf 0 leader_events) as H.
  rewrite raft_rl_applied, (kv_conf_applied 0 (or_introl eq_refl)) in H.
  destruct (H kv_conf_reachable ltac:(simpl; lia) ltac:(repeat constructor; by eexists) kv_conf_order
    eq_refl leader_prompt) as (kv & Hk & Hd & _).
  exists kv. split; [exact Hk|]. rewrite Hd. vm_compute. reflexivity.
Defined.

(** A put that is registered, applied and waited for. *)
Definition put_events : list kv_event :=
  [KRegister 1; KApply (mkApplyMsg 1 (Some op_put))].

Lemma append_true_means_applied_witness :
  mkApplyMsg 1 (Some op_put) ∈ kv_applies put_events.
Proof.
  destruct (kv_run put_events StartKVServer) as [[[] kv]|] eqn:Hrun; [|by vm_compute in Hrun].
  destruct (AppendLog_wait false 1 op_put kv) as [[o kv']|] eqn:Hw.
  - apply (append_true_means_applied put_events kv kv' 1 op_put Hrun).
    revert Hw. vm_compute in Hrun. injection Hrun as <-. vm_compute. intros H. injection H as <- <-.
    reflexivity.
  - exfalso. vm_compute in Hrun. injection Hrun as <-. by vm_compute in Hw.
Defined.

(** The first call fails, the second reaches a follower, the third the leader. *)
Definition three_calls (args : GetArgs) (k : nat) (c : Z) : option GetReply :=
  match k with
  | 0%nat => None
  | 1%nat => Some (mkGetReply true EmptyString EmptyString)
  | _ => Some (mkGetReply false kv_OK "v")
  end.

Lemma clerk_get_returns_witness :
  (Clerk_Get three_calls 3 1 "k" (MakeClerk 5)).1 = Some "v"%string.
Proof.
  apply (clerk_get_returns three_calls 3 1 2 "k" (MakeClerk 5) (mkGetReply false kv_OK "v")).
  - lia.
  - lia.
  - by split.
  - intros [|[|k1]] ? r [H1 H2]; [done| |lia]. simpl in H1. by simplify_eq.
Defined.

Lemma clerk_request_numbers_witness : requests 3 (MakeClerk 5) = seqZ 0 3.
Proof. apply (clerk_request_numbers 5 3). lia. Defined.

(** ** A race of the [Get] handler *)

(** The same log (a get and its retry, an append and its retry) on two servers.  On the second
    both handlers of the get run; the first of them, which has received its entry, takes the
    lock only after the append was applied, and resets the client's acknowledgement. *)
Definition op_get : Op := mkOp "Get" "k" EmptyString 7 0.
Definition race_log : list kv_event :=
  [KApply (mkApplyMsg 1 (Some op_get)); KApply (mkApplyMsg 2 (Some op_get));
   KApply (mkApplyMsg 3 (Some op_append)); KApply (mkApplyMsg 4 (Some op_append))].
Definition race_late_get : list kv_event :=
  [KRegister 1; KApply (mkApplyMsg 1 (Some op_get)); KWait false 1 op_get;
   KRegister 2; KApply (mkApplyMsg 2 (Some op_get)); KWait false 2 op_get;
   KGetFinish (mkGetArgs "k" 7 0);
   KApply (mkApplyMsg 3 (Some op_append)); KGetFinish (mkGetArgs "k" 7 0);
   KApply (mkApplyMsg 4 (Some op_append))].

(** Replicas can diverge: [Get] writes [ack] outside the apply loop, so a handler that is
    slow to take the lock makes its server apply a retried append twice. *)
Theorem late_get_applies_twice :
  kv_applies race_log = kv_applies race_late_get ∧
  ∃ kv1 kv2, kv_run race_log StartKVServer = Ok (tt, kv1) ∧
    kv_run race_late_get StartKVServer = Ok (tt, kv2) ∧
    db_get (db kv1) "k" = "b"%string ∧ db_get (db kv2) "k" = "bb"%string.
Proof.
  split; [reflexivity|]. do 2 eexists.
  split; [vm_compute; reflexivity|]. split; [vm_compute; reflexivity|]. by vm_compute.
Qed.
