(* ===== verification/KvCluster.v ===== *)
(** * The key/value service as a whole

    The cluster of Raft peers with the memory of their logs (RaftAlias.v), a
    [RaftKV] server on each of them, the handlers that run in the servers and the
    clerks that call them.  A call of a clerk is a [call]: the request on its way to
    a server ([Sent]), the handler at the points where it holds no lock ([Started],
    [Waiting], [Appended]) and the reply on its way back ([Replied]).  One [kaction]
    is one critical section:

    - [KcRaft a]: the peers and the network between them ([alias_exec]);
    - [KcRestart i rs], [KcKill i]: a server is restarted from its persister, or killed;
    - [KcTake i]: [getApply] receives the next message of [applyCh];
    - [KcInvoke id o]: a client calls a method of the clerk [id];
    - [KcCall id k i]: the loop of the [k]-th method under way at clerk [id] calls server [i];
    - [KcStart h], [KcRegister h], [KcWait t h], [KcFinish h]: the handler of call [h] goes on;
    - [KcReply h]: the reply of call [h] reaches the clerk;
    - [KcLose h]: the request or the reply of call [h] is lost.

    The model allows more than the code where this is harmless: a clerk may call
    any server at any time, with earlier calls of the same request still under
    way.  Several goroutines may use a clerk, whose mutex guards only the request
    number.  A clerk is named by its identity, so clerks whose identities [nrand] drew
    alike are one.  [kc_hist] records what the clients see.

    The service keeps its promises in the runs that are [orderly]:
    - [kc_limits]: no term and no request number has reached the largest [int];
    - [kc_prompt]: a [Get] handler takes the lock while its request is the last one of its
      client that was acknowledged;
    - [kc_sequential]: a clerk is used by one goroutine at a time;
    - [prompt]: no log is truncated while an append request that shares its memory waits. *)
From S2P Require Import Prelude GoRt RaftTypes RaftNode RaftNet RaftMem RaftAlias KvRaft.
Open Scope Z_scope.

(** ** Requests, replies and calls *)

Inductive kv_request : Type :=
| ReqGet (args : GetArgs)
| ReqPutAppend (args : PutAppendArgs).

Inductive kv_reply : Type :=
| RepGet (reply : GetReply)
| RepPutAppend (reply : PutAppendReply).

#[export] Instance kv_request_eq_dec : EqDecision kv_request.
Proof.
  assert (EqDecision GetArgs) by solve_decision.
  assert (EqDecision PutAppendArgs) by solve_decision. solve_decision.
Defined.

(** The log entry a handler makes of its arguments. *)
Definition request_entry (q : kv_request) : Op :=
  match q with ReqGet args => Get_entry args | ReqPutAppend args => PutAppend_entry args end.

(** What the loop of the clerk looks at. *)
Definition reply_wrong (rep : kv_reply) : bool :=
  match rep with RepGet r => GR_WrongLeader r | RepPutAppend r => PR_WrongLeader r end.
Definition reply_value (rep : kv_reply) : string :=
  match rep with RepGet r => GR_Value r | RepPutAppend _ => EmptyString end.

(** The end of the handlers [Get] and [PutAppend]. *)
Definition handler_finish (q : kv_request) (ok : bool) : M RaftKV kv_reply :=
  match q with
  | ReqGet args => r <- Get_finish args ok ;; ret (RepGet r)
  | ReqPutAppend _ => ret (RepPutAppend (PutAppend_finish ok))
  end.

Inductive stage : Type :=
| Sent
| Started (index : Z)       (* [Start] returned [index] *)
| Waiting (index : Z)       (* in the [select] of [AppendLog] *)
| Appended (ok : bool)      (* [AppendLog] returned [ok] *)
| Replied (rep : kv_reply).

Record call : Type := mkCall { call_server : Z; call_req : kv_request; call_stage : stage }.

(** The methods of a clerk. *)
Inductive clerk_op : Type :=
| CkGet (key : string)
| CkPut (key value : string)
| CkAppend (key value : string).

Definition clerk_request (o : clerk_op) (id r : Z) : kv_request :=
  match o with
  | CkGet key => ReqGet (mkGetArgs key id r)
  | CkPut key value => ReqPutAppend (mkPutAppendArgs key value "Put" id r)
  | CkAppend key value => ReqPutAppend (mkPutAppendArgs key value "Append" id r)
  end.

(** ** The service *)

(** What the clients see: a method is called, a method returns a value. *)
Inductive kv_observation : Type :=
| Invoked (op : Op)
| Returned (op : Op) (value : string).

Record Service : Type := mkService {
  kc_alias : AliasConfig (C := Op);
  kc_kv : Z → RaftKV;
  kc_taken : Z → nat;                       (* messages [getApply] has received *)
  kc_clerk : Z → Clerk;
  kc_pending : Z → list kv_request;         (* the requests a clerk is working on *)
  kc_calls : list call;
  kc_hist : list kv_observation;
}.

Definition kc_raft (c : Service) : Config Op := al_base (kc_alias c).

Definition set_alias (al : AliasConfig) (c : Service) : Service :=
  mkService al (kc_kv c) (kc_taken c) (kc_clerk c) (kc_pending c) (kc_calls c) (kc_hist c).
Definition set_kv (i : Z) (kv : RaftKV) (c : Service) : Service :=
  mkService (kc_alias c) (<[i := kv]> (kc_kv c)) (kc_taken c) (kc_clerk c) (kc_pending c) (kc_calls c) (kc_hist c).
Definition set_taken (i : Z) (k : nat) (c : Service) : Service :=
  mkService (kc_alias c) (kc_kv c) (<[i := k]> (kc_taken c)) (kc_clerk c) (kc_pending c) (kc_calls c) (kc_hist c).
Definition set_clerk (id : Z) (ck : Clerk) (c : Service) : Service :=
  mkService (kc_alias c) (kc_kv c) (kc_taken c) (<[id := ck]> (kc_clerk c)) (kc_pending c) (kc_calls c) (kc_hist c).
Definition set_pending (id : Z) (q : list kv_request) (c : Service) : Service :=
  mkService (kc_alias c) (kc_kv c) (kc_taken c) (kc_clerk c) (<[id := q]> (kc_pending c)) (kc_calls c) (kc_hist c).
Definition set_calls (cs : list call) (c : Service) : Service :=
  mkService (kc_alias c) (kc_kv c) (kc_taken c) (kc_clerk c) (kc_pending c) cs (kc_hist c).
Definition observe (o : kv_observation) (c : Service) : Service :=
  mkService (kc_alias c) (kc_kv c) (kc_taken c) (kc_clerk c) (kc_pending c) (kc_calls c) (kc_hist c ++ [o]).

(** A handler has left peer [i] in state [r]. *)
Definition set_peer (extra : nat) (i : Z) (r : Raft Op) (c : Service) : Service :=
  set_alias (sync i extra (set_server (kc_raft c) i r (net (kc_raft c))) (kc_alias c)) c.

(** The call [h] goes on to stage [st]. *)
Definition set_stage (h : nat) (cl : call) (st : stage) (c : Service) : Service :=
  set_calls (<[h := mkCall (call_server cl) (call_req cl) st]> (kc_calls c)) c.

Inductive kaction : Type :=
| KcRaft (a : action Op)
| KcRestart (i : Z) (rs : list Z)
| KcKill (i : Z)
| KcTake (i : Z)
| KcInvoke (id : Z) (o : clerk_op)
| KcCall (id : Z) (k : nat) (i : Z)
| KcStart (h : nat)
| KcRegister (h : nat)
| KcWait (timeout : bool) (h : nat)
| KcFinish (h : nat)
| KcReply (h : nat)
| KcLose (h : nat).

(** Starting, killing and restarting a peer are part of actions of the service. *)
Definition internal (a : action Op) : bool :=
  match a with AStart _ _ | AKill _ | ARestart _ _ => false | _ => true end.

(** A restart ends the handlers that run in the server; requests and replies in flight stay. *)
Definition survives (i : Z) (cl : call) : bool :=
  negb (call_server cl =? i) ||
  match call_stage cl with Sent | Replied _ => true | _ => false end.

(** Part of the service's state transition for the handler of call [h]. *)
Definition handler_exec (extra : nat) (a : kaction) (h : nat) (cl : call) (c : Service) : option Service :=
  let i := call_server cl in
  let entry := request_entry (call_req cl) in
  match a, call_stage cl with
  | KcStart _, Sent =>
      match Start (Some entry) (servers (kc_raft c) i) with
      | Ok ((index, _, isLeader), r) =>
          Some (set_stage h cl (if negb isLeader then Appended false else Started index)
                  (set_peer extra i r c))
      | Panic _ => None
      end
  | KcRegister _, Started index =>
      match AppendLog_register index (kc_kv c i) with
      | Ok (_, kv) => Some (set_stage h cl (Waiting index) (set_kv i kv c))
      | Panic _ => None
      end
  | KcWait timeout _, Waiting index =>
      match AppendLog_wait timeout index entry (kc_kv c i) with
      | Ok (Some ok, kv) => Some (set_stage h cl (Appended ok) (set_kv i kv c))
      | _ => None
      end
  | KcFinish _, Appended ok =>
      match handler_finish (call_req cl) ok (kc_kv c i) with
      | Ok (rep, kv) => Some (set_stage h cl (Replied rep) (set_kv i kv c))
      | Panic _ => None
      end
  | _, _ => None
  end.

(** A reply reaches the loop of the method, which has perhaps returned. *)
Definition clerk_reply (q : kv_request) (rep : kv_reply) (c : Service) : Service :=
  let id := Op_Id (request_entry q) in
  if bool_decide (q ∈ kc_pending c id) && negb (reply_wrong rep)
  then set_pending id (filter (λ q', q' ≠ q) (kc_pending c id)) (observe (Returned (request_entry q) (reply_value rep)) c)
  else c.

(** [extra]: as in [alias_exec]. *)
Definition kc_exec (n : Z) (extra : nat) (a : kaction) (c : Service) : option Service :=
  match a with
  | KcRaft a' =>
      if internal a' then (λ al, set_alias al c) <$> alias_exec n a' extra (kc_alias c) else None
  | KcRestart i rs =>
      (λ al, set_calls (filter (λ cl, survives i cl) (kc_calls c))
               (set_taken i 0 (set_kv i StartKVServer (set_alias al c))))
        <$> alias_exec n (ARestart i rs) extra (kc_alias c)
  | KcKill i =>
      if valid_id n i then
        match RaftKV_Kill (servers (kc_raft c) i, kc_kv c i) with
        | Ok (_, (r, kv)) => Some (set_kv i kv (set_peer extra i r c))
        | Panic _ => None
        end
      else None
  | KcTake i =>
      if valid_id n i then
        match applied (kc_raft c) i !! kc_taken c i with
        | Some m =>
            match getApply_msg m (kc_kv c i) with
            | Ok (_, kv) => Some (set_taken i (S (kc_taken c i)) (set_kv i kv c))
            | Panic _ => None
            end
        | None => None
        end
      else None
  | KcInvoke id o =>
      if nrand id =? id then
        let '(r, ck) := next_req (kc_clerk c id) in
        let q := clerk_request o id r in
        Some (observe (Invoked (request_entry q)) (set_pending id (kc_pending c id ++ [q]) (set_clerk id ck c)))
      else None
  | KcCall id k i =>
      q ← kc_pending c id !! k;
      if valid_id n i then Some (set_calls (kc_calls c ++ [mkCall i q Sent]) c) else None
  | KcStart h | KcRegister h | KcWait _ h | KcFinish h =>
      cl ← kc_calls c !! h; handler_exec extra a h cl c
  | KcReply h =>
      cl ← kc_calls c !! h;
      match call_stage cl with
      | Replied rep => Some (clerk_reply (call_req cl) rep (set_calls (delete h (kc_calls c)) c))
      | _ => None
      end
  | KcLose h =>
      cl ← kc_calls c !! h;
      match call_stage cl with
      | Sent | Replied _ => Some (set_calls (delete h (kc_calls c)) c)
      | _ => None
      end
  end.

(** ** Runs *)

(** No term and no request number has reached the largest [int]. *)
Definition kc_limits (n : Z) (a : kaction) (c : Service) : bool :=
  bounded n (kc_raft c) &&
  match a with KcInvoke id _ => ck_reqId (kc_clerk c id) <? max_int | _ => true end.

(** A [Get] handler takes the lock while its request is the acknowledged one of its client. *)
Definition kc_prompt (a : kaction) (c : Service) : bool :=
  match a with
  | KcFinish h =>
      match kc_calls c !! h with
      | Some (mkCall i (ReqGet args) (Appended true)) =>
          bool_decide (ack (kc_kv c i) !! GA_Id args = Some (GA_ReqId args))
      | _ => true
      end
  | _ => true
  end.

(** A clerk is used by one goroutine at a time. *)
Definition kc_sequential (a : kaction) (c : Service) : bool :=
  match a with KcInvoke id _ => bool_decide (kc_pending c id = []) | _ => true end.

Record orderly (n : Z) (a : kaction) (c c' : Service) : Prop := mkOrderly {
  or_limits : kc_limits n a c = true;
  or_gets : kc_prompt a c = true;
  or_clerks : kc_sequential a c = true;
  or_memory : prompt (kc_alias c) (kc_alias c');
}.

Definition kc_start (al : AliasConfig) : Service :=
  mkService al (λ _, StartKVServer) (λ _, O) MakeClerk (λ _, []) [] [].

Definition kc_step (n : Z) (c c' : Service) : Prop :=
  ∃ extra a, kc_exec n extra a c = Some c' ∧ orderly n a c c'.

Definition kc_reachable (n : Z) (c : Service) : Prop :=
  ∃ al, alias_initial n al ∧ rtc (kc_step n) (kc_start al) c.

(** ** Running a list of actions *)

(** The log of the peer that moves is only extended. *)
Definition kc_grows (a : kaction) (c c' : Service) : bool :=
  let at_peer i := bool_decide (log (servers (kc_raft c) i) `prefix_of` log (servers (kc_raft c') i)) in
  match a with
  | KcRaft a' => extends (kc_alias c) a' (kc_alias c')
  | KcRestart i _ | KcKill i => at_peer i
  | KcStart h => match kc_calls c !! h with Some cl => at_peer (call_server cl) | None => true end
  | _ => true
  end.

(** [gets] and [clerks] say whether the run is to satisfy [kc_prompt] and [kc_sequential]. *)
Fixpoint kc_run (gets clerks : bool) (n : Z) (acts : list kaction) (c : Service) : option Service :=
  match acts with
  | [] => Some c
  | a :: acts' =>
      if kc_limits n a c && (negb gets || kc_prompt a c) && (negb clerks || kc_sequential a c) then
        match kc_exec n 1 a c with
        | Some c' => if kc_grows a c c' then kc_run gets clerks n acts' c' else None
        | None => None
        end
      else None
  end.

(** The other peers have not moved. *)
Lemma set_peer_prompt i r c :
  log (servers (kc_raft c) i) `prefix_of` log r → prompt (kc_alias c) (kc_alias (set_peer 1 i r c)).
Proof.
  intros Hp j. left. simpl. destruct (decide (j = i)) as [->|]; [by rewrite fn_lookup_insert|].
  by rewrite fn_lookup_insert_ne.
Qed.

Lemma kc_grows_prompt n a c c' :
  kc_exec n 1 a c = Some c' → kc_grows a c c' = true → prompt (kc_alias c) (kc_alias c').
Proof.
  intros He Hg. assert (kc_alias c' = kc_alias c → prompt (kc_alias c) (kc_alias c')) as Hsame
    by (intros -> j; by left).
  destruct a as [a|i rs|i|i|id o|id k i|h|h|t h|h|h|h]; cbn [kc_exec kc_grows] in *.
  - destruct (internal a); [|done]. apply fmap_Some in He as (al & He & ->). by eapply extends_prompt.
  - apply fmap_Some in He as (al & He & ->). by eapply extends_prompt.
  - destruct (valid_id n i); [|done]. destruct (RaftKV_Kill _) as [[_ [r kv]]|]; [|done]. injection He as <-.
    apply set_peer_prompt. apply bool_decide_eq_true in Hg. simpl in Hg. by rewrite fn_lookup_insert in Hg.
  - apply Hsame. repeat case_match; try done; by injection He as <-.
  - apply Hsame. repeat case_match; try done; by injection He as <-.
  - apply Hsame. apply bind_Some in He as (q & _ & He). destruct (valid_id n i); [|done]. by injection He as <-.
  - apply bind_Some in He as (cl & Hh & He). rewrite Hh in Hg. unfold handler_exec in He.
    destruct (call_stage cl); try done. destruct (Start _ _) as [[[[ix t] lead] r]|]; [|done]. injection He as <-.
    apply (set_peer_prompt _ _ c). apply bool_decide_eq_true in Hg. simpl in Hg. by rewrite fn_lookup_insert in Hg.
  - apply Hsame. apply bind_Some in He as (cl & _ & He). unfold handler_exec in He.
    repeat case_match; try done; by injection He as <-.
  - apply Hsame. apply bind_Some in He as (cl & _ & He). unfold handler_exec in He.
    repeat case_match; try done; by injection He as <-.
  - apply Hsame. apply bind_Some in He as (cl & _ & He). unfold handler_exec in He.
    repeat case_match; try done; by injection He as <-.
  - apply Hsame. apply bind_Some in He as (cl & _ & He). unfold clerk_reply in He.
    repeat case_match; try done; by injection He as <-.
  - apply Hsame. apply bind_Some in He as (cl & _ & He). repeat case_match; try done; by injection He as <-.
Qed.

Lemma kc_run_reachable n acts c : kc_run true true n acts (kc_start (alias_boot n)) = Some c → kc_reachable n c.
Proof.
  intros H. exists (alias_boot n). split; [apply alias_boot_initial|]. revert H. generalize (kc_start (alias_boot n)).
  induction acts as [|a acts IH]; intros c0 H; simpl in H; [by injection H as ->; apply rtc_refl|].
  destruct (kc_limits n a c0) eqn:Hl; [|done]. destruct (kc_prompt a c0) eqn:Hp; [|done].
  destruct (kc_sequential a c0) eqn:Hs; [|done]. simpl in H.
  destruct (kc_exec n 1 a c0) as [c1|] eqn:He; [|done]. destruct (kc_grows a c0 c1) eqn:Hg; [|done].
  eapply rtc_l; [|by apply IH]. exists 1%nat, a. split; [done|]. split; [done..|]. by eapply kc_grows_prompt.
Qed.
