(* ===== verification/KvLinear.v ===== *)
(** * The key/value service is linearizable

    [linearizable]: what the clients see can be explained by a sequential order of
    the operations that is legal for a map from keys to strings and that respects
    the order of operations that do not overlap.  Every run of the service of
    KvCluster.v in which the [Get] handlers are prompt has this property (KvService.v); [lin_correct]
    is the part about histories.  The proof needs no assumption on the log, as the order of a
    client's requests in it ([client_order]) follows from the loop of the clerk. *)
From S2P Require Import Prelude GoRt RaftTypes RaftNode RaftProto RaftNet RaftSpec RaftSim RaftSafety RaftValidity KvRaft KvTheorems KvCluster.
Open Scope Z_scope.

(** ** Linearizability *)

(** [x] occurs before [y]. *)
Definition precedes {A} (x y : A) (l : list A) : Prop := ∃ l1 l2 l3, l = l1 ++ x :: l2 ++ y :: l3.

(** The value an operation returns in a sequential execution. *)
Definition seq_result (op : Op) (d : gmap string string) : string :=
  if decide (Op_Type op = "Get") then db_get d (Op_Key op) else EmptyString.

(** The values are those of a sequential execution that starts with [d]. *)
Fixpoint legal (d : gmap string string) (s : list (Op * string)) : Prop :=
  match s with
  | [] => True
  | (op, v) :: s' => v = seq_result op d ∧ legal (apply_op op d) s'
  end.

Record linearization (h : list kv_observation) (s : list (Op * string)) : Prop := mkLin {
  lin_legal : legal ∅ s;
  lin_once : NoDup s.*1;
  lin_invoked : ∀ op v, (op, v) ∈ s → Invoked op ∈ h;
  lin_returned : ∀ op v, Returned op v ∈ h → (op, v) ∈ s;
  lin_order : ∀ op1 v1 op2 v2, precedes (Returned op1 v1) (Invoked op2) h → (op2, v2) ∈ s →
    precedes (op1, v1) (op2, v2) s;
}.

Definition linearizable (h : list kv_observation) : Prop := ∃ s, linearization h s.

Lemma firsts_snoc seen ops op :
  firsts seen (ops ++ [op]) = firsts seen ops ++ (if decide (req op ∈ seen ++ map req ops) then [] else [op]).
Proof.
  assert (∀ (A B : Prop) `{Decision A} `{Decision B}, (A ↔ B) →
    (if decide A then [] else [op]) = (if decide B then [] else [op])) as Hif.
  { intros A B ?? Hab. destruct (decide A), (decide B); tauto. }
  revert seen. induction ops as [|o ops IH]; intros seen; simpl.
  { etrans; [|apply (Hif (req op ∈ seen)); by rewrite app_nil_r]. by destruct (decide _). }
  destruct (decide (req o ∈ seen)) as [Ho|Ho]; rewrite IH; simpl; [|f_equal]; f_equal; apply Hif;
    rewrite ?elem_of_cons, !elem_of_app, ?elem_of_cons; [|tauto]. split; [tauto|]. intros [?|[->|?]]; auto.
Qed.

Lemma spec_db_snoc ops op :
  spec_db (ops ++ [op]) = if decide (req op ∈ map req ops) then spec_db ops else apply_op op (spec_db ops).
Proof.
  unfold spec_db. rewrite firsts_snoc. simpl. destruct (decide _); [by rewrite app_nil_r|].
  by rewrite fold_left_app.
Qed.

Lemma legal_app d s s' :
  legal d (s ++ s') ↔ legal d s ∧ legal (fold_left (λ d p, apply_op p.1 d) s d) s'.
Proof.
  revert d. induction s as [|[op v] s IH]; intros d; simpl; [tauto|]. rewrite IH. tauto.
Qed.

(** ** The log and the observations with the times at which they were made *)

(** An observation, with the length of the log when it was made and, for a return, the length
    of the part of the log that explains it. *)
Record stamped : Type := mkStamped { st_obs : kv_observation; st_time : nat; st_point : nat }.

Implicit Types (L : list Op) (H : list stamped).

Definition invoked H (op : Op) : Prop := Invoked op ∈ map st_obs H.

(** The returns among the observations. *)
Definition returns H : list (Op * string * nat) :=
  omap (λ x, match st_obs x with Returned op v => Some (op, v, st_point x) | Invoked _ => None end) H.

Record HistInv (clerk : Z → Clerk) (pending : Z → option kv_request) L H : Prop := mkHistInv {
  hi_time : ∀ k x, H !! k = Some x → (st_time x ≤ length L)%nat;
  hi_sorted : ∀ j k x y, (j < k)%nat → H !! j = Some x → H !! k = Some y → (st_time x ≤ st_time y)%nat;
  hi_clerk : ∀ id, 0 ≤ ck_reqId (clerk id);
  hi_numbers : ∀ op, invoked H op → Op_ReqId op < ck_reqId (clerk (Op_Id op));
  hi_unique : ∀ op op', invoked H op → invoked H op' → req op = req op' → op = op';
  hi_after : ∀ x op k, x ∈ H → st_obs x = Invoked op → L !! k = Some op → (st_time x ≤ k)%nat;
  hi_before : ∀ x op op', x ∈ H → st_obs x = Invoked op → invoked H op' →
    Op_Id op' = Op_Id op → Op_ReqId op' < Op_ReqId op → op' ∈ take (st_time x) L;
  hi_done : ∀ op, invoked H op → op ∈ L ∨ ∃ q, pending (Op_Id op) = Some q ∧ request_entry q = op;
  hi_pending : ∀ id q, pending id = Some q → Op_Id (request_entry q) = id ∧ invoked H (request_entry q) ∧
    ∀ v p, (request_entry q, v, p) ∉ returns H;
  hi_return : ∀ x op v, x ∈ H → st_obs x = Returned op v → (st_point x ≤ st_time x)%nat ∧
    op ∈ take (st_point x) L ∧ v = seq_result op (spec_db (take (st_point x) L)) ∧ invoked H op;
  hi_once : NoDup (returns H).*1.*1;
}.

(** ** From the invariant to a linearization *)

Section linearize.
Context (clerk : Z → Clerk) (pending : Z → option kv_request) (L : list Op) (H : list stamped).
Context (HI : HistInv clerk pending L H) (Hlog : ∀ op, op ∈ L → invoked H op).

Lemma client_order_log : client_order L.
Proof using All.
  intros pre op post Heq Hnew op' Hin Hid.
  assert (invoked H op) as Hop by (apply Hlog; rewrite Heq; apply elem_of_app; right; left).
  assert (invoked H op') as Hop' by (apply Hlog; rewrite Heq; apply elem_of_app; by left).
  destruct (Ztrichotomy (Op_ReqId op') (Op_ReqId op)) as [?|[Hr|Hr]]; [done|..]; exfalso; apply Hnew.
  - replace (req op) with (req op') by (unfold req; congruence). by apply elem_of_req.
  - pose proof Hop' as (x & Hx & Hin')%list_elem_of_fmap. symmetry in Hx.
    pose proof (hi_before _ _ _ _ HI x op' op Hin' Hx Hop (eq_sym Hid) ltac:(lia)) as Hb.
    apply list_elem_of_lookup_1 in Hin as [k Hk]. pose proof (lookup_lt_Some _ _ _ Hk).
    assert (L !! k = Some op') as HLk by (rewrite Heq, lookup_app_l; done).
    pose proof (hi_after _ _ _ _ HI x op' k Hin' Hx HLk).
    rewrite Heq, take_app_le in Hb by lia. apply elem_of_req.
    rewrite <- (take_drop (st_time x) pre). apply elem_of_app. by left.
Qed.

(** The write of a request, at its first occurrence, then the reads that see the log up to it. *)
Definition slot_write (j : nat) : list (Op * string) :=
  match L !! j with
  | Some op =>
      if decide (req op ∈ map req (take j L)) then []
      else if decide (Op_Type op = "Get") then [] else [(op, EmptyString)]
  | None => []
  end.
Definition slot_reads (k : nat) : list (Op * string) :=
  omap (λ '(op, v, p), if decide (Op_Type op = "Get" ∧ p = k) then Some (op, v) else None) (returns H).
Definition slot (k : nat) : list (Op * string) :=
  match k with O => [] | S j => slot_write j end ++ slot_reads k.

Definition lin_log (k : nat) : list (Op * string) := concat (map slot (seq 0 (S k))).

Lemma elem_of_returns op v p :
  (op, v, p) ∈ returns H ↔ ∃ x, x ∈ H ∧ st_obs x = Returned op v ∧ st_point x = p.
Proof.
  unfold returns. rewrite list_elem_of_omap. split.
  - intros (x & Hin & Hx). exists x. destruct (st_obs x); [done|]. by injection Hx as -> -> ->.
  - intros (x & Hin & Hx & <-). exists x. split; [done|]. by rewrite Hx.
Qed.

Lemma elem_of_slot_reads k op v :
  (op, v) ∈ slot_reads k ↔ Op_Type op = "Get" ∧ (op, v, k) ∈ returns H.
Proof.
  unfold slot_reads. rewrite list_elem_of_omap. split.
  - intros ([[op' v'] p] & Hin & Hx). case_decide as Hd; [|done]. injection Hx as -> ->.
    destruct Hd as [? ->]. done.
  - intros [Hg Hin]. exists (op, v, k). split; [done|]. by rewrite decide_True.
Qed.

Lemma elem_of_slot_write j op v :
  (op, v) ∈ slot_write j ↔
    L !! j = Some op ∧ (req op ∉ map req (take j L)) ∧ Op_Type op ≠ "Get" ∧ v = EmptyString.
Proof.
  unfold slot_write. destruct (L !! j) as [op'|]; [|by split; [intros []%elem_of_nil|intros [? _]]].
  destruct (decide (req op' ∈ _)) as [Hd|Hd]; [split; [intros []%elem_of_nil|]|].
  { by intros ([= ->] & ? & _). }
  destruct (decide (Op_Type op' = "Get")) as [Hg|Hg]; [split; [intros []%elem_of_nil|]|].
  { by intros ([= ->] & _ & ? & _). }
  rewrite list_elem_of_singleton. split; [by intros [= -> ->]|]. by intros ([= ->] & _ & _ & ->).
Qed.

Local Abbreviation seq_run := (fold_left (λ d (p : Op * string), apply_op p.1 d)).

(** Reads that see the log up to [k] are legal there, and change nothing. *)
Lemma slot_reads_legal k :
  let d := spec_db (take k L) in legal d (slot_reads k) ∧ seq_run (slot_reads k) d = d.
Proof using HI.
  simpl. assert (∀ p, p ∈ slot_reads k → Op_Type p.1 = "Get" ∧ p.2 = seq_result p.1 (spec_db (take k L))) as Hr.
  { intros [op v] [Hg (x & Hin & Hx & <-)%elem_of_returns]%elem_of_slot_reads. split; [done|].
    by destruct (hi_return _ _ _ _ HI x op v Hin Hx) as (_ & _ & ? & _). }
  induction (slot_reads k) as [|[op v] l IH]; [done|]. simpl.
  destruct (Hr (op, v)) as [Hg Hv]; [left|]. simpl in Hg, Hv.
  assert (apply_op op (spec_db (take k L)) = spec_db (take k L)) as -> by (unfold apply_op; by rewrite Hg).
  destruct IH as [IHl IHr]; [|done]. intros p Hp. apply Hr. by right.
Qed.

Lemma slot_write_legal j :
  (j < length L)%nat → legal (spec_db (take j L)) (slot_write j) ∧
    seq_run (slot_write j) (spec_db (take j L)) = spec_db (take (S j) L).
Proof.
  intros Hj. destruct (lookup_lt_is_Some_2 L j Hj) as [op Hop].
  rewrite (take_S_r _ _ _ Hop), spec_db_snoc. unfold slot_write. rewrite Hop.
  destruct (decide (req op ∈ _)); [done|]. destruct (decide (Op_Type op = "Get")) as [Hg|Hg]; simpl.
  - split; [done|]. unfold apply_op. by rewrite Hg.
  - split; [|done]. split; [|done]. unfold seq_result. by rewrite decide_False.
Qed.

Lemma lin_log_S k : lin_log (S k) = lin_log k ++ slot (S k).
Proof. unfold lin_log. rewrite (seq_S (S k)), map_app, concat_app. simpl. by rewrite app_nil_r. Qed.

(** Up to slot [k] the order is legal and ends in the state the log up to [k] gives. *)
Lemma lin_log_legal k :
  (k ≤ length L)%nat → legal ∅ (lin_log k) ∧ seq_run (lin_log k) ∅ = spec_db (take k L).
Proof using HI.
  induction k as [|k IH]; intros Hk.
  - unfold lin_log. simpl. rewrite app_nil_r. exact (slot_reads_legal 0).
  - destruct IH as [IHl IHr]; [lia|]. rewrite lin_log_S, fold_left_app, legal_app, IHr.
    unfold slot. rewrite fold_left_app, legal_app.
    destruct (slot_write_legal k) as [Hwl Hwr]; [lia|]. rewrite Hwr.
    destruct (slot_reads_legal (S k)) as [Hrl Hrr]. done.
Qed.

(** An operation is in a slot behind the log at its invocation. *)
Lemma slot_in_log k op v :
  (op, v) ∈ slot k → ∃ j, (j < k)%nat ∧ L !! j = Some op ∧
    (Op_Type op ≠ "Get" → k = S j ∧ req op ∉ map req (take j L)) ∧
    (Op_Type op = "Get" → (op, v, k) ∈ returns H).
Proof using HI.
  unfold slot. rewrite elem_of_app. intros [Hw|[Hg Hr]%elem_of_slot_reads].
  - destruct k as [|j]; [by apply elem_of_nil in Hw|].
    apply elem_of_slot_write in Hw as (Hj & Hf & Hg & ->). exists j. split_and!; [lia|done..].
  - pose proof Hr as (x & Hin & Hx & Hp)%elem_of_returns.
    destruct (hi_return _ _ _ _ HI x op v Hin Hx) as (_ & Ht & _).
    apply list_elem_of_lookup_1 in Ht as [j Hj]. apply lookup_take_Some in Hj as [Hj Hlt].
    exists j. split_and!; [lia|done..].
Qed.

Lemma first_unique j j' op op' :
  L !! j = Some op → L !! j' = Some op' → req op = req op' →
  req op ∉ map req (take j L) → req op' ∉ map req (take j' L) → j = j'.
Proof.
  intros Hj Hj' Heq Hf Hf'. destruct (Nat.lt_trichotomy j j') as [Hlt|[?|Hlt]]; [exfalso|done|exfalso].
  - apply Hf'. rewrite <- Heq. apply elem_of_req, (list_elem_of_lookup_2 _ j). by rewrite lookup_take_lt.
  - apply Hf. rewrite Heq. apply elem_of_req, (list_elem_of_lookup_2 _ j'). by rewrite lookup_take_lt.
Qed.

Lemma returns_functional op v p v' p' :
  (op, v, p) ∈ returns H → (op, v', p') ∈ returns H → v = v' ∧ p = p'.
Proof using HI.
  intros [a Ha]%list_elem_of_lookup_1 [b Hb]%list_elem_of_lookup_1.
  assert (a = b) as ->; [|by simplify_eq].
  apply (NoDup_lookup (returns H).*1.*1 a b op); [apply HI|by rewrite !list_lookup_fmap, ?Ha, ?Hb..].
Qed.

(** Each operation is in one slot, with one value. *)
Lemma slot_unique k k' op v v' : (op, v) ∈ slot k → (op, v') ∈ slot k' → k = k' ∧ v = v'.
Proof using HI.
  intros Hs Hs'. destruct (decide (Op_Type op = "Get")) as [Hg|Hg].
  - destruct (slot_in_log _ _ _ Hs) as (_ & _ & _ & _ & Hr).
    destruct (slot_in_log _ _ _ Hs') as (_ & _ & _ & _ & Hr').
    by destruct (returns_functional _ _ _ _ _ (Hr Hg) (Hr' Hg)).
  - destruct (slot_in_log _ _ _ Hs) as (j & _ & Hj & Hw & _).
    destruct (slot_in_log _ _ _ Hs') as (j' & _ & Hj' & Hw' & _).
    destruct (Hw Hg) as [-> Hf]. destruct (Hw' Hg) as [-> Hf'].
    pose proof (first_unique j j' op op Hj Hj' eq_refl Hf Hf') as ->. split; [done|].
    unfold slot in Hs, Hs'. rewrite elem_of_app, elem_of_slot_reads, elem_of_slot_write in Hs, Hs'.
    destruct Hs as [(_ & _ & _ & ->)|[? _]]; [|done]. by destruct Hs' as [(_ & _ & _ & ->)|[? _]].
Qed.

Lemma slot_NoDup k : NoDup (slot k).*1.
Proof using HI.
  unfold slot. rewrite fmap_app. apply NoDup_app. split_and!.
  - destruct k as [|j]; [constructor|]. unfold slot_write. destruct (L !! j) as [op|]; [|constructor].
    repeat case_decide; try constructor; [by intros []%elem_of_nil|constructor].
  - intros op (p & -> & Hw)%list_elem_of_fmap (p' & Heq & Hr)%list_elem_of_fmap.
    destruct k as [|j]; [by apply elem_of_nil in Hw|]. destruct p as [op v], p' as [op' v']. simpl in Heq. subst op'.
    apply elem_of_slot_write in Hw as (_ & _ & Hg & _). by apply elem_of_slot_reads in Hr as [? _].
  - pose proof (hi_once _ _ _ _ HI) as Hn. unfold slot_reads.
    induction (returns H) as [|[[op v] p] l IH]; simpl; [constructor|]. simpl in Hn. inv Hn.
    case_decide; [|by apply IH]. simpl. constructor; [|by apply IH].
    intros (x & Hx & ([[op' v'] p'] & Hin & Hf)%list_elem_of_omap)%list_elem_of_fmap.
    case_decide; [|done]. injection Hf as <-. simpl in Hx. subst op'.
    match goal with Hno : op ∉ _ |- _ => apply Hno end.
    apply (list_elem_of_fmap_2' fst _ (op, v')); [|done]. by apply (list_elem_of_fmap_2' fst _ (op, v', p')).
Qed.

Lemma elem_of_lin k op v : (op, v) ∈ lin_log k ↔ ∃ j, (j ≤ k)%nat ∧ (op, v) ∈ slot j.
Proof.
  unfold lin_log. rewrite list_elem_of_In, in_concat. split.
  - intros (l & (j & <- & Hj%in_seq)%in_map_iff & Hin%list_elem_of_In). exists j. split; [lia|done].
  - intros (j & Hj & Hin). exists (slot j). split; [|by apply list_elem_of_In].
    apply in_map_iff. exists j. split; [done|]. apply in_seq. lia.
Qed.

Lemma lin_NoDup k : NoDup (lin_log k).*1.
Proof using HI.
  induction k as [|k IH]; [unfold lin_log; simpl; rewrite app_nil_r; apply slot_NoDup|].
  rewrite lin_log_S, fmap_app. apply NoDup_app. split_and!; [done| |apply slot_NoDup].
  intros op ([op1 v1] & -> & (j & Hj & Hin)%elem_of_lin)%list_elem_of_fmap
    ([op2 v2] & Heq & Hin2)%list_elem_of_fmap. simpl in Heq. subst op2.
  destruct (slot_unique _ _ _ _ _ Hin Hin2). lia.
Qed.

Lemma lin_precedes j k m x y :
  (j < k)%nat → (k ≤ m)%nat → x ∈ slot j → y ∈ slot k → precedes x y (lin_log m).
Proof.
  intros Hjk Hkm [a1 [a2 Ha]]%list_elem_of_split [b1 [b2 Hb]]%list_elem_of_split.
  assert (lin_log m = concat (map slot (seq 0 j)) ++ slot j ++ concat (map slot (seq (S j) (k - S j))) ++
    slot k ++ concat (map slot (seq (S k) (m - k)))) as ->.
  { unfold lin_log. replace (S m) with (j + (1 + ((k - S j) + (1 + (m - k)))))%nat by lia.
    rewrite !seq_app, !map_app, !concat_app. simpl. rewrite !app_nil_r.
    replace (j + 1)%nat with (S j) by lia. replace (S j + (k - S j))%nat with k by lia.
    by replace (k + 1)%nat with (S k) by lia. }
  rewrite Ha, Hb. exists (concat (map slot (seq 0 j)) ++ a1),
    (a2 ++ concat (map slot (seq (S j) (k - S j))) ++ b1), (b2 ++ concat (map slot (seq (S k) (m - k)))).
  by list_simplifier.
Qed.

(** The first occurrence of a request in the log. *)
Lemma first_occurrence p op :
  op ∈ take p L → ∃ j, (j < p)%nat ∧ L !! j = Some op ∧ req op ∉ map req (take j L).
Proof using All.
  induction p as [|p IH]; [by intros []%elem_of_nil|]. intros Hin.
  destruct (decide (req op ∈ map req (take p L))) as [Hd|Hd].
  - apply list_elem_of_fmap in Hd as (op' & Heq & Hin').
    assert (op = op') as <-.
    { apply (hi_unique _ _ _ _ HI); [apply Hlog; by eapply subseteq_take..|done]. }
    destruct (IH Hin') as (j & ? & ? & ?). exists j. split_and!; [lia|done..].
  - apply list_elem_of_lookup_1 in Hin as [j Hj]. apply lookup_take_Some in Hj as [Hj Hlt].
    assert (j = p) as ->; [|by exists p; split; [lia|]].
    destruct (decide (j < p)%nat); [exfalso|lia]. apply Hd, elem_of_req, (list_elem_of_lookup_2 _ j).
    by rewrite lookup_take_lt.
Qed.

(** An operation that returned is in a slot before its return. *)
Lemma returned_slot x op v :
  x ∈ H → st_obs x = Returned op v → ∃ k, (k ≤ st_time x)%nat ∧ (op, v) ∈ slot k.
Proof using All.
  intros Hin Hx. destruct (hi_return _ _ _ _ HI x op v Hin Hx) as (Hp & Hop & Hv & _).
  unfold seq_result in Hv. destruct (decide (Op_Type op = "Get")) as [Hg|Hg].
  - exists (st_point x). split; [done|]. unfold slot. apply elem_of_app. right.
    apply elem_of_slot_reads. split; [done|]. apply elem_of_returns. eauto.
  - destruct (first_occurrence _ _ Hop) as (j & Hj & HLj & Hf). exists (S j). split; [lia|].
    unfold slot. apply elem_of_app. left. apply elem_of_slot_write. subst v. done.
Qed.

Lemma lin_correct : linearization (map st_obs H) (lin_log (length L)).
Proof using All.
  split.
  - by apply lin_log_legal.
  - apply lin_NoDup.
  - intros op v (k & _ & Hin)%elem_of_lin. destruct (slot_in_log _ _ _ Hin) as (j & _ & Hj & _).
    by apply Hlog, (list_elem_of_lookup_2 _ j).
  - intros op v (x & Hx & Hin)%list_elem_of_fmap. symmetry in Hx.
    destruct (returned_slot x op v Hin Hx) as (k & Hk & Hs). apply elem_of_lin. exists k. split; [|done].
    apply list_elem_of_lookup_1 in Hin as [a Ha]. pose proof (hi_time _ _ _ _ HI a x Ha). lia.
  - intros op1 v1 op2 v2 (h1 & h2 & h3 & Hh) (k2 & Hk2 & Hs2)%elem_of_lin.
    assert (∃ x y a b, (a < b)%nat ∧ H !! a = Some x ∧ H !! b = Some y ∧ st_obs x = Returned op1 v1 ∧
      st_obs y = Invoked op2) as (x & y & a & b & Hab & Ha & Hb & Hx & Hy).
    { assert (map st_obs H !! length h1 = Some (Returned op1 v1)) as H1 by (by rewrite Hh, list_lookup_middle).
      assert (map st_obs H !! (length h1 + S (length h2))%nat = Some (Invoked op2)) as H2.
      { rewrite Hh, lookup_app_r by lia. replace (_ - _)%nat with (S (length h2)) by lia.
        simpl. by rewrite list_lookup_middle. }
      rewrite list_lookup_fmap in H1, H2. apply fmap_Some in H1 as (x & Hx & ?), H2 as (y & Hy & ?).
      exists x, y, (length h1), (length h1 + S (length h2))%nat. split_and!; [lia|done..]. }
    pose proof (hi_sorted _ _ _ _ HI a b x y Hab Ha Hb).
    destruct (returned_slot x op1 v1) as (k1 & Hk1 & Hs1); [by eapply list_elem_of_lookup_2|done|].
    destruct (slot_in_log _ _ _ Hs2) as (j & Hj & HLj & _).
    pose proof (hi_after _ _ _ _ HI y op2 j (list_elem_of_lookup_2 _ _ _ Hb) Hy HLj).
    apply (lin_precedes k1 k2); [lia|lia|done..].
Qed.
End linearize.
