(* ===== verification/KvService.v ===== *)
(** * Every run of the key/value service is linearizable

    The invariant [KInv] of the service of KvCluster.v: the messages applied by the
    peers are those of one log ([LogOf]), each server has replayed a prefix of it
    ([kv_ok]), each call knows only what the log justifies ([call_ok]), and the
    observations of the clients satisfy [HistInv].  It is preserved by every action of
    an [orderly] run ([kc_exec_inv]), so the history is linearizable
    ([kv_linearizable]), each request takes effect once ([service_exactly_once]) and
    the replicas agree ([kv_replicas_agree]).  Two runs that are not orderly are not
    linearizable: one with a late [Get] handler, one with a clerk used by two
    goroutines. *)
From S2P Require Import Prelude GoRt RaftTypes RaftNode RaftProto RaftNet RaftSpec RaftSim RaftSafety RaftValidity RaftMem RaftAlias KvRaft KvTheorems KvCluster KvLinear.
Open Scope Z_scope.

(** ** The log of the service *)

(** The messages of a log of operations. *)
Definition msgs (L : list Op) : list (ApplyMsg Op) :=
  imap (λ k op, mkApplyMsg (Z.of_nat (S k)) (Some op)) L.

(** The messages ever sent on [applyCh] are those of the log. *)
Definition LogOf (rc : Config Op) (L : list Op) : Prop :=
  ∀ m, (∃ i, (i, m) ∈ history rc) ↔ m ∈ msgs L.

Lemma msgs_lookup L k : msgs L !! k = (λ op, mkApplyMsg (Z.of_nat (S k)) (Some op)) <$> L !! k.
Proof. apply list_lookup_imap. Qed.

Lemma msgs_length L : length (msgs L) = length L.
Proof. apply length_imap. Qed.

Lemma elem_of_msgs L m : m ∈ msgs L ↔ ∃ k op, L !! k = Some op ∧ m = mkApplyMsg (Z.of_nat (S k)) (Some op).
Proof.
  rewrite list_elem_of_lookup. split.
  - intros [k Hk]. rewrite msgs_lookup in Hk. apply fmap_Some in Hk as (op & ? & ->). eauto.
  - intros (k & op & Hk & ->). exists k. by rewrite msgs_lookup, Hk.
Qed.

Lemma msgs_take k L : msgs (take k L) = take k (msgs L).
Proof.
  apply list_eq. intros j. rewrite msgs_lookup. destruct (decide (j < k)%nat).
  - by rewrite !lookup_take_lt, msgs_lookup by lia.
  - by rewrite !lookup_take_ge by lia.
Qed.

Lemma ops_of_msgs L : ops_of (msgs L) = L.
Proof.
  assert (∀ f : nat → Z, omap Apply_Command (imap (λ k op, mkApplyMsg (f k) (Some op)) L) = L) as H; [|apply H].
  induction L as [|op L IH]; intros f; [done|]. simpl. f_equal. exact (IH (f ∘ S)).
Qed.

(** Messages in order, all of them operations, are those of a log. *)
Lemma in_order_msgs (A : list (ApplyMsg Op)) :
  map Apply_Index A = seqZ 1 (go_len A) → Forall (λ m, is_Some (Apply_Command m)) A → ∃ L, A = msgs L.
Proof.
  intros Hi Hc. assert (∃ L, map Apply_Command A = map Some L) as [L HL].
  { clear Hi. induction Hc as [|m A [op Hop] _ [L HL]]; [by exists []|].
    exists (op :: L). simpl. by rewrite Hop, HL. }
  exists L. apply list_eq. intros k. rewrite msgs_lookup.
  assert (Apply_Command <$> A !! k = Some <$> L !! k) as Hk.
  { etrans; [symmetry; apply (list_lookup_fmap Apply_Command)|]. etrans; [|apply (list_lookup_fmap Some)].
    by f_equal. }
  destruct (A !! k) as [[ix cmd]|] eqn:HA, (L !! k) as [op|] eqn:HL'; simplify_eq/=; [|done].
  f_equal. f_equal. assert (map Apply_Index A !! k = Some ix) as H1 by (by rewrite list_lookup_fmap, HA).
  rewrite Hi in H1. apply lookup_seqZ in H1 as [-> _]. lia.
Qed.

Section log.
Context (n : Z) (Hn : 2 ≤ n).
Implicit Types (rc : Config Op) (L : list Op).

(** Messages of the history that are in order agree with the log. *)
Lemma LogOf_agree rc L A k m m' :
  reachable n rc → LogOf rc L → map Apply_Index A = seqZ 1 (go_len A) →
  (∀ m, m ∈ A → ∃ i, (i, m) ∈ history rc) → A !! k = Some m → msgs L !! k = Some m' → m = m'.
Proof using Hn.
  intros Hr HL Hi HA Hm Hm'. destruct (HA m) as [i Him]; [by eapply list_elem_of_lookup_2|].
  destruct (HL m') as [_ Hh]. destruct Hh as [j Hjm]; [by eapply list_elem_of_lookup_2|].
  eapply (history_unique n rc i j); [done..|]. rewrite msgs_lookup in Hm'.
  apply fmap_Some in Hm' as (op & _ & ->). simpl.
  assert (map Apply_Index A !! k = Some (Apply_Index m)) as H1 by (by rewrite list_lookup_fmap, Hm).
  rewrite Hi in H1. apply lookup_seqZ in H1 as [-> _]. lia.
Qed.

Lemma service_in_order rc i :
  reachable n rc → 0 ≤ i < n → map Apply_Index (applied rc i) = seqZ 1 (go_len (applied rc i)).
Proof using Hn. intros Hr Hi. exact (rl_in_order (ReplicatedLog := raft_replicated_log n Hn) rc i Hr Hi). Qed.

(** A server has applied a prefix of the log. *)
Lemma LogOf_applied rc L i k m :
  reachable n rc → LogOf rc L → 0 ≤ i < n → applied rc i !! k = Some m → msgs L !! k = Some m.
Proof using Hn.
  intros Hr HL Hi Hm. pose proof (service_in_order rc i Hr Hi) as Ho.
  assert (m ∈ msgs L) as Hin.
  { apply HL. exists i. eapply applied_in_history; [done|]. by eapply list_elem_of_lookup_2. }
  apply elem_of_msgs in Hin as (j & op & Hj & ->).
  assert (map Apply_Index (applied rc i) !! k = Some (Z.of_nat (S j))) as H1 by (by rewrite list_lookup_fmap, Hm).
  rewrite Ho in H1. apply lookup_seqZ in H1 as [H1 _]. assert (j = k) as -> by lia.
  by rewrite msgs_lookup, Hj.
Qed.

(** The log only grows. *)
Lemma LogOf_grow rc L i A :
  reachable n rc → 0 ≤ i < n → A = applied rc i → Forall (λ m, is_Some (Apply_Command m)) A →
  (∀ m, (∃ j, (j, m) ∈ history rc) ↔ m ∈ msgs L ∨ m ∈ A) → ∃ ext, LogOf rc (L ++ ext).
Proof using Hn.
  intros Hr Hi -> Hs Hh. pose proof (service_in_order rc i Hr Hi) as Ho.
  destruct (in_order_msgs _ Ho Hs) as [LA HA]. rewrite HA in Hh.
  assert (∀ k, (k < length L)%nat → (k < length LA)%nat → L !! k = LA !! k) as Heq.
  { intros k H1 H2. destruct (lookup_lt_is_Some_2 _ _ H1) as [op Hop].
    destruct (lookup_lt_is_Some_2 _ _ H2) as [op' Hop'].
    destruct (proj2 (Hh (mkApplyMsg (Z.of_nat (S k)) (Some op)))) as [j1 Hj1]; [left; apply elem_of_msgs; eauto|].
    destruct (proj2 (Hh (mkApplyMsg (Z.of_nat (S k)) (Some op')))) as [j2 Hj2]; [right; apply elem_of_msgs; eauto|].
    pose proof (history_unique n rc j1 j2 _ _ Hn Hr Hj1 Hj2 eq_refl). congruence. }
  destruct (decide (length LA ≤ length L)%nat) as [Hle|Hgt].
  - exists []. rewrite app_nil_r. intros m. rewrite Hh. split; [|by left]. intros [?|Hm]; [done|].
    apply elem_of_msgs in Hm as (k & op & Hk & ->). pose proof (lookup_lt_Some _ _ _ Hk).
    apply elem_of_msgs. exists k, op. by rewrite Heq by lia.
  - exists (drop (length L) LA). assert (L ++ drop (length L) LA = LA) as ->.
    { etrans; [|apply (take_drop (length L))]. f_equal. apply list_eq. intros k.
      destruct (decide (k < length L)%nat).
      - rewrite lookup_take_lt by done. apply Heq; lia.
      - rewrite lookup_take_ge by lia. apply lookup_ge_None. lia. }
    intros m. rewrite Hh. split; [|by right]. intros [Hm|?]; [|done].
    apply elem_of_msgs in Hm as (k & op & Hk & ->). pose proof (lookup_lt_Some _ _ _ Hk).
    apply elem_of_msgs. exists k, op. by rewrite <- Heq by lia.
Qed.

(** One step of the peers. *)
Lemma LogOf_step rc rc' L a :
  reachable n rc' → net_exec n a rc = Some rc' → (∀ i m, (i, m) ∈ history rc' → is_Some (Apply_Command m)) →
  reachable n rc → LogOf rc L → ∃ ext, LogOf rc' (L ++ ext).
Proof using Hn.
  intros Hr' He Hs Hr HL. assert (history rc' = history rc → ∃ ext, LogOf rc' (L ++ ext)) as Hsame.
  { intros Hh. exists []. unfold LogOf. by rewrite app_nil_r, Hh. }
  destruct a as [i|i rs|i k|k rs|k|i cmd|i|i|i rs]; cbn [net_exec] in He.
  7: { destruct (valid_id n i) eqn:Hv; [apply (valid_id_spec n) in Hv|done].
    destruct (stateMachine_recv _) as [[ms r']|] eqn:H; [|done]. injection He as <-.
    eapply (LogOf_grow _ L i); [done..| |].
    - apply Forall_forall. intros m Hm. eapply Hs. by eapply applied_in_history.
    - intros m. cbn [history applied]. rewrite fn_lookup_insert, elem_of_app. rewrite <- (HL m).
      setoid_rewrite elem_of_app. split.
      + intros [j [Hj|Hj]]; [left; by exists j|]. apply list_elem_of_fmap in Hj as (m' & [= -> ->] & ?). auto.
      + intros [[j Hj]|[Hm|Hm]]; [exists j; by left| |].
        * exists i. left. by eapply applied_in_history.
        * exists i. right. by apply list_elem_of_fmap_2. }
  all: apply Hsame; repeat case_match; try done; by injection He as <-.
Qed.
End log.

(** ** The invariant *)

(** The clients do not disguise a write as a read. *)
Definition wf_request (q : kv_request) : Prop :=
  match q with ReqGet _ => True | ReqPutAppend args => PA_Op args ≠ "Get" end.

(** An entry of a log is the first one or was submitted for a client. *)
Definition submitted_entry (h : list kv_observation) (e : Log Op) : Prop :=
  e = init_entry ∨ ∃ op, Log_Command e = Some op ∧ Invoked op ∈ h.

(** A server that has replayed [k] operations of the log. *)
Record kv_ok (L : list Op) (k : nat) (kv : RaftKV) : Prop := mkKvOk {
  kk_maps : same_maps kv (replay (take k L) StartKVServer);
  kk_prev : prevIndex kv = Z.of_nat k;
  kk_result : result_ok (take k (msgs L)) kv;
}.

(** A reply is the result of the operation on a part of the log that contains it. *)
Definition justified (L : list Op) (op : Op) (v : string) : Prop :=
  ∃ p, (p ≤ length L)%nat ∧ op ∈ take p L ∧ v = seq_result op (spec_db (take p L)).

Definition call_ok (n : Z) (taken : Z → nat) (L : list Op) (H : list stamped) (cl : call) : Prop :=
  let op := request_entry (call_req cl) in
  0 ≤ call_server cl < n ∧ wf_request (call_req cl) ∧ invoked H op ∧
  match call_stage cl with
  | Appended true => op ∈ take (taken (call_server cl)) L
  | Replied rep => reply_wrong rep = false → justified L op (reply_value rep)
  | _ => True
  end.

(** The request a clerk is working on, when it is used by one goroutine at a time. *)
Definition pending1 (c : Service) (id : Z) : option kv_request := head (kc_pending c id).

Record KInv (n : Z) (c : Service) (L : list Op) (H : list stamped) : Prop := mkKInv {
  ki_raft : reachable n (kc_raft c);
  ki_mem : alias_inv (kc_alias c);
  ki_log : LogOf (kc_raft c) L;
  ki_valid : valid_inv (submitted_entry (kc_hist c)) (kc_raft c);
  ki_taken : ∀ i, 0 ≤ i < n → (kc_taken c i ≤ length (applied (kc_raft c) i))%nat;
  ki_kv : ∀ i, 0 ≤ i < n → kv_ok L (kc_taken c i) (kc_kv c i);
  ki_calls : Forall (call_ok n (kc_taken c) L H) (kc_calls c);
  ki_single : ∀ id, (length (kc_pending c id) ≤ 1)%nat;
  ki_wf : ∀ id q, pending1 c id = Some q → wf_request q;
  ki_hist : kc_hist c = map st_obs H;
  ki_obs : HistInv (kc_clerk c) (pending1 c) L H;
}.

(** *** The parts of the invariant when the log grows *)

Lemma elem_of_take_app {A} (k : nat) (l l' : list A) x : x ∈ take k l → x ∈ take k (l ++ l').
Proof. rewrite take_app, elem_of_app. by left. Qed.

Lemma take_grow {A} (k : nat) (l l' : list A) : (k ≤ length l)%nat → take k (l ++ l') = take k l.
Proof. intros. by rewrite take_app_le. Qed.

Lemma kv_ok_grow L ext k kv : (k ≤ length L)%nat → kv_ok L k kv → kv_ok (L ++ ext) k kv.
Proof.
  intros Hk [Hm Hp Hr]. split; [by rewrite take_grow|done|]. by rewrite <- msgs_take, take_grow, msgs_take.
Qed.

Lemma justified_grow L ext op v : justified L op v → justified (L ++ ext) op v.
Proof.
  intros (p & Hp & Hin & ->). exists p. rewrite take_grow by done. rewrite length_app. split_and!; [lia|done..].
Qed.

Lemma call_ok_grow n taken L ext H cl : call_ok n taken L H cl → call_ok n taken (L ++ ext) H cl.
Proof.
  intros (Hi & Hw & Hin & Hst). do 3 (split; [done|]). destruct (call_stage cl) as [| | |[]|rep]; try done.
  - by apply elem_of_take_app.
  - intros Hr. by apply justified_grow, Hst.
Qed.

Lemma HistInv_grow clerk pending L ext H :
  HistInv clerk pending L H → HistInv clerk pending (L ++ ext) H.
Proof.
  intros HI. assert (∀ x, x ∈ H → (st_time x ≤ length L)%nat) as Ht.
  { intros x [k Hk]%list_elem_of_lookup_1. by eapply (hi_time _ _ _ _ HI). }
  destruct HI as [H1 H2 H3 H4 H5 H6 H7 H8 H9 H10 H11]. split; try done.
  - intros k x Hx. rewrite length_app. specialize (H1 k x Hx). lia.
  - intros x op k Hin Hx Hk. destruct (decide (k < length L)%nat) as [Hlt|Hge].
    + rewrite lookup_app_l in Hk by done. by eapply H6.
    + specialize (Ht x Hin). lia.
  - intros x op op' Hin Hx Hop Hid Hlt. by eapply elem_of_take_app, H7.
  - intros op Hop. destruct (H8 op Hop) as [?|?]; [left; apply elem_of_app; by left|by right].
  - intros x op v Hin Hx. destruct (H10 x op v Hin Hx) as (? & ? & ? & ?). specialize (Ht x Hin).
    rewrite take_grow by lia. done.
Qed.

Lemma HistInv_pending clerk pending pending' L H :
  (∀ id, pending' id = pending id) → HistInv clerk pending L H → HistInv clerk pending' L H.
Proof.
  intros Hp [H1 H2 H3 H4 H5 H6 H7 H8 H9 H10 H11]. split; try done.
  - intros op Hop. destruct (H8 op Hop) as [?|(q & Hq & ?)]; [by left|right]. exists q. by rewrite Hp.
  - intros id q. rewrite Hp. apply H9.
Qed.

(** *** The observations *)

Lemma invoked_snoc H x op : invoked (H ++ [x]) op ↔ invoked H op ∨ st_obs x = Invoked op.
Proof. unfold invoked. rewrite map_app, elem_of_app. simpl. rewrite list_elem_of_singleton. naive_solver. Qed.

Lemma returns_snoc H x :
  returns (H ++ [x]) = returns H ++ match st_obs x with Returned op v => [(op, v, st_point x)] | Invoked _ => [] end.
Proof. unfold returns. rewrite omap_app. simpl. by destruct (st_obs x). Qed.

Lemma returned_invoked clerk pending L H op v p :
  HistInv clerk pending L H → (op, v, p) ∈ returns H → invoked H op.
Proof. intros HI (x & Hin & Hx & _)%elem_of_returns. by destruct (hi_return _ _ _ _ HI x op v Hin Hx) as (_ & _ & _ & ?). Qed.

(** A time that is the length of the log is later than all others. *)
Lemma snoc_sorted clerk pending L H o p :
  HistInv clerk pending L H → let H' := H ++ [mkStamped o (length L) p] in
  (∀ k x, H' !! k = Some x → (st_time x ≤ length L)%nat) ∧
  (∀ j k x y, (j < k)%nat → H' !! j = Some x → H' !! k = Some y → (st_time x ≤ st_time y)%nat).
Proof.
  intros HI H'. assert (∀ k x, H' !! k = Some x → (st_time x ≤ length L)%nat) as Ht.
  { intros k x [Hx|[_ [_ Hx]%list_lookup_singleton_Some]]%lookup_app_Some; [by eapply (hi_time _ _ _ _ HI)|by subst]. }
  split; [done|]. intros j k x y Hjk Hx [Hy|[Hge [Hk0 <-]%list_lookup_singleton_Some]]%lookup_app_Some.
  - pose proof (lookup_lt_Some _ _ _ Hy). unfold H' in Hx. rewrite lookup_app_l in Hx by lia.
    exact (hi_sorted _ _ _ _ HI j k x y Hjk Hx Hy).
  - by eapply Ht.
Qed.

Lemma HistInv_invoke clerk pending L H id q ck :
  HistInv clerk pending L H → (∀ op, op ∈ L → invoked H op) → pending id = None →
  let op := request_entry q in
  Op_Id op = id → Op_ReqId op = ck_reqId (clerk id) → ck_reqId ck = Op_ReqId op + 1 →
  HistInv (<[id := ck]> clerk) (<[id := Some q]> pending) L (H ++ [mkStamped (Invoked op) (length L) 0]).
Proof.
  intros HI Hlog Hnone op Hid Hr Hck. destruct (snoc_sorted clerk pending L H (Invoked op) 0 HI) as [Ht Hs].
  assert (∀ op', invoked H op' → Op_Id op' = id → Op_ReqId op' < Op_ReqId op) as Hold.
  { intros op' Hop' Hid'. rewrite Hr, <- Hid'. by apply (hi_numbers _ _ _ _ HI). }
  assert (¬ invoked H op) as Hfresh by (intros Hop; specialize (Hold op Hop Hid); lia).
  split; [done..| | | | | | | | |].
  - intros id'. destruct (decide (id' = id)) as [->|]; [|rewrite fn_lookup_insert_ne by done; apply HI].
    rewrite fn_lookup_insert. pose proof (hi_clerk _ _ _ _ HI id). lia.
  - intros op' [Hop'|[= <-]]%invoked_snoc.
    + destruct (decide (Op_Id op' = id)) as [He|]; [|rewrite fn_lookup_insert_ne by done; by apply HI].
      rewrite He, fn_lookup_insert. specialize (Hold op' Hop' He). lia.
    + rewrite Hid, fn_lookup_insert. lia.
  - intros o1 o2 [Ho1|[= <-]]%invoked_snoc [Ho2|[= <-]]%invoked_snoc Heq; [by apply (hi_unique _ _ _ _ HI)|..|done];
      injection Heq as Hi Hq.
    + specialize (Hold o1 Ho1). lia.
    + specialize (Hold o2 Ho2). lia.
  - intros x op' k [Hin| ->%list_elem_of_singleton]%elem_of_app Hx Hk; [by eapply (hi_after _ _ _ _ HI)|].
    injection Hx as <-. by destruct (Hfresh (Hlog _ (list_elem_of_lookup_2 _ _ _ Hk))).
  - intros x o1 o2 [Hin| ->%list_elem_of_singleton]%elem_of_app Hx Ho2 Hi Hlt.
    + apply invoked_snoc in Ho2 as [Ho2|[= <-]]; [by eapply (hi_before _ _ _ _ HI)|].
      assert (invoked H o1) as Ho1 by (apply list_elem_of_fmap; eauto). specialize (Hold o1 Ho1). lia.
    + injection Hx as <-. simpl. rewrite take_ge by done.
      apply invoked_snoc in Ho2 as [Ho2|[= <-]]; [|lia].
      destruct (hi_done _ _ _ _ HI o2 Ho2) as [?|(q' & Hq' & _)]; [done|]. congruence.
  - intros op' [Hop'|[= <-]]%invoked_snoc.
    + destruct (hi_done _ _ _ _ HI op' Hop') as [?|(q' & Hq' & He)]; [by left|right].
      exists q'. rewrite fn_lookup_insert_ne; [done|]. intros ?. congruence.
    + right. exists q. by rewrite Hid, fn_lookup_insert.
  - intros id' q' Hq'. rewrite returns_snoc. simpl. rewrite app_nil_r. destruct (decide (id' = id)) as [->|].
    + rewrite fn_lookup_insert in Hq'. injection Hq' as <-. split; [done|].
      split; [apply invoked_snoc; by right|]. intros v p Hin. by apply Hfresh, (returned_invoked clerk pending L H op v p).
    + rewrite fn_lookup_insert_ne in Hq' by done. destruct (hi_pending _ _ _ _ HI id' q' Hq') as (? & ? & ?).
      split; [done|]. split; [apply invoked_snoc; by left|done].
  - intros x op' v [Hin| ->%list_elem_of_singleton]%elem_of_app Hx; [|done].
    destruct (hi_return _ _ _ _ HI x op' v Hin Hx) as (? & ? & ? & ?). rewrite invoked_snoc. auto.
  - rewrite returns_snoc. simpl. rewrite app_nil_r. apply HI.
Qed.

Lemma HistInv_return clerk pending L H q v p :
  HistInv clerk pending L H → let op := request_entry q in pending (Op_Id op) = Some q →
  (p ≤ length L)%nat → op ∈ take p L → v = seq_result op (spec_db (take p L)) →
  HistInv clerk (<[Op_Id op := None]> pending) L (H ++ [mkStamped (Returned op v) (length L) p]).
Proof.
  intros HI op Hq Hp Hin Hv. destruct (snoc_sorted clerk pending L H (Returned op v) p HI) as [Ht Hs].
  destruct (hi_pending _ _ _ _ HI _ _ Hq) as (_ & Hinv & Hno).
  assert (∀ op', invoked (H ++ [mkStamped (Returned op v) (length L) p]) op' ↔ invoked H op') as Hi.
  { intros op'. rewrite invoked_snoc. naive_solver. }
  assert (∀ x op', x ∈ H ++ [mkStamped (Returned op v) (length L) p] → st_obs x = Invoked op' → x ∈ H) as Hx.
  { by intros x op' [?| ->%list_elem_of_singleton]%elem_of_app. }
  split; [done..|apply HI| | | | | | | |].
  - intros op'. rewrite Hi. apply HI.
  - intros o1 o2. rewrite !Hi. apply HI.
  - intros x op' k Hxin Hobs. eapply (hi_after _ _ _ _ HI); eauto.
  - intros x o1 o2 Hxin Hobs. rewrite Hi. eapply (hi_before _ _ _ _ HI); eauto.
  - intros op'. rewrite Hi. intros Hop'. destruct (hi_done _ _ _ _ HI op' Hop') as [?|(q' & Hq' & He)]; [by left|].
    destruct (decide (Op_Id op' = Op_Id op)) as [Heq|].
    + left. assert (q' = q) as -> by congruence. subst op'. by eapply subseteq_take.
    + right. exists q'. by rewrite fn_lookup_insert_ne.
  - intros id' q' Hq'. destruct (decide (id' = Op_Id op)) as [->|]; [by rewrite fn_lookup_insert in Hq'|].
    rewrite fn_lookup_insert_ne in Hq' by done. destruct (hi_pending _ _ _ _ HI id' q' Hq') as (Hid & ? & Hn).
    rewrite Hi. split_and!; [done..|]. intros v' p'. rewrite returns_snoc. simpl.
    rewrite elem_of_app, list_elem_of_singleton. intros [?|[= He _ _]]; [by eapply Hn|]. congruence.
  - intros x op' v' [Hin'| ->%list_elem_of_singleton]%elem_of_app Hobs; rewrite Hi; [by apply HI|].
    injection Hobs as <- <-. simpl. done.
  - rewrite returns_snoc. simpl. rewrite !fmap_app. apply NoDup_app. split_and!; [apply HI| |].
    + intros o (x & -> & ([[o' v'] p'] & -> & Hr)%list_elem_of_fmap)%list_elem_of_fmap. simpl.
      rewrite list_elem_of_singleton. intros ->. by eapply Hno.
    + apply NoDup_singleton.
Qed.

Section invariant.
Context (n : Z) (Hn : 2 ≤ n).
Implicit Types (c : Service).

Section frame.
Context (c : Service) (L : list Op) (H : list stamped) (I : KInv n c L H).

Lemma log_invoked op : op ∈ L → invoked H op.
Proof using I.
  intros [k Hk]%list_elem_of_lookup_1.
  assert (mkApplyMsg (Z.of_nat (S k)) (Some op) ∈ msgs L) as Hm by (apply elem_of_msgs; eauto).
  apply (ki_log _ _ _ _ I) in Hm as [i Hi]. pose proof (vi_history _ _ (ki_valid _ _ _ _ I)) as Hh.
  rewrite Forall_forall in Hh. destruct (Hh _ Hi) as (e & He & Hme & Hpos). simpl in Hme.
  unfold entry_msg in Hme. injection Hme as _ Hcmd.
  destruct He as [->|(op' & Hop' & Hin)]; [done|]. unfold invoked. rewrite <- (ki_hist _ _ _ _ I). congruence.
Qed.

Lemma taken_le i : 0 ≤ i < n → (kc_taken c i ≤ length L)%nat.
Proof using Hn I.
  intros Hi. pose proof (ki_taken _ _ _ _ I i Hi) as Ht. destruct (kc_taken c i) as [|k]; [lia|].
  destruct (lookup_lt_is_Some_2 (applied (kc_raft c) i) k ltac:(lia)) as [m Hm].
  apply (LogOf_applied n Hn _ L) in Hm; [|apply I|apply I|done].
  apply lookup_lt_Some in Hm. by rewrite msgs_length in Hm.
Qed.

Lemma service_order : client_order L.
Proof using I. eapply client_order_log; [apply I|apply log_invoked]. Qed.

(** The database of a server is the specification of the prefix it has applied. *)
Lemma server_db i : 0 ≤ i < n → db (kc_kv c i) = spec_db (take (kc_taken c i) L).
Proof using I.
  intros Hi. destruct (kk_maps _ _ _ (ki_kv _ _ _ _ I i Hi)) as [-> _]. apply replay_spec_start.
  intros pre op post Heq. eapply (service_order pre op (post ++ drop (kc_taken c i) L)).
  rewrite <- (take_drop (kc_taken c i) L) at 1. rewrite Heq. by rewrite <- app_assoc.
Qed.

(** Steps of the peers: the log grows, everything else stays. *)
Lemma raft_parts a rc' :
  net_exec n a (kc_raft c) = Some rc' → bounded n (kc_raft c) = true →
  (∀ i cmd, a = AStart i cmd → ∃ op, cmd = Some op ∧ invoked H op) →
  ∃ ext, reachable n rc' ∧ LogOf rc' (L ++ ext) ∧ valid_inv (submitted_entry (kc_hist c)) rc'.
Proof using Hn I.
  intros He Hb Hs. pose proof (ki_raft _ _ _ _ I) as Hr.
  assert (reachable n rc') as Hr'.
  { destruct Hr as (c0 & H0 & Hrtc). exists c0. split; [done|]. eapply rtc_r; [done|]. by split; [|exists a]. }
  assert (valid_inv (submitted_entry (kc_hist c)) rc') as V.
  { eapply (valid_inv_exec _ (or_introl eq_refl) n Hn _ _ a Hr He); [|apply I].
    intros i cmd Ha t k. destruct (Hs i cmd Ha) as (op & -> & Hop). right. exists op. split; [done|].
    rewrite (ki_hist _ _ _ _ I). exact Hop. }
  destruct (LogOf_step n Hn (kc_raft c) rc' L a) as [ext Hext]; try done; [|apply I|by exists ext].
  intros i m Hin. pose proof (vi_history _ _ V) as Hh. rewrite Forall_forall in Hh.
  destruct (Hh _ Hin) as (e & [->|(op & Hop & _)] & Hm & Hpos); [done|]. simpl in Hm. rewrite Hm. simpl. by exists op.
Qed.

Lemma exec_applied a (rc rc' : Config Op) i :
  net_exec n a rc = Some rc' → (∀ j rs, a ≠ ARestart j rs) → (length (applied rc i) ≤ length (applied rc' i))%nat.
Proof.
  intros He Hnr. destruct a as [j|j rs|j k|k rs|k|j cmd|j|j|j rs]; cbn [net_exec] in He; try by destruct (Hnr j rs).
  7: { destruct (valid_id n j); [|done]. destruct (stateMachine_recv _) as [[ms r']|]; [|done].
    injection He as <-. simpl. destruct (decide (i = j)) as [->|].
    - rewrite fn_lookup_insert, length_app. lia.
    - by rewrite fn_lookup_insert_ne. }
  all: repeat case_match; try done; by injection He as <-.
Qed.

Lemma KInv_raft extra a al' :
  alias_exec n a extra (kc_alias c) = Some al' → prompt (kc_alias c) al' →
  bounded n (kc_raft c) = true → (∀ i rs, a ≠ ARestart i rs) →
  (∀ i cmd, a = AStart i cmd → ∃ op, cmd = Some op ∧ invoked H op) →
  ∃ ext, KInv n (set_alias al' c) (L ++ ext) H.
Proof using Hn I.
  intros Hal Hpr Hb Hnr Hs. destruct (prompt_exec _ _ _ _ _ (ki_mem _ _ _ _ I) Hal Hpr) as [He Hmem].
  fold (kc_raft c) in He.
  destruct (raft_parts a (al_base al') He Hb Hs) as (ext & Hr & HL & V). exists ext.
  pose proof taken_le as Htl. destruct I as [? ? ? ? Ht Hkv Hc Hsg Hw Hh HI]. split; simpl; try done.
  - intros i Hi. specialize (Ht i Hi). pose proof (exec_applied _ _ _ i He Hnr). unfold kc_raft in *. simpl in *. lia.
  - intros i Hi. apply kv_ok_grow; auto.
  - eapply Forall_impl; [exact Hc|]. intros cl. apply call_ok_grow.
  - by apply HistInv_grow.
Qed.

(** *** Changes of one part of the state *)

Lemma KInv_calls cs : Forall (call_ok n (kc_taken c) L H) cs → KInv n (set_calls cs c) L H.
Proof using I. intros. destruct I. by split. Qed.

Lemma KInv_stage h cl st :
  kc_calls c !! h = Some cl → call_ok n (kc_taken c) L H (mkCall (call_server cl) (call_req cl) st) →
  KInv n (set_stage h cl st c) L H.
Proof using I. intros Hh Hst. apply KInv_calls, Forall_insert; [apply I|done]. Qed.

Lemma KInv_kv i kv : kv_ok L (kc_taken c i) kv → KInv n (set_kv i kv c) L H.
Proof using I.
  intros Hk. destruct I. split; simpl; try done. intros j Hj. destruct (decide (j = i)) as [->|].
  - by rewrite fn_lookup_insert.
  - rewrite fn_lookup_insert_ne by done. auto.
Qed.

Lemma call_ok_at h cl : kc_calls c !! h = Some cl → call_ok n (kc_taken c) L H cl.
Proof using I. apply Forall_lookup_1, I. Qed.

(** *** One lemma per action *)

(** A critical section of a handler that leaves the maps alone. *)
Lemma kv_ok_event k e kv kv' :
  kv_event_exec e kv = Ok (tt, kv') → kv_applies [e] = [] → same_maps kv' kv → prevIndex kv' = prevIndex kv →
  kv_ok L k kv → kv_ok L k kv'.
Proof.
  intros He Ha Hm Hp [Hm0 Hp0 Hr0]. split; [by rewrite Hm|congruence|].
  pose proof (result_ok_event _ _ _ _ Hr0 He) as Hr. by rewrite Ha, app_nil_r in Hr.
Qed.

(** [getApply] applies the next operation of the log, and does not panic. *)
Lemma take_ok i m :
  0 ≤ i < n → applied (kc_raft c) i !! kc_taken c i = Some m →
  ∃ kv, getApply_msg m (kc_kv c i) = Ok (tt, kv) ∧ kv_ok L (S (kc_taken c i)) kv.
Proof using Hn I.
  intros Hi Hm. pose proof (LogOf_applied n Hn _ L i _ m (ki_raft _ _ _ _ I) (ki_log _ _ _ _ I) Hi Hm) as HL.
  pose proof HL as HL'. rewrite msgs_lookup in HL'. apply fmap_Some in HL' as (op & Hop & ->).
  destruct (ki_kv _ _ _ _ I i Hi) as [Hmaps Hprev Hres].
  pose proof (getApply_msg_ok (mkApplyMsg (Z.of_nat (S (kc_taken c i))) (Some op)) op (kc_kv c i) eq_refl) as Hg.
  rewrite Hg by (simpl; lia). eexists. split; [done|]. split.
  - rewrite (take_S_r _ _ _ Hop), replay_snoc, <- Hmaps. by apply getApply_update_proper.
  - simpl. by rewrite getApply_update_prev.
  - rewrite (take_S_r _ _ _ HL). apply (result_ok_event _ (KApply _) (kc_kv c i)); [done|].
    simpl. apply Hg. simpl. lia.
Qed.

Lemma KcTake_inv i m kv :
  0 ≤ i < n → applied (kc_raft c) i !! kc_taken c i = Some m → getApply_msg m (kc_kv c i) = Ok (tt, kv) →
  KInv n (set_taken i (S (kc_taken c i)) (set_kv i kv c)) L H.
Proof using Hn I.
  intros Hi Hm Hg. destruct (take_ok i m Hi Hm) as (kv' & Hg' & Hk). rewrite Hg in Hg'. injection Hg' as <-.
  pose proof (lookup_lt_Some _ _ _ Hm). destruct I as [? ? ? ? Ht Hkv Hc ? ? ? ?]. split; simpl; try done.
  - intros j Hj. destruct (decide (j = i)) as [->|]; [rewrite fn_lookup_insert; unfold kc_raft in *; simpl in *; lia|].
    rewrite fn_lookup_insert_ne by done. auto.
  - intros j Hj. destruct (decide (j = i)) as [->|]; [by rewrite !fn_lookup_insert|].
    rewrite !fn_lookup_insert_ne by done. auto.
  - eapply Forall_impl; [exact Hc|]. intros [s q st] (Hs & Hw & Hin & Hst). do 3 (split; [done|]). simpl in *.
    destruct st as [| | |[]|rep]; try done. destruct (decide (s = i)) as [->|]; [|by rewrite fn_lookup_insert_ne].
    rewrite fn_lookup_insert. apply elem_of_take in Hst as (k & Hk1 & Hk2). apply elem_of_take. exists k.
    split; [done|lia].
Qed.

(** [AppendLog] returns [true] only for an entry the server has applied. *)
Lemma wait_ok k kv t index entry ok kv' :
  kv_ok L k kv → AppendLog_wait t index entry kv = Ok (Some ok, kv') →
  kv_ok L k kv' ∧ (ok = true → entry ∈ take k L).
Proof.
  intros Hk Hw. split.
  - apply (kv_ok_event k (KWait t index entry) kv); [simpl; unfold bind; by rewrite Hw|done|..|done];
      revert Hw; unfold AppendLog_wait, bind, get, modify, ret; destruct t; [by intros [= _ <-]| |by intros [= _ <-]|];
      destruct (result kv !! index) as [[op|]|]; try done; by intros [= _ <-].
  - intros ->. revert Hw. unfold AppendLog_wait, bind, get, modify, ret. destruct t; [done|].
    destruct (result kv !! index) as [[op|]|] eqn:Hi; [|done..]. intros [= Heq%bool_decide_eq_true _]. subst op.
    pose proof (kk_result _ _ _ Hk _ _ Hi) as Hm. rewrite <- msgs_take in Hm.
    apply elem_of_msgs in Hm as (j & op & Hj & [= _ ->]). by eapply list_elem_of_lookup_2.
Qed.

(** The reply of a handler is justified by the log. *)
Lemma finish_ok h i q ok rep kv :
  kc_calls c !! h = Some (mkCall i q (Appended ok)) → kc_prompt (KcFinish h) c = true →
  handler_finish q ok (kc_kv c i) = Ok (rep, kv) →
  kv_ok L (kc_taken c i) kv ∧ (reply_wrong rep = false → justified L (request_entry q) (reply_value rep)).
Proof using Hn I.
  intros Hh Hpr Hf. destruct (call_ok_at _ _ Hh) as (Hi & Hw & _ & Hst). simpl in Hi, Hw, Hst.
  pose proof (ki_kv _ _ _ _ I i Hi) as Hk. pose proof (taken_le i Hi) as Htl.
  destruct q as [args|args]; simpl in Hf; unfold bind in Hf.
  - destruct ok; simpl in Hf; injection Hf as <- <-; [|done]. simpl in Hpr. rewrite Hh in Hpr.
    apply bool_decide_eq_true in Hpr. split.
    + eapply (kv_ok_event _ (KGetFinish args)); [done|done| |done|exact Hk]. split; [done|]. by apply insert_id.
    + intros _. exists (kc_taken c i). split_and!; [done..|]. unfold seq_result. simpl. by rewrite <- server_db.
  - injection Hf as <- <-. split; [done|]. destruct ok; [|done]. intros _. exists (kc_taken c i).
    split_and!; [done..|]. unfold seq_result. by rewrite decide_False.
Qed.
End frame.

Section actions.
Context (c : Service) (L : list Op) (H : list stamped) (I : KInv n c L H).

Lemma KcKill_inv extra i r kv :
  0 ≤ i < n → bounded n (kc_raft c) = true → RaftKV_Kill (servers (kc_raft c) i, kc_kv c i) = Ok (tt, (r, kv)) →
  prompt (kc_alias c) (kc_alias (set_peer extra i r c)) →
  ∃ ext, KInv n (set_peer extra i r c) (L ++ ext) H ∧ kv_ok (L ++ ext) (kc_taken c i) kv.
Proof using Hn I.
  intros Hi Hb. unfold RaftKV_Kill. destruct (Kill _) as [[[] r']|] eqn:Hk; [|done].
  destruct (kv_stopc _); [done|]. intros [= <- <-] Hpr.
  destruct (KInv_raft c L H I extra (AKill i) (kc_alias (set_peer extra i r' c))) as [ext HI']; try done.
  { unfold alias_exec. cbn [net_exec]. fold (kc_raft c). rewrite (proj2 (valid_id_spec n i) Hi). by rewrite Hk. }
  exists ext. split; [done|]. by destruct (ki_kv _ _ _ _ HI' i Hi).
Qed.

Lemma KcStart_inv extra h cl index t lead r :
  kc_calls c !! h = Some cl → bounded n (kc_raft c) = true →
  Start (Some (request_entry (call_req cl))) (servers (kc_raft c) (call_server cl)) = Ok ((index, t, lead), r) →
  prompt (kc_alias c) (kc_alias (set_peer extra (call_server cl) r c)) →
  ∃ ext, KInv n (set_stage h cl (if negb lead then Appended false else Started index)
    (set_peer extra (call_server cl) r c)) (L ++ ext) H.
Proof using Hn I.
  intros Hh Hb Hs Hpr. destruct (call_ok_at c L H I _ _ Hh) as (Hi & Hw & Hin & _).
  destruct (KInv_raft c L H I extra (AStart (call_server cl) (Some (request_entry (call_req cl))))
    (kc_alias (set_peer extra (call_server cl) r c))) as [ext HI']; [|done..| |].
  { unfold alias_exec. cbn [net_exec]. fold (kc_raft c). rewrite (proj2 (valid_id_spec n _) Hi). by rewrite Hs. }
  { intros i cmd [= <- <-]. eauto. }
  exists ext. apply KInv_stage; [done..|]. do 3 (split; [done|]). by destruct lead.
Qed.

Lemma handler_inv extra a h cl c' :
  kc_calls c !! h = Some cl → bounded n (kc_raft c) = true →
  (∀ h', a = KcFinish h' → h' = h) → kc_prompt a c = true →
  handler_exec extra a h cl c = Some c' → prompt (kc_alias c) (kc_alias c') → ∃ ext, KInv n c' (L ++ ext) H.
Proof using Hn I.
  intros Hh Hb Hfin Hpr He Hmem. destruct (call_ok_at c L H I _ _ Hh) as (Hi & Hw & Hin & _).
  assert (KInv n c' L H → ∃ ext, KInv n c' (L ++ ext) H) as Hstay by (exists []; by rewrite app_nil_r).
  destruct cl as [i q st]. simpl in *. pose proof (ki_kv _ _ _ _ I i Hi) as Hk.
  unfold handler_exec in He. simpl in He. destruct a as [| | | | | |h'|h'|t h'|h'| |]; try done; destruct st; try done.
  - destruct (Start _ _) as [[[[index t] lead] r]|] eqn:Hs; [|done]. injection He as <-. by eapply KcStart_inv.
  - injection He as <-. apply Hstay, KInv_stage; [|done|done]. apply KInv_kv; [done|].
    eapply (kv_ok_event L _ (KRegister index)); [done|done| | |exact Hk]; by destruct (result _ !! index).
  - destruct (AppendLog_wait _ _ _ _) as [[[ok|] kv]|] eqn:Hwt; try done. injection He as <-.
    destruct (wait_ok L _ _ _ _ _ _ _ Hk Hwt) as [Hk' Hok]. apply Hstay, KInv_stage; [by apply KInv_kv|done|].
    do 3 (split; [done|]). simpl. destruct ok; [by apply Hok|done].
  - destruct (handler_finish _ _ _) as [[rep kv]|] eqn:Hf; [|done]. injection He as <-.
    rewrite (Hfin h' eq_refl) in Hpr. destruct (finish_ok c L H I h i q ok rep kv Hh Hpr Hf) as [Hk' Hr].
    apply Hstay, KInv_stage; [by apply KInv_kv|done|]. by do 3 (split; [done|]).
Qed.

Lemma KcRestart_inv extra i rs al' :
  alias_exec n (ARestart i rs) extra (kc_alias c) = Some al' → prompt (kc_alias c) al' → bounded n (kc_raft c) = true →
  ∃ ext, KInv n (set_calls (filter (λ cl, survives i cl) (kc_calls c))
    (set_taken i 0 (set_kv i StartKVServer (set_alias al' c)))) (L ++ ext) H.
Proof using Hn I.
  intros Hal Hpr Hb. destruct (prompt_exec _ _ _ _ _ (ki_mem _ _ _ _ I) Hal Hpr) as [He Hmem].
  destruct (raft_parts c L H I (ARestart i rs) (al_base al') He Hb) as (ext & Hr & HL & V); [done|]. exists ext.
  assert (applied (al_base al') = <[i := []]> (applied (kc_raft c))) as Ha.
  { cbn [net_exec] in He. destruct (valid_id n i); [|done]. destruct (Make _ _ _ _); [|done]. by injection He as <-. }
  pose proof (taken_le c L H I) as Htl. destruct I as [? ? ? ? Ht Hkv Hc ? ? ? HI]. split; simpl; try done.
  - intros j Hj. unfold kc_raft at 1. simpl. rewrite Ha. destruct (decide (j = i)) as [->|]; [rewrite !fn_lookup_insert; simpl; lia|].
    rewrite !fn_lookup_insert_ne by done. auto.
  - intros j Hj. destruct (decide (j = i)) as [->|].
    + rewrite !fn_lookup_insert. split; [done|done|]. intros k op Hk. simpl in Hk. by rewrite lookup_empty in Hk.
    + rewrite !fn_lookup_insert_ne by done. apply kv_ok_grow; auto.
  - apply Forall_forall. intros [s q st] [Hsv Hin]%list_elem_of_filter. rewrite Forall_forall in Hc.
    apply Hc in Hin. apply (call_ok_grow _ _ _ ext) in Hin as (Hs & Hw & Hq & Hst). do 3 (split; [done|]). simpl in *.
    destruct st as [| | |[]|rep]; try done. unfold survives in Hsv. simpl in Hsv. rewrite orb_false_r in Hsv.
    apply Is_true_true, negb_true_iff, Z.eqb_neq in Hsv. by rewrite fn_lookup_insert_ne.
  - by apply HistInv_grow.
Qed.

Lemma next_req_number ck : ck_reqId ck < max_int → 0 ≤ ck_reqId ck → ck_reqId (next_req ck).2 = ck_reqId ck + 1.
Proof. intros. simpl. apply wrap64_id. unfold max_int in *. lia. Qed.

Lemma KcInvoke_inv id o :
  kc_pending c id = [] → ck_reqId (kc_clerk c id) < max_int →
  let '(r, ck) := next_req (kc_clerk c id) in
  let q := clerk_request o id r in
  ∃ H', KInv n (observe (Invoked (request_entry q)) (set_pending id (kc_pending c id ++ [q]) (set_clerk id ck c))) L H'.
Proof using I.
  intros Hnone Hmax. pose proof (next_req_number _ Hmax (hi_clerk _ _ _ _ (ki_obs _ _ _ _ I) id)) as Hnum.
  destruct (next_req (kc_clerk c id)) as [r ck] eqn:Hn'. simpl in Hnum.
  assert (r = ck_reqId (kc_clerk c id)) as -> by (by injection Hn'). set (q := clerk_request o id _).
  exists (H ++ [mkStamped (Invoked (request_entry q)) (length L) 0]). pose proof (log_invoked c L H I) as Hlog.
  assert (∀ id', pending1 (observe (Invoked (request_entry q)) (set_pending id (kc_pending c id ++ [q]) (set_clerk id ck c))) id' =
    <[id := Some q]> (pending1 c) id') as Hp1.
  { intros id'. unfold pending1. simpl. destruct (decide (id' = id)) as [->|].
    - by rewrite !fn_lookup_insert, Hnone.
    - by rewrite !fn_lookup_insert_ne. }
  destruct I as [? ? ? V ? ? Hc Hsg Hwf Hh HI]. split; simpl; try done.
  - eapply valid_inv_mono; [|exact V]. intros e [->|(op & Hop & Hin)]; [by left|right].
    exists op. rewrite elem_of_app. auto.
  - eapply Forall_impl; [exact Hc|]. intros cl (? & ? & Hin & ?). do 2 (split; [done|]).
    split; [by apply invoked_snoc; left|done].
  - intros id'. destruct (decide (id' = id)) as [->|]; [rewrite fn_lookup_insert, Hnone; simpl; lia|].
    by rewrite fn_lookup_insert_ne.
  - intros id' q'. rewrite Hp1. destruct (decide (id' = id)) as [->|].
    + rewrite fn_lookup_insert. intros [= <-]. by destruct o.
    + rewrite fn_lookup_insert_ne by done. apply Hwf.
  - by rewrite Hh, map_app.
  - eapply HistInv_pending; [exact Hp1|]. apply HistInv_invoke; try done; [|by destruct o..].
    unfold pending1. by rewrite Hnone.
Qed.

Lemma KcReply_inv h q rep i :
  kc_calls c !! h = Some (mkCall i q (Replied rep)) →
  ∃ H', KInv n (clerk_reply q rep (set_calls (delete h (kc_calls c)) c)) L H'.
Proof using I.
  intros Hh. destruct (call_ok_at c L H I _ _ Hh) as (_ & _ & _ & Hj). simpl in Hj.
  assert (KInv n (set_calls (delete h (kc_calls c)) c) L H) as I' by (by apply KInv_calls; [|apply Forall_delete, I]).
  unfold clerk_reply. destruct (bool_decide _) eqn:Hp; [|by exists H]. apply bool_decide_eq_true in Hp. simpl in Hp.
  set (id := Op_Id (request_entry q)) in *.
  assert (kc_pending c id = [q]) as Hq.
  { pose proof (ki_single _ _ _ _ I id) as Hs. destruct (kc_pending c id) as [|q1 [|]]; [by apply elem_of_nil in Hp| |simpl in Hs; lia].
    by apply list_elem_of_singleton in Hp as ->. }
  destruct (reply_wrong rep) eqn:Hw; [by exists H|]. destruct (Hj eq_refl) as (p & Hle & Hin & Hv). simpl.
  exists (H ++ [mkStamped (Returned (request_entry q) (reply_value rep)) (length L) p]).
  match goal with |- KInv n ?c' _ _ => assert (∀ id', pending1 c' id' = <[id := None]> (pending1 c) id') as Hp1 end.
  { intros id'. unfold pending1. simpl. destruct (decide (id' = id)) as [->|].
    - rewrite !fn_lookup_insert, Hq, filter_cons_False by (by intros []). done.
    - by rewrite !fn_lookup_insert_ne. }
  destruct I' as [? ? ? V ? ? Hc Hsg Hwf Hhist HI]. split; simpl in *; try done.
  - eapply valid_inv_mono; [|exact V]. intros e [->|(op & Hop & Hin')]; [by left|right].
    exists op. rewrite elem_of_app. auto.
  - eapply Forall_impl; [exact Hc|]. intros cl (? & ? & Hin' & ?). do 2 (split; [done|]).
    split; [by apply invoked_snoc; left|done].
  - intros id'. destruct (decide (id' = id)) as [->|]; [|by rewrite fn_lookup_insert_ne].
    rewrite fn_lookup_insert, Hq, filter_cons_False by (by intros []). simpl. lia.
  - intros id' q'. rewrite Hp1. destruct (decide (id' = id)) as [->|]; [by rewrite fn_lookup_insert|].
    rewrite fn_lookup_insert_ne by done. apply Hwf.
  - by rewrite Hhist, map_app.
  - eapply HistInv_pending; [exact Hp1|]. apply HistInv_return; try done. unfold pending1. fold id. by rewrite Hq.
Qed.
End actions.

Lemma kc_exec_inv extra a c c' L H :
  KInv n c L H → orderly n a c c' → kc_exec n extra a c = Some c' → ∃ ext H', KInv n c' (L ++ ext) H'.
Proof using Hn.
  intros I [[Hb Hl]%andb_true_iff Hpr Hsq Hmem] He.
  assert ((∃ ext, KInv n c' (L ++ ext) H) → ∃ ext H', KInv n c' (L ++ ext) H') as Hext by (intros [ext ?]; eauto).
  assert ((∃ H', KInv n c' L H') → ∃ ext H', KInv n c' (L ++ ext) H') as Hobs
    by (intros [H' ?]; exists [], H'; by rewrite app_nil_r).
  destruct a as [a|i rs|i|i|id o|id k i|h|h|t h|h|h|h]; cbn [kc_exec] in He.
  - destruct (internal a) eqn:Hint; [|done]. apply fmap_Some in He as (al' & He & ->).
    apply Hext. eapply KInv_raft; [done..| |]; by intros; destruct a.
  - apply fmap_Some in He as (al' & He & ->). apply Hext. by eapply KcRestart_inv.
  - destruct (valid_id n i) eqn:Hv; [apply (valid_id_spec n) in Hv|done].
    destruct (RaftKV_Kill _) as [[[] [r kv]]|] eqn:Hk; [|done]. injection He as <-.
    destruct (KcKill_inv c L H I extra i r kv Hv Hb Hk Hmem) as (ext & HI' & Hkv). apply Hext. exists ext. by apply KInv_kv.
  - destruct (valid_id n i) eqn:Hv; [apply (valid_id_spec n) in Hv|done].
    destruct (applied _ i !! _) as [m|] eqn:Hm; [|done].
    destruct (getApply_msg _ _) as [[[] kv]|] eqn:Hg; [|done]. injection He as <-.
    apply Hobs. exists H. by eapply KcTake_inv.
  - destruct (_ =? _); [|done]. apply bool_decide_eq_true in Hsq.
    pose proof (KcInvoke_inv c L H I id o Hsq (proj1 (Z.ltb_lt _ _) Hl)) as Hi.
    destruct (next_req _) as [r ck]. injection He as <-. by apply Hobs.
  - apply bind_Some in He as (q & Hq & He). destruct (valid_id n i) eqn:Hv; [|done].
    assert (pending1 c id = Some q) as Hp.
    { pose proof (ki_single _ _ _ _ I id) as Hs. unfold pending1.
      destruct (kc_pending c id) as [|q1 [|q2 l]]; [done| |simpl in Hs; lia]. by destruct k. }
    apply (valid_id_spec n) in Hv. injection He as <-. apply Hobs. exists H. apply KInv_calls; [done|].
    apply Forall_app. split; [apply I|]. apply Forall_singleton. split; [done|]. split; [by eapply (ki_wf _ _ _ _ I)|].
    split; [|done]. by destruct (hi_pending _ _ _ _ (ki_obs _ _ _ _ I) id q Hp) as (_ & ? & _).
  - apply bind_Some in He as (cl & Hh & He). apply Hext. by eapply (handler_inv c L H I extra (KcStart h)).
  - apply bind_Some in He as (cl & Hh & He). apply Hext. by eapply (handler_inv c L H I extra (KcRegister h)).
  - apply bind_Some in He as (cl & Hh & He). apply Hext. by eapply (handler_inv c L H I extra (KcWait t h)).
  - apply bind_Some in He as (cl & Hh & He). apply Hext. eapply (handler_inv c L H I extra (KcFinish h)); eauto.
    by intros h' [= ->].
  - apply bind_Some in He as ([i q st] & Hh & He). destruct st; try done. injection He as <-.
    apply Hobs. by eapply KcReply_inv.
  - apply bind_Some in He as (cl & Hh & He). apply Hobs. exists H.
    assert (c' = set_calls (delete h (kc_calls c)) c) as -> by (by destruct (call_stage cl); simplify_eq).
    apply KInv_calls; [done|]. apply Forall_delete, I.
Qed.

Lemma kc_start_inv al : alias_initial n al → KInv n (kc_start al) [] [].
Proof.
  intros Hal. pose proof Hal as [Hi _]. pose proof Hi as (_ & _ & Ha & Hh). split; simpl; try done.
  - exists (al_base al). split; [done|apply rtc_refl].
  - by eapply initial_alias_inv.
  - intros m. unfold kc_raft. simpl. rewrite Hh. split; [by intros [? []%elem_of_nil]|by intros []%elem_of_nil].
  - apply (valid_inv_initial _ (or_introl eq_refl) n). done.
  - intros i _. lia.
  - intros id. lia.
  - split; try done; try (by intros ? []%elem_of_nil); try (by intros ? ? []%elem_of_nil);
      try (by intros ? ? ? []%elem_of_nil). constructor.
Qed.

Lemma kc_reachable_inv c : kc_reachable n c → ∃ L H, KInv n c L H.
Proof using Hn.
  intros (al & Hi & Hr). pose proof (kc_start_inv al Hi) as I0.
  eapply (rtc_keeps (kc_step n) (λ c, ∃ L H, KInv n c L H)); [|exact Hr|by exists [], []].
  intros x y (extra & a & He & Hor) (L & H & I).
  destruct (kc_exec_inv extra a x y L H I Hor He) as (ext & H' & ?). eauto.
Qed.
End invariant.

(** ** The service keeps its promise *)

(** C2: Linearizability.  In a cluster of at least two servers, whatever the network between the
    peers and between clerks and servers loses, delays and reorders, whatever crashes and restarts,
    and however often the clerks retry: what the clients observe can be explained by a sequential
    order of the operations that respects the order of operations that do not overlap.  The runs
    are the [orderly] ones: a clerk is used by one goroutine at a time (the code lets several, see
    [concurrent_clerk_not_linearizable]) and two clerks have different ids; a [Get] handler takes
    the lock before a later request of its clerk is applied (see [late_get_not_linearizable]); no
    peer truncates its log while an append request of its own waits to be encoded (see
    RaftAlias.v); terms and request numbers stay below the largest [int]. *)
Theorem kv_linearizable n c : 2 ≤ n → kc_reachable n c → linearizable (kc_hist c).
Proof.
  intros Hn (L & H & I)%kc_reachable_inv; [|done]. exists (lin_log L H (length L)).
  rewrite (ki_hist _ _ _ _ I). eapply lin_correct; [apply I|]. by apply (log_invoked n c).
Qed.

Section replicas.
Context (n : Z) (Hn : 2 ≤ n) (c : Service) (L : list Op) (H : list stamped) (I : KInv n c L H).

Lemma taken_msgs i :
  0 ≤ i < n → take (kc_taken c i) (applied (kc_raft c) i) = msgs (take (kc_taken c i) L).
Proof using Hn I.
  intros Hi. rewrite msgs_take. pose proof (taken_le n Hn c L H I i Hi). pose proof (ki_taken _ _ _ _ I i Hi).
  apply list_eq. intros k. destruct (decide (k < kc_taken c i)%nat); [|by rewrite !lookup_take_ge by lia].
  rewrite !lookup_take_lt by done. destruct (lookup_lt_is_Some_2 (applied (kc_raft c) i) k ltac:(lia)) as [m Hm].
  rewrite Hm. symmetry. eapply (LogOf_applied n Hn); [apply I|apply I|done..].
Qed.

Lemma taken_ops i : 0 ≤ i < n → ops_of (take (kc_taken c i) (applied (kc_raft c) i)) = take (kc_taken c i) L.
Proof using Hn I. intros Hi. by rewrite taken_msgs, ops_of_msgs. Qed.
End replicas.

(** C5: Exactly once.  In the runs of [kv_linearizable] (at least two servers, clerks with
    different ids each used by one goroutine at a time, prompt [Get] handlers, no truncation under
    a waiting append request, numbers below the largest [int]), however often clerks retry, the
    database of a server is the one in which each request takes effect exactly once, at its first
    occurrence among the operations received so far, and the next message is accepted without a
    panic. *)
Theorem service_exactly_once n c i :
  2 ≤ n → kc_reachable n c → 0 ≤ i < n →
  let ms := take (kc_taken c i) (applied (kc_raft c) i) in
  client_order (ops_of ms) ∧ db (kc_kv c i) = spec_db (ops_of ms) ∧
  ∀ m, applied (kc_raft c) i !! kc_taken c i = Some m → ∃ kv, getApply_msg m (kc_kv c i) = Ok (tt, kv).
Proof.
  intros Hn (L & H & I)%kc_reachable_inv Hi; [|done]. simpl. rewrite (taken_ops n Hn c L H I i Hi). split_and!.
  - intros pre op post Heq. eapply (service_order n c L H I pre op (post ++ drop (kc_taken c i) L)).
    rewrite <- (take_drop (kc_taken c i) L) at 1. rewrite Heq. by rewrite <- app_assoc.
  - by eapply server_db.
  - intros m Hm. destruct (take_ok n Hn c L H I i m Hi Hm) as (kv & ? & _). by exists kv.
Qed.

(** C18: Replicas agree.  In the runs of [kv_linearizable] (at least two servers, clerks with different
    ids each used by one goroutine at a time, prompt [Get] handlers, no truncation under a waiting
    append request, numbers below the largest [int]), a server that has received at least as many
    messages as another has the other's database and acknowledgements, brought up to date
    with the operations the other has not received yet: two servers that have received the same
    number of messages have the same database, whatever their handlers did meanwhile. *)
Theorem kv_replicas_agree n c i j :
  2 ≤ n → kc_reachable n c → 0 ≤ i < n → 0 ≤ j < n → (kc_taken c i ≤ kc_taken c j)%nat →
  same_maps (kc_kv c j)
    (replay (drop (kc_taken c i) (ops_of (take (kc_taken c j) (applied (kc_raft c) j)))) (kc_kv c i)).
Proof.
  intros Hn (L & H & I)%kc_reachable_inv Hi Hj Hle; [|done]. rewrite (taken_ops n Hn c L H I j Hj).
  rewrite (kk_maps _ _ _ (ki_kv _ _ _ _ I j Hj)), (kk_maps _ _ _ (ki_kv _ _ _ _ I i Hi)).
  unfold replay. rewrite <- fold_left_app. rewrite <- (take_drop (kc_taken c i) (take (kc_taken c j) L)) at 1.
  by rewrite take_take, Nat.min_l.
Qed.

(** ** Runs of three servers *)

Definition raft_acts (l : list (action Op)) : list kaction := map KcRaft l.

(** The request at place [k] of the leader goes to a follower and back; then the leader applies. *)
Definition replicate_0 (k : nat) : list kaction := raft_acts [ASend 0 k; ADeliver 0 []; ADeliver 0 []; AApply 0].

(** Clerk 7 gets a key; both calls of its loop reach the leader and commit an entry. *)
Definition two_gets : list kaction :=
  raft_acts elect_0 ++ [KcInvoke 7 (CkGet "k"); KcCall 7 0 0; KcStart 0; KcCall 7 0 0; KcStart 1] ++ replicate_0 5 ++
  [KcRegister 0; KcRegister 1; KcTake 0; KcTake 0; KcWait false 0; KcWait false 1].

(** The second handler answers; the clerk appends, again with two calls. *)
Definition two_appends : list kaction :=
  [KcFinish 1; KcReply 1; KcInvoke 7 (CkAppend "k" "b"); KcCall 7 0 0; KcStart 1; KcCall 7 0 0; KcStart 2] ++
  replicate_0 9.

(** The append returns and clerk 8 gets the key. *)
Definition other_get : list kaction :=
  [KcRegister 2; KcTake 0; KcWait false 2; KcFinish 2; KcReply 2; KcInvoke 8 (CkGet "k"); KcCall 8 0 0; KcStart 2] ++
  replicate_0 10 ++ [KcRegister 2; KcTake 0; KcWait false 2; KcFinish 2; KcReply 2].

(** The first handler of the get finishes before the append is applied, or after it. *)
Definition prompt_run : list kaction := two_gets ++ [KcFinish 0] ++ two_appends ++ [KcTake 0] ++ other_get.
Definition late_run : list kaction := two_gets ++ two_appends ++ [KcTake 0; KcFinish 0] ++ other_get.

Definition service_hist (prompt : bool) (acts : list kaction) : option (list kv_observation) :=
  kc_hist <$> kc_run prompt true 3 acts (kc_start (alias_boot 3)).

(** The operations server 0 has received. *)
Definition service_ops (acts : list kaction) : option (list Op) :=
  (λ c, ops_of (take (kc_taken c 0) (applied (kc_raft c) 0))) <$> kc_run true true 3 acts (kc_start (alias_boot 3)).

Lemma service_hist_run prompt acts h :
  service_hist prompt acts = Some h → ∃ c, kc_run prompt true 3 acts (kc_start (alias_boot 3)) = Some c ∧ kc_hist c = h.
Proof. unfold service_hist. destruct (kc_run _ _ _ _) as [c|]; [|done]. intros [= <-]. eauto. Qed.

Lemma service_ops_run acts ops :
  service_ops acts = Some ops →
  ∃ c, kc_reachable 3 c ∧ ops_of (take (kc_taken c 0) (applied (kc_raft c) 0)) = ops.
Proof.
  unfold service_ops. destruct (kc_run _ _ _ _) as [c|] eqn:Hrun; [|done]. intros [= <-].
  exists c. split; [by eapply kc_run_reachable|done].
Qed.

Definition get_7 : Op := mkOp "Get" "k" EmptyString 7 0.
Definition append_7 : Op := mkOp "Append" "k" "b" 7 1.
Definition get_8 : Op := mkOp "Get" "k" EmptyString 8 0.

(** What the clients see, the second get returning [v]. *)
Definition two_clerks (v : string) : list kv_observation :=
  [Invoked get_7; Returned get_7 EmptyString; Invoked append_7; Returned append_7 EmptyString;
   Invoked get_8; Returned get_8 v].

Lemma prompt_run_hist : service_hist true prompt_run = Some (two_clerks "b").
Proof. vm_compute. reflexivity. Qed.

Lemma late_run_hist : service_hist false late_run = Some (two_clerks "bb").
Proof. vm_compute. reflexivity. Qed.

Lemma kv_linearizable_witness : linearizable (two_clerks "b").
Proof.
  destruct (service_hist_run _ _ _ prompt_run_hist) as (c & Hrun & Hh). rewrite <- Hh.
  apply (kv_linearizable 3 c); [lia|]. exact (kc_run_reachable 3 prompt_run c Hrun).
Defined.

Lemma prompt_run_ops : service_ops prompt_run = Some [get_7; get_7; append_7; append_7; get_8].
Proof. vm_compute. reflexivity. Qed.

Lemma service_exactly_once_witness :
  ∃ c, kc_reachable 3 c ∧ db (kc_kv c 0) = spec_db [get_7; get_7; append_7; append_7; get_8].
Proof.
  destruct (service_ops_run _ _ prompt_run_ops) as (c & Hr & Hops). exists c. split; [exact Hr|].
  rewrite <- Hops. exact (proj1 (proj2 (service_exactly_once 3 c 0 ltac:(lia) Hr ltac:(lia)))).
Defined.

(** Server 2 has received four of the five messages of the leader. *)
Definition follower_run : list kaction :=
  prompt_run ++ [KcRaft (AApply 2); KcRaft (AApply 2); KcTake 2; KcTake 2; KcTake 2; KcTake 2].

Definition service_taken (acts : list kaction) : option (nat * nat) :=
  (λ c, (kc_taken c 2, kc_taken c 0)) <$> kc_run true true 3 acts (kc_start (alias_boot 3)).

Lemma service_taken_run acts k : service_taken acts = Some k → ∃ c, kc_reachable 3 c ∧ (kc_taken c 2, kc_taken c 0) = k.
Proof.
  unfold service_taken. destruct (kc_run _ _ _ _) as [c|] eqn:Hrun; [|done]. intros [= <-].
  exists c. split; [by eapply kc_run_reachable|done].
Qed.

Lemma follower_run_taken : service_taken follower_run = Some (4, 5)%nat.
Proof. vm_compute. reflexivity. Qed.

Lemma kv_replicas_agree_witness :
  ∃ c, kc_reachable 3 c ∧ kc_taken c 2 = 4%nat ∧ kc_taken c 0 = 5%nat ∧
    same_maps (kc_kv c 0) (replay (drop 4 (ops_of (take 5 (applied (kc_raft c) 0)))) (kc_kv c 2)).
Proof.
  destruct (service_taken_run _ _ follower_run_taken) as (c & Hr & Hk). exists c. injection Hk as H2 H0.
  pose proof (kv_replicas_agree 3 c 2 0 ltac:(lia) Hr ltac:(lia) ltac:(lia)) as H. rewrite H2, H0 in H.
  split; [exact Hr|]. split; [exact H2|]. split; [exact H0|]. exact (H ltac:(lia)).
Defined.

(** ** A late [Get] handler *)

(** With one append of [b], a get returns nothing or [b]. *)
Lemma one_append_reads s d :
  legal d s → NoDup s.*1 → (∀ op v, (op, v) ∈ s → op = get_7 ∨ op = append_7 ∨ op = get_8) →
  db_get d "k" = EmptyString ∨ (db_get d "k" = "b"%string ∧ append_7 ∉ s.*1) →
  ∀ v, (get_8, v) ∈ s → v = EmptyString ∨ v = "b"%string.
Proof.
  revert d. induction s as [|[op v0] s IH]; intros d Hl Hn Hops Hd v; [by intros []%elem_of_nil|].
  simpl in Hl, Hn. destruct Hl as [Hv0 Hl]. apply NoDup_cons in Hn as [Hnew Hn].
  assert (∀ op' v', (op', v') ∈ s → op' = get_7 ∨ op' = append_7 ∨ op' = get_8) as Hops'
    by (intros op' v' ?; eapply (Hops op' v'); by right).
  assert (op = append_7 ∨ apply_op op d = d) as Hop.
  { destruct (Hops op v0) as [->|[->| ->]]; [left|by right|by left|by right]. }
  assert (db_get (apply_op op d) "k" = EmptyString ∨ (db_get (apply_op op d) "k" = "b"%string ∧ append_7 ∉ s.*1)) as Hd'.
  { destruct Hop as [->| ->].
    - right. split; [|done]. destruct Hd as [Hd|[_ Hno]]; [|by destruct Hno; left].
      unfold apply_op. simpl. unfold db_get at 1. rewrite lookup_insert_eq. simpl. by rewrite Hd.
    - destruct Hd as [?|[? Hno]]; [by left|right]. split; [done|]. intros ?. apply Hno. by right. }
  intros [[= <- ->]|Hin]%elem_of_cons; [|by eapply IH].
  rewrite Hv0. unfold seq_result. simpl. by destruct Hd as [->|[-> _]]; [left|right].
Qed.

(** C37: Without prompt [Get] handlers the service is not linearizable: [Get] writes [ack] outside the
    apply loop, so a handler that takes the lock late makes its server apply a retried append
    again, and another client reads it twice. *)
Theorem late_get_not_linearizable :
  ∃ h, service_hist false late_run = Some h ∧ ¬ linearizable h.
Proof.
  exists (two_clerks "bb"). split; [apply late_run_hist|]. intros [s [Hl Ho Hi Hr _]].
  destruct (one_append_reads s ∅ Hl Ho) with "bb"%string as [?|?]; try done.
  - intros op v Hin%Hi. unfold two_clerks in Hin. rewrite !elem_of_cons in Hin.
    repeat destruct Hin as [[=]|Hin]; auto. by apply elem_of_nil in Hin.
  - by left.
  - apply Hr. do 5 right. left.
Qed.

(** ** A clerk used by two goroutines *)

Definition append_a : Op := mkOp "Append" "k" "a" 7 0.
Definition append_b : Op := mkOp "Append" "k" "b" 7 1.

(** Two goroutines append through clerk 7; the request numbered later reaches the leader first. *)
Definition two_goroutines : list kaction :=
  raft_acts elect_0 ++ [KcInvoke 7 (CkAppend "k" "a"); KcInvoke 7 (CkAppend "k" "b");
    KcCall 7 1 0; KcStart 0; KcCall 7 0 0; KcStart 1] ++ replicate_0 5 ++
  [KcRegister 0; KcRegister 1; KcTake 0; KcTake 0; KcWait false 0; KcWait false 1; KcFinish 0; KcFinish 1;
    KcReply 0; KcReply 0; KcInvoke 8 (CkGet "k"); KcCall 8 0 0; KcStart 0] ++ replicate_0 7 ++
  [KcRegister 0; KcTake 0; KcWait false 0; KcFinish 0; KcReply 0].

(** What the clients see. *)
Definition lost_append : list kv_observation :=
  [Invoked append_a; Invoked append_b; Returned append_b EmptyString; Returned append_a EmptyString;
   Invoked get_8; Returned get_8 "b"].

Definition goroutines_hist (clerks : bool) (acts : list kaction) : option (list kv_observation) :=
  kc_hist <$> kc_run true clerks 3 acts (kc_start (alias_boot 3)).

Lemma two_goroutines_hist : goroutines_hist false two_goroutines = Some lost_append.
Proof. vm_compute. reflexivity. Qed.

Lemma value_unique (s : list (Op * string)) op v v' : NoDup s.*1 → (op, v) ∈ s → (op, v') ∈ s → v = v'.
Proof.
  induction s as [|[o w] s IH]; [by intros _ []%elem_of_nil|]. simpl. intros [Hnew Hn]%NoDup_cons.
  intros [Hv|Hv]%elem_of_cons [Hv'|Hv']%elem_of_cons; simplify_eq; [done|..|by apply IH].
  - destruct Hnew. apply list_elem_of_fmap. by exists (o, v').
  - destruct Hnew. apply list_elem_of_fmap. by exists (o, v).
Qed.

(** A sequential order of these operations has each of them once, with the value observed. *)
Lemma lost_append_orders s :
  linearization lost_append s →
  s ∈ permutations [(append_a, EmptyString); (append_b, EmptyString); (get_8, "b"%string)].
Proof.
  intros [_ Ho Hi Hr _]. apply permutations_Permutation, NoDup_Permutation.
  - apply (bool_decide_unpack _). vm_compute. done.
  - by eapply NoDup_fmap_1.
  - assert (∀ op v w, (op, v) ∈ s → Returned op w ∈ lost_append → (op, v) = (op, w)) as Hu
      by (intros op v w Hin Hret; f_equal; by eapply value_unique, Hr).
    intros [op v]. split.
    + rewrite !elem_of_cons. intros [->|[->|[->|[]%elem_of_nil]]]; apply Hr; unfold lost_append; set_solver.
    + intros Hin. pose proof (Hi _ _ Hin) as Hinv. unfold lost_append in Hinv. rewrite !elem_of_cons, elem_of_nil in Hinv.
      destruct Hinv as [[= ->]|[[= ->]|[[=]|[[=]|[[= ->]|[[=]|[]]]]]]].
      * rewrite (Hu _ _ EmptyString Hin); unfold lost_append; set_solver.
      * rewrite (Hu _ _ EmptyString Hin); unfold lost_append; set_solver.
      * rewrite (Hu _ _ "b"%string Hin); unfold lost_append; set_solver.
Qed.

(** C39: A [Clerk] locks its mutex only to number its requests, so several goroutines may use one; but
    then the service is not linearizable, in a run that is otherwise orderly: when the request numbered
    later is committed first, [checkDup] takes the other for a repetition, drops it and reports
    success, and the append is lost. *)
Theorem concurrent_clerk_not_linearizable :
  ∃ h, goroutines_hist false two_goroutines = Some h ∧ ¬ linearizable h.
Proof.
  exists lost_append. split; [apply two_goroutines_hist|]. intros [s Hs].
  pose proof (lost_append_orders s Hs) as Hin. destruct Hs as [Hl _ _ _ Ho].
  destruct (Ho append_a EmptyString get_8 "b"%string) as (l1 & l2 & l3 & Ha).
  { by exists [Invoked append_a; Invoked append_b; Returned append_b EmptyString], [], [Returned get_8 "b"]. }
  { apply permutations_Permutation in Hin. rewrite <- Hin. set_solver. }
  apply list_elem_of_In in Hin. cbn [permutations interleave mbind list_bind fmap list_fmap app In] in Hin.
  repeat destruct Hin as [<-|Hin]; [..|done]; vm_compute in Hl; destruct_and! Hl; try discriminate.
  by destruct l1 as [|? [|? [|? [|? l1]]]], l2.
Qed.
