(* ===== verification/Labrpc.v ===== *)
(** * The simulated RPC network (src/mit/src/labrpc/labrpc.go)

    [Network] keeps the configuration of the Go struct; the goroutine that
    [ProcessReq] starts for every call is a [pending] call that moves through the
    stages of the function, one [net_op] at a time, so that configuration changes
    ([Enable], [DeleteServer], ...) can fall between any two of them.

    - Servers are objects: [servers] maps a server name to the identity of a
      [Server] in [heap], so that [IsServerDead] can tell a deleted and re-added
      server from the one that took the request.  An entry [None] is a nil server.
    - The RPC handlers are a parameter: [handler svc meth args s] is what calling
      the method of the registered object does to the application state [s];
      argument and reply values are of an arbitrary type [V] (gob carries them).
    - Sleeps only delay a call, which the interleaving allows anyway; random
      draws are arguments. *)
From Stdlib Require Import Ascii.
From Stdlib Require Strings.String.
From S2P Require Import Prelude GoRt.
Open Scope Z_scope.

(** ** Strings: [strings.LastIndex(s, ".")] *)

Fixpoint last_dot (l : list Ascii.ascii) : option nat :=
  match l with
  | [] => None
  | a :: l' =>
      match last_dot l' with
      | Some k => Some (S k)
      | None => if decide (a = "."%char) then Some 0%nat else None
      end
  end.

Definition LastIndex (s : string) : Z :=
  match last_dot (String.list_ascii_of_string s) with Some k => Z.of_nat k | None => -1 end.

(** [svcMeth[:dot]] and [svcMeth[dot+1:]]; a missing dot is a slice out of range. *)
Definition split_svcMeth (s : string) : option (string * string) :=
  let dot := LastIndex s in
  let l := String.list_ascii_of_string s in
  match go_slice l 0 dot, go_slice l (dot + 1) (go_len l) with
  | Some a, Some b => Some (String.string_of_list_ascii a, String.string_of_list_ascii b)
  | _, _ => None
  end.

Section labrpc.
Context {Name V A : Type} `{Countable Name}.
Context (handler : string → string → V → A → res (V * A)).

(** ** The structs *)

Record reqMsg : Type := mkReqMsg { req_endname : Name; req_svcMeth : string; req_args : V }.
Record replyMsg : Type := mkReplyMsg { rep_ok : bool; rep_reply : option V }.

(** A service: its name and the methods that look like handlers. *)
Record Service : Type := mkService { svc_name : string; svc_methods : gset string }.

(** A method as [reflect] shows it. *)
Record Method : Type := mkMethod {
  mt_name : string; mt_PkgPath : string; mt_NumIn : Z; mt_In2_ptr : bool; mt_NumOut : Z;
}.

Record Server : Type := mkServer { sv_services : gmap string Service; sv_count : Z }.

(** Where the goroutine of [ProcessReq] is. *)
Inductive stage : Type :=
| Queued                                                    (* before [ReadEndnameInfo] *)
| Waiting (sname : Name) (sid : nat) (rel longr : bool)     (* in the [select] loop *)
| Checked (rel longr dead : bool) (reply : option replyMsg) (* after the last check *)
| Done (rep : replyMsg).                                    (* written to [replyCh] *)

(** Where the goroutine that calls [server.dispatch] is; it is never stopped. *)
Inductive hstage : Type :=
| HNone
| HStarted (sid : nat)
| HDone (rep : replyMsg).

Record pending : Type := mkPending { p_req : reqMsg; p_stage : stage; p_handler : hstage }.

Record Network : Type := mkNetwork {
  reliable : bool;
  longDelays : bool;
  longReordering : bool;
  ends : gset Name;
  enabled : gmap Name bool;
  servers : gmap Name (option nat);
  connections : gmap Name (option Name);
  heap : gmap nat Server;               (* the [Server] objects *)
  calls : gmap nat pending;             (* the calls in progress and done *)
  app : A;                              (* the state the handlers work on *)
  executed : list (nat * V);            (* which calls ran their handler, and its reply *)
}.

Definition with_call (rn : Network) (k : nat) (p : pending) : Network :=
  mkNetwork (reliable rn) (longDelays rn) (longReordering rn) (ends rn) (enabled rn) (servers rn)
    (connections rn) (heap rn) (<[k := p]> (calls rn)) (app rn) (executed rn).

(** ** Configuration *)

Definition MakeNetwork (a : A) : Network := mkNetwork true false false ∅ ∅ ∅ ∅ ∅ ∅ a [].

Definition Reliable (yes : bool) (rn : Network) : Network :=
  mkNetwork yes (longDelays rn) (longReordering rn) (ends rn) (enabled rn) (servers rn)
    (connections rn) (heap rn) (calls rn) (app rn) (executed rn).
Definition LongReordering (yes : bool) (rn : Network) : Network :=
  mkNetwork (reliable rn) (longDelays rn) yes (ends rn) (enabled rn) (servers rn)
    (connections rn) (heap rn) (calls rn) (app rn) (executed rn).
Definition LongDelays (yes : bool) (rn : Network) : Network :=
  mkNetwork (reliable rn) yes (longReordering rn) (ends rn) (enabled rn) (servers rn)
    (connections rn) (heap rn) (calls rn) (app rn) (executed rn).

Definition MakeEnd (e : Name) (rn : Network) : res Network :=
  if decide (e ∈ ends rn) then Panic "MakeEnd: already exists"
  else Ok (mkNetwork (reliable rn) (longDelays rn) (longReordering rn) ({[e]} ∪ ends rn)
             (<[e := false]> (enabled rn)) (servers rn) (<[e := None]> (connections rn))
             (heap rn) (calls rn) (app rn) (executed rn)).

Definition AddServer (s : Name) (sid : nat) (rn : Network) : Network :=
  mkNetwork (reliable rn) (longDelays rn) (longReordering rn) (ends rn) (enabled rn)
    (<[s := Some sid]> (servers rn)) (connections rn) (heap rn) (calls rn) (app rn) (executed rn).
Definition DeleteServer (s : Name) (rn : Network) : Network :=
  mkNetwork (reliable rn) (longDelays rn) (longReordering rn) (ends rn) (enabled rn)
    (<[s := None]> (servers rn)) (connections rn) (heap rn) (calls rn) (app rn) (executed rn).
Definition Connect (e s : Name) (rn : Network) : Network :=
  mkNetwork (reliable rn) (longDelays rn) (longReordering rn) (ends rn) (enabled rn)
    (servers rn) (<[e := Some s]> (connections rn)) (heap rn) (calls rn) (app rn) (executed rn).
Definition Enable (e : Name) (yes : bool) (rn : Network) : Network :=
  mkNetwork (reliable rn) (longDelays rn) (longReordering rn) (ends rn) (<[e := yes]> (enabled rn))
    (servers rn) (connections rn) (heap rn) (calls rn) (app rn) (executed rn).

(** ** Servers and services *)

Definition MakeServer : Server := mkServer ∅ 0.

(** A new [Server] object, under a fresh identity. *)
Definition new_server (sid : nat) (sv : Server) (rn : Network) : Network :=
  mkNetwork (reliable rn) (longDelays rn) (longReordering rn) (ends rn) (enabled rn)
    (servers rn) (connections rn) (<[sid := sv]> (heap rn)) (calls rn) (app rn) (executed rn).

Definition AddService (svc : Service) (sv : Server) : Server :=
  mkServer (<[svc_name svc := svc]> (sv_services sv)) (sv_count sv).

Definition suitable (m : Method) : bool :=
  negb (negb (bool_decide (mt_PkgPath m = EmptyString)) || negb (mt_NumIn m =? 3)
        || negb (mt_In2_ptr m) || negb (mt_NumOut m =? 0)).

Definition MakeService (name : string) (ms : list Method) : Service :=
  mkService name (list_to_set (map mt_name (filter (λ m, suitable m = true) ms))).

Definition Server_GetCount (sv : Server) : Z := sv_count sv.

Definition Network_GetCount (s : Name) (rn : Network) : res Z :=
  match servers rn !! s with
  | Some (Some sid) =>
      match heap rn !! sid with
      | Some sv => Ok (Server_GetCount sv)
      | None => Panic "nil pointer dereference"
      end
  | _ => Panic "nil pointer dereference"
  end.

(** [Service.dispatch]: the value of the reply; [replyMsg{true, ...}] carries it. *)
Definition Service_dispatch (svc : Service) (meth : string) (req : reqMsg) (a : A) :
    res (V * A) :=
  if decide (meth ∈ svc_methods svc) then
    handler (svc_name svc) meth (req_args req) a
  else Panic "labrpc.Service.dispatch(): unknown method".

(** [Server.dispatch]: counts the request, finds the service and calls it. *)
Definition Server_dispatch (sv : Server) (req : reqMsg) (a : A) : res (V * Server * A) :=
  let sv' := mkServer (sv_services sv) (sv_count sv + 1) in
  match split_svcMeth (req_svcMeth req) with
  | None => Panic slice_panic
  | Some (serviceName, methodName) =>
      match sv_services sv !! serviceName with
      | Some service =>
          match Service_dispatch service methodName req a with
          | Ok (v, a') => Ok (v, sv', a')
          | Panic w => Panic w
          end
      | None => Panic "labrpc.Server.dispatch(): unknown service"
      end
  end.

(** ** Calls *)

Definition ReadEndnameInfo (e : Name) (rn : Network) : bool * option Name * option nat * bool * bool :=
  let en := default false (enabled rn !! e) in
  let sname := default None (connections rn !! e) in
  let server := match sname with Some s => default None (servers rn !! s) | None => None end in
  (en, sname, server, reliable rn, longReordering rn).

Definition IsServerDead (e s : Name) (sid : nat) (rn : Network) : bool :=
  bool_decide (default false (enabled rn !! e) = false)
  || negb (bool_decide (default None (servers rn !! s) = Some sid)).

(** [ClientEnd.Call] up to the send on [e.ch]: a new call in the network. *)
Definition Call (k : nat) (req : reqMsg) (rn : Network) : Network :=
  with_call rn k (mkPending req Queued HNone).

Definition fail_reply : replyMsg := mkReplyMsg false None.

(** The start of [ProcessReq]; [r] is the draw that drops the request of an unreliable network. *)
Definition ProcessReq_start (k : nat) (r : Z) (rn : Network) : Network :=
  match calls rn !! k with
  | Some (mkPending req Queued h) =>
      let '(en, sname, server, rel, longr) := ReadEndnameInfo (req_endname req) rn in
      match en, sname, server with
      | true, Some s, Some sid =>
          if negb rel && (r mod 1000 <? 100)
          then with_call rn k (mkPending req (Done fail_reply) h)
          else with_call rn k (mkPending req (Waiting s sid rel longr) (HStarted sid))
      | _, _, _ => with_call rn k (mkPending req (Done fail_reply) h)
      end
  | _ => rn
  end.

(** The goroutine [r := server.dispatch(req); ech <- r]. *)
Definition ProcessReq_dispatch (k : nat) (rn : Network) : res Network :=
  match calls rn !! k with
  | Some (mkPending req st (HStarted sid)) =>
      match heap rn !! sid with
      | Some sv =>
          match Server_dispatch sv req (app rn) with
          | Ok (v, sv', a') =>
              Ok (mkNetwork (reliable rn) (longDelays rn) (longReordering rn) (ends rn) (enabled rn)
                    (servers rn) (connections rn) (<[sid := sv']> (heap rn))
                    (<[k := mkPending req st (HDone (mkReplyMsg true (Some v)))]> (calls rn))
                    a' (executed rn ++ [(k, v)]))
          | Panic w => Panic w
          end
      | None => Panic "nil pointer dereference"
      end
  | _ => Ok rn
  end.

(** A turn of the [select] loop in which the timer fires and the server turns out dead; the
    handler may still be running. *)
Definition ProcessReq_timer (k : nat) (rn : Network) : Network :=
  match calls rn !! k with
  | Some (mkPending req (Waiting s sid rel longr) h) =>
      if IsServerDead (req_endname req) s sid rn
      then with_call rn k (mkPending req (Checked rel longr true None) h) else rn
  | _ => rn
  end.

(** The turn that receives the handler's reply, and the check after the loop. *)
Definition ProcessReq_receive (k : nat) (rn : Network) : Network :=
  match calls rn !! k with
  | Some (mkPending req (Waiting s sid rel longr) (HDone rep)) =>
      with_call rn k (mkPending req
        (Checked rel longr (IsServerDead (req_endname req) s sid rn) (Some rep)) (HDone rep))
  | _ => rn
  end.

(** The end of [ProcessReq]; [r] is the draw that drops the reply of an unreliable network. *)
Definition ProcessReq_finish (k : nat) (r : Z) (rn : Network) : Network :=
  match calls rn !! k with
  | Some (mkPending req (Checked rel longr dead reply) h) =>
      match reply with
      | None => with_call rn k (mkPending req (Done fail_reply) h)
      | Some rep =>
          if dead then with_call rn k (mkPending req (Done fail_reply) h)
          else if negb rel && (r mod 1000 <? 100)
          then with_call rn k (mkPending req (Done fail_reply) h)
          else with_call rn k (mkPending req (Done rep) h)
      end
  | _ => rn
  end.

(** What [ClientEnd.Call] returns once the reply is there: [None] for [false]. *)
Definition Call_result (k : nat) (rn : Network) : option (option V) :=
  match calls rn !! k with
  | Some (mkPending _ (Done rep) _) => Some (if rep_ok rep then rep_reply rep else None)
  | _ => None
  end.

(** ** Runs of the network *)

Inductive net_op : Type :=
| OReliable (yes : bool) | OLongReordering (yes : bool) | OLongDelays (yes : bool)
| OMakeEnd (e : Name) | OAddServer (s : Name) (sid : nat) | ODeleteServer (s : Name)
| OConnect (e s : Name) | OEnable (e : Name) (yes : bool) | ONewServer (sid : nat) (sv : Server)
| OCall (k : nat) (req : reqMsg)
| OStart (k : nat) (r : Z) | ODispatch (k : nat) | OTimer (k : nat) | OReceive (k : nat)
| OFinish (k : nat) (r : Z).

(** Calls and servers are new objects: their identities have not been used. *)
Definition op_ok (o : net_op) (rn : Network) : Prop :=
  match o with
  | OCall k _ => calls rn !! k = None
  | ONewServer sid _ => heap rn !! sid = None
  | _ => True
  end.

Definition net_op_exec (o : net_op) (rn : Network) : res Network :=
  match o with
  | OReliable b => Ok (Reliable b rn)
  | OLongReordering b => Ok (LongReordering b rn)
  | OLongDelays b => Ok (LongDelays b rn)
  | OMakeEnd e => MakeEnd e rn
  | OAddServer s sid => Ok (AddServer s sid rn)
  | ODeleteServer s => Ok (DeleteServer s rn)
  | OConnect e s => Ok (Connect e s rn)
  | OEnable e b => Ok (Enable e b rn)
  | ONewServer sid sv => Ok (new_server sid sv rn)
  | OCall k req => Ok (Call k req rn)
  | OStart k r => Ok (ProcessReq_start k r rn)
  | ODispatch k => ProcessReq_dispatch k rn
  | OTimer k => Ok (ProcessReq_timer k rn)
  | OReceive k => Ok (ProcessReq_receive k rn)
  | OFinish k r => Ok (ProcessReq_finish k r rn)
  end.

Definition rpc_step (rn rn' : Network) : Prop :=
  ∃ o, op_ok o rn ∧ net_op_exec o rn = Ok rn'.

(** What the goroutines of a call agree on. *)
Definition call_ok (ex : list (nat * V)) (k : nat) (p : pending) : Prop :=
  match p_handler p with
  | HDone rep => ∃ v, rep = mkReplyMsg true (Some v) ∧ (k, v) ∈ ex
  | _ => k ∉ map fst ex
  end ∧
  match p_stage p with
  | Queued => p_handler p = HNone
  | Waiting _ _ _ _ => p_handler p ≠ HNone
  | Checked _ _ _ (Some rep) => p_handler p = HDone rep
  | Checked _ _ _ None => True
  | Done rep => rep = fail_reply ∨ p_handler p = HDone rep
  end.

Record RpcInv (rn : Network) : Prop := mkRpcInv {
  ri_calls : ∀ k p, calls rn !! k = Some p → call_ok (executed rn) k p;
  ri_exec : ∀ k, k ∈ map fst (executed rn) → is_Some (calls rn !! k);
  ri_nodup : NoDup (map fst (executed rn));
}.

Lemma RpcInv_init a : RpcInv (MakeNetwork a).
Proof.
  split; simpl.
  - intros k p. by rewrite lookup_empty.
  - intros k Hk. by apply elem_of_nil in Hk.
  - apply NoDup_nil_2.
Qed.

(** Call [k] moves on without running its handler. *)
Lemma RpcInv_call rn k p' :
  RpcInv rn → call_ok (executed rn) k p' → RpcInv (with_call rn k p').
Proof.
  intros [Hc He Hn] Hp. split; simpl; [| |done].
  - intros j p [[<- <-]|[_ Hj]]%lookup_insert_Some; auto.
  - intros j Hj. destruct (decide (k = j)) as [<-|]; [rewrite lookup_insert_eq; by eexists|].
    rewrite lookup_insert_ne by done. auto.
Qed.

Lemma call_ok_other ex k j v p : j ≠ k → call_ok ex j p → call_ok (ex ++ [(k, v)]) j p.
Proof.
  intros Hj [Hh Hs]. split; [|done]. rewrite map_app. destruct (p_handler p).
  1,2: rewrite elem_of_app; intros [?|Hin]; [done|];
    apply list_elem_of_singleton in Hin; by subst.
  destruct Hh as (v' & ? & ?). exists v'. split; [done|]. apply elem_of_app. by left.
Qed.

Lemma RpcInv_start rn k r : RpcInv rn → RpcInv (ProcessReq_start k r rn).
Proof.
  intros I. unfold ProcessReq_start. destruct (calls rn !! k) as [[req st h]|] eqn:Hk; [|done].
  destruct st; [|done..]. destruct (ri_calls _ I _ _ Hk) as [Hh Hst]. simpl in *. subst h.
  assert (RpcInv (with_call rn k (mkPending req (Done fail_reply) HNone))) as Hfail.
  { apply RpcInv_call; [done|]. split; [done|by left]. }
  destruct (default false _); [|done]. destruct (default None (connections rn !! _)) as [s|]; [|done].
  destruct (default None (servers rn !! s)) as [sid|]; [|done]. destruct (_ && _); [done|].
  apply RpcInv_call; [done|]. by split.
Qed.

Lemma RpcInv_dispatch rn k rn' :
  RpcInv rn → ProcessReq_dispatch k rn = Ok rn' → RpcInv rn'.
Proof.
  intros I. unfold ProcessReq_dispatch. destruct (calls rn !! k) as [[req st h]|] eqn:Hk.
  2: { intros Heq. by injection Heq as <-. }
  destruct h as [|sid|rep]; try (intros Heq; by injection Heq as <-).
  destruct (heap rn !! sid) as [sv|]; [|done].
  destruct (Server_dispatch _ _ _) as [[[v sv'] a']|]; [|done]. intros Heq. injection Heq as <-.
  destruct (ri_calls _ I _ _ Hk) as [Hh Hst]. simpl in *. split; simpl.
  - intros j p [[<- <-]|[? Hj]]%lookup_insert_Some.
    + split; simpl.
      * exists v. split; [done|]. apply elem_of_app. right. by apply list_elem_of_singleton.
      * destruct st as [|? ? ? ?|? ? ? [rep|]|rep]; try done. destruct Hst; [by left|done].
    + apply call_ok_other; [done|]. by apply (ri_calls _ I).
  - intros j. rewrite map_app, elem_of_app. intros [Hj|Hj].
    + destruct (decide (k = j)) as [<-|]; [rewrite lookup_insert_eq; by eexists|].
      rewrite lookup_insert_ne by done. by apply (ri_exec _ I).
    + apply list_elem_of_singleton in Hj as ->. simpl. rewrite lookup_insert_eq. by eexists.
  - rewrite map_app. apply NoDup_app. split_and!; [apply I| |apply NoDup_singleton].
    intros j Hj Hin. apply list_elem_of_singleton in Hin. simpl in Hin. by subst j.
Qed.

Lemma RpcInv_wait rn k :
  RpcInv rn → RpcInv (ProcessReq_timer k rn) ∧ RpcInv (ProcessReq_receive k rn).
Proof.
  intros I. unfold ProcessReq_timer, ProcessReq_receive.
  destruct (calls rn !! k) as [[req st h]|] eqn:Hk; [|done].
  destruct st; [done| |done..]. destruct (ri_calls _ I _ _ Hk) as [Hh Hst]. simpl in *. split.
  - destruct (IsServerDead _ _ _ _); [|done]. by apply RpcInv_call.
  - destruct h; [done..|]. by apply RpcInv_call.
Qed.

Lemma RpcInv_finish rn k r : RpcInv rn → RpcInv (ProcessReq_finish k r rn).
Proof.
  intros I. unfold ProcessReq_finish. destruct (calls rn !! k) as [[req st h]|] eqn:Hk; [|done].
  destruct st as [| |rel longr dead reply|]; [done|done| |done].
  destruct (ri_calls _ I _ _ Hk) as [Hh Hst]. simpl in *.
  assert (RpcInv (with_call rn k (mkPending req (Done fail_reply) h))) as Hfail.
  { apply RpcInv_call; [done|]. split; [done|by left]. }
  destruct reply as [rep|]; [|done]. destruct dead; [done|]. destruct (_ && _); [done|].
  apply RpcInv_call; [done|]. split; [done|by right].
Qed.

Lemma RpcInv_step rn rn' : RpcInv rn → rpc_step rn rn' → RpcInv rn'.
Proof.
  intros I (o & Hok & Hex).
  assert (∀ rn1, calls rn1 = calls rn → executed rn1 = executed rn → RpcInv rn1) as Hconf.
  { intros rn1 H1 H2. destruct I. split; rewrite ?H1, ?H2; auto. }
  destruct o; simpl in Hex; try (injection Hex as <-; by apply Hconf).
  - unfold MakeEnd in Hex. destruct (decide _); [done|]. injection Hex as <-. by apply Hconf.
  - injection Hex as <-. apply RpcInv_call; [done|]. split; [|done]. simpl. intros Hin.
    apply (ri_exec _ I) in Hin as [p Hp]. simpl in Hok. congruence.
  - injection Hex as <-. by apply RpcInv_start.
  - by eapply RpcInv_dispatch.
  - injection Hex as <-. by apply RpcInv_wait.
  - injection Hex as <-. by apply RpcInv_wait.
  - injection Hex as <-. by apply RpcInv_finish.
Qed.

Lemma RpcInv_rtc rn rn' : rtc rpc_step rn rn' → RpcInv rn → RpcInv rn'.
Proof. induction 1; eauto using RpcInv_step. Qed.

Lemma RpcInv_run a rn : rtc rpc_step (MakeNetwork a) rn → RpcInv rn.
Proof. intros Hr. eapply RpcInv_rtc; [done|]. apply RpcInv_init. Qed.

(** C13: RPCs are executed at most once, and a call that succeeds was executed: in every run of
    the network no call runs its handler twice, and a [Call] that returns [true] returns the
    reply its handler computed. *)
Theorem rpc_at_most_once a rn :
  rtc rpc_step (MakeNetwork a) rn →
  NoDup (map fst (executed rn)) ∧
  ∀ k v, Call_result k rn = Some (Some v) → (k, v) ∈ executed rn.
Proof.
  intros Hr%RpcInv_run. split; [apply Hr|]. intros k v Hv. unfold Call_result in Hv.
  destruct (calls rn !! k) as [[req st h]|] eqn:Hk; [|done]. destruct st as [| | |rep]; try done.
  destruct (ri_calls _ Hr _ _ Hk) as [Hh [Hs|Hs]]; simpl in *; [by subst rep|].
  subst h. destruct Hh as (v' & -> & Hin). simpl in Hv. congruence.
Qed.

(** Call [k] has failed and its handler was never started. *)
Definition never_ran (k : nat) (rn : Network) : Prop :=
  ∃ req, calls rn !! k = Some (mkPending req (Done fail_reply) HNone).

Lemma never_ran_step k rn rn' : never_ran k rn → rpc_step rn rn' → never_ran k rn'.
Proof.
  intros [req Hk] (o & Hok & Hex).
  assert (∀ j p, j ≠ k → never_ran k (with_call rn j p)) as Hoth.
  { intros j p Hj. exists req. simpl. by rewrite lookup_insert_ne. }
  assert (never_ran k rn) as Hsame by (by exists req).
  destruct o as [| | | | | | | | |j q|j r|j|j|j|j r]; simpl in Hex;
    try (injection Hex as <-; by exists req).
  - unfold MakeEnd in Hex. destruct (decide _); [done|]. injection Hex as <-. by exists req.
  - injection Hex as <-. apply Hoth. intros ->. simpl in Hok. congruence.
  - injection Hex as <-. unfold ProcessReq_start. destruct (decide (j = k)) as [->|]; [by rewrite Hk|].
    repeat case_match; auto.
  - unfold ProcessReq_dispatch in Hex. destruct (decide (j = k)) as [->|].
    + rewrite Hk in Hex. by injection Hex as <-.
    + repeat case_match; simplify_eq; auto. exists req. simpl. by rewrite lookup_insert_ne.
  - injection Hex as <-. unfold ProcessReq_timer. destruct (decide (j = k)) as [->|]; [by rewrite Hk|].
    repeat case_match; auto.
  - injection Hex as <-. unfold ProcessReq_receive. destruct (decide (j = k)) as [->|]; [by rewrite Hk|].
    repeat case_match; auto.
  - injection Hex as <-. unfold ProcessReq_finish. destruct (decide (j = k)) as [->|]; [by rewrite Hk|].
    repeat case_match; auto.
Qed.

(** A call through a disabled end, or to a server that is not connected or was deleted,
    fails, and its handler never runs, whatever happens to the network afterwards. *)
Theorem rpc_unreachable_fails a rn k r rn' req :
  rtc rpc_step (MakeNetwork a) rn → calls rn !! k = Some (mkPending req Queued HNone) →
  (let '(en, _, server, _, _) := ReadEndnameInfo (req_endname req) rn in
   en = false ∨ server = None) →
  rtc rpc_step (ProcessReq_start k r rn) rn' →
  Call_result k rn' = Some None ∧ k ∉ map fst (executed rn').
Proof.
  intros Hr Hk Hdown Hr'.
  assert (never_ran k (ProcessReq_start k r rn)) as Hn.
  { exists req. unfold ProcessReq_start. rewrite Hk. simpl in Hdown.
    assert (∀ rn1, with_call rn k (mkPending req (Done fail_reply) HNone) = rn1 →
      calls rn1 !! k = Some (mkPending req (Done fail_reply) HNone)) as Hw
      by (intros ? <-; simpl; by rewrite lookup_insert_eq).
    simpl. apply Hw. destruct (default false _); [|done].
    destruct (default None (connections rn !! _)) as [s|]; [|done].
    destruct Hdown as [?| ->]; done. }
  assert (RpcInv rn') as I'
    by (eapply RpcInv_rtc; [done|]; by apply RpcInv_start, (RpcInv_run a)).
  assert (never_ran k rn') as [req' Hk'].
  { clear -Hr' Hn. induction Hr'; eauto using never_ran_step. }
  unfold Call_result. rewrite Hk'. split; [done|]. by destruct (ri_calls _ I' _ _ Hk').
Qed.

(** Call [k], which went to server object [sid] under the name [s], can no longer succeed. *)
Definition doomed (k : nat) (s : Name) (sid : nat) (rn : Network) : Prop :=
  ∃ p, calls rn !! k = Some p ∧
    match p_stage p with
    | Waiting s' sid' _ _ => s' = s ∧ sid' = sid
    | Checked _ _ dead reply => dead = true ∨ reply = None
    | Done rep => rep = fail_reply
    | Queued => False
    end.

Lemma doomed_step k s sid rn rn' :
  default None (servers rn !! s) ≠ Some sid → doomed k s sid rn → rpc_step rn rn' → doomed k s sid rn'.
Proof.
  intros Hs (p & Hk & Hp) (o & Hok & Hex). destruct p as [req st h]. simpl in Hp.
  assert (∀ j q, j ≠ k → doomed k s sid (with_call rn j q)) as Hoth.
  { intros j q Hj. exists (mkPending req st h). simpl. by rewrite lookup_insert_ne. }
  assert (∀ p, match p_stage p with
    | Waiting s' sid' _ _ => s' = s ∧ sid' = sid
    | Checked _ _ dead reply => dead = true ∨ reply = None
    | Done rep => rep = fail_reply | Queued => False end → doomed k s sid (with_call rn k p)) as Hown.
  { intros p' Hp'. exists p'. split; [|done]. simpl. by rewrite lookup_insert_eq. }
  assert (doomed k s sid rn) as Hsame by (by exists (mkPending req st h)).
  destruct o as [| | | | | | | | |j q|j r|j|j|j|j r]; simpl in Hex;
    try (injection Hex as <-; exact Hsame).
  - unfold MakeEnd in Hex. destruct (decide _); [done|]. injection Hex as <-. exact Hsame.
  - injection Hex as <-. apply Hoth. intros ->. simpl in Hok. congruence.
  - injection Hex as <-. unfold ProcessReq_start. destruct (decide (j = k)) as [->|].
    + rewrite Hk. by destruct st.
    + repeat case_match; auto.
  - unfold ProcessReq_dispatch in Hex. destruct (decide (j = k)) as [->|].
    + rewrite Hk in Hex. destruct h as [|sid'|]; [by injection Hex as <-| |by injection Hex as <-].
      destruct (heap rn !! sid'); [|done].
      destruct (Server_dispatch _ _ _) as [[[v sv'] a']|]; [|done]. injection Hex as <-.
      eexists. simpl. rewrite lookup_insert_eq. by split.
    + destruct (calls rn !! j) as [[rq st2 h2]|]; [|by injection Hex as <-].
      destruct h2 as [|sid'|]; [by injection Hex as <-| |by injection Hex as <-].
      destruct (heap rn !! sid'); [|done].
      destruct (Server_dispatch _ _ _) as [[[v sv'] a']|]; [|done]. injection Hex as <-.
      exists (mkPending req st h). simpl. by rewrite lookup_insert_ne.
  - injection Hex as <-. unfold ProcessReq_timer. destruct (decide (j = k)) as [->|].
    + rewrite Hk. destruct st; try done. destruct (IsServerDead _ _ _ _); [|done].
      apply Hown. by left.
    + repeat case_match; auto.
  - injection Hex as <-. unfold ProcessReq_receive. destruct (decide (j = k)) as [->|].
    + rewrite Hk. destruct st as [|s' sid' ? ?| |]; try done. destruct h; try done.
      destruct Hp as [-> ->]. apply Hown. simpl. left. unfold IsServerDead.
      rewrite (bool_decide_eq_false_2 _ Hs). by rewrite orb_true_r.
    + repeat case_match; auto.
  - injection Hex as <-. unfold ProcessReq_finish. destruct (decide (j = k)) as [->|].
    + rewrite Hk. destruct st as [| |rel longr dead reply|]; try done.
      destruct reply as [rep|]; [|by apply Hown]. destruct Hp as [->|?]; [by apply Hown|done].
    + repeat case_match; auto.
Qed.

(** A server deleted while it handles a call gives no positive reply: as long as the
    object is not registered again under its name, the call cannot succeed. *)
Theorem rpc_deleted_server_no_reply rn k s sid req rel longr h rn' :
  calls rn !! k = Some (mkPending req (Waiting s sid rel longr) h) →
  default None (servers rn !! s) ≠ Some sid →
  rtc (λ x y, rpc_step x y ∧ default None (servers y !! s) ≠ Some sid) rn rn' →
  ∀ v, Call_result k rn' ≠ Some (Some v).
Proof.
  intros Hk Hs Hr v.
  assert (doomed k s sid rn') as (p & Hp & Hd).
  { assert (doomed k s sid rn) as Hd by (by exists (mkPending req (Waiting s sid rel longr) h)).
    clear Hk. induction Hr as [|x y z [Hxy Hy] _ IH]; [done|]. apply IH; [done|].
    by apply (doomed_step k s sid x y). }
  unfold Call_result. rewrite Hp. destruct p as [q st h']. destruct st; try done. simpl in Hd. by subst rep.
Qed.

(** C29: On a reliable network a call through an enabled end to a live server that has the
    method succeeds with the handler's reply, if nothing else happens between its steps. *)
Theorem rpc_reliable_succeeds rn k req s sid sv svc meth service v a' r1 r2 :
  calls rn !! k = Some (mkPending req Queued HNone) → reliable rn = true →
  enabled rn !! req_endname req = Some true → connections rn !! req_endname req = Some (Some s) →
  servers rn !! s = Some (Some sid) → heap rn !! sid = Some sv →
  split_svcMeth (req_svcMeth req) = Some (svc, meth) → sv_services sv !! svc = Some service →
  meth ∈ svc_methods service → handler (svc_name service) meth (req_args req) (app rn) = Ok (v, a') →
  ∃ rn', ProcessReq_dispatch k (ProcessReq_start k r1 rn) = Ok rn' ∧ app rn' = a' ∧
    Call_result k (ProcessReq_finish k r2 (ProcessReq_receive k rn')) = Some (Some v).
Proof.
  intros Hk Hrel Hen Hcon Hsv Hheap Hsplit Hsvc Hmeth Hh.
  assert (ProcessReq_start k r1 rn =
    with_call rn k (mkPending req (Waiting s sid true (longReordering rn)) (HStarted sid))) as ->.
  { unfold ProcessReq_start. rewrite Hk. simpl. by rewrite Hen, Hcon, Hrel; simpl; rewrite Hsv. }
  unfold ProcessReq_dispatch at 1. simpl. rewrite lookup_insert_eq, Hheap.
  unfold Server_dispatch, Service_dispatch. rewrite Hsplit, Hsvc, decide_True, Hh by done.
  eexists. split; [done|]. simpl. split; [done|].
  unfold ProcessReq_receive. simpl. rewrite lookup_insert_eq.
  unfold ProcessReq_finish. simpl. rewrite lookup_insert_eq.
  unfold IsServerDead. simpl. rewrite Hen, Hsv. simpl. rewrite bool_decide_eq_true_2 by done. simpl.
  unfold Call_result. simpl. by rewrite lookup_insert_eq.
Qed.

End labrpc.

(** ** Method names *)

Lemma last_dot_app l1 l2 :
  last_dot l2 = None → last_dot (l1 ++ "."%char :: l2) = Some (length l1).
Proof.
  intros Hno. induction l1 as [|a l1 IH]; simpl.
  - by rewrite Hno.
  - by rewrite IH.
Qed.

(** A method name without a dot is recovered from [service.method], whatever dots the
    service name has. *)
Theorem split_svcMeth_roundtrip svc meth :
  last_dot (String.list_ascii_of_string meth) = None →
  split_svcMeth (String.string_of_list_ascii
    (String.list_ascii_of_string svc ++ "."%char :: String.list_ascii_of_string meth)) =
  Some (svc, meth).
Proof.
  intros Hno. unfold split_svcMeth, LastIndex.
  rewrite String.list_ascii_of_string_of_list_ascii, last_dot_app by done.
  set (l1 := String.list_ascii_of_string svc). set (l2 := String.list_ascii_of_string meth).
  rewrite go_slice_eq by (unfold go_len; rewrite ?length_app; lia).
  rewrite go_slice_tail by (unfold go_len; rewrite ?length_app; simpl; lia).
  rewrite drop_0, Nat2Z.id, take_app_length.
  replace (Z.to_nat (Z.of_nat (length l1) + 1)) with (length l1 + 1)%nat by lia.
  rewrite <- drop_drop, drop_app_length. simpl. rewrite drop_0. unfold l1, l2.
  by rewrite !String.string_of_list_ascii_of_string.
Qed.

(** ** A run *)

Section run.
Context {Name V A : Type} `{Countable Name} (handler : string → string → V → A → res (V * A)).

#[local] Instance op_ok_dec (o : net_op (Name := Name) (V := V)) (rn : Network (A := A)) :
  Decision (op_ok o rn).
Proof. destruct o; simpl; apply _. Defined.

Fixpoint rpc_run (os : list net_op) (rn : Network) : option Network :=
  match os with
  | [] => Some rn
  | o :: os' =>
      if decide (op_ok o rn) then
        match net_op_exec handler o rn with Ok rn' => rpc_run os' rn' | Panic _ => None end
      else None
  end.

Lemma rpc_run_steps os rn rn' : rpc_run os rn = Some rn' → rtc (rpc_step handler) rn rn'.
Proof.
  revert rn. induction os as [|o os IH]; intros rn Hrun; simpl in Hrun.
  - injection Hrun as ->. apply rtc_refl.
  - destruct (decide (op_ok o rn)); [|done].
    destruct (net_op_exec handler o rn) as [rn1|] eqn:Hex; [|done].
    eapply rtc_l; [by exists o|by apply IH].
Qed.
End run.

(** A counter: the handler adds its argument to the state and returns the sum. *)
Definition counter (svc meth : string) (v a : Z) : res (Z * Z) := Ok (v + a, v + a).
Definition counter_service : Service :=
  MakeService "Ctr" [mkMethod "Add" EmptyString 3 true 0; mkMethod "helper" "pkg" 1 false 0].
Definition add_req : reqMsg (Name := Z) (V := Z) := mkReqMsg 1 "Ctr.Add" 5.

(** End 1 is connected to server 10, but not yet enabled; call 0 is made. *)
Definition setup : list (net_op (Name := Z) (V := Z)) :=
  [OMakeEnd 1; ONewServer 0 (AddService counter_service MakeServer); OAddServer 10 0;
   OConnect 1 10; OCall 0 add_req].

Definition net_after (os : list (net_op (Name := Z) (V := Z))) : Network (Name := Z) (V := Z) (A := Z) :=
  default (MakeNetwork 100) (rpc_run counter os (MakeNetwork 100)).

Lemma net_after_steps os :
  is_Some (rpc_run counter os (MakeNetwork 100)) →
  rtc (rpc_step counter) (MakeNetwork 100) (net_after os).
Proof. intros [rn Hrn]. unfold net_after. rewrite Hrn. by eapply rpc_run_steps. Qed.

Lemma rpc_at_most_once_witness :
  NoDup (map fst (executed (net_after (setup ++ [OEnable 1 true; OStart 0 0; ODispatch 0; OReceive 0; OFinish 0 0])))) ∧
  (0%nat, 105) ∈ executed (net_after (setup ++ [OEnable 1 true; OStart 0 0; ODispatch 0; OReceive 0; OFinish 0 0])).
Proof.
  destruct (rpc_at_most_once counter 100 (net_after (setup ++
    [OEnable 1 true; OStart 0 0; ODispatch 0; OReceive 0; OFinish 0 0]))) as [H1 H2].
  - apply net_after_steps. vm_compute. by eexists.
  - split; [done|]. apply H2. vm_compute. reflexivity.
Defined.

Lemma rpc_unreachable_fails_witness :
  Call_result 0 (ProcessReq_start 0 0 (net_after setup)) = Some None ∧
  0%nat ∉ map fst (executed (ProcessReq_start 0 0 (net_after setup))).
Proof.
  apply (rpc_unreachable_fails counter 100 (net_after setup) 0 0 _ add_req).
  - apply net_after_steps. vm_compute. by eexists.
  - vm_compute. reflexivity.
  - vm_compute. by left.
  - apply rtc_refl.
Defined.

(** The server is deleted while the call waits. *)
Definition deleted : Network (Name := Z) (V := Z) (A := Z) :=
  net_after (setup ++ [OEnable 1 true; OStart 0 0; ODispatch 0; ODeleteServer 10]).

Lemma rpc_deleted_server_no_reply_witness : ∀ v, Call_result 0 deleted ≠ Some (Some v).
Proof.
  apply (rpc_deleted_server_no_reply counter deleted 0 10 0 add_req true false
    (HDone (mkReplyMsg true (Some 105)))).
  - vm_compute. reflexivity.
  - vm_compute. discriminate.
  - apply rtc_refl.
Defined.

Lemma rpc_reliable_succeeds_witness :
  ∃ rn', ProcessReq_dispatch counter 0 (ProcessReq_start 0 0 (net_after (setup ++ [OEnable 1 true]))) = Ok rn' ∧
    app rn' = 105 ∧ Call_result 0 (ProcessReq_finish 0 0 (ProcessReq_receive 0 rn')) = Some (Some 105).
Proof.
  apply (rpc_reliable_succeeds counter (net_after (setup ++ [OEnable 1 true])) 0 add_req 10 0
    (AddService counter_service MakeServer) "Ctr" "Add" counter_service);
    try (vm_compute; reflexivity).
Defined.

Lemma split_svcMeth_roundtrip_witness : split_svcMeth "a.Raft.AppendEnties" = Some ("a.Raft", "AppendEnties").
Proof. apply (split_svcMeth_roundtrip "a.Raft" "AppendEnties"). vm_compute. reflexivity. Defined.
