(* ===== verification/RaftHarness.v ===== *)
(** * The test harness of the Raft peers (src/mit/src/raft/config.go)

    [config] is the Go struct: the simulated network of Labrpc.v, the peers of
    RaftNode.v, what each of them has applied, and which of them are attached.
    The operations that crash, restart, attach and detach a peer are
    computations over it; the readers of the [applyCh] channels are [applier],
    one message at a time.

    - [saved[i]] is a pointer which a running peer shares with the harness:
      [Shared] is the persister of [rafts[i]], [Own p] an object of the harness.
    - The end names ([randstring]) and the peers' random draws are arguments.
    - [testing.T.Fatalf] and [log.Fatalf] are panics.
    - While the tester sleeps or waits the peers and the [applyCh] readers go
      on.  Functions that sleep take what happens meanwhile as an argument. *)
From S2P Require Import Prelude GoRt RaftTypes Labrpc RaftNode RaftNet.
Open Scope Z_scope.

(** What a [saved[i]] points to. *)
Inductive saved_obj (C : Type) : Type :=
| Shared
| Own (p : Persister C).
Arguments Shared {C}.
Arguments Own {C} p.

(** The object [saved[i]] points to, for the peer that runs at [i]. *)
Definition saved_value {C} (o : saved_obj C) (rf : option (Raft C)) : option (Persister C) :=
  match o with Own p => Some p | Shared => option_map persister rf end.

(** Names on the network: servers are [int]s, ends are strings. *)
Abbreviation netname := (Z + string)%type.

Section harness.
Context {V : Type}.
Local Abbreviation Raft := (RaftTypes.Raft Z).
Local Abbreviation ApplyMsg := (RaftTypes.ApplyMsg Z).
Local Abbreviation Persister := (RaftTypes.Persister Z).

Local Abbreviation Network := (Labrpc.Network (Name := netname) (V := V) (A := ())).

Record config : Type := mkCfg {
  cfg_net : Network;
  cfg_n : Z;
  cfg_done : Z;
  rafts : list (option Raft);
  applyErr : list string;
  connected : list bool;
  saved : list (option (saved_obj Z));
  endnames : list (option (list string));
  logs : list (option (gmap Z Z));      (* [None] is a nil map *)
}.

Definition set_net f c := mkCfg (f (cfg_net c)) (cfg_n c) (cfg_done c) (rafts c) (applyErr c)
  (connected c) (saved c) (endnames c) (logs c).
Definition set_done d c := mkCfg (cfg_net c) (cfg_n c) d (rafts c) (applyErr c)
  (connected c) (saved c) (endnames c) (logs c).
Definition set_rafts l c := mkCfg (cfg_net c) (cfg_n c) (cfg_done c) l (applyErr c)
  (connected c) (saved c) (endnames c) (logs c).
Definition set_connected l c := mkCfg (cfg_net c) (cfg_n c) (cfg_done c) (rafts c) (applyErr c)
  l (saved c) (endnames c) (logs c).
Definition set_saved l c := mkCfg (cfg_net c) (cfg_n c) (cfg_done c) (rafts c) (applyErr c)
  (connected c) l (endnames c) (logs c).
Definition set_endnames l c := mkCfg (cfg_net c) (cfg_n c) (cfg_done c) (rafts c) (applyErr c)
  (connected c) (saved c) l (logs c).
Definition set_logs l c := mkCfg (cfg_net c) (cfg_n c) (cfg_done c) (rafts c) (applyErr c)
  (connected c) (saved c) (endnames c) l.

Local Abbreviation HM := (M config).

(** [cfg.f[i]] and [cfg.f[i] = x] *)
Definition at_field {A} (f : config → list A) (i : Z) : HM A :=
  c <- get ;; must index_panic (go_at (f c) i).
Definition assign {A} (f : config → list A) (upd : list A → config → config) (i : Z) (x : A) :
    HM () :=
  c <- get ;; l <- must index_panic (go_set (f c) i x) ;; modify (upd l).

Definition nil_panic : string := "invalid memory address or nil pointer dereference".

(** [cfg.endnames[i][j]]; indexing a nil slice is out of range. *)
Definition endname (i j : Z) : HM string :=
  o <- at_field endnames i ;;
  must index_panic (go_at (default [] o) j).

(** ** Attaching and detaching *)

Definition connect (i : Z) : HM () :=
  assign connected set_connected i true ;;
  c <- get ;;
  for_range (seqZ 0 (cfg_n c)) (λ j,
    b <- at_field connected j ;;
    when b do (e <- endname i j ;; modify (set_net (Enable (inr e) true)))) ;;
  for_range (seqZ 0 (cfg_n c)) (λ j,
    b <- at_field connected j ;;
    when b do (e <- endname j i ;; modify (set_net (Enable (inr e) true)))).

Definition disconnect (i : Z) : HM () :=
  assign connected set_connected i false ;;
  c <- get ;;
  for_range (seqZ 0 (cfg_n c)) (λ j,
    o <- at_field endnames i ;;
    when bool_decide (is_Some o) do (e <- endname i j ;; modify (set_net (Enable (inr e) false)))) ;;
  for_range (seqZ 0 (cfg_n c)) (λ j,
    o <- at_field endnames j ;;
    when bool_decide (is_Some o) do (e <- endname j i ;; modify (set_net (Enable (inr e) false)))).

Definition rpcCount (server : Z) : HM Z :=
  c <- get ;;
  match Network_GetCount (inl server) (cfg_net c) with Ok k => ret k | Panic w => panic w end.

Definition setunreliable (unrel : bool) : HM () := modify (set_net (Reliable (negb unrel))).
Definition setlongreordering (longrel : bool) : HM () := modify (set_net (LongReordering longrel)).

(** ** Crashing and starting a peer *)

Definition crash1 (i : Z) : HM () :=
  disconnect i ;;
  modify (set_net (DeleteServer (inl i))) ;;
  sv <- at_field saved i ;;
  rf <- at_field rafts i ;;
  (match sv with
   | Some o =>
       p <- must nil_panic (saved_value o rf) ;;
       assign saved set_saved i (Some (Own (Persister_Copy p)))
   | None => ret tt
   end) ;;
  (match rf with
   | Some r =>
       match Kill r with
       | Ok _ => assign rafts set_rafts i None
       | Panic w => panic w
       end
   | None => ret tt
   end) ;;
  sv' <- at_field saved i ;;
  match sv' with
  | Some o =>
      p <- must nil_panic (saved_value o None) ;;
      let raftlog := ReadRaftState p in
      assign saved set_saved i (Some (Own (SaveRaftState raftlog (mkPersister [] []))))
  | None => ret tt
  end.

(** The methods [reflect] finds on a [*Raft]. *)
Definition raft_methods : list Method :=
  [mkMethod "AppendEnties" EmptyString 3 true 0; mkMethod "Detail" EmptyString 1 false 1;
   mkMethod "GetState" EmptyString 1 false 2; mkMethod "Kill" EmptyString 1 false 0;
   mkMethod "RequestVote" EmptyString 3 true 0; mkMethod "SetLogger" EmptyString 2 false 0;
   mkMethod "Start" EmptyString 2 false 3; mkMethod "Step" EmptyString 2 false 1;
   mkMethod "Tick" EmptyString 1 false 0].

Definition make_end (i j : Z) : HM () :=
  e <- endname i j ;;
  c <- get ;;
  match MakeEnd (inr e) (cfg_net c) with
  | Ok rn => modify (set_net (λ _, Connect (inr e) (inl j) rn))
  | Panic w => panic w
  end.

(** [names j] is the end name drawn for peer [j], [rand] the new peer's random draws. *)
Definition start1 (names : Z → string) (rand : list Z) (i : Z) : HM () :=
  crash1 i ;;
  c <- get ;;
  assign endnames set_endnames i (Some (map names (seqZ 0 (cfg_n c)))) ;;
  for_range (seqZ 0 (cfg_n c)) (make_end i) ;;
  sv <- at_field saved i ;;
  p <- (match sv with
        | Some o => p <- must nil_panic (saved_value o None) ;; ret (Persister_Copy p)
        | None => ret MakePersister
        end) ;;
  assign saved set_saved i (Some (Own p)) ;;
  match Make (seqZ 0 (cfg_n c)) i p rand with
  | Ok rf =>
      assign rafts set_rafts i (Some rf) ;;
      assign saved set_saved i (Some Shared) ;;
      let svc := MakeService "Raft" raft_methods in
      c' <- get ;;
      let sid := fresh (dom (heap (cfg_net c'))) in
      modify (set_net (λ rn, AddServer (inl i) sid (new_server sid (AddService svc MakeServer) rn)))
  | Panic w => panic w
  end.

(** [names i j], [rand i]: the end names and random draws of peer [i]. *)
Definition make_config (n : Z) (unreliable : bool) (names : Z → Z → string)
    (rand : Z → list Z) : res config :=
  let cfg := mkCfg (MakeNetwork tt) n 0 (go_make n None) (go_make n EmptyString)
               (go_make n false) (go_make n None) (go_make n None) (go_make n None) in
  match (setunreliable unreliable ;;
         modify (set_net (LongDelays true)) ;;
         for_range (seqZ 0 n) (λ i, assign logs set_logs i (Some ∅) ;; start1 (names i) (rand i) i) ;;
         for_range (seqZ 0 n) connect) cfg with
  | Ok (_, c) => Ok c
  | Panic w => Panic w
  end.

(** Closing [stopc] changes the peer, which keeps its place in [rafts]. *)
Definition cleanup : HM () :=
  c <- get ;;
  for_range (go_range (rafts c)) (λ i,
    rf <- at_field rafts i ;;
    match rf with
    | Some r => match Kill r with
                | Ok (_, r') => assign rafts set_rafts i (Some r')
                | Panic w => panic w
                end
    | None => ret tt
    end) ;;
  modify (set_done 1).

(** ** The readers of [applyCh] *)

Inductive apply_err : Type :=
| Mismatch (index i v j old : Z)
| OutOfOrder (i index : Z)
| NotInt.

Definition fatal_msg (e : apply_err) : string :=
  match e with
  | Mismatch _ _ _ _ _ => "apply error: commit index != server"
  | OutOfOrder _ _ => "apply error: server apply out of order"
  | NotInt => "apply error: committed command is not an int"
  end.

(** Reading a map of [logs]; a nil map has no entries. *)
Definition log_get (l : option (gmap Z Z)) (k : Z) : option Z := l ≫= (.!! k).

(** The loop over [cfg.logs]: the last server with another value for the index. *)
Definition mismatch (i index v : Z) (ls : list (option (gmap Z Z))) : option apply_err :=
  foldl (λ err '(j, l),
    match log_get l index with
    | Some old => if negb (old =? v) then Some (Mismatch index i v (Z.of_nat j) old) else err
    | None => err
    end) None (imap pair ls).

(** One message received by the reader of peer [i]; no peer sends a snapshot. *)
Definition applier (i : Z) (m : ApplyMsg) : HM () :=
  err <- (match Apply_Command m with
          | Some v =>
              c <- get ;;
              let err := mismatch i (Apply_Index m) v (logs c) in
              l <- at_field logs i ;;
              let prevok := bool_decide (is_Some (log_get l (Apply_Index m - 1))) in
              l' <- must "assignment to entry in nil map" l ;;
              assign logs set_logs i (Some (<[Apply_Index m := v]> l')) ;;
              ret (if (1 <? Apply_Index m) && negb prevok
                   then Some (OutOfOrder i (Apply_Index m)) else err)
          | None => ret (Some NotInt)
          end) ;;
  match err with
  | Some e => panic (fatal_msg e)
  | None => ret tt
  end.

(** The readers of all peers, with the messages in the order in which they take [cfg.mu]. *)
Definition appliers (h : list (Z * ApplyMsg)) : HM () :=
  for_range h (λ '(i, m), applier i m).

(** ** Checks of the peers' state

    [look i] is the peer of [rafts[i]] at the time it is asked. *)

Definition two_leaders : string := "term has (>1) leaders".
Definition no_leader : string := "expected one leader, got none".

(** [if t, leader := cfg.rafts[i].GetState(); leader { leaders[t] = append(leaders[t], i) }] *)
Definition leaders_add (i : Z) (look : Z → option Raft) (ls : gmap Z (list Z)) :
    res (gmap Z (list Z)) :=
  match look i with
  | Some r =>
      let '(t, leader) := GetState r in
      Ok (if leader then <[t := default [] (ls !! t) ++ [i]]> ls else ls)
  | None => Panic nil_panic
  end.

Fixpoint leaders_of (ids : list Z) (conn : list bool) (look : Z → option Raft)
    (ls : gmap Z (list Z)) : res (gmap Z (list Z)) :=
  match ids with
  | [] => Ok ls
  | i :: ids' =>
      match go_at conn i with
      | Some true =>
          match leaders_add i look ls with
          | Ok ls' => leaders_of ids' conn look ls'
          | Panic w => Panic w
          end
      | Some false => leaders_of ids' conn look ls
      | None => Panic index_panic
      end
  end.

(** The [range] over the map; the result does not depend on the order. *)
Fixpoint last_term (ls : list (Z * list Z)) (lastTermWithLeader : Z) : res Z :=
  match ls with
  | [] => Ok lastTermWithLeader
  | (t, l) :: ls' =>
      if 1 <? go_len l then Panic two_leaders
      else last_term ls' (if lastTermWithLeader <? t then t else lastTermWithLeader)
  end.

(** One iteration: [None] when no leader was seen. *)
Definition look_for_leader (n : Z) (conn : list bool) (look : Z → option Raft) : res (option Z) :=
  match leaders_of (seqZ 0 n) conn look ∅ with
  | Panic w => Panic w
  | Ok ls =>
      match last_term (map_to_list ls) (-1) with
      | Panic w => Panic w
      | Ok t =>
          if decide (ls = ∅) then Ok None else
          match go_at (default [] (ls !! t)) 0 with
          | Some l => Ok (Some l)
          | None => Panic index_panic
          end
      end
  end.

(** [looks k] is what iteration [k] finds; there are ten iterations. *)
Fixpoint leader_loop (iters : list Z) (n : Z) (conn : list bool) (looks : Z → Z → option Raft) :
    res Z :=
  match iters with
  | [] => Panic no_leader
  | k :: iters' =>
      match look_for_leader n conn (looks k) with
      | Panic w => Panic w
      | Ok (Some l) => Ok l
      | Ok None => leader_loop iters' n conn looks
      end
  end.

Definition checkOneLeader (n : Z) (conn : list bool) (looks : Z → Z → option Raft) : res Z :=
  leader_loop (seqZ 0 10) n conn looks.

Fixpoint terms_loop (ids : list Z) (conn : list bool) (look : Z → option Raft) (term : Z) : res Z :=
  match ids with
  | [] => Ok term
  | i :: ids' =>
      match go_at conn i with
      | Some true =>
          match look i with
          | Some r =>
              let '(xterm, _) := GetState r in
              if term =? -1 then terms_loop ids' conn look xterm
              else if negb (term =? xterm) then Panic "servers disagree on term"
              else terms_loop ids' conn look term
          | None => Panic nil_panic
          end
      | Some false => terms_loop ids' conn look term
      | None => Panic index_panic
      end
  end.

Definition checkTerms (n : Z) (conn : list bool) (look : Z → option Raft) : res Z :=
  terms_loop (seqZ 0 n) conn look (-1).

Fixpoint no_leader_loop (ids : list Z) (conn : list bool) (look : Z → option Raft) : res () :=
  match ids with
  | [] => Ok tt
  | i :: ids' =>
      match go_at conn i with
      | Some true =>
          match look i with
          | Some r =>
              let '(_, is_leader) := GetState r in
              if is_leader then Panic "expected no leader, but one claims to be leader"
              else no_leader_loop ids' conn look
          | None => Panic nil_panic
          end
      | Some false => no_leader_loop ids' conn look
      | None => Panic index_panic
      end
  end.

Definition checkNoLeader (n : Z) (conn : list bool) (look : Z → option Raft) : res () :=
  no_leader_loop (seqZ 0 n) conn look.

(** ** Agreement *)

Definition values_differ : string := "committed values do not match".

Fixpoint committed_loop (ids : list Z) (index count cmd : Z) : HM (Z * Z) :=
  match ids with
  | [] => ret (count, cmd)
  | i :: ids' =>
      e <- at_field applyErr i ;;
      if negb (bool_decide (e = EmptyString)) then panic e else
      l <- at_field logs i ;;
      match log_get l index with
      | Some cmd1 =>
          if (0 <? count) && negb (cmd =? cmd1) then panic values_differ
          else committed_loop ids' index (count + 1) cmd1
      | None => committed_loop ids' index count cmd
      end
  end.

Definition nCommitted (index : Z) : HM (Z * Z) :=
  c <- get ;; committed_loop (go_range (rafts c)) index 0 (-1).

(** [for _, r := range cfg.rafts { if t, _ := r.GetState(); t > startTerm ... }] *)
Fixpoint moved_on (rs : list (option Raft)) (startTerm : Z) : res bool :=
  match rs with
  | [] => Ok false
  | Some r :: rs' => if startTerm <? (GetState r).1 then Ok true else moved_on rs' startTerm
  | None :: _ => Panic nil_panic
  end.

(** The loop of [wait]: [Some v] is an early return.  [sleeps] are the effects of the rest of
    the system during each of the thirty sleeps. *)
Fixpoint wait_loop (sleeps : list (config → config)) (index n startTerm : Z) : HM (option Z) :=
  match sleeps with
  | [] => ret None
  | f :: sleeps' =>
      nd <- nCommitted index ;;
      if n <=? nd.1 then ret None else
      modify f ;;
      if -1 <? startTerm then
        c <- get ;;
        match moved_on (rafts c) startTerm with
        | Ok true => ret (Some (-1))
        | Ok false => wait_loop sleeps' index n startTerm
        | Panic w => panic w
        end
      else wait_loop sleeps' index n startTerm
  end.

Definition wait (sleeps : list (config → config)) (index n startTerm : Z) : HM Z :=
  o <- wait_loop (take 30 sleeps) index n startTerm ;;
  match o with
  | Some v => ret v
  | None =>
      r <- nCommitted index ;;
      if r.1 <? n then panic "only nd decided for index; wanted n" else ret r.2
  end.

(** The loop that offers the command to every server; the index of the first that accepts. *)
Fixpoint start_any (tries : nat) (starts cmd : Z) : HM (Z * Z) :=
  match tries with
  | O => ret (-1, starts)
  | S tries' =>
      c <- get ;;
      let starts' := (starts + 1) mod (cfg_n c) in
      b <- at_field connected starts' ;;
      rf <- (if b : bool then at_field rafts starts' else ret None) ;;
      match rf with
      | Some r =>
          match Start (Some cmd) r with
          | Ok ((index1, _, ok), r') =>
              assign rafts set_rafts starts' (Some r') ;;
              if ok : bool then ret (index1, starts') else start_any tries' starts' cmd
          | Panic w => panic w
          end
      | None => start_any tries' starts' cmd
      end
  end.

(** The polling loop: one sleep per iteration the clock allows. *)
Fixpoint poll (sleeps : list (config → config)) (index cmd expectedServers : Z) : HM bool :=
  match sleeps with
  | [] => ret false
  | f :: sleeps' =>
      r <- nCommitted index ;;
      let '(nd, cmd1) := r in
      if (0 <? nd) && (expectedServers <=? nd) && (cmd1 =? cmd) then ret true
      else modify f ;; poll sleeps' index cmd expectedServers
  end.

(** [rounds]: the outer iterations the clock allows, each with the effect of the sleep that
    follows a round without a leader and of the sleeps of the polling loop. *)
Fixpoint one_loop (rounds : list ((config → config) * list (config → config)))
    (starts cmd expectedServers : Z) : HM Z :=
  match rounds with
  | [] => panic "one(cmd) failed to reach agreement"
  | (f, sleeps) :: rounds' =>
      c <- get ;;
      r <- start_any (Z.to_nat (cfg_n c)) starts cmd ;;
      let '(index, starts') := r in
      if negb (index =? -1) then
        done <- poll sleeps index cmd expectedServers ;;
        if done : bool then ret index else one_loop rounds' starts' cmd expectedServers
      else modify f ;; one_loop rounds' starts' cmd expectedServers
  end.

Definition one (rounds : list ((config → config) * list (config → config)))
    (cmd expectedServers : Z) : HM Z :=
  one_loop rounds 0 cmd expectedServers.

End harness.
