(* ===== verification/HarnessNet.v ===== *)
(** * The links the Raft test harness keeps between the peers

    The network operations of RaftHarness.v: whatever sequence of [connect],
    [disconnect], [crash1] and [start1] a test performs, the end that peer [i]
    sends to peer [j] through leads to server [j], and is enabled exactly when
    both peers are attached; a restarted peer gets the state its predecessor
    persisted; [make_config] builds the full mesh. *)
From S2P Require Import Prelude GoRt RaftTypes Labrpc RaftNode RaftNet RaftSpec RaftSim RaftSafety RaftHarness.
Open Scope Z_scope.

Section links.
Context {V : Type}.
Local Abbreviation config := (RaftHarness.config (V := V)).
Implicit Types c : config.

(** ** The state the harness keeps *)

Definition ename c (i j : Z) : option string :=
  match go_at (endnames c) i with Some (Some es) => go_at es j | _ => None end.
Definition conn c (i : Z) : bool := default false (go_at (connected c) i).

(** Every end is connected to its server, and enabled when both sides are attached. *)
Record links c : Prop := mkLinks {
  lk_n : 0 ≤ cfg_n c;
  lk_conn_len : go_len (connected c) = cfg_n c;
  lk_ends_len : go_len (endnames c) = cfg_n c;
  lk_full i es : go_at (endnames c) i = Some (Some es) → go_len es = cfg_n c;
  lk_named i : conn c i = true → ∃ es, go_at (endnames c) i = Some (Some es);
  lk_inj i j i' j' e : ename c i j = Some e → ename c i' j' = Some e → i = i' ∧ j = j';
  lk_end i j e : ename c i j = Some e →
    inr e ∈ ends (cfg_net c) ∧ connections (cfg_net c) !! inr e = Some (Some (inl j)) ∧
    enabled (cfg_net c) !! inr e = Some (conn c i && conn c j);
}.

(** A running peer has not been killed and writes the persister the harness has saved. *)
Record procs c : Prop := mkProcs {
  pr_rafts_len : go_len (rafts c) = cfg_n c;
  pr_saved_len : go_len (saved c) = cfg_n c;
  pr_alive i r : go_at (rafts c) i = Some (Some r) →
    stopc r = false ∧ go_at (saved c) i = Some (Some Shared);
  pr_shared i : go_at (saved c) i = Some (Some Shared) → ∃ r, go_at (rafts c) i = Some (Some r);
}.

(** ** Slices under assignment *)

Lemma go_at_insert {A} (l : list A) i j x :
  0 ≤ i < go_len l → go_at (<[Z.to_nat i := x]> l) j = if decide (j = i) then Some x else go_at l j.
Proof.
  intros Hi. unfold go_at, go_len in *. destruct (decide (j = i)) as [->|Hne].
  - case_test; [lia|]. apply list_lookup_insert_eq. lia.
  - case_test; [done|]. apply list_lookup_insert_ne. lia.
Qed.

Lemma go_len_insert {A} (l : list A) i x : go_len (<[i := x]> l) = go_len l.
Proof. unfold go_len. by rewrite length_insert. Qed.

Lemma go_at_make {A} n (x : A) i : 0 ≤ n → go_at (go_make n x) i = if decide (0 ≤ i < n) then Some x else None.
Proof.
  intros Hn. unfold go_at, go_make. case_decide; case_test; try lia; [|done|].
  - rewrite lookup_replicate_2 by lia. done.
  - apply lookup_replicate_None. lia.
Qed.

Lemma go_len_make {A} n (x : A) : 0 ≤ n → go_len (go_make n x) = n.
Proof. intros. unfold go_len, go_make. rewrite length_replicate. lia. Qed.

Lemma go_at_range {A} (l : list A) i x : go_at l i = Some x → 0 ≤ i < go_len l.
Proof. intros [? ?%lookup_lt_Some]%go_at_Some. unfold go_len. lia. Qed.

(** ** Statements on fields *)

Lemma wp_at_field {A} E (f : config → list A) i x Q c :
  go_at (f c) i = Some x → Q x c → wp E (at_field f i) Q c.
Proof. intros Hx HQ. unfold at_field. wp_steps. by eapply wp_must. Qed.

Lemma wp_assign {A} E (f : config → list A) upd i x Q c :
  0 ≤ i < go_len (f c) → Q tt (upd (<[Z.to_nat i := x]> (f c)) c) →
  wp E (assign f upd i x) Q c.
Proof.
  intros Hi HQ. unfold assign. wp_steps.
  eapply wp_must; [by apply go_set_eq|]. by wp_steps.
Qed.

Lemma wp_endname E i j e Q c : ename c i j = Some e → Q e c → wp E (endname i j) Q c.
Proof.
  unfold ename, endname. intros He HQ. destruct (go_at _ _) as [[es|]|] eqn:Hi; [|done..].
  apply wp_bind. eapply wp_at_field; [done|]. by eapply wp_must.
Qed.

Lemma ename_is_Some c i j es :
  links c → go_at (endnames c) i = Some (Some es) → 0 ≤ j < cfg_n c → is_Some (ename c i j).
Proof.
  intros L Hes Hj. unfold ename. rewrite Hes. apply go_at_is_Some.
  rewrite (lk_full _ L _ _ Hes). lia.
Qed.

Lemma ename_range c i j e : links c → ename c i j = Some e → 0 ≤ i < cfg_n c ∧ 0 ≤ j < cfg_n c.
Proof.
  intros L. unfold ename. destruct (go_at (endnames c) i) as [[es|]|] eqn:Hi; [|done..].
  intros Hj%go_at_range. rewrite (lk_full _ L _ _ Hi) in Hj.
  apply go_at_range in Hi. rewrite (lk_ends_len _ L) in Hi. lia.
Qed.

Lemma conn_lookup c i : links c → 0 ≤ i < cfg_n c → go_at (connected c) i = Some (conn c i).
Proof.
  intros L Hi. unfold conn. destruct (go_at_is_Some (connected c) i) as [b Hb].
  { rewrite (lk_conn_len _ L). lia. }
  by rewrite Hb.
Qed.

(** ** Loops that enable or disable ends *)

Local Abbreviation Network := (Labrpc.Network (Name := netname) (V := V) (A := ())).

Definition with_enabled (en : gmap netname bool) (rn : Network) : Network :=
  mkNetwork (reliable rn) (longDelays rn) (longReordering rn) (ends rn) en (Labrpc.servers rn)
    (connections rn) (heap rn) (calls rn) (app rn) (executed rn).

Definition enable_names (b : bool) (es : list string) c : config :=
  foldl (λ c e, set_net (Enable (inr e) b) c) c es.

Lemma enable_names_app b es1 es2 c :
  enable_names b (es1 ++ es2) c = enable_names b es2 (enable_names b es1 c).
Proof. apply foldl_app. Qed.

Lemma enable_names_same b es c :
  ∃ en, enable_names b es c = set_net (λ _, with_enabled en (cfg_net c)) c ∧
    ∀ e, en !! inr e = if decide (e ∈ es) then Some b else enabled (cfg_net c) !! inr e.
Proof.
  revert c. induction es as [|e0 es IH]; intros c.
  { exists (enabled (cfg_net c)). split; [by destruct c as [[]]|done]. }
  destruct (IH (set_net (Enable (inr e0) b) c)) as (en & Heq & Hen).
  exists en. split; [done|]. intros e. rewrite Hen. simpl.
  destruct (decide (e = e0)) as [->|].
  - rewrite lookup_insert_eq. rewrite (decide_True (P := e0 ∈ e0 :: es)) by set_solver.
    by case_decide.
  - rewrite lookup_insert_ne by congruence.
    destruct (decide (e ∈ es)); [by rewrite decide_True by set_solver|].
    by rewrite decide_False by set_solver.
Qed.

Lemma enable_loop (l : list Z) (body : Z → M config ()) (nm : Z → option string) b c Q :
  (∀ j rn, j ∈ l → body j (set_net (λ _, rn) c) = Ok (tt,
     match nm j with
     | Some e => set_net (Enable (inr e) b) (set_net (λ _, rn) c)
     | None => set_net (λ _, rn) c
     end)) →
  Q tt (enable_names b (omap nm l) c) →
  wp (λ _, False) (for_range l body) Q c.
Proof.
  intros Hb. assert (c = set_net (λ _, cfg_net c) c) as Hc by (by destruct c).
  rewrite Hc at 1 2. generalize (cfg_net c). clear Hc. intros rn. revert rn.
  induction l as [|j l IH]; intros rn HQ; [exact HQ|].
  simpl. unfold wp, bind. rewrite Hb by left. simpl in HQ.
  assert (∀ rn, _ → _) as IH' by (apply IH; intros; apply Hb; by right).
  destruct (nm j) as [e|]; [exact (IH' (Enable (inr e) b rn) HQ)|exact (IH' rn HQ)].
Qed.

(** The links after the ends [es] of a server [i] have been switched to [b]. *)
Lemma relink c c1 i b es :
  links c → 0 ≤ i < cfg_n c → (b = true → ∃ l, go_at (endnames c) i = Some (Some l)) →
  c1 = set_connected (<[Z.to_nat i := b]> (connected c)) c →
  (∀ i' j' e, ename c i' j' = Some e → e ∈ es → conn c1 i' && conn c1 j' = b) →
  (∀ i' j' e, ename c i' j' = Some e → e ∉ es → conn c1 i' && conn c1 j' = conn c i' && conn c j') →
  links (enable_names b es c1) ∧ ∀ j, conn (enable_names b es c1) j = if decide (j = i) then b else conn c j.
Proof.
  intros L Hi Hnm Hc1 Hin Hout.
  assert (∀ j, conn c1 j = if decide (j = i) then b else conn c j) as Hconn.
  { intros j. rewrite Hc1. unfold conn. simpl. rewrite go_at_insert by (rewrite (lk_conn_len _ L); lia).
    by case_decide. }
  destruct (enable_names_same b es c1) as (en & -> & Hen).
  set (rn := with_enabled en (cfg_net c1)) in *.
  assert (∀ i' j', ename (set_net (λ _, rn) c1) i' j' = ename c i' j') as Hnames by (by rewrite Hc1).
  assert (∀ j, conn (set_net (λ _, rn) c1) j = conn c1 j) as Hcc by done.
  split; [|intros j; rewrite Hcc; apply Hconn].
  split; rewrite ?Hc1; simpl; rewrite ?go_len_insert; try apply L.
  - intros i0. rewrite <- Hc1, Hcc, Hconn. case_decide; [subst; auto|]. apply (lk_named _ L).
  - rewrite <- Hc1. intros i' j' e. rewrite Hnames. intros HE. rewrite !Hcc.
    destruct (lk_end _ L _ _ _ HE) as (? & ? & Henb).
    assert (cfg_net c1 = cfg_net c) as Hnet by (by rewrite Hc1). simpl. rewrite Hen, Hnet.
    split_and!; [done..|]. case_decide; [by rewrite (Hin _ _ _ HE)|]. by rewrite Henb, (Hout _ _ _ HE).
Qed.

(** ** [connect] and [disconnect] *)

(** The network [rn] is that of [c] with ends switched; only ends in use are enabled. *)
Definition switched c (rn : Network) : Prop :=
  ∃ en, rn = with_enabled en (cfg_net c) ∧
    ∀ e, en !! inr e = Some true →
      enabled (cfg_net c) !! inr e = Some true ∨ ∃ i j, ename c i j = Some e.

(** [c'] is [c] with other attachments and switches. *)
Definition rewired c c' : Prop :=
  ∃ rn l, c' = set_net (λ _, rn) (set_connected l c) ∧ switched c rn.

Lemma rewired_enable b es l c :
  (b = true → ∀ e, e ∈ es → ∃ i j, ename c i j = Some e) →
  rewired c (enable_names b es (set_connected l c)).
Proof.
  intros Hes. destruct (enable_names_same b es (set_connected l c)) as (en & -> & Hen).
  eexists _, l. split; [done|]. exists en. split; [done|]. intros e. rewrite Hen.
  case_decide; [|by left]. intros [= ->]. right. by apply Hes.
Qed.

Lemma conn_assigned c i b j :
  links c → 0 ≤ i < cfg_n c →
  conn (set_connected (<[Z.to_nat i := b]> (connected c)) c) j = if decide (j = i) then b else conn c j.
Proof.
  intros L Hi. unfold conn. simpl. rewrite go_at_insert by (rewrite (lk_conn_len _ L); lia).
  by case_decide.
Qed.

Lemma at_field_ok {A} (f : config → list A) i x c :
  go_at (f c) i = Some x → at_field f i c = Ok (x, c).
Proof. intros Hx. unfold at_field, bind, get, must. by rewrite Hx. Qed.

Lemma endname_ok c rn i j e :
  ename c i j = Some e → endname i j (set_net (λ _, rn) c) = Ok (e, set_net (λ _, rn) c).
Proof.
  unfold ename, endname, bind. intros He. destruct (go_at _ _) as [[es|]|] eqn:Hi; [|done..].
  rewrite (at_field_ok _ _ (Some es)) by done. simpl. by rewrite He.
Qed.

(** The two loops of [connect]: [src j], [dst j] are the two sides of the end of iteration [j]. *)
Lemma connect_loop (src dst : Z → Z) c Q :
  go_len (connected c) = cfg_n c →
  (∀ j, 0 ≤ j < cfg_n c → conn c j = true → is_Some (ename c (src j) (dst j))) →
  Q tt (enable_names true
    (omap (λ j, if conn c j then ename c (src j) (dst j) else None) (seqZ 0 (cfg_n c))) c) →
  wp (λ _, False) (for_range (seqZ 0 (cfg_n c)) (λ j,
    b <- at_field connected j ;;
    when b do (e <- endname (src j) (dst j) ;; modify (set_net (Enable (inr e) true))))) Q c.
Proof.
  intros Hlen Hnm. apply enable_loop. intros j rn Hj%elem_of_seqZ. unfold bind.
  assert (go_at (connected c) j = Some (conn c j)) as Hc.
  { unfold conn. destruct (go_at_is_Some (connected c) j) as [? ->]; [lia|done]. }
  rewrite (at_field_ok _ _ (conn c j)) by done. destruct (conn c j) eqn:Hcj; [|done].
  destruct (Hnm j) as [e He]; [lia|done|]. rewrite He. by rewrite (endname_ok _ _ _ _ _ He).
Qed.

(** The two loops of [disconnect]. *)
Lemma disconnect_loop (src dst : Z → Z) c Q :
  (∀ j, 0 ≤ j < cfg_n c → is_Some (go_at (endnames c) (src j))) →
  (∀ j es, 0 ≤ j < cfg_n c → go_at (endnames c) (src j) = Some (Some es) →
     is_Some (ename c (src j) (dst j))) →
  Q tt (enable_names false (omap (λ j, ename c (src j) (dst j)) (seqZ 0 (cfg_n c))) c) →
  wp (λ _, False) (for_range (seqZ 0 (cfg_n c)) (λ j,
    o <- at_field endnames (src j) ;;
    when bool_decide (is_Some o) do
      (e <- endname (src j) (dst j) ;; modify (set_net (Enable (inr e) false))))) Q c.
Proof.
  intros Hat Hnm. apply enable_loop. intros j rn Hj%elem_of_seqZ. unfold bind.
  destruct (Hat j ltac:(lia)) as [o Ho]. rewrite (at_field_ok _ _ o) by done.
  destruct o as [es|]; [|unfold ename; by rewrite Ho].
  destruct (Hnm j es) as [e He]; [lia|done|]. rewrite He. simpl.
  by rewrite (endname_ok _ _ _ _ _ He).
Qed.

(** The loops see the same names and attachments whatever has been switched before. *)
Lemma enable_names_view b es c :
  cfg_n (enable_names b es c) = cfg_n c ∧ connected (enable_names b es c) = connected c ∧
  endnames (enable_names b es c) = endnames c ∧
  conn (enable_names b es c) = conn c ∧ ename (enable_names b es c) = ename c.
Proof. by destruct (enable_names_same b es c) as (en & -> & _). Qed.

Lemma connect_links c i es :
  links c → 0 ≤ i < cfg_n c → go_at (endnames c) i = Some (Some es) →
  wp (λ _, False) (connect i) (λ _ c', rewired c c' ∧ links c' ∧
    ∀ j, conn c' j = if decide (j = i) then true else conn c j) c.
Proof.
  intros L Hi Hes. unfold connect. wp_step. apply wp_assign; [rewrite (lk_conn_len _ L); lia|].
  set (c1 := set_connected _ c). wp_step. wp_step. wp_step.
  assert (∀ j, conn c1 j = if decide (j = i) then true else conn c j) as Hconn
    by (intros; by apply conn_assigned).
  assert (∀ j, conn c1 j = true → ∃ es, go_at (endnames c) j = Some (Some es)) as Hnamed.
  { intros j. rewrite Hconn. case_decide; [subst; eauto|apply (lk_named _ L)]. }
  assert (go_len (connected c1) = cfg_n c1) as Hlen
    by (simpl; rewrite go_len_insert; apply L).
  apply (connect_loop (λ _, i) (λ j, j)); [done|intros j ? _; by apply (ename_is_Some c i j es)|].
  set (out := omap _ _). destruct (enable_names_view true out c1) as (En & Ec & Ee & Ecn & Een).
  rewrite <- En. apply (connect_loop (λ j, j) (λ _, i)).
  { congruence. }
  { intros j _. rewrite Ecn, Een. intros [es' ?]%Hnamed. by apply (ename_is_Some c j i es'). }
  rewrite <- enable_names_app. rewrite Ecn, Een, En. set (inc := omap _ _).
  split.
  { apply rewired_enable. intros _ e. unfold out, inc. rewrite elem_of_app, !list_elem_of_omap.
    intros [(j & _ & Hj)|(j & _ & Hj)]; destruct (conn c1 j); try done; eauto. }
  apply (relink c c1 i true); [done|done|eauto|done|..].
  - intros i' j' e HE. rewrite elem_of_app. unfold out, inc. rewrite !list_elem_of_omap.
    intros [(j & _ & Hj)|(j & _ & Hj)]; destruct (conn c1 j) eqn:Hcj; try done;
      destruct (lk_inj _ L _ _ _ _ _ Hj HE) as [<- <-]; rewrite Hcj, (Hconn i);
      by rewrite decide_True.
  - intros i' j' e HE [Ho Hinc]%not_elem_of_app. destruct (ename_range _ _ _ _ L HE) as [Hi' Hj'].
    unfold out, inc in *. rewrite list_elem_of_omap in Ho, Hinc. rewrite !Hconn.
    destruct (decide (i' = i)) as [->|], (decide (j' = i)) as [->|]; [|..|done].
    + exfalso. apply Ho. exists i. rewrite elem_of_seqZ, Hconn, decide_True by done. simpl. split; [lia|done].
    + destruct (conn c j') eqn:Hc; [|by rewrite !andb_false_r]. exfalso. apply Ho. exists j'.
      rewrite elem_of_seqZ, Hconn, decide_False, Hc by done. simpl. split; [lia|done].
    + destruct (conn c i') eqn:Hc; [|done]. exfalso. apply Hinc. exists i'.
      rewrite elem_of_seqZ, Hconn, decide_False, Hc by done. simpl. split; [lia|done].
Qed.

Lemma disconnect_links c i :
  links c → 0 ≤ i < cfg_n c →
  wp (λ _, False) (disconnect i) (λ _ c', rewired c c' ∧ links c' ∧
    ∀ j, conn c' j = if decide (j = i) then false else conn c j) c.
Proof.
  intros L Hi. unfold disconnect. wp_step. apply wp_assign; [rewrite (lk_conn_len _ L); lia|].
  set (c1 := set_connected _ c). wp_step. wp_step. wp_step.
  assert (∀ j, conn c1 j = if decide (j = i) then false else conn c j) as Hconn
    by (intros; by apply conn_assigned).
  assert (∀ j, 0 ≤ j < cfg_n c → is_Some (go_at (endnames c) j)) as Hat.
  { intros. apply go_at_is_Some. rewrite (lk_ends_len _ L). lia. }
  apply (disconnect_loop (λ _, i) (λ j, j)); [auto|intros j es ??; by apply (ename_is_Some c i j es)|].
  set (out := omap _ _). destruct (enable_names_view false out c1) as (En & Ec & Ee & Ecn & Een).
  rewrite <- En. apply (disconnect_loop (λ j, j) (λ _, i)).
  { rewrite En, Ee. auto. }
  { intros j es' _. rewrite Ee, Een. intros ?. by apply (ename_is_Some c j i es'). }
  rewrite <- enable_names_app. rewrite Een, En. set (inc := omap _ _).
  split; [by apply rewired_enable|]. apply (relink c c1 i false); [done|done|done|done|..].
  - intros i' j' e HE. rewrite elem_of_app. unfold out, inc. rewrite !list_elem_of_omap, !Hconn.
    intros [(j & _ & Hj)|(j & _ & Hj)]; destruct (lk_inj _ L _ _ _ _ _ Hj HE) as [<- <-];
      by rewrite (decide_True (P := i = i)), ?andb_false_r.
  - intros i' j' e HE [Ho Hinc]%not_elem_of_app. destruct (ename_range _ _ _ _ L HE) as [Hi' Hj'].
    unfold out, inc in *. rewrite list_elem_of_omap in Ho, Hinc. rewrite !Hconn.
    destruct (decide (i' = i)) as [->|], (decide (j' = i)) as [->|]; [..|done]; exfalso.
    1-2: apply Ho; eexists; rewrite elem_of_seqZ; split; [|done]; simpl; lia.
    apply Hinc; eexists; rewrite elem_of_seqZ; split; [|done]; simpl; lia.
Qed.

(** ** [crash1] and [start1] *)

(** What [saved[i]] points to. *)
Definition last_saved c (i : Z) : option (Persister Z) :=
  match go_at (saved c) i with
  | Some (Some o) => saved_value o (default None (go_at (rafts c) i))
  | _ => None
  end.

(** The state a new incarnation of [i] starts from. *)
Definition handed_over c (i : Z) : Persister Z :=
  mkPersister (default [] (raftstate <$> last_saved c i)) [].

Lemma links_same c c' :
  links c → cfg_n c' = cfg_n c → connected c' = connected c → endnames c' = endnames c →
  ends (cfg_net c') = ends (cfg_net c) → connections (cfg_net c') = connections (cfg_net c) →
  enabled (cfg_net c') = enabled (cfg_net c) → links c'.
Proof.
  intros L Hn Hc He Hd Hcn Hen.
  assert (conn c' = conn c) as Hconn by (unfold conn; by rewrite Hc).
  assert (ename c' = ename c) as Hname by (unfold ename; by rewrite He).
  split; rewrite ?Hn, ?Hc, ?He, ?Hd, ?Hcn, ?Hen, ?Hconn, ?Hname; apply L.
Qed.

Lemma procs_update c c' i a b :
  procs c → cfg_n c' = cfg_n c → 0 ≤ i < cfg_n c →
  rafts c' = <[Z.to_nat i := a]> (rafts c) → saved c' = <[Z.to_nat i := b]> (saved c) →
  (∀ r, a = Some r → stopc r = false ∧ b = Some Shared) →
  (b = Some Shared → ∃ r, a = Some r) → procs c'.
Proof.
  intros P Hn Hi Hr Hs Ha Hb.
  assert (0 ≤ i < go_len (rafts c)) by (rewrite (pr_rafts_len _ P); lia).
  assert (0 ≤ i < go_len (saved c)) by (rewrite (pr_saved_len _ P); lia).
  split; rewrite ?Hn, ?Hr, ?Hs, ?go_len_insert; [apply P|apply P|..].
  - intros j r. rewrite !go_at_insert by done. case_decide; [|apply P].
    intros [= ->]. by destruct (Ha r) as [? ->].
  - intros j. rewrite !go_at_insert by done. case_decide; [|apply P].
    intros [= Hj]. destruct (Hb Hj) as [r ->]. eauto.
Qed.

Lemma go_insert_same {A} (l : list A) i x : go_at l i = Some x → <[Z.to_nat i := x]> l = l.
Proof. intros [_ Hx]%go_at_Some. by apply list_insert_id. Qed.

(** [rn] is the network of [c] with ends switched, among them all ends of [i], which are disabled. *)
Definition cut_off (i : Z) c (rn : Network) : Prop :=
  switched c rn ∧ ∀ j e, ename c i j = Some e → enabled rn !! inr e = Some false.

Lemma cut_off_intro c c1 i rn l :
  switched c rn → c1 = set_net (λ _, rn) (set_connected l c) → links c1 → conn c1 i = false →
  cut_off i c rn.
Proof.
  intros Hsw -> L Hc. split; [done|]. intros j e He.
  destruct (lk_end _ L i j e He) as (_ & _ & Hen). by rewrite Hc in Hen.
Qed.

(** After the crash: nothing runs at [i], and the harness owns what was persisted. *)
Definition crashed i c c' : Prop :=
  cfg_n c' = cfg_n c ∧ endnames c' = endnames c ∧ logs c' = logs c ∧ applyErr c' = applyErr c ∧
  (∃ rn, cut_off i c rn ∧ cfg_net c' = DeleteServer (inl i) rn) ∧
  rafts c' = <[Z.to_nat i := None]> (rafts c) ∧
  saved c' = <[Z.to_nat i := (λ p, Own (mkPersister (raftstate p) [])) <$> last_saved c i]> (saved c) ∧
  (∀ j, conn c' j = if decide (j = i) then false else conn c j).

(** The fields [crash1] leaves alone, once [i] has been detached. *)
Lemma crashed_intro c c2 c' i rn l :
  procs c → 0 ≤ i < cfg_n c → c2 = set_net (λ _, rn) (set_connected l c) → links c2 →
  switched c rn → (∀ j, conn c2 j = if decide (j = i) then false else conn c j) →
  cfg_n c' = cfg_n c2 → connected c' = connected c2 → endnames c' = endnames c2 →
  logs c' = logs c2 → applyErr c' = applyErr c2 → cfg_net c' = DeleteServer (inl i) (cfg_net c2) →
  rafts c' = <[Z.to_nat i := None]> (rafts c) →
  saved c' = <[Z.to_nat i := (λ p, Own (mkPersister (raftstate p) [])) <$> last_saved c i]> (saved c) →
  links c' ∧ procs c' ∧ crashed i c c'.
Proof.
  intros P Hi -> L Hends Hconn E1 E2 E3 E4 E4' E5 E6 E7. split_and!.
  - eapply links_same; [exact L|..]; rewrite ?E1, ?E2, ?E3, ?E5; done.
  - eapply (procs_update c); [done|by rewrite E1|done|done|done|done|].
    by destruct (last_saved c i).
  - split_and!; try (rewrite ?E1, ?E3, ?E4, ?E4'; done).
    { exists rn. split; [|done]. eapply cut_off_intro; [done|done|done|]. by rewrite Hconn, decide_True. }
    intros j. rewrite <- Hconn. unfold conn. by rewrite E2.
Qed.

Lemma crash1_links c i :
  links c → procs c → 0 ≤ i < cfg_n c →
  wp (λ _, False) (crash1 i) (λ _ c', links c' ∧ procs c' ∧ crashed i c c') c.
Proof.
  intros L P Hi. unfold crash1. wp_step.
  eapply wp_mono; [by apply disconnect_links|]. intros _ c1 ((rn & l & Hc1 & Hends) & L1 & Hconn).
  wp_step. wp_step.
  assert (0 ≤ i < go_len (rafts c)) as Hir by (rewrite (pr_rafts_len _ P); lia).
  assert (0 ≤ i < go_len (saved c)) as His by (rewrite (pr_saved_len _ P); lia).
  pose proof (λ c', crashed_intro c c1 c' i rn l P Hi Hc1 L1 Hends Hconn) as Hfin.
  subst c1. destruct (go_at_is_Some _ _ His) as [sv Hsv], (go_at_is_Some _ _ Hir) as [rf Hrf].
  unfold last_saved in Hfin. rewrite Hsv, Hrf in Hfin. simpl in Hfin.
  wp_step. eapply wp_at_field; [exact Hsv|]. wp_step. eapply wp_at_field; [exact Hrf|]. wp_step.
  destruct sv as [o|]; cbn beta iota.
  - assert (∃ p, saved_value o rf = Some p) as [p Hp].
    { destruct o; simpl; [|eauto]. destruct (pr_shared _ P i Hsv) as [r Hr].
      rewrite Hrf in Hr. injection Hr as ->. simpl. eauto. }
    wp_step. eapply wp_must; [exact Hp|]. apply wp_assign; [done|]. rewrite Hp in Hfin.
    wp_step. destruct rf as [r|]; cbn beta iota.
    + destruct (pr_alive _ P i r Hrf) as [Hstop _].
      unfold Kill, bind at 1, get at 1. rewrite Hstop. simpl (modify _ _). cbn beta iota.
      apply wp_assign; [done|]. wp_step.
      eapply wp_at_field; [cbn; by rewrite go_at_insert, decide_True|]. cbn beta iota. wp_step.
      eapply wp_must; [done|]. apply wp_assign; [cbn; by rewrite go_len_insert|].
      apply Hfin; try done. cbn. by rewrite list_insert_insert_eq.
    + wp_step. wp_step. eapply wp_at_field; [cbn; by rewrite go_at_insert, decide_True|].
      cbn beta iota. wp_step.
      eapply wp_must; [done|]. apply wp_assign; [cbn; by rewrite go_len_insert|].
      apply Hfin; try done; cbn; [by rewrite go_insert_same|by rewrite list_insert_insert_eq].
  - wp_step. wp_step. assert (rf = None) as ->.
    { destruct rf as [r|]; [|done]. destruct (pr_alive _ P i r Hrf) as [_ Hs]. congruence. }
    wp_step. wp_step. eapply wp_at_field; [exact Hsv|]. cbn beta iota. wp_step.
    apply Hfin; try done; cbn; by rewrite go_insert_same.
Qed.

(** The end names drawn for a new incarnation: distinct, and not used before. *)
Definition fresh_names c (names : Z → string) : Prop :=
  (∀ j j', 0 ≤ j < cfg_n c → 0 ≤ j' < cfg_n c → names j = names j' → j = j') ∧
  (∀ j, 0 ≤ j < cfg_n c → inr (names j) ∉ ends (cfg_net c)).

(** The ends for the peers [l] have been added to [rn0]. *)
Record ends_made (names : Z → string) (l : list Z)
    (rn0 rn : Network) : Prop := mkEndsMade {
  em_ends k : k ∈ ends rn ↔ k ∈ ends rn0 ∨ ∃ j, j ∈ l ∧ k = inr (names j);
  em_new j : j ∈ l → enabled rn !! inr (names j) = Some false ∧
    connections rn !! inr (names j) = Some (Some (inl j));
  em_old k : (∀ j, j ∈ l → k ≠ inr (names j)) →
    enabled rn !! k = enabled rn0 !! k ∧ connections rn !! k = connections rn0 !! k;
  em_core : Labrpc.servers rn = Labrpc.servers rn0 ∧ heap rn = heap rn0 ∧ calls rn = calls rn0;
}.

Lemma ends_made_snoc names l rn0 rn j :
  ends_made names l rn0 rn → inr (names j) ∉ ends rn0 → (∀ j', j' ∈ l → names j' ≠ names j) →
  ∃ rn', MakeEnd (inr (names j)) rn = Ok rn' ∧
    ends_made names (l ++ [j]) rn0 (Connect (inr (names j)) (inl j) rn').
Proof.
  intros [He Hnew Hold Hcore] Hf Hne. unfold MakeEnd.
  rewrite decide_False by (rewrite He; naive_solver congruence).
  eexists. split; [done|]. split; simpl.
  - intros k. rewrite elem_of_union, elem_of_singleton, He. set_solver.
  - intros j' [Hj'| ->%list_elem_of_singleton]%elem_of_app; [|by rewrite !lookup_insert_eq].
    rewrite !lookup_insert_ne by (intros [=]; by eapply Hne). auto.
  - intros k Hk. assert (k ≠ inr (names j)) by (apply Hk; set_solver).
    rewrite !lookup_insert_ne by congruence. apply Hold. set_solver.
  - done.
Qed.

Lemma make_ends names c i Q :
  fresh_names c names → go_at (endnames c) i = Some (Some (map names (seqZ 0 (cfg_n c)))) →
  (∀ rn, ends_made names (seqZ 0 (cfg_n c)) (cfg_net c) rn → Q tt (set_net (λ _, rn) c)) →
  wp (λ _, False) (for_range (seqZ 0 (cfg_n c)) (make_end i)) Q c.
Proof.
  intros [Hinj Hfresh] Hes HQ. eapply wp_mono.
  - apply (wp_for_range _ _ (λ rest s, ∃ l rn, seqZ 0 (cfg_n c) = l ++ rest ∧
      s = set_net (λ _, rn) c ∧ ends_made names l (cfg_net c) rn)).
    + exists [], (cfg_net c). split_and!; [done|by destruct c|]. split; set_solver.
    + intros j rest s (l & rn & Hl & -> & Hm).
      assert (∀ j', j' ∈ l ++ j :: rest → 0 ≤ j' < cfg_n c) as Hrange.
      { intros j'. rewrite <- Hl, elem_of_seqZ. lia. }
      destruct (ends_made_snoc names l (cfg_net c) rn j Hm) as (rn' & HM & Hm').
      { apply Hfresh, Hrange. set_solver. }
      { intros j' Hj' Heq. apply Hinj in Heq; [|apply Hrange; set_solver..]. subst j'.
        pose proof (NoDup_seqZ 0 (cfg_n c)) as Hnd. rewrite Hl in Hnd.
        apply NoDup_app in Hnd as (_ & Hd & _). apply (Hd j Hj'). left. }
      unfold make_end. wp_step. eapply (wp_endname _ _ _ (names j)).
      { unfold ename. simpl. rewrite Hes. pose proof (Hrange j ltac:(set_solver)).
        apply go_at_Some. split; [lia|]. rewrite list_lookup_fmap, lookup_seqZ_lt by lia.
        simpl. do 2 f_equal. lia. }
      wp_step. wp_step. simpl. rewrite HM. wp_step.
      exists (l ++ [j]), (Connect (inr (names j)) (inl j) rn'). split_and!; [|done|done].
      by rewrite <- app_assoc.
  - intros [] s (l & rn & Hl & -> & Hm). rewrite app_nil_r in Hl. subst l. by apply HQ.
Qed.

Lemma Make_runs ps self (pers : Persister Z) rs r : Make ps self pers rs = Ok r → stopc r = false.
Proof. intros H%Make_identity. by injection H. Qed.

(** The server [start1] registers. *)
Definition raft_server : Server := AddService (MakeService "Raft" raft_methods) MakeServer.

(** After the start: a peer runs at [i], detached, on the state handed over. *)
Definition started names rand i c c' : Prop :=
  cfg_n c' = cfg_n c ∧ logs c' = logs c ∧ applyErr c' = applyErr c ∧
  (∀ k, k ∈ ends (cfg_net c') ↔
     k ∈ ends (cfg_net c) ∨ ∃ j, j ∈ seqZ 0 (cfg_n c) ∧ k = inr (names j)) ∧
  (∃ r, Make (seqZ 0 (cfg_n c)) i (handed_over c i) rand = Ok r ∧
     rafts c' = <[Z.to_nat i := Some r]> (rafts c)) ∧
  endnames c' = <[Z.to_nat i := Some (map names (seqZ 0 (cfg_n c)))]> (endnames c) ∧
  (∃ rn rn1 sid, cut_off i c rn ∧
     ends_made names (seqZ 0 (cfg_n c)) (DeleteServer (inl i) rn) rn1 ∧ heap rn1 !! sid = None ∧
     cfg_net c' = AddServer (inl i) sid (new_server sid raft_server rn1)) ∧
  saved c' = <[Z.to_nat i := Some Shared]> (saved c) ∧
  (∀ j, conn c' j = if decide (j = i) then false else conn c j).

(** New ends for a detached server. *)
Lemma links_new_ends c i names rn :
  links c → 0 ≤ i < cfg_n c → conn c i = false → fresh_names c names →
  ends_made names (seqZ 0 (cfg_n c)) (cfg_net c) rn →
  links (set_net (λ _, rn)
    (set_endnames (<[Z.to_nat i := Some (map names (seqZ 0 (cfg_n c)))]> (endnames c)) c)).
Proof.
  intros L Hi Hoff [Hinj Hfresh] [He Hnew Hold _].
  set (c' := set_net _ _).
  assert (0 ≤ i < go_len (endnames c)) as Hie by (rewrite (lk_ends_len _ L); lia).
  assert (∀ i' j', ename c' i' j' = if decide (i' = i)
    then go_at (map names (seqZ 0 (cfg_n c))) j' else ename c i' j') as Hname.
  { intros i' j'. unfold ename. simpl. rewrite go_at_insert by done. by case_decide. }
  assert (∀ j e, go_at (map names (seqZ 0 (cfg_n c))) j = Some e → 0 ≤ j < cfg_n c ∧ e = names j)
    as Hat.
  { intros j e Hj. pose proof (go_at_range _ _ _ Hj) as Hr. unfold go_len in Hr.
    rewrite length_fmap, length_seqZ in Hr. split; [lia|]. apply go_at_Some in Hj as [_ Hj].
    rewrite list_lookup_fmap, lookup_seqZ_lt in Hj by lia. simpl in Hj. injection Hj as <-.
    f_equal. lia. }
  assert (∀ i' j' e j, 0 ≤ j < cfg_n c → ename c i' j' = Some e → e ≠ names j) as Hdiff.
  { intros i' j' e j Hj HE ->. apply (Hfresh j Hj). by apply (lk_end _ L i' j'). }
  assert (∀ j, conn c' j = conn c j) as Hcc by done.
  split; [apply L|apply L|simpl; rewrite go_len_insert; apply L|..].
  - intros i' es. simpl. rewrite go_at_insert by done. case_decide; [|apply L].
    intros [= <-]. unfold go_len. rewrite length_fmap, length_seqZ. pose proof (lk_n _ L). lia.
  - intros i'. rewrite Hcc. simpl. rewrite go_at_insert by done. case_decide; [eauto|apply L].
  - intros i1 j1 i2 j2 e. rewrite !Hname. repeat case_decide; intros H1 H2.
    + apply Hat in H1 as [? ->], H2 as [? H2]. subst. auto.
    + apply Hat in H1 as [? ->]. by destruct (Hdiff _ _ _ j1 ltac:(lia) H2).
    + apply Hat in H2 as [? ->]. by destruct (Hdiff _ _ _ j2 ltac:(lia) H1).
    + by eapply (lk_inj _ L).
  - intros i' j' e. rewrite Hname, !Hcc. change (cfg_net c') with rn. case_decide; intros HE.
    + apply Hat in HE as [Hj ->]. destruct (Hnew j') as [-> ->]; [apply elem_of_seqZ; lia|].
      subst i'. rewrite Hoff, He. split_and!; [|done..]. right. exists j'.
      rewrite elem_of_seqZ. split; [lia|done].
    + destruct (Hold (inr e)) as [Hen Hcn].
      { intros j Hj%elem_of_seqZ [= ->]. by apply (Hdiff i' j' (names j) j); [lia|..]. }
      rewrite He, Hen, Hcn. destruct (lk_end _ L _ _ _ HE) as (? & ? & ?). auto.
Qed.

Lemma start1_links names rand c i :
  links c → procs c → 0 ≤ i < cfg_n c → fresh_names c names →
  wp (λ _, False) (start1 names rand i) (λ _ c', links c' ∧ procs c' ∧ started names rand i c c') c.
Proof.
  intros L P Hi Hf. unfold start1. wp_step. eapply wp_mono; [by apply crash1_links|].
  intros _ c1 (L1 & P1 & (En & Ee & El & Ea & (rn0 & Hsw & Enet) & Er & Es & Hconn)).
  assert (ends (cfg_net c1) = ends (cfg_net c)) as Ed
    by (rewrite Enet; by destruct Hsw as [(en & -> & _) _]).
  wp_step. wp_step. wp_step. apply wp_assign; [rewrite (lk_ends_len _ L1); lia|]. wp_step.
  assert (fresh_names c1 names) as Hf1 by (unfold fresh_names; by rewrite En, Ed).
  assert (0 ≤ i < go_len (endnames c1)) as Hie by (rewrite (lk_ends_len _ L1); lia).
  assert (0 ≤ i < go_len (saved c)) as His by (rewrite (pr_saved_len _ P); lia).
  match goal with |- wp _ _ _ ?c2 => apply (make_ends names c2 i) end;
    [done|cbn; by rewrite go_at_insert, decide_True|].
  intros rn Hm. cbn [cfg_n set_endnames cfg_net] in Hm.
  pose proof (links_new_ends c1 i names rn L1 ltac:(lia)
    ltac:(by rewrite Hconn, decide_True) Hf1 Hm) as L2.
  set (c2 := set_net (λ _, rn) _) in *.
  wp_step. eapply wp_at_field; [cbn; by rewrite Es, go_at_insert, decide_True|]. wp_step.
  assert (∀ Q, Q (handed_over c i) c2 → wp (λ _, False)
    (match (λ p, Own (mkPersister (raftstate p) [])) <$> last_saved c i with
     | Some o => p <- must nil_panic (saved_value o None) ;; ret (Persister_Copy p)
     | None => ret MakePersister
     end) Q c2) as Hp.
  { intros Q HQ. unfold handed_over in HQ. by destruct (last_saved c i). }
  apply Hp. wp_step. apply wp_assign; [cbn; by rewrite Es, go_len_insert|].
  rewrite En. destruct (Make_spec (seqZ 0 (cfg_n c)) i (handed_over c i) rand) as (r & HM & _).
  rewrite HM. wp_step.
  apply wp_assign; [cbn; rewrite Er, go_len_insert, (pr_rafts_len _ P); lia|].
  wp_step. apply wp_assign; [cbn; by rewrite Es, !go_len_insert|].
  wp_step. wp_step. wp_step. split_and!.
  - by eapply links_same; [exact L2|..].
  - apply (procs_update c _ i (Some r) (Some Shared)); try done; [|..|eauto].
    + cbn. by rewrite Er, list_insert_insert_eq.
    + cbn. by rewrite Es, !list_insert_insert_eq.
    + intros ? [= <-]. split; [by eapply Make_runs|done].
  - split_and!; [done|done|done| |exists r; split; [done|]|..|done]; cbn.
    + intros k. by rewrite (em_ends _ _ _ _ Hm), En, Ed.
    + by rewrite Er, list_insert_insert_eq.
    + by rewrite Ee, En.
    + rewrite Enet, En in Hm. eexists rn0, rn, _. split_and!; [done|done| |done].
      apply not_elem_of_dom, is_fresh.
    + by rewrite Es, !list_insert_insert_eq.
Qed.

(** ** The objects behind the names *)

(** The peer that runs at [i], and the server object registered for it. *)
Definition peer c (i : Z) : option (Raft Z) := default None (go_at (rafts c) i).
Definition registered (rn : Network) (i : Z) : option nat := default None (Labrpc.servers rn !! inl i).

(** The running peers, and no others, have a server object of their own; all server objects have
    the Raft service; no end but those of the peers is enabled. *)
Record wired c : Prop := mkWired {
  wd_server i : 0 ≤ i < cfg_n c →
    match peer c i with
    | Some _ => is_Some (registered (cfg_net c) i)
    | None => registered (cfg_net c) i = None
    end;
  wd_services sid sv : heap (cfg_net c) !! sid = Some sv → sv_services sv = sv_services raft_server;
  wd_heap i sid : registered (cfg_net c) i = Some sid → is_Some (heap (cfg_net c) !! sid);
  wd_inj i j sid :
    registered (cfg_net c) i = Some sid → registered (cfg_net c) j = Some sid → i = j;
  wd_enabled e : enabled (cfg_net c) !! inr e = Some true → ∃ i j, ename c i j = Some e;
}.

Lemma wired_rewired c c' : rewired c c' → wired c → wired c'.
Proof.
  intros (rn & l & -> & en & -> & Hen) [H1 H1' H2 H3 H4]. split; [done|done|done|done|].
  intros e He. destruct (Hen e He) as [?|?]; [by apply H4|done].
Qed.

Lemma registered_delete (i : Z) (rn : Network) (j : Z) :
  registered (DeleteServer (inl i) rn) j = if decide (j = i) then None else registered rn j.
Proof.
  unfold registered. simpl. case_decide; [subst; by rewrite lookup_insert_eq|].
  by rewrite lookup_insert_ne by congruence.
Qed.

Lemma registered_add (i : Z) (sid : nat) (rn : Network) (j : Z) :
  registered (AddServer (inl i) sid rn) j = if decide (j = i) then Some sid else registered rn j.
Proof.
  unfold registered. simpl. case_decide; [subst; by rewrite lookup_insert_eq|].
  by rewrite lookup_insert_ne by congruence.
Qed.

Lemma peer_insert c c' i o j :
  procs c → 0 ≤ i < cfg_n c → rafts c' = <[Z.to_nat i := o]> (rafts c) →
  peer c' j = if decide (j = i) then o else peer c j.
Proof.
  intros P Hi Hr. unfold peer. rewrite Hr, go_at_insert by (rewrite (pr_rafts_len _ P); lia).
  by case_decide.
Qed.

Lemma wired_crashed i c c' : procs c → 0 ≤ i < cfg_n c → crashed i c c' → wired c → wired c'.
Proof.
  intros P Hi (En & Ee & _ & _ & (rn & [(en & -> & Hen) _] & Enet) & Er & _) [H1 H1' H2 H3 H4].
  assert (∀ j, registered (cfg_net c') j = if decide (j = i) then None else registered (cfg_net c) j)
    as Hreg by (intros j; rewrite Enet; exact (registered_delete i (with_enabled en (cfg_net c)) j)).
  assert (heap (cfg_net c') = heap (cfg_net c)) as Hheap by (by rewrite Enet).
  split; rewrite ?Hheap.
  - intros j Hj. rewrite Hreg, (peer_insert c c' i None j) by done. case_decide; [done|].
    apply H1. lia.
  - exact H1'.
  - intros j sid. rewrite Hreg. case_decide; [done|]. apply H2.
  - intros j j' sid. rewrite !Hreg. repeat case_decide; try done. apply H3.
  - intros e. rewrite Enet. intros He. unfold ename. rewrite Ee.
    destruct (Hen e He) as [?|?]; [by apply H4|done].
Qed.

Lemma wired_started names rand i c c' :
  links c → procs c → 0 ≤ i < cfg_n c → fresh_names c names → started names rand i c c' →
  wired c → wired c'.
Proof.
  intros L P Hi [_ Hfresh] (En & _ & _ & _ & (r & _ & Er) & Ee & (rn & rn1 & sid & Hcut & Hm & Hsid & Enet) & _)
    [H1 H1' H2 H3 H4].
  destruct Hcut as [(en & -> & Hen) Hoff], (em_core _ _ _ _ Hm) as (Hs & Hh & _).
  assert (∀ j, registered (cfg_net c') j = if decide (j = i) then Some sid else registered (cfg_net c) j)
    as Hreg.
  { intros j. rewrite Enet, registered_add. case_decide; [done|]. unfold registered. simpl.
    rewrite Hs. simpl. by rewrite lookup_insert_ne by congruence. }
  assert (heap (cfg_net c') = <[sid := raft_server]> (heap (cfg_net c))) as Hheap
    by (rewrite Enet; simpl; by rewrite Hh).
  rewrite Hh in Hsid. simpl in Hsid. split; rewrite ?Hheap.
  - intros j Hj. rewrite Hreg, (peer_insert c c' i (Some r) j) by done. case_decide; [by eexists|].
    apply H1. lia.
  - intros sj sv [[_ <-]|[_ Hsj]]%lookup_insert_Some; [done|by eapply H1'].
  - intros j sj. rewrite Hreg. case_decide; [intros [= <-]; by rewrite lookup_insert_eq|].
    intros [sv Hj]%H2. rewrite lookup_insert_ne by congruence. by exists sv.
  - intros j j' sj. rewrite !Hreg. repeat case_decide; subst; try done; [..|apply H3].
    + intros [= <-] [sv ?]%H2. congruence.
    + intros [sv ?]%H2 [= <-]. congruence.
  - intros e. rewrite Enet. simpl. intros He.
    destruct (decide (e ∈ map names (seqZ 0 (cfg_n c)))) as [(j & -> & Hj)%list_elem_of_fmap|Hno].
    { destruct (em_new _ _ _ _ Hm j Hj). congruence. }
    destruct (em_old _ _ _ _ Hm (inr e)) as [Heq _].
    { intros j Hj [= ->]. apply Hno. by apply list_elem_of_fmap_2. }
    rewrite Heq in He. simpl in He.
    destruct (Hen e He) as [(i' & j' & Hn)%H4|(i' & j' & Hn)]; exists i', j'; unfold ename;
      rewrite Ee, go_at_insert by (rewrite (lk_ends_len _ L); lia); case_decide; try done; subst i';
      apply Hoff in Hn; simpl in Hn; congruence.
Qed.

(** ** What a test does with the cluster *)

(** [HPeer]: the peer at [i] makes progress, without being killed.  [HNet]: calls go through the
    network, or [setunreliable] and [setlongreordering] change its behaviour. *)
Inductive hstep c c' : Prop :=
| HConnect i : 0 ≤ i < cfg_n c → connect i c = Ok (tt, c') → hstep c c'
| HDisconnect i : 0 ≤ i < cfg_n c → disconnect i c = Ok (tt, c') → hstep c c'
| HCrash i : 0 ≤ i < cfg_n c → crash1 i c = Ok (tt, c') → hstep c c'
| HStart names rand i :
    0 ≤ i < cfg_n c → fresh_names c names → start1 names rand i c = Ok (tt, c') → hstep c c'
| HApply i m : applier i m c = Ok (tt, c') → hstep c c'
| HPeer i r r' :
    go_at (rafts c) i = Some (Some r) → stopc r' = false →
    c' = set_rafts (<[Z.to_nat i := Some r']> (rafts c)) c → hstep c c'
| HNet rn :
    ends rn = ends (cfg_net c) → connections rn = connections (cfg_net c) →
    enabled rn = enabled (cfg_net c) → c' = set_net (λ _, rn) c → hstep c c'.

Definition named c (i : Z) : Prop := ∃ es, go_at (endnames c) i = Some (Some es).

Record harness_inv (n : Z) c : Prop := mkHarnessInv {
  hi_n : cfg_n c = n;
  hi_links : links c;
  hi_procs : procs c;
  hi_named i : 0 ≤ i < n → named c i;
}.

Lemma rewired_procs c c' : rewired c c' → procs c → procs c'.
Proof. intros (rn & l & -> & _) P. split; apply P. Qed.

Lemma rewired_named c c' i : rewired c c' → named c i → named c' i.
Proof. by intros (rn & l & -> & _). Qed.

Lemma connect_inv n c i :
  harness_inv n c → 0 ≤ i < n → wp (λ _, False) (connect i) (λ _ c', harness_inv n c' ∧
    rewired c c' ∧ ∀ j, conn c' j = if decide (j = i) then true else conn c j) c.
Proof.
  intros [Hn L P Hnm] Hi. destruct (Hnm i Hi) as [es Hes].
  eapply wp_mono; [apply (connect_links c i es); [done|lia|done]|]. intros _ c' (Hr & L' & Hc).
  split; [|done]. split; [|done|by eapply rewired_procs|intros; eapply rewired_named; eauto].
  by destruct Hr as (? & ? & -> & _).
Qed.

Lemma disconnect_inv n c i :
  harness_inv n c → 0 ≤ i < n →
  wp (λ _, False) (disconnect i) (λ _ c', harness_inv n c' ∧ rewired c c') c.
Proof.
  intros [Hn L P Hnm] Hi.
  eapply wp_mono; [apply (disconnect_links c i); [done|lia]|]. intros _ c' (Hr & L' & Hc).
  split; [|done]. split; [|done|by eapply rewired_procs|intros; eapply rewired_named; eauto].
  by destruct Hr as (? & ? & -> & _).
Qed.

Lemma crash1_inv n c i :
  harness_inv n c → 0 ≤ i < n →
  wp (λ _, False) (crash1 i) (λ _ c', harness_inv n c' ∧ crashed i c c') c.
Proof.
  intros [Hn L P Hnm] Hi. eapply wp_mono; [apply (crash1_links c i); [done..|lia]|].
  intros _ c' (L' & P' & Cr). split; [|done]. destruct Cr as (En & Ee & _). split; [lia|done|done|].
  intros j Hj. unfold named. rewrite Ee. by apply Hnm.
Qed.

Lemma start1_inv n names rand c i :
  harness_inv n c → 0 ≤ i < n → fresh_names c names →
  wp (λ _, False) (start1 names rand i) (λ _ c', harness_inv n c' ∧ started names rand i c c') c.
Proof.
  intros [Hn L P Hnm] Hi Hf. eapply wp_mono; [apply (start1_links names rand c i); [done..|lia|done]|].
  intros _ c' (L' & P' & St). split; [|done]. destruct St as (En & _ & _ & _ & _ & Ee & _).
  split; [lia|done|done|]. intros j Hj. unfold named. rewrite Ee.
  rewrite go_at_insert by (rewrite (lk_ends_len _ L); lia). case_decide; [eauto|by apply Hnm].
Qed.

Lemma applier_only_logs c i m c' :
  applier i m c = Ok (tt, c') → ∃ l, c' = set_logs l c.
Proof.
  unfold applier, at_field, assign, bind, get, modify, must. destruct (Apply_Command m); [|done].
  destruct (go_at (logs c) i) as [[l|]|]; [|done..]. simpl.
  destruct (go_set _ _ _) as [ls|]; [|done]. simpl. case_match; [done|]. intros [= <-]. eauto.
Qed.

Lemma hstep_inv n c c' : hstep c c' → harness_inv n c → harness_inv n c'.
Proof.
  intros St I. pose proof (hi_n _ _ I) as Hn. rewrite <- Hn in *. destruct St as
    [i Hi H|i Hi H|i Hi H|names rand i Hi Hf H|i m H|i r r' Hr Hs ->|rn He Hc Hen ->].
  - apply (wp_ok _ _ _ _ _ _ (connect_inv _ c i I Hi) H).
  - apply (wp_ok _ _ _ _ _ _ (disconnect_inv _ c i I Hi) H).
  - apply (wp_ok _ _ _ _ _ _ (crash1_inv _ c i I Hi) H).
  - apply (wp_ok _ _ _ _ _ _ (start1_inv _ names rand c i I Hi Hf) H).
  - destruct (applier_only_logs _ _ _ _ H) as [l ->]. destruct I as [_ L P Hnm].
    split; [done| |by split; apply P|done]. by eapply links_same; [exact L|..].
  - destruct I as [_ L P Hnm]. split; [done|by eapply links_same; [exact L|..]| |done].
    destruct (pr_alive _ P i r Hr) as [_ Hsv].
    apply (procs_update c _ i (Some r') (Some Shared)); try done; [| |naive_solver|eauto].
    + apply go_at_range in Hr. rewrite (pr_rafts_len _ P) in Hr. lia.
    + simpl. by rewrite go_insert_same.
  - destruct I as [_ L P Hnm]. split; [done|by eapply links_same; [exact L|..]|by split; apply P|done].
Qed.

(** ** [make_config] *)

(** Nothing has been applied yet. *)
Definition no_logs (n : Z) c : Prop :=
  go_len (logs c) = n ∧ (∀ i, 0 ≤ i < n → go_at (logs c) i = Some (Some ∅)) ∧
  applyErr c = go_make n EmptyString.

(** [randstring] does not repeat itself. *)
Definition distinct_names (n : Z) (names : Z → Z → string) : Prop :=
  ∀ i j i' j', 0 ≤ i < n → 0 ≤ j < n → 0 ≤ i' < n → 0 ≤ j' < n →
    names i j = names i' j' → i = i' ∧ j = j'.

Section make.
Context (n : Z) (Hn : 0 ≤ n) (names : Z → Z → string) (rand : Z → list Z).
Context (Hdistinct : distinct_names n names).

(** The first [k] peers have been started. *)
Record starting (k : Z) c : Prop := mkStarting {
  st_n : cfg_n c = n;
  st_links : links c;
  st_procs : procs c;
  st_logs : go_len (logs c) = n;
  st_empty j : 0 ≤ j < k → go_at (logs c) j = Some (Some ∅);
  st_err : applyErr c = go_make n EmptyString;
  st_off j : conn c j = false;
  st_named j : 0 ≤ j < k → named c j;
  st_rafts j : 0 ≤ j < k → ∃ r, go_at (rafts c) j = Some (Some r) ∧
    Make (seqZ 0 n) j MakePersister (rand j) = Ok r;
  st_none j : k ≤ j < n → go_at (saved c) j = Some None;
  st_wired : wired c ∧ calls (cfg_net c) = ∅;
  st_ends e : e ∈ ends (cfg_net c) → ∃ i j, 0 ≤ i < k ∧ 0 ≤ j < n ∧ e = inr (names i j);
}.

Lemma starting_next k c :
  starting k c → 0 ≤ k < n →
  wp (λ _, False) (assign logs set_logs k (Some ∅) ;; start1 (names k) (rand k) k)
    (λ _, starting (k + 1)) c.
Proof.
  intros [En L P Hl Hl0 Herr Hoff Hnm Hr Hs [W Hcalls] He] Hk. wp_step. apply wp_assign; [lia|].
  set (c1 := set_logs _ c).
  assert (links c1) as L1 by (by eapply links_same; [exact L|..]).
  assert (procs c1) as P1 by (split; apply P).
  assert (fresh_names c1 (names k)) as Hf.
  { unfold fresh_names. simpl. rewrite En. split.
    - intros j j' ?? Heq. by apply Hdistinct in Heq as [_ ?].
    - intros j ? (i' & j' & ? & ? & [= Heq])%He. apply Hdistinct in Heq as [? _]; lia. }
  eapply wp_mono; [apply (start1_links _ _ c1 k); [done|done|simpl; lia|done]|].
  intros _ c' (L' & P' & St). assert (wired c') as W'.
  { apply (wired_started _ _ k c1 c' L1 P1) in St; [done|simpl; lia|done|]. by destruct W. }
  destruct St as (En' & El & Eerr & Hends & (r & HM & Er) & Ees & Hnet & Es & Hc).
  assert (0 ≤ k < go_len (endnames c1)) as Hke by (rewrite (lk_ends_len _ L1); simpl; lia).
  assert (0 ≤ k < go_len (rafts c1)) as Hkr by (rewrite (pr_rafts_len _ P1); simpl; lia).
  assert (0 ≤ k < go_len (saved c1)) as Hks by (rewrite (pr_saved_len _ P1); simpl; lia).
  split; [rewrite En'; done|done|done|..].
  - rewrite El. simpl. by rewrite go_len_insert.
  - intros j Hj. rewrite El. simpl. rewrite go_at_insert by lia. case_decide; [done|apply Hl0; lia].
  - by rewrite Eerr.
  - intros j. rewrite Hc. case_decide; [done|apply Hoff].
  - intros j Hj. unfold named. rewrite Ees, go_at_insert by done.
    case_decide; [eauto|apply Hnm; lia].
  - intros j Hj. rewrite Er, go_at_insert by done. case_decide; [|apply Hr; lia].
    subst j. exists r. split; [done|]. rewrite <- HM. simpl. rewrite En. f_equal.
    unfold handed_over, last_saved. simpl. by rewrite Hs by lia.
  - intros j Hj. rewrite Es, go_at_insert by done. rewrite decide_False by lia. apply Hs. lia.
  - split; [done|]. destruct Hnet as (rn & rn1 & sid & [(en & -> & _) _] & Hm & _ & ->).
    simpl. destruct (em_core _ _ _ _ Hm) as (_ & _ & ->). done.
  - intros e [(i & j & ? & ? & ->)%He|(j & Hj%elem_of_seqZ & ->)]%Hends;
      [exists i, j|exists k, j]; split_and!; try done; simpl in *; lia.
Qed.

Lemma starting_done c : starting n c → harness_inv n c.
Proof. intros []. by split. Qed.

(** All of the first [k] peers have been attached. *)
Definition attached k c : Prop := harness_inv n c ∧ (∀ j, 0 ≤ j < k → conn c j = true) ∧
  no_logs n c ∧ wired c ∧ calls (cfg_net c) = ∅ ∧
  (∀ j, 0 ≤ j < n → ∃ r, go_at (rafts c) j = Some (Some r) ∧
     Make (seqZ 0 n) j MakePersister (rand j) = Ok r).

Lemma attached_next k c : attached k c → 0 ≤ k < n → wp (λ _, False) (connect k) (λ _, attached (k + 1)) c.
Proof.
  intros (I & Hc & Hl & W & Hcl & Hr) Hk. eapply wp_mono; [by apply connect_inv|].
  intros _ c' (I' & Hre & Hc'). pose proof (wired_rewired _ _ Hre W) as W'.
  destruct Hre as (rn & l & Heq & en & Hrn & _). split; [done|].
  split; [|split; [by rewrite Heq|split; [done|]]; by rewrite Heq, Hrn].
  intros j Hj. rewrite Hc'. case_decide; [done|]. apply Hc. lia.
Qed.

Lemma starting_0 (rn : Labrpc.Network (Name := netname) (V := V) (A := ())) :
  ends rn = ∅ → enabled rn = ∅ → Labrpc.servers rn = ∅ → heap rn = ∅ → calls rn = ∅ →
  starting 0 (mkCfg rn n 0 (go_make n None) (go_make n EmptyString)
    (go_make n false) (go_make n None) (go_make n None) (go_make n None)).
Proof.
  intros He Hen Hsv Hheap Hcl. split; [done|..].
  - split; cbn; rewrite ?go_len_make by done; try done; intros i; unfold conn, ename; cbn;
      rewrite go_at_make by done; repeat case_decide; done.
  - split; cbn; rewrite ?go_len_make by done; try done; intros i;
      rewrite ?go_at_make by done; repeat case_decide; done.
  - by apply go_len_make.
  - intros j Hj. exfalso. lia.
  - done.
  - intros j. unfold conn. cbn. rewrite go_at_make by done. by case_decide.
  - intros j Hj. exfalso. lia.
  - intros j Hj. exfalso. lia.
  - intros j Hj. cbn. rewrite go_at_make by done. by rewrite decide_True by lia.
  - split; [|done]. assert (∀ i, registered rn i = None) as Hreg
      by (intros i; unfold registered; by rewrite Hsv).
    split; cbn [cfg_net]; intros i; rewrite ?Hreg, ?Hen, ?Hheap; try done. intros Hi.
    unfold peer. cbn. rewrite go_at_make by done. by case_decide.
  - cbn. rewrite He. set_solver.
Qed.

Lemma make_loops c :
  starting 0 c → ∃ c',
    (for_range (seqZ 0 n) (λ i, assign logs set_logs i (Some ∅) ;; start1 (names i) (rand i) i) ;;
     for_range (seqZ 0 n) connect) c = Ok (tt, c') ∧ attached n c'.
Proof.
  intros S0.
  destruct (wp_total _ _ _ (wp_for_seqZ n _ starting c Hn S0 starting_next)) as ([] & c1 & H1 & S1).
  assert (attached 0 c1) as A0.
  { split; [exact (starting_done _ S1)|]. split; [lia|]. split; [split_and!; apply S1|].
    split_and!; apply S1. }
  destruct (wp_total _ _ _ (wp_for_seqZ n _ attached c1 Hn A0 attached_next)) as ([] & c2 & H2 & A2).
  exists c2. split; [|done]. unfold bind at 1. by rewrite H1.
Qed.

Lemma make_config_attached unreliable :
  ∃ c, make_config n unreliable names rand = Ok c ∧ attached n c.
Proof.
  destruct (make_loops _ (starting_0 (LongDelays true (Reliable (negb unreliable) (MakeNetwork tt)))
    eq_refl eq_refl eq_refl eq_refl eq_refl)) as (c & Hrun & Hc).
  exists c. split; [|done]. unfold make_config, setunreliable.
  unfold bind at 1, modify at 1. unfold bind at 1, modify at 1.
  unfold set_net. cbn [cfg_net cfg_n cfg_done rafts applyErr connected saved endnames logs].
  by rewrite Hrun.
Qed.

End make.
(** ** Theorems *)

(** The harness partitions the network as the tests ask for.  [make_config] attaches all
    peers; after any sequence of attaching, detaching, crashing and starting peers, the end
    through which peer [i] calls peer [j] leads to server [j] and is enabled exactly when both
    are attached, and attaching, detaching and crashing a peer do not panic. *)
Theorem harness_links n unreliable names rand :
  0 ≤ n → distinct_names n names →
  ∃ c0, make_config n unreliable names rand = Ok c0 ∧ (∀ i, 0 ≤ i < n → conn c0 i = true) ∧
    ∀ c, rtc hstep c0 c → ∀ i j, 0 ≤ i < n → 0 ≤ j < n →
      (∃ e, ename c i j = Some e ∧
         connections (cfg_net c) !! inr e = Some (Some (inl j)) ∧
         enabled (cfg_net c) !! inr e = Some (conn c i && conn c j)) ∧
      (∃ c', connect i c = Ok (tt, c')) ∧ (∃ c', disconnect i c = Ok (tt, c')) ∧
      (∃ c', crash1 i c = Ok (tt, c')).
Proof.
  intros Hn Hd. destruct (make_config_attached n Hn names rand Hd unreliable)
    as (c0 & Hmk & I0 & Hc & _).
  exists c0. split_and!; [done..|]. intros c Hr i j Hi Hj.
  pose proof (rtc_keeps _ _ (hstep_inv n) _ _ Hr I0) as I. pose proof (hi_links _ _ I) as L.
  split_and!.
  - destruct (hi_named _ _ I i Hi) as [es Hes].
    destruct (ename_is_Some c i j es L Hes) as [e He]; [rewrite (hi_n _ _ I); lia|].
    exists e. split; [done|]. by apply (lk_end _ L).
  - destruct (wp_total _ _ _ (connect_inv n c i I Hi)) as ([] & c' & ? & _). eauto.
  - destruct (wp_total _ _ _ (disconnect_inv n c i I Hi)) as ([] & c' & ? & _). eauto.
  - destruct (wp_total _ _ _ (crash1_inv n c i I Hi)) as ([] & c' & ? & _). eauto.
Qed.

(** Restarting a peer loses nothing it had persisted: after [start1] a new peer runs at
    [i], detached from the network, with the term, the log and the vote of the one that
    [start1] killed. *)
Theorem harness_restart n unreliable names rand c0 c i r names' rand' :
  0 ≤ n → distinct_names n names → make_config n unreliable names rand = Ok c0 →
  rtc hstep c0 c → 0 ≤ i < n → go_at (rafts c) i = Some (Some r) → persist_ok r →
  fresh_names c names' →
  ∃ c' r', start1 names' rand' i c = Ok (tt, c') ∧ go_at (rafts c') i = Some (Some r') ∧
    currentTerm r' = currentTerm r ∧ log r' = log r ∧ votedFor r' = votedFor r ∧
    conn c' i = false.
Proof.
  intros Hn Hd Hmk Hr Hi Hraft Hp Hf.
  destruct (make_config_attached n Hn names rand Hd unreliable) as (c0' & Hmk' & I0 & _).
  rewrite Hmk in Hmk'. injection Hmk' as <-.
  pose proof (rtc_keeps _ _ (hstep_inv n) _ _ Hr I0) as I.
  destruct (wp_total _ _ _ (start1_inv n names' rand' c i I Hi Hf))
    as ([] & c' & Hst & _ & (_ & _ & _ & _ & (r' & HM & Er) & _ & _ & _ & Hoff)).
  pose proof (hi_procs _ _ I) as P. exists c', r'. split; [done|]. split.
  { rewrite Er, go_at_insert, decide_True; [done|done|]. rewrite (pr_rafts_len _ P), (hi_n _ _ I). lia. }
  assert (handed_over c i = mkPersister (raftstate (persister r)) []) as Hh.
  { unfold handed_over, last_saved. destruct (pr_alive _ P i r Hraft) as [_ ->]. by rewrite Hraft. }
  rewrite Hh in HM. destruct (Make_spec (seqZ 0 (cfg_n c)) i
    (mkPersister (raftstate (persister r)) []) rand') as (r1 & HM1 & _ & _ & _ & _ & _ & _ & _ & _ & _ & _ & _ & Hst1).
  rewrite HM in HM1. injection HM1 as <-. simpl in Hst1. unfold persist_ok in Hp.
  rewrite Hoff, decide_True by done.
  destruct Hp as [Hp|(Hp & -> & -> & ->)]; rewrite Hp in Hst1; simpl in Hst1; naive_solver.
Qed.

End links.

(** ** A cluster of two *)

Definition demo_names (i j : Z) : string :=
  if i =? 0 then if j =? 0 then "a" else "b" else if j =? 0 then "c" else "d".

Lemma demo_names_distinct : distinct_names 2 demo_names.
Proof.
  intros i j i' j' Hi Hj Hi' Hj'. unfold demo_names. repeat case_test; intros [=]; lia.
Qed.

Definition demo_config : config (V := ()) :=
  match make_config 2 false demo_names (λ _, [3]) with
  | Ok c => c
  | Panic _ => mkCfg (MakeNetwork tt) 0 0 [] [] [] [] [] []
  end.

Definition demo_peer : Raft Z :=
  match go_at (rafts demo_config) 0 with
  | Some (Some r) => r
  | _ => new_Raft [] 0 MakePersister []
  end.

Definition demo_new_names (j : Z) : string := if j =? 0 then "e" else "f".

Lemma demo_fresh : fresh_names demo_config demo_new_names.
Proof.
  assert (cfg_n demo_config = 2) as Hn by (vm_compute; reflexivity).
  assert (ends (cfg_net demo_config) = {[inr "a"; inr "b"; inr "c"; inr "d"]}%string) as He
    by (vm_compute; reflexivity).
  split.
  - rewrite Hn. intros j j' ??. unfold demo_new_names. repeat case_test; intros [=]; lia.
  - intros j _. rewrite He, !elem_of_union, !elem_of_singleton. unfold demo_new_names. case_test; intros H;
      by repeat destruct H as [H|H].
Qed.

Lemma harness_links_witness :
  0 ≤ 2 ∧ distinct_names 2 demo_names ∧
  ∃ c0 : config (V := ()), make_config 2 true demo_names (λ _, []) = Ok c0 ∧ conn c0 1 = true.
Proof.
  split; [done|]. split; [apply demo_names_distinct|].
  destruct (harness_links (V := ()) 2 true demo_names (λ _, []) ltac:(lia) demo_names_distinct)
    as (c0 & H1 & H2 & _).
  exists c0. split; [exact H1|]. apply H2. clear. lia.
Defined.

Lemma harness_restart_witness :
  ∃ c' r', start1 demo_new_names [5] 0 demo_config = Ok (tt, c') ∧
    go_at (rafts c') 0 = Some (Some r') ∧ currentTerm r' = 1 ∧ conn c' 0 = false.
Proof.
  destruct (harness_restart (V := ()) 2 false demo_names (λ _, [3]) demo_config demo_config 0
    demo_peer demo_new_names [5]) as (c' & r' & H1 & H2 & H3 & _ & _ & H4).
  - lia.
  - apply demo_names_distinct.
  - vm_compute. reflexivity.
  - apply rtc_refl.
  - lia.
  - vm_compute. reflexivity.
  - right. vm_compute. split_and!; reflexivity.
  - apply demo_fresh.
  - exists c', r'. split_and!; [exact H1|exact H2| |exact H4]. rewrite H3. vm_compute. reflexivity.
Defined.
