(* ===== verification/HarnessTheorems.v ===== *)
(** * The checks of the Raft test harness hold for the Raft peers

    The checks of RaftHarness.v, run against the clusters of RaftNet.v: the
    readers of [applyCh] never report an error and leave the servers' logs in
    agreement, so that [nCommitted] never finds two values for an index;
    [checkOneLeader] never finds two leaders of a term; [one] returns the
    index of a command that enough servers have applied. *)
From S2P Require Import Prelude GoRt RaftTypes Labrpc RaftNode RaftProto RaftNet RaftSpec RaftSim.
From S2P Require Import RaftSafety RaftTheorems RaftHarness HarnessNet.
Open Scope Z_scope.

(** ** The order in which a server applies *)

Section order.
Context {C : Type} (n : Z) (Hn : 2 ≤ n).
Local Abbreviation ApplyMsg := (RaftTypes.ApplyMsg C).
Implicit Types c : Config C.

(** The messages of [h] for the reader of server [i]. *)
Definition by_server (i : Z) (h : list (Z * ApplyMsg)) : list ApplyMsg :=
  omap (λ p, if p.1 =? i then Some p.2 else None) h.

Lemma elem_of_by_server i h m : m ∈ by_server i h ↔ (i, m) ∈ h.
Proof.
  unfold by_server. rewrite list_elem_of_omap. split.
  - intros ([j m'] & Hin & Heq). simpl in Heq. case_match; boolify; naive_solver.
  - intros Hin. exists (i, m). simpl. by rewrite Z.eqb_refl.
Qed.

Lemma by_server_app i h1 h2 : by_server i (h1 ++ h2) = by_server i h1 ++ by_server i h2.
Proof. apply omap_app. Qed.

Lemma by_server_pairs i j (ms : list ApplyMsg) :
  by_server i (map (pair j) ms) = if j =? i then ms else [].
Proof.
  unfold by_server. induction ms as [|m ms IH]; simpl; [by case_match|].
  change (list_omap _ _ ?f ?l) with (omap f l) in IH |- *. rewrite IH. by case_match.
Qed.

(** Every index but the first comes after its predecessor. *)
Definition in_order (l : list ApplyMsg) : Prop :=
  ∀ l1 m l2, l = l1 ++ m :: l2 →
    Apply_Index m = 1 ∨ ∃ m', m' ∈ l1 ∧ Apply_Index m' = Apply_Index m - 1.

Lemma in_order_prefix l1 l2 : l1 `prefix_of` l2 → in_order l2 → in_order l1.
Proof. intros [k ->] Ho l m l' ->. apply (Ho l m (l' ++ k)). by rewrite <- app_assoc. Qed.

Lemma seqZ_predecessor (l1 : list ApplyMsg) m l2 k :
  map Apply_Index (l1 ++ m :: l2) = seqZ 1 k →
  Apply_Index m = 1 ∨ ∃ m', m' ∈ l1 ∧ Apply_Index m' = Apply_Index m - 1.
Proof.
  intros Heq. assert (∀ x m', (l1 ++ m :: l2) !! x = Some m' → Apply_Index m' = 1 + Z.of_nat x) as Hidx.
  { intros x m' Hx. assert (seqZ 1 k !! x = Some (Apply_Index m')) as Hs.
    { rewrite <- Heq. by rewrite list_lookup_fmap, Hx. }
    by apply lookup_seqZ in Hs as [-> _]. }
  pose proof (Hidx (length l1) m (list_lookup_middle _ _ _ _ eq_refl)) as Hm.
  destruct (length l1) as [|x] eqn:Hlen; [left; lia|right].
  destruct (lookup_lt_is_Some_2 l1 x ltac:(lia)) as [m' Hm']. exists m'.
  split; [by eapply list_elem_of_lookup_2|]. rewrite Hm, (Hidx x m'); [lia|]. by apply lookup_app_l_Some.
Qed.

Lemma in_order_app h ms (l : list ApplyMsg) k :
  in_order h → (∀ m, m ∈ l → m ∈ h) → map Apply_Index (l ++ ms) = seqZ 1 k → in_order (h ++ ms).
Proof.
  intros Ho Hl Heq l1 m l2 Hsplit. apply app_eq_app in Hsplit as [k1 [[-> Hr]|[-> Hr]]].
  - destruct k1 as [|x k1]; simpl in Hr; [|injection Hr as <- ->; by eapply Ho].
    subst ms. rewrite app_nil_r in Hl. apply seqZ_predecessor in Heq as [?|(m' & ? & ?)]; [by left|right]. eauto.
  - subst ms. rewrite app_assoc in Heq.
    apply seqZ_predecessor in Heq as [?|(m' & [?|?]%elem_of_app & ?)]; [by left|right..];
      exists m'; rewrite elem_of_app; auto.
Qed.

(** What one step adds to the messages sent. *)
Lemma net_exec_history a c c' :
  net_exec n a c = Some c' →
  (applied c' = applied c ∧ history c' = history c) ∨
  (∃ i ms, 0 ≤ i < n ∧ applied c' = <[i := applied c i ++ ms]> (applied c) ∧
     history c' = history c ++ map (pair i) ms) ∨
  (∃ i, applied c' = <[i := []]> (applied c) ∧ history c' = history c).
Proof.
  destruct a; cbn [net_exec]; unfold valid_id, set_server; intros H; repeat case_match; boolify;
    try discriminate H; injection H as <-; cbn [applied history]; eauto 10.
Qed.

Record ordered c : Prop := mkOrdered {
  or_order i : in_order (by_server i (history c));
  or_applied i m : m ∈ applied c i → (i, m) ∈ history c;
  or_range i m : (i, m) ∈ history c → 0 ≤ i < n;
}.

Lemma net_step_ordered s' c c' : net_step n c c' → NetInv n s' c' → ordered c → ordered c'.
Proof.
  intros [_ [a H]] G [Ho Ha Hr].
  destruct (net_exec_history _ _ _ H) as [[Ea Eh]|[(i & ms & Hi & Ea & Eh)|(i & Ea & Eh)]].
  - split; rewrite ?Ea, ?Eh; auto.
  - pose proof (applied_indices n s' c' i G Hi) as Hidx.
    rewrite Ea, fn_lookup_insert in Hidx. split; rewrite Eh.
    + intros j. rewrite by_server_app, by_server_pairs. case_match; boolify; [|by rewrite app_nil_r].
      subst j. eapply in_order_app; [apply Ho| |exact Hidx].
      intros m Hm. by apply elem_of_by_server, Ha.
    + intros j m. rewrite Ea, elem_of_app, list_elem_of_fmap. destruct (decide (j = i)) as [->|].
      * rewrite fn_lookup_insert, elem_of_app. intros [?|?]; [left; auto|right; eauto].
      * rewrite fn_lookup_insert_ne by done. auto.
    + intros j m [?|(? & [= -> ->] & _)%list_elem_of_fmap]%elem_of_app; eauto.
  - split; rewrite Eh; auto. intros j m. rewrite Ea. destruct (decide (j = i)) as [->|].
    + rewrite fn_lookup_insert. by intros ?%not_elem_of_nil.
    + rewrite fn_lookup_insert_ne by done. auto.
Qed.

Lemma reachable_step c1 c2 : reachable n c1 → net_step n c1 c2 → reachable n c2.
Proof. intros (c0 & Hi & Hr) Hs. exists c0. split; [done|]. by eapply rtc_r. Qed.

Lemma reachable_ordered c : reachable n c → ordered c.
Proof.
  intros (c0 & Hi & Hr). assert (reachable n c0 ∧ ordered c0) as H0.
  { split; [exists c0; split; [done|apply rtc_refl]|]. destruct Hi as (_ & _ & Ha & Hh).
    split; rewrite ?Hh; [by intros i l1 m l2 ?%app_cons_not_nil|..].
    - intros i m. rewrite Ha. by intros ?%not_elem_of_nil.
    - intros i m ?%not_elem_of_nil. done. }
  apply (rtc_keeps (net_step n) (λ c, reachable n c ∧ ordered c)) in Hr; [by destruct Hr| |done].
  intros c1 c2 Hs [Hr1 Ho1]. pose proof (reachable_step _ _ Hr1 Hs) as Hr2.
  destruct (reachable_inv n Hn c2 Hr2) as (s & _ & G). split; [done|by eapply net_step_ordered].
Qed.

End order.

(** ** The readers of [applyCh] *)

Section appliers.
Context {V : Type} (n : Z) (Hn : 2 ≤ n).
Local Abbreviation config := (RaftHarness.config (V := V)).
Local Abbreviation ApplyMsg := (RaftTypes.ApplyMsg Z).
Implicit Types cfg : config.

(** The logs of [cfg] hold the commands of the messages [h]. *)
Definition logs_hold (h : list (Z * ApplyMsg)) cfg : Prop :=
  go_len (logs cfg) = n ∧
  ∀ i, 0 ≤ i < n → ∃ l, go_at (logs cfg) i = Some (Some l) ∧
    ∀ k v, l !! k = Some v ↔ ∃ m, (i, m) ∈ h ∧ Apply_Index m = k ∧ Apply_Command m = Some v.

(** No two messages give different commands for an index. *)
Definition agreed (h : list (Z * ApplyMsg)) : Prop :=
  ∀ i j m1 m2, (i, m1) ∈ h → (j, m2) ∈ h →
    Apply_Index m1 = Apply_Index m2 → Apply_Command m1 = Apply_Command m2.

Lemma logs_hold_at h cfg l :
  logs_hold h cfg → l ∈ logs cfg → ∃ i, 0 ≤ i < n ∧ go_at (logs cfg) i = Some l.
Proof.
  intros [Hlen _] [x Hx]%list_elem_of_lookup_1. exists (Z.of_nat x).
  pose proof (lookup_lt_Some _ _ _ Hx). unfold go_len in Hlen. split; [lia|].
  apply go_at_Some. rewrite Nat2Z.id. split; [lia|done].
Qed.

Lemma no_logs_hold cfg : no_logs n cfg → logs_hold [] cfg.
Proof.
  intros (Hlen & Hl & _). split; [done|]. intros i Hi. exists ∅. split; [by apply Hl|]. intros k v.
  rewrite lookup_empty. split; [done|]. by intros (m & ?%not_elem_of_nil & _).
Qed.

Lemma mismatch_none i index v (ls : list (option (gmap Z Z))) :
  (∀ l old, l ∈ ls → log_get l index = Some old → old = v) → mismatch i index v ls = None.
Proof.
  intros H. unfold mismatch.
  assert (∀ p, p ∈ imap pair ls → ∀ old, log_get p.2 index = Some old → old = v) as Hp.
  { intros [j l] (x & ? & -> & Hx)%elem_of_lookup_imap_1 old. simpl.
    apply H. by eapply list_elem_of_lookup_2. }
  clear H. induction (imap pair ls) as [|[j l] ps IH]; [done|]. simpl.
  destruct (log_get l index) as [old|] eqn:Hg; [|apply IH; set_solver].
  rewrite (Hp (j, l) ltac:(left) old Hg), Z.eqb_refl. simpl. apply IH. set_solver.
Qed.

Lemma applier_accepts h i m v cfg :
  logs_hold h cfg → agreed (h ++ [(i, m)]) → 0 ≤ i < n → Apply_Command m = Some v →
  (∀ m', (i, m') ∈ h → is_Some (Apply_Command m')) →
  (Apply_Index m = 1 ∨ ∃ m', (i, m') ∈ h ∧ Apply_Index m' = Apply_Index m - 1) →
  wp (λ _, False) (applier i m) (λ _ cfg', logs_hold (h ++ [(i, m)]) cfg' ∧
    ∃ l, cfg' = set_logs l cfg) cfg.
Proof.
  intros HL Hag Hi Hv Hsome Hprev. pose proof HL as [Hlen Hat]. destruct (Hat i Hi) as (l & Hl & Hlv).
  unfold applier. rewrite Hv. wp_step. wp_step. wp_step. rewrite mismatch_none.
  2:{ intros o old Ho Hold. destruct (logs_hold_at _ _ _ HL Ho) as (j & Hj & Hoj).
      destruct (Hat j Hj) as (l' & Hl' & Hlv'). rewrite Hl' in Hoj. injection Hoj as <-.
      apply Hlv' in Hold as (m' & Hin & Hix & Hc).
      assert (Apply_Command m' = Apply_Command m); [|congruence].
      eapply (Hag j i); [set_solver..|done]. }
  wp_step. eapply wp_at_field; [exact Hl|]. wp_step. eapply wp_must; [done|].
  wp_step. apply wp_assign; [lia|]. wp_step.
  assert ((1 <? Apply_Index m) &&
    negb (bool_decide (is_Some (log_get (Some l) (Apply_Index m - 1)))) = false) as ->.
  { destruct Hprev as [->|(m' & Hin & Hix)]; [done|]. apply andb_false_iff. right.
    apply negb_false_iff, bool_decide_eq_true. destruct (Hsome m' Hin) as [v' Hv'].
    exists v'. apply Hlv. eauto. }
  cbn beta iota. wp_step. split; [|by eexists]. split; [simpl; by rewrite go_len_insert|].
  intros j Hj. simpl. rewrite go_at_insert by lia. case_decide as Hji.
  - subst j. eexists. split; [done|]. intros k v'. rewrite lookup_insert_Some, Hlv. split.
    + intros [[<- <-]|(? & m' & ? & ? & ?)]; [exists m; set_solver|exists m'; set_solver].
    + intros (m' & [Hin|Hin%list_elem_of_singleton]%elem_of_app & Hix & Hc).
      * destruct (decide (Apply_Index m = k)) as [Hk|]; [left|right; eauto].
        split; [done|]. assert (Apply_Command m = Apply_Command m'); [|congruence].
        eapply (Hag i i); [set_solver..|congruence].
      * injection Hin as ->. left. split; congruence.
  - destruct (Hat j Hj) as (l' & Hl' & Hlv'). exists l'. split; [done|]. intros k v'.
    rewrite Hlv'. split; intros (m' & Hin & ?); exists m'; split; [set_solver|done| |done].
    apply elem_of_app in Hin as [?|Hin%list_elem_of_singleton]; [done|]. congruence.
Qed.

(** [h] is an order in which the readers may take the messages [h'] the servers send:
    each of them takes those of its server in order. *)
Definition taken (h h' : list (Z * ApplyMsg)) : Prop :=
  ∀ i, by_server i h `prefix_of` by_server i h'.

Lemma taken_elem h h' i m : taken h h' → (i, m) ∈ h → (i, m) ∈ h'.
Proof.
  intros Ht. rewrite <- !elem_of_by_server. destruct (Ht i) as [k ->]. set_solver.
Qed.

Lemma appliers_accept h' :
  agreed h' → (∀ i, in_order (by_server i h')) → (∀ i m, (i, m) ∈ h' → 0 ≤ i < n) →
  (∀ i m, (i, m) ∈ h' → is_Some (Apply_Command m)) →
  ∀ h2 h1 cfg, taken (h1 ++ h2) h' → logs_hold h1 cfg →
  wp (λ _, False) (appliers h2) (λ _ cfg', logs_hold (h1 ++ h2) cfg' ∧
    ∃ l, cfg' = set_logs l cfg) cfg.
Proof.
  intros Hag Hord Hrange Hsome h2. unfold appliers.
  induction h2 as [|[i m] h2 IH]; intros h1 cfg Ht HL; simpl.
  { wp_step. rewrite app_nil_r. split; [done|]. exists (logs cfg). by destruct cfg. }
  assert (∀ p, p ∈ h1 ++ (i, m) :: h2 → p ∈ h') as Hin by (intros []; by apply taken_elem).
  assert ((i, m) ∈ h') as Him by (apply Hin; set_solver).
  destruct (Hsome i m Him) as [v Hv].
  wp_step. eapply wp_mono.
  - apply (applier_accepts h1 i m v); [done| |eauto|done|..].
    + intros j k m1 m2 ??. apply (Hag j k); apply Hin; set_solver.
    + intros m' ?. apply (Hsome i), Hin. set_solver.
    + pose proof (in_order_prefix _ _ (Ht i) (Hord i)) as Ho.
      rewrite by_server_app in Ho. unfold by_server in Ho at 2. simpl in Ho.
      rewrite Z.eqb_refl in Ho. destruct (Ho _ _ _ eq_refl) as [?|(m' & Hm' & ?)]; [by left|right].
      exists m'. by rewrite <- elem_of_by_server.
  - intros _ cfg' [HL' [l ->]]. rewrite cons_middle, app_assoc in Ht |- *.
    eapply wp_mono; [by apply IH|]. intros _ cfg' [? [l' ->]]. split; [done|by exists l'].
Qed.

Lemma reachable_agreed c : reachable n c → agreed (history c).
Proof.
  intros (s & _ & G)%reachable_inv i j m1 m2 H1 H2 Heq; [|done]. f_equal.
  pose proof (gi_history _ _ _ G) as Hh. rewrite Forall_forall in Hh.
  eapply (chosen_unique n Hn s); [apply G|by apply Hh in H1|by apply Hh in H2|done].
Qed.

(** ** [nCommitted] *)

(** The servers among [ids] whose log has the index. *)
Definition holders (h : list (Z * ApplyMsg)) (index : Z) (ids : list Z) : list Z :=
  filter (λ i, existsb (λ p, (p.1 =? i) && (Apply_Index p.2 =? index)) h = true) ids.

Lemma holder_spec (h : list (Z * ApplyMsg)) index i :
  existsb (λ p, (p.1 =? i) && (Apply_Index p.2 =? index)) h = true ↔
  ∃ m, (i, m) ∈ h ∧ Apply_Index m = index.
Proof.
  rewrite existsb_exists. split.
  - intros ([j m] & Hin%list_elem_of_In & Hb). boolify. simpl in *. subst. eauto.
  - intros (m & Hin & Hix). exists (i, m). split; [by apply list_elem_of_In|]. simpl.
    by rewrite Z.eqb_refl, Hix, Z.eqb_refl.
Qed.

(** [cmd] is what somebody has applied for the index, once anybody has been counted. *)
Definition counted (h : list (Z * ApplyMsg)) (index count cmd : Z) : Prop :=
  0 ≤ count ∧ (0 < count → ∃ i m, (i, m) ∈ h ∧ Apply_Index m = index ∧ Apply_Command m = Some cmd).

Lemma committed_loop_counts h cfg index ids count cmd :
  logs_hold h cfg → agreed h → (∀ i m, (i, m) ∈ h → is_Some (Apply_Command m)) →
  (∀ i, i ∈ ids → 0 ≤ i < n ∧ go_at (applyErr cfg) i = Some EmptyString) →
  counted h index count cmd →
  ∃ cmd', let count' := count + go_len (holders h index ids) in
    committed_loop ids index count cmd cfg = Ok ((count', cmd'), cfg) ∧ counted h index count' cmd'.
Proof.
  intros HL Hag Hsome. revert count cmd. induction ids as [|i ids IH]; intros count cmd Hids Hcnt.
  { exists cmd. unfold go_len. simpl. by rewrite Z.add_0_r. }
  destruct (Hids i ltac:(left)) as [Hi Herr]. pose proof HL as [_ Hat].
  destruct (Hat i Hi) as (l & Hl & Hlv). cbn [committed_loop].
  unfold bind. rewrite (at_field_ok _ _ _ _ Herr). rewrite bool_decide_true by done. cbn [negb].
  rewrite (at_field_ok _ _ _ _ Hl). cbn beta iota.
  unfold holders. simpl (log_get _ _). destruct (l !! index) as [cmd1|] eqn:Hix.
  - apply Hlv in Hix as (m & Hin & Hm & Hc).
    assert ((0 <? count) && negb (cmd =? cmd1) = false) as ->.
    { destruct (0 <? count) eqn:Hpos; [|done]. boolify.
      destruct (proj2 Hcnt Hpos) as (j & m' & ? & ? & Hc').
      assert (Apply_Command m = Apply_Command m') by (apply (Hag i j); congruence).
      replace cmd1 with cmd by congruence. simpl. by rewrite Z.eqb_refl. }
    rewrite filter_cons_True by (apply holder_spec; eauto).
    destruct (IH (count + 1) cmd1) as (cmd' & Hrun & Hall); [set_solver| |].
    { destruct Hcnt. split; [lia|eauto]. }
    exists cmd'. rewrite Hrun. unfold holders, go_len in *. cbn [length].
    rewrite Nat2Z.inj_succ, <- Z.add_succ_comm. done.
  - rewrite filter_cons_False; [apply IH; [set_solver|done]|].
    rewrite holder_spec. intros (m & Hin & Hm). destruct (Hsome i m Hin) as [v Hv].
    assert (l !! index = Some v); [apply Hlv; eauto|congruence].
Qed.

(** The readers of [applyCh] accept every run of a cluster whose
    commands are integers, as the tests' are.  In whatever order the
    messages of the servers of a reachable cluster are taken, as long as those of one server
    stay in order, none of the checks of the readers fails; afterwards [nCommitted] counts the
    servers that have applied the index and returns the one command they have applied. *)
Theorem harness_accepts_raft c h cfg unreliable names rand :
  distinct_names n names → make_config n unreliable names rand = Ok cfg →
  reachable n c → (∀ i m, (i, m) ∈ history c → is_Some (Apply_Command m)) →
  taken h (history c) →
  ∃ cfg', appliers h cfg = Ok (tt, cfg') ∧ ∀ index, ∃ count cmd,
    nCommitted index cfg' = Ok ((count, cmd), cfg') ∧
    count = go_len (holders h index (seqZ 0 n)) ∧
    (0 < count → ∀ i m, (i, m) ∈ h → Apply_Index m = index → Apply_Command m = Some cmd).
Proof.
  intros Hd Hmk Hr Hsome Ht.
  destruct (make_config_attached (V := V) n ltac:(lia) names rand Hd unreliable)
    as (cfg0 & Hmk' & I & _ & (Hlen & Hl & Herr) & _).
  rewrite Hmk in Hmk'. injection Hmk' as <-.
  destruct (reachable_ordered n Hn c Hr) as [Hord _ Hrange].
  pose proof (reachable_agreed c Hr) as Hag.
  pose proof (no_logs_hold cfg (conj Hlen (conj Hl Herr))) as H0.
  destruct (wp_total _ _ _ (appliers_accept (history c) Hag Hord Hrange Hsome h [] cfg Ht H0))
    as ([] & cfg' & Hrun & HL & l & ->).
  exists (set_logs l cfg). split; [done|]. intros index.
  assert (agreed h) as Hagh by (intros i j m1 m2 ??; apply (Hag i j); by eapply taken_elem).
  destruct (committed_loop_counts h (set_logs l cfg) index (seqZ 0 n) 0 (-1))
    as (cmd & Hloop & Hcnt); [exact HL|done|..].
  { intros i m ?. apply (Hsome i). by eapply taken_elem. }
  { intros i Hi%elem_of_seqZ. split; [lia|]. simpl. rewrite Herr, go_at_make by lia.
    by rewrite decide_True by lia. }
  { split; lia. }
  eexists _, cmd. split; [|split; [done|]].
  - unfold nCommitted, bind, get, go_range.
    change (rafts (set_logs l cfg)) with (rafts cfg).
    rewrite (pr_rafts_len _ (hi_procs _ _ I)), (hi_n _ _ I). exact Hloop.
  - intros Hpos i m Hin Hm. destruct (proj2 Hcnt Hpos) as (j & m' & ? & ? & <-).
    apply (Hagh i j); congruence.
Qed.

End appliers.

(** ** Looking for a leader *)

Section leaders.
Context (n : Z) (Hn : 2 ≤ n).
Implicit Types c : Config Z.

(** Leaders of one term seen at different times of a run are the same server. *)
Lemma leader_along c c' i j :
  reachable n c → rtc (net_step n) c c' → 0 ≤ i < n → 0 ≤ j < n →
  state (servers c i) = StateLeader → state (servers c' j) = StateLeader →
  currentTerm (servers c i) = currentTerm (servers c' j) → i = j.
Proof.
  intros (s & _ & G)%reachable_inv Hr Hi Hj H1 H2 Heq; [|done].
  destruct (run_sim n Hn s c c' G Hr) as (s' & G' & _ & _ & Hle).
  pose proof (leader_log n s c i G Hi H1) as L1. pose proof (leader_log n s' c' j G' Hj H2) as L2.
  destruct (Hle _ _ _ L1) as (suf & L1' & _). rewrite Heq, L2 in L1'. congruence.
Qed.

Lemma leader_term_pos c i : reachable n c → 0 ≤ i < n → 1 ≤ currentTerm (servers c i).
Proof.
  intros (s & _ & G)%reachable_inv Hi; [|done].
  rewrite <- (ni_term _ _ _ _ (gi_node _ _ _ G i Hi)). apply (ai_term_pos _ _ (gi_abs _ _ _ G)).
Qed.

(** *** One pass over the servers *)

Section pass.
Context (conn : list bool) (Hconn : go_len conn = n) (look : Z → Raft Z).

(** Server [i] is attached and answers that it is the leader of term [t]. *)
Definition claims (t i : Z) : Prop :=
  go_at conn i = Some true ∧ GetState (look i) = (t, true).

#[local] Instance claims_dec t i : Decision (claims t i).
Proof. unfold claims. apply _. Defined.

Definition claimants (t : Z) (ids : list Z) : list Z := filter (λ i, claims t i) ids.

(** [leaders] of the code: a term nobody claims is not in the map. *)
Definition leaders_map (ids : list Z) (ls : gmap Z (list Z)) : Prop :=
  ∀ t, ls !! t = match claimants t ids with [] => None | l => Some l end.

Lemma leaders_of_map rest done ls :
  leaders_map done ls → Forall (λ i, 0 ≤ i < n) rest →
  ∃ ls', leaders_of rest conn (λ i, Some (look i)) ls = Ok ls' ∧ leaders_map (done ++ rest) ls'.
Proof.
  revert done ls. induction rest as [|i rest IH]; intros done ls Hm Hr.
  { exists ls. by rewrite app_nil_r. }
  apply Forall_cons in Hr as [Hi Hr]. rewrite cons_middle, app_assoc. cbn [leaders_of].
  assert (∀ t, claimants t (done ++ [i]) = claimants t done ++ if decide (claims t i) then [i] else [])
    as Happ by (intros t; unfold claimants; by rewrite filter_app).
  destruct (go_at_is_Some conn i ltac:(lia)) as [[] Hc]; rewrite Hc; last first.
  { apply IH; [|done]. intros t. rewrite Happ, decide_False, app_nil_r by (intros [??]; congruence).
    apply Hm. }
  unfold leaders_add. destruct (GetState (look i)) as [t0 []] eqn:Hg; last first.
  { apply IH; [|done]. intros t. rewrite Happ, decide_False, app_nil_r by (intros [??]; congruence).
    apply Hm. }
  apply IH; [|done]. intros t. rewrite Happ. destruct (decide (t = t0)) as [->|].
  - rewrite lookup_insert_eq, decide_True by done. rewrite (Hm t0).
    by destruct (claimants t0 done).
  - rewrite lookup_insert_ne, decide_False, app_nil_r by (try done; intros [??]; congruence). apply Hm.
Qed.

Lemma last_term_max ls t0 :
  Forall (λ p, go_len p.2 ≤ 1) ls →
  ∃ t, last_term ls t0 = Ok t ∧ t0 ≤ t ∧ (t = t0 ∨ t ∈ ls.*1) ∧ ∀ t', t' ∈ ls.*1 → t' ≤ t.
Proof.
  revert t0. induction ls as [|[t l] ls IH]; intros t0 Hl.
  { exists t0. split_and!; [done|lia|by left|]. by intros t' ?%not_elem_of_nil. }
  apply Forall_cons in Hl as [Hl Hls]. simpl in *. case_test; [lia|].
  destruct (IH (if t0 <? t then t else t0) Hls) as (t' & Hrun & Hle & Hin & Hmax).
  exists t'. split; [done|]. case_match; boolify; (split_and!; [lia|set_solver|]);
    intros t2 [->|]%elem_of_cons; auto; lia.
Qed.

Context (Huniq : ∀ t i j, 0 ≤ i < n → 0 ≤ j < n → claims t i → claims t j → i = j).
Context (Hpos : ∀ t i, 0 ≤ i < n → claims t i → 0 ≤ t).

Lemma claimants_short t : go_len (claimants t (seqZ 0 n)) ≤ 1.
Proof.
  assert (NoDup (claimants t (seqZ 0 n))) as Hnd by apply NoDup_filter, NoDup_seqZ.
  destruct (claimants t (seqZ 0 n)) as [|i [|j l]] eqn:E; [done|done|]. exfalso.
  assert (∀ x, x ∈ i :: j :: l → claims t x ∧ 0 ≤ x < n) as Hin.
  { intros x. rewrite <- E. unfold claimants. rewrite list_elem_of_filter, elem_of_seqZ. split; [tauto|lia]. }
  apply NoDup_cons in Hnd as [Hni _]. apply Hni.
  destruct (Hin i ltac:(left)), (Hin j ltac:(right; left)).
  rewrite (Huniq t i j) by done. left.
Qed.

(** What [look_for_leader] returns: a leader of the highest term in which anybody leads. *)
Lemma look_for_leader_spec :
  ∃ o, look_for_leader n conn (λ i, Some (look i)) = Ok o ∧
    match o with
    | Some l => 0 ≤ l < n ∧ ∃ t, claims t l ∧ ∀ t' j, 0 ≤ j < n → claims t' j → t' ≤ t
    | None => ∀ t j, 0 ≤ j < n → ¬ claims t j
    end.
Proof.
  unfold look_for_leader.
  destruct (leaders_of_map (seqZ 0 n) [] ∅) as (ls & -> & Hm).
  { intros t. by rewrite lookup_empty. }
  { apply Forall_forall. intros i Hi%elem_of_seqZ. lia. }
  simpl in Hm. destruct (last_term_max (map_to_list ls) (-1)) as (t & -> & _ & Hin & Hmax).
  { apply Forall_forall. intros [t l] Hl%elem_of_map_to_list. simpl.
    rewrite Hm in Hl. pose proof (claimants_short t). by destruct (claimants t _); simplify_eq. }
  assert (∀ t' j, 0 ≤ j < n → claims t' j → t' ∈ (map_to_list ls).*1 ∧ ls ≠ ∅) as Hseen.
  { intros t' j Hj Hc. assert (j ∈ claimants t' (seqZ 0 n)) as Hjc.
    { apply list_elem_of_filter. rewrite elem_of_seqZ. split; [done|lia]. }
    pose proof (Hm t') as Ht'. destruct (claimants t' _) as [|x l]; [by apply not_elem_of_nil in Hjc|].
    split; [|by intros ->]. apply list_elem_of_fmap. exists (t', x :: l).
    by rewrite elem_of_map_to_list. }
  case_decide as Hls.
  { exists None. split; [done|]. intros t' j Hj Hc. by destruct (Hseen t' j Hj Hc). }
  assert (∃ x l, claimants t (seqZ 0 n) = x :: l) as (x & l & Hcl).
  { destruct (map_choose ls Hls) as (t' & l' & Hl').
    assert (t' ∈ (map_to_list ls).*1) as Ht'.
    { apply list_elem_of_fmap. exists (t', l'). by rewrite elem_of_map_to_list. }
    assert (t ∈ (map_to_list ls).*1) as Htin.
    { destruct Hin as [->|?]; [|done]. rewrite Hm in Hl'.
      destruct (claimants t' _) as [|x l] eqn:E; [done|].
      assert (x ∈ claimants t' (seqZ 0 n)) as [Hc ?%elem_of_seqZ]%list_elem_of_filter
        by (rewrite E; left).
      apply Hpos in Hc; [|lia]. apply Hmax in Ht'. lia. }
    apply list_elem_of_fmap in Htin as ([t2 l2] & -> & Hl2%elem_of_map_to_list). simpl.
    rewrite Hm in Hl2. destruct (claimants t2 _); [done|eauto]. }
  rewrite (Hm t), Hcl. exists (Some x). split; [done|].
  assert (x ∈ claimants t (seqZ 0 n)) as [Hc ?%elem_of_seqZ]%list_elem_of_filter by (rewrite Hcl; left).
  split; [lia|]. exists t. split; [done|]. intros t' j Hj Hc'. apply Hmax. by eapply Hseen.
Qed.

End pass.

(** [checkOneLeader] never finds two leaders of one term, although it asks the servers one
    after the other while the cluster runs.  [seen k i] is the cluster when iteration [k] asks
    server [i], whose [GetState] reads term and state at once.  The server returned is attached, and leads in the highest term in which an
    attached server leads; the only failure is that no attached server ever was a leader. *)
Theorem check_one_leader conn (seen : Z → Z → Config Z) :
  go_len conn = n →
  (∀ k, 0 ≤ k < 10 → reachable n (seen k 0) ∧
     ∀ i j, 0 ≤ i ≤ j ∧ j < n → rtc (net_step n) (seen k i) (seen k j)) →
  match checkOneLeader n conn (λ k i, Some (servers (seen k i) i)) with
  | Ok l => 0 ≤ l < n ∧ ∃ k t, 0 ≤ k < 10 ∧ claims conn (λ i, servers (seen k i) i) t l ∧
      ∀ t' j, 0 ≤ j < n → claims conn (λ i, servers (seen k i) i) t' j → t' ≤ t
  | Panic w => w = no_leader ∧
      ∀ k t i, 0 ≤ k < 10 → 0 ≤ i < n → ¬ claims conn (λ i, servers (seen k i) i) t i
  end.
Proof.
  intros Hconn Hseen. unfold checkOneLeader.
  assert (∀ k, 0 ≤ k < 10 → ∀ i, 0 ≤ i < n → reachable n (seen k i)) as Hreach.
  { intros k Hk i Hi. destruct (Hseen k Hk) as [(c0 & ? & ?) Hrun]. exists c0. split; [done|].
    etrans; [done|]. apply Hrun. lia. }
  assert (∀ iters, Forall (λ k, 0 ≤ k < 10) iters →
    match leader_loop iters n conn (λ k i, Some (servers (seen k i) i)) with
    | Ok l => 0 ≤ l < n ∧ ∃ k t, 0 ≤ k < 10 ∧ claims conn (λ i, servers (seen k i) i) t l ∧
        ∀ t' j, 0 ≤ j < n → claims conn (λ i, servers (seen k i) i) t' j → t' ≤ t
    | Panic w => w = no_leader ∧
        ∀ k t i, k ∈ iters → 0 ≤ i < n → ¬ claims conn (λ i, servers (seen k i) i) t i
    end) as Hloop.
  { induction iters as [|k iters IH]; intros Hk; simpl.
    { split; [done|]. by intros ??? ?%not_elem_of_nil. }
    apply Forall_cons in Hk as [Hk Hks].
    destruct (look_for_leader_spec conn Hconn (λ i, servers (seen k i) i)) as (o & -> & Ho).
    - intros t i j Hi Hj [_ [= H1 H2%bool_decide_eq_true]] [_ [= H3 H4%bool_decide_eq_true]].
      destruct (decide (i ≤ j)).
      + eapply (leader_along (seen k i) (seen k j)); eauto; [|congruence]. apply Hseen; lia.
      + symmetry. eapply (leader_along (seen k j) (seen k i)); eauto; [|congruence].
        apply Hseen; lia.
    - intros t i Hi [_ [= <- _]]. pose proof (leader_term_pos (seen k i) i (Hreach k Hk i Hi) Hi). lia.
    - destruct o as [l|]; [destruct Ho as (? & t & ? & ?); eauto 10|].
      specialize (IH Hks). destruct (leader_loop _ _ _ _) as [l|w]; [done|].
      destruct IH as [-> IH]. split; [done|]. intros k' t i [->|]%elem_of_cons; eauto. }
  specialize (Hloop (seqZ 0 10) ltac:(apply Forall_forall; intros k ?%elem_of_seqZ; lia)).
  destruct (leader_loop _ _ _ _); [done|]. destruct Hloop as [-> Hno]. split; [done|].
  intros k t i Hk. apply Hno, elem_of_seqZ. lia.
Qed.

End leaders.

(** ** [one] *)

Section one.
Context {V : Type}.
Local Abbreviation config := (RaftHarness.config (V := V)).
Implicit Types cfg : config.

(** What server [i] has applied for the index. *)
Definition applied_at cfg (index i : Z) : option Z :=
  match go_at (logs cfg) i with Some l => log_get l index | None => None end.

(** The servers that have applied something for the index. *)
Definition appliers_of cfg (index : Z) (ids : list Z) : list Z :=
  filter (λ i, is_Some (applied_at cfg index i)) ids.

Lemma committed_loop_ok cfg index ids count cmd count' cmd' cfg' :
  committed_loop ids index count cmd cfg = Ok ((count', cmd'), cfg') → 0 ≤ count →
  cfg' = cfg ∧ count' = count + go_len (appliers_of cfg index ids) ∧
  (0 < count → cmd' = cmd) ∧
  ∀ i v, i ∈ ids → applied_at cfg index i = Some v → v = cmd'.
Proof.
  revert count cmd. induction ids as [|i ids IH]; intros count cmd.
  { intros [= <- <- <-] _. split_and!; [done|unfold go_len; simpl; lia|done|].
    by intros ?? ?%not_elem_of_nil. }
  cbn [committed_loop]. unfold bind at 1, at_field at 1, bind at 1, get at 1.
  destruct (go_at (applyErr cfg) i) as [e|]; [|done]. cbn [must ret]. case_test; [done|].
  unfold bind, at_field, bind, get. destruct (go_at (logs cfg) i) as [l|] eqn:Hl; [|done].
  cbn [must ret]. assert (applied_at cfg index i = log_get l index) as Hat.
  { unfold applied_at. by rewrite Hl. }
  unfold appliers_of. destruct (log_get l index) as [cmd1|] eqn:Hg.
  - case_test; [done|]. intros Hrun Hpos. apply IH in Hrun as (-> & -> & Hcmd & Hall); [|lia].
    rewrite Hcmd in * by lia. rewrite filter_cons_True by (rewrite Hat; eauto).
    split_and!; [done|unfold go_len, appliers_of; simpl; lia|..].
    + intros Hc. match goal with H : _ ∨ _ |- _ => destruct H end; boolify; lia.
    + intros j v [->|]%elem_of_cons; [congruence|eauto].
  - intros Hrun Hpos. apply IH in Hrun as (-> & -> & Hcmd & Hall); [|done].
    rewrite filter_cons_False by (rewrite Hat; by intros [??]). split_and!; try done.
    intros j v [->|]%elem_of_cons; [congruence|eauto].
Qed.

Lemma nCommitted_ok cfg index count cmd cfg' :
  nCommitted index cfg = Ok ((count, cmd), cfg') →
  cfg' = cfg ∧ count = go_len (appliers_of cfg index (go_range (rafts cfg))) ∧
  ∀ i v, i ∈ go_range (rafts cfg) → applied_at cfg index i = Some v → v = cmd.
Proof. intros (-> & -> & _ & ?)%committed_loop_ok; [|done]. done. Qed.

(** The servers of [cfg] that have applied [cmd] for the index, and no other command. *)
Definition agreement cfg (index cmd expectedServers : Z) : Prop :=
  let l := appliers_of cfg index (go_range (rafts cfg)) in
  l ≠ [] ∧ expectedServers ≤ go_len l ∧ ∀ i, i ∈ l → applied_at cfg index i = Some cmd.

Lemma poll_agrees sleeps index cmd expectedServers cfg cfg' :
  poll sleeps index cmd expectedServers cfg = Ok (true, cfg') →
  agreement cfg' index cmd expectedServers.
Proof.
  revert cfg. induction sleeps as [|f sleeps IH]; intros cfg; [done|]. cbn [poll].
  unfold bind at 1. destruct (nCommitted index cfg) as [[[nd cmd1] cfg1]|] eqn:Hn; [|done].
  apply nCommitted_ok in Hn as (-> & -> & Hall). case_test.
  - intros [= <-]. boolify. subst cmd1. split_and!; [|done|].
    + intros Hnil. unfold go_len in *. rewrite Hnil in *. simpl in *. lia.
    + intros i [[v Hv] Hi]%list_elem_of_filter. by rewrite Hv, (Hall i v).
  - apply IH.
Qed.

(** When [one] returns an index, at least [expectedServers] servers have applied the command
    for it, and no server has applied another command there: whatever leaders accepted the
    command in earlier rounds, and whatever the cluster did meanwhile. *)
Theorem one_agreement rounds cmd expectedServers cfg index cfg' :
  one rounds cmd expectedServers cfg = Ok (index, cfg') →
  agreement cfg' index cmd expectedServers.
Proof.
  unfold one. generalize 0. revert cfg. induction rounds as [|[f sleeps] rounds IH]; intros cfg starts; [done|].
  cbn [one_loop]. unfold bind at 1, get at 1. unfold bind at 1.
  destruct (start_any _ _ _ _) as [[[ix starts'] cfg1]|]; [|done]. case_test.
  - unfold bind at 1. destruct (poll sleeps ix cmd expectedServers cfg1) as [[[] cfg2]|] eqn:Hp;
      [|apply IH|done].
    intros [= -> ->]. by eapply poll_agrees.
  - apply IH.
Qed.

End one.

(** ** A cluster of three *)

Definition trio_names (i j : Z) : string :=
  String (Ascii.ascii_of_nat (Z.to_nat (3 * i + j))) EmptyString.

Lemma trio_names_distinct : distinct_names 3 trio_names.
Proof.
  intros i j i' j' ???? [= Heq]. apply (f_equal Ascii.nat_of_ascii) in Heq.
  rewrite !Ascii.nat_ascii_embedding in Heq by lia. lia.
Qed.

Definition trio : config (V := ()) :=
  match make_config 3 false trio_names (λ _, []) with
  | Ok c => c
  | Panic _ => mkCfg (MakeNetwork tt) 0 0 [] [] [] [] [] []
  end.

Lemma harness_accepts_raft_witness :
  ∃ cfg', appliers (history demo) trio = Ok (tt, cfg') ∧ ∃ count cmd,
    nCommitted 1 cfg' = Ok ((count, cmd), cfg') ∧ count = 2.
Proof.
  assert (history demo = [(0, mkApplyMsg 1 (Some 42)); (1, mkApplyMsg 1 (Some 42))]) as Hh
    by (vm_compute; reflexivity).
  destruct (harness_accepts_raft (V := ()) 3 ltac:(lia) demo (history demo) trio false trio_names
    (λ _, [])) as (cfg' & Hrun & Hn).
  - apply trio_names_distinct.
  - vm_compute. reflexivity.
  - apply demo_reachable.
  - intros i m. rewrite Hh. intros Hin. repeat (apply elem_of_cons in Hin as [[= -> ->]|Hin]; [eauto|]).
    destruct (not_elem_of_nil _ Hin).
  - intros i. exists []. symmetry. apply app_nil_r.
  - exists cfg'. split; [exact Hrun|]. destruct (Hn 1) as (count & cmd & H1 & H2 & _).
    exists count, cmd. split; [exact H1|]. rewrite H2, Hh. vm_compute. reflexivity.
Defined.

Lemma check_one_leader_witness :
  ∃ k t, 0 ≤ k < 10 ∧ claims [true; true; true] (servers demo) t 0.
Proof.
  pose proof (check_one_leader 3 ltac:(lia) [true; true; true] (λ _ _, demo) eq_refl) as H.
  cbv beta in H.
  assert (checkOneLeader 3 [true; true; true] (λ _ i, Some (servers demo i)) = Ok 0) as E
    by (vm_compute; reflexivity).
  rewrite E in H. destruct H as (_ & k & t & Hk & Hc & _); [|exists k, t; split; [exact Hk|exact Hc]].
  intros k _. split; [apply demo_reachable|]. intros i j _. apply rtc_refl.
Defined.

Definition trio_applied : config (V := ()) :=
  mkCfg (cfg_net trio) 3 0 (map (λ i, Some (servers demo i)) (seqZ 0 3)) (applyErr trio)
    (connected trio) (saved trio) (endnames trio)
    [Some {[3 := 9]}; Some {[3 := 9]}; Some ∅].

Lemma one_agreement_witness :
  ∃ cfg', one [(id, [id])] 9 2 trio_applied = Ok (3, cfg') ∧ agreement cfg' 3 9 2.
Proof.
  destruct (one [(id, [id])] 9 2 trio_applied) as [[ix cfg']|w] eqn:E.
  - assert (ix = 3) as ->.
    { apply (f_equal (λ x, match x with Ok (k, _) => k | _ => 0 end)) in E. symmetry.
      rewrite <- E. vm_compute. reflexivity. }
    exists cfg'. split; [reflexivity|]. exact (one_agreement _ _ _ _ _ _ E).
  - vm_compute in E. discriminate E.
Defined.
