(* ===== verification/LabCluster.v ===== *)
(** * The Raft peers on the simulated network, run by the test harness

    What a test runs: the peers of RaftNode.v (src/mit/src/raft/raft.go), connected
    by the network of Labrpc.v (src/mit/src/labrpc/labrpc.go), under the harness of
    RaftHarness.v (src/mit/src/raft/config.go).  A request a peer broadcasts is a
    [Call] through the end the harness made for it; it goes through the stages of
    [ProcessReq], interleaved with everything else: the other calls, the timers,
    and the harness attaching, detaching, crashing and starting peers.

    - A peer the harness has crashed is no longer in [rafts], but its goroutines
      and the handlers that were dispatched to it go on for a while.  What they do
      is left open: such a handler may reply anything ([LDispatch]), and calls
      through ends of earlier incarnations may happen at any time ([LStray]).
    - The readers of [applyCh] run concurrently; each takes the messages of its
      server in the order in which they were sent ([LRead]).
    - [lab_exec] is the system in which a request goes out as it was made, and a
      crashed peer sends nothing on its [applyCh].  LabShared.v adds the memory a
      request shares with the log until it is encoded, and the late messages of
      crashed peers. *)
From S2P Require Import Prelude GoRt RaftTypes Labrpc RaftNode RaftNet RaftHarness HarnessNet HarnessTheorems.
Open Scope Z_scope.

(** The values gob carries between peers. *)
Abbreviation rpcval := (Args Z + Reply)%type.

(** The network with another application state. *)
Definition with_app {Name V A B : Type} `{Countable Name} (b : B)
    (rn : Labrpc.Network (Name := Name) (V := V) (A := A)) : Labrpc.Network (Name := Name) (V := V) (A := B) :=
  mkNetwork (reliable rn) (longDelays rn) (longReordering rn) (ends rn) (enabled rn)
    (Labrpc.servers rn) (connections rn) (heap rn) (calls rn) b (executed rn).

(** The methods of a [*Raft] that [MakeService] finds suitable. *)
Definition raft_handler (svc meth : string) (v : rpcval) (r : Raft Z) : res (rpcval * Raft Z) :=
  match v with
  | inl (VoteArgs a) =>
      if decide (meth = "RequestVote") then
        match RequestVote a r with Ok (rep, r') => Ok (inr (VoteReply rep), r') | Panic w => Panic w end
      else Panic "reflect: Call using arguments of another type"
  | inl (AppArgs a) =>
      if decide (meth = "AppendEnties") then
        match AppendEnties a r with Ok (rep, r') => Ok (inr (AppReply rep), r') | Panic w => Panic w end
      else Panic "reflect: Call using arguments of another type"
  | _ => Panic "reflect: Call using arguments of another type"
  end.

Section lab.
Local Abbreviation Raft := (RaftTypes.Raft Z).
Local Abbreviation Message := (RaftTypes.Message Z).
Local Abbreviation ApplyMsg := (RaftTypes.ApplyMsg Z).
Local Abbreviation config := (RaftHarness.config (V := rpcval)).
Local Abbreviation Network := (Labrpc.Network (Name := netname) (V := rpcval) (A := ())).
Local Abbreviation reqMsg := (Labrpc.reqMsg (Name := netname) (V := rpcval)).
Local Abbreviation pending := (Labrpc.pending (Name := netname) (V := rpcval)).

(** A call a peer has made: the peer, the server object of its incarnation, the message, and
    whether the call has returned. *)
Record call_info : Type := mkCall { ci_from : Z; ci_sid : nat; ci_msg : Message; ci_returned : bool }.

Record Lab : Type := mkLab {
  lab_cfg : config;
  lab_calls : gmap nat call_info;
  lab_applied : Z → list ApplyMsg;      (* sent on [applyCh] by the running incarnation *)
  lab_history : list (Z * ApplyMsg);    (* sent on [applyCh] by running peers, ever *)
  lab_read : list (Z * ApplyMsg);       (* taken from there and checked by the readers *)
}.

Definition with_cfg (c : config) (L : Lab) : Lab :=
  mkLab c (lab_calls L) (lab_applied L) (lab_history L) (lab_read L).

Definition put_peer (i : Z) (r : Raft) (c : config) : config :=
  set_rafts (<[Z.to_nat i := Some r]> (rafts c)) c.

(** The running peer that is the receiver of the service of a server object. *)
Definition owner (c : config) (sid : nat) : option Z :=
  head (filter (λ i, registered (cfg_net c) i = Some sid) (seqZ 0 (cfg_n c))).

Definition on_peer {A} (i : Z) (f : M Raft A) (L : Lab) : option (A * Lab) :=
  match peer (lab_cfg L) i with
  | Some r => match f r with
              | Ok (a, r') => Some (a, with_cfg (put_peer i r' (lab_cfg L)) L)
              | Panic _ => None
              end
  | None => None
  end.

(** [f] with the random draws [rs]. *)
Definition drawing {A} (rs : list Z) (f : M Raft A) : M Raft A := modify (set_globalRand rs) ;; f.

Inductive lab_action : Type :=
| LTimer (i : Z) | LTick (i : Z) (rs : list Z) | LStart (i : Z) (cmd : option Z) | LApply (i : Z)
| LRead (i : Z)
| LCall (i : Z) (k : nat) (cid : nat)
| LStray (cid : nat) (req : reqMsg)
| LNet (o : net_op (Name := netname) (V := rpcval))
| LDispatch (cid : nat) (rs : list Z) (v : rpcval)
| LReturn (cid : nat) (rs : list Z)
| LConnect (i : Z) | LDisconnect (i : Z) | LCrash (i : Z)
| LRestart (i : Z) (names : Z → string) (rand : list Z).

(** The goroutine of [serveChannels]: [r.peers[m.To].Call(m.svcMeth, m.args, m.reply)], which sends the
    request as [encode] finds it. *)
Definition lab_call (encode : Message → Message) (i : Z) (k cid : nat) (L : Lab) : option Lab :=
  match on_peer i (serveChannels_take k) L with
  | Some (Some made, L1) =>
      let c := lab_cfg L1 in
      let m := encode made in
      match ename c i (Msg_To m), registered (cfg_net c) i, calls (cfg_net c) !! cid with
      | Some e, Some sid, None =>
          let req := mkReqMsg (inr e) (Msg_svcMeth m) (inl (Msg_args m)) in
          Some (mkLab (set_net (Call cid req) c)
                  (<[cid := mkCall i sid m false]> (lab_calls L1)) (lab_applied L1) (lab_history L1) (lab_read L1))
      | _, _, _ => None
      end
  | _ => None
  end.

(** The end does not belong to a running peer. *)
Definition stray_end (c : config) (e : string) : bool :=
  bool_decide (inr e ∈ ends (cfg_net c)) &&
  forallb (λ i, forallb (λ j, negb (bool_decide (ename c i j = Some e))) (seqZ 0 (cfg_n c)))
    (seqZ 0 (cfg_n c)).

Definition lab_stray (cid : nat) (req : reqMsg) (L : Lab) : option Lab :=
  let c := lab_cfg L in
  match req_endname req, calls (cfg_net c) !! cid with
  | inr e, None => if stray_end c e then Some (with_cfg (set_net (Call cid req) c) L) else None
  | _, _ => None
  end.

(** The steps of the network that involve neither peers nor the harness. *)
Definition routing (o : net_op (Name := netname) (V := rpcval)) : bool :=
  match o with
  | OReliable _ | OLongReordering _ | OStart _ _ | OTimer _ | OReceive _ | OFinish _ _ => true
  | _ => false
  end.

Definition lab_net (o : net_op (Name := netname) (V := rpcval)) (L : Lab) : option Lab :=
  if routing o then
    match net_op_exec (λ _ _ v a, Ok (v, a)) o (cfg_net (lab_cfg L)) with
    | Ok rn => Some (with_cfg (set_net (λ _, rn) (lab_cfg L)) L)
    | Panic _ => None
    end
  else None.

(** The server object of the call belongs to a running peer, whose method is called, or to one that
    was crashed; that one replies [v]. *)
Definition lab_dispatch (cid : nat) (rs : list Z) (v : rpcval) (L : Lab) : option Lab :=
  let c := lab_cfg L in
  match calls (cfg_net c) !! cid with
  | Some (mkPending req st (HStarted sid)) =>
      match owner c sid with
      | Some i =>
          match peer c i with
          | Some r =>
              match ProcessReq_dispatch raft_handler cid (with_app (set_globalRand rs r) (cfg_net c)) with
              | Ok rn => Some (with_cfg (put_peer i (app rn) (set_net (λ _, with_app tt rn) c)) L)
              | Panic _ => None
              end
          | None => None
          end
      | None =>
          match ProcessReq_dispatch (λ _ _ _ a, Ok (v, a)) cid (cfg_net c) with
          | Ok rn => Some (with_cfg (set_net (λ _, rn) c) L)
          | Panic _ => None
          end
      end
  | _ => None
  end.

(** The call returns; when it succeeded, the goroutine of the broadcast sends the reply on [recvc],
    where [run] takes it if the peer is still running. *)
Definition lab_return (cid : nat) (rs : list Z) (L : Lab) : option Lab :=
  let c := lab_cfg L in
  match lab_calls L !! cid, Call_result cid (cfg_net c) with
  | Some (mkCall i sid m false), Some res =>
      let L1 := mkLab c (<[cid := mkCall i sid m true]> (lab_calls L)) (lab_applied L)
                  (lab_history L) (lab_read L) in
      match res with
      | Some (inr rep) =>
          if decide (registered (cfg_net c) i = Some sid)
          then snd <$> on_peer i (drawing rs (Step (resp_message m rep))) L1
          else Some L1
      | _ => Some L1
      end
  | _, _ => None
  end.

(** The reader of [i] takes the next message of its server; a failed check ends the test. *)
Definition lab_reader (i : Z) (L : Lab) : option Lab :=
  match by_server i (lab_history L) !! length (by_server i (lab_read L)) with
  | Some m =>
      match applier i m (lab_cfg L) with
      | Ok (_, c) =>
          Some (mkLab c (lab_calls L) (lab_applied L) (lab_history L) (lab_read L ++ [(i, m)]))
      | Panic _ => None
      end
  | None => None
  end.

Definition fresh_namesb (c : config) (names : Z → string) : bool :=
  bool_decide (NoDup (map names (seqZ 0 (cfg_n c)))) &&
  forallb (λ j, negb (bool_decide (inr (names j) ∈ ends (cfg_net c)))) (seqZ 0 (cfg_n c)).

Definition lab_harness (f : M config ()) (L : Lab) : option Lab :=
  match f (lab_cfg L) with Ok (_, c) => Some (with_cfg c L) | Panic _ => None end.

Definition lab_exec (a : lab_action) (L : Lab) : option Lab :=
  let ok i := valid_id (cfg_n (lab_cfg L)) i in
  match a with
  | LTimer i => if ok i then snd <$> on_peer i Tick L else None
  | LTick i rs =>
      if ok i && match peer (lab_cfg L) i with Some r => 0 <? tickc r | None => false end
      then snd <$> on_peer i (drawing rs run_tick) L else None
  | LStart i cmd => if ok i then snd <$> on_peer i (Start cmd) L else None
  | LApply i =>
      if ok i then
        match on_peer i stateMachine_recv L with
        | Some (ms, L1) =>
            Some (mkLab (lab_cfg L1) (lab_calls L1) (<[i := lab_applied L1 i ++ ms]> (lab_applied L1))
                    (lab_history L1 ++ map (pair i) ms) (lab_read L1))
        | None => None
        end
      else None
  | LRead i => lab_reader i L
  | LCall i k cid => if ok i then lab_call (λ m, m) i k cid L else None
  | LStray cid req => lab_stray cid req L
  | LNet o => lab_net o L
  | LDispatch cid rs v => lab_dispatch cid rs v L
  | LReturn cid rs => lab_return cid rs L
  | LConnect i => if ok i then lab_harness (connect i) L else None
  | LDisconnect i => if ok i then lab_harness (disconnect i) L else None
  | LCrash i => if ok i then lab_harness (crash1 i) L else None
  | LRestart i names rand =>
      if ok i && fresh_namesb (lab_cfg L) names then
        match lab_harness (start1 names rand i) L with
        | Some L1 => Some (mkLab (lab_cfg L1) (lab_calls L1) (<[i := []]> (lab_applied L1)) (lab_history L1)
                             (lab_read L1))
        | None => None
        end
      else None
  end.

(** No running peer has reached the largest term. *)
Definition lab_bounded (L : Lab) : bool :=
  forallb (λ i, match peer (lab_cfg L) i with Some r => currentTerm r <? max_int | None => true end)
    (seqZ 0 (cfg_n (lab_cfg L))).

Definition lab_step (L L' : Lab) : Prop := lab_bounded L = true ∧ ∃ a, lab_exec a L = Some L'.

(** Running a list of actions. *)
Fixpoint lab_run (acts : list lab_action) (L : Lab) : option Lab :=
  match acts with
  | [] => Some L
  | a :: acts' =>
      if lab_bounded L then
        match lab_exec a L with Some L' => lab_run acts' L' | None => None end
      else None
  end.

(** Right after [make_config]. *)
Definition lab_start (c : config) : Lab := mkLab c ∅ (λ _, []) [] [].

Definition lab_reachable (n : Z) (L : Lab) : Prop :=
  ∃ c unreliable names rand, distinct_names n names ∧ make_config n unreliable names rand = Ok c ∧
    rtc lab_step (lab_start c) L.

Lemma lab_run_steps acts L L' : lab_run acts L = Some L' → rtc lab_step L L'.
Proof.
  revert L. induction acts as [|a acts IH]; intros L H; simpl in H.
  - injection H as ->. apply rtc_refl.
  - destruct (lab_bounded L) eqn:Hb; [|done]. destruct (lab_exec a L) as [L1|] eqn:He; [|done].
    eapply rtc_l; [|by apply IH]. split; [done|by exists a].
Qed.

End lab.
