(* ===== verification/LabTheorems.v ===== *)
(** * The tested system refines the cluster of RaftNet.v

    Every step of LabCluster.v (peers, simulated network and harness together) is
    matched by at most one action of RaftNet.v: a call that has not been answered
    is a request in flight there, an answer that can still be delivered is a
    response in flight, an answer the network refuses to deliver is a lost packet,
    and [crash1] with a later [start1] is a restart from the saved persister.
    What was proved of the clusters of RaftNet.v therefore holds of the system
    the tests run. *)
From S2P Require Import Prelude GoRt RaftTypes Labrpc RaftNode RaftProto RaftNet RaftSpec RaftSim.
From S2P Require Import RaftSafety RaftTheorems RaftSends RaftHarness HarnessNet HarnessTheorems LabCluster.
Open Scope Z_scope.

Section lab.
Context (n : Z).
Local Abbreviation Raft := (RaftTypes.Raft Z).
Local Abbreviation Config := (RaftNet.Config Z).
Local Abbreviation config := (RaftHarness.config (V := rpcval)).
Local Abbreviation Network := (Labrpc.Network (Name := netname) (V := rpcval) (A := ())).
Local Abbreviation pending := (Labrpc.pending (Name := netname) (V := rpcval)).
Local Abbreviation infos := (gmap nat call_info).
Implicit Types (c : Config) (cfg : config) (rn : Network) (L : Lab) (ci : call_info).

(** ** The calls in progress *)

(** The server object of a started handler is that of peer [j], or of no running peer. *)
Definition handler_at rn (j : Z) (h : hstage (V := rpcval)) : Prop :=
  match h with
  | HStarted sid => is_Some (heap rn !! sid) ∧ ∀ j', registered rn j' = Some sid → j' = j
  | _ => True
  end.

Definition stage_at rn (j : Z) (p : pending) : Prop :=
  match p_stage p with
  | Queued => p_handler p = HNone
  | Waiting s sid _ _ => s = inl j ∧ is_Some (heap rn !! sid) ∧
      (p_handler p = HStarted sid ∨ ∃ rep, p_handler p = HDone rep)
  | Checked _ _ _ (Some rep) => p_handler p = HDone rep
  | Checked _ _ _ None => True
  | Done rep => rep = fail_reply ∨ p_handler p = HDone rep
  end.

(** A call made by a running peer. *)
Record sent_call rn ci (p : pending) : Prop := mkSentCall {
  sc_req : ∃ e, p_req p = mkReqMsg (inr e) (Msg_svcMeth (ci_msg ci)) (inl (Msg_args (ci_msg ci))) ∧
    inr e ∈ ends rn ∧ connections rn !! inr e = Some (Some (inl (Msg_To (ci_msg ci))));
  sc_typed : request_typed (ci_msg ci);
  sc_from : Msg_From (ci_msg ci) = ci_from ci ∧ 0 ≤ ci_from ci < n;
  sc_to : 0 ≤ Msg_To (ci_msg ci) < n;
  sc_handler : handler_at rn (Msg_To (ci_msg ci)) (p_handler p);
  sc_stage : stage_at rn (Msg_To (ci_msg ci)) p;
}.

(** A call through an end of an earlier incarnation: it fails. *)
Definition stray_call cfg (p : pending) : Prop :=
  ∃ e, req_endname (p_req p) = inr e ∧ inr e ∈ ends (cfg_net cfg) ∧ (∀ i j, ename cfg i j ≠ Some e) ∧
    p_handler p = HNone ∧ (p_stage p = Queued ∨ p_stage p = Done fail_reply).

Definition call_known cfg (ks : infos) (cid : nat) (p : pending) : Prop :=
  match ks !! cid with Some ci => sent_call (cfg_net cfg) ci p | None => stray_call cfg p end.

Record lab_inv L : Prop := mkLabInv {
  li_harness : harness_inv n (lab_cfg L);
  li_wired : wired (lab_cfg L);
  li_calls cid p : calls (cfg_net (lab_cfg L)) !! cid = Some p → call_known (lab_cfg L) (lab_calls L) cid p;
  li_known cid : calls (cfg_net (lab_cfg L)) !! cid = None → lab_calls L !! cid = None;
}.

(** ** The packets of the calls in progress *)

(** The answer [rep] of the handler can still reach the caller. *)
Definition deliverable rn (st : stage (Name := netname) (V := rpcval)) : bool :=
  match st with
  | Waiting s sid _ _ => bool_decide (Labrpc.servers rn !! s = Some (Some sid))
  | Checked _ _ dead (Some _) => negb dead
  | Done rep => rep_ok rep
  | _ => false
  end.

Definition packets_of rn (o : option call_info) (p : pending) : list (packet Z) :=
  match o with
  | None => []
  | Some ci =>
      match p_handler p, p_stage p with
      | HNone, Queued => [Request (ci_msg ci)]
      | HStarted _, _ => [Request (ci_msg ci)]
      | HDone (mkReplyMsg _ (Some (inr rep))), st =>
          if negb (ci_returned ci) && deliverable rn st then [Response (resp_message (ci_msg ci) rep)] else []
      | _, _ => []
      end
  end.

Definition packets_at rn (ks : infos) (cs : gmap nat pending) : list (packet Z) :=
  concat (map (λ '(cid, p), packets_of rn (ks !! cid) p) (map_to_list cs)).

Definition packets rn (ks : infos) : list (packet Z) := packets_at rn ks (calls rn).

Lemma packets_split rn ks cs cid p :
  cs !! cid = Some p →
  packets_at rn ks cs ≡ₚ packets_of rn (ks !! cid) p ++ packets_at rn ks (delete cid cs).
Proof.
  intros Hp. unfold packets_at. rewrite <- (insert_delete_id cs cid p) at 1 by done.
  rewrite map_to_list_insert by apply lookup_delete_eq. done.
Qed.

Lemma packets_insert rn ks cs cid p :
  packets_at rn ks (<[cid := p]> cs) ≡ₚ packets_of rn (ks !! cid) p ++ packets_at rn ks (delete cid cs).
Proof. by rewrite (packets_split _ _ _ cid p), delete_insert_eq by apply lookup_insert_eq. Qed.

Lemma packets_mono rn rn' ks ks' cs :
  (∀ cid p, cs !! cid = Some p → packets_of rn' (ks' !! cid) p ⊆+ packets_of rn (ks !! cid) p) →
  packets_at rn' ks' cs ⊆+ packets_at rn ks cs.
Proof.
  intros Hm. unfold packets_at. assert (∀ cid p, (cid, p) ∈ map_to_list cs → cs !! cid = Some p) as Hl
    by (intros; by apply elem_of_map_to_list). revert Hl.
  generalize (map_to_list cs). intros l Hl. induction l as [|[cid p] l IH]; simpl; [done|].
  apply submseteq_app; [apply Hm, Hl; left|]. apply IH. intros. apply Hl. by right.
Qed.

(** The packets when call [cid] is new or has moved on to [p']. *)
Lemma packets_moved rn rn' ks ks' cid p' :
  calls rn' = <[cid := p']> (calls rn) → Labrpc.servers rn' = Labrpc.servers rn →
  (∀ k, k ≠ cid → ks' !! k = ks !! k) →
  packets rn' ks' ≡ₚ packets_of rn (ks' !! cid) p' ++ packets_at rn ks (delete cid (calls rn)).
Proof.
  intros Hc Hs Hks. unfold packets. rewrite Hc, packets_insert.
  assert (∀ o q, packets_of rn' o q = packets_of rn o q) as Hof
    by (intros; unfold packets_of, deliverable; by rewrite Hs).
  rewrite Hof. apply Permutation_app_head. unfold packets_at. apply reflexive_eq. f_equal.
  apply map_ext_in. intros [k q] Hk%list_elem_of_In%elem_of_map_to_list.
  apply lookup_delete_Some in Hk as [Hk _]. by rewrite Hof, Hks.
Qed.

(** ** Changes of the network around the calls *)

(** [rn'] has the ends of [rn], and a server object of [rn] is registered in [rn'] only where it
    was. *)
Record extends rn rn' : Prop := mkExtends {
  ex_ends e : inr e ∈ ends rn → inr e ∈ ends rn' ∧ connections rn' !! inr e = connections rn !! inr e;
  ex_heap sid : is_Some (heap rn !! sid) → is_Some (heap rn' !! sid);
  ex_reg j sid : is_Some (heap rn !! sid) → registered rn' j = Some sid → registered rn j = Some sid;
}.

Lemma sent_call_extends rn rn' ci p : extends rn rn' → sent_call rn ci p → sent_call rn' ci p.
Proof.
  intros [He Hh Hr] [(e & Hreq & Hin & Hc) Ht Hf Hto Hha Hst]. split; [|done|done|done|..].
  - exists e. destruct (He e Hin) as [? ->]. done.
  - unfold handler_at in *. destruct (p_handler p); [done| |done]. destruct Hha as [? Hj].
    split; [by apply Hh|]. intros j' Hj'. by apply Hj, Hr.
  - unfold stage_at in *. destruct (p_stage p); try done. destruct Hst as (? & ? & ?). auto.
Qed.

(** The same configuration, apart from the counts of the server objects. *)
Record same_wiring rn rn' : Prop := mkSameWiring {
  sw_ends : ends rn' = ends rn;
  sw_enabled : enabled rn' = enabled rn;
  sw_connections : connections rn' = connections rn;
  sw_servers : Labrpc.servers rn' = Labrpc.servers rn;
  sw_heap sid : sv_services <$> heap rn' !! sid = sv_services <$> heap rn !! sid;
}.

Lemma same_wiring_heap rn rn' sid :
  same_wiring rn rn' → is_Some (heap rn' !! sid) ↔ is_Some (heap rn !! sid).
Proof.
  intros W. rewrite <- (fmap_is_Some sv_services (heap rn' !! sid)), <- (fmap_is_Some sv_services (heap rn !! sid)).
  by rewrite (sw_heap _ _ W).
Qed.

Lemma same_wiring_registered rn rn' j : same_wiring rn rn' → registered rn' j = registered rn j.
Proof. intros W. unfold registered. by rewrite (sw_servers _ _ W). Qed.

Lemma same_wiring_extends rn rn' : same_wiring rn rn' → extends rn rn'.
Proof.
  intros W. split.
  - intros e. by rewrite (sw_ends _ _ W), (sw_connections _ _ W).
  - intros sid. by rewrite (same_wiring_heap _ _ _ W).
  - intros j sid _. by rewrite (same_wiring_registered _ _ _ W).
Qed.

Lemma with_call_wiring rn cid p : same_wiring rn (with_call rn cid p).
Proof. done. Qed.

(** The calls move on, the rest of the network stays. *)
Lemma lab_inv_net L rn' ks' ap h rd :
  lab_inv L → same_wiring (cfg_net (lab_cfg L)) rn' →
  (∀ cid p, calls rn' !! cid = Some p → call_known (set_net (λ _, rn') (lab_cfg L)) ks' cid p) →
  (∀ cid, calls rn' !! cid = None → ks' !! cid = None) →
  lab_inv (mkLab (set_net (λ _, rn') (lab_cfg L)) ks' ap h rd).
Proof.
  intros [H W C _] S Hc Hk. split; simpl; [| |done|done].
  - eapply hstep_inv; [|exact H]. eapply HNet; [apply S..|done].
  - destruct W as [W1 W1' W2 W3 W4]. split; simpl.
    + intros i Hi. rewrite (same_wiring_registered _ _ _ S). by apply W1.
    + intros sid sv Hsv. pose proof (sw_heap _ _ S sid) as Hh. rewrite Hsv in Hh. symmetry in Hh.
      apply fmap_Some in Hh as (sv' & Hsv' & Heq). simpl in Heq. rewrite Heq. by eapply W1'.
    + intros i sid. rewrite (same_wiring_registered _ _ _ S), (same_wiring_heap _ _ _ S). apply W2.
    + intros i j sid. rewrite !(same_wiring_registered _ _ _ S). apply W3.
    + intros e. rewrite (sw_enabled _ _ S). apply W4.
Qed.

Lemma call_known_wiring cfg rn' ks cid p :
  same_wiring (cfg_net cfg) rn' → call_known cfg ks cid p → call_known (set_net (λ _, rn') cfg) ks cid p.
Proof.
  intros S. unfold call_known. destruct (ks !! cid) as [ci|].
  - by apply sent_call_extends, same_wiring_extends.
  - intros (e & ? & ? & ? & ?). exists e. simpl. rewrite (sw_ends _ _ S). done.
Qed.

(** One call moves on. *)
Lemma lab_inv_move L rn' cid p' ks' ap h rd :
  lab_inv L → same_wiring (cfg_net (lab_cfg L)) rn' →
  calls rn' = <[cid := p']> (calls (cfg_net (lab_cfg L))) →
  (∀ k, k ≠ cid → ks' !! k = lab_calls L !! k) → call_known (lab_cfg L) ks' cid p' →
  lab_inv (mkLab (set_net (λ _, rn') (lab_cfg L)) ks' ap h rd).
Proof.
  intros I S Hc Hk Hp. apply lab_inv_net; [done|done|..]; intros k; [intros p; rewrite Hc|].
  - intros [[<- <-]|[Hne Hl]]%lookup_insert_Some; [by apply call_known_wiring|].
    apply call_known_wiring; [done|]. unfold call_known. rewrite Hk by done. by apply (li_calls _ I).
  - rewrite Hc, lookup_insert_None. intros [? ?]. rewrite Hk by done. by apply (li_known _ I).
Qed.

(** A running peer makes progress. *)
Lemma lab_inv_peer L i r r' ap h rd :
  lab_inv L → 0 ≤ i < n → peer (lab_cfg L) i = Some r → stopc r' = false →
  lab_inv (mkLab (put_peer i r' (lab_cfg L)) (lab_calls L) ap h rd).
Proof.
  intros [H W C C'] Hi Hp Hs. pose proof (hi_procs _ _ H) as P. pose proof (hi_n _ _ H) as Hn. split; simpl.
  - eapply hstep_inv; [|exact H]. apply (HPeer _ _ i r r'); [|done|done]. unfold peer in Hp.
    by destruct (go_at _ i) as [[]|]; simplify_eq/=.
  - destruct W as [W1 W1' W2 W3 W4]. split; simpl; [|done..]. intros j Hj.
    rewrite (peer_insert (lab_cfg L) _ i (Some r') j) by (done || lia). specialize (W1 j Hj).
    case_decide; [subst; by rewrite Hp in W1|done].
  - exact C.
  - exact C'.
Qed.

(** ** Routing a call *)

(** Call [k] moves from [p] to [p'], which keeps what is known of it and adds no packet. *)
Definition moves cfg (ks : infos) (k : nat) (p p' : pending) : Prop :=
  call_known cfg ks k p' ∧ packets_of (cfg_net cfg) (ks !! k) p' ⊆+ packets_of (cfg_net cfg) (ks !! k) p.

Definition stays_or_moves cfg (ks : infos) (k : nat) rn' : Prop :=
  rn' = cfg_net cfg ∨
  ∃ p p', calls (cfg_net cfg) !! k = Some p ∧ rn' = with_call (cfg_net cfg) k p' ∧ moves cfg ks k p p'.

Section routing.
Context cfg (ks : infos) (W : wired cfg) (k : nat).
Context (K : ∀ p, calls (cfg_net cfg) !! k = Some p → call_known cfg ks k p).

(** A call whose handler has not started fails. *)
Lemma moves_refused req :
  call_known cfg ks k (mkPending req Queued HNone) →
  moves cfg ks k (mkPending req Queued HNone) (mkPending req (Done fail_reply) HNone).
Proof.
  unfold moves, call_known, packets_of. destruct (ks !! k) as [ci|]; simpl.
  - intros [Hr Ht Hf Hto Hh Hs]. split; [|apply submseteq_nil_l]. split; try done. by left.
  - intros (e & ? & ? & ? & ? & _). split; [|done]. exists e. eauto 10.
Qed.

Lemma start_moves r : stays_or_moves cfg ks k (ProcessReq_start k r (cfg_net cfg)).
Proof.
  unfold ProcessReq_start. destruct (calls _ !! k) as [[req st h]|] eqn:Hk; [|by left].
  destruct st; try by left. pose proof (K _ eq_refl) as Hc.
  assert (h = HNone) as ->.
  { unfold call_known in Hc. destruct (ks !! k); [apply (sc_stage _ _ _ Hc)|].
    by destruct Hc as (? & _ & _ & _ & ? & _). }
  assert (stays_or_moves cfg ks k (with_call (cfg_net cfg) k (mkPending req (Done fail_reply) HNone))) as Hfail.
  { right. eexists _, _. split_and!; [done|done|]. by apply moves_refused. }
  unfold ReadEndnameInfo. destruct (default false _) eqn:Hen; [|done].
  unfold call_known in Hc. destruct (ks !! k) as [ci|] eqn:Hci.
  2: { destruct Hc as (e & He & _ & Hne & _). simpl in He. rewrite He in Hen.
    destruct (enabled _ !! inr e) as [[]|] eqn:He'; try done.
    destruct (wd_enabled _ W e He') as (i & j & Hij). by destruct (Hne i j). }
  pose proof Hc as [(e & Hreq & Hin & Hcon) Ht Hf Hto _ _]. simpl in Hreq. rewrite Hreq in *. simpl in *.
  rewrite Hcon. simpl. fold (registered (cfg_net cfg) (Msg_To (ci_msg ci))).
  destruct (registered _ _) as [sid|] eqn:Hreg; [|done]. destruct (negb _ && _); [done|].
  pose proof (wd_heap _ W _ _ Hreg) as Hh. right. eexists _, _. split_and!; [done|done|].
  unfold moves, call_known. rewrite Hci. split; [|done]. split; try done.
  - simpl. eauto.
  - split; [done|]. intros j' Hj'. by eapply (wd_inj _ W).
  - unfold stage_at. simpl. auto.
Qed.

Lemma packets_of_later ci req st st' h :
  st ≠ Queued → st' ≠ Queued →
  (∀ rep, h = HDone rep → deliverable (cfg_net cfg) st' = true → deliverable (cfg_net cfg) st = true) →
  packets_of (cfg_net cfg) (Some ci) (mkPending req st' h) ⊆+
  packets_of (cfg_net cfg) (Some ci) (mkPending req st h).
Proof.
  intros H1 H2 Hd. unfold packets_of. simpl. destruct h as [|sid|[ok [[?|rep]|]]]; try done.
  - destruct st'; try done; apply submseteq_nil_l.
  - specialize (Hd _ eq_refl). destruct (ci_returned ci); simpl; [done|].
    destruct (deliverable _ st'); [by rewrite Hd|apply submseteq_nil_l].
Qed.

(** A call in the [select] loop or behind it moves on. *)
Lemma moves_later req st st' h :
  calls (cfg_net cfg) !! k = Some (mkPending req st h) → st ≠ Queued → st' ≠ Queued →
  (∀ rep, st ≠ Done rep) → (∀ j, stage_at (cfg_net cfg) j (mkPending req st h) →
     stage_at (cfg_net cfg) j (mkPending req st' h)) →
  (∀ rep, h = HDone rep → deliverable (cfg_net cfg) st' = true → deliverable (cfg_net cfg) st = true) →
  stays_or_moves cfg ks k (with_call (cfg_net cfg) k (mkPending req st' h)).
Proof.
  intros Hk H1 H2 H3 Hst Hd. right. eexists _, _. split_and!; [done|done|].
  pose proof (K _ Hk) as Hc. unfold moves, call_known in *. destruct (ks !! k) as [ci|].
  - split; [|by apply packets_of_later]. destruct Hc as [Hr Ht Hf Hto Hh Hs]. split; try done. by apply Hst.
  - destruct Hc as (e & _ & _ & _ & _ & [Hq|Hq]); simpl in Hq; [done|by destruct (H3 _ Hq)].
Qed.

Lemma timer_moves : stays_or_moves cfg ks k (ProcessReq_timer k (cfg_net cfg)).
Proof.
  pose proof moves_later as Hm. unfold ProcessReq_timer. destruct (calls _ !! k) as [[req st h]|] eqn:Hk; [|by left].
  destruct st; try by left. destruct (IsServerDead _ _ _ _); [|by left]. eapply Hm; done.
Qed.

Lemma receive_moves : stays_or_moves cfg ks k (ProcessReq_receive k (cfg_net cfg)).
Proof.
  pose proof moves_later as Hm. unfold ProcessReq_receive. destruct (calls _ !! k) as [[req st h]|] eqn:Hk; [|by left].
  destruct st as [|s sid rel lr| |]; try by left. destruct h as [| |rep]; try by left.
  eapply Hm; try done. intros _ _. simpl. unfold IsServerDead. rewrite negb_true_iff.
  intros [_ Hs%negb_false_iff%bool_decide_eq_true]%orb_false_iff. apply bool_decide_eq_true.
  by destruct (Labrpc.servers _ !! s) as [[]|]; simplify_eq/=.
Qed.

Lemma finish_moves r : stays_or_moves cfg ks k (ProcessReq_finish k r (cfg_net cfg)).
Proof.
  pose proof moves_later as Hm. unfold ProcessReq_finish. destruct (calls _ !! k) as [[req st h]|] eqn:Hk; [|by left].
  destruct st as [| |rel lr dead [rep|]|]; try by left.
  - destruct dead; [|destruct (negb rel && _)]; eapply Hm; try done; intros; try (by left).
    by right.
  - eapply Hm; try done. intros. by left.
Qed.

End routing.

(** ** Handlers *)

Lemma dispatch_ok {A} (handler : string → string → rpcval → A → res (rpcval * A)) (k : nat)
    (rn rn' : Labrpc.Network (Name := netname) (V := rpcval) (A := A)) req st sid :
  calls rn !! k = Some (mkPending req st (HStarted sid)) → ProcessReq_dispatch handler k rn = Ok rn' →
  ∃ svc meth v, handler svc meth (req_args req) (app rn) = Ok (v, app rn') ∧
    calls rn' = <[k := mkPending req st (HDone (mkReplyMsg true (Some v)))]> (calls rn) ∧
    same_wiring (with_app tt rn) (with_app tt rn').
Proof.
  intros Hk. unfold ProcessReq_dispatch, Server_dispatch, Service_dispatch. rewrite Hk.
  destruct (heap rn !! sid) as [sv|] eqn:Hsid; [|done].
  destruct (split_svcMeth _) as [[svcn meth]|]; [|done].
  destruct (sv_services sv !! svcn) as [svc|]; [|done]. case_decide; [|done].
  destruct (handler _ _ _ _) as [[v a]|] eqn:Hh; [|done]. intros [= <-].
  exists (svc_name svc), meth, v. split_and!; [done|done|]. split; try done. intros sid'. simpl.
  destruct (decide (sid' = sid)) as [->|]; [by rewrite lookup_insert_eq, Hsid|by rewrite lookup_insert_ne].
Qed.

(** What the service calls is the handler of RaftNet.v. *)
Lemma raft_handler_serve svc meth (m : RaftTypes.Message Z) r v r' :
  raft_handler svc meth (inl (Msg_args m)) r = Ok (v, r') →
  ∃ rep, v = inr rep ∧ serve m r = Ok (Some (resp_message m rep), r').
Proof.
  unfold raft_handler, serve, bind. destruct (Msg_args m) as [|a|a]; [done|..].
  - case_decide; [|done]. destruct (RequestVote a r) as [[rep r1]|]; [|done]. intros [= <- <-]. eauto.
  - case_decide; [|done]. destruct (AppendEnties a r) as [[rep r1]|]; [|done]. intros [= <- <-]. eauto.
Qed.

Lemma owner_spec cfg sid :
  match owner cfg sid with
  | Some i => 0 ≤ i < cfg_n cfg ∧ registered (cfg_net cfg) i = Some sid
  | None => ∀ i, 0 ≤ i < cfg_n cfg → registered (cfg_net cfg) i ≠ Some sid
  end.
Proof.
  unfold owner. destruct (filter _ _) as [|i l] eqn:Hf; simpl.
  - intros i Hi Hr. assert (i ∈ filter (λ i, registered (cfg_net cfg) i = Some sid) (seqZ 0 (cfg_n cfg))) as Hin.
    { apply list_elem_of_filter. split; [done|]. apply elem_of_seqZ. lia. }
    rewrite Hf in Hin. by apply not_elem_of_nil in Hin.
  - assert (i ∈ filter (λ i, registered (cfg_net cfg) i = Some sid) (seqZ 0 (cfg_n cfg))) as Hin
      by (rewrite Hf; left).
    apply list_elem_of_filter in Hin as [? ?%elem_of_seqZ]. split; [lia|done].
Qed.

(** A call whose handler has returned. *)
Lemma sent_call_done rn ci req st sid v :
  sent_call rn ci (mkPending req st (HStarted sid)) →
  sent_call rn ci (mkPending req st (HDone (mkReplyMsg true (Some v)))).
Proof.
  intros [Hr Ht Hf Hto Hh Hs]. split; try done. unfold stage_at in *. simpl in *.
  destruct st as [|s sid' rel lr|rel lr dead [rep|]|rep]; try done.
  - destruct Hs as (? & ? & _). eauto.
  - destruct Hs as [->|?]; [by left|done].
Qed.

Lemma started_known cfg ks cid req st sid :
  call_known cfg ks cid (mkPending req st (HStarted sid)) →
  ∃ ci, ks !! cid = Some ci ∧ sent_call (cfg_net cfg) ci (mkPending req st (HStarted sid)).
Proof.
  unfold call_known. destruct (ks !! cid) as [ci|]; [eauto|]. by intros (? & _ & _ & _ & ? & _).
Qed.

Lemma take_packet (x : packet Z) rest ps :
  x :: rest ⊆+ ps → ∃ k, ps !! k = Some x ∧ rest ⊆+ delete k ps.
Proof.
  intros (ps' & Hp & Hsub)%submseteq_cons_l.
  assert (x ∈ ps) as [k Hk]%list_elem_of_lookup_1 by (rewrite Hp; left). exists k. split; [done|].
  assert (ps' ≡ₚ delete k ps) as <-; [|done]. apply (Permutation_cons_inv (a := x)).
  rewrite <- Hp. by apply delete_Permutation.
Qed.

(** ** Steps of the harness *)

Lemma lab_inv_harness L cfg' ap h rd :
  lab_inv L → harness_inv n cfg' → wired cfg' → extends (cfg_net (lab_cfg L)) (cfg_net cfg') →
  calls (cfg_net cfg') = calls (cfg_net (lab_cfg L)) →
  (∀ i j e, inr e ∈ ends (cfg_net (lab_cfg L)) → ename cfg' i j = Some e → ename (lab_cfg L) i j = Some e) →
  lab_inv (mkLab cfg' (lab_calls L) ap h rd).
Proof.
  intros I H' W' E Hc Hn. split; simpl; [done|done|..].
  - intros k p. rewrite Hc. intros Hk%(li_calls _ I). unfold call_known in *.
    destruct (lab_calls L !! k); [by eapply sent_call_extends|].
    destruct Hk as (e & ? & Hin & Hne & ?). exists e. split_and!; [done|by apply E| |naive_solver..].
    intros i j Hij. by apply (Hne i j), Hn.
  - intros k. rewrite Hc. apply I.
Qed.

Lemma packets_extends cfg rn' ks :
  extends (cfg_net cfg) rn' → calls rn' = calls (cfg_net cfg) →
  (∀ k p, calls (cfg_net cfg) !! k = Some p → call_known cfg ks k p) →
  packets rn' ks ⊆+ packets (cfg_net cfg) ks.
Proof.
  intros E Hc K. unfold packets. rewrite Hc. apply packets_mono. intros k [req st h] Hk%K.
  unfold call_known in Hk. destruct (ks !! k) as [ci|]; [|done].
  unfold packets_of. simpl. destruct h as [|sid|[ok [[?|rep]|]]]; try done.
  destruct (ci_returned ci); simpl; [done|]. destruct (deliverable rn' st) eqn:Hd; [|apply submseteq_nil_l].
  assert (deliverable (cfg_net cfg) st = true) as ->; [|done].
  destruct st as [|s sid rel lr| |]; try done. simpl in *. apply bool_decide_eq_true in Hd.
  pose proof (sc_stage _ _ _ Hk) as (-> & Hh & _). apply bool_decide_eq_true.
  assert (registered (cfg_net cfg) (Msg_To (ci_msg ci)) = Some sid) as Hr.
  { apply (ex_reg _ _ E); [done|]. unfold registered. by rewrite Hd. }
  unfold registered in Hr. by destruct (Labrpc.servers (cfg_net cfg) !! _) as [[]|]; simplify_eq/=.
Qed.

Lemma rewired_extends cfg cfg' :
  rewired cfg cfg' → extends (cfg_net cfg) (cfg_net cfg') ∧ calls (cfg_net cfg') = calls (cfg_net cfg).
Proof. by intros (rn & l & -> & en & -> & _). Qed.

Lemma crashed_extends i cfg cfg' :
  crashed i cfg cfg' → extends (cfg_net cfg) (cfg_net cfg') ∧ calls (cfg_net cfg') = calls (cfg_net cfg).
Proof.
  intros (_ & _ & _ & _ & (rn & [(en & -> & _) _] & ->) & _). split; [|done]. split; [done|done|].
  intros j sid _. rewrite registered_delete. by case_decide.
Qed.

Lemma started_extends names rand i cfg cfg' :
  fresh_names cfg names → started names rand i cfg cfg' →
  extends (cfg_net cfg) (cfg_net cfg') ∧ calls (cfg_net cfg') = calls (cfg_net cfg).
Proof.
  intros [_ Hfresh] (_ & _ & _ & _ & _ & _ & (rn & rn1 & sid & [(en & -> & _) _] & Hm & Hsid & ->) & _).
  destruct Hm as [Hends _ Hold (Hs & Hh & Hcl)]. simpl in *. split; [|done]. rewrite Hh in Hsid. split; simpl.
  - intros e He. rewrite Hends. split; [by left|]. apply Hold. intros j Hj%elem_of_seqZ [= ->].
    by apply (Hfresh j); [lia|].
  - intros sid' [sv Hsv]. rewrite Hh, lookup_insert_ne by congruence. by exists sv.
  - intros j sid' [sv Hsv]. rewrite registered_add. case_decide; [intros [= <-]; congruence|].
    unfold registered. simpl. rewrite Hs. simpl. by rewrite lookup_insert_ne by congruence.
Qed.

Lemma started_names names rand i cfg cfg' i' j e :
  links cfg → 0 ≤ i < cfg_n cfg → fresh_names cfg names → started names rand i cfg cfg' →
  inr e ∈ ends (cfg_net cfg) → ename cfg' i' j = Some e → ename cfg i' j = Some e.
Proof.
  intros Lk Hi [_ Hfresh] (_ & _ & _ & _ & _ & Ee & _) Hin. unfold ename. rewrite Ee.
  rewrite go_at_insert by (rewrite (lk_ends_len _ Lk); lia). case_decide; [|done].
  intros [_ Hj]%go_at_Some. apply list_elem_of_lookup_2, list_elem_of_fmap in Hj as (x & -> & Hx%elem_of_seqZ).
  by destruct (Hfresh x ltac:(lia)).
Qed.

Lemma fresh_namesb_spec cfg names : fresh_namesb cfg names = true → fresh_names cfg names.
Proof.
  unfold fresh_namesb. rewrite andb_true_iff, bool_decide_eq_true, forallb_forall. intros [Hnd Hf]. split.
  - intros j j' Hj Hj' Heq. apply (NoDup_lookup _ (Z.to_nat j) (Z.to_nat j') (names j)) in Hnd; [lia|..];
      rewrite list_lookup_fmap, lookup_seqZ_lt by lia; simpl; rewrite Z2Nat.id by lia; [done|by rewrite Heq].
  - intros j Hj. specialize (Hf j). rewrite <- list_elem_of_In, elem_of_seqZ in Hf.
    specialize (Hf ltac:(lia)). by rewrite negb_true_iff, bool_decide_eq_false in Hf.
Qed.

(** ** The simulation relation *)

Lemma with_cfg_same L : with_cfg (set_net (λ _, cfg_net (lab_cfg L)) (lab_cfg L)) L = L.
Proof. by destruct L as [[]]. Qed.

(** A running peer is the server of the cluster; a crashed one left its persister to the harness. *)
Definition server_rel L c (i : Z) : Prop :=
  match peer (lab_cfg L) i with
  | Some r => servers c i = r ∧ applied c i = lab_applied L i
  | None => currentTerm (servers c i) < max_int ∧
      handed_over (lab_cfg L) i = Persister_Copy (persister (servers c i))
  end ∧ identity (servers c i) = (seqZ 0 n, i, false, []).

Record lab_rel L c : Prop := mkLabRel {
  lr_server i : 0 ≤ i < n → server_rel L c i;
  lr_packets : packets (cfg_net (lab_cfg L)) (lab_calls L) ⊆+ net c;
  lr_history : history c = lab_history L;
}.

(** [L] is well formed and matched by the cluster [c] after at most one step. *)
Definition follows L c : Prop :=
  lab_inv L ∧ ∃ c', (c' = c ∨ net_step n c c') ∧ lab_rel L c'.

Lemma rel_bounded L c :
  cfg_n (lab_cfg L) = n → lab_rel L c → lab_bounded L = true → bounded n c = true.
Proof.
  intros Hn R. unfold lab_bounded, bounded. rewrite !forallb_forall, Hn. intros Hb i Hi. specialize (Hb i Hi).
  apply list_elem_of_In, elem_of_seqZ in Hi. destruct (lr_server _ _ R i ltac:(lia)) as [Hs _].
  apply Z.ltb_lt. destruct (peer _ i) as [r|]; [|apply Hs]. destruct Hs as [-> _]. by apply Z.ltb_lt.
Qed.

Lemma rel_live L c i r :
  lab_rel L c → 0 ≤ i < n → peer (lab_cfg L) i = Some r →
  servers c i = r ∧ applied c i = lab_applied L i ∧ identity r = (seqZ 0 n, i, false, []).
Proof.
  intros R Hi Hp. destruct (lr_server _ _ R i Hi) as [Hs Hid]. rewrite Hp in Hs.
  destruct Hs as [Hs Ha]. by rewrite Hs in Hid.
Qed.

(** A peer makes progress, the network being whatever the packets allow. *)
Lemma rel_peer L c i r r' cfg' ks' ap' h' rd c' :
  harness_inv n (lab_cfg L) → lab_rel L c → 0 ≤ i < n → peer (lab_cfg L) i = Some r →
  identity r' = identity r → rafts cfg' = <[Z.to_nat i := Some r']> (rafts (lab_cfg L)) →
  saved cfg' = saved (lab_cfg L) → servers c' = <[i := r']> (servers c) →
  (∀ j, applied c j = lab_applied L j → applied c' j = ap' j) →
  packets (cfg_net cfg') ks' ⊆+ net c' → history c' = h' → lab_rel (mkLab cfg' ks' ap' h' rd) c'.
Proof.
  intros H R Hi Hp Hid Hr Hs Hsv Hap Hpk Hh. pose proof (hi_procs _ _ H) as P.
  pose proof (hi_n _ _ H) as Hn. split; [|done|done]. intros j Hj. unfold server_rel. simpl.
  rewrite (peer_insert (lab_cfg L) cfg' i (Some r') j) by (done || lia).
  destruct (lr_server _ _ R j Hj) as [Hsj Hidj]. rewrite Hsv. case_decide as Hji.
  - subst j. rewrite Hp in Hsj. destruct Hsj as [Hsj Haj]. rewrite fn_lookup_insert, Hid, <- Hsj. auto.
  - rewrite fn_lookup_insert_ne by done. split; [|done]. destruct (peer (lab_cfg L) j) eqn:Hpj.
    + destruct Hsj. auto.
    + destruct Hsj as [? <-]. split; [done|]. unfold handed_over, last_saved.
      rewrite Hs, Hr, go_at_insert, decide_False by (done || rewrite (pr_rafts_len _ P); lia). done.
Qed.

(** The peers and the harness stay, and the packets are among those in flight. *)
Lemma rel_stutter L c rn' ks' :
  lab_rel L c → packets rn' ks' ⊆+ net c →
  lab_rel (mkLab (set_net (λ _, rn') (lab_cfg L)) ks' (lab_applied L) (lab_history L) (lab_read L)) c.
Proof. intros [Hs _ Hh] Hp. by split. Qed.

Lemma on_peer_Some {A} i (f : M Raft A) L a L' :
  on_peer i f L = Some (a, L') → ∃ r r', peer (lab_cfg L) i = Some r ∧ f r = Ok (a, r') ∧
    L' = with_cfg (put_peer i r' (lab_cfg L)) L.
Proof.
  unfold on_peer. destruct (peer _ i) as [r|] eqn:Hp; [|done].
  destruct (f r) as [[x r']|] eqn:Hf; [|done]. intros [= -> <-]. eauto.
Qed.

Lemma drawing_identity {A} rs (f : M Raft A) : keeps identity f → keeps identity (drawing rs f).
Proof. intros Hf. unfold drawing. apply keeps_bind; [keeps_tac|done]. Qed.

(** ** The steps *)

Section steps.
Context L c (I : lab_inv L) (R : lab_rel L c) (Hb : lab_bounded L = true) (Hreach : reachable n c).

Local Lemma Hbounded : bounded n c = true.
Proof. apply (rel_bounded L); [apply I|done|done]. Qed.

Lemma identity_stopc i (r r' : Raft) :
  0 ≤ i < n → peer (lab_cfg L) i = Some r → identity r' = identity r → stopc r' = false.
Proof.
  intros Hi Hp Hid. destruct (rel_live _ _ _ _ R Hi Hp) as (_ & _ & Hr). rewrite Hr in Hid.
  by injection Hid.
Qed.

(** Steps of one peer that involve no calls. *)
Lemma follows_local {A} i (f : M Raft A) act a L' :
  0 ≤ i < n → on_peer i f L = Some (a, L') → keeps identity f →
  (∀ r', f (servers c i) = Ok (a, r') → net_exec n act c = Some (set_server c i r' (net c))) →
  follows L' c.
Proof.
  intros Hi (r & r' & Hp & Hf & ->)%on_peer_Some Hk Hex.
  pose proof (Hk _ _ _ Hf) as Hid. destruct (rel_live _ _ _ _ R Hi Hp) as (Hs & _ & _).
  split; [eapply lab_inv_peer; eauto using identity_stopc|].
  exists (set_server c i r' (net c)). split.
  { right. split; [apply Hbounded|]. exists act. apply Hex. by rewrite Hs. }
  by eapply (rel_peer L c i r r'); eauto; [apply I|apply R..].
Qed.

Lemma follows_apply i L' : valid_id n i = true → lab_exec (LApply i) L = Some L' → follows L' c.
Proof.
  intros Hv Hex. cbn [lab_exec] in Hex. rewrite (hi_n _ _ (li_harness _ I)), Hv in Hex.
  apply valid_id_spec in Hv as Hi.
  destruct (on_peer _ _ _) as [[ms L1]|] eqn:Ho; [|done]. injection Hex as <-.
  apply on_peer_Some in Ho as (r & r' & Hp & Hf & ->).
  pose proof (stateMachine_recv_identity _ _ _ Hf) as Hid.
  destruct (rel_live _ _ _ _ R Hi Hp) as (Hs & Ha & _).
  cbn [lab_cfg lab_calls lab_applied lab_history lab_read with_cfg].
  split; [eapply lab_inv_peer; eauto using identity_stopc|].
  eexists. split.
  { right. split; [apply Hbounded|]. exists (AApply i). cbn [net_exec]. rewrite Hv, Hs, Hf. done. }
  eapply (rel_peer L c i r r'); simpl; try done; [apply I|..|apply R|].
  - intros j Hj. destruct (decide (j = i)) as [->|].
    + by rewrite !fn_lookup_insert, Hj.
    + by rewrite !fn_lookup_insert_ne.
  - by rewrite (lr_history _ _ R).
Qed.

(** *** Calls *)

Local Abbreviation net0 := (cfg_net (lab_cfg L)).

Lemma follows_routed rn' k : stays_or_moves (lab_cfg L) (lab_calls L) k rn' →
  follows (with_cfg (set_net (λ _, rn') (lab_cfg L)) L) c.
Proof.
  intros [->|(p & p' & Hp & -> & Hk & Hsub)].
  - rewrite with_cfg_same. split; [done|]. exists c. auto.
  - split.
    + eapply lab_inv_move; [done|apply with_call_wiring|done|done|done].
    + exists c. split; [by left|]. apply rel_stutter; [done|].
      rewrite (packets_moved net0 _ (lab_calls L) _ k p') by done.
      etrans; [|apply (lr_packets _ _ R)]. unfold packets. rewrite (packets_split net0 (lab_calls L) (calls net0) k p) by done.
      by apply submseteq_app.
Qed.

Lemma follows_net o L' : lab_exec (LNet o) L = Some L' → follows L' c.
Proof.
  cbn [lab_exec]. unfold lab_net. destruct (routing o) eqn:Ho; [|done].
  assert (∀ rn', same_wiring net0 rn' → calls rn' = calls net0 →
    follows (with_cfg (set_net (λ _, rn') (lab_cfg L)) L) c) as Hsame.
  { intros rn' S Hc. split.
    - apply lab_inv_net; [done|done|..]; intros k; rewrite Hc; [|apply (li_known _ I)]. intros p Hk.
      apply call_known_wiring; [done|]. by apply (li_calls _ I).
    - exists c. split; [by left|]. apply rel_stutter; [done|]. etrans; [|apply (lr_packets _ _ R)].
      unfold packets. rewrite Hc. apply packets_mono. intros k p _. unfold packets_of, deliverable.
      by rewrite (sw_servers _ _ S). }
  pose proof (li_wired _ I) as W. pose proof (li_calls _ I) as K.
  destruct o; try done; cbn [net_op_exec]; intros [= <-].
  1,2: by apply Hsame.
  - eapply follows_routed, start_moves; auto.
  - eapply follows_routed, timer_moves; auto.
  - eapply follows_routed, receive_moves; auto.
  - eapply follows_routed, finish_moves; auto.
Qed.

Lemma follows_stray cid req L' : lab_exec (LStray cid req) L = Some L' → follows L' c.
Proof.
  cbn [lab_exec]. unfold lab_stray. destruct (req_endname req) as [|e] eqn:He; [done|].
  destruct (calls net0 !! cid) eqn:Hcid; [done|]. destruct (stray_end _ e) eqn:Hs; [|done]. intros [= <-].
  unfold stray_end in Hs. rewrite andb_true_iff, bool_decide_eq_true in Hs. destruct Hs as [Hin Hno].
  pose proof (li_harness _ I) as H. assert (∀ i j, ename (lab_cfg L) i j ≠ Some e) as Hne.
  { intros i j Hij. destruct (ename_range _ _ _ _ (hi_links _ _ H) Hij) as [Hi Hj].
    rewrite forallb_forall in Hno. specialize (Hno i). rewrite forallb_forall in Hno.
    rewrite <- !list_elem_of_In in Hno. setoid_rewrite <- list_elem_of_In in Hno.
    rewrite elem_of_seqZ in Hno. specialize (Hno ltac:(lia) j). rewrite elem_of_seqZ in Hno.
    specialize (Hno ltac:(lia)). by rewrite negb_true_iff, bool_decide_eq_false in Hno. }
  split.
  - eapply lab_inv_move; [done|apply with_call_wiring|done|done|]. unfold call_known.
    rewrite (li_known _ I) by done. exists e. eauto 10.
  - exists c. split; [by left|]. apply rel_stutter; [done|]. etrans; [|apply (lr_packets _ _ R)].
    rewrite (packets_moved net0 _ (lab_calls L) _ cid (mkPending req Queued HNone)) by done.
    rewrite (li_known _ I), delete_id by done. done.
Qed.

Lemma follows_call i k cid L' : valid_id n i = true → lab_call (λ m, m) i k cid L = Some L' → follows L' c.
Proof.
  intros Hv. apply valid_id_spec in Hv as Hi. unfold lab_call.
  destruct (on_peer _ _ _) as [[[m|] L1]|] eqn:Ho; [|done..].
  apply on_peer_Some in Ho as (r & r' & Hp & Hf & ->). cbn [lab_cfg with_cfg put_peer cfg_net set_rafts].
  destruct (ename _ _ _) as [e|] eqn:He; [|done]. destruct (registered _ _) as [sid|] eqn:Hreg; [|done].
  destruct (calls _ !! cid) eqn:Hcid; [done|]. intros [= <-].
  change (ename _ _ _) with (ename (lab_cfg L) i (Msg_To m)) in He.
  destruct (rel_live _ _ _ _ R Hi Hp) as (Hs & _ & _).
  pose proof (serveChannels_take_identity _ _ _ _ Hf) as Hid.
  assert (Msg_From m = i ∧ request_typed m) as [Hfrom Ht].
  { destruct (typed_reachable _ _ Hreach) as [Hty _]. destruct (Hty i) as [_ Hall]. rewrite Hs in Hall.
    unfold serveChannels_take, bind, get in Hf. destruct (propc r !! k) as [m'|] eqn:Hk; [|done].
    injection Hf as -> _. exact (Forall_lookup_1 _ _ _ _ Hall Hk). }
  pose proof (hi_links _ _ (li_harness _ I)) as Lk. pose proof (hi_n _ _ (li_harness _ I)) as Hn.
  destruct (ename_range _ _ _ _ Lk He) as [_ Hto]. destruct (lk_end _ Lk _ _ _ He) as (Hin & Hcon & _).
  set (ci := mkCall i sid m false). set (p := mkPending (mkReqMsg (inr e) (Msg_svcMeth m) (inl (Msg_args m))) Queued HNone : pending).
  assert (sent_call net0 ci p) as Hsent.
  { split; simpl; [eauto|done|done|lia|done|done]. }
  split.
  - pose proof (lab_inv_peer L i r r' (lab_applied L) (lab_history L) (lab_read L) I Hi Hp
      (identity_stopc _ _ _ Hi Hp Hid)) as I1.
    apply (lab_inv_move _ _ cid p _ _ _ _ I1); [apply with_call_wiring|done| |].
    + intros j Hj. by rewrite lookup_insert_ne.
    + unfold call_known. by rewrite lookup_insert_eq.
  - exists (set_server c i r' (net c ++ [Request m])). split.
    { right. split; [apply Hbounded|]. exists (ASend i k). cbn [net_exec]. by rewrite Hv, Hs, Hf. }
    eapply (rel_peer L c i r r'); simpl; try done; [apply I| |apply R].
    rewrite (packets_moved net0 _ (lab_calls L) _ cid p), lookup_insert_eq
      by (done || (intros j Hj; by rewrite lookup_insert_ne)).
    rewrite delete_id by done. simpl. rewrite (Permutation_app_comm (net c)). simpl.
    apply submseteq_skip, R.
Qed.

Lemma follows_dispatch cid rs v L' : lab_dispatch cid rs v L = Some L' → follows L' c.
Proof.
  unfold lab_dispatch. destruct (calls net0 !! cid) as [[req st [|sid|]]|] eqn:Hk; [done| |done..].
  destruct (started_known _ _ _ _ _ _ (li_calls _ I _ _ Hk)) as (ci & Hci & Hsent).
  pose proof (owner_spec (lab_cfg L) sid) as Ho. pose proof (hi_n _ _ (li_harness _ I)) as Hn.
  pose proof (sc_handler _ _ _ Hsent) as [_ Hto]. pose proof (lr_packets _ _ R) as Hpk.
  unfold packets in Hpk. rewrite (packets_split net0 _ _ cid _ Hk), Hci in Hpk. simpl in Hpk.
  destruct (owner (lab_cfg L) sid) as [i|].
  - destruct Ho as [Hi Hreg]. rewrite Hn in Hi. destruct (peer (lab_cfg L) i) as [r|] eqn:Hp; [|done].
    destruct (ProcessReq_dispatch _ _ _) as [rn'|] eqn:Hd; [|done]. intros [= <-].
    apply (dispatch_ok raft_handler cid (with_app (set_globalRand rs r) net0) rn' req st sid Hk)
      in Hd as (svc & meth & v' & Hh & Hcalls & Hw). simpl in Hh, Hcalls.
    destruct (sc_req _ _ _ Hsent) as (e & Hreq & _). simpl in Hreq. subst req. simpl in Hh.
    apply (raft_handler_serve svc meth) in Hh as (rep & -> & Hserve). apply Hto in Hreg as Hit.
    destruct (rel_live _ _ _ _ R Hi Hp) as (Hs & _ & _).
    assert (identity (app rn') = identity r) as Hid.
    { by rewrite (kept_identity _ (serve_kept _) _ _ _ Hserve). }
    destruct (take_packet _ _ _ Hpk) as (k & Hkn & Hrest).
    assert (same_wiring net0 (with_app tt rn')) as S by (by destruct Hw).
    split.
    + pose proof (lab_inv_peer L i r _ (lab_applied L) (lab_history L) (lab_read L) I Hi Hp
        (identity_stopc _ _ _ Hi Hp Hid)) as I1.
      eapply (lab_inv_move _ _ cid _ _ _ _ _ I1); [exact S|exact Hcalls|done|].
      unfold call_known. simpl. rewrite Hci. by eapply sent_call_done.
    + exists (set_server c i (app rn') (delete k (net c) ++ [Response (resp_message (ci_msg ci) rep)])). split.
      { right. split; [apply Hbounded|]. exists (ADeliver k rs). cbn [net_exec]. rewrite Hkn.
        unfold with_rand. rewrite <- Hit, Hs, Hserve. done. }
      eapply (rel_peer L c i r); simpl; try done; [apply I| |apply R].
      rewrite (packets_moved net0 (with_app tt rn') _ _ cid _ Hcalls (sw_servers _ _ S)) by done. rewrite Hci.
      rewrite (Permutation_app_comm (delete k (net c))). apply submseteq_app; [|done].
      unfold packets_of. simpl. case_match; [done|apply submseteq_nil_l].
  - destruct (ProcessReq_dispatch _ _ _) as [rn'|] eqn:Hd; [|done]. intros [= <-].
    apply (dispatch_ok _ _ _ _ _ _ _ Hk) in Hd as (svc & meth & v' & _ & Hcalls & Hw).
    assert (same_wiring net0 rn') as S by (by destruct Hw). split.
    + eapply lab_inv_move; [done|exact S|exact Hcalls|done|].
      unfold call_known. rewrite Hci. by eapply sent_call_done.
    + exists c. split; [by left|]. apply rel_stutter; [done|].
      rewrite (packets_moved net0 rn' _ _ cid _ Hcalls (sw_servers _ _ S)) by done. rewrite Hci.
      assert (deliverable net0 st = false) as Hdl.
      { pose proof (sc_stage _ _ _ Hsent) as Hst. unfold stage_at in Hst. simpl in Hst.
        destruct st as [|s sid' rel lr|rel lr dead [rep|]|rep]; try done; simpl.
        - destruct Hst as (-> & _ & [[= <-]|[? ?]]); [|done]. apply bool_decide_eq_false. intros Hs.
          apply (Ho (Msg_To (ci_msg ci))); [rewrite Hn; apply Hsent|]. unfold registered. by rewrite Hs.
        - by destruct Hst as [->|?]. }
      unfold packets_of. simpl. rewrite Hdl, andb_false_r. etrans; [|exact Hpk].
      destruct v' as [|]; simpl; by apply submseteq_cons.
Qed.

Lemma follows_return cid rs L' : lab_return cid rs L = Some L' → follows L' c.
Proof.
  unfold lab_return. destruct (lab_calls L !! cid) as [[i sid m []]|] eqn:Hci; [done| |done].
  unfold Call_result. destruct (calls net0 !! cid) as [[req st h]|] eqn:Hk; [|done].
  destruct st as [| | |rep]; [done..|]. set (ks' := <[cid := mkCall i sid m true]> (lab_calls L)).
  pose proof (li_calls _ I _ _ Hk) as Hc. unfold call_known in Hc. rewrite Hci in Hc.
  pose proof (lr_packets _ _ R) as Hpk. unfold packets in Hpk.
  rewrite (packets_split net0 _ _ cid _ Hk), Hci in Hpk.
  assert (∀ k, k ≠ cid → ks' !! k = lab_calls L !! k) as Hks by (intros; by apply lookup_insert_ne).
  set (L1 := mkLab (lab_cfg L) ks' (lab_applied L) (lab_history L) (lab_read L)).
  assert (packets net0 ks' ≡ₚ packets_of net0 (Some (mkCall i sid m true)) (mkPending req (Done rep) h) ++
    packets_at net0 (lab_calls L) (delete cid (calls net0))) as Hpk'.
  { rewrite (packets_moved net0 net0 (lab_calls L) ks' cid (mkPending req (Done rep) h))
      by (done || by rewrite insert_id).
    unfold ks'. by rewrite lookup_insert_eq. }
  assert (lab_inv L1) as I1.
  { assert (set_net (λ _, net0) (lab_cfg L) = lab_cfg L) as Hset by (by destruct (lab_cfg L)).
    unfold L1. rewrite <- Hset at 1.
    apply (lab_inv_move L net0 cid (mkPending req (Done rep) h)); [done|done|by rewrite insert_id|done|].
    unfold call_known, ks'. rewrite lookup_insert_eq. by destruct Hc. }
  assert (follows L1 c) as Hdone.
  { split; [done|]. exists c. split; [by left|]. split; [apply R| |apply R]. simpl. rewrite Hpk'.
    etrans; [|exact Hpk]. apply submseteq_app; [|done]. unfold packets_of. simpl.
    repeat case_match; done || apply submseteq_nil_l. }
  destruct (rep_ok rep) eqn:Hok; [|by intros [= <-]].
  destruct (rep_reply rep) as [[?|rp]|] eqn:Hrp; [by intros [= <-]| |by intros [= <-]].
  case_decide as Hreg; [|by intros [= <-]].
  destruct (on_peer _ _ _) as [[m' L2]|] eqn:Ho; [|done]. intros [= <-]. simpl.
  apply on_peer_Some in Ho as (r & r' & Hp & Hf & ->). change (lab_cfg L1) with (lab_cfg L) in *.
  pose proof (sc_stage _ _ _ Hc) as [->|Hh]; [done|]. simpl in Hh. subst h.
  destruct rep as [ok orep]. simpl in Hok, Hrp. subst ok orep. simpl in Hpk.
  destruct (take_packet _ _ _ Hpk) as (k & Hkn & Hrest). destruct (sc_from _ _ _ Hc) as [Hfrom Hi]. simpl in Hfrom, Hi.
  assert (Msg_To (resp_message m rp) = i) as Hto.
  { destruct (typed_reachable _ _ Hreach) as [_ Hty]. pose proof (Forall_lookup_1 _ _ _ _ Hty Hkn) as Ht.
    destruct rp; [|done..]. simpl in Ht. pose proof (sc_typed _ _ _ Hc) as Hq. simpl in Hq.
    unfold response_typed, request_typed in *. destruct (Msg_args m); [done|..];
      destruct Hq as (Hq & _); destruct (Msg_reply m); try done; congruence. }
  destruct (rel_live _ _ _ _ R Hi Hp) as (Hs & _ & _).
  pose proof (drawing_identity rs _ (kept_identity _ (Step_kept _)) _ _ _ Hf) as Hid.
  split; [eapply (lab_inv_peer L1); eauto using identity_stopc|].
  exists (set_server c i r' (delete k (net c))). split.
  { right. split; [apply Hbounded|]. exists (ADeliver k rs). cbn [net_exec]. rewrite Hkn, Hto.
    unfold with_rand. rewrite Hs. unfold drawing, bind, modify in Hf. by rewrite Hf. }
  eapply (rel_peer L c i r); simpl; try done; [apply I| |apply R]. by rewrite Hpk'.
Qed.

(** *** The harness *)

Lemma rel_handed i : 0 ≤ i < n → handed_over (lab_cfg L) i = Persister_Copy (persister (servers c i)).
Proof.
  intros Hi. destruct (lr_server _ _ R i Hi) as [Hs Hid]. destruct (peer _ i) as [r|] eqn:Hp; [|apply Hs].
  destruct Hs as [Hs _]. rewrite Hs in Hid |- *. pose proof (hi_procs _ _ (li_harness _ I)) as P.
  unfold peer in Hp. destruct (go_at (rafts _) i) as [[r1|]|] eqn:Hr; simplify_eq/=.
  destruct (pr_alive _ P _ _ Hr) as [_ Hsv]. unfold handed_over, last_saved. rewrite Hsv, Hr. simpl.
  unfold identity in Hid. unfold Persister_Copy. by injection Hid as _ _ _ ->.
Qed.

(** Peers and saved persisters stay where they are. *)
Lemma follows_harness cfg' :
  harness_inv n cfg' → wired cfg' → extends net0 (cfg_net cfg') →
  calls (cfg_net cfg') = calls net0 → (∀ i j, ename cfg' i j = ename (lab_cfg L) i j) →
  (∀ i, 0 ≤ i < n → handed_over cfg' i = handed_over (lab_cfg L) i) →
  (∀ i r, peer cfg' i = Some r → peer (lab_cfg L) i = Some r) →
  follows (with_cfg cfg' L) c.
Proof.
  intros H' W' E Hc Hn Hh Hp. split.
  - apply lab_inv_harness; auto. intros i j e _. by rewrite Hn.
  - exists c. split; [by left|]. split; simpl; [|etrans; [|apply R]|apply R].
    2: { apply packets_extends; [done|done|apply I]. }
    intros i Hi. unfold server_rel. simpl. pose proof (lr_server _ _ R i Hi) as [Hs Hid]. split; [|done].
    destruct (peer cfg' i) as [r|] eqn:Hpi; [by rewrite (Hp _ _ Hpi) in Hs|].
    split; [|by rewrite Hh, rel_handed].
    by apply (bounded_spec n c i), Hi; apply Hbounded.
Qed.

Lemma follows_rewired cfg' :
  harness_inv n cfg' → rewired (lab_cfg L) cfg' → follows (with_cfg cfg' L) c.
Proof.
  intros H' Hr. destruct (rewired_extends _ _ Hr) as [E Hc].
  apply follows_harness; [done|by eapply wired_rewired, I|done|done|..];
    by destruct Hr as (rn & l & -> & _).
Qed.

Lemma crashed_handed i cfg' :
  0 ≤ i < n → crashed i (lab_cfg L) cfg' → ∀ j, handed_over cfg' j = handed_over (lab_cfg L) j.
Proof.
  intros Hi (_ & _ & _ & _ & _ & Er & Es & _) j. pose proof (hi_procs _ _ (li_harness _ I)) as P.
  pose proof (hi_n _ _ (li_harness _ I)) as Hn. unfold handed_over. do 2 f_equal.
  unfold last_saved at 1. rewrite Es, Er.
  rewrite !go_at_insert by (rewrite ?(pr_saved_len _ P), ?(pr_rafts_len _ P); lia).
  case_decide; [|done]. subst j. by destruct (last_saved (lab_cfg L) i).
Qed.

Lemma follows_crashed i cfg' :
  0 ≤ i < n → harness_inv n cfg' → crashed i (lab_cfg L) cfg' → follows (with_cfg cfg' L) c.
Proof.
  intros Hi H' Hcr. destruct (crashed_extends _ _ _ Hcr) as [E Hc].
  pose proof (hi_procs _ _ (li_harness _ I)) as P. pose proof (hi_n _ _ (li_harness _ I)) as Hn.
  apply follows_harness; [done| |done|done|..].
  - eapply (wired_crashed i); [done|lia|done|apply I].
  - intros. unfold ename. by destruct Hcr as (_ & -> & _).
  - intros j _. by eapply crashed_handed.
  - intros j r. rewrite (peer_insert (lab_cfg L) cfg' i None j); [by case_decide|done|lia|apply Hcr].
Qed.

Lemma follows_started names rand i cfg' :
  0 ≤ i < n → fresh_names (lab_cfg L) names → harness_inv n cfg' →
  started names rand i (lab_cfg L) cfg' →
  follows (mkLab cfg' (lab_calls L) (<[i := []]> (lab_applied L)) (lab_history L) (lab_read L)) c.
Proof.
  intros Hi Hf H' Hst. destruct (started_extends _ _ _ _ _ Hf Hst) as [E Hc].
  pose proof (li_harness _ I) as H. pose proof (hi_procs _ _ H) as P. pose proof (hi_n _ _ H) as Hn.
  split.
  { apply lab_inv_harness; auto.
    - eapply (wired_started names rand i); [apply H|done|lia|done|done|apply I].
    - intros i' j e. apply (started_names names rand i); [apply H|lia|done|done]. }
  destruct Hst as (_ & _ & _ & _ & (r & HM & Er) & _ & _ & Es & _). rewrite Hn, rel_handed in HM by done.
  pose proof (lr_server _ _ R i Hi) as [_ Hid]. pose proof (Make_identity _ _ _ _ _ HM) as HidM.
  unfold identity in Hid. injection Hid as Hps Hme _ Hsn. simpl in HidM. rewrite Hsn in HidM.
  eexists. split.
  { right. split; [apply Hbounded|]. exists (ARestart i rand). cbn [net_exec].
    rewrite (proj2 (valid_id_spec n i) Hi), Hps, Hme, HM. done. }
  split; simpl; [|etrans; [|apply R]|apply R]; [|apply packets_extends; [done|done|apply I]].
  intros j Hj. unfold server_rel. simpl.
  rewrite (peer_insert (lab_cfg L) cfg' i (Some r) j) by (done || lia). case_decide as Hji.
  { subst j. rewrite !fn_lookup_insert. auto. }
  rewrite !fn_lookup_insert_ne by done. destruct (lr_server _ _ R j Hj) as [Hsj Hidj]. split; [|done].
  destruct (peer (lab_cfg L) j); [done|]. destruct Hsj as [? <-]. split; [done|].
  unfold handed_over, last_saved. rewrite Es, Er.
  by rewrite !go_at_insert, !decide_False by (done || rewrite ?(pr_saved_len _ P), ?(pr_rafts_len _ P); lia).
Qed.

Lemma follows_read i L' : lab_reader i L = Some L' → follows L' c.
Proof.
  unfold lab_reader. destruct (_ !! _) as [m|]; [|done].
  destruct (applier i m (lab_cfg L)) as [[[] cfg']|] eqn:Ha; [|done]. intros [= <-].
  pose proof (hstep_inv n _ _ (HApply _ _ _ _ Ha) (li_harness _ I)) as H'.
  destruct (applier_only_logs _ _ _ _ Ha) as [l ->].
  destruct (follows_harness (set_logs l (lab_cfg L))) as [[I1 I2 I3 I4] (c' & Hc' & [R1 R2 R3])]; try done.
  { destruct (li_wired _ I). by split. }
  split; [by split|]. exists c'. split; [done|]. by split.
Qed.

Lemma lab_harness_Some f L' :
  lab_harness f L = Some L' → ∃ u cfg', f (lab_cfg L) = Ok (u, cfg') ∧ L' = with_cfg cfg' L.
Proof. unfold lab_harness. destruct (f _) as [[u cfg']|] eqn:Hf; [|done]. intros [= <-]. eauto. Qed.

Lemma lab_restart_follows i names rand L' :
  valid_id n i = true → lab_exec (LRestart i names rand) L = Some L' → follows L' c.
Proof.
  intros Hv. pose proof (li_harness _ I) as H. cbn [lab_exec]. rewrite (hi_n _ _ H), Hv.
  apply valid_id_spec in Hv. cbn [andb]. destruct (fresh_namesb _ names) eqn:Hf; [|done].
  apply fresh_namesb_spec in Hf. destruct (lab_harness _ _) as [L1|] eqn:Ho; [|done]. intros [= <-].
  apply lab_harness_Some in Ho as (u & cfg' & Hst & ->).
  destruct (wp_ok _ _ _ _ _ _ (start1_inv n names rand (lab_cfg L) i H Hv Hf) Hst).
  by apply (follows_started names rand i).
Qed.

(** Every step is matched by at most one action of the cluster. *)
Lemma lab_exec_follows a L' : lab_exec a L = Some L' → follows L' c.
Proof.
  intros Hex. pose proof (li_harness _ I) as H. pose proof (hi_n _ _ H) as Hn.
  destruct a as [i|i rs|i cmd|i|i|i k cid|cid req|o|cid rs v|cid rs|i|i|i|i names rand].
  all: try (destruct (valid_id n i) eqn:Hv; [|by cbn [lab_exec] in Hex; rewrite Hn, Hv in Hex]);
    try (pose proof (proj1 (valid_id_spec n i) Hv) as Hi).
  - cbn [lab_exec] in Hex. rewrite Hn, Hv in Hex. apply fmap_Some in Hex as ([[] L1] & Ho & ->).
    eapply (follows_local i Tick (ATimer i)); [done|done|apply Tick_identity|].
    intros r' Hr. cbn [net_exec]. by rewrite Hv, Hr.
  - cbn [lab_exec] in Hex. rewrite Hn, Hv in Hex. destruct (peer _ i) as [r|] eqn:Hp; [|done].
    destruct (0 <? tickc r) eqn:Ht; [|done]. apply fmap_Some in Hex as ([[] L1] & Ho & ->).
    eapply (follows_local i _ (ATick i rs)); [done|done|apply drawing_identity, kept_identity, run_tick_kept|].
    intros r' Hr. cbn [net_exec]. destruct (rel_live _ _ _ _ R Hi Hp) as (Hs & _ & _).
    rewrite Hv, Hs, Ht. unfold with_rand. cbn [andb]. unfold drawing, bind, modify in Hr. by rewrite Hr.
  - cbn [lab_exec] in Hex. rewrite Hn, Hv in Hex. apply fmap_Some in Hex as ([a L1] & Ho & ->).
    eapply (follows_local i _ (AStart i cmd)); [done|done|apply kept_identity, Start_kept|].
    intros r' Hr. cbn [net_exec]. by rewrite Hv, Hr.
  - by eapply follows_apply.
  - by eapply follows_read.
  - cbn [lab_exec] in Hex. rewrite Hn, Hv in Hex. by eapply follows_call.
  - by eapply follows_stray.
  - by eapply follows_net.
  - by eapply follows_dispatch.
  - by eapply follows_return.
  - cbn [lab_exec] in Hex. rewrite Hn, Hv in Hex. apply lab_harness_Some in Hex as (u & cfg' & Hc & ->).
    destruct (wp_ok _ _ _ _ _ _ (connect_inv n (lab_cfg L) i H Hi) Hc) as (? & ? & _).
    by apply follows_rewired.
  - cbn [lab_exec] in Hex. rewrite Hn, Hv in Hex. apply lab_harness_Some in Hex as (u & cfg' & Hc & ->).
    destruct (wp_ok _ _ _ _ _ _ (disconnect_inv n (lab_cfg L) i H Hi) Hc). by apply follows_rewired.
  - cbn [lab_exec] in Hex. rewrite Hn, Hv in Hex. apply lab_harness_Some in Hex as (u & cfg' & Hc & ->).
    destruct (wp_ok _ _ _ _ _ _ (crash1_inv n (lab_cfg L) i H Hi) Hc). by apply (follows_crashed i).
  - by eapply lab_restart_follows.
Qed.

End steps.

(** ** Runs *)

(** The cluster [make_config] starts. *)
Lemma lab_start_rel cfg unreliable names rand :
  0 ≤ n → distinct_names n names → make_config n unreliable names rand = Ok cfg →
  ∃ c, initial n c ∧ lab_inv (lab_start cfg) ∧ lab_rel (lab_start cfg) c.
Proof.
  intros Hn Hd Hmk. destruct (make_config_attached (V := rpcval) n Hn names rand Hd unreliable)
    as (cfg' & Hmk' & H & _ & _ & W & Hcl & Hr).
  rewrite Hmk in Hmk'. injection Hmk' as <-.
  exists (mkConfig (λ i, match Make (seqZ 0 n) i MakePersister (rand i) with
    | Ok r => r | Panic _ => new_Raft (seqZ 0 n) i MakePersister [] end) [] (λ _, []) []). split_and!.
  - split_and!; [|done..]. intros i. exists (rand i). cbn [servers].
    by destruct (Make_spec (seqZ 0 n) i (MakePersister (C := Z)) (rand i)) as (r & -> & _).
  - split; simpl; [done|done| |done]. rewrite Hcl. by intros k p.
  - split; [|unfold packets; simpl; by rewrite Hcl|done]. intros i Hi. unfold server_rel, peer.
    destruct (Hr i Hi) as (r & Hri & HM). cbn [lab_cfg lab_start servers]. rewrite Hri, HM.
    by rewrite (Make_identity _ _ _ _ _ HM).
Qed.

(** What the simulation keeps of a run. *)
Definition simulated L : Prop := ∃ c, reachable n c ∧ lab_inv L ∧ lab_rel L c.

Lemma simulated_step L L' : lab_step L L' → simulated L → simulated L'.
Proof.
  intros [Hb [a Hex]] (c & Hr & I & R).
  destruct (lab_exec_follows L c I R Hb Hr a L' Hex) as [I' (c' & Hc' & R')]. exists c'.
  split; [|done]. destruct Hc' as [->|Hs]; [done|by eapply reachable_step].
Qed.

Lemma lab_simulated L : 0 ≤ n → lab_reachable n L → simulated L.
Proof.
  intros Hn (cfg & unreliable & names & rand & Hd & Hmk & Hr).
  eapply (rtc_keeps lab_step simulated); [apply simulated_step|exact Hr|].
  destruct (lab_start_rel cfg unreliable names rand Hn Hd Hmk) as (c & Hi & I & R).
  exists c. split; [|done]. exists c. split; [done|apply rtc_refl].
Qed.

(** ** The readers of [applyCh] *)

(** The readers have taken the messages in order, and their logs hold the commands. *)
Definition readers_ok L : Prop :=
  logs_hold n (lab_read L) (lab_cfg L) ∧ taken (lab_read L) (lab_history L).

Definition all_ints L : Prop := ∀ i m, (i, m) ∈ lab_history L → is_Some (Apply_Command m).

(** Only the readers touch the logs. *)
Lemma lab_exec_logs L L' a :
  harness_inv n (lab_cfg L) → lab_exec a L = Some L' → (∀ i, a ≠ LRead i) →
  logs (lab_cfg L') = logs (lab_cfg L) ∧ lab_read L' = lab_read L ∧
  lab_history L `prefix_of` lab_history L'.
Proof.
  intros H Hex Hne. pose proof (hi_n _ _ H) as Hn.
  assert (∀ A i (f : M Raft A) x L1, on_peer i f L = Some (x, L1) →
    logs (lab_cfg L1) = logs (lab_cfg L) ∧ lab_read L1 = lab_read L ∧ lab_history L1 = lab_history L) as Hon
    by (by intros A i f x L1 (r & r' & _ & _ & ->)%on_peer_Some).
  destruct a as [i|i rs|i cmd|i|i|i k cid|cid req|o|cid rs v|cid rs|i|i|i|i names rand];
    cbn [lab_exec] in Hex; try (by destruct (Hne i)); rewrite ?Hn in Hex;
    try (destruct (valid_id n i) eqn:Hv; [apply valid_id_spec in Hv|done]); cbn [andb] in Hex.
  1,3: apply fmap_Some in Hex as ([x L1] & Ho & ->); cbn [snd]; by apply Hon in Ho as (-> & -> & ->).
  - destruct (match peer _ i with Some _ => _ | None => _ end); [|done].
    apply fmap_Some in Hex as ([x L1] & Ho & ->). cbn [snd]. by apply Hon in Ho as (-> & -> & ->).
  - destruct (on_peer _ _ _) as [[ms L1]|] eqn:Ho; [|done]. injection Hex as <-. simpl.
    apply Hon in Ho as (-> & -> & ->). split_and!; [done..|]. by apply prefix_app_r.
  - unfold lab_call in Hex. destruct (on_peer _ _ _) as [[[m|] L1]|] eqn:Ho; [|done..].
    apply Hon in Ho as (<- & <- & <-). repeat case_match; try done. by injection Hex as <-.
  - unfold lab_stray in Hex. repeat case_match; try done. by injection Hex as <-.
  - unfold lab_net in Hex. repeat case_match; try done. by injection Hex as <-.
  - unfold lab_dispatch in Hex. repeat case_match; try done; by injection Hex as <-.
  - unfold lab_return in Hex. destruct (lab_calls L !! cid) as [[? ? ? []]|]; [done| |done].
    destruct (Call_result _ _) as [res|]; [|done].
    destruct res as [[?|rep]|]; [by injection Hex as <-| |by injection Hex as <-].
    case_decide; [|by injection Hex as <-]. apply fmap_Some in Hex as ([x L1] & Ho & ->).
    by apply on_peer_Some in Ho as (r & r' & _ & _ & ->).
  - apply lab_harness_Some in Hex as (u & cfg' & Hc & ->).
    destruct (wp_ok _ _ _ _ _ _ (connect_inv n (lab_cfg L) i H Hv) Hc) as (_ & (rn & l & -> & _) & _). done.
  - apply lab_harness_Some in Hex as (u & cfg' & Hc & ->).
    destruct (wp_ok _ _ _ _ _ _ (disconnect_inv n (lab_cfg L) i H Hv) Hc) as (_ & (rn & l & -> & _)). done.
  - apply lab_harness_Some in Hex as (u & cfg' & Hc & ->).
    destruct (wp_ok _ _ _ _ _ _ (crash1_inv n (lab_cfg L) i H Hv) Hc) as (_ & _ & _ & El & _). done.
  - destruct (fresh_namesb _ names) eqn:Hf; [|done]. apply fresh_namesb_spec in Hf.
    destruct (lab_harness _ _) as [L1|] eqn:Ho; [|done]. injection Hex as <-.
    apply lab_harness_Some in Ho as (u & cfg' & Hst & ->).
    destruct (wp_ok _ _ _ _ _ _ (start1_inv n names rand (lab_cfg L) i H Hv Hf) Hst) as (_ & _ & El & _). done.
Qed.

Lemma next_taken i m (rd h : list (Z * ApplyMsg Z)) :
  taken rd h → by_server i h !! length (by_server i rd) = Some m → taken (rd ++ [(i, m)]) h.
Proof.
  intros Ht Hm j. rewrite by_server_app. change [(i, m)] with (map (pair i) [m]).
  rewrite by_server_pairs. case_match; boolify; [|rewrite app_nil_r; apply Ht]. subst j.
  destruct (Ht i) as [k Hk]. rewrite Hk in Hm |- *. rewrite lookup_app_r, Nat.sub_diag in Hm by lia.
  destruct k as [|m' k]; [done|]. injection Hm as ->. exists k. by rewrite <- app_assoc.
Qed.

Section safety.
Context (Hn : 2 ≤ n).

(** The checks of a reader pass. *)
Lemma reader_accepts L i m :
  simulated L → all_ints L → readers_ok L →
  by_server i (lab_history L) !! length (by_server i (lab_read L)) = Some m →
  wp (λ _, False) (applier i m) (λ _ cfg', logs_hold n (lab_read L ++ [(i, m)]) cfg') (lab_cfg L).
Proof.
  intros (c & Hr & I & R) Hint [HL Ht] Hm. pose proof (next_taken _ _ _ _ Ht Hm) as Ht'.
  rewrite <- (lr_history _ _ R) in Ht, Ht', Hm.
  destruct (reachable_ordered n Hn c Hr) as [Hord _ Hrange].
  assert (∀ p, p ∈ lab_read L ++ [(i, m)] → p ∈ history c) as Hin by (intros []; by eapply (taken_elem n)).
  assert (∀ j m', (j, m') ∈ history c → is_Some (Apply_Command m')) as Hsome
    by (intros j m'; rewrite (lr_history _ _ R); apply Hint).
  assert ((i, m) ∈ history c) as Him by (apply Hin; set_solver). destruct (Hsome _ _ Him) as [v Hv].
  eapply wp_mono; [apply (applier_accepts n Hn (lab_read L) i m v); [done| |by eapply Hrange|done|..]|].
  - intros j k m1 m2 ??. apply (reachable_agreed n Hn c Hr j k); by apply Hin.
  - intros m' ?. apply (Hsome i), Hin. set_solver.
  - pose proof (in_order_prefix _ _ (Ht' i) (Hord i)) as Ho. rewrite by_server_app in Ho.
    unfold by_server in Ho at 2. simpl in Ho. rewrite Z.eqb_refl in Ho.
    destruct (Ho _ _ _ eq_refl) as [?|(m' & Hm' & ?)]; [by left|right].
    exists m'. by rewrite <- elem_of_by_server.
  - by intros _ cfg' [? _].
Qed.

Lemma readers_step L L' :
  lab_step L L' → simulated L → all_ints L' → (all_ints L → readers_ok L) → readers_ok L'.
Proof.
  intros [Hb [a Hex]] S Hint Hok.
  assert ((∃ i, a = LRead i) ∨ ∀ i, a ≠ LRead i) as [[i ->]|Hne] by (destruct a; eauto).
  - cbn [lab_exec] in Hex. unfold lab_reader in Hex. destruct (_ !! _) as [m|] eqn:Hm; [|done].
    destruct (applier i m (lab_cfg L)) as [[[] cfg']|] eqn:Ha; [|done]. injection Hex as <-.
    pose proof (Hok Hint) as HL. split; simpl; [|by apply next_taken; [apply HL|]].
    exact (wp_ok _ _ _ _ _ _ (reader_accepts L i m S Hint HL Hm) Ha).
  - destruct S as (c & _ & I & _). destruct (lab_exec_logs L L' a (li_harness _ I) Hex Hne) as (El & Er & Hp).
    destruct Hok as [HL Ht].
    { intros i m Hin. apply (Hint i). destruct Hp as [k ->]. apply elem_of_app. by left. }
    split; rewrite Er.
    + unfold logs_hold in *. by rewrite El.
    + intros i. etrans; [apply Ht|]. destruct Hp as [k ->]. rewrite by_server_app. by apply prefix_app_r.
Qed.

Lemma lab_readers L : lab_reachable n L → all_ints L → readers_ok L.
Proof.
  intros (cfg & unreliable & names & rand & Hd & Hmk & Hr).
  assert (simulated (lab_start cfg) ∧ (all_ints (lab_start cfg) → readers_ok (lab_start cfg))) as H0.
  { destruct (lab_start_rel cfg unreliable names rand ltac:(lia) Hd Hmk) as (c & Hi & I & R).
    split; [exists c; split; [exists c; split; [done|apply rtc_refl]|done]|]. intros _.
    destruct (make_config_attached (V := rpcval) n ltac:(lia) names rand Hd unreliable)
      as (cfg' & Hmk' & _ & _ & Hnl & _). rewrite Hmk in Hmk'. injection Hmk' as <-.
    split; [by apply no_logs_hold|]. intros i. done. }
  apply (rtc_keeps lab_step (λ L, simulated L ∧ (all_ints L → readers_ok L))) in Hr; [apply Hr| |done].
  intros L1 L2 Hs [S1 Hok]. split; [by eapply simulated_step|]. intros Hint. by eapply readers_step.
Qed.

End safety.

(** ** Requests *)

Lemma raft_services_found (m : RaftTypes.Message Z) sv :
  request_typed m → sv_services sv = sv_services raft_server →
  ∃ svc meth service, split_svcMeth (Msg_svcMeth m) = Some (svc, meth) ∧
    sv_services sv !! svc = Some service ∧ meth ∈ svc_methods service ∧
    ∀ r o r', serve m r = Ok (o, r') → ∃ v, raft_handler (svc_name service) meth (inl (Msg_args m)) r = Ok (v, r').
Proof.
  intros Ht ->. unfold request_typed in Ht.
  destruct (Msg_args m) as [|a|a] eqn:Ha; [done|..]; destruct Ht as (_ & -> & _).
  - exists "Raft", "RequestVote", (MakeService "Raft" raft_methods). split_and!; [vm_compute; reflexivity..| |].
    { apply (bool_decide_unpack _). vm_compute. exact Logic.I. }
    intros r o r'. unfold serve, raft_handler, bind. rewrite Ha, decide_True by done.
    destruct (RequestVote a r) as [[rep r1]|]; [|done]. intros [= _ <-]. eauto.
  - exists "Raft", "AppendEnties", (MakeService "Raft" raft_methods). split_and!; [vm_compute; reflexivity..| |].
    { apply (bool_decide_unpack _). vm_compute. exact Logic.I. }
    intros r o r'. unfold serve, raft_handler, bind. rewrite Ha, decide_True by done.
    destruct (AppendEnties a r) as [[rep r1]|]; [|done]. intros [= _ <-]. eauto.
Qed.

(** ** Theorems *)

(** The system refines the cluster: in every run of the peers, the simulated network and the harness
    together there is a run of the cluster of RaftNet.v with the same running peers, in which the
    same commands have been applied, and in which every request that has not been answered and
    every answer that can still reach its caller is in flight. *)
Lemma lab_follows_cluster L :
  0 ≤ n → lab_reachable n L →
  ∃ c, reachable n c ∧
    (∀ i r, 0 ≤ i < n → peer (lab_cfg L) i = Some r → servers c i = r ∧ applied c i = lab_applied L i) ∧
    history c = lab_history L ∧ packets (cfg_net (lab_cfg L)) (lab_calls L) ⊆+ net c.
Proof.
  intros Hn (c & Hr & I & R)%lab_simulated; [|done]. exists c. split_and!; [done| |apply R..].
  intros i r Hi Hp. destruct (rel_live _ _ _ _ R Hi Hp) as (? & ? & _). done.
Qed.

(** The tests' own checks pass: when the commands are integers, the next message any reader of
    [applyCh] takes passes its checks, and no two running peers lead in the same term. *)
Lemma lab_checks_pass L :
  2 ≤ n → lab_reachable n L → all_ints L →
  (∀ i m, by_server i (lab_history L) !! length (by_server i (lab_read L)) = Some m →
     ∃ L', lab_exec (LRead i) L = Some L' ∧ lab_read L' = lab_read L ++ [(i, m)]) ∧
  (∀ i j ri rj, 0 ≤ i < n → 0 ≤ j < n → peer (lab_cfg L) i = Some ri → peer (lab_cfg L) j = Some rj →
     state ri = StateLeader → state rj = StateLeader → currentTerm ri = currentTerm rj → i = j).
Proof.
  intros Hn Hr Hint. pose proof (lab_simulated L ltac:(lia) Hr) as S. split.
  - intros i m Hm. pose proof (lab_readers Hn L Hr Hint) as Hok.
    destruct (wp_total _ _ _ (reader_accepts Hn L i m S Hint Hok Hm)) as ([] & cfg' & Ha & _).
    cbn [lab_exec]. unfold lab_reader. rewrite Hm, Ha. eauto.
  - destruct S as (c & Hrc & _ & R). intros i j ri rj Hi Hj Hpi Hpj Hli Hlj Ht.
    destruct (rel_live _ _ _ _ R Hi Hpi) as (Ei & _), (rel_live _ _ _ _ R Hj Hpj) as (Ej & _).
    apply (leader_along n Hn c c i j); [done|apply rtc_refl|done|done|congruence..].
Qed.

(** No request the network delivers crashes the receiver.  Whenever a call has reached a server,
    the server finds the service and the method it names, with arguments of the right type, and
    the handler returns. *)
Theorem lab_requests_served L cid req st sid rs v :
  2 ≤ n → lab_reachable n L →
  calls (cfg_net (lab_cfg L)) !! cid = Some (mkPending req st (HStarted sid)) →
  ∃ L', lab_exec (LDispatch cid rs v) L = Some L'.
Proof.
  intros Hn (c & Hr & I & R)%lab_simulated Hk; [|lia].
  destruct (started_known _ _ _ _ _ _ (li_calls _ I _ _ Hk)) as (ci & Hci & Hsent).
  pose proof (sc_handler _ _ _ Hsent) as [[sv Hsv] Hto]. simpl in Hsv.
  destruct (sc_req _ _ _ Hsent) as (e & Hreq & _). simpl in Hreq. subst req.
  destruct (raft_services_found (ci_msg ci) sv (sc_typed _ _ _ Hsent) (wd_services _ (li_wired _ I) _ _ Hsv))
    as (svc & meth & service & Hsplit & Hsvc & Hmeth & Hserve).
  cbn [lab_exec]. unfold lab_dispatch. rewrite Hk.
  pose proof (owner_spec (lab_cfg L) sid) as Ho. pose proof (hi_n _ _ (li_harness _ I)) as HN.
  unfold ProcessReq_dispatch, Server_dispatch, Service_dispatch. cbn [with_app calls heap app].
  rewrite Hk, Hsv. cbn [req_svcMeth req_args]. rewrite Hsplit, Hsvc, decide_True by done.
  destruct (owner (lab_cfg L) sid) as [i|]; [|eauto]. destruct Ho as [Hi Hreg].
  pose proof (wd_server _ (li_wired _ I) i Hi) as Hw. rewrite Hreg in Hw.
  destruct (peer (lab_cfg L) i) as [r|] eqn:Hp; [|done]. rewrite HN in Hi.
  pose proof (lr_packets _ _ R) as Hpk. unfold packets in Hpk.
  rewrite (packets_split _ _ _ cid _ Hk), Hci in Hpk. destruct (take_packet _ _ _ Hpk) as (k & Hkn & _).
  destruct (request_served n Hn c k (ci_msg ci) rs Hr Hkn) as (o & r' & Hok). unfold with_rand in Hok.
  rewrite <- (Hto i Hreg) in Hok. destruct (rel_live _ _ _ _ R Hi Hp) as (Hs & _). rewrite Hs in Hok.
  destruct (Hserve _ _ _ Hok) as [v' Hv']. rewrite decide_True, Hv' by done. eauto.
Qed.

End lab.

(** ** A test of three peers *)

Definition lab_trio : config (V := rpcval) :=
  match make_config 3 false trio_names (λ _, []) with
  | Ok c => c
  | Panic _ => mkCfg (MakeNetwork tt) 0 0 [] [] [] [] [] []
  end.

Definition lab_ticks (i : Z) (k : nat) : list lab_action :=
  concat (replicate k [LTimer i; LTick i [0]]).

(** The [k]-th waiting request of peer [i], as call [cid], reaches its server, and goes through. *)
Definition lab_sent (i : Z) (k cid : nat) : list lab_action := [LCall i k cid; LNet (OStart cid 0)].
Definition lab_rpc (i : Z) (k cid : nat) : list lab_action :=
  lab_sent i k cid ++
  [LDispatch cid [0] (inr NoReply); LNet (OReceive cid); LNet (OFinish cid 0); LReturn cid [0]].

(** Peer 0 is elected by peer 1.  Peer 2 crashes while a request is being served there.  Peer 0
    commits 42 with peer 1 and applies it.  Peer 2 is started again and attached, and a heartbeat
    reaches peer 1. *)
Definition lab_acts : list lab_action :=
  lab_ticks 0 10 ++ lab_rpc 0 0 1 ++ [LStart 0 (Some 42)] ++ lab_sent 0 0 2 ++
  [LCrash 2; LDispatch 2 [] (inl NoArgs)] ++ lab_rpc 0 2 3 ++ [LApply 0] ++
  [LRestart 2 (λ j, trio_names 3 j) []; LConnect 2] ++ lab_sent 0 0 4.

Definition lab_demo : Lab :=
  match lab_run lab_acts (lab_start lab_trio) with Some L => L | None => lab_start lab_trio end.

Definition lab_runs : bool :=
  match lab_run lab_acts (lab_start lab_trio) with Some _ => true | None => false end.
Definition lab_made : bool :=
  match make_config (V := rpcval) 3 false trio_names (λ _, []) with Ok _ => true | Panic _ => false end.

Lemma lab_trio_made : lab_made = true → make_config 3 false trio_names (λ _, []) = Ok lab_trio.
Proof. unfold lab_made, lab_trio. by destruct (make_config _ _ _ _). Qed.

Lemma lab_demo_run : lab_runs = true → rtc lab_step (lab_start lab_trio) lab_demo.
Proof.
  unfold lab_runs, lab_demo. destruct (lab_run _ _) as [L|] eqn:E; [|done]. intros _.
  by eapply lab_run_steps.
Qed.

Lemma lab_demo_reachable : lab_reachable 3 lab_demo.
Proof.
  exists lab_trio, false, trio_names, (λ _, []). split_and!.
  - apply trio_names_distinct.
  - apply lab_trio_made. vm_compute. reflexivity.
  - apply lab_demo_run. vm_compute. reflexivity.
Qed.

Lemma lab_requests_served_witness : ∃ L', lab_exec (LDispatch 4 [] (inl NoArgs)) lab_demo = Some L'.
Proof.
  destruct (calls (cfg_net (lab_cfg lab_demo)) !! 4%nat) as [[req st h]|] eqn:E;
    [|vm_compute in E; discriminate E].
  destruct h as [|sid|rep]; [vm_compute in E; discriminate E| |vm_compute in E; discriminate E].
  exact (lab_requests_served 3 lab_demo 4 req st sid [] (inl NoArgs) ltac:(lia) lab_demo_reachable E).
Defined.
