(* ===== verification/LabShared.v ===== *)
(** * The tested system with the memory the peers share with their requests

    LabCluster.v runs the peers on the simulated network under the test harness, with
    requests that go out as they were made.  Here each running peer has the memory
    of RaftMem.v: a request is encoded, when its [Call] is made, from the array the
    log lay in when it was made, which the peer may have overwritten since.  And
    the peers the harness has crashed are kept: [stateMachine] of such a peer may
    still send committed entries on the [applyCh] of its incarnation, whose reader
    is still there ([SLate]).

    The theorems are about the runs in which no running peer truncates its log
    while an append request of its own waits to be encoded ([calm]), and no crashed
    peer sends anything more on its [applyCh] ([settled]).  Those runs are runs of
    LabCluster.v ([settled_sim]), and so of the cluster of RaftNet.v. *)
From S2P Require Import Prelude GoRt RaftTypes Labrpc RaftNode RaftProto RaftNet RaftSpec RaftSim.
From S2P Require Import RaftSafety RaftTheorems RaftSends RaftMem RaftHarness HarnessNet HarnessTheorems LabCluster LabTheorems.
Open Scope Z_scope.

Local Abbreviation Raft := (RaftTypes.Raft Z).
Local Abbreviation config := (RaftHarness.config (V := rpcval)).

(** ** The system *)

Record SharedLab : Type := mkSharedLab {
  sl_lab : Lab;
  sl_mem : Z → Mem Z;             (* the memory of each peer's log *)
  sl_gone : list (Z * Raft);      (* the peers that were crashed *)
}.

Inductive shared_action : Type :=
| SLab (a : lab_action)
| SLate (k : nat).                (* the [k]-th crashed peer applies what it has committed *)

Definition restarts (a : lab_action) (i : Z) : bool :=
  match a with LRestart j _ _ => j =? i | _ => false end.

(** The memory after action [a], which has led to [L']. *)
Definition lab_mem (extra : nat) (a : lab_action) (L' : Lab) (mem : Z → Mem Z) (i : Z) : Mem Z :=
  match peer (lab_cfg L') i with
  | Some r => if restarts a i then mem_make r else mem_sync extra r (mem i)
  | None => mem i
  end.

(** [crash1], also at the start of [start1], takes the running peer out of [rafts]. *)
Definition leaves (a : lab_action) (L : Lab) : list (Z * Raft) :=
  match a with
  | LCrash i | LRestart i _ _ => match peer (lab_cfg L) i with Some r => [(i, r)] | None => [] end
  | _ => []
  end.

(** [extra]: the spare room in the arrays that are allocated. *)
Definition shared_lab_exec (extra : nat) (a : shared_action) (s : SharedLab) : option SharedLab :=
  let L := sl_lab s in
  match a with
  | SLab (LCall i k cid) =>
      if valid_id (cfg_n (lab_cfg L)) i then
        (λ L', mkSharedLab L' (<[i := mem_take k (sl_mem s i)]> (sl_mem s)) (sl_gone s))
          <$> lab_call (encode_at (sl_mem s i) k) i k cid L
      else None
  | SLab a' =>
      (λ L', mkSharedLab L' (lab_mem extra a' L' (sl_mem s)) (sl_gone s ++ leaves a' L)) <$> lab_exec a' L
  | SLate k =>
      match sl_gone s !! k with
      | Some (i, r) =>
          match stateMachine_recv r with
          | Ok (ms, r') =>
              match for_range ms (applier i) (lab_cfg L) with
              | Ok (_, c) => Some (mkSharedLab (with_cfg c L) (sl_mem s) (<[k := (i, r')]> (sl_gone s)))
              | Panic _ => None
              end
          | Panic _ => None
          end
      | None => None
      end
  end.

(** No running peer truncates its log under a waiting append request, and no crashed peer applies. *)
Definition settled (a : shared_action) (s s' : SharedLab) : Prop :=
  match a with
  | SLab a' => ∀ i r r', peer (lab_cfg (sl_lab s)) i = Some r → peer (lab_cfg (sl_lab s')) i = Some r' →
      restarts a' i = false → calm r r'
  | SLate _ => False
  end.

Definition shared_lab_step (s s' : SharedLab) : Prop :=
  lab_bounded (sl_lab s) = true ∧ ∃ a extra, shared_lab_exec extra a s = Some s' ∧ settled a s s'.

(** Right after [make_config]. *)
Definition shared_lab_start (c : config) : SharedLab :=
  mkSharedLab (lab_start c)
    (λ i, match peer c i with Some r => mem_make r | None => mkMem [] 0 (λ _, []) [] end) [].

Definition shared_lab_reachable (n : Z) (s : SharedLab) : Prop :=
  ∃ c unreliable names rand, distinct_names n names ∧ make_config n unreliable names rand = Ok c ∧
    rtc shared_lab_step (shared_lab_start c) s.

(** ** What a step does to the peers *)

(** A computation has left peer [r] in state [r'], having made requests. *)
Definition spawned (r r' : Raft) : Prop := ∃ ms, propc r' = propc r ++ ms ∧ Forall (sent_by r') ms.

Lemma spawned_refl r : spawned r r.
Proof. exists []. by rewrite app_nil_r. Qed.

Lemma raft_handler_spawned svc meth v r v' r' : raft_handler svc meth v r = Ok (v', r') → spawned r r'.
Proof.
  destruct v as [a|]; [|done]. intros H.
  set (m := mkMessage MsgVote 0 0 0 0 false None EmptyString a NoReply : RaftTypes.Message Z).
  change a with (Msg_args m) in H. apply raft_handler_serve in H as (rep & _ & H). by eapply serve_spawns.
Qed.

Section peers.
Context (n : Z) (L : Lab) (H : harness_inv n (lab_cfg L)).

Lemma peer_range i r : peer (lab_cfg L) i = Some r → 0 ≤ i < cfg_n (lab_cfg L).
Proof using H.
  unfold peer. destruct (go_at _ i) as [o|] eqn:E; [|done]. intros _.
  rewrite <- (pr_rafts_len _ (hi_procs _ _ H)). by eapply go_at_range.
Qed.

Lemma peer_put i r r' j :
  peer (lab_cfg L) i = Some r → peer (put_peer i r' (lab_cfg L)) j = if decide (j = i) then Some r' else peer (lab_cfg L) j.
Proof using H. intros Hp. apply peer_insert; [apply H|by eapply peer_range|done]. Qed.

Lemma on_peer_spawned {A} i (f : M Raft A) a L' :
  on_peer i f L = Some (a, L') → spawns f →
  ∀ j r', peer (lab_cfg L') j = Some r' → ∃ r, peer (lab_cfg L) j = Some r ∧ spawned r r'.
Proof using H.
  intros (r & r1 & Hp & Hf & ->)%on_peer_Some Hs j r'. cbn [lab_cfg with_cfg]. rewrite (peer_put i r r1 j Hp).
  case_decide as Hj; [|intros; exists r'; split; [done|apply spawned_refl]]. subst j. intros [= <-].
  exists r. split; [done|]. by eapply Hs.
Qed.

End peers.

Section exec.
Context (n : Z) (L : Lab) (H : harness_inv n (lab_cfg L)).

Lemma drawing_spawns {A} rs (f : M Raft A) : spawns f → spawns (drawing rs f).
Proof. intros Hf. unfold drawing. apply spawns_after; [keeps_tac|done]. Qed.

(** The peers that stay as they are. *)
Lemma kept_spawned (c' : config) :
  (∀ j r', peer c' j = Some r' → peer (lab_cfg L) j = Some r') →
  ∀ j r', peer c' j = Some r' → ∃ r, peer (lab_cfg L) j = Some r ∧ spawned r r'.
Proof. intros Hk j r' Hp. exists r'. split; [by apply Hk|apply spawned_refl]. Qed.

Lemma dispatch_spawned cid rs v L' :
  lab_dispatch cid rs v L = Some L' →
  ∀ j r', peer (lab_cfg L') j = Some r' → ∃ r, peer (lab_cfg L) j = Some r ∧ spawned r r'.
Proof using H.
  unfold lab_dispatch. destruct (calls _ !! cid) as [[req st [|sid|]]|] eqn:Hk; [done| |done..].
  destruct (owner _ sid) as [i|]; [|destruct (ProcessReq_dispatch _ _ _); [|done]; intros [= <-]; by apply kept_spawned].
  destruct (peer (lab_cfg L) i) as [r|] eqn:Hp; [|done].
  destruct (ProcessReq_dispatch _ _ _) as [rn'|] eqn:Hd; [|done]. intros [= <-] j r'.
  apply (dispatch_ok raft_handler cid (with_app (set_globalRand rs r) (cfg_net (lab_cfg L))) rn' req st sid Hk)
    in Hd as (svc & meth & v' & Hh & _). apply raft_handler_spawned in Hh.
  rewrite (peer_insert (lab_cfg L) _ i (Some (app rn')) j); [|apply H|by apply (peer_range n L H i r)|done].
  case_decide as Hj; [|intros; exists r'; split; [done|apply spawned_refl]]. subst j. intros [= <-]. by exists r.
Qed.

Lemma return_spawned cid rs L' :
  lab_return cid rs L = Some L' →
  ∀ j r', peer (lab_cfg L') j = Some r' → ∃ r, peer (lab_cfg L) j = Some r ∧ spawned r r'.
Proof using H.
  unfold lab_return. destruct (lab_calls L !! cid) as [[i sid m []]|]; [done| |done].
  destruct (Call_result _ _) as [res|]; [|done]. set (L1 := mkLab _ _ _ _ _).
  destruct res as [[?|rep]|]; [by intros [= <-]; apply kept_spawned| |by intros [= <-]; apply kept_spawned].
  case_decide; [|by intros [= <-]; apply kept_spawned]. intros ([x L2] & Ho & ->)%fmap_Some.
  eapply (on_peer_spawned n L1 H i _ x); [done|]. apply drawing_spawns, Step_spawns.
Qed.

(** Every action but calling and starting a peer only adds requests to [propc]. *)
Lemma exec_spawned a L' :
  lab_exec a L = Some L' → (∀ i k cid, a ≠ LCall i k cid) →
  ∀ j r', peer (lab_cfg L') j = Some r' → restarts a j = false → ∃ r, peer (lab_cfg L) j = Some r ∧ spawned r r'.
Proof using H.
  intros Hex Hnc j r' Hj Hre. revert j r' Hj Hre. pose proof (hi_n _ _ H) as Hn.
  assert (∀ {A} i (f : M Raft A), snd <$> on_peer i f L = Some L' → spawns f →
    ∀ j r', peer (lab_cfg L') j = Some r' → restarts a j = false → ∃ r, peer (lab_cfg L) j = Some r ∧ spawned r r') as Hon.
  { intros A i f ([x L1] & Ho & ->)%fmap_Some Hs j r' Hj _. by eapply (on_peer_spawned n L H). }
  destruct a as [i|i rs|i cmd|i|i|i k cid|cid req|o|cid rs v|cid rs|i|i|i|i names rand];
    cbn [lab_exec] in Hex; try (by destruct (Hnc i k cid)); rewrite ?Hn in Hex;
    try (destruct (valid_id n i) eqn:Hv; [apply valid_id_spec in Hv|done]); cbn [andb] in Hex.
  - eapply Hon; [done|]. apply quiet_spawns, Tick_quiet.
  - destruct (match peer _ i with Some _ => _ | None => _ end); [|done].
    eapply Hon; [done|]. apply drawing_spawns, run_tick_spawns.
  - eapply Hon; [done|]. apply Start_spawns.
  - destruct (on_peer _ _ _) as [[ms L1]|] eqn:Ho; [|done]. injection Hex as <-. intros j r' Hj _.
    eapply (on_peer_spawned n L H); [exact Ho|apply quiet_spawns, stateMachine_recv_quiet|done].
  - unfold lab_reader in Hex. destruct (_ !! _) as [m|]; [|done].
    destruct (applier i m (lab_cfg L)) as [[[] c']|] eqn:Ha; [|done]. injection Hex as <-.
    destruct (applier_only_logs _ _ _ _ Ha) as [l ->]. intros j r' Hj _. by eapply kept_spawned.
  - unfold lab_stray in Hex. repeat case_match; try done. injection Hex as <-. intros j r' Hj _. by eapply kept_spawned.
  - unfold lab_net in Hex. repeat case_match; try done. injection Hex as <-. intros j r' Hj _. by eapply kept_spawned.
  - intros j r' Hj _. by eapply dispatch_spawned.
  - intros j r' Hj _. by eapply return_spawned.
  - apply lab_harness_Some in Hex as (u & c' & Hc & ->). intros j r' Hj _.
    destruct (wp_ok _ _ _ _ _ _ (connect_inv n (lab_cfg L) i H Hv) Hc) as (_ & (rn & l & -> & _) & _).
    by eapply kept_spawned.
  - apply lab_harness_Some in Hex as (u & c' & Hc & ->). intros j r' Hj _.
    destruct (wp_ok _ _ _ _ _ _ (disconnect_inv n (lab_cfg L) i H Hv) Hc) as (_ & (rn & l & -> & _)).
    by eapply kept_spawned.
  - apply lab_harness_Some in Hex as (u & c' & Hc & ->). intros j r' Hj _.
    destruct (wp_ok _ _ _ _ _ _ (crash1_inv n (lab_cfg L) i H Hv) Hc) as (_ & Cr).
    apply (kept_spawned c'); [|done]. intros k rk. rewrite (peer_insert (lab_cfg L) c' i None k); [|apply H|lia|apply Cr].
    by case_decide.
  - destruct (fresh_namesb _ names) eqn:Hf; [|done]. apply fresh_namesb_spec in Hf.
    destruct (lab_harness _ _) as [L1|] eqn:Ho; [|done]. injection Hex as <-.
    apply lab_harness_Some in Ho as (u & c' & Hst & ->). intros j r' Hj Hre. simpl in Hre. boolify.
    destruct (wp_ok _ _ _ _ _ _ (start1_inv n names rand (lab_cfg L) i H Hv Hf) Hst)
      as (_ & _ & _ & _ & _ & (r & _ & Er) & _).
    simpl in Hj. rewrite (peer_insert (lab_cfg L) c' i (Some r) j), decide_False in Hj by (done || lia || apply H).
    exists r'. split; [done|apply spawned_refl].
Qed.

(** A peer that has just been started has made no requests. *)
Lemma exec_restarted i names rand L' r' :
  lab_exec (LRestart i names rand) L = Some L' → peer (lab_cfg L') i = Some r' → propc r' = [].
Proof using H.
  cbn [lab_exec]. rewrite (hi_n _ _ H). destruct (valid_id n i) eqn:Hv; [|done]. apply valid_id_spec in Hv. cbn [andb].
  destruct (fresh_namesb _ names) eqn:Hf; [|done]. apply fresh_namesb_spec in Hf.
  destruct (lab_harness _ _) as [L1|] eqn:Ho; [|done]. intros [= <-].
  apply lab_harness_Some in Ho as (u & c' & Hst & ->). pose proof (hi_n _ _ H) as Hn.
  destruct (wp_ok _ _ _ _ _ _ (start1_inv n names rand (lab_cfg L) i H Hv Hf) Hst)
    as (_ & _ & _ & _ & _ & (r & HM & Er) & _).
  cbn [lab_cfg with_cfg]. rewrite (peer_insert (lab_cfg L) c' i (Some r) i), decide_True by (done || lia || apply H).
  intros [= <-]. by apply Make_fresh in HM as [_ ?].
Qed.

(** A call takes one request. *)
Lemma exec_called i k cid L' :
  lab_call (λ m, m) i k cid L = Some L' →
  ∀ j r', peer (lab_cfg L') j = Some r' → ∃ r, peer (lab_cfg L) j = Some r ∧ log r' = log r ∧
    propc r' = if decide (j = i) then delete k (propc r) else propc r.
Proof using H.
  unfold lab_call. destruct (on_peer _ _ _) as [[[m|] L1]|] eqn:Ho; [|done..].
  apply on_peer_Some in Ho as (r & r1 & Hp & Hf & ->). repeat case_match; try done. intros [= <-] j r'.
  rewrite (peer_insert (lab_cfg L) _ i (Some r1) j); [|apply H|by apply (peer_range n L H i r)|done].
  case_decide as Hj; [|intros; exists r'; done]. subst j. intros [= <-].
  exists r. split; [done|]. unfold serveChannels_take, bind, get in Hf.
  destruct (propc r !! k); [|done]. by injection Hf as _ <-.
Qed.
End exec.

(** ** Settled runs *)

Definition mem_inv (s : SharedLab) : Prop :=
  ∀ i r, peer (lab_cfg (sl_lab s)) i = Some r → mem_ok r (sl_mem s i).

(** A request of a memory in order goes out as it was made. *)
Lemma lab_call_encode m i k cid L :
  (∀ r, peer (lab_cfg L) i = Some r → mem_ok r m) →
  lab_call (encode_at m k) i k cid L = lab_call (λ m, m) i k cid L.
Proof.
  intros Hm. unfold lab_call. destruct (on_peer _ _ _) as [[[msg|] L1]|] eqn:Ho; [|done..].
  apply on_peer_Some in Ho as (r & r1 & Hp & Hf & ->). unfold serveChannels_take, bind, get in Hf.
  destruct (propc r !! k) as [msg'|] eqn:Hk; [|done]. injection Hf as -> _.
  by rewrite (encode_at_ok r m k msg (Hm r Hp) Hk).
Qed.

Lemma settled_exec n extra a s s' :
  harness_inv n (lab_cfg (sl_lab s)) → mem_inv s → shared_lab_exec extra a s = Some s' → settled a s s' →
  (∃ a', lab_exec a' (sl_lab s) = Some (sl_lab s')) ∧ mem_inv s'.
Proof.
  intros H I He Hset. destruct a as [a|k]; [|done].
  assert ((∃ i k cid, a = LCall i k cid) ∨ ∀ i k cid, a ≠ LCall i k cid) as [(i & k & cid & ->)|Hnc]
    by (destruct a; eauto).
  - cbn [shared_lab_exec] in He. destruct (valid_id _ i) eqn:Hv; [|done].
    rewrite lab_call_encode in He by (intros r; apply I). apply fmap_Some in He as (L' & He & ->).
    split; [exists (LCall i k cid); cbn [lab_exec sl_lab]; by rewrite Hv|]. intros j r'. cbn [sl_lab sl_mem]. intros Hj.
    destruct (exec_called n _ H i k cid L' He j r' Hj) as (r & Hr & Hl & Hp). case_decide as Hji.
    + subst j. rewrite fn_lookup_insert. by eapply mem_ok_take; [| |apply I].
    + rewrite fn_lookup_insert_ne by done. by eapply mem_ok_same; [| |apply I].
  - assert ((λ L', mkSharedLab L' (lab_mem extra a L' (sl_mem s)) (sl_gone s ++ leaves a (sl_lab s)))
      <$> lab_exec a (sl_lab s) = Some s') as He' by (destruct a; try done; by destruct (Hnc i k cid)).
    clear He. apply fmap_Some in He' as (L' & He & ->). split; [by exists a|]. intros j r'. cbn [sl_lab sl_mem].
    intros Hj. unfold lab_mem. rewrite Hj. destruct (restarts a j) eqn:Hre.
    + destruct a as [| | | | | | | | | | | | |i names rand]; try done. simpl in Hre. boolify. subst i.
      apply mem_ok_make. by eapply (exec_restarted n (sl_lab s) H).
    + destruct (exec_spawned n _ H a L' He Hnc j r' Hj Hre) as (r & Hr & ms & Hp & Hms).
      eapply mem_ok_sync; [by apply I|done..|]. by eapply Hset.
Qed.

Lemma settled_start c n unreliable names rand :
  0 ≤ n → distinct_names n names → make_config n unreliable names rand = Ok c → mem_inv (shared_lab_start c).
Proof.
  intros Hn Hd Hmk. destruct (make_config_attached (V := rpcval) n Hn names rand Hd unreliable)
    as (c' & Hmk' & H & _ & _ & _ & _ & Hr).
  rewrite Hmk in Hmk'. injection Hmk' as <-. intros i r Hp. cbn [shared_lab_start sl_lab sl_mem lab_start lab_cfg] in *.
  rewrite Hp. apply mem_ok_make. destruct (Hr i) as (r1 & Hri & HM).
  { rewrite <- (hi_n _ _ H). by eapply (peer_range n (lab_start c) H). }
  unfold peer in Hp. rewrite Hri in Hp. injection Hp as <-. by apply Make_fresh in HM as [_ ?].
Qed.

Lemma settled_sim n s : 0 ≤ n → shared_lab_reachable n s → lab_reachable n (sl_lab s).
Proof.
  intros Hn (c & unreliable & names & rand & Hd & Hmk & Hr). exists c, unreliable, names, rand. split_and!; [done..|].
  pose proof (settled_start c n unreliable names rand Hn Hd Hmk) as I0.
  destruct (lab_start_rel n c unreliable names rand Hn Hd Hmk) as (c0 & Hi0 & L0 & R0).
  assert (simulated n (sl_lab (shared_lab_start c))) as S0
    by (exists c0; split; [exists c0; split; [done|apply rtc_refl]|done]).
  clear Hd Hmk Hi0 L0 R0 c0. revert I0 S0. change (lab_start c) with (sl_lab (shared_lab_start c)).
  induction Hr as [s0|s0 s1 s2 [Hb (a & extra & He & Hset)] _ IH]; intros I0 S0; [apply rtc_refl|].
  pose proof S0 as (c0 & _ & L0 & _).
  destruct (settled_exec n extra a s0 s1 (li_harness _ _ L0) I0 He Hset) as [Hex I1].
  assert (lab_step (sl_lab s0) (sl_lab s1)) as Hst by done.
  eapply rtc_l; [exact Hst|]. apply IH; [done|]. by eapply simulated_step.
Qed.

(** ** Theorems *)

(** C4: The system the tests run refines the cluster.  In every run of the peers, the simulated
    network and the harness together in which no peer truncates its log while an append request
    of its own waits to be encoded, no crashed peer sends anything more on its [applyCh], and terms
    stay below the largest [int], there is a run of the cluster of RaftNet.v with the same
    running peers, in which the same commands have been applied, and in which every request that
    has not been answered and every answer that can still reach its caller is in flight.  (A
    request that is encoded late may carry other entries: see RaftAlias.v.) *)
Theorem lab_refines_cluster n s :
  0 ≤ n → shared_lab_reachable n s →
  let L := sl_lab s in
  ∃ c, reachable n c ∧
    (∀ i r, 0 ≤ i < n → peer (lab_cfg L) i = Some r → servers c i = r ∧ applied c i = lab_applied L i) ∧
    history c = lab_history L ∧ packets (cfg_net (lab_cfg L)) (lab_calls L) ⊆+ net c.
Proof. intros Hn Hr. apply (lab_follows_cluster n); [done|]. by apply settled_sim. Qed.

(** C7: The tests' own checks pass.  In every run of the whole system, of at least two peers, in which
    the commands are integers, no peer truncates its log while an append request of its own waits
    to be encoded, no crashed peer sends anything more on its [applyCh], and terms stay below the
    largest [int], the next message any reader of [applyCh] takes passes its checks, and no two
    running peers lead in the same term. *)
Theorem lab_tests_pass n s :
  2 ≤ n → shared_lab_reachable n s → all_ints (sl_lab s) →
  let L := sl_lab s in
  (∀ i m, by_server i (lab_history L) !! length (by_server i (lab_read L)) = Some m →
     ∀ extra, ∃ s', shared_lab_exec extra (SLab (LRead i)) s = Some s' ∧
       lab_read (sl_lab s') = lab_read L ++ [(i, m)]) ∧
  (∀ i j ri rj, 0 ≤ i < n → 0 ≤ j < n → peer (lab_cfg L) i = Some ri → peer (lab_cfg L) j = Some rj →
     state ri = StateLeader → state rj = StateLeader → currentTerm ri = currentTerm rj → i = j).
Proof.
  intros Hn Hr Hint. apply settled_sim in Hr; [|lia]. destruct (lab_checks_pass n (sl_lab s) Hn Hr Hint) as [H1 H2].
  split; [|exact H2]. intros i m Hm extra. destruct (H1 i m Hm) as (L' & He & Hrd).
  unfold shared_lab_exec. rewrite He. by eexists.
Qed.

(** ** A test of three peers *)

(** Logs only grow. *)
Definition grows (a : lab_action) (s s' : SharedLab) : bool :=
  forallb (λ i, match peer (lab_cfg (sl_lab s)) i, peer (lab_cfg (sl_lab s')) i with
                | Some r, Some r' => bool_decide (log r `prefix_of` log r') || restarts a i
                | _, _ => true
                end) (seqZ 0 (cfg_n (lab_cfg (sl_lab s)))).

Fixpoint shared_lab_run (acts : list lab_action) (s : SharedLab) : option SharedLab :=
  match acts with
  | [] => Some s
  | a :: acts' =>
      if lab_bounded (sl_lab s) then
        match shared_lab_exec 1 (SLab a) s with
        | Some s' => if grows a s s' then shared_lab_run acts' s' else None
        | None => None
        end
      else None
  end.

Lemma grows_settled n a s s' :
  harness_inv n (lab_cfg (sl_lab s)) → grows a s s' = true → settled (SLab a) s s'.
Proof.
  intros H Hg i r r' Hp Hp' Hre. unfold grows in Hg. rewrite forallb_forall in Hg.
  specialize (Hg i). rewrite <- list_elem_of_In, elem_of_seqZ, Hp, Hp', Hre, orb_false_r in Hg. left.
  pose proof (peer_range n (sl_lab s) H i r Hp). apply (bool_decide_eq_true_1 _), Hg. lia.
Qed.

Lemma shared_lab_run_steps n acts s s' :
  harness_inv n (lab_cfg (sl_lab s)) → mem_inv s → simulated n (sl_lab s) →
  shared_lab_run acts s = Some s' → rtc shared_lab_step s s'.
Proof.
  revert s. induction acts as [|a acts IH]; intros s H I S Hrun; cbn [shared_lab_run] in Hrun.
  { injection Hrun as ->. apply rtc_refl. }
  destruct (lab_bounded _) eqn:Hb; [|done]. destruct (shared_lab_exec _ _ _) as [s1|] eqn:He; [|done].
  destruct (grows a s s1) eqn:Hg; [|done]. pose proof (grows_settled n a s s1 H Hg) as Hset.
  destruct (settled_exec n 1 _ s s1 H I He Hset) as [Hex I1].
  assert (simulated n (sl_lab s1)) as S1 by (eapply simulated_step; [split; [exact Hb|exact Hex]|done]).
  eapply rtc_l; [split; [exact Hb|by exists (SLab a), 1%nat]|]. apply IH; [|done..].
  destruct S1 as (c & _ & L1 & _). apply L1.
Qed.

Lemma shared_lab_run_reachable n c unreliable names rand acts s :
  0 ≤ n → distinct_names n names → make_config n unreliable names rand = Ok c →
  shared_lab_run acts (shared_lab_start c) = Some s → shared_lab_reachable n s.
Proof.
  intros Hn Hd Hmk Hrun. exists c, unreliable, names, rand. split_and!; [done..|].
  destruct (lab_start_rel n c unreliable names rand Hn Hd Hmk) as (c0 & Hi & I & R).
  eapply shared_lab_run_steps; [apply I| | |exact Hrun].
  - by eapply settled_start.
  - exists c0. split; [exists c0; split; [done|apply rtc_refl]|done].
Qed.

Definition shared_lab_demo : SharedLab :=
  match shared_lab_run lab_acts (shared_lab_start lab_trio) with Some s => s | None => shared_lab_start lab_trio end.
Definition shared_lab_runs : bool :=
  match shared_lab_run lab_acts (shared_lab_start lab_trio) with Some _ => true | None => false end.

Lemma shared_lab_demo_run :
  shared_lab_runs = true → shared_lab_run lab_acts (shared_lab_start lab_trio) = Some shared_lab_demo.
Proof. unfold shared_lab_runs, shared_lab_demo. by destruct (shared_lab_run _ _). Qed.

Lemma shared_lab_demo_reachable : shared_lab_reachable 3 shared_lab_demo.
Proof.
  eapply shared_lab_run_reachable.
  - lia.
  - apply trio_names_distinct.
  - apply lab_trio_made. vm_compute. reflexivity.
  - apply shared_lab_demo_run. vm_compute. reflexivity.
Qed.

Lemma shared_lab_demo_ints : all_ints (sl_lab shared_lab_demo).
Proof.
  assert (lab_history (sl_lab shared_lab_demo) = [(0, mkApplyMsg 1 (Some 42))]) as Hh by (vm_compute; reflexivity).
  intros i m. rewrite Hh. intros [= -> ->]%list_elem_of_singleton. by exists 42.
Qed.

Lemma lab_refines_cluster_witness :
  ∃ c, reachable 3 c ∧ history c = [(0, mkApplyMsg 1 (Some 42))] ∧ state (servers c 0) = StateLeader.
Proof.
  destruct (lab_refines_cluster 3 shared_lab_demo ltac:(lia) shared_lab_demo_reachable) as (c & Hr & Hp & Hh & _).
  exists c. split; [exact Hr|]. split; [rewrite Hh; vm_compute; reflexivity|].
  destruct (peer (lab_cfg (sl_lab shared_lab_demo)) 0) as [r|] eqn:E; [|vm_compute in E; discriminate E].
  destruct (Hp 0 r ltac:(lia) E) as [-> _].
  assert (state <$> peer (lab_cfg (sl_lab shared_lab_demo)) 0 = Some StateLeader) as Hl by (vm_compute; reflexivity).
  rewrite E in Hl. injection Hl as Hl. exact Hl.
Defined.

Lemma lab_tests_pass_witness : ∃ s', shared_lab_exec 1 (SLab (LRead 0)) shared_lab_demo = Some s'.
Proof.
  destruct (lab_tests_pass 3 shared_lab_demo ltac:(lia) shared_lab_demo_reachable shared_lab_demo_ints) as [H _].
  destruct (H 0 (mkApplyMsg 1 (Some 42)) ltac:(vm_compute; reflexivity) 1%nat) as (s' & Hs & _).
  exists s'. exact Hs.
Defined.
