(* ===== verification/KvHarness.v ===== *)
(** * The test harness of a replicated service (src/mit/src/kvraft/config.go)

    [kvconfig] is the Go struct [config]: the simulated network, the servers,
    their persisted state, and the names of the ends the servers and the clerks
    send through.  A clerk is the key under which its end names are kept.  As in
    RaftHarness.v, drawn names and random numbers are arguments and [saved[i]] is
    shared with a running peer.

    The harness of the shard master (src/mit/src/shardmaster/config.go) is the
    same program for another server, so the server is an interface here
    ([Service]: what the harness starts, kills and asks for its Raft peer), with
    the key/value server as the instance [kv_service]; ShardHarness.v has the
    other one.

    The theorems are about the partitions the tests make: [partition] switches
    exactly the links it should, and [make_partition] puts the leader into the
    minority when the number of servers is odd. *)
From S2P Require Import Prelude GoRt RaftTypes Labrpc RaftNode RaftNet KvRaft RaftHarness HarnessNet HarnessTheorems.
Open Scope Z_scope.

(** [random_handles]: [draw i] is what [rand.Intn(i + 1)] returns in iteration [i]. *)
Definition swap {A} (l : list A) (i j : nat) : option (list A) :=
  match l !! i, l !! j with
  | Some x, Some y => Some (<[j := x]> (<[i := y]> l))
  | _, _ => None
  end.

Fixpoint shuffle {A} (ids : list nat) (draw : nat → nat) (l : list A) : option (list A) :=
  match ids with
  | [] => Some l
  | i :: ids' => match swap l i (draw i mod (i + 1))%nat with
                | Some l' => shuffle ids' draw l'
                | None => None
                end
  end.

Definition random_handles {A} (draw : nat → nat) (kvh : list A) : option (list A) :=
  shuffle (seq 0 (length kvh)) draw kvh.

(** What the harness needs of a server: [rf], [Kill], the function that starts server [me] of [n] on
    a persister, and the service [MakeService] makes of it.  [Conf] is what the harness passes on
    to the start function. *)
Class Service (C Sv Conf : Type) : Type := mkServiceOps {
  svc_rf : Sv → Raft C;
  svc_Kill : M Sv ();
  svc_start : Conf → Z → Z → Persister C → list Z → res Sv;
  svc_type : string;
  svc_reflect : list Method;
}.

Section kvharness.
Context {V C Sv Conf : Type} {Svc : Service C Sv Conf}.
Local Abbreviation Network := (Labrpc.Network (Name := netname) (V := V) (A := ())).

Record kvconfig : Type := mkKvConfig {
  kc_net : Network;
  kc_n : Z;
  kvservers : list (option Sv);
  kc_saved : list (option (saved_obj C));
  kc_endnames : list (option (list string));
  clerks : gmap nat (list string);
  nextClientId : Z;
  settings : Conf;
}.

Definition set_knet f c := mkKvConfig (f (kc_net c)) (kc_n c) (kvservers c) (kc_saved c)
  (kc_endnames c) (clerks c) (nextClientId c) (settings c).
Definition set_kvservers l c := mkKvConfig (kc_net c) (kc_n c) l (kc_saved c)
  (kc_endnames c) (clerks c) (nextClientId c) (settings c).
Definition set_ksaved l c := mkKvConfig (kc_net c) (kc_n c) (kvservers c) l
  (kc_endnames c) (clerks c) (nextClientId c) (settings c).
Definition set_kendnames l c := mkKvConfig (kc_net c) (kc_n c) (kvservers c) (kc_saved c)
  l (clerks c) (nextClientId c) (settings c).
Definition set_clerks m c := mkKvConfig (kc_net c) (kc_n c) (kvservers c) (kc_saved c)
  (kc_endnames c) m (nextClientId c) (settings c).
Definition set_nextClientId k c := mkKvConfig (kc_net c) (kc_n c) (kvservers c) (kc_saved c)
  (kc_endnames c) (clerks c) k (settings c).

Local Abbreviation KM := (M kvconfig).

Definition kat {A} (f : kvconfig → list A) (i : Z) : KM A :=
  c <- get ;; must index_panic (go_at (f c) i).
Definition kassign {A} (f : kvconfig → list A) (upd : list A → kvconfig → kvconfig) (i : Z) (x : A) :
    KM () :=
  c <- get ;; l <- must index_panic (go_set (f c) i x) ;; modify (upd l).

(** [cfg.endnames[i][j]] *)
Definition kendname (i j : Z) : KM string :=
  o <- kat kc_endnames i ;; must index_panic (go_at (default [] o) j).

Definition kEnable (e : string) (b : bool) : KM () := modify (set_knet (Enable (inr e) b)).

(** ** Links between servers *)

Definition connectUnlocked (i : Z) (to : list Z) : KM () :=
  for_range to (λ t, e <- kendname i t ;; kEnable e true) ;;
  for_range to (λ t, e <- kendname t i ;; kEnable e true).

(** The second loop tests [endnames[j]] and switches [endnames[from[j]][i]]. *)
Definition disconnectUnlocked (i : Z) (from : list Z) : KM () :=
  for_range from (λ f,
    o <- kat kc_endnames i ;;
    when bool_decide (is_Some o) do (e <- kendname i f ;; kEnable e false)) ;;
  for_range (imap (λ j f, (Z.of_nat j, f)) from) (λ '(j, f),
    o <- kat kc_endnames j ;;
    when bool_decide (is_Some o) do (e <- kendname f i ;; kEnable e false)).

(** With the lock taken. *)
Definition kv_connect (i : Z) (to : list Z) : KM () := connectUnlocked i to.
Definition kv_disconnect (i : Z) (from : list Z) : KM () := disconnectUnlocked i from.

Definition All (c : kvconfig) : list Z := seqZ 0 (kc_n c).

Definition ConnectAll : KM () :=
  c <- get ;; for_range (seqZ 0 (kc_n c)) (λ i, connectUnlocked i (All c)).

Definition partition (p1 p2 : list Z) : KM () :=
  for_range p1 (λ i, disconnectUnlocked i p2 ;; connectUnlocked i p1) ;;
  for_range p2 (λ i, disconnectUnlocked i p1 ;; connectUnlocked i p2).

(** ** Clerks *)

Definition ConnectClientUnlocked (ck : nat) (to : list Z) : KM () :=
  c <- get ;;
  let names := default [] (clerks c !! ck) in
  for_range to (λ t, e <- must index_panic (go_at names t) ;; kEnable e true).

Definition DisconnectClientUnlocked (ck : nat) (from : list Z) : KM () :=
  c <- get ;;
  let names := default [] (clerks c !! ck) in
  for_range from (λ t, e <- must index_panic (go_at names t) ;; kEnable e false).

Definition ConnectClient (ck : nat) (to : list Z) : KM () := ConnectClientUnlocked ck to.
Definition DisconnectClient (ck : nat) (from : list Z) : KM () := DisconnectClientUnlocked ck from.

Definition make_kend (e : string) (j : Z) : KM () :=
  c <- get ;;
  match MakeEnd (inr e) (kc_net c) with
  | Ok rn => modify (set_knet (λ _, Connect (inr e) (inl j) rn))
  | Panic w => panic w
  end.

(** A new clerk and the ends [MakeClerk] gets, by the name of the server behind them. *)
Definition makeClient (names : Z → string) (draw : nat → nat) (to : list Z) : KM (nat * list Z) :=
  c <- get ;;
  for_range (seqZ 0 (kc_n c)) (λ j, make_kend (names j) j) ;;
  ends <- must index_panic (random_handles draw (seqZ 0 (kc_n c))) ;;
  let ck := fresh (dom (clerks c)) in
  modify (λ c, set_clerks (<[ck := map names (seqZ 0 (kc_n c))]> (clerks c)) c) ;;
  modify (λ c, set_nextClientId (nextClientId c + 1) c) ;;
  ConnectClientUnlocked ck to ;;
  ret (ck, ends).

Definition deleteClient (ck : nat) : KM () := modify (λ c, set_clerks (delete ck (clerks c)) c).

(** ** Servers *)

Definition ShutdownServer (i : Z) : KM () :=
  c <- get ;;
  disconnectUnlocked i (All c) ;;
  modify (set_knet (DeleteServer (inl i))) ;;
  sv <- kat kc_saved i ;;
  kv <- kat kvservers i ;;
  (match sv with
   | Some o =>
       p <- must nil_panic (saved_value o (option_map svc_rf kv)) ;;
       kassign kc_saved set_ksaved i (Some (Own (Persister_Copy p)))
   | None => ret tt
   end) ;;
  match kv with
  | Some s =>
      match svc_Kill s with
      | Ok _ => kassign kvservers set_kvservers i None
      | Panic w => panic w
      end
  | None => ret tt
  end.

Definition kv_StartServer (names : Z → string) (rand : list Z) (i : Z) : KM () :=
  c <- get ;;
  kassign kc_endnames set_kendnames i (Some (map names (seqZ 0 (kc_n c)))) ;;
  for_range (seqZ 0 (kc_n c)) (λ j, e <- kendname i j ;; make_kend e j) ;;
  sv <- kat kc_saved i ;;
  kv <- kat kvservers i ;;
  p <- (match sv with
        | Some o => p <- must nil_panic (saved_value o (option_map svc_rf kv)) ;; ret (Persister_Copy p)
        | None => ret MakePersister
        end) ;;
  match svc_start (settings c) (kc_n c) i p rand with
  | Ok s =>
      kassign kvservers set_kvservers i (Some s) ;;
      kassign kc_saved set_ksaved i (Some Shared) ;;
      let srv := AddService (MakeService "Raft" raft_methods)
                   (AddService (MakeService svc_type svc_reflect) MakeServer) in
      c' <- get ;;
      let sid := fresh (dom (heap (kc_net c'))) in
      modify (set_knet (λ rn, AddServer (inl i) sid (new_server sid srv rn)))
  | Panic w => panic w
  end.

Definition kv_make_config (n : Z) (unreliable : bool) (conf : Conf) (names : Z → Z → string)
    (rand : Z → list Z) : res kvconfig :=
  let cfg := mkKvConfig (MakeNetwork tt) n (go_make n None) (go_make n None) (go_make n None)
               ∅ (n + 1000) conf in
  match (for_range (seqZ 0 n) (λ i, kv_StartServer (names i) (rand i) i) ;;
         ConnectAll ;;
         modify (set_knet (Reliable (negb unreliable)))) cfg with
  | Ok (_, c) => Ok c
  | Panic w => Panic w
  end.

Definition kv_cleanup : KM () :=
  c <- get ;;
  for_range (go_range (kvservers c)) (λ i,
    kv <- kat kvservers i ;;
    match kv with
    | Some s => match svc_Kill s with
                | Ok (_, s') => kassign kvservers set_kvservers i (Some s')
                | Panic w => panic w
                end
    | None => ret tt
    end).

(** [LogSize]; [bytes] is the length of the encoding of a persisted state. *)
Definition LogSize (bytes : list (gobval C) → Z) : KM Z :=
  c <- get ;;
  fold_left (λ m i,
    logsize <- m ;;
    sv <- kat kc_saved i ;;
    kv <- kat kvservers i ;;
    p <- must nil_panic (sv ≫= λ o, saved_value o (option_map svc_rf kv)) ;;
    let n := bytes (ReadRaftState p) in
    ret (if logsize <? n then n else logsize)) (seqZ 0 (kc_n c)) (ret 0).

(** ** The leader and the partition that cuts it off *)

Fixpoint leader_scan (ids : list Z) : KM (bool * Z) :=
  match ids with
  | [] => ret (false, 0)
  | i :: ids' =>
      kv <- kat kvservers i ;;
      s <- must nil_panic kv ;;
      if (GetState (svc_rf s)).2 then ret (true, i) else leader_scan ids'
  end.

Definition Leader : KM (bool * Z) := c <- get ;; leader_scan (seqZ 0 (kc_n c)).

End kvharness.

(** The loop that fills [p1] and [p2], with [j] the number of servers placed. *)
Fixpoint place (ids : list Z) (l : Z) (p1 p2 : list Z) (j : Z) : option (list Z * list Z) :=
  match ids with
  | [] => Some (p1, p2)
  | i :: ids' =>
      if negb (i =? l) then
        if j <? go_len p1 then
          match go_set p1 j i with
          | Some p1' => place ids' l p1' p2 (j + 1)
          | None => None
          end
        else
          match go_set p2 (j - go_len p1) i with
          | Some p2' => place ids' l p1 p2' (j + 1)
          | None => None
          end
      else place ids' l p1 p2 j
  end.

(** [None] is an index out of range. *)
Definition split_servers (n l : Z) : option (list Z * list Z) :=
  match place (seqZ 0 n) l (go_make (n / 2 + 1) 0) (go_make (n / 2) 0) 0 with
  | Some (p1, p2) =>
      match go_set p2 (go_len p2 - 1) l with
      | Some p2' => Some (p1, p2')
      | None => None
      end
  | None => None
  end.

Definition make_partition {V C Sv Conf} {Svc : Service C Sv Conf} :
    M (kvconfig (V := V) (C := C) (Sv := Sv) (Conf := Conf)) (list Z * list Z) :=
  r <- Leader ;;
  c <- get ;;
  must index_panic (split_servers (kc_n c) r.2).

(** ** Switching links *)

Section switch.
Context {V C Sv Conf : Type} {Svc : Service C Sv Conf} (n : Z).
Local Abbreviation kvconfig := (KvHarness.kvconfig (V := V) (C := C) (Sv := Sv) (Conf := Conf)).
Local Abbreviation Network := (Labrpc.Network (Name := netname) (V := V) (A := ())).
Implicit Types c : kvconfig.

Definition kename c (i j : Z) : option string :=
  match go_at (kc_endnames c) i with Some (Some es) => go_at es j | _ => None end.

(** Every server has been started: it has its own end for each of the [n] servers. *)
Record all_named c : Prop := mkAllNamed {
  an_n : kc_n c = n;
  an_len : go_len (kc_endnames c) = n;
  an_row i : 0 ≤ i < n → ∃ es, go_at (kc_endnames c) i = Some (Some es) ∧ go_len es = n;
  an_inj i j i' j' e : kename c i j = Some e → kename c i' j' = Some e → i = i' ∧ j = j';
}.

(** A switch [(b, i, l)]: the links between [i] and the servers of [l] are set to [b]. *)
Definition touches (i : Z) (l : list Z) (i' j' : Z) : Prop :=
  (i' = i ∧ j' ∈ l) ∨ (j' = i ∧ i' ∈ l).

#[global] Instance touches_dec i l i' j' : Decision (touches i l i' j').
Proof. unfold touches. apply _. Defined.

Definition after (ops : list (bool * Z * list Z)) (v : option bool) (i' j' : Z) : option bool :=
  foldl (λ v '(b, i, l), if decide (touches i l i' j') then Some b else v) v ops.

(** The computation does nothing but these switches. *)
Definition performs (m : M kvconfig ()) (ops : list (bool * Z * list Z)) : Prop :=
  ∀ c, all_named c → ∃ rn, m c = Ok (tt, set_knet (λ _, rn) c) ∧
    ∀ i' j' e, kename c i' j' = Some e →
      enabled rn !! inr e = after ops (enabled (kc_net c) !! inr e) i' j'.

Lemma performs_ret : performs (ret tt) [].
Proof. intros c Hc. exists (kc_net c). split; [by destruct c|done]. Qed.

Lemma performs_seq m1 m2 ops1 ops2 :
  performs m1 ops1 → performs m2 ops2 → performs (m1 ;; m2) (ops1 ++ ops2).
Proof.
  intros H1 H2 c Hc. destruct (H1 c Hc) as (rn1 & Hm1 & He1).
  destruct (H2 (set_knet (λ _, rn1) c)) as (rn2 & Hm2 & He2); [by split; apply Hc|].
  exists rn2. split; [unfold bind; by rewrite Hm1|]. intros i' j' e He.
  rewrite (He2 i' j') by done. simpl. unfold after. rewrite foldl_app. by rewrite (He1 i' j').
Qed.

Lemma performs_for {A} (l : list A) body (ops : A → list (bool * Z * list Z)) :
  (∀ x, x ∈ l → performs (body x) (ops x)) → performs (for_range l body) (l ≫= ops).
Proof.
  induction l as [|x l IH]; intros H; [apply performs_ret|]. simpl.
  apply performs_seq; [apply H; left|]. apply IH. intros y Hy. apply H. by right.
Qed.

(** Switching single ends. *)

Definition enable_ends (b : bool) (es : list string) (rn : Network) : Network :=
  foldl (λ rn e, Enable (inr e) b rn) rn es.

Lemma enable_ends_lookup b es rn e :
  enabled (enable_ends b es rn) !! inr e =
  if decide (e ∈ es) then Some b else enabled rn !! inr e.
Proof.
  revert rn. induction es as [|e0 es IH]; intros rn; [done|]. simpl. rewrite IH. simpl.
  destruct (decide (e = e0)) as [->|].
  - rewrite lookup_insert_eq, (decide_True (P := e0 ∈ e0 :: es)) by set_solver. by case_decide.
  - rewrite lookup_insert_ne by congruence.
    destruct (decide (e ∈ es)); [by rewrite decide_True by set_solver|].
    by rewrite decide_False by set_solver.
Qed.

Lemma enable_ends_connections b es rn : connections (enable_ends b es rn) = connections rn.
Proof. revert rn. induction es as [|e es IH]; intros rn; [done|]. simpl. by rewrite IH. Qed.

Lemma switch_loop {A} (l : list A) (body : A → M kvconfig ()) (nm : A → string) b c :
  (∀ t rn, t ∈ l → body t (set_knet (λ _, rn) c) =
     Ok (tt, set_knet (λ _, Enable (inr (nm t)) b rn) c)) →
  ∀ rn, for_range l body (set_knet (λ _, rn) c) =
    Ok (tt, set_knet (λ _, enable_ends b (map nm l) rn) c).
Proof.
  induction l as [|t l IH]; intros Hb rn; [done|]. simpl. unfold bind. rewrite Hb by left.
  apply IH. intros t' rn' ?. apply Hb. by right.
Qed.

Lemma kendname_at c rn i j e :
  kename c i j = Some e → kendname i j (set_knet (λ _, rn) c) = Ok (e, set_knet (λ _, rn) c).
Proof.
  unfold kename, kendname, kat, bind, get, must. simpl. intros He.
  destruct (go_at (kc_endnames c) i) as [[es|]|]; [|done..]. simpl. by rewrite He.
Qed.

Lemma kename_is_Some c i j : all_named c → 0 ≤ i < n → 0 ≤ j < n → is_Some (kename c i j).
Proof.
  intros Hc Hi Hj. destruct (an_row _ Hc i Hi) as (es & Hes & Hlen). unfold kename. rewrite Hes.
  apply go_at_is_Some. lia.
Qed.

Lemma kename_range c i j e : all_named c → kename c i j = Some e → 0 ≤ i < n ∧ 0 ≤ j < n.
Proof.
  intros Hc. unfold kename. destruct (go_at (kc_endnames c) i) as [[es|]|] eqn:Hes; [|done..].
  intros Hj%go_at_range. pose proof (go_at_range _ _ _ Hes) as Hi. rewrite (an_len _ Hc) in Hi.
  destruct (an_row _ Hc i Hi) as (es' & Hes' & Hlen). rewrite Hes in Hes'. injection Hes' as <-. lia.
Qed.

(** The name of an end that exists. *)
Definition the_name c (i j : Z) : string := default EmptyString (kename c i j).

Lemma the_name_spec c i j : all_named c → 0 ≤ i < n → 0 ≤ j < n → kename c i j = Some (the_name c i j).
Proof. intros Hc Hi Hj. unfold the_name. by destruct (kename_is_Some c i j Hc Hi Hj) as [e ->]. Qed.

(** Two loops over the ends from and to [i]. *)
Lemma two_loops m1 m2 b i l :
  0 ≤ i < n → Forall (λ t, 0 ≤ t < n) l →
  (∀ c rn, all_named c → m1 (set_knet (λ _, rn) c) =
     Ok (tt, set_knet (λ _, enable_ends b (map (λ t, the_name c i t) l) rn) c)) →
  (∀ c rn, all_named c → m2 (set_knet (λ _, rn) c) =
     Ok (tt, set_knet (λ _, enable_ends b (map (λ t, the_name c t i) l) rn) c)) →
  performs (m1 ;; m2) [(b, i, l)].
Proof.
  intros Hi Hl H1 H2 c Hc. rewrite Forall_forall in Hl.
  set (es1 := map (λ t, the_name c i t) l) in *. set (es2 := map (λ t, the_name c t i) l) in *.
  exists (enable_ends b es2 (enable_ends b es1 (kc_net c))). split.
  { assert (c = set_knet (λ _, kc_net c) c) as Hs by (by destruct c). unfold bind.
    rewrite Hs at 1. by rewrite H1, H2. }
  intros i' j' e He. rewrite !enable_ends_lookup. simpl.
  assert (e ∈ es1 ↔ i' = i ∧ j' ∈ l) as Ho.
  { unfold es1. rewrite list_elem_of_fmap. split.
    - intros (t & Heq & Ht). pose proof (the_name_spec c i t Hc Hi (Hl t Ht)) as Hn.
      rewrite <- Heq in Hn. by destruct (an_inj _ Hc _ _ _ _ _ He Hn) as [-> ->].
    - intros [-> Hj]. exists j'. split; [|done]. unfold the_name. by rewrite He. }
  assert (e ∈ es2 ↔ j' = i ∧ i' ∈ l) as Hin.
  { unfold es2. rewrite list_elem_of_fmap. split.
    - intros (t & Heq & Ht). pose proof (the_name_spec c t i Hc (Hl t Ht) Hi) as Hn.
      rewrite <- Heq in Hn. by destruct (an_inj _ Hc _ _ _ _ _ He Hn) as [-> ->].
    - intros [-> Hj]. exists i'. split; [|done]. unfold the_name. by rewrite He. }
  unfold touches. repeat case_decide; naive_solver.
Qed.

Lemma connect_performs i l :
  0 ≤ i < n → Forall (λ t, 0 ≤ t < n) l → performs (connectUnlocked i l) [(true, i, l)].
Proof.
  intros Hi Hl. rewrite Forall_forall in Hl. apply two_loops; [done|by apply Forall_forall|..];
    intros c rn Hc; apply switch_loop; intros t rn' Ht; unfold bind;
    erewrite kendname_at by (apply the_name_spec; eauto); done.
Qed.

Lemma disconnect_performs i l :
  0 ≤ i < n → Forall (λ t, 0 ≤ t < n) l → go_len l ≤ n →
  performs (disconnectUnlocked i l) [(false, i, l)].
Proof.
  intros Hi Hl Hlen. rewrite Forall_forall in Hl. apply two_loops; [done|by apply Forall_forall|..];
    intros c rn Hc.
  - apply switch_loop. intros t rn' Ht. unfold bind.
    destruct (an_row _ Hc i Hi) as (es & Hes & _).
    unfold kat at 1, bind at 1, get at 1, must at 1. simpl (kc_endnames _). rewrite Hes. simpl.
    unfold bind. erewrite kendname_at by (apply the_name_spec; eauto). done.
  - assert (map (λ t, the_name c t i) l =
      map (λ p, the_name c p.2 i) (imap (λ j f, (Z.of_nat j, f)) l)) as ->.
    { apply list_eq. intros x. rewrite !list_lookup_fmap, list_lookup_imap. by destruct (l !! x). }
    apply switch_loop. intros [j f] rn' Hjf.
    apply elem_of_lookup_imap_1 in Hjf as (x & f' & [= -> ->] & Hx).
    pose proof (lookup_lt_Some _ _ _ Hx) as Hlt. unfold go_len in Hlen.
    destruct (an_row _ Hc (Z.of_nat x) ltac:(lia)) as (es & Hes & _). unfold bind.
    unfold kat at 1, bind at 1, get at 1, must at 1. simpl (kc_endnames _). rewrite Hes. simpl.
    unfold bind. erewrite kendname_at; [done|]. apply the_name_spec; [done| |done].
    apply Hl. by eapply list_elem_of_lookup_2.
Qed.

End switch.

(** ** What the links are after a sequence of switches *)

Lemma after_untouched ops v i' j' :
  (∀ b i l, (b, i, l) ∈ ops → ¬ touches i l i' j') → after ops v i' j' = v.
Proof.
  unfold after. revert v. induction ops as [|[[b i] l] ops IH]; intros v H; [done|]. simpl.
  rewrite decide_False by (eapply H; left). apply IH. intros ????. eapply H. by right.
Qed.

(** All switches that touch the link agree on [w]. *)
Lemma after_agreed ops v w i' j' :
  (∀ b i l, (b, i, l) ∈ ops → touches i l i' j' → b = w) →
  (∃ b i l, (b, i, l) ∈ ops ∧ touches i l i' j') → after ops v i' j' = Some w.
Proof.
  unfold after. revert v. induction ops as [|[[b i] l] ops IH]; intros v Hall Hex.
  { destruct Hex as (? & ? & ? & []%not_elem_of_nil & _). }
  simpl. destruct (decide (Exists (λ '(b, i, l), touches i l i' j') ops)) as [Hlater|Hlater].
  - apply IH; [intros ????; eapply Hall; by right|].
    apply Exists_exists in Hlater as ([[b2 i2] l2] & ? & ?). eauto.
  - assert (touches i l i' j') as Ht.
    { destruct Hex as (b2 & i2 & l2 & [[= -> -> ->]|Hin]%elem_of_cons & Ht); [done|].
      destruct Hlater. apply Exists_exists. by exists (b2, i2, l2). }
    rewrite decide_True by done. rewrite (Hall b i l) by (done || left).
    apply (after_untouched ops). intros b2 i2 l2 Hin Ht2. apply Hlater, Exists_exists.
    by exists (b2, i2, l2).
Qed.

Section theorems.
Context {V C Sv Conf : Type} {Svc : Service C Sv Conf} (n : Z).
Local Abbreviation kvconfig := (KvHarness.kvconfig (V := V) (C := C) (Sv := Sv) (Conf := Conf)).
Implicit Types c : kvconfig.

Definition partition_ops (p1 p2 : list Z) : list (bool * Z * list Z) :=
  (p1 ≫= λ i, [(false, i, p2); (true, i, p1)]) ++ (p2 ≫= λ i, [(false, i, p1); (true, i, p2)]).

Lemma partition_performs p1 p2 :
  Forall (λ t, 0 ≤ t < n) p1 → Forall (λ t, 0 ≤ t < n) p2 → go_len p1 ≤ n → go_len p2 ≤ n →
  performs (V := V) (C := C) (Sv := Sv) (Conf := Conf) n (partition p1 p2) (partition_ops p1 p2).
Proof.
  intros H1 H2 L1 L2. pose proof H1 as F1. pose proof H2 as F2. rewrite Forall_forall in F1, F2.
  apply performs_seq; apply performs_for; intros i Hi;
    apply (performs_seq n _ _ [(false, i, _)] [(true, i, _)]); auto using disconnect_performs, connect_performs.
Qed.

Lemma elem_of_partition_ops p1 p2 (b : bool) i l :
  (b, i, l) ∈ partition_ops p1 p2 ↔
  (i ∈ p1 ∧ l = (if b then p1 else p2)) ∨ (i ∈ p2 ∧ l = if b then p2 else p1).
Proof.
  unfold partition_ops. rewrite elem_of_app, !list_elem_of_bind.
  split.
  - intros [(x & Hin & Hx)|(x & Hin & Hx)]; rewrite !elem_of_cons, elem_of_nil in Hin;
      destruct Hin as [[= -> -> ->]|[[= -> -> ->]|[]]]; auto.
  - intros [[Hi ->]|[Hi ->]]; [left|right]; exists i; rewrite !elem_of_cons; destruct b; auto.
Qed.

(** The link [i -> j] after [partition p1 p2], when it was [v] before. *)
Definition partitioned (p1 p2 : list Z) (v : option bool) (i j : Z) : option bool :=
  if decide ((i ∈ p1 ∧ j ∈ p1) ∨ (i ∈ p2 ∧ j ∈ p2)) then Some true
  else if decide ((i ∈ p1 ∧ j ∈ p2) ∨ (i ∈ p2 ∧ j ∈ p1)) then Some false
  else v.

Lemma after_partition p1 p2 v i j :
  (∀ x, x ∈ p1 → x ∈ p2 → False) → after (partition_ops p1 p2) v i j = partitioned p1 p2 v i j.
Proof.
  intros Hd. unfold partitioned. repeat case_decide.
  - apply after_agreed.
    + intros b x l [[Hx ->]|[Hx ->]]%elem_of_partition_ops; unfold touches; destruct b; naive_solver.
    + exists true, i, (if decide (i ∈ p1) then p1 else p2). rewrite elem_of_partition_ops.
      unfold touches. case_decide; naive_solver.
  - apply after_agreed.
    + intros b x l [[Hx ->]|[Hx ->]]%elem_of_partition_ops; unfold touches; destruct b; naive_solver.
    + exists false, i, (if decide (i ∈ p1) then p2 else p1). rewrite elem_of_partition_ops.
      unfold touches. case_decide; naive_solver.
  - apply after_untouched. intros b x l [[Hx ->]|[Hx ->]]%elem_of_partition_ops; unfold touches;
      destruct b; naive_solver.
Qed.

(** ** [make_partition] *)

(** The slices after the servers [D] have been placed. *)
Definition filled (L1 L2 : nat) (D : list Z) : list Z * list Z :=
  (take L1 D ++ replicate (L1 - length D) 0, drop L1 D ++ replicate (L2 - (length D - L1)) 0).

Lemma go_set_next (l : list Z) k x :
  go_set (l ++ replicate (S k) 0) (go_len l) x = Some ((l ++ [x]) ++ replicate k 0).
Proof.
  rewrite go_set_eq by (unfold go_len; rewrite length_app, length_replicate; lia).
  unfold go_len. rewrite Nat2Z.id, insert_app_r_alt, Nat.sub_diag by done.
  simpl. by rewrite <- app_assoc.
Qed.

Lemma place_filled L1 L2 ids l D :
  (length D + length (filter (λ i, i ≠ l) ids) ≤ L1 + L2)%nat →
  place ids l (filled L1 L2 D).1 (filled L1 L2 D).2 (go_len D) =
    Some (filled L1 L2 (D ++ filter (λ i, i ≠ l) ids)).
Proof.
  revert D. induction ids as [|i ids IH]; intros D Hlen; [by rewrite app_nil_r|].
  cbn [place]. destruct (decide (i = l)) as [->|Hne].
  { rewrite Z.eqb_refl, filter_cons_False in * by auto. by apply IH. }
  rewrite filter_cons_True in * by done. rewrite (proj2 (Z.eqb_neq i l)) by done. cbn [negb].
  rewrite cons_middle, app_assoc, <- IH by (rewrite length_app; simpl in *; lia).
  assert (go_len (filled L1 L2 D).1 = Z.of_nat L1) as ->.
  { unfold go_len. simpl. rewrite length_app, length_take, length_replicate. lia. }
  assert (go_len D + 1 = go_len (D ++ [i])) as Hgl by (unfold go_len; rewrite length_app; simpl; lia).
  simpl in Hlen. case_test; unfold go_len in *.
  - assert (go_set (filled L1 L2 D).1 (Z.of_nat (length D)) i = Some (filled L1 L2 (D ++ [i])).1) as ->.
    { simpl. rewrite (take_ge D), (take_ge (D ++ [i])) by (rewrite ?length_app; simpl; lia).
      replace (L1 - length D)%nat with (S (L1 - length (D ++ [i]))) by (rewrite length_app; simpl; lia).
      apply go_set_next. }
    rewrite Hgl. f_equal. simpl. rewrite !drop_ge by (rewrite ?length_app; simpl; lia).
    do 2 f_equal. rewrite length_app. simpl. lia.
  - assert (go_set (filled L1 L2 D).2 (Z.of_nat (length D) - Z.of_nat L1) i =
      Some (filled L1 L2 (D ++ [i])).2) as ->.
    { simpl. rewrite drop_app_le by lia.
      replace (L2 - (length D - L1))%nat with (S (L2 - (length (D ++ [i]) - L1)))
        by (rewrite length_app; simpl; lia).
      rewrite <- go_set_next. f_equal. unfold go_len. rewrite length_drop. lia. }
    rewrite Hgl. f_equal. simpl. rewrite take_app_le by lia. rewrite length_app. simpl.
    do 2 f_equal. lia.
Qed.

(** With an odd number of servers both slices are used up. *)
Lemma split_servers_odd k l :
  1 ≤ k → 0 ≤ l < 2 * k + 1 →
  ∃ p1 p2, split_servers (2 * k + 1) l = Some (p1, p2) ∧ p1 ++ p2 ≡ₚ seqZ 0 (2 * k + 1) ∧
    go_len p1 = k + 1 ∧ go_len p2 = k ∧ l ∈ p2.
Proof.
  intros Hk Hl. set (os := filter (λ i, i ≠ l) (seqZ 0 (2 * k + 1))).
  assert (os ++ [l] ≡ₚ seqZ 0 (2 * k + 1)) as Hperm.
  { unfold os. assert (l ∈ seqZ 0 (2 * k + 1)) as Hin by (apply elem_of_seqZ; lia).
    pose proof (NoDup_seqZ 0 (2 * k + 1)) as Hnd.
    apply NoDup_Permutation; [|done|].
    - apply NoDup_app. split; [by apply NoDup_filter|]. split; [|apply NoDup_singleton].
      intros x [??]%list_elem_of_filter ->%list_elem_of_singleton. done.
    - intros x. rewrite elem_of_app, list_elem_of_filter, list_elem_of_singleton.
      destruct (decide (x = l)); naive_solver. }
  assert (length os = Z.to_nat (2 * k)) as Hlen.
  { apply Permutation_length in Hperm. rewrite length_app, length_seqZ in Hperm. simpl in Hperm. lia. }
  set (L1 := Z.to_nat (k + 1)). set (L2 := Z.to_nat k).
  assert (split_servers (2 * k + 1) l = Some (take L1 os, drop L1 os ++ [l])) as Hs.
  { unfold split_servers. replace ((2 * k + 1) / 2) with k by (apply (Z.div_unique _ _ _ 1); lia).
    pose proof (place_filled L1 L2 (seqZ 0 (2 * k + 1)) l []) as Hp. unfold filled in Hp at 1 2.
    rewrite take_nil, drop_nil in Hp. simpl in Hp. rewrite !Nat.sub_0_r in Hp. fold os in Hp.
    change (go_len []) with 0 in Hp. unfold go_make. fold L1 L2. rewrite Hp by lia. unfold filled.
    replace (L1 - length os)%nat with 0%nat by lia.
    replace (L2 - (length os - L1))%nat with 1%nat by lia. rewrite app_nil_r.
    replace (go_len (drop L1 os ++ replicate 1 0) - 1) with (go_len (drop L1 os))
      by (unfold go_len; rewrite length_app; simpl; lia).
    rewrite go_set_next. by rewrite app_nil_r. }
  exists (take L1 os), (drop L1 os ++ [l]). split; [done|]. rewrite app_assoc, take_drop.
  unfold go_len. rewrite length_app, length_take, length_drop. simpl.
  split_and!; [done|lia|lia|set_solver].
Qed.

(** Every server runs. *)
Definition all_running c : Prop :=
  ∀ i, 0 ≤ i < n → ∃ s, go_at (kvservers c) i = Some (Some s).

Lemma leader_scan_spec c ids :
  all_running c → Forall (λ i, 0 ≤ i < n) ids →
  ∃ b l, leader_scan ids c = Ok ((b, l), c) ∧
    if b : bool then l ∈ ids ∧ ∃ s, go_at (kvservers c) l = Some (Some s) ∧
      state (svc_rf s) = StateLeader
    else l = 0.
Proof.
  intros Hrun. induction 1 as [|i ids Hi _ (b & l & Hs & Hb)]; [by exists false, 0|].
  destruct (Hrun i Hi) as [s Hkv]. cbn [leader_scan].
  unfold bind at 1, kat at 1, bind at 1, get at 1. rewrite Hkv. cbn [must ret bind].
  unfold bind, must, ret. simpl. case_bool_decide.
  - exists true, i. split; [done|]. split; [left|eauto].
  - exists b, l. split; [done|]. destruct b; [|done]. destruct Hb as [? ?]. split; [by right|done].
Qed.

(** [make_partition] and [partition] cut the leader off from a majority.  With an odd number
    of servers, all of them running, the two groups are a partition of the servers, the leader
    (or server 0, if there is none) is in the smaller group, and afterwards a link is enabled
    exactly when it stays within a group. *)
Theorem leader_cut_off k c :
  1 ≤ k → n = 2 * k + 1 → all_named n c → all_running c →
  ∃ b l p1 p2 c',
    Leader c = Ok ((b, l), c) ∧
    (b = true → ∃ s, go_at (kvservers c) l = Some (Some s) ∧ state (svc_rf s) = StateLeader) ∧
    make_partition c = Ok ((p1, p2), c) ∧ partition p1 p2 c = Ok (tt, c') ∧
    p1 ++ p2 ≡ₚ seqZ 0 n ∧ l ∈ p2 ∧ n < 2 * go_len p1 ∧
    ∀ i j e, kename c i j = Some e →
      enabled (kc_net c') !! inr e = Some (bool_decide (i ∈ p1 ↔ j ∈ p1)).
Proof.
  intros Hk Hn Hc Hrun.
  destruct (leader_scan_spec c (seqZ 0 n) Hrun) as (b & l & HL & Hb).
  { apply Forall_forall. intros i Hi%elem_of_seqZ. lia. }
  assert (0 ≤ l < 2 * k + 1) as Hl.
  { destruct b; [destruct Hb as [Hin%elem_of_seqZ _]|]; lia. }
  destruct (split_servers_odd k l Hk Hl) as (p1 & p2 & Hs & Hperm & Hp1 & Hp2 & Hlp).
  rewrite <- Hn in Hs, Hperm.
  assert (∀ x, x ∈ p1 ++ p2 ↔ 0 ≤ x < n) as Hall.
  { intros x. rewrite Hperm, elem_of_seqZ. lia. }
  assert (∀ x, x ∈ p1 → x ∈ p2 → False) as Hd.
  { assert (NoDup (p1 ++ p2)) as (_ & Hd & _)%NoDup_app by (rewrite Hperm; apply NoDup_seqZ).
    intros x H1 H2. by apply (Hd x). }
  setoid_rewrite elem_of_app in Hall.
  destruct (partition_performs p1 p2) with (c := c) as (rn & Hrn & He); [..|done|].
  { apply Forall_forall. intros x Hx. apply Hall. auto. }
  { apply Forall_forall. intros x Hx. apply Hall. auto. }
  { lia. } { lia. }
  assert (Leader c = Ok ((b, l), c)) as HLc.
  { unfold Leader, bind, get. by rewrite (an_n _ _ Hc). }
  exists b, l, p1, p2, (set_knet (λ _, rn) c). split_and!; [done| | |done|done|done|lia|].
  { intros ->. by destruct Hb as [_ ?]. }
  { unfold make_partition, bind. rewrite HLc. unfold get. simpl. by rewrite (an_n _ _ Hc), Hs. }
  intros i j e Hij. cbn [kc_net set_knet]. rewrite (He i j e Hij), after_partition by done. unfold partitioned.
  assert ((i ∈ p1 ∨ i ∈ p2) ∧ (j ∈ p1 ∨ j ∈ p2)) as [Hi Hj].
  { rewrite !Hall. by eapply kename_range. }
  case_decide; [by rewrite bool_decide_true by naive_solver|].
  case_decide; [by rewrite bool_decide_false by naive_solver|naive_solver].
Qed.

End theorems.

(** ** The key/value service *)

(** [StartKVServer]: the peer and the service on it. *)
Definition start_kv (maxraftstate n i : Z) (p : Persister Op) (rand : list Z) : res (Raft Op * RaftKV) :=
  match Make (seqZ 0 n) i p rand with
  | Ok rf => Ok (rf, StartKVServer)
  | Panic w => Panic w
  end.

(** The methods [reflect] finds on a [*RaftKV]. *)
Definition kv_methods : list Method :=
  [mkMethod "AppendLog" EmptyString 2 false 1; mkMethod "Get" EmptyString 3 true 0;
   mkMethod "Kill" EmptyString 1 false 0; mkMethod "PutAppend" EmptyString 3 true 0].

#[global] Instance kv_service : Service Op (Raft Op * RaftKV) Z :=
  mkServiceOps _ _ _ fst RaftKV_Kill start_kv "RaftKV" kv_methods.

Abbreviation kv_config V := (kvconfig (V := V) (C := Op) (Sv := Raft Op * RaftKV) (Conf := Z)).

(** *** The defects *)

(** With an even number of servers a slot of the second group stays zero, so that server 0 can
    be in both groups. *)
Lemma even_split_overlaps : split_servers 4 3 = Some ([0; 1; 2], [0; 3]).
Proof. reflexivity. Qed.

(** [disconnect] looks at the wrong row: servers 0 and 1 have been started, server 2 has not,
    and detaching 0 from 2 indexes the nil slice of 2. *)
Lemma wrong_row_panics :
  disconnectUnlocked 0 [2]
    (mkKvConfig (MakeNetwork tt) 3 [None; None; None] [None; None; None]
       [Some ["a"; "b"; "c"]; Some ["d"; "e"; "f"]; None]%string ∅ 1003 (-1) : kv_config ()) =
  Panic index_panic.
Proof. vm_compute. reflexivity. Qed.

(** ** Shuffling *)

Lemma swap_perm {A} (l l' : list A) i j : swap l i j = Some l' → l' ≡ₚ l.
Proof.
  unfold swap. destruct (l !! i) as [x|] eqn:Hi; [|done]. destruct (l !! j) as [y|] eqn:Hj; [|done].
  intros [= <-]. by apply Permutation_insert_swap.
Qed.

Lemma shuffle_perm {A} draw ids (l : list A) :
  Forall (λ i, (i < length l)%nat) ids → ∃ l', shuffle ids draw l = Some l' ∧ l' ≡ₚ l.
Proof.
  revert l. induction ids as [|i ids IH]; intros l Hlt; [by exists l|].
  apply Forall_cons in Hlt as [Hi Hids]. cbn [shuffle].
  assert (draw i mod (i + 1) < i + 1)%nat as Hj by (apply Nat.mod_upper_bound; lia).
  destruct (swap l i (draw i mod (i + 1))%nat) as [l1|] eqn:Hs.
  - apply swap_perm in Hs. destruct (IH l1) as (l' & -> & Hp); [by rewrite (Permutation_length Hs)|].
    exists l'. split; [done|]. by rewrite Hp.
  - exfalso. unfold swap in Hs. destruct (lookup_lt_is_Some_2 l i Hi) as [x Hx].
    destruct (lookup_lt_is_Some_2 l (draw i mod (i + 1))%nat) as [y Hy]; [lia|].
    rewrite Hx, Hy in Hs. done.
Qed.

Lemma random_handles_perm {A} draw (kvh : list A) :
  ∃ l, random_handles draw kvh = Some l ∧ l ≡ₚ kvh.
Proof. apply shuffle_perm, Forall_forall. intros i Hi%elem_of_seq. lia. Qed.

(** ** New clerks *)

Section clients.
Context {V C Sv Conf : Type} {Svc : Service C Sv Conf}.
Local Abbreviation kvconfig := (KvHarness.kvconfig (V := V) (C := C) (Sv := Sv) (Conf := Conf)).
Implicit Types c : kvconfig.

Lemma make_kends names c l :
  (∀ j j', j ∈ l → j' ∈ l → names j = names j' → j = j') →
  (∀ j, j ∈ l → inr (names j) ∉ ends (kc_net c)) → NoDup l →
  ∃ rn, for_range l (λ j, make_kend (names j) j) c = Ok (tt, set_knet (λ _, rn) c) ∧
    ends_made names l (kc_net c) rn.
Proof.
  intros Hinj Hf Hnd.
  destruct (wp_total (for_range l (λ j, make_kend (names j) j))
    (λ _ s, ∃ rn, s = set_knet (λ _, rn) c ∧ ends_made names l (kc_net c) rn) c)
    as ([] & s & Hrun & rn & -> & Hm); [|by exists rn].
  eapply wp_mono.
  - apply (wp_for_range _ _ (λ rest s, ∃ done rn, l = done ++ rest ∧ s = set_knet (λ _, rn) c ∧
      ends_made names done (kc_net c) rn)).
    + exists [], (kc_net c). split_and!; [done|by destruct c|]. split; set_solver.
    + intros j rest s (done & rn & -> & -> & Hm).
      destruct (ends_made_snoc names done (kc_net c) rn j Hm) as (rn' & HM & Hm').
      { apply Hf. set_solver. }
      { intros j' Hj' Heq. apply Hinj in Heq; [|set_solver..]. subst j'.
        apply NoDup_app in Hnd as (_ & Hd & _). apply (Hd j Hj'). left. }
      unfold make_kend. wp_step. wp_step. simpl. rewrite HM. wp_step.
      exists (done ++ [j]), (Connect (inr (names j)) (inl j) rn'). split_and!; [|done|done].
      by rewrite <- app_assoc.
  - intros [] s (done & rn & Hl & -> & Hm). rewrite app_nil_r in Hl. subst done. eauto.
Qed.

(** A new clerk reaches exactly the servers it was made for: [makeClient] gives it one end
    per server, in a shuffled order, the end for server [j] leads to server [j], and it is
    enabled exactly if [j] is in [to]. *)
Theorem client_reaches names draw to c :
  0 ≤ kc_n c →
  (∀ j j', 0 ≤ j < kc_n c → 0 ≤ j' < kc_n c → names j = names j' → j = j') →
  (∀ j, 0 ≤ j < kc_n c → inr (names j) ∉ ends (kc_net c)) →
  Forall (λ t, 0 ≤ t < kc_n c) to →
  ∃ ck handles c', makeClient names draw to c = Ok ((ck, handles), c') ∧
    clerks c !! ck = None ∧ handles ≡ₚ seqZ 0 (kc_n c) ∧
    ∀ j, 0 ≤ j < kc_n c →
      connections (kc_net c') !! inr (names j) = Some (Some (inl j)) ∧
      enabled (kc_net c') !! inr (names j) = Some (bool_decide (j ∈ to)).
Proof.
  intros Hn Hinj Hf Hto. rewrite Forall_forall in Hto.
  destruct (make_kends names c (seqZ 0 (kc_n c))) as (rn & Hloop & Hm).
  { intros j j' ?%elem_of_seqZ ?%elem_of_seqZ. apply Hinj; lia. }
  { intros j ?%elem_of_seqZ. apply Hf. lia. }
  { apply NoDup_seqZ. }
  destruct (random_handles_perm draw (seqZ 0 (kc_n c))) as (handles & Hh & Hp).
  set (ck := fresh (dom (clerks c))).
  set (c1 := set_nextClientId (nextClientId c + 1) (set_clerks (<[ck := map names (seqZ 0 (kc_n c))]> (clerks c)) c)).
  set (rn' := enable_ends true (map names to) rn).
  exists ck, handles, (set_knet (λ _, rn') c1). split_and!; [| |done|].
  - unfold makeClient. unfold bind at 1, get at 1. unfold bind at 1. rewrite Hloop.
    unfold bind at 1. rewrite Hh. unfold must at 1, ret at 1. unfold bind at 1, modify at 1.
    unfold bind at 1, modify at 1. unfold bind at 1.
    unfold ConnectClientUnlocked. unfold bind at 1, get at 1.
    change (set_nextClientId _ _) with (set_knet (λ _, rn) c1). cbv zeta.
    rewrite (switch_loop _ _ names true c1); [done|]. intros t rn0 Ht. unfold bind.
    simpl (clerks _). rewrite lookup_insert_eq. simpl.
    assert (go_at (map names (seqZ 0 (kc_n c))) t = Some (names t)) as ->; [|done].
    pose proof (Hto t Ht). apply go_at_Some. split; [lia|].
    rewrite list_lookup_fmap, lookup_seqZ_lt by lia. simpl. do 2 f_equal. lia.
  - apply not_elem_of_dom, is_fresh.
  - intros j Hj. simpl. destruct (em_new _ _ _ _ Hm j) as [Hen Hcn]; [apply elem_of_seqZ; lia|].
    split; [|unfold rn'; rewrite enable_ends_lookup, Hen].
    + unfold rn'. by rewrite enable_ends_connections.
    + case_decide as Hin; case_bool_decide; try done.
      * apply list_elem_of_fmap in Hin as (t & Heq & Ht). apply Hinj in Heq; [by subst|done|auto].
      * destruct Hin. apply list_elem_of_fmap. eauto.
Qed.

End clients.

(** ** A service of three servers *)

Definition kv_trio : kv_config () :=
  match kv_make_config 3 false (-1) trio_names (λ _, []) with
  | Ok c => c
  | Panic _ => mkKvConfig (MakeNetwork tt) 0 [] [] [] ∅ 0 0
  end.

Lemma kv_trio_named : all_named 3 kv_trio.
Proof.
  assert (kc_endnames kv_trio =
    map (λ i, Some (map (trio_names i) (seqZ 0 3))) (seqZ 0 3)) as He by (vm_compute; reflexivity).
  assert (∀ i, 0 ≤ i < 3 → go_at (kc_endnames kv_trio) i = Some (Some (map (trio_names i) (seqZ 0 3)))) as Hrow.
  { intros i Hi. rewrite He. apply go_at_Some. split; [lia|].
    rewrite list_lookup_fmap, lookup_seqZ_lt by lia.
    by replace (0 + Z.of_nat (Z.to_nat i)) with i by lia. }
  assert (∀ i j e, kename kv_trio i j = Some e → 0 ≤ i < 3 ∧ 0 ≤ j < 3 ∧ e = trio_names i j) as Hname.
  { intros i j e. unfold kename. destruct (decide (0 ≤ i < 3)) as [Hi|Hi].
    - rewrite Hrow by done. intros Hj. pose proof (go_at_range _ _ _ Hj) as Hrj.
      unfold go_len in Hrj. rewrite length_fmap, length_seqZ in Hrj. apply go_at_Some in Hj as [_ Hj].
      rewrite list_lookup_fmap, lookup_seqZ_lt in Hj by lia. apply (inj Some) in Hj. subst e.
      split_and!; [lia..|]. f_equal. lia.
    - destruct (go_at (kc_endnames kv_trio) i) as [o|] eqn:Ho; [|done].
      apply go_at_range in Ho. rewrite He in Ho. unfold go_len in Ho.
      rewrite length_fmap, length_seqZ in Ho. lia. }
  split.
  - vm_compute. reflexivity.
  - rewrite He. reflexivity.
  - intros i Hi. rewrite Hrow by done. eexists. split; [done|]. reflexivity.
  - intros i j i' j' e (?&?&->)%Hname (?&?&Heq)%Hname. by apply trio_names_distinct in Heq.
Qed.

Lemma kv_trio_running : all_running 3 kv_trio.
Proof.
  assert (forallb (λ o, bool_decide (is_Some o)) (kvservers kv_trio) = true ∧
    go_len (kvservers kv_trio) = 3) as [Hall Hlen] by (vm_compute; split; reflexivity).
  intros i Hi. destruct (go_at_is_Some (kvservers kv_trio) i) as [o Ho]; [lia|].
  rewrite forallb_forall in Hall. specialize (Hall o). apply go_at_Some in Ho as Ho'.
  destruct o as [s|]; [by exists s|]. destruct Ho' as [_ Ho'].
  apply list_elem_of_lookup_2, list_elem_of_In in Ho'. specialize (Hall Ho').
  apply bool_decide_eq_true in Hall. destruct Hall as [? [=]].
Qed.

Lemma leader_cut_off_witness :
  ∃ b l p1 p2 c', Leader kv_trio = Ok ((b, l), kv_trio) ∧
    make_partition kv_trio = Ok ((p1, p2), kv_trio) ∧
    partition p1 p2 kv_trio = Ok (tt, c') ∧ 3 < 2 * go_len p1.
Proof.
  destruct (leader_cut_off (V := ()) 3 1 kv_trio ltac:(lia) ltac:(lia) kv_trio_named kv_trio_running)
    as (b & l & p1 & p2 & c' & H1 & _ & H2 & H3 & _ & _ & H4 & _).
  exists b, l, p1, p2, c'. split; [exact H1|]. split; [exact H2|]. split; [exact H3|exact H4].
Defined.

Lemma client_reaches_witness :
  ∃ ck handles c', makeClient (λ j, trio_names 5 j) (λ i, i) [0; 2] kv_trio = Ok ((ck, handles), c') ∧
    enabled (kc_net c') !! inr (trio_names 5 1) = Some false.
Proof.
  assert (kc_n kv_trio = 3) as Hn by (vm_compute; reflexivity).
  assert (ends (kc_net kv_trio) = list_to_set (map inr (map Z.to_nat (seqZ 0 9) ≫=
    λ k, [String (Ascii.ascii_of_nat k) EmptyString]))) as He by (vm_compute; reflexivity).
  destruct (client_reaches (V := ()) (λ j, trio_names 5 j) (λ i, i) [0; 2] kv_trio)
    as (ck & handles & c' & H1 & _ & _ & H2).
  - rewrite Hn. lia.
  - rewrite Hn. intros j j' ?? [= Heq]. apply (f_equal Ascii.nat_of_ascii) in Heq.
    rewrite !Ascii.nat_ascii_embedding in Heq by lia. lia.
  - rewrite Hn, He. intros j Hj Hin. assert (j = 0 ∨ j = 1 ∨ j = 2) as Hc by lia.
    revert Hin. destruct Hc as [->|[->| ->]]; vm_compute; intros Hin; discriminate Hin.
  - rewrite Hn. apply Forall_cons. split; [lia|]. apply Forall_cons. split; [lia|]. apply Forall_nil. done.
  - exists ck, handles, c'. split; [exact H1|]. destruct (H2 1 ltac:(rewrite Hn; lia)) as [_ H3].
    rewrite H3. reflexivity.
Defined.
