(* ===== verification/MapReduce.v ===== *)
(** * The MapReduce library (src/mit/src/mapreduce)

    The tasks work on a shared file system: a map from names to contents.  A
    file of JSON values is the list of values [encoding/json] streams to it
    ([Json]), in which a string that is not valid UTF-8 is changed
    ([json_string]); any other file is its text.  [json_text] is the text of a
    JSON file, needed only if a job is given one as input.  [log.Fatal] is a panic.
    Iterating over a Go map visits its entries in some order: [range_order].

    [Sequential] runs the tasks in order.  [schedule] of the distributed master
    is modelled by what its goroutines do: [sched_state] and [sched_step]. *)
From Stdlib Require Import Ascii.
From Stdlib Require Strings.String.
From stdpp Require Import pretty.
From S2P Require Import Prelude GoRt Utf8.
Open Scope Z_scope.

(** ** Names and data *)

Record KeyValue : Type := mkKeyValue { Key : string; Value : string }.

#[export] Instance KeyValue_eq_dec : EqDecision KeyValue.
Proof. solve_decision. Defined.

Inductive jobPhase : Type := mapPhase | reducePhase.

Inductive fdata : Type := Text (s : string) | Json (kvs : list KeyValue).
Abbreviation FS := (gmap string fdata).

Definition reduceName (jobName : string) (mapTask reduceTask : Z) : string :=
  ("mrtmp." +:+ jobName +:+ "-" +:+ Itoa mapTask +:+ "-" +:+ Itoa reduceTask)%string.
Definition mergeName (jobName : string) (reduceTask : Z) : string :=
  ("mrtmp." +:+ jobName +:+ "-res-" +:+ Itoa reduceTask)%string.
Definition resultName (jobName : string) : string := ("mrtmp." +:+ jobName)%string.

(** FNV-1a with 32 bits, as [hash/fnv] computes it. *)
Definition fnv_step (h : Z) (c : ascii) : Z :=
  (Z.lxor h (Z.of_nat (nat_of_ascii c)) * 16777619) mod 2 ^ 32.
Definition ihash (s : string) : Z :=
  fold_left fnv_step (String.list_ascii_of_string s) 2166136261.

(** A pair as it comes back from [encoding/json]. *)
Definition json_kv (kv : KeyValue) : KeyValue := mkKeyValue (json_string (Key kv)) (json_string (Value kv)).

(** What a JSON decoder gets out of a file before its first error; only what [encode] below
    has put there is JSON. *)
Definition decode_all (f : fdata) : list KeyValue :=
  match f with Json kvs => kvs | Text _ => [] end.
Definition json_of (fs : FS) (name : string) : list KeyValue :=
  match fs !! name with Some f => decode_all f | None => [] end.

(** ** The master and its files *)

(** The master; [registerC] and [doneC] are the values sent on its channels. *)
Record Master : Type := mkMaster {
  address : string; workers : list string;
  jobName_ : string; files_ : list string; nReduce_ : Z;
  stats : list Z; registerC : list string; doneC : list bool;
}.
Abbreviation World := (Master * FS)%type.

Definition newMaster (master : string) : Master :=
  mkMaster master [] EmptyString [] 0 [] [] [].

Definition Register (worker : string) (mr : Master) : Master :=
  mkMaster (address mr) (workers mr ++ [worker]) (jobName_ mr) (files_ mr) (nReduce_ mr)
    (stats mr) (registerC mr ++ [worker]) (doneC mr).

Definition set_stats (l : list Z) (mr : Master) : Master :=
  mkMaster (address mr) (workers mr) (jobName_ mr) (files_ mr) (nReduce_ mr) l (registerC mr) (doneC mr).
Definition set_job (j : string) (fl : list string) (n : Z) (mr : Master) : Master :=
  mkMaster (address mr) (workers mr) j fl n (stats mr) (registerC mr) (doneC mr).
Definition send_done (mr : Master) : Master :=
  mkMaster (address mr) (workers mr) (jobName_ mr) (files_ mr) (nReduce_ mr)
    (stats mr) (registerC mr) (doneC mr ++ [true]).

(** A computation on the files, run by the master. *)
Definition on_files {A} (m : M FS A) : M World A :=
  λ '(mr, fs), match m fs with Ok (a, fs') => Ok (a, (mr, fs')) | Panic w => Panic w end.
Definition on_master (f : Master → Master) : M World () := modify (λ '(mr, fs), (f mr, fs)).

(** ** Tasks *)

Section tasks.
Context (json_text : list KeyValue → string)
        (range_order : gmap string (list string) → list (string * list string)).

Definition open_file (why name : string) : M FS fdata :=
  fs <- get ;; must why (fs !! name).
Definition create_file (name : string) : M FS () := modify (λ fs, <[name := Json []]> fs).
Definition write_text (name text : string) : M FS () := modify (λ fs, <[name := Text text]> fs).

(** [enc.Encode(&kv)] on the open file [name]. *)
Definition encode (name : string) (kv : KeyValue) : M FS () :=
  modify (λ fs, <[name := Json (json_of fs name ++ [json_kv kv])]> fs).

Definition contents (f : fdata) : string :=
  match f with Text s => s | Json kvs => json_text kvs end.

(** The loop of [doMap]; [opened] are the keys of [intermediateDecoders]. *)
Fixpoint doMap_write (jobName : string) (mapTask nReduce : Z) (opened : gset string)
    (kvs : list KeyValue) : M FS () :=
  match kvs with
  | [] => ret tt
  | value :: kvs' =>
      if nReduce mod 2 ^ 32 =? 0 then panic "runtime error: integer divide by zero" else
      let rN := ihash (Key value) mod (nReduce mod 2 ^ 32) in
      let intermediateName := reduceName jobName mapTask rN in
      (when negb (bool_decide (intermediateName ∈ opened)) do create_file intermediateName) ;;
      encode intermediateName value ;;
      doMap_write jobName mapTask nReduce ({[intermediateName]} ∪ opened) kvs'
  end.

Definition doMap (jobName : string) (mapTask : Z) (inFile : string) (nReduce : Z)
    (mapF : string → string → list KeyValue) : M FS () :=
  file <- open_file "Open file error: " inFile ;;
  doMap_write jobName mapTask nReduce ∅ (mapF inFile (contents file)).

(** [keyValues[key] = append(keyValues[key], value)] *)
Definition group_add (g : gmap string (list string)) (kv : KeyValue) : gmap string (list string) :=
  match g !! Key kv with
  | Some arr => <[Key kv := arr ++ [Value kv]]> g
  | None => <[Key kv := [Value kv]]> g
  end.

Definition group (kvs : list KeyValue) (g : gmap string (list string)) : gmap string (list string) :=
  fold_left group_add kvs g.

(** The loop over the map tasks; a file that is not there is skipped. *)
Fixpoint doReduce_read (fs : FS) (jobName : string) (reduceTask : Z) (tasks : list Z)
    (g : gmap string (list string)) : gmap string (list string) :=
  match tasks with
  | [] => g
  | i :: tasks' =>
      doReduce_read fs jobName reduceTask tasks'
        (match fs !! reduceName jobName i reduceTask with
         | None => g
         | Some f => group (decode_all f) g
         end)
  end.

Definition doReduce (jobName : string) (reduceTask nMap : Z)
    (reduceF : string → list string → string) : M FS () :=
  fs <- get ;;
  let keyValues := doReduce_read fs jobName reduceTask (seqZ 0 nMap) ∅ in
  let name := mergeName jobName reduceTask in
  create_file name ;;
  for_range (range_order keyValues) (λ '(key, values),
    encode name (mkKeyValue key (reduceF key values))).

(** ** Merging, and the sequential job *)

Fixpoint merge_read (jobName : string) (tasks : list Z) (kvs : gmap string string) :
    M FS (gmap string string) :=
  match tasks with
  | [] => ret kvs
  | i :: tasks' =>
      file <- open_file "Merge: " (mergeName jobName i) ;;
      merge_read jobName tasks'
        (fold_left (λ m kv, <[Key kv := Value kv]> m) (decode_all file) kvs)
  end.

Definition line (k v : string) : string :=
  (k +:+ ": " +:+ v +:+ String.String "010" EmptyString)%string.
Definition merge_text (kvs : gmap string string) : string :=
  String.concat EmptyString
    (map (λ k, line k (default EmptyString (kvs !! k))) (sort_Strings (map fst (map_to_list kvs)))).

Definition merge (jobName : string) (nReduce : Z) : M FS () :=
  kvs <- merge_read jobName (seqZ 0 nReduce) ∅ ;;
  write_text (resultName jobName) (merge_text kvs).

Definition run (jobName : string) (files : list string) (nreduce : Z)
    (schedule : jobPhase → M World ()) (finish : M World ()) : M World () :=
  on_master (set_job jobName files nreduce) ;;
  schedule mapPhase ;;
  schedule reducePhase ;;
  finish ;;
  w <- get ;;
  on_files (merge (jobName_ w.1) (nReduce_ w.1)) ;;
  on_master send_done.

(** The [schedule] of [Sequential]. *)
Definition seq_map (jobName : string) (files : list string) (nReduce : Z)
    (mapF : string → string → list KeyValue) : M FS () :=
  for_range (zip (seqZ 0 (go_len files)) files) (λ '(i, f), doMap jobName i f nReduce mapF).
Definition seq_reduce (jobName : string) (nMap nReduce : Z)
    (reduceF : string → list string → string) : M FS () :=
  for_range (seqZ 0 nReduce) (λ i, doReduce jobName i nMap reduceF).
Definition seq_schedule (mapF : string → string → list KeyValue)
    (reduceF : string → list string → string) (phase : jobPhase) : M World () :=
  w <- get ;;
  match phase with
  | mapPhase => on_files (seq_map (jobName_ w.1) (files_ w.1) (nReduce_ w.1) mapF)
  | reducePhase => on_files (seq_reduce (jobName_ w.1) (go_len (files_ w.1)) (nReduce_ w.1) reduceF)
  end.

(** [Sequential] and the goroutine it starts; the master when it is done. *)
Definition Sequential (jobName : string) (files : list string) (nreduce : Z)
    (mapF : string → string → list KeyValue) (reduceF : string → list string → string) : M FS Master :=
  λ fs, match run jobName files nreduce (seq_schedule mapF reduceF)
                (on_master (set_stats [go_len files + nreduce])) (newMaster "master", fs) with
        | Ok (_, (mr, fs')) => Ok (mr, fs')
        | Panic w => Panic w
        end.

(** [killWorkers]: [call w] is the reply of worker [w] to its [Shutdown], if it answers. *)
Definition killWorkers (call : string → option Z) (mr : Master) : list Z := omap call (workers mr).

Definition removeFile (n : string) : M FS () :=
  fs <- get ;;
  if bool_decide (is_Some (fs !! n)) then modify (delete n) else panic "CleanupFiles".

Definition CleanupFiles (jobName : string) (files : list string) (nReduce : Z) : M FS () :=
  for_range (go_range files) (λ i,
    for_range (seqZ 0 nReduce) (λ j, removeFile (reduceName jobName i j))) ;;
  for_range (seqZ 0 nReduce) (λ i, removeFile (mergeName jobName i)) ;;
  removeFile (resultName jobName).

(** ** Workers *)

Record DoTaskArgs : Type := mkDoTaskArgs {
  DT_JobName : string; DT_File : string; DT_Phase : jobPhase; DT_TaskNumber : Z;
  DT_NumOtherPhase : Z;
}.

Definition DoTask (mapF : string → string → list KeyValue) (reduceF : string → list string → string)
    (arg : DoTaskArgs) : M FS () :=
  match DT_Phase arg with
  | mapPhase => doMap (DT_JobName arg) (DT_TaskNumber arg) (DT_File arg) (DT_NumOtherPhase arg) mapF
  | reducePhase => doReduce (DT_JobName arg) (DT_TaskNumber arg) (DT_NumOtherPhase arg) reduceF
  end.

End tasks.

(** The arguments [schedule] builds for task [i]: [mr.files[i]] is read in both phases. *)
Definition phase_sizes (phase : jobPhase) (files : list string) (nReduce : Z) : Z * Z :=
  match phase with
  | mapPhase => (go_len files, nReduce)
  | reducePhase => (nReduce, go_len files)
  end.

Definition task_args (jobName : string) (files : list string) (nReduce : Z) (phase : jobPhase) (i : Z) :
    res DoTaskArgs :=
  match go_at files i with
  | Some f => Ok (mkDoTaskArgs jobName f phase i (phase_sizes phase files nReduce).2)
  | None => Panic index_panic
  end.

(** ** [schedule]: one goroutine per task, a [WaitGroup] and the channel of idle workers *)

Inductive gstate : Type :=
| GSpawned                     (** the [go] statement ran, the goroutine did not yet *)
| GWaiting                     (** it receives from [registerChannel] *)
| GCalling (worker : string)   (** it is in [call(worker, "Worker.DoTask", ...)] *)
| GDone.

#[export] Instance gstate_eq_dec : EqDecision gstate.
Proof. solve_decision. Defined.

Record Sched : Type := mkSched {
  wg : Z;                      (** the counter of the [WaitGroup] *)
  tasks : list gstate;         (** goroutine [i] runs task [i] *)
  idle : list string;          (** the pending sends on [registerChannel] *)
  files_of : FS;
  returned : bool;
}.

Inductive sched_action : Type :=
| SSpawn                       (** the loop of [schedule] starts the next goroutine *)
| SAdd (i : nat)               (** goroutine [i] reaches [wg.Add(1)] *)
| STake (i j : nat)            (** it receives the [j]th idle worker and makes its call *)
| SCallOk (i : nat)            (** the call returned true *)
| SCallFail (i : nat) (k : option nat)
                               (** it returned false: the worker did not run the task, or
                                   stopped, or was cut off, after [k] of its writes *)
| SRegister (w : string)       (** a worker registers with the master *)
| SReturn.                     (** [wg.Wait()] returns *)

Section schedule.
Context (json_text : list KeyValue → string)
        (range_order : gmap string (list string) → list (string * list string))
        (mapF : string → string → list KeyValue) (reduceF : string → list string → string)
        (jobName : string) (files : list string) (nReduce : Z) (phase : jobPhase).

(** A task cut off after its first [k] writes. *)
Definition cut_task (arg : DoTaskArgs) (k : nat) : M FS () :=
  match DT_Phase arg with
  | mapPhase =>
      file <- open_file "Open file error: " (DT_File arg) ;;
      doMap_write (DT_JobName arg) (DT_TaskNumber arg) (DT_NumOtherPhase arg) ∅
        (take k (mapF (DT_File arg) (contents json_text file)))
  | reducePhase => doReduce (λ g, take k (range_order g)) (DT_JobName arg) (DT_TaskNumber arg)
                     (DT_NumOtherPhase arg) reduceF
  end.

Definition set_task (i : nat) (g : gstate) (s : Sched) : Sched :=
  mkSched (wg s) (<[i := g]> (tasks s)) (idle s) (files_of s) (returned s).
Definition add_wg (d : Z) (s : Sched) : Sched :=
  mkSched (wg s + d) (tasks s) (idle s) (files_of s) (returned s).
Definition set_idle (l : list string) (s : Sched) : Sched :=
  mkSched (wg s) (tasks s) l (files_of s) (returned s).
Definition set_files (fs : FS) (s : Sched) : Sched :=
  mkSched (wg s) (tasks s) (idle s) fs (returned s).

Definition ntasks : Z := (phase_sizes phase files nReduce).1.

(** One action; [None] if it is not enabled, [Panic] if it crashes the master. *)
Definition sched_exec (a : sched_action) (s : Sched) : option (res Sched) :=
  match a with
  | SSpawn =>
      if returned s then None else
      if go_len (tasks s) <? ntasks
      then Some (Ok (mkSched (wg s) (tasks s ++ [GSpawned]) (idle s) (files_of s) false)) else None
  | SAdd i =>
      match tasks s !! i with
      | Some GSpawned => Some (Ok (add_wg 1 (set_task i GWaiting s)))
      | _ => None
      end
  | STake i j =>
      match tasks s !! i, idle s !! j with
      | Some GWaiting, Some w =>
          match task_args jobName files nReduce phase (Z.of_nat i) with
          | Ok _ => Some (Ok (set_task i (GCalling w) (set_idle (delete j (idle s)) s)))
          | Panic why => Some (Panic why)
          end
      | _, _ => None
      end
  | SCallOk i =>
      match tasks s !! i, task_args jobName files nReduce phase (Z.of_nat i) with
      | Some (GCalling w), Ok arg =>
          match DoTask json_text range_order mapF reduceF arg (files_of s) with
          | Ok (_, fs) => Some (Ok (add_wg (-1) (set_task i GDone
                            (set_idle (idle s ++ [w]) (set_files fs s)))))
          | Panic _ => None
          end
      | _, _ => None
      end
  | SCallFail i k =>
      match tasks s !! i, task_args jobName files nReduce phase (Z.of_nat i), k with
      | Some (GCalling _), Ok _, None => Some (Ok (set_task i GWaiting s))
      | Some (GCalling _), Ok arg, Some k =>
          match cut_task arg k (files_of s) with
          | Ok (_, fs) => Some (Ok (set_task i GWaiting (set_files fs s)))
          | Panic _ => None
          end
      | _, _, _ => None
      end
  | SRegister w => Some (Ok (set_idle (idle s ++ [w]) s))
  | SReturn =>
      if negb (returned s) && (go_len (tasks s) =? ntasks) && (wg s =? 0)
      then Some (Ok (mkSched (wg s) (tasks s) (idle s) (files_of s) true)) else None
  end.

Definition sched_start (workers : list string) (fs : FS) : Sched := mkSched 0 [] workers fs false.

Definition sched_step (s s' : Sched) : Prop := ∃ a, sched_exec a s = Some (Ok s').

Fixpoint sched_run (acts : list sched_action) (s : Sched) : option (res Sched) :=
  match acts with
  | [] => Some (Ok s)
  | a :: acts' =>
      match sched_exec a s with
      | Some (Ok s') => sched_run acts' s'
      | r => r
      end
  end.
End schedule.

(** ** The accept loop of a worker *)

Inductive wstage : Type :=
| WTop                         (** about to test [nRPC] *)
| WAccepting                   (** in [Accept] *)
| WServing                     (** the connection was handed to a goroutine, [nTasks++] is next *)
| WExited.

Record Worker : Type := mkWorker { nRPC : Z; nTasks : Z; wk_stage : wstage }.

Definition RunWorker (nrpc : Z) : Worker := mkWorker nrpc 0 WTop.

(** The handler of [Shutdown], which runs in a goroutine of its own: its reply and effect. *)
Definition Worker_Shutdown (wk : Worker) : Z * Worker :=
  (nTasks wk, mkWorker 1 (wrap64 (nTasks wk - 1)) (wk_stage wk)).

Inductive wevent : Type :=
| WTest                        (** [if wk.nRPC == 0 { break }] *)
| WAccept (ok : bool)          (** [Accept] returns, with or without a connection *)
| WCount                       (** [wk.nTasks++] *)
| WShutdown.                   (** a [Shutdown] RPC is served *)

Definition worker_exec (e : wevent) (wk : Worker) : option Worker :=
  match e, wk_stage wk with
  | WTest, WTop => Some (mkWorker (nRPC wk) (nTasks wk) (if nRPC wk =? 0 then WExited else WAccepting))
  | WAccept true, WAccepting => Some (mkWorker (wrap64 (nRPC wk - 1)) (nTasks wk) WServing)
  | WAccept false, WAccepting => Some (mkWorker (nRPC wk) (nTasks wk) WExited)
  | WCount, WServing => Some (mkWorker (nRPC wk) (wrap64 (nTasks wk + 1)) WTop)
  | WShutdown, _ => Some (Worker_Shutdown wk).2
  | _, _ => None
  end.

Fixpoint worker_run (es : list wevent) (wk : Worker) : option Worker :=
  match es with
  | [] => Some wk
  | e :: es' => match worker_exec e wk with Some wk' => worker_run es' wk' | None => None end
  end.
