(* ===== verification/MrTheorems.v ===== *)
(** * MapReduce: what a job computes

    - [mapreduce_correct]: [Sequential] writes the sorted lines of the reference result;
    - [distributed_correct]: the distributed schedule computes the same, in spite of failing
      workers, if its [Wait] sees every goroutine;
    - [schedule_returns_early], [reduce_index_panic]: the schedule may return too soon,
      and needs as many input files as reduce tasks;
    - [cleanup_after_job]: when [CleanupFiles] succeeds;
    - [worker_rpc_limit]: how many connections a worker accepts. *)
From Stdlib Require Import Ascii.
From Stdlib Require Strings.String.
From stdpp Require Import pretty.
From S2P Require Import Prelude GoRt Utf8 MapReduce.
Open Scope Z_scope.

(** ** File names *)

Lemma reduceName_inj j m r m' r' :
  0 ≤ m → 0 ≤ m' → reduceName j m r = reduceName j m' r' → m = m' ∧ r = r'.
Proof.
  unfold reduceName. intros ?? Heq.
  do 3 apply (inj (String.append _)) in Heq.
  apply digits_dash in Heq as [Hm Hr]; [|by apply Itoa_digits..].
  split; by apply (inj pretty).
Qed.

Lemma mergeName_inj j r r' : mergeName j r = mergeName j r' → r = r'.
Proof. unfold mergeName. intros Heq. do 3 apply (inj (String.append _)) in Heq. by apply (inj pretty). Qed.

Lemma reduce_merge_names j m r r' : 0 ≤ m → reduceName j m r ≠ mergeName j r'.
Proof.
  unfold reduceName, mergeName. intros Hm Heq. do 2 apply (inj (String.append _)) in Heq.
  destruct (Itoa_digits m Hm) as [Hd Hne]. destruct (Itoa m) as [|c s]; [done|].
  cbn in Heq. simplify_eq. destruct Hd as [Hd _]. by apply digit_char in Hd as [_ ?].
Qed.

Lemma append_nonempty (s t : string) : (s = s +:+ t)%string → t = EmptyString.
Proof. induction s as [|c s IH]; cbn; intros Heq; [done|]. injection Heq. auto. Qed.

Lemma result_reduce_names j m r : resultName j ≠ reduceName j m r.
Proof.
  unfold resultName, reduceName. intros Heq. apply (inj (String.append _)) in Heq.
  by apply append_nonempty in Heq.
Qed.

Lemma result_merge_names j r : resultName j ≠ mergeName j r.
Proof.
  unfold resultName, mergeName. intros Heq. apply (inj (String.append _)) in Heq.
  by apply append_nonempty in Heq.
Qed.

(** ** Grouping *)

Definition values (k : string) (kvs : list KeyValue) : list string :=
  map Value (filter (λ kv, Key kv = k) kvs).

Lemma values_app k l1 l2 : values k (l1 ++ l2) = values k l1 ++ values k l2.
Proof. unfold values. by rewrite filter_app, map_app. Qed.

(** A list as a map entry: the code never stores an empty one. *)
Definition entry {A} (l : list A) : option (list A) := match l with [] => None | _ => Some l end.

Definition grouped (g : gmap string (list string)) (kvs : list KeyValue) : Prop :=
  ∀ k, g !! k = entry (values k kvs).

Lemma grouped_add g kvs kv : grouped g kvs → grouped (group_add g kv) (kvs ++ [kv]).
Proof.
  intros Hg k. unfold group_add. rewrite values_app, (Hg (Key kv)).
  assert (Hv : values k [kv] = if decide (Key kv = k) then [Value kv] else []).
  { unfold values. rewrite filter_cons. by destruct (decide (Key kv = k)). }
  rewrite Hv. destruct (decide (Key kv = k)) as [<-|].
  - destruct (values (Key kv) kvs) eqn:Hvs; cbn; by rewrite lookup_insert_eq.
  - rewrite app_nil_r, <- (Hg k). destruct (entry _); by rewrite lookup_insert_ne.
Qed.

Lemma grouped_group l : ∀ g kvs, grouped g kvs → grouped (group l g) (kvs ++ l).
Proof.
  induction l as [|kv l IH]; intros g kvs Hg; cbn; [by rewrite app_nil_r|].
  rewrite (cons_middle kv kvs l), app_assoc. by apply IH, grouped_add.
Qed.

Lemma group_app l1 l2 g : group (l1 ++ l2) g = group l2 (group l1 g).
Proof. apply fold_left_app. Qed.

Lemma group_empty kvs : grouped (group kvs ∅) kvs.
Proof. by apply (grouped_group kvs ∅ []). Qed.

(** What a reduce task reads: its part of every map task, in order. *)
Lemma doReduce_read_group fs j r ts : ∀ g,
  doReduce_read fs j r ts g = group (concat (map (λ i, json_of fs (reduceName j i r)) ts)) g.
Proof.
  induction ts as [|i ts IH]; intros g; cbn; [done|].
  rewrite IH, group_app. unfold json_of. by destruct (fs !! _).
Qed.

(** ** Strings that survive JSON *)

Definition valid_kv (kv : KeyValue) : Prop := valid_utf8 (Key kv) = true ∧ valid_utf8 (Value kv) = true.

Lemma json_kv_valid kv : valid_kv kv → json_kv kv = kv.
Proof. intros [Hk Hv]. unfold json_kv. rewrite !json_string_valid by done. by destruct kv. Qed.

Lemma json_kvs_valid l : (∀ kv, kv ∈ l → valid_kv kv) → map json_kv l = l.
Proof.
  intros Hl. rewrite <- (map_id l) at 2. apply map_ext_in. intros kv Hin%list_elem_of_In. by apply json_kv_valid, Hl.
Qed.

(** ** Computations of the master on the files *)

Lemma wp_on_files {A} E (m : M FS A) (Q : A → World → Prop) mr fs :
  wp E m (λ a fs', Q a (mr, fs')) fs → wp E (on_files m) Q (mr, fs).
Proof. unfold wp, on_files. by destruct (m fs) as [[a fs']|]. Qed.

Lemma wp_world E (m : M World ()) (Q : Master → FS → Prop) mr0 fs :
  wp E m (λ _ w, Q w.1 w.2) (mr0, fs) →
  wp E (λ fs, match m (mr0, fs) with Ok (_, (mr, fs')) => Ok (mr, fs') | Panic w => Panic w end) Q fs.
Proof. unfold wp. by destruct (m (mr0, fs)) as [[u [mr fs']]|]. Qed.

(** ** One job *)

(** The names a job writes to. *)
Definition job_name (j name : string) : Prop :=
  (∃ m r, 0 ≤ m ∧ name = reduceName j m r) ∨ (∃ r, name = mergeName j r) ∨ name = resultName j.

Section job.
Context (json_text : list KeyValue → string)
        (range_order : gmap string (list string) → list (string * list string))
        (mapF : string → string → list KeyValue) (reduceF : string → list string → string)
        (j : string) (files : list string) (nReduce : Z) (fs0 : FS).

(** What the job should compute, whatever its number of reduce tasks. *)
Definition map_output (f : string) : list KeyValue :=
  mapF f (match fs0 !! f with Some d => contents json_text d | None => EmptyString end).
Definition all_kvs : list KeyValue := concat (map map_output files).
Definition reference : gmap string string :=
  map_imap (λ k vs, Some (reduceF k vs)) (group all_kvs ∅).

(** The input files are there, none is a file the job writes, and no file of an
    earlier job of the same name is left. *)
Record job_ok : Prop := {
  job_range : ∀ g, range_order g ≡ₚ map_to_list g;
  job_nReduce : 0 < nReduce < 2 ^ 32;
  job_files : ∀ f, f ∈ files → is_Some (fs0 !! f) ∧ ¬ job_name j f;
  job_fresh : ∀ m r, 0 ≤ m → fs0 !! reduceName j m r = None;
}.

(** What the job writes as JSON is valid UTF-8. *)
Record json_safe : Prop := {
  safe_map : ∀ kv, kv ∈ all_kvs → valid_kv kv;
  safe_reduce : ∀ k, values k all_kvs ≠ [] → valid_utf8 (reduceF k (values k all_kvs)) = true;
}.
Hypothesis Hjob : job_ok.
Hypothesis Hsafe : json_safe.

Definition task_kvs (i : Z) : list KeyValue :=
  match go_at files i with Some f => map_output f | None => [] end.

(** Every key belongs to one reduce task. *)
Definition bucket (r : Z) (kvs : list KeyValue) : list KeyValue :=
  filter (λ kv, ihash (Key kv) mod nReduce = r) kvs.

Lemma bucket_concat r l : bucket r (concat l) = concat (map (bucket r) l).
Proof. induction l as [|x l IH]; cbn; [done|]. unfold bucket in *. by rewrite filter_app, IH. Qed.

Lemma values_bucket k r kvs :
  values k (bucket r kvs) = if decide (ihash k mod nReduce = r) then values k kvs else [].
Proof.
  induction kvs as [|kv kvs IH]; [by destruct (decide _)|].
  unfold values, bucket in *. rewrite !filter_cons.
  destruct (decide (ihash k mod nReduce = r)) as [Hk|Hk];
    destruct (decide (Key kv = k)) as [<-|];
    destruct (decide (ihash (Key kv) mod nReduce = r)); try done;
    rewrite ?filter_cons, ?decide_True, ?decide_False by done; cbn; by rewrite IH.
Qed.

Lemma task_kvs_all i kv : kv ∈ task_kvs i → kv ∈ all_kvs.
Proof.
  unfold task_kvs. destruct (go_at files i) as [f|] eqn:Hf; [|by intros []%not_elem_of_nil].
  apply go_at_Some in Hf as [_ Hf]. intros Hkv. unfold all_kvs. rewrite list_elem_of_In. apply in_concat.
  exists (map_output f). rewrite <- !list_elem_of_In. split; [|done].
  apply list_elem_of_fmap. exists f. split; [done|by eapply list_elem_of_lookup_2].
Qed.

(** *** Map tasks *)

Definition map_done (fs : FS) (i : Z) : Prop :=
  ∀ r, fs !! reduceName j i r = Json <$> entry (bucket r (task_kvs i)).
(** A map task that was not run, or was cut off. *)
Definition map_clean (fs : FS) (i : Z) : Prop :=
  ∀ r, bucket r (task_kvs i) = [] → fs !! reduceName j i r = None.
Definition map_touches (fs fs' : FS) (i : Z) : Prop :=
  ∀ name, (∀ r, name ≠ reduceName j i r) → fs' !! name = fs !! name.
Definition inputs_kept (fs : FS) : Prop := ∀ f, f ∈ files → fs !! f = fs0 !! f.

Definition written (m : Z) (opened : gset string) (kvs : list KeyValue) (fs fs' : FS) : Prop :=
  (∀ name, (∀ r, name = reduceName j m r → bucket r kvs = []) → fs' !! name = fs !! name) ∧
  ∀ r, bucket r kvs ≠ [] → fs' !! reduceName j m r =
    Some (Json ((if decide (reduceName j m r ∈ opened) then json_of fs (reduceName j m r) else [])
                ++ map json_kv (bucket r kvs))).

Lemma written_cons m opened kv kvs fs fs' :
  let nm := reduceName j m (ihash (Key kv) mod nReduce) in
  let base := if decide (nm ∈ opened) then json_of fs nm else [] in
  0 ≤ m →
  written m ({[nm]} ∪ opened) kvs (<[nm := Json (base ++ [json_kv kv])]> fs) fs' →
  written m opened (kv :: kvs) fs fs'.
Proof.
  intros nm base Hm [Hother Hown]. subst nm.
  assert (Hb : ∀ r, bucket r (kv :: kvs) =
    if decide (ihash (Key kv) mod nReduce = r) then kv :: bucket r kvs else bucket r kvs)
    by (intros r; unfold bucket; by rewrite filter_cons).
  split.
  - intros name Hn. rewrite Hother.
    + apply lookup_insert_ne. intros <-. specialize (Hn _ eq_refl).
      rewrite Hb, decide_True in Hn; done.
    + intros r Hr. specialize (Hn r Hr). rewrite Hb in Hn. by case_decide.
  - intros r Hr. rewrite Hb in *. case_decide as Hrk.
    + subst r. destruct (bucket _ kvs) eqn:Hbk.
      * rewrite Hother; [by rewrite lookup_insert_eq|]. by intros r [_ <-]%reduceName_inj.
      * rewrite Hown by (by rewrite Hbk).
        rewrite decide_True by set_solver. unfold json_of at 1. rewrite lookup_insert_eq; cbn.
        rewrite Hbk. cbn [map]. by rewrite <- app_assoc.
    + assert (Hne : reduceName j m r ≠ reduceName j m (ihash (Key kv) mod nReduce)).
      { by intros [_ ?]%reduceName_inj. }
      rewrite Hown by done. unfold json_of. rewrite lookup_insert_ne by done.
      do 3 f_equal. apply decide_ext. rewrite elem_of_union, elem_of_singleton.
      split; [by intros [?|?]|by right].
Qed.

Lemma doMap_write_spec E m kvs : 0 ≤ m → ∀ opened fs,
  wp E (doMap_write j m nReduce opened kvs) (λ _, written m opened kvs fs) fs.
Proof.
  intros Hm. induction kvs as [|kv kvs IH]; intros opened fs; cbn [doMap_write].
  { wp_steps. by split. }
  destruct (job_nReduce Hjob). rewrite (Z.mod_small nReduce) by lia.
  destruct (Z.eqb_spec nReduce 0); [lia|].
  set (nm := reduceName j m _).
  assert (Hins : ∀ fs1, fs1 = <[nm := Json ((if decide (nm ∈ opened) then json_of fs nm else []) ++ [json_kv kv])]> fs →
    wp E (doMap_write j m nReduce ({[nm]} ∪ opened) kvs) (λ _, written m opened (kv :: kvs) fs) fs1).
  { intros fs1 ->. eapply wp_mono; [apply IH|]. intros ? fs'. by apply written_cons. }
  unfold encode, create_file. apply wp_bind. case_bool_decide as Ho; cbn [negb]; wp_steps; apply Hins.
  - by rewrite decide_True.
  - rewrite decide_False by done. unfold json_of. by rewrite lookup_insert_eq, insert_insert_eq.
Qed.

Lemma written_touches m kvs fs fs' : written m ∅ kvs fs fs' → map_touches fs fs' m.
Proof. intros [Hother _] name Hn. apply Hother. intros r ->. by destruct (Hn r). Qed.

Lemma open_input E i why f fs (Q : fdata → FS → Prop) :
  inputs_kept fs → go_at files i = Some f →
  (∀ d, mapF f (contents json_text d) = task_kvs i → Q d fs) → wp E (open_file why f) Q fs.
Proof.
  intros Hin Hf HQ. unfold open_file. wp_steps.
  assert (Hel : f ∈ files).
  { unfold go_at in Hf. case_match; [done|]. by eapply list_elem_of_lookup_2. }
  destruct (job_files Hjob f Hel) as [[d Hd] _].
  eapply wp_must; [by rewrite Hin|]. apply HQ. unfold task_kvs, map_output. by rewrite Hf, Hd.
Qed.

(** A map task puts every pair into the file of its reduce task, and starts afresh. *)
Lemma doMap_spec E i f fs :
  0 ≤ i → inputs_kept fs → go_at files i = Some f → map_clean fs i →
  wp E (doMap json_text j i f nReduce mapF) (λ _ fs', map_done fs' i ∧ map_touches fs fs' i) fs.
Proof.
  intros Hi Hin Hf Hcl. unfold doMap. apply wp_bind. apply (open_input E i); [done..|].
  intros d Hd. rewrite Hd. eapply wp_mono; [by apply doMap_write_spec|].
  intros ? fs' Hw. split; [|eapply written_touches, Hw]. destruct Hw as [Hother Hown]. intros r.
  destruct (bucket r (task_kvs i)) eqn:Hb; cbn.
  - rewrite Hother; [by apply Hcl|]. by intros r' [_ <-]%reduceName_inj.
  - rewrite Hown by (by rewrite Hb). rewrite decide_False by set_solver. rewrite json_kvs_valid; [by rewrite Hb|].
    intros kv Hkv%list_elem_of_filter. apply (safe_map Hsafe), (task_kvs_all i), Hkv.
Qed.

(** A map task that is cut off leaves nothing its next run would not overwrite. *)
Lemma cut_map_spec E i f k fs :
  0 ≤ i → inputs_kept fs → go_at files i = Some f → map_clean fs i →
  wp E (cut_task json_text range_order mapF reduceF (mkDoTaskArgs j f mapPhase i nReduce) k)
    (λ _ fs', map_clean fs' i ∧ map_touches fs fs' i) fs.
Proof.
  intros Hi Hin Hf Hcl. unfold cut_task; cbn. apply wp_bind. apply (open_input E i); [done..|].
  intros d Hd. rewrite Hd. eapply wp_mono; [by apply doMap_write_spec|].
  intros ? fs' Hw. split; [|eapply written_touches, Hw]. destruct Hw as [Hother _].
  intros r Hb. rewrite Hother; [by apply Hcl|]. intros r' Hr'.
  apply reduceName_inj in Hr' as [_ <-]; [|done..].
  assert (Hsub : bucket r (take k (task_kvs i)) ⊆ bucket r (task_kvs i)).
  { intros x. unfold bucket. rewrite !list_elem_of_filter. intros [Hx Hk].
    split; [done|]. apply elem_of_take in Hk as (n & Hn & _). by eapply list_elem_of_lookup_2. }
  rewrite Hb in Hsub. destruct (bucket r (take k _)) as [|x l]; [done|].
  destruct (not_elem_of_nil x). apply Hsub. by left.
Qed.

Lemma map_touches_done fs fs' i i' :
  0 ≤ i → 0 ≤ i' → i ≠ i' → map_touches fs fs' i → map_done fs i' → map_done fs' i'.
Proof. intros ??? Ht Hd r. rewrite Ht; [done|]. by intros r' [? _]%reduceName_inj. Qed.
Lemma map_touches_clean fs fs' i i' :
  0 ≤ i → 0 ≤ i' → i ≠ i' → map_touches fs fs' i → map_clean fs i' → map_clean fs' i'.
Proof. intros ??? Ht Hd r ?. rewrite Ht; [by apply Hd|]. by intros r' [? _]%reduceName_inj. Qed.
Lemma map_touches_inputs fs fs' i : 0 ≤ i → map_touches fs fs' i → inputs_kept fs → inputs_kept fs'.
Proof.
  intros ? Ht Hin f Hf. rewrite Ht; [by apply Hin|]. intros r ->.
  apply (job_files Hjob) in Hf as [_ []]. left. by eexists _, _.
Qed.

(** *** Reduce tasks *)

Definition outs (kvs : list KeyValue) : list KeyValue :=
  map (λ '(k, vs), mkKeyValue k (reduceF k vs)) (map_to_list (group kvs ∅)).
Definition reduce_done (fs : FS) (r : Z) : Prop :=
  ∃ l, fs !! mergeName j r = Some (Json l) ∧ l ≡ₚ outs (bucket r all_kvs).
Definition maps_done (fs : FS) : Prop := ∀ i, 0 ≤ i < go_len files → map_done fs i.

Lemma all_kvs_tasks : all_kvs = concat (map task_kvs (seqZ 0 (go_len files))).
Proof.
  unfold all_kvs. f_equal. apply list_eq. intros i. rewrite !list_lookup_fmap.
  destruct (decide (i < length files)%nat) as [Hi|Hi].
  - rewrite lookup_seqZ_lt by (unfold go_len; lia). cbn. unfold task_kvs, go_at.
    destruct (Z.ltb_spec (0 + Z.of_nat i) 0); [lia|].
    replace (Z.to_nat (0 + Z.of_nat i)) with i by lia.
    by destruct (lookup_lt_is_Some_2 files i Hi) as [f ->].
  - rewrite lookup_seqZ_ge by (unfold go_len; lia). by rewrite lookup_ge_None_2 by lia.
Qed.

Lemma reduce_input fs r :
  maps_done fs → concat (map (λ i, json_of fs (reduceName j i r)) (seqZ 0 (go_len files))) = bucket r all_kvs.
Proof.
  intros Hd. rewrite all_kvs_tasks, bucket_concat, map_map. f_equal.
  apply map_ext_in. intros i Hi%list_elem_of_In%elem_of_seqZ. unfold json_of.
  rewrite (Hd i) by lia. by destruct (bucket r _).
Qed.

(** The loop of [doReduce] appends its pairs to the file it created. *)
Lemma encode_loop E name (l : list (string * list string)) : ∀ fs kvs,
  fs !! name = Some (Json kvs) →
  wp E (for_range l (λ '(key, vs), encode name (mkKeyValue key (reduceF key vs))))
    (λ _ fs', fs' !! name = Some (Json (kvs ++ map (λ '(k, vs), json_kv (mkKeyValue k (reduceF k vs))) l)) ∧
              ∀ name', name' ≠ name → fs' !! name' = fs !! name') fs.
Proof.
  induction l as [|[k vs] l IH]; intros fs kvs Hfs; cbn.
  { wp_steps. by rewrite app_nil_r. }
  unfold encode at 1. wp_steps. unfold json_of. rewrite Hfs; cbn.
  eapply wp_mono; [apply IH; by rewrite lookup_insert_eq|]. intros ? fs' [Hl Ho]. split.
  - by rewrite Hl, <- app_assoc.
  - intros name' Hn. rewrite Ho by done. by rewrite lookup_insert_ne.
Qed.

(** What reduce task [r] writes is valid UTF-8. *)
Lemma results_valid r k vs : group (bucket r all_kvs) ∅ !! k = Some vs → valid_kv (mkKeyValue k (reduceF k vs)).
Proof.
  rewrite group_empty, values_bucket. case_decide; [|done]. unfold entry.
  destruct (values k all_kvs) as [|v l] eqn:Hv; [done|]. intros [= <-]. split; cbn.
  - assert (v ∈ values k all_kvs) as Hin by (rewrite Hv; left). unfold values in Hin.
    apply list_elem_of_fmap in Hin as (kv & _ & [<- Hkv]%list_elem_of_filter). by apply (safe_map Hsafe).
  - rewrite <- Hv. apply (safe_reduce Hsafe). by rewrite Hv.
Qed.

Lemma doReduce_spec E ord r fs :
  wp E (doReduce ord j r (go_len files) reduceF)
    (λ _ fs', (maps_done fs → (∀ g, ord g ≡ₚ map_to_list g) → reduce_done fs' r) ∧
              ∀ name, name ≠ mergeName j r → fs' !! name = fs !! name) fs.
Proof.
  unfold doReduce, create_file. wp_steps.
  eapply wp_mono; [apply encode_loop; by rewrite lookup_insert_eq|]. intros ? fs' [Hl Ho]. split.
  - intros Hd Hord. eexists; split; [exact Hl|]. cbn.
    rewrite doReduce_read_group, reduce_input by done. unfold outs. rewrite Hord.
    erewrite map_ext_in; [done|]. intros [k vs] Hin%list_elem_of_In%elem_of_map_to_list.
    apply json_kv_valid, (results_valid r k vs Hin).
  - intros name Hn. rewrite Ho by done. by rewrite lookup_insert_ne.
Qed.

(** *** The merge *)

Definition pairs (l : list KeyValue) : list (string * string) := map (λ kv, (Key kv, Value kv)) l.

Lemma fold_insert l : ∀ (m : gmap string string),
  fold_left (λ m kv, <[Key kv := Value kv]> m) l m = list_to_map (reverse (pairs l)) ∪ m.
Proof.
  induction l as [|kv l IH] using rev_ind; intros m; [by cbn; rewrite (left_id_L ∅ (∪))|].
  rewrite fold_left_app; cbn. unfold pairs in *. rewrite map_app, reverse_app; cbn.
  by rewrite IH, insert_union_l.
Qed.

Lemma outs_pairs kvs :
  pairs (outs kvs) = map (λ '(k, vs), (k, reduceF k vs)) (map_to_list (group kvs ∅)).
Proof. unfold pairs, outs. rewrite map_map. apply map_ext. by intros []. Qed.

Lemma map_fst_keys (l : list (string * list string)) :
  (map (λ '(k, vs), (k, reduceF k vs)) l).*1 = l.*1.
Proof. induction l as [|[k vs] l IH]; cbn; [done|]. by f_equal. Qed.

(** The map of an output file in which every key occurs once. *)
Lemma outs_lookup l kvs k v :
  l ≡ₚ outs kvs →
  list_to_map (M := gmap string string) (reverse (pairs l)) !! k = Some v ↔
  entry (values k kvs) = Some (values k kvs) ∧ v = reduceF k (values k kvs).
Proof.
  intros Hl. assert (Hp : reverse (pairs l) ≡ₚ pairs (outs kvs)).
  { rewrite reverse_Permutation. unfold pairs. by rewrite Hl. }
  rewrite outs_pairs in Hp.
  rewrite <- elem_of_list_to_map.
  - rewrite Hp, list_elem_of_fmap. split.
    + intros ([k' vs] & [= -> ->] & Hk%elem_of_map_to_list). rewrite group_empty in Hk.
      destruct (values k' kvs); [done|]. by injection Hk as <-.
    + intros [Hk ->]. exists (k, values k kvs). split; [done|].
      by rewrite elem_of_map_to_list, group_empty.
  - rewrite Hp, map_fst_keys. apply NoDup_fst_map_to_list.
Qed.

Lemma reference_lookup k :
  reference !! k = (λ vs, reduceF k vs) <$> entry (values k all_kvs).
Proof. unfold reference. rewrite map_lookup_imap, group_empty. by destruct (entry _). Qed.

(** The part of the reference result the reduce tasks [D] are responsible for. *)
Definition merged (m : gmap string string) (D : list Z) : Prop :=
  ∀ k, m !! k = if decide (ihash k mod nReduce ∈ D) then reference !! k else None.

Lemma merged_step m D r l :
  r ∉ D → merged m D → l ≡ₚ outs (bucket r all_kvs) →
  merged (fold_left (λ m kv, <[Key kv := Value kv]> m) l m) (D ++ [r]).
Proof.
  intros Hr Hm Hl k. rewrite fold_insert. apply option_eq. intros v.
  rewrite lookup_union_Some_raw, (outs_lookup l (bucket r all_kvs)) by done.
  rewrite eq_None_not_Some, (Hm k), reference_lookup, values_bucket.
  destruct (decide (ihash k mod nReduce = r)) as [<-|Hk].
  - rewrite decide_False by done. rewrite decide_True by set_solver.
    destruct (values k all_kvs); cbn; naive_solver.
  - assert (Hiff : ihash k mod nReduce ∈ D ++ [r] ↔ ihash k mod nReduce ∈ D).
    { rewrite elem_of_app, list_elem_of_singleton. tauto. }
    assert (Hno : ¬ is_Some (list_to_map (M := gmap string string) (reverse (pairs l)) !! k)).
    { intros [v' Hv]. apply (outs_lookup l (bucket r all_kvs)) in Hv as [Hv _]; [|done].
      by rewrite values_bucket, decide_False in Hv. }
    case_decide; case_decide; naive_solver.
Qed.

Lemma merge_read_spec E ts fs : ∀ D m,
  merged m D → NoDup (D ++ ts) → (∀ r, r ∈ ts → reduce_done fs r) →
  wp E (merge_read j ts m) (λ m' fs', merged m' (D ++ ts) ∧ fs' = fs) fs.
Proof.
  induction ts as [|r ts IH]; intros D m Hm Hnd Hd; cbn.
  { wp_steps. by rewrite app_nil_r. }
  destruct (Hd r) as (l & Hf & Hl); [left|]. unfold open_file.
  wp_steps. eapply wp_must; [done|]. cbn [decode_all].
  rewrite (cons_middle r D ts), app_assoc in *. apply IH.
  - apply merged_step; [|done..]. apply NoDup_app in Hnd as [[_ Hnd]%NoDup_app _]. set_solver.
  - done.
  - intros r' ?. apply Hd. by right.
Qed.

Lemma merge_spec E fs :
  (∀ r, 0 ≤ r < nReduce → reduce_done fs r) →
  wp E (merge j nReduce) (λ _ fs', fs' = <[resultName j := Text (merge_text reference)]> fs) fs.
Proof.
  intros Hd. unfold merge, write_text. apply wp_bind.
  eapply wp_mono; [apply (merge_read_spec E _ fs [] ∅)|].
  - intros k. by rewrite lookup_empty.
  - apply NoDup_seqZ.
  - intros r ?%elem_of_seqZ. apply Hd. lia.
  - intros m ? [Hm ->]. wp_steps. do 3 f_equal. apply map_eq. intros k. rewrite (Hm k).
    destruct (job_nReduce Hjob). apply decide_True. apply elem_of_seqZ.
    pose proof (Z.mod_pos_bound (ihash k) nReduce). lia.
Qed.

(** *** [Sequential] *)

Lemma initial_clean i : 0 ≤ i → map_clean fs0 i.
Proof. intros Hi r _. by apply (job_fresh Hjob). Qed.

Definition seq_inv (rest : list (Z * string)) (fs : FS) : Prop :=
  ∃ n, rest = drop n (zip (seqZ 0 (go_len files)) files) ∧ inputs_kept fs ∧
    (∀ i, 0 ≤ i < Z.of_nat n → map_done fs i) ∧ (∀ i, Z.of_nat n ≤ i → map_clean fs i).

Lemma seq_tasks n i f rest :
  (i, f) :: rest = drop n (zip (seqZ 0 (go_len files)) files) →
  i = Z.of_nat n ∧ go_at files i = Some f ∧ rest = drop (S n) (zip (seqZ 0 (go_len files)) files).
Proof.
  intros Hd. assert (Hz : zip (seqZ 0 (go_len files)) files !! n = Some (i, f)).
  { by rewrite <- (Nat.add_0_r n), <- lookup_drop, <- Hd. }
  apply lookup_zip_Some in Hz as [Hi Hf].
  apply lookup_seqZ in Hi as [-> Hi]. rewrite Z.add_0_l. split; [done|]. split.
  - unfold go_at. destruct (Z.ltb_spec (Z.of_nat n) 0); [lia|]. by rewrite Nat2Z.id.
  - rewrite <- Nat.add_1_r, <- drop_drop, <- Hd. done.
Qed.

Lemma seq_map_spec E :
  wp E (seq_map json_text j files nReduce mapF) (λ _ fs, inputs_kept fs ∧ maps_done fs) fs0.
Proof.
  unfold seq_map. eapply wp_mono; [apply (wp_for_range E _ seq_inv)|].
  - exists 0%nat. split; [done|]. split; [done|]. split; [lia|]. intros i ?. by apply initial_clean.
  - intros [i f] rest fs (n & Hrest & Hin & Hdone & Hclean).
    apply seq_tasks in Hrest as (-> & Hf & ->).
    eapply wp_mono; [apply doMap_spec; [lia|done..|]; apply Hclean; lia|].
    intros ? fs' [Hd Ht]. exists (S n). split; [done|].
    split; [by eapply map_touches_inputs; [|done..]; lia|]. split.
    + intros i Hi. destruct (decide (i = Z.of_nat n)) as [->|]; [done|].
      eapply map_touches_done; [..|exact Ht|apply Hdone]; lia.
    + intros i Hi. eapply map_touches_clean; [..|exact Ht|apply Hclean]; lia.
  - intros ? fs (n & Hrest & Hin & Hdone & _). split; [done|]. intros i Hi. apply Hdone.
    symmetry in Hrest. apply (f_equal length) in Hrest.
    rewrite length_drop, length_zip_with, length_seqZ in Hrest. cbn in Hrest. unfold go_len in *. lia.
Qed.

Lemma other_maps_done fs fs' r :
  (∀ name, name ≠ mergeName j r → fs' !! name = fs !! name) → maps_done fs → maps_done fs'.
Proof. intros Ho Hd i Hi r'. rewrite Ho; [by apply Hd|]. apply reduce_merge_names. lia. Qed.
Lemma other_reduce_done fs fs' r r' :
  (∀ name, name ≠ mergeName j r → fs' !! name = fs !! name) → r ≠ r' →
  reduce_done fs r' → reduce_done fs' r'.
Proof. intros Ho Hne (l & Hl & Hp). exists l. split; [|done]. rewrite Ho; [done|]. by intros ?%mergeName_inj. Qed.

Lemma seq_reduce_spec E fs :
  maps_done fs →
  wp E (seq_reduce range_order j (go_len files) nReduce reduceF)
    (λ _ fs', maps_done fs' ∧ ∀ r, 0 ≤ r < nReduce → reduce_done fs' r) fs.
Proof.
  intros Hmaps. unfold seq_reduce.
  eapply wp_mono; [apply (wp_for_range E _ (λ rest fs, maps_done fs ∧ NoDup rest ∧
    ∀ r, 0 ≤ r < nReduce → r ∈ rest ∨ reduce_done fs r))|].
  - split; [done|]. split; [apply NoDup_seqZ|]. intros r ?. left. apply elem_of_seqZ. lia.
  - intros r rest fs1 (Hm & [Hr Hnd]%NoDup_cons & Hd).
    eapply wp_mono; [apply doReduce_spec|]. intros ? fs' [Hdone Ho].
    split; [by eapply other_maps_done|]. split; [done|]. intros r' Hr'.
    destruct (decide (r = r')) as [<-|Hne]; [right; apply Hdone, (job_range Hjob); done|].
    destruct (Hd r' Hr') as [[->|?]%elem_of_cons|?]; [done|by left|].
    right. by eapply other_reduce_done.
  - intros ? fs' (Hm & _ & Hd). split; [done|]. intros r Hr. by destruct (Hd r Hr) as [?%not_elem_of_nil|].
Qed.

(** What a completed job leaves behind. *)
Definition job_result (fs : FS) : Prop :=
  maps_done fs ∧ (∀ r, 0 ≤ r < nReduce → reduce_done fs r) ∧
  fs !! resultName j = Some (Text (merge_text reference)).

Lemma merge_result E fs :
  maps_done fs → (∀ r, 0 ≤ r < nReduce → reduce_done fs r) → wp E (merge j nReduce) (λ _, job_result) fs.
Proof.
  intros Hm Hd. eapply wp_mono; [by apply merge_spec|]. intros ? fs' ->. split; [|split].
  - intros i Hi r. rewrite lookup_insert_ne; [by apply Hm|]. apply result_reduce_names.
  - intros r Hr. destruct (Hd r Hr) as (l & Hl & Hp). exists l. split; [|done].
    rewrite lookup_insert_ne; [done|]. apply result_merge_names.
  - by rewrite lookup_insert_eq.
Qed.

(** The master of the finished job. *)
Definition done_master : Master :=
  send_done (set_stats [go_len files + nReduce] (set_job j files nReduce (newMaster "master"))).

Lemma Sequential_spec E :
  wp E (Sequential json_text range_order j files nReduce mapF reduceF)
    (λ mr fs, mr = done_master ∧ job_result fs) fs0.
Proof.
  unfold Sequential. apply wp_world. unfold run, seq_schedule, on_master. do 3 wp_step.
  cbn [set_job jobName_ files_ nReduce_ fst]. apply wp_bind, wp_on_files.
  eapply wp_mono; [apply seq_map_spec|]. intros ? fs [_ Hm]. do 2 wp_step.
  apply wp_on_files. eapply wp_mono; [by apply seq_reduce_spec|]. intros ? fs' [Hm' Hd].
  do 5 wp_step. apply wp_on_files. eapply wp_mono; [by apply merge_result|].
  intros ? fs'' Hres. wp_steps. done.
Qed.

(** *** The distributed schedule *)

Abbreviation dist_exec := (sched_exec json_text range_order mapF reduceF j files nReduce).
Abbreviation dist_step := (sched_step json_text range_order mapF reduceF j files nReduce).

(** The goroutines between their [Add] and their [Done]. *)
Definition weight (g : gstate) : Z :=
  match g with GWaiting | GCalling _ => 1 | GSpawned | GDone => 0 end.
Fixpoint total (l : list gstate) : Z := match l with [] => 0 | g :: l' => weight g + total l' end.

Lemma total_app l1 l2 : total (l1 ++ l2) = total l1 + total l2.
Proof. induction l1 as [|g l1 IH]; cbn; lia. Qed.
Lemma total_insert l : ∀ i g g', l !! i = Some g → total (<[i := g']> l) = total l - weight g + weight g'.
Proof.
  induction l as [|x l IH]; intros [|i] g g' Hi; [done..| |].
  - injection Hi as ->. cbn. lia.
  - change (<[S i := g']> (x :: l)) with (x :: <[i := g']> l). cbn [total].
    rewrite (IH i g g') by done. lia.
Qed.

(** The counter is the number of these goroutines, and there are at most [ntasks]. *)
Definition wg_inv (s : Sched) : Prop := wg s = total (tasks s).

Ltac sched_cases H :=
  unfold sched_exec in H; repeat case_match; simplify_eq; cbn in *.

Lemma wg_step ph s s' : dist_step ph s s' → wg_inv s → wg_inv s'.
Proof.
  unfold wg_inv. intros [a Ha] Hwg. destruct a; sched_cases Ha; rewrite ?total_app; cbn; try lia;
    erewrite total_insert by done; cbn; lia.
Qed.

Lemma idle_goroutines l g : total l = 0 → GSpawned ∉ l → g ∈ l → g = GDone.
Proof.
  assert (Hpos : ∀ l, 0 ≤ total l) by (induction l0 as [|[] ? ?]; cbn; lia).
  induction l as [|x l IH]; intros Ht Hs Hg; [by apply not_elem_of_nil in Hg|].
  apply not_elem_of_cons in Hs as [Hx Hs]. pose proof (Hpos l). cbn in Ht.
  apply elem_of_cons in Hg as [->|Hg]; [destruct x; cbn in *; done || lia|].
  apply IH; [|done..]. destruct x; cbn in *; lia.
Qed.

(** Where [Wait] returns after every goroutine has run its [Add], every task is done. *)
Lemma complete ph workers fs s s' :
  rtc (dist_step ph) (sched_start workers fs) s → GSpawned ∉ tasks s →
  dist_exec ph SReturn s = Some (Ok s') →
  files_of s' = files_of s ∧
  ∀ i, 0 ≤ i < ntasks files nReduce ph → tasks s !! Z.to_nat i = Some GDone.
Proof.
  intros Hrun Hs Hret. cbn in Hret. case_match; simplify_eq. boolify. split; [done|].
  intros i Hi. assert (Hwg : wg_inv s) by (apply (rtc_keeps _ wg_inv (wg_step ph) _ _ Hrun); done).
  destruct (lookup_lt_is_Some_2 (tasks s) (Z.to_nat i)) as [g Hg]; [unfold go_len in *; lia|].
  rewrite Hg. f_equal. eapply idle_goroutines; [|exact Hs|by eapply list_elem_of_lookup_2].
  unfold wg_inv in Hwg. lia.
Qed.

(** Actions other than the end of a task leave the set of finished tasks alone. *)
Definition is_done (s : Sched) (i : nat) : Prop := tasks s !! i = Some GDone.

Lemma done_insert (l : list gstate) i g g' k :
  l !! i = Some g → g ≠ GDone → g' ≠ GDone → <[i := g']> l !! k = Some GDone ↔ l !! k = Some GDone.
Proof.
  intros Hi Hg Hg'. rewrite list_lookup_insert_Some. split; [naive_solver|].
  intros Hk. right. split; [intros ->; congruence|done].
Qed.

Lemma done_spawn (l : list gstate) k : (l ++ [GSpawned]) !! k = Some GDone ↔ l !! k = Some GDone.
Proof.
  rewrite lookup_app_Some. split; [|tauto].
  intros [?|[_ Hk]]; [done|]. by apply list_lookup_singleton_Some in Hk as [_ ?].
Qed.

(** A step of the schedule finishes a task, cuts one off, or runs no task. *)
Lemma sched_step_cases ph s s' :
  dist_step ph s s' →
  (∃ i arg, task_args j files nReduce ph (Z.of_nat i) = Ok arg ∧ ¬ is_done s i ∧
     DoTask json_text range_order mapF reduceF arg (files_of s) = Ok (tt, files_of s') ∧
     ∀ k, is_done s' k ↔ k = i ∨ is_done s k) ∨
  ((∀ k, is_done s' k ↔ is_done s k) ∧
   (files_of s' = files_of s ∨
    ∃ i arg n, task_args j files nReduce ph (Z.of_nat i) = Ok arg ∧ ¬ is_done s i ∧
      cut_task json_text range_order mapF reduceF arg n (files_of s) = Ok (tt, files_of s'))).
Proof.
  unfold is_done. intros [a Ha]. destruct a as [|i|i n|i|i k|w|]; sched_cases Ha;
    try (right; split; [intros; first [done | apply done_spawn | by eapply done_insert]|by left]; fail).
  - left. exists i, a. split; [done|]. split; [congruence|]. split; [by destruct u|].
    intros k. rewrite list_lookup_insert_Some. split; [naive_solver|].
    assert (i < length (tasks s))%nat by (by eapply lookup_lt_Some).
    intros [->|Hk]; [by left|]. destruct (decide (i = k)); [subst; by left|by right].
  - right. split; [intros; by eapply done_insert|]. right.
    eexists i, _, _. split; [done|]. split; [congruence|]. destruct u. done.
Qed.

Lemma task_args_Ok ph i arg :
  task_args j files nReduce ph i = Ok arg →
  ∃ f, go_at files i = Some f ∧ arg = mkDoTaskArgs j f ph i (phase_sizes ph files nReduce).2.
Proof. unfold task_args. case_match; [|done]. intros [= <-]. eauto. Qed.

Definition map_inv (s : Sched) : Prop :=
  inputs_kept (files_of s) ∧
  ∀ i, (is_done s i → map_done (files_of s) (Z.of_nat i)) ∧
       (¬ is_done s i → map_clean (files_of s) (Z.of_nat i)).

(** A step that touches the files of one task, and leaves these as they should be. *)
Lemma map_inv_touches s s' i :
  map_inv s → map_touches (files_of s) (files_of s') (Z.of_nat i) →
  (∀ k, k ≠ i → is_done s' k ↔ is_done s k) →
  ((is_done s' i ∧ map_done (files_of s') (Z.of_nat i)) ∨
   (¬ is_done s' i ∧ map_clean (files_of s') (Z.of_nat i))) → map_inv s'.
Proof.
  intros [Hin Hinv] Ht Hdone Hi. split; [by eapply map_touches_inputs; [|exact Ht|]; [lia|]|].
  intros k. destruct (decide (k = i)) as [->|Hk]; [tauto|]. rewrite Hdone by done.
  destruct (Hinv k) as [Hd Hc].
  split; intros Hk'; [eapply (map_touches_done (files_of s))|eapply (map_touches_clean (files_of s))];
    try exact Ht; auto; lia.
Qed.

Lemma map_phase_step s s' : dist_step mapPhase s s' → map_inv s → map_inv s'.
Proof.
  intros Hstep Hs. pose proof Hs as [Hin Hinv]. apply sched_step_cases in Hstep
    as [(i & arg & Harg & Hi & Hrun & Hdone)|[Hdone [Hfs|(i & arg & n & Harg & Hi & Hrun)]]].
  - apply task_args_Ok in Harg as (f & Hf & ->).
    destruct (wp_ok (λ _, False) _ _ _ _ _ (doMap_spec _ (Z.of_nat i) f (files_of s)
      ltac:(lia) Hin Hf (proj2 (Hinv i) Hi)) Hrun) as [Hd Ht].
    eapply map_inv_touches; [done|exact Ht| |].
    + intros k Hk. rewrite Hdone. tauto.
    + left. split; [apply Hdone; by left|done].
  - split; [by rewrite Hfs|]. intros k. by rewrite Hdone, Hfs.
  - apply task_args_Ok in Harg as (f & Hf & ->).
    destruct (wp_ok (λ _, False) _ _ _ _ _ (cut_map_spec _ (Z.of_nat i) f n (files_of s)
      ltac:(lia) Hin Hf (proj2 (Hinv i) Hi)) Hrun) as [Hc Ht].
    eapply map_inv_touches; [done|exact Ht|by intros k _|]. right. by rewrite Hdone.
Qed.

Definition reduce_inv (s : Sched) : Prop :=
  maps_done (files_of s) ∧ ∀ i, is_done s i → reduce_done (files_of s) (Z.of_nat i).

Lemma reduce_inv_touches s s' i :
  reduce_inv s →
  (∀ name, name ≠ mergeName j (Z.of_nat i) → files_of s' !! name = files_of s !! name) →
  (∀ k, is_done s' k → (k = i ∧ reduce_done (files_of s') (Z.of_nat i)) ∨ (k ≠ i ∧ is_done s k)) →
  reduce_inv s'.
Proof.
  intros [Hm Hinv] Ho Hdone. split; [by eapply other_maps_done|]. intros k Hk.
  apply Hdone in Hk as [[-> ?]|[Hne Hk]]; [done|].
  eapply other_reduce_done; [exact Ho|lia|auto].
Qed.

Lemma reduce_phase_step s s' : dist_step reducePhase s s' → reduce_inv s → reduce_inv s'.
Proof.
  intros Hstep Hs. pose proof Hs as [Hm Hinv]. apply sched_step_cases in Hstep
    as [(i & arg & Harg & Hi & Hrun & Hdone)|[Hdone [Hfs|(i & arg & n & Harg & Hi & Hrun)]]].
  - apply task_args_Ok in Harg as (f & Hf & ->).
    destruct (wp_ok (λ _, False) _ _ _ _ _ (doReduce_spec _ range_order (Z.of_nat i) (files_of s))
      Hrun) as [Hd Ho].
    eapply reduce_inv_touches; [done|exact Ho|]. intros k Hk. apply Hdone in Hk.
    destruct (decide (k = i)) as [->|]; [left|right; tauto].
    split; [done|]. by apply Hd, (job_range Hjob).
  - split; [by rewrite Hfs|]. intros k. rewrite Hdone, Hfs. apply Hinv.
  - apply task_args_Ok in Harg as (f & Hf & ->).
    destruct (wp_ok (λ _, False) _ _ _ _ _ (doReduce_spec _ (λ g, take n (range_order g))
      (Z.of_nat i) (files_of s)) Hrun) as [_ Ho].
    eapply reduce_inv_touches; [done|exact Ho|]. intros k Hk. right. rewrite Hdone in Hk.
    split; [by intros ->|done].
Qed.
End job.

Lemma wp_never {S A} (m : M S A) (Q : A → S → Prop) (s : S) :
  wp (λ _, False) m Q s → ∃ a s', m s = Ok (a, s') ∧ Q a s'.
Proof. unfold wp. destruct (m s) as [[a s']|]; [eauto|done]. Qed.

(** ** Cleaning up *)

Lemma for_range_app {S A} (l1 l2 : list A) (body : A → M S ()) (s : S) :
  for_range (l1 ++ l2) body s = (for_range l1 body ;; for_range l2 body) s.
Proof.
  revert s. induction l1 as [|x l1 IH]; intros s; cbn; [done|]. unfold bind in *.
  destruct (body x s) as [[[] s']|]; [|done]. apply IH.
Qed.

(** Removing distinct files succeeds exactly if all are there. *)
Lemma remove_all names : NoDup names → ∀ fs,
  match for_range names removeFile fs with
  | Ok (_, fs') => (∀ n, n ∈ names → is_Some (fs !! n)) ∧
                   ∀ n, fs' !! n = if decide (n ∈ names) then None else fs !! n
  | Panic _ => ∃ n, n ∈ names ∧ fs !! n = None
  end.
Proof.
  induction 1 as [|n names Hn Hnd IH]; intros fs; cbn.
  { split; [by intros n ?%not_elem_of_nil|]. intros n. by rewrite decide_False by apply not_elem_of_nil. }
  unfold bind, removeFile at 1; cbn. case_bool_decide as Hfs; cbn.
  2: { exists n. split; [left|]. by apply eq_None_not_Some. }
  specialize (IH (delete n fs)). destruct (for_range names removeFile _) as [[u fs']|].
  - destruct IH as [Hin Hout]. split.
    + intros n' [->|Hn']%elem_of_cons; [done|]. specialize (Hin n' Hn').
      destruct (decide (n = n')); [congruence|]. by rewrite lookup_delete_ne in Hin.
    + intros n'. rewrite Hout. destruct (decide (n = n')) as [<-|Hne].
      * rewrite decide_False by done. rewrite decide_True by (by left). by rewrite lookup_delete_eq.
      * rewrite lookup_delete_ne by done. repeat case_decide; set_solver.
  - destruct IH as (n' & Hn' & Hd). exists n'. split; [by right|].
    rewrite lookup_delete_ne in Hd; [done|]. congruence.
Qed.

Definition cleanup_names (j : string) (nMap nReduce : Z) : list string :=
  concat (map (λ i, map (reduceName j i) (seqZ 0 nReduce)) (seqZ 0 nMap)) ++
  map (mergeName j) (seqZ 0 nReduce) ++ [resultName j].

Lemma for_range_ext {S A} l (body body' : A → M S ()) (s : S) :
  (∀ x s, body x s = body' x s) → for_range l body s = for_range l body' s.
Proof.
  intros Hb. revert s. induction l as [|x l IH]; intros s; cbn; [done|]. unfold bind.
  rewrite Hb. destruct (body' x s) as [[u s']|]; [apply IH|done].
Qed.
Lemma for_range_map {S A B} (f : A → B) l (body : B → M S ()) (s : S) :
  for_range l (λ x, body (f x)) s = for_range (map f l) body s.
Proof.
  revert s. induction l as [|x l IH]; intros s; cbn; [done|]. unfold bind.
  destruct (body (f x) s) as [[u s']|]; [apply IH|done].
Qed.
Lemma for_range_concat {S A B} (f : A → list B) l (body : B → M S ()) (s : S) :
  for_range l (λ x, for_range (f x) body) s = for_range (concat (map f l)) body s.
Proof.
  revert s. induction l as [|x l IH]; intros s; cbn; [done|]. rewrite for_range_app. unfold bind.
  destruct (for_range (f x) body s) as [[u s']|]; [apply IH|done].
Qed.

Lemma CleanupFiles_names j files nReduce fs :
  CleanupFiles j files nReduce fs = for_range (cleanup_names j (go_len files) nReduce) removeFile fs.
Proof.
  unfold CleanupFiles, cleanup_names, go_range.
  rewrite for_range_app. unfold bind. rewrite <- for_range_concat.
  rewrite (for_range_ext _ _ (λ i, for_range (map (reduceName j i) (seqZ 0 nReduce)) removeFile))
    by (intros i s; apply (for_range_map (reduceName j i) _ removeFile)).
  destruct (for_range _ _ fs) as [[u s']|]; [|done].
  rewrite for_range_app. unfold bind. rewrite (for_range_map (mergeName j) _ removeFile).
  destruct (for_range _ _ s') as [[u' s'']|]; [|done]. cbn [for_range]. unfold bind.
  by destruct (removeFile _ s'') as [[[] ?]|].
Qed.

Lemma elem_of_cleanup j nMap nReduce name :
  name ∈ cleanup_names j nMap nReduce ↔
  (∃ i r, 0 ≤ i < nMap ∧ 0 ≤ r < nReduce ∧ name = reduceName j i r) ∨
  (∃ r, 0 ≤ r < nReduce ∧ name = mergeName j r) ∨ name = resultName j.
Proof.
  unfold cleanup_names. rewrite !elem_of_app, list_elem_of_singleton.
  rewrite list_elem_of_In, in_concat. split.
  - intros [(l & Hl & Hn)|[Hn|?]]; [|..|tauto].
    + apply in_map_iff in Hl as (i & <- & Hi). apply in_map_iff in Hn as (r & <- & Hr).
      apply list_elem_of_In, elem_of_seqZ in Hi, Hr. left. exists i, r. split; [lia|]. split; [lia|done].
    + apply list_elem_of_fmap in Hn as (r & -> & Hr%elem_of_seqZ). right; left. exists r. split; [lia|done].
  - intros [(i & r & Hi & Hr & ->)|[(r & Hr & ->)|?]]; [left|right; left|tauto].
    + eexists. split; apply in_map, list_elem_of_In, elem_of_seqZ; lia.
    + apply list_elem_of_fmap_2, elem_of_seqZ. lia.
Qed.

Lemma NoDup_reduce_names j nReduce l :
  NoDup l → (∀ i, i ∈ l → 0 ≤ i) → NoDup (concat (map (λ i, map (reduceName j i) (seqZ 0 nReduce)) l)).
Proof.
  induction 1 as [|i l Hi Hnd IH]; intros Hpos; cbn; [constructor|].
  assert (0 ≤ i) by (apply Hpos; left). apply NoDup_app. split; [|split].
  - apply NoDup_fmap_2_strong; [|apply NoDup_seqZ]. by intros r r' _ _ [_ ?]%reduceName_inj.
  - intros name Hn Hc. apply list_elem_of_fmap in Hn as (r & -> & _).
    apply list_elem_of_In, in_concat in Hc as (l' & Hl' & Hr).
    apply in_map_iff in Hl' as (i' & <- & Hi'%list_elem_of_In). apply in_map_iff in Hr as (r' & Heq & _).
    apply reduceName_inj in Heq as [-> _]; [done| |done]. apply Hpos. by right.
  - apply IH. intros i' ?. apply Hpos. by right.
Qed.

Lemma NoDup_cleanup j nMap nReduce : NoDup (cleanup_names j nMap nReduce).
Proof.
  unfold cleanup_names. apply NoDup_app. split; [|split].
  - apply NoDup_reduce_names; [apply NoDup_seqZ|]. intros i ?%elem_of_seqZ. lia.
  - intros name Hc Hn. apply list_elem_of_In, in_concat in Hc as (l' & Hl' & Hr).
    apply in_map_iff in Hl' as (i & <- & Hi%list_elem_of_In%elem_of_seqZ).
    apply in_map_iff in Hr as (r & <- & _).
    apply elem_of_app in Hn as [(r' & Heq & _)%list_elem_of_fmap|Heq%list_elem_of_singleton].
    + by apply reduce_merge_names in Heq; [|lia].
    + by eapply result_reduce_names.
  - apply NoDup_app. split; [|split; [|apply NoDup_singleton]].
    + apply NoDup_fmap_2_strong; [|apply NoDup_seqZ]. intros r r' _ _. apply mergeName_inj.
    + intros name (r & -> & _)%list_elem_of_fmap Heq%list_elem_of_singleton.
      by eapply result_merge_names.
Qed.

(** The loop of [schedule] can run before any of its goroutines. *)
Lemma spawn_all json_text range_order mapF reduceF j files nReduce phase acts ws fs k : ∀ l,
  go_len l + Z.of_nat k ≤ ntasks files nReduce phase →
  sched_run json_text range_order mapF reduceF j files nReduce phase
    (replicate k SSpawn ++ acts) (mkSched 0 l ws fs false) =
  sched_run json_text range_order mapF reduceF j files nReduce phase
    acts (mkSched 0 (l ++ replicate k GSpawned) ws fs false).
Proof.
  induction k as [|k IH]; intros l Hk; cbn [replicate app sched_run]; [by rewrite app_nil_r|].
  cbn [sched_exec returned tasks wg idle files_of]. destruct (Z.ltb_spec (go_len l) (ntasks files nReduce phase)); [|lia].
  rewrite IH by (unfold go_len in *; rewrite length_app; cbn; lia).
  by rewrite <- app_assoc.
Qed.

(** ** The theorems *)

(** C11: A sequential job terminates without a failure, signals once that it is done, and its
    result file lists, in key order, the value [reduceF] gives for every key any map call
    emitted, applied to all the values emitted for it in the order of the input files: neither
    the number of reduce tasks, the hash nor the order of a Go map matters.  This is a job with
    1 to 2^32 - 1 reduce tasks whose input files exist and are none of the files it writes, which
    finds no intermediate file of an earlier job of its name ([job_ok]; [doMap] creates no file
    for an empty bucket, so that such a file would be read), and whose keys, values and results
    are valid UTF-8 ([json_safe]; [encoding/json] changes other strings). *)
Theorem mapreduce_correct json_text range_order mapF reduceF j files nReduce fs0 :
  job_ok range_order j files nReduce fs0 → json_safe json_text mapF reduceF files fs0 →
  ∃ mr fs, Sequential json_text range_order j files nReduce mapF reduceF fs0 = Ok (mr, fs) ∧
    doneC mr = [true] ∧ stats mr = [go_len files + nReduce] ∧
    fs !! resultName j = Some (Text (merge_text (reference json_text mapF reduceF files fs0))).
Proof.
  intros Hjob Hsafe. destruct (wp_never _ _ _ (Sequential_spec json_text _ mapF reduceF _ _ _ _ Hjob Hsafe _))
    as (mr & fs & Hrun & -> & _ & _ & Hres). by exists (done_master j files nReduce), fs.
Qed.

(** C20: In the distributed schedule, where workers fail at any write and tasks are
    run again, a job whose two [Wait] calls return with every goroutine started produces
    exactly the result of the sequential one.  The job is as in [mapreduce_correct]: its input
    files exist, no intermediate file of an earlier job of its name is left, and its keys, values
    and results are valid UTF-8. *)
Theorem distributed_correct json_text range_order mapF reduceF j files nReduce fs0 ws s1 s1' ws' s2 s2' :
  job_ok range_order j files nReduce fs0 → json_safe json_text mapF reduceF files fs0 →
  rtc (sched_step json_text range_order mapF reduceF j files nReduce mapPhase) (sched_start ws fs0) s1 →
  GSpawned ∉ tasks s1 →
  sched_exec json_text range_order mapF reduceF j files nReduce mapPhase SReturn s1 = Some (Ok s1') →
  rtc (sched_step json_text range_order mapF reduceF j files nReduce reducePhase)
    (sched_start ws' (files_of s1')) s2 →
  GSpawned ∉ tasks s2 →
  sched_exec json_text range_order mapF reduceF j files nReduce reducePhase SReturn s2 = Some (Ok s2') →
  ∃ fs, merge j nReduce (files_of s2') = Ok (tt, fs) ∧
    fs !! resultName j = Some (Text (merge_text (reference json_text mapF reduceF files fs0))).
Proof.
  intros Hjob Hsafe Hrun1 Hs1 Hret1 Hrun2 Hs2 Hret2.
  eapply complete in Hret1 as [Hfs1 Hdone1]; [|done..].
  eapply complete in Hret2 as [Hfs2 Hdone2]; [|done..].
  assert (Hmap : map_inv json_text mapF j files nReduce fs0 s1).
  { eapply (rtc_keeps _ _ (map_phase_step json_text range_order mapF reduceF _ _ _ _ Hjob Hsafe) _ _ Hrun1).
    split; [done|]. intros i. split; [done|]. intros _. by eapply initial_clean; [|lia]. }
  assert (Hred : reduce_inv json_text mapF reduceF j files nReduce fs0 s2).
  { eapply (rtc_keeps _ _ (reduce_phase_step json_text range_order mapF reduceF _ _ _ _ Hjob Hsafe) _ _ Hrun2).
    split; [|done]. cbn. rewrite Hfs1. intros i Hi.
    destruct Hmap as [_ Hmap]. rewrite <- (Z2Nat.id i) by lia. apply Hmap, Hdone1. done. }
  destruct Hred as [Hm Hred]. rewrite Hfs2.
  destruct (wp_never _ _ _ (merge_result json_text range_order mapF reduceF _ _ _ _ Hjob Hsafe _ (files_of s2) Hm
    ltac:(intros r Hr; rewrite <- (Z2Nat.id r) by lia; apply Hred, Hdone2; done)))
    as ([] & fs & Hrun & _ & _ & Hres). eauto.
Qed.

(** [schedule] may return before any task ran: its goroutines call [wg.Add] themselves,
    and [Wait] does not wait for those that have not been scheduled yet. *)
Theorem schedule_returns_early json_text range_order mapF reduceF j files (nReduce : nat) phase ws fs :
  let n := Z.to_nat (ntasks files (Z.of_nat nReduce) phase) in
  sched_run json_text range_order mapF reduceF j files (Z.of_nat nReduce) phase
    (replicate n SSpawn ++ [SReturn]) (sched_start ws fs) =
  Some (Ok (mkSched 0 (replicate n GSpawned) ws fs true)).
Proof.
  intros n. assert (Hn : Z.of_nat n = ntasks files (Z.of_nat nReduce) phase).
  { apply Z2Nat.id. unfold ntasks, go_len. destruct phase; cbn; unfold go_len; lia. }
  unfold sched_start. rewrite spawn_all by (unfold go_len; cbn [length]; lia).
  cbn [sched_run sched_exec returned tasks wg app].
  unfold go_len. rewrite length_replicate, Hn, Z.eqb_refl. done.
Qed.

(** A job with more reduce tasks than input files crashes the master: [schedule] takes
    the name of input file [i] for reduce task [i] too. *)
Theorem reduce_index_panic json_text range_order mapF reduceF j files nReduce w fs :
  go_len files < nReduce →
  ∃ acts, sched_run json_text range_order mapF reduceF j files nReduce reducePhase acts
    (sched_start [w] fs) = Some (Panic index_panic).
Proof.
  intros Hn. assert (Hk : ∃ k, k = length files) by eauto. destruct Hk as [k Hk].
  exists (replicate (S k) SSpawn ++ [SAdd k; STake k 0]).
  unfold sched_start. rewrite spawn_all
    by (unfold ntasks, phase_sizes, go_len in *; cbn [fst length]; lia). cbn [app].
  assert (Hl : replicate (S k) GSpawned !! k = Some GSpawned) by (apply lookup_replicate_2; lia).
  cbn [sched_run sched_exec tasks idle]. rewrite Hl.
  cbn [add_wg set_task tasks idle wg files_of returned].
  rewrite list_lookup_insert_eq by (rewrite length_replicate; lia). cbn [lookup].
  unfold task_args, go_at. rewrite Nat2Z.id, lookup_ge_None_2 by lia.
  by destruct (_ <? 0).
Qed.

(** After a sequential job, [CleanupFiles] succeeds exactly if every map task emitted
    a pair for every reduce task; if a bucket stayed empty its file was never
    created, and the clean-up aborts the process. *)
Theorem cleanup_after_job json_text range_order mapF reduceF j files nReduce fs0 :
  job_ok range_order j files nReduce fs0 → json_safe json_text mapF reduceF files fs0 →
  ∃ mr fs, Sequential json_text range_order j files nReduce mapF reduceF fs0 = Ok (mr, fs) ∧
    ((∃ fs', CleanupFiles j files nReduce fs = Ok (tt, fs')) ↔
     ∀ i r, 0 ≤ i < go_len files → 0 ≤ r < nReduce →
       bucket nReduce r (task_kvs json_text mapF files fs0 i) ≠ []).
Proof.
  intros Hjob Hsafe. destruct (wp_never _ _ _ (Sequential_spec json_text _ mapF reduceF _ _ _ _ Hjob Hsafe _))
    as (mr & fs & Hrun & _ & Hm & Hd & Hres). exists mr, fs. split; [done|].
  rewrite CleanupFiles_names.
  pose proof (remove_all _ (NoDup_cleanup j (go_len files) nReduce) fs) as Hrm.
  destruct (for_range _ removeFile fs) as [[[] fs']|why].
  - destruct Hrm as [Hall _]. split; [|eauto]. intros _ i r Hi Hr Hb.
    destruct (Hall (reduceName j i r)) as [d Hf]; [apply elem_of_cleanup; left; eauto 10|].
    by rewrite (Hm i Hi r), Hb in Hf.
  - split; [by intros [? ?]|]. intros Hall. exfalso.
    destruct Hrm as (n & [(i & r & Hi & Hr & ->)|[(r & Hr & ->)| ->]]%elem_of_cleanup & Hn).
    + rewrite (Hm i Hi r) in Hn. specialize (Hall i r Hi Hr). by destruct (bucket _ r _).
    + destruct (Hd r Hr) as (l & Hl & _). congruence.
    + congruence.
Qed.

(** ** A job with two input files *)

Definition demo_text : list KeyValue → string := λ _, EmptyString.
Definition demo_map (f text : string) : list KeyValue := [mkKeyValue text f; mkKeyValue "both" f].
Definition demo_reduce (k : string) (vs : list string) : string := String.concat "," vs.
Definition demo_files : list string := ["a"; "b"].
Definition demo_fs : FS := <["a" := Text "x"]> {["b" := Text "y"]}.

Lemma demo_ok : job_ok map_to_list "job" demo_files 2 demo_fs.
Proof.
  split; [done|lia| |].
  - intros f [->|[->|[]%not_elem_of_nil]%elem_of_cons]%elem_of_cons;
      (split; [by eexists|]); intros [(m & r & _ & Heq)|[[r Heq]|Heq]]; discriminate Heq.
  - intros m r _. unfold demo_fs. by rewrite lookup_insert_ne, lookup_singleton_ne.
Qed.

Lemma demo_safe : json_safe demo_text demo_map demo_reduce demo_files demo_fs.
Proof.
  assert (all_kvs demo_text demo_map demo_files demo_fs =
    [mkKeyValue "x" "a"; mkKeyValue "both" "a"; mkKeyValue "y" "b"; mkKeyValue "both" "b"]) as Hall by (vm_compute; reflexivity).
  split.
  - intros kv. rewrite Hall, !elem_of_cons, elem_of_nil. intros [->|[->|[->|[->|[]]]]]; vm_compute; done.
  - intros k. rewrite Hall. unfold values. rewrite !filter_cons. cbn [Key].
    repeat case_decide; simplify_eq; intros Hne; try (vm_compute; done); by destruct Hne.
Qed.

Lemma mapreduce_correct_witness :
  ∃ mr fs, Sequential demo_text map_to_list "job" demo_files 2 demo_map demo_reduce demo_fs = Ok (mr, fs) ∧
    fs !! resultName "job" = Some (Text (merge_text (list_to_map [("both", "a,b"); ("x", "a"); ("y", "b")]))).
Proof.
  destruct (mapreduce_correct demo_text map_to_list demo_map demo_reduce "job" demo_files 2 demo_fs demo_ok demo_safe)
    as (mr & fs & Hrun & _ & _ & Hres). exists mr, fs.
  split; [exact Hrun|]. rewrite Hres. vm_compute. reflexivity.
Defined.

Lemma cleanup_after_job_witness :
  ∃ mr fs, Sequential demo_text map_to_list "job" demo_files 2 demo_map demo_reduce demo_fs = Ok (mr, fs) ∧
    ¬ ∃ fs', CleanupFiles "job" demo_files 2 fs = Ok (tt, fs').
Proof.
  destruct (cleanup_after_job demo_text map_to_list demo_map demo_reduce "job" demo_files 2 demo_fs demo_ok demo_safe)
    as (mr & fs & Hrun & Hiff). exists mr, fs. split; [exact Hrun|]. intros Hok.
  assert (Hb : bucket 2 1 (task_kvs demo_text demo_map demo_files demo_fs 1) = []) by (vm_compute; reflexivity).
  assert (Hr : 0 ≤ 1 < go_len demo_files) by (vm_compute; split; [discriminate|reflexivity]).
  exact (proj1 Hiff Hok 1 1 Hr ltac:(lia) Hb).
Defined.

Lemma reduce_index_panic_witness :
  ∃ acts, sched_run demo_text map_to_list demo_map demo_reduce "job" demo_files 3 reducePhase acts
    (sched_start ["w"] demo_fs) = Some (Panic index_panic).
Proof.
  apply (reduce_index_panic demo_text map_to_list demo_map demo_reduce "job" demo_files 3 "w" demo_fs).
  reflexivity.
Defined.

Lemma sched_run_steps json_text range_order mapF reduceF j files nReduce phase acts : ∀ s s',
  sched_run json_text range_order mapF reduceF j files nReduce phase acts s = Some (Ok s') →
  rtc (sched_step json_text range_order mapF reduceF j files nReduce phase) s s'.
Proof.
  induction acts as [|a acts IH]; intros s s' Hrun; cbn in Hrun; [by simplify_eq|].
  destruct (sched_exec _ _ _ _ _ _ _ _ a s) as [[s1|]|] eqn:Ha; try done.
  eapply rtc_l; [by exists a|]. by apply IH.
Qed.

(** Both phases, each with a worker that fails in the middle of a task. *)
Definition demo_acts : list sched_action :=
  [SSpawn; SAdd 0; STake 0 0; SSpawn; SAdd 1; SRegister "w2"; SCallFail 0 (Some 1%nat);
   STake 1 0; SCallOk 1; STake 0 0; SCallOk 0].
Definition demo_phase (ph : jobPhase) (s : Sched) : Sched :=
  match sched_run demo_text map_to_list demo_map demo_reduce "job" demo_files 2 ph demo_acts s with
  | Some (Ok s') => s'
  | _ => s
  end.
Definition demo_return (s : Sched) : Sched := mkSched (wg s) (tasks s) (idle s) (files_of s) true.
Definition demo_mapped : Sched := demo_phase mapPhase (sched_start ["w1"] demo_fs).
Definition demo_reduced : Sched := demo_phase reducePhase (sched_start ["w1"] (files_of demo_mapped)).

Lemma demo_map_steps :
  rtc (sched_step demo_text map_to_list demo_map demo_reduce "job" demo_files 2 mapPhase)
    (sched_start ["w1"] demo_fs) demo_mapped.
Proof. apply (sched_run_steps _ _ _ _ _ _ _ _ demo_acts). vm_compute. reflexivity. Qed.
Lemma demo_reduce_steps :
  rtc (sched_step demo_text map_to_list demo_map demo_reduce "job" demo_files 2 reducePhase)
    (sched_start ["w1"] (files_of demo_mapped)) demo_reduced.
Proof. apply (sched_run_steps _ _ _ _ _ _ _ _ demo_acts). vm_compute. reflexivity. Qed.

Lemma demo_mapped_started : GSpawned ∉ tasks demo_mapped.
Proof. apply (bool_decide_unpack _). vm_compute. reflexivity. Qed.
Lemma demo_reduced_started : GSpawned ∉ tasks demo_reduced.
Proof. apply (bool_decide_unpack _). vm_compute. reflexivity. Qed.

Lemma distributed_correct_witness :
  ∃ fs, merge "job" 2 (files_of demo_reduced) = Ok (tt, fs) ∧
    fs !! resultName "job" = Some (Text (merge_text (list_to_map [("both", "a,b"); ("x", "a"); ("y", "b")]))).
Proof.
  destruct (distributed_correct demo_text map_to_list demo_map demo_reduce "job" demo_files 2 demo_fs
    ["w1"] demo_mapped (demo_return demo_mapped) ["w1"] demo_reduced (demo_return demo_reduced)
    demo_ok demo_safe demo_map_steps demo_mapped_started ltac:(vm_compute; reflexivity)
    demo_reduce_steps demo_reduced_started ltac:(vm_compute; reflexivity))
    as (fs & Hrun & Hres). exists fs. split; [exact Hrun|]. rewrite Hres. vm_compute. reflexivity.
Defined.

(** ** The accept loop of a worker *)

Fixpoint accepted (es : list wevent) : Z :=
  match es with
  | [] => 0
  | e :: es' => (if e is WAccept true then 1 else 0) + accepted es'
  end.

(** [F]: some [Accept] failed. *)
Definition worker_inv (F : Prop) (n a : Z) (wk : Worker) : Prop :=
  nRPC wk = n - a ∧ 0 ≤ nRPC wk ∧ nTasks wk = a - (if wk_stage wk is WServing then 1 else 0) ∧
  (wk_stage wk = WAccepting → nRPC wk ≠ 0) ∧ (wk_stage wk = WExited → F ∨ nRPC wk = 0).

Lemma worker_exec_inv (F : Prop) n a e wk wk' :
  0 ≤ n ≤ max_int → 0 ≤ a → (e = WAccept false → F) → e ≠ WShutdown →
  worker_inv F n a wk → worker_exec e wk = Some wk' →
  worker_inv F n (a + if e is WAccept true then 1 else 0) wk'.
Proof.
  intros Hn Ha HF He (Hr & Hpos & Ht & Hacc & Hexit) Hex. unfold worker_exec in Hex. unfold worker_inv.
  destruct e as [|[]| |]; [..|done]; destruct (wk_stage wk) eqn:Hst; simplify_eq; cbn.
  - destruct (Z.eqb_spec (nRPC wk) 0); cbn; repeat split; try done; try lia; auto.
  - specialize (Hacc eq_refl). rewrite wrap64_id by (unfold max_int in *; lia). repeat split; done || lia.
  - repeat split; try done; try lia. auto.
  - rewrite wrap64_id by (unfold max_int in *; lia). repeat split; done || lia.
Qed.

Lemma worker_run_inv (F : Prop) n es : ∀ a wk wk',
  0 ≤ n ≤ max_int → 0 ≤ a → (WAccept false ∈ es → F) → WShutdown ∉ es →
  worker_inv F n a wk → worker_run es wk = Some wk' → worker_inv F n (a + accepted es) wk'.
Proof.
  induction es as [|e es IH]; intros a wk wk' Hn Ha HF Hns Hwk Hrun; cbn [worker_run accepted] in *.
  { simplify_eq. by rewrite Z.add_0_r. }
  apply not_elem_of_cons in Hns as [He Hns]. case_match eqn:Hex; [|done]. rewrite Z.add_assoc.
  eapply IH; [done| | |done| |done].
  - destruct e as [|[]| |]; lia.
  - intros ?. apply HF. by right.
  - eapply worker_exec_inv; try done. intros ->. apply HF. by left.
Qed.

(** A worker started with the limit [n] counts its connections exactly: before a
    [Shutdown] it has accepted [n - nRPC] of them, at most [n], a [Shutdown] now would
    report them (the connection being handed over not yet counted), and it leaves its
    loop on its own after [n]. *)
Theorem worker_rpc_limit n es wk :
  0 ≤ n ≤ max_int → WShutdown ∉ es → worker_run es (RunWorker n) = Some wk →
  nRPC wk = n - accepted es ∧ accepted es ≤ n ∧
  (Worker_Shutdown wk).1 = accepted es - (if wk_stage wk is WServing then 1 else 0) ∧
  (wk_stage wk = WExited → WAccept false ∈ es ∨ accepted es = n).
Proof.
  intros Hn Hns Hrun.
  assert (Hinv : worker_inv (WAccept false ∈ es) n (0 + accepted es) wk).
  { eapply worker_run_inv; [done| |done|done| |done]; [lia|].
    unfold worker_inv; cbn. repeat split; done || lia. }
  destruct Hinv as (Hr & Hpos & Ht & _ & Hexit).
  split; [lia|]. split; [lia|]. split; [cbn; lia|]. intros Hex.
  destruct (Hexit Hex); [by left|right; lia].
Qed.

Lemma worker_rpc_limit_witness :
  let es := [WTest; WAccept true; WCount; WTest; WAccept true; WCount; WTest] in
  worker_run es (RunWorker 2) = Some (mkWorker 0 2 WExited) ∧ accepted es = 2.
Proof.
  assert (Hrun : worker_run [WTest; WAccept true; WCount; WTest; WAccept true; WCount; WTest]
    (RunWorker 2) = Some (mkWorker 0 2 WExited)) by (vm_compute; reflexivity).
  assert (Hns : WShutdown ∉ [WTest; WAccept true; WCount; WTest; WAccept true; WCount; WTest]).
  { rewrite !not_elem_of_cons. repeat split; try discriminate. apply not_elem_of_nil. }
  split; [exact Hrun|].
  destruct (worker_rpc_limit 2 _ _ ltac:(unfold max_int; lia) Hns Hrun) as (Hr & _ & _ & _).
  cbn in Hr. cbn. lia.
Defined.
