(* ===== verification/MrApps.v ===== *)
(** * The two MapReduce applications (src/mit/src/main/wc.go, ii.go)

    Word count and inverted index: the functions given to the MapReduce library,
    and what their jobs compute.  A Go string is a sequence of bytes, which
    [strings.FieldsFunc] reads as UTF-8 ([decode_rune] of Utf8.v); the Unicode table behind
    [unicode.IsLetter] is a parameter, any set of code points. *)
From Stdlib Require Import Ascii.
From Stdlib Require Strings.String.
From stdpp Require Import pretty.
From S2P Require Import Prelude GoRt Utf8 MapReduce MrTheorems.
Open Scope Z_scope.

(** ** Strings *)

(** [strings.FieldsFunc(s, sep)]: the maximal runs of runes that do not satisfy [sep]. *)
Fixpoint fields (sep : Z → bool) (rs : list (Z * list ascii)) (cur : list ascii) : list (list ascii) :=
  match rs with
  | [] => if decide (cur = []) then [] else [cur]
  | (r, bytes) :: rs' =>
      if sep r
      then (if decide (cur = []) then [] else [cur]) ++ fields sep rs' []
      else fields sep rs' (cur ++ bytes)
  end.
Definition FieldsFunc (s : string) (sep : Z → bool) : list string :=
  map String.string_of_list_ascii (fields sep (runes s) []).

(** [strconv.Atoi]: the number, and whether there was no error; a number out of
    range is clamped. *)
Fixpoint atoi_digits (s : list ascii) (acc : Z) : option Z :=
  match s with
  | [] => Some acc
  | c :: s' => if between 48 (byte c) 57 then atoi_digits s' (acc * 10 + (byte c - 48)) else None
  end.
Definition clamp (z : Z) : Z * bool :=
  if z <? - 2 ^ 63 then (- 2 ^ 63, false) else if max_int <? z then (max_int, false) else (z, true).
Definition Atoi (s : string) : Z * bool :=
  let num (sign : Z) (l : list ascii) :=
    match l with
    | [] => (0, false)
    | _ => match atoi_digits l 0 with Some n => clamp (sign * n) | None => (0, false) end
    end in
  match String.list_ascii_of_string s with
  | "+"%char :: l => num 1 l
  | "-"%char :: l => num (-1) l
  | l => num 1 l
  end.

Section apps.
Context (IsLetter : Z → bool).

Definition words (text : string) : list string := FieldsFunc text (λ c, negb (IsLetter c)).

(** ** Word count *)

Definition wc_mapF (document value : string) : list KeyValue :=
  map (λ word, mkKeyValue word "1") (words value).

Definition wc_reduceF (key : string) (values : list string) : string :=
  Itoa (fold_left (λ cnt value, wrap64 (cnt + (Atoi value).1)) values 0).

(** ** Inverted index *)

Fixpoint unique_from (seen : gset string) (slice : list string) : list string :=
  match slice with
  | [] => []
  | item :: slice' =>
      if bool_decide (item ∈ seen) then unique_from seen slice'
      else item :: unique_from ({[item]} ∪ seen) slice'
  end.
Definition SliceUnique (slice : list string) : list string := unique_from ∅ slice.

Definition ii_mapF (document value : string) : list KeyValue :=
  map (λ word, mkKeyValue word document) (SliceUnique (words value)).

(** The loop over the sorted names; [index] counts up to [length - 1]. *)
Fixpoint join_loop (index length : Z) (names : list string) : string :=
  match names with
  | [] => EmptyString
  | name :: names' =>
      (name +:+ (if (index =? length - 1)%Z then EmptyString else ",") +:+
       join_loop (index + 1) length names')%string
  end.
Definition ii_reduceF (key : string) (values : list string) : string :=
  let sorted := sort_Strings values in
  (Itoa (go_len sorted) +:+ " " +:+ join_loop 0 (go_len sorted) sorted)%string.

(** ** What the jobs compute *)

Context (json_text : list KeyValue → string) (files : list string) (fs0 : FS).

Definition text_of (f : string) : string :=
  match fs0 !! f with Some d => contents json_text d | None => EmptyString end.
Definition occurrences (w : string) (l : list string) : Z := go_len (filter (λ x, x = w) l).
Definition all_words : list string := concat (map (λ f, words (text_of f)) files).
Definition files_with (w : string) : list string := filter (λ f, w ∈ words (text_of f)) files.

Lemma all_kvs_texts mapF :
  all_kvs json_text mapF files fs0 = concat (map (λ f, mapF f (text_of f)) files).
Proof. done. Qed.

Lemma wc_values w : values w (all_kvs json_text wc_mapF files fs0) =
  replicate (length (filter (λ x, x = w) all_words)) "1".
Proof.
  rewrite all_kvs_texts. unfold all_words, values.
  induction files as [|f l IH]; cbn; [done|].
  rewrite !filter_app, map_app, length_app, replicate_add, <- IH. f_equal.
  unfold wc_mapF. induction (words (text_of f)) as [|x ws IHw]; [done|]. cbn [map].
  rewrite !filter_cons. cbn [Key]. case_decide; cbn [map length replicate]; by rewrite IHw.
Qed.

Lemma count_ones n : ∀ acc,
  0 ≤ acc → acc + Z.of_nat n ≤ max_int →
  fold_left (λ cnt value, wrap64 (cnt + (Atoi value).1)) (replicate n "1") acc = acc + Z.of_nat n.
Proof.
  induction n as [|n IH]; intros acc Hpos Hmax; cbn [replicate fold_left]; [lia|].
  change (Atoi "1").1 with 1. rewrite wrap64_id by lia. rewrite IH by lia. lia.
Qed.

Lemma unique_values w doc l : ∀ seen,
  values w (map (λ word, mkKeyValue word doc) (unique_from seen l)) =
  if decide (w ∈ l ∧ w ∉ seen) then [doc] else [].
Proof.
  induction l as [|x l IH]; intros seen; cbn [unique_from map].
  { rewrite decide_False; [done|]. by intros [?%not_elem_of_nil _]. }
  case_bool_decide as Hx.
  - rewrite IH. apply decide_ext. rewrite elem_of_cons. naive_solver.
  - cbn [map]. unfold values in *. rewrite filter_cons. cbn [Key]. destruct (decide (x = w)) as [->|Hne]; cbn; rewrite IH.
    + rewrite decide_False by set_solver. by rewrite decide_True by set_solver.
    + apply decide_ext. set_solver.
Qed.

Lemma ii_values w : values w (all_kvs json_text ii_mapF files fs0) = files_with w.
Proof.
  rewrite all_kvs_texts. unfold files_with.
  induction files as [|f l IH]; [done|]. cbn [map concat].
  rewrite values_app, IH. unfold ii_mapF, SliceUnique. rewrite unique_values, filter_cons.
  destruct (decide (w ∈ words (text_of f))); [rewrite decide_True by set_solver|rewrite decide_False by tauto]; done.
Qed.

Lemma append_empty_r (s : string) : (s +:+ EmptyString)%string = s.
Proof. induction s as [|c s IH]; [done|]. exact (f_equal (String.String c) IH). Qed.

Lemma join_loop_concat names : ∀ index len,
  index + go_len names = len → join_loop index len names = String.concat "," names.
Proof.
  induction names as [|x names IH]; intros index len Hlen; cbn; [done|].
  unfold go_len in *; cbn [length] in Hlen. destruct names as [|y names].
  - cbn in *. rewrite (proj2 (Z.eqb_eq index _)) by lia. apply append_empty_r.
  - rewrite (proj2 (Z.eqb_neq index _)) by (cbn [length] in Hlen; lia). rewrite IH by lia. done.
Qed.
End apps.

(** C34: The word count of a job is right: the reference result of [wc] has an entry for
    exactly the words of the input files, the decimal number of their occurrences
    (up to the largest [int]). *)
Theorem word_count_correct IsLetter json_text files fs0 w :
  let n := occurrences w (all_words IsLetter json_text files fs0) in
  n ≤ max_int →
  reference json_text (wc_mapF IsLetter) wc_reduceF files fs0 !! w =
  if n =? 0 then None else Some (Itoa n).
Proof.
  intros n Hn. rewrite reference_lookup, wc_values. subst n. unfold occurrences, go_len in *.
  destruct (length _) as [|k] eqn:Hk; [done|]. unfold wc_reduceF. cbn [entry replicate fmap option_fmap option_map].
  change ("1" :: replicate k "1") with (replicate (S k) "1"). rewrite count_ones by lia.
  by destruct (Z.eqb_spec (Z.of_nat (S k)) 0); [lia|].
Qed.

(** The inverted index of a job is right: for every word, the number of input files that
    contain it and their names, sorted and separated by commas; a word of no file has
    no entry. *)
Theorem inverted_index_correct IsLetter json_text files fs0 w :
  let names := files_with IsLetter json_text files fs0 w in
  reference json_text (ii_mapF IsLetter) ii_reduceF files fs0 !! w =
  match names with
  | [] => None
  | _ => Some (Itoa (go_len names) +:+ " " +:+ String.concat "," (sort_Strings names))%string
  end.
Proof.
  intros names. rewrite reference_lookup, ii_values. fold names.
  destruct names as [|f l] eqn:Hn; [done|]. cbn [entry fmap option_fmap option_map]. f_equal.
  unfold ii_reduceF. rewrite join_loop_concat by lia. unfold go_len, sort_Strings.
  by rewrite (Permutation_length (merge_sort_Permutation String.le (f :: l))).
Qed.

Definition ascii_letter (c : Z) : bool := between 65 c 90 || between 97 c 122.
Definition tale : FS := <["a" := Text "it was, it is"]> {["b" := Text "is it?"]}.

Lemma word_count_correct_witness :
  reference demo_text (wc_mapF ascii_letter) wc_reduceF ["a"; "b"] tale !! "it" = Some "3".
Proof.
  rewrite (word_count_correct ascii_letter demo_text ["a"; "b"] tale "it"
    ltac:(vm_compute; discriminate)). vm_compute. reflexivity.
Defined.

(** The index of the same files, through the theorem's own definitions. *)
Example index_of_tale :
  reference demo_text (ii_mapF ascii_letter) ii_reduceF ["b"; "a"] tale !! "is" = Some "2 a,b".
Proof. vm_compute. reflexivity. Qed.
