(* ===== verification/EtcdStorage.v ===== *)
(** * Log storage of the vendored etcd raft
      (src/etcd-raft/vendor/github.com/coreos/etcd/raft/storage.go)

    The raft log reads its stable entries through the interface [Storage]; the
    class [StorageLaws] is what it relies on, in terms of the entry at every index.
    [MemoryStorage] implements it.  An index is a [uint64]: sums and differences
    are taken modulo [2^64] ([u64]).

    The protobuf structs have their declared fields; the bytes of unknown fields
    ([XXX_unrecognized]), which this code never sets, are left out.  A byte slice
    is [None] where it is nil. *)
From S2P Require Import Prelude GoRt.
Open Scope Z_scope.

(** ** Data (raft/raftpb/raft.pb.go) *)

Definition u64 (z : Z) : Z := z mod 2 ^ 64.

Inductive EntryType : Type := EntryNormal | EntryConfChange.

Record Entry : Type := mkEntry { E_Term : Z; E_Index : Z; E_Type : EntryType; E_Data : option string }.

Record ConfState : Type := mkConfState { Nodes : list Z }.
Record SnapshotMetadata : Type := mkSnapshotMetadata { SM_ConfState : ConfState; SM_Index : Z; SM_Term : Z }.
Record Snapshot : Type := mkSnapshot { Snap_Data : option string; Metadata : SnapshotMetadata }.
Record HardState : Type := mkHardState { HS_Term : Z; HS_Vote : Z; HS_Commit : Z }.

Definition no_entry : Entry := mkEntry 0 0 EntryNormal None.
Definition no_snapshot : Snapshot := mkSnapshot None (mkSnapshotMetadata (mkConfState []) 0 0).

#[export] Instance EntryType_eq_dec : EqDecision EntryType.
Proof. solve_decision. Defined.
#[export] Instance Entry_eq_dec : EqDecision Entry.
Proof. solve_decision. Defined.

(** The length of a varint; ten bytes of seven bits hold any [uint64]. *)
Fixpoint sov_loop (fuel : nat) (x : Z) : Z :=
  match fuel with
  | O => 0
  | S fuel' => let x' := Z.shiftr x 7 in if x' =? 0 then 1 else 1 + sov_loop fuel' x'
  end.
Definition sovRaft (x : Z) : Z := sov_loop 10 (u64 x).

Definition type_code (t : EntryType) : Z := match t with EntryNormal => 0 | EntryConfChange => 1 end.

Definition Entry_Size (m : Entry) : Z :=
  (1 + sovRaft (type_code (E_Type m))) + (1 + sovRaft (E_Term m)) + (1 + sovRaft (E_Index m)) +
  match E_Data m with
  | Some d => let l := Z.of_nat (String.length d) in 1 + l + sovRaft l
  | None => 0
  end.

(** ** Limiting the size of a reply (raft/util.go) *)

(** How many of the entries after the first fit. *)
Fixpoint limit_loop (size maxSize : Z) (ents : list Entry) : nat :=
  match ents with
  | [] => 0
  | e :: ents' =>
      let size' := wrap64 (size + Entry_Size e) in
      if maxSize <? u64 size' then 0 else S (limit_loop size' maxSize ents')
  end.
Definition limitSize (ents : list Entry) (maxSize : Z) : list Entry :=
  match ents with
  | [] => []
  | e :: ents' => e :: take (limit_loop (Entry_Size e) maxSize ents') ents'
  end.

Definition noLimit : Z := 2 ^ 64 - 1.

(** ** The interface *)

Inductive StErr : Type :=
  ErrCompacted | ErrSnapOutOfDate | ErrUnavailable | ErrSnapshotTemporarilyUnavailable.

#[export] Instance StErr_eq_dec : EqDecision StErr.
Proof. solve_decision. Defined.

Class Storage (St : Type) : Type := {
  st_Entries : St → Z → Z → Z → res (list Entry + StErr);
  st_Term : St → Z → res (Z + StErr);
  st_LastIndex : St → res (Z + StErr);
  st_FirstIndex : St → res (Z + StErr);
  st_Snapshot : St → res (Snapshot + StErr);
}.

(** The entries [at i] for [lo <= i < hi]. *)
Definition sub (at_ : Z → option Entry) (lo hi : Z) : list Entry := omap at_ (seqZ lo (hi - lo)).

(** A log that holds the entries [(base, last]], each with its own index. *)
Record log_view (at_ : Z → option Entry) (base last : Z) : Prop := {
  lv_in : ∀ i, base < i ≤ last → ∃ e, at_ i = Some e ∧ E_Index e = i;
  lv_out : ∀ i, i ≤ base ∨ last < i → at_ i = None;
  lv_bounds : 0 ≤ base ≤ last ∧ last < 2 ^ 62;
}.

(** What the raft log relies on. *)
Class StorageLaws (St : Type) `{Storage St} : Type := {
  st_ok : St → Prop;
  st_base : St → Z;
  st_base_term : St → Z;
  st_last : St → Z;
  st_at : St → Z → option Entry;
  st_view : ∀ s, st_ok s → log_view (st_at s) (st_base s) (st_last s);
  st_first_spec : ∀ s, st_ok s → st_FirstIndex s = Ok (inl (st_base s + 1));
  st_last_spec : ∀ s, st_ok s → st_LastIndex s = Ok (inl (st_last s));
  st_term_spec : ∀ s i, st_ok s → 0 ≤ i < 2 ^ 62 →
    st_Term s i = Ok (if i <? st_base s then inr ErrCompacted
                      else if i =? st_base s then inl (st_base_term s)
                      else match st_at s i with Some e => inl (E_Term e) | None => inr ErrUnavailable end);
  st_entries_spec : ∀ s lo hi maxSize, st_ok s → st_base s < lo → lo < hi → hi ≤ st_last s + 1 →
    st_Entries s lo hi maxSize = Ok (inl (limitSize (sub (st_at s) lo hi) maxSize));
  st_compacted_spec : ∀ s lo hi maxSize, st_ok s → lo ≤ st_base s →
    st_Entries s lo hi maxSize = Ok (inr ErrCompacted);
}.

(** ** [MemoryStorage] *)

Record MemoryStorage : Type := mkMemoryStorage {
  ms_hardState : HardState; ms_snapshot : Snapshot; ms_ents : list Entry;
}.

Definition NewMemoryStorage : MemoryStorage :=
  mkMemoryStorage (mkHardState 0 0 0) no_snapshot [no_entry].

Definition ms_InitialState (ms : MemoryStorage) : HardState * ConfState :=
  (ms_hardState ms, SM_ConfState (Metadata (ms_snapshot ms))).

Definition set_ents (l : list Entry) (ms : MemoryStorage) : MemoryStorage :=
  mkMemoryStorage (ms_hardState ms) (ms_snapshot ms) l.
Definition set_snapshot (s : Snapshot) (ms : MemoryStorage) : MemoryStorage :=
  mkMemoryStorage (ms_hardState ms) s (ms_ents ms).

Definition SetHardState (st : HardState) : M MemoryStorage () :=
  modify (λ ms, mkMemoryStorage st (ms_snapshot ms) (ms_ents ms)).

(** [ms.ents[0]] *)
Definition ms_dummy : M MemoryStorage Entry :=
  ms <- get ;; must index_panic (go_at (ms_ents ms) 0).

Definition ms_lastIndex : M MemoryStorage Z :=
  d <- ms_dummy ;; ms <- get ;; ret (u64 (E_Index d + go_len (ms_ents ms) - 1)).
Definition ms_firstIndex : M MemoryStorage Z :=
  d <- ms_dummy ;; ret (u64 (E_Index d + 1)).

Definition ms_Entries (lo hi maxSize : Z) : M MemoryStorage (list Entry + StErr) :=
  d <- ms_dummy ;;
  ms <- get ;;
  let offset := E_Index d in
  if lo <=? offset then ret (inr ErrCompacted) else
  last <- ms_lastIndex ;;
  (when u64 (last + 1) <? hi do panic "entries' hi is out of bound lastindex") ;;
  if go_len (ms_ents ms) =? 1 then ret (inr ErrUnavailable) else
  ents <- must slice_panic (go_slice (ms_ents ms) (u64 (lo - offset)) (u64 (hi - offset))) ;;
  ret (inl (limitSize ents maxSize)).

Definition ms_Term (i : Z) : M MemoryStorage (Z + StErr) :=
  d <- ms_dummy ;;
  ms <- get ;;
  let offset := E_Index d in
  if i <? offset then ret (inr ErrCompacted) else
  if go_len (ms_ents ms) <=? wrap64 (u64 (i - offset)) then ret (inr ErrUnavailable) else
  e <- must index_panic (go_at (ms_ents ms) (u64 (i - offset))) ;;
  ret (inl (E_Term e)).

Definition ms_LastIndex : M MemoryStorage (Z + StErr) := i <- ms_lastIndex ;; ret (inl i).
Definition ms_FirstIndex : M MemoryStorage (Z + StErr) := i <- ms_firstIndex ;; ret (inl i).
Definition ms_Snapshot : M MemoryStorage (Snapshot + StErr) := ms <- get ;; ret (inl (ms_snapshot ms)).

(** The operations that change the storage return an error, or [None]. *)
Definition ApplySnapshot (snap : Snapshot) : M MemoryStorage (option StErr) :=
  ms <- get ;;
  if SM_Index (Metadata snap) <=? SM_Index (Metadata (ms_snapshot ms)) then ret (Some ErrSnapOutOfDate) else
  modify (set_snapshot snap) ;;
  modify (set_ents [mkEntry (SM_Term (Metadata snap)) (SM_Index (Metadata snap)) EntryNormal None]) ;;
  ret None.

Definition CreateSnapshot (i : Z) (cs : option ConfState) (data : option string) :
    M MemoryStorage (Snapshot + StErr) :=
  ms <- get ;;
  if i <=? SM_Index (Metadata (ms_snapshot ms)) then ret (inr ErrSnapOutOfDate) else
  d <- ms_dummy ;;
  last <- ms_lastIndex ;;
  (when last <? i do panic "snapshot is out of bound lastindex") ;;
  e <- must index_panic (go_at (ms_ents ms) (u64 (i - E_Index d))) ;;
  let md := Metadata (ms_snapshot ms) in
  let snap := mkSnapshot data (mkSnapshotMetadata (default (SM_ConfState md) cs) i (E_Term e)) in
  modify (set_snapshot snap) ;;
  ret (inl snap).

Definition Compact (compactIndex : Z) : M MemoryStorage (option StErr) :=
  d <- ms_dummy ;;
  ms <- get ;;
  let offset := E_Index d in
  if compactIndex <=? offset then ret (Some ErrCompacted) else
  last <- ms_lastIndex ;;
  (when last <? compactIndex do panic "compact is out of bound lastindex") ;;
  let i := u64 (compactIndex - offset) in
  e <- must index_panic (go_at (ms_ents ms) i) ;;
  rest <- must slice_panic (go_slice (ms_ents ms) (u64 (i + 1)) (go_len (ms_ents ms))) ;;
  modify (set_ents (mkEntry (E_Term e) (E_Index e) EntryNormal None :: rest)) ;;
  ret None.

Definition ms_Append (entries : list Entry) : M MemoryStorage (option StErr) :=
  match entries with
  | [] => ret None
  | e0 :: _ =>
      first <- ms_firstIndex ;;
      let last := u64 (E_Index e0 + go_len entries - 1) in
      if last <? first then ret None else
      entries <- (if E_Index e0 <? first
                  then must slice_panic (go_slice entries (u64 (first - E_Index e0)) (go_len entries))
                  else ret entries) ;;
      d <- ms_dummy ;;
      ms <- get ;;
      e1 <- must index_panic (go_at entries 0) ;;
      let offset := u64 (E_Index e1 - E_Index d) in
      (if offset <? go_len (ms_ents ms) then
         kept <- must slice_panic (go_slice (ms_ents ms) 0 offset) ;;
         modify (set_ents (kept ++ entries))
       else if go_len (ms_ents ms) =? offset then
         modify (set_ents (ms_ents ms ++ entries))
       else panic "missing log entry") ;;
      ret None
  end.

(** The read operations do not change the storage. *)
Definition value {S A} (m : M S A) (s : S) : res A :=
  match m s with Ok (a, _) => Ok a | Panic w => Panic w end.

#[export] Instance MemoryStorage_Storage : Storage MemoryStorage := {|
  st_Entries ms lo hi maxSize := value (ms_Entries lo hi maxSize) ms;
  st_Term ms i := value (ms_Term i) ms;
  st_LastIndex ms := value ms_LastIndex ms;
  st_FirstIndex ms := value ms_FirstIndex ms;
  st_Snapshot ms := value ms_Snapshot ms;
|}.

(** ** Entries by index *)

Lemma u64_id z : 0 ≤ z < 2 ^ 64 → u64 z = z.
Proof. apply Z.mod_small. Qed.

Lemma omap_all_lookup {A B} (f : A → option B) (l : list A) k :
  (∀ x, x ∈ l → is_Some (f x)) → omap f l !! k = l !! k ≫= f.
Proof.
  revert k. induction l as [|x l IH]; intros k Hf; cbn; [done|].
  destruct (Hf x) as [y Hy]; [left|]. rewrite Hy. destruct k as [|k]; [by cbn; rewrite Hy|].
  apply IH. intros ??. apply Hf. by right.
Qed.

Section sub.
Context (at_ : Z → option Entry).

Lemma sub_lookup lo hi k :
  (∀ i, lo ≤ i < hi → is_Some (at_ i)) →
  sub at_ lo hi !! k = if Z.of_nat k <? hi - lo then at_ (lo + Z.of_nat k) else None.
Proof.
  intros Hs. unfold sub. rewrite omap_all_lookup by (intros i ?%elem_of_seqZ; apply Hs; lia).
  destruct (Z.ltb_spec (Z.of_nat k) (hi - lo)).
  - by rewrite lookup_seqZ_lt by lia.
  - by rewrite lookup_seqZ_ge by lia.
Qed.

Lemma sub_length lo hi :
  (∀ i, lo ≤ i < hi → is_Some (at_ i)) → go_len (sub at_ lo hi) = Z.max 0 (hi - lo).
Proof.
  intros Hs. unfold sub, go_len.
  assert (Hlen : ∀ l : list Z, (∀ i, i ∈ l → is_Some (at_ i)) → length (omap at_ l) = length l).
  { induction l as [|x l IH]; intros Hl; cbn; [done|]. destruct (Hl x) as [y ->]; [left|].
    cbn. f_equal. apply IH. intros ??. apply Hl. by right. }
  rewrite Hlen, length_seqZ; [lia|]. intros i ?%elem_of_seqZ. apply Hs. lia.
Qed.

Lemma sub_app lo mid hi : lo ≤ mid ≤ hi → sub at_ lo hi = sub at_ lo mid ++ sub at_ mid hi.
Proof.
  intros ?. unfold sub. rewrite <- omap_app. f_equal.
  replace (hi - lo) with ((mid - lo) + (hi - mid)) by lia. rewrite seqZ_app by lia.
  by replace (lo + (mid - lo)) with mid by lia.
Qed.
End sub.

Lemma sub_ext at1 at2 lo hi : (∀ i, lo ≤ i < hi → at1 i = at2 i) → sub at1 lo hi = sub at2 lo hi.
Proof.
  intros Hext. unfold sub.
  assert (Hl : ∀ l : list Z, (∀ i, i ∈ l → at1 i = at2 i) → omap at1 l = omap at2 l).
  { induction l as [|x l IH]; intros Hl; cbn; [done|]. rewrite (Hl x) by left.
    rewrite IH; [done|]. intros ??. apply Hl. by right. }
  apply Hl. intros i ?%elem_of_seqZ. apply Hext. lia.
Qed.

(** A run of entries that starts at index [from]. *)
Definition contiguous (from : Z) (l : list Entry) : Prop :=
  ∀ k e, l !! k = Some e → E_Index e = from + Z.of_nat k.
Definition at_from (from : Z) (l : list Entry) (i : Z) : option Entry := go_at l (i - from).

Lemma contiguous_nil from : contiguous from [].
Proof. by intros k e. Qed.
Lemma contiguous_cons from e l :
  contiguous from (e :: l) ↔ E_Index e = from ∧ contiguous (from + 1) l.
Proof.
  split.
  - intros H. split; [specialize (H 0%nat e eq_refl); lia|].
    intros k x Hk. specialize (H (S k) x Hk). lia.
  - intros [He H] [|k] x Hk; cbn in Hk; [simplify_eq; lia|]. specialize (H k x Hk). lia.
Qed.
Lemma contiguous_app from l1 l2 :
  contiguous from (l1 ++ l2) ↔ contiguous from l1 ∧ contiguous (from + go_len l1) l2.
Proof.
  revert from. induction l1 as [|e l1 IH]; intros from; cbn [app].
  - unfold go_len; cbn. rewrite Z.add_0_r. split; [intros; split; [apply contiguous_nil|done]|tauto].
  - rewrite !contiguous_cons, IH. unfold go_len; cbn [length].
    replace (from + 1 + Z.of_nat (length l1)) with (from + Z.of_nat (S (length l1))) by lia. tauto.
Qed.

Lemma at_from_Some from l i : from ≤ i < from + go_len l → is_Some (at_from from l i).
Proof. intros. unfold at_from. apply go_at_is_Some. lia. Qed.
Lemma at_from_None from l i : i < from ∨ from + go_len l ≤ i → at_from from l i = None.
Proof.
  intros. unfold at_from, go_at. case_test; [done|]. apply lookup_ge_None_2. unfold go_len in *. lia.
Qed.
Lemma at_from_index from l i e : contiguous from l → at_from from l i = Some e → E_Index e = i.
Proof.
  unfold at_from, go_at. case_test; [done|]. intros Hc He. apply Hc in He. lia.
Qed.
Lemma at_from_app from l1 l2 i :
  at_from from (l1 ++ l2) i =
  if i <? from + go_len l1 then at_from from l1 i else at_from (from + go_len l1) l2 i.
Proof.
  unfold at_from, go_at, go_len. repeat case_test; try lia; try done.
  - rewrite lookup_app_l; [done|lia].
  - rewrite lookup_app_r by lia. f_equal. lia.
Qed.

Lemma sub_at_from from l lo hi :
  from ≤ lo ≤ hi → hi ≤ from + go_len l → go_slice l (lo - from) (hi - from) = Some (sub (at_from from l) lo hi).
Proof.
  intros Hlo Hhi. rewrite go_slice_eq by lia. f_equal. apply list_eq. intros k.
  rewrite sub_lookup by (intros; apply at_from_Some; lia). rewrite lookup_drop.
  destruct (Z.ltb_spec (Z.of_nat k) (hi - lo)).
  - rewrite lookup_take_lt by lia. unfold at_from, go_at. case_test; [lia|]. f_equal. lia.
  - rewrite lookup_take_ge by lia. done.
Qed.

(** ** [MemoryStorage] implements the interface *)

Definition ms_base (ms : MemoryStorage) : Z :=
  match ms_ents ms with d :: _ => E_Index d | [] => 0 end.
Definition ms_base_term (ms : MemoryStorage) : Z :=
  match ms_ents ms with d :: _ => E_Term d | [] => 0 end.
Definition ms_last (ms : MemoryStorage) : Z := ms_base ms + go_len (ms_ents ms) - 1.
Definition ms_at (ms : MemoryStorage) : Z → option Entry :=
  at_from (ms_base ms + 1) (tail (ms_ents ms)).

(** The entries follow the dummy one without a gap. *)
Definition ms_ok (ms : MemoryStorage) : Prop :=
  ∃ d rest, ms_ents ms = d :: rest ∧ contiguous (E_Index d) (d :: rest) ∧
    0 ≤ E_Index d ∧ E_Index d + go_len rest < 2 ^ 62.

Lemma go_len_cons {A} (x : A) l : go_len (x :: l) = go_len l + 1.
Proof. unfold go_len. cbn [length]. lia. Qed.
Lemma go_len_pos {A} (l : list A) : 0 ≤ go_len l.
Proof. unfold go_len. lia. Qed.

Lemma go_at_tail {A} (x : A) l i : 0 < i → go_at (x :: l) i = go_at l (i - 1).
Proof.
  intros. unfold go_at. repeat case_test; try lia.
  replace (Z.to_nat i) with (S (Z.to_nat (i - 1))) by lia. done.
Qed.

(** Opens [ms_ok]: the storage is a dummy entry [d] and the entries [rest]. *)
Ltac ms_open H :=
  let d := fresh "d" in let rest := fresh "rest" in
  destruct H as (d & rest & Hents & Hcont & Hd & Hbound);
  pose proof (go_len_pos rest) as Hpos;
  unfold ms_last, ms_base_term, ms_at, ms_base in *; rewrite ?Hents in *; cbn [tail] in *;
  rewrite ?go_len_cons in *.

Lemma ms_view ms : ms_ok ms → log_view (ms_at ms) (ms_base ms) (ms_last ms).
Proof.
  intros Hok. ms_open Hok. apply contiguous_cons in Hcont as [_ Hcont]. split.
  - intros i Hi. destruct (at_from_Some (E_Index d + 1) rest i) as [e He]; [lia|].
    exists e. split; [done|]. by eapply at_from_index.
  - intros i Hi. apply at_from_None. lia.
  - lia.
Qed.

Section reads.
Context (E : string → Prop) (ms : MemoryStorage).
Hypothesis Hok : ms_ok ms.

Lemma ms_dummy_wp (Q : Entry → MemoryStorage → Prop) :
  (∀ d rest, ms_ents ms = d :: rest → E_Index d = ms_base ms → E_Term d = ms_base_term ms → Q d ms) →
  wp E ms_dummy Q ms.
Proof.
  intros HQ. ms_open Hok. unfold ms_dummy. wp_steps. rewrite Hents. eapply wp_must; [done|].
  eapply HQ; done.
Qed.

Lemma ms_lastIndex_wp (Q : Z → MemoryStorage → Prop) : Q (ms_last ms) ms → wp E ms_lastIndex Q ms.
Proof.
  intros HQ. unfold ms_lastIndex. wp_step. apply ms_dummy_wp. intros d rest Hents Hd _. wp_steps.
  rewrite Hd. fold (ms_last ms). rewrite u64_id; [done|].
  destruct (lv_bounds _ _ _ (ms_view ms Hok)). lia.
Qed.

Lemma ms_firstIndex_wp (Q : Z → MemoryStorage → Prop) : Q (ms_base ms + 1) ms → wp E ms_firstIndex Q ms.
Proof.
  intros HQ. unfold ms_firstIndex. wp_step. apply ms_dummy_wp. intros d rest Hents Hd _. wp_steps.
  rewrite Hd, u64_id; [done|]. destruct (lv_bounds _ _ _ (ms_view ms Hok)). lia.
Qed.

Lemma ms_Term_wp i :
  0 ≤ i < 2 ^ 62 →
  wp E (ms_Term i) (λ r ms', ms' = ms ∧
    r = if i <? ms_base ms then inr ErrCompacted
        else if i =? ms_base ms then inl (ms_base_term ms)
        else match ms_at ms i with Some e => inl (E_Term e) | None => inr ErrUnavailable end) ms.
Proof.
  intros Hi. unfold ms_Term. wp_step. apply ms_dummy_wp. intros d rest Hents Hd Hdt. wp_steps.
  rewrite Hd, Hents, go_len_cons. destruct (lv_bounds _ _ _ (ms_view ms Hok)) as [Hb Hlt].
  destruct (Z.ltb_spec i (ms_base ms)); [by wp_steps|].
  rewrite u64_id, wrap64_id by (unfold max_int; lia).
  unfold ms_at. rewrite Hents. cbn [tail].
  destruct (Z.leb_spec (go_len rest + 1) (i - ms_base ms)).
  - wp_steps. split; [done|]. pose proof (go_len_pos rest).
    destruct (Z.eqb_spec i (ms_base ms)); [lia|]. by rewrite at_from_None by lia.
  - destruct (Z.eqb_spec i (ms_base ms)) as [->|].
    + rewrite Z.sub_diag. wp_step. eapply wp_must; [done|]. wp_steps. by rewrite Hdt.
    + rewrite go_at_tail by lia. destruct (at_from_Some (ms_base ms + 1) rest i) as [e He]; [lia|].
      rewrite He. wp_step. eapply wp_must.
      * unfold at_from in He. replace (i - ms_base ms - 1) with (i - (ms_base ms + 1)) by lia. exact He.
      * by wp_steps.
Qed.

Lemma ms_Entries_wp lo hi maxSize :
  ms_base ms < lo → lo < hi → hi ≤ ms_last ms + 1 →
  wp E (ms_Entries lo hi maxSize)
    (λ r ms', ms' = ms ∧ r = inl (limitSize (sub (ms_at ms) lo hi) maxSize)) ms.
Proof.
  intros Hlo Hlt Hhi. unfold ms_Entries. wp_step. apply ms_dummy_wp. intros d rest Hents Hd _. wp_steps.
  rewrite Hd. destruct (Z.leb_spec lo (ms_base ms)); [lia|]. wp_step. apply ms_lastIndex_wp.
  destruct (lv_bounds _ _ _ (ms_view ms Hok)) as [Hb Hl]. rewrite !u64_id by lia.
  destruct (Z.ltb_spec (ms_last ms + 1) hi); [lia|]. wp_steps.
  unfold ms_last in Hhi. rewrite Hents, go_len_cons in *. pose proof (go_len_pos rest).
  destruct (Z.eqb_spec (go_len rest + 1) 1); [lia|]. wp_step. eapply wp_must.
  - rewrite <- Hents. apply (sub_at_from (ms_base ms)); [lia|]. rewrite Hents, go_len_cons. lia.
  - wp_steps. split; [done|]. f_equal. f_equal. apply sub_ext. intros i Hi.
    unfold ms_at, at_from. rewrite Hents. cbn [tail]. rewrite go_at_tail by lia. f_equal. lia.
Qed.
End reads.

Lemma wp_value {S A} (m : M S A) (s : S) (a : A) :
  wp (λ _, False) m (λ r s', s' = s ∧ r = a) s → value m s = Ok a.
Proof. unfold wp, value. destruct (m s) as [[r s']|]; [by intros [_ ->]|done]. Qed.

#[export] Instance MemoryStorage_laws : StorageLaws MemoryStorage.
Proof.
  refine {| st_ok := ms_ok; st_base := ms_base; st_base_term := ms_base_term;
            st_last := ms_last; st_at := ms_at |}.
  - exact ms_view.
  - intros ms Hok. apply wp_value. unfold ms_FirstIndex. wp_step. apply ms_firstIndex_wp; [done|]. by wp_steps.
  - intros ms Hok. apply wp_value. unfold ms_LastIndex. wp_step. apply ms_lastIndex_wp; [done|]. by wp_steps.
  - intros ms i Hok Hi. apply wp_value. by apply ms_Term_wp.
  - intros ms lo hi maxSize Hok Hlo Hlt Hhi. apply wp_value. by apply ms_Entries_wp.
  - intros ms lo hi maxSize Hok Hlo. apply wp_value. unfold ms_Entries. wp_step. apply ms_dummy_wp; [done|].
    intros d rest _ Hd _. wp_step. rewrite Hd. destruct (Z.leb_spec lo (ms_base ms)); [|lia]. by wp_steps.
Defined.

(** ** Operations that change the storage *)

Lemma NewMemoryStorage_ok : ms_ok NewMemoryStorage.
Proof.
  exists no_entry, []. split; [done|]. split; [|unfold go_len; cbn; lia].
  apply contiguous_cons. split; [done|]. apply contiguous_nil.
Qed.

(** The result of writing [entries], which start at [f], over a log. *)
Definition overwrite (at_ : Z → option Entry) (base f : Z) (entries : list Entry) (i : Z) : option Entry :=
  if i <=? base then None else if i <? f then at_ i else at_from f entries i.

Lemma contiguous_drop from l n : contiguous from l → contiguous (from + Z.of_nat n) (drop n l).
Proof. intros Hc k e Hk. rewrite lookup_drop in Hk. apply Hc in Hk. lia. Qed.
Lemma contiguous_take from l n : contiguous from l → contiguous from (take n l).
Proof. intros Hc k e Hk. apply lookup_take_Some in Hk as [Hk _]. by apply Hc. Qed.

(** Storing [entries] at an offset that leaves no gap. *)
Lemma ms_store ms d rest f entries kept :
  ms_ents ms = d :: rest → contiguous (E_Index d) (d :: rest) → 0 ≤ E_Index d →
  E_Index d < f ≤ E_Index d + go_len rest + 1 → contiguous f entries → f + go_len entries ≤ 2 ^ 62 →
  kept = take (Z.to_nat (f - E_Index d)) (d :: rest) →
  ms_ok (set_ents (kept ++ entries) ms) ∧
  ms_base (set_ents (kept ++ entries) ms) = ms_base ms ∧
  ms_base_term (set_ents (kept ++ entries) ms) = ms_base_term ms ∧
  ms_last (set_ents (kept ++ entries) ms) = f + go_len entries - 1 ∧
  ∀ i, ms_at (set_ents (kept ++ entries) ms) i = overwrite (ms_at ms) (ms_base ms) f entries i.
Proof.
  intros Hents Hc Hd Hf He Hb ->. pose proof (go_len_pos entries). pose proof (go_len_pos rest).
  replace (Z.to_nat (f - E_Index d)) with (S (Z.to_nat (f - E_Index d - 1))) by lia.
  cbn [take]. set (k := Z.to_nat (f - E_Index d - 1)).
  assert (Hk : go_len (take k rest) = f - E_Index d - 1).
  { unfold go_len in *. rewrite length_take. subst k. lia. }
  apply contiguous_cons in Hc as [_ Hc].
  unfold ms_last, ms_base, ms_base_term, ms_at, set_ents, ms_base, ms_ok; cbn [ms_ents app tail].
  rewrite Hents. cbn [tail]. assert (Hl : go_len (take k rest ++ entries) = f - E_Index d - 1 + go_len entries).
  { unfold go_len in *. rewrite length_app. lia. }
  split; [|split; [done|split; [done|split]]].
  - exists d, (take k rest ++ entries). split; [done|]. split; [|lia].
    apply contiguous_cons. split; [done|]. apply contiguous_app. split; [by apply contiguous_take|].
    rewrite Hk. by replace (E_Index d + 1 + (f - E_Index d - 1)) with f by lia.
  - rewrite go_len_cons, Hl. lia.
  - intros i. unfold overwrite. rewrite at_from_app, Hk.
    replace (E_Index d + 1 + (f - E_Index d - 1)) with f by lia.
    destruct (Z.leb_spec i (E_Index d)).
    + destruct (Z.ltb_spec i f); [|lia]. apply at_from_None. lia.
    + destruct (Z.ltb_spec i f); [|done]. unfold at_from, go_at. case_test; [done|].
      apply lookup_take_lt. subst k. lia.
Qed.

(** The entries of an append that were not compacted. *)
Definition trimmed (base f : Z) (l : list Entry) : list Entry := drop (Z.to_nat (base + 1 - f)) l.

Lemma trimmed_spec base f l :
  contiguous f l → 0 ≤ f → base + 1 < f + go_len l →
  let f' := Z.max f (base + 1) in
  contiguous f' (trimmed base f l) ∧ f' + go_len (trimmed base f l) = f + go_len l ∧
  ∀ i, f' ≤ i → at_from f' (trimmed base f l) i = at_from f l i.
Proof.
  intros Hc Hf Hlen f'. unfold trimmed. set (n := Z.to_nat (base + 1 - f)).
  assert (Hf' : f' = f + Z.of_nat n) by lia. rewrite Hf'. split; [by apply contiguous_drop|]. split.
  - unfold go_len in *. rewrite length_drop. lia.
  - intros i Hi. unfold at_from, go_at. repeat case_test; try lia. rewrite lookup_drop. f_equal. lia.
Qed.

(** The switch of [Append]. *)
Lemma ms_write_wp ms d rest f e1 entries :
  ms_ok ms → ms_ents ms = d :: rest → contiguous f (e1 :: entries) → ms_base ms < f →
  f + go_len (e1 :: entries) ≤ 2 ^ 62 →
  wp (λ w, w = "missing log entry"%string ∧ ms_last ms + 1 < f)
    (let offset := u64 (E_Index e1 - E_Index d) in
     (if offset <? go_len (ms_ents ms) then
        kept <- must slice_panic (go_slice (ms_ents ms) 0 offset) ;;
        modify (set_ents (kept ++ e1 :: entries))
      else if go_len (ms_ents ms) =? offset then modify (set_ents (ms_ents ms ++ e1 :: entries))
      else panic "missing log entry") ;;
     ret (None : option StErr))
    (λ r ms', r = None ∧ ms_ok ms' ∧ ms_base ms' = ms_base ms ∧ ms_base_term ms' = ms_base_term ms ∧
       ms_last ms' = f + go_len (e1 :: entries) - 1 ∧
       ∀ i, ms_at ms' i = overwrite (ms_at ms) (ms_base ms) f (e1 :: entries) i) ms.
Proof.
  intros Hok Hents Hc Hf Hb. pose proof Hok as (d' & rest' & Hents' & Hcont & Hd & Hbound).
  rewrite Hents in Hents'. injection Hents' as <- <-.
  assert (Hbase : ms_base ms = E_Index d) by (unfold ms_base; by rewrite Hents).
  assert (Hlast : ms_last ms = E_Index d + go_len rest)
    by (unfold ms_last; rewrite Hbase, Hents, go_len_cons; lia).
  pose proof Hc as [He _]%contiguous_cons. rewrite He. pose proof (go_len_pos (e1 :: entries)).
  rewrite u64_id by lia. cbv zeta. rewrite Hents, go_len_cons. pose proof (go_len_pos rest).
  assert (Hstore := λ kept, ms_store ms d rest f (e1 :: entries) kept Hents Hcont Hd).
  destruct (Z.ltb_spec (f - E_Index d) (go_len rest + 1)); [|destruct (Z.eqb_spec (go_len rest + 1) (f - E_Index d))].
  - do 2 wp_step. eapply wp_must; [apply go_slice_eq; rewrite ?go_len_cons; lia|]. wp_steps.
    split; [done|]. apply Hstore; [lia|done|done|done].
  - do 3 wp_step. split; [done|]. apply Hstore; [lia|done|done|].
    rewrite take_ge; [done|]. unfold go_len in *. cbn [length]. lia.
  - wp_step. apply wp_panic. split; [done|]. lia.
Qed.

(** [Append] writes the entries that were not compacted, drops what came after them,
    and refuses to leave a gap. *)
Lemma ms_Append_wp ms f e0 entries :
  ms_ok ms → contiguous f (e0 :: entries) → 0 ≤ f → f + go_len (e0 :: entries) ≤ 2 ^ 62 →
  wp (λ w, w = "missing log entry"%string ∧ ms_last ms + 1 < f) (ms_Append (e0 :: entries)) (λ r ms',
    r = None ∧ ms_ok ms' ∧ ms_base ms' = ms_base ms ∧ ms_base_term ms' = ms_base_term ms ∧
    (if f + go_len (e0 :: entries) <=? ms_base ms + 1 then ms' = ms
     else ms_last ms' = f + go_len (e0 :: entries) - 1 ∧
          ∀ i, ms_at ms' i = overwrite (ms_at ms) (ms_base ms) f (e0 :: entries) i)) ms.
Proof.
  intros Hok Hc Hf Hb. pose proof Hc as [He _]%contiguous_cons.
  unfold ms_Append. set (l := e0 :: entries) in *. wp_step. apply ms_firstIndex_wp; [done|].
  assert (Hlen : 1 ≤ go_len l) by (subst l; rewrite go_len_cons; pose proof (go_len_pos entries); lia).
  destruct (lv_bounds _ _ _ (ms_view ms Hok)) as [Hbase Hlast]. rewrite He, u64_id by lia.
  destruct (Z.leb_spec (f + go_len l) (ms_base ms + 1));
    destruct (Z.ltb_spec (f + go_len l - 1) (ms_base ms + 1)); try lia; [by wp_steps|].
  destruct (trimmed_spec (ms_base ms) f l Hc Hf ltac:(lia)) as (Hc' & Hl' & Hat).
  wp_step. apply (wp_mono _ _ (λ a s, a = trimmed (ms_base ms) f l ∧ s = ms)).
  { destruct (Z.ltb_spec f (ms_base ms + 1)).
    - rewrite u64_id by lia. eapply wp_must; [apply go_slice_tail; lia|done].
    - wp_steps. split; [|done]. unfold trimmed. by replace (Z.to_nat (ms_base ms + 1 - f)) with 0%nat by lia. }
  intros ? ? [-> ->]. wp_step. apply ms_dummy_wp; [done|]. intros d rest Hents _ _. do 3 wp_step.
  destruct (trimmed _ f l) as [|e1 l'] eqn:El'; [unfold go_len in Hl' at 1; cbn in Hl'; lia|].
  eapply wp_must; [done|]. eapply wp_mono.
  { eapply wp_weaken; [|apply (ms_write_wp ms d rest _ e1 l' Hok Hents Hc'); lia].
    intros w [-> ?]. split; [done|]. lia. }
  intros r ms' (-> & Hok' & Hb' & Hbt' & Hlast' & Hat'). rewrite Hl' in Hlast'.
  split; [done|]. split; [done|]. split; [done|]. split; [done|]. split; [done|].
  intros i. rewrite Hat'. unfold overwrite. destruct (Z.leb_spec i (ms_base ms)); [done|].
  destruct (Z.ltb_spec i (Z.max f (ms_base ms + 1))), (Z.ltb_spec i f); try lia; [done|].
  apply Hat. lia.
Qed.

(** [Append] leaves the snapshot alone. *)
Lemma ms_Append_snapshot entries : keeps ms_snapshot (ms_Append entries).
Proof. unfold ms_Append, ms_firstIndex, ms_dummy. keeps_tac. Qed.

Lemma wp_keeps {S A B} (g : S → B) (E : string → Prop) (m : M S A) (Q : A → S → Prop) (s : S) :
  keeps g m → wp E m Q s → wp E m (λ a s', g s' = g s ∧ Q a s') s.
Proof.
  intros Hk. unfold wp. destruct (m s) as [[a s']|] eqn:Hm; [|done]. split; [by eapply Hk|done].
Qed.

Lemma ms_Append_snapshot_wp ms f e0 entries :
  ms_ok ms → contiguous f (e0 :: entries) → 0 ≤ f → f + go_len (e0 :: entries) ≤ 2 ^ 62 →
  wp (λ w, w = "missing log entry"%string ∧ ms_last ms + 1 < f) (ms_Append (e0 :: entries)) (λ r ms',
    r = None ∧ ms_ok ms' ∧ ms_base ms' = ms_base ms ∧ ms_base_term ms' = ms_base_term ms ∧
    ms_snapshot ms' = ms_snapshot ms ∧
    (if f + go_len (e0 :: entries) <=? ms_base ms + 1 then ms' = ms
     else ms_last ms' = f + go_len (e0 :: entries) - 1 ∧
          ∀ i, ms_at ms' i = overwrite (ms_at ms) (ms_base ms) f (e0 :: entries) i)) ms.
Proof.
  intros ????. eapply wp_mono; [apply (wp_keeps ms_snapshot); [apply ms_Append_snapshot|by apply ms_Append_wp]|].
  intros r ms' (Hs & Hr & Hok & Hb & Hbt & Hcase). auto 10.
Qed.

Lemma ms_Compact_wp (E : string → Prop) ms i :
  ms_ok ms → ms_base ms < i ≤ ms_last ms →
  wp E (Compact i) (λ r ms', r = None ∧ ms_ok ms' ∧ ms_base ms' = i ∧ ms_last ms' = ms_last ms ∧
    ms_snapshot ms' = ms_snapshot ms ∧
    Some (ms_base_term ms') = E_Term <$> ms_at ms i ∧
    ∀ k, ms_at ms' k = if k <=? i then None else ms_at ms k) ms.
Proof.
  intros Hok Hi. unfold Compact. wp_step. apply ms_dummy_wp; [done|]. intros d rest Hents Hd _. do 2 wp_step.
  rewrite Hd. destruct (Z.leb_spec i (ms_base ms)); [lia|]. wp_step. apply ms_lastIndex_wp; [done|].
  destruct (Z.ltb_spec (ms_last ms) i); [lia|]. do 2 wp_step.
  destruct (lv_bounds _ _ _ (ms_view ms Hok)) as [Hb Hl]. rewrite !u64_id by lia.
  pose proof Hok as (d' & rest' & Hents' & Hcont & Hd0 & Hbound). rewrite Hents in Hents'. injection Hents' as <- <-.
  assert (Hlast : ms_last ms = ms_base ms + go_len rest) by (unfold ms_last; rewrite Hents, go_len_cons; lia).
  rewrite Hents, go_len_cons. destruct (at_from_Some (ms_base ms + 1) rest i) as [e He]; [lia|].
  pose proof Hcont as [_ Hcont']%contiguous_cons. rewrite Hd in *.
  assert (Hei : E_Index e = i) by (by eapply at_from_index).
  wp_step. eapply wp_must.
  { rewrite go_at_tail by lia. unfold at_from in He. rewrite <- He. f_equal. lia. }
  wp_step. eapply wp_must.
  { rewrite <- go_len_cons with (x := d). apply go_slice_tail. rewrite go_len_cons. lia. }
  replace (Z.to_nat (i - ms_base ms + 1)) with (S (Z.to_nat (i - ms_base ms))) by lia. cbn [drop].
  set (n := Z.to_nat (i - ms_base ms)). do 3 wp_step. split; [done|].
  assert (Hn : go_len (drop n rest) = ms_last ms - i) by (unfold go_len in *; rewrite length_drop; lia).
  unfold ms_ok, ms_base, ms_base_term, ms_last, ms_at, set_ents, ms_base; cbn [ms_ents tail ms_snapshot E_Index E_Term].
  split; [|split; [done|split; [|split; [done|split]]]].
  - eexists _, _. split; [done|]. cbn [E_Index]. split; [|lia].
    apply contiguous_cons. cbn [E_Index]. split; [done|]. rewrite Hei.
    replace (i + 1) with (ms_base ms + 1 + Z.of_nat n) by lia. by apply contiguous_drop.
  - rewrite go_len_cons, Hn, Hei, Hents, go_len_cons. fold (ms_base ms). rewrite Hlast, Hd. lia.
  - rewrite Hents, Hd. cbn [tail]. by rewrite He.
  - intros k. rewrite Hei, Hents, Hd. cbn [tail]. unfold at_from, go_at.
    destruct (Z.leb_spec k i); repeat case_test; try lia; try done. rewrite lookup_drop. f_equal. lia.
Qed.

Lemma ms_ApplySnapshot_wp (E : string → Prop) ms snap :
  let md := Metadata snap in
  SM_Index (Metadata (ms_snapshot ms)) < SM_Index md → 0 ≤ SM_Index md < 2 ^ 62 →
  wp E (ApplySnapshot snap) (λ r ms', r = None ∧ ms_ok ms' ∧ ms_base ms' = SM_Index md ∧
    ms_last ms' = SM_Index md ∧ ms_base_term ms' = SM_Term md ∧ ms_snapshot ms' = snap) ms.
Proof.
  intros md Hlt Hb. subst md. unfold ApplySnapshot. do 2 wp_step.
  destruct (Z.leb_spec (SM_Index (Metadata snap)) (SM_Index (Metadata (ms_snapshot ms)))); [lia|].
  wp_steps. unfold ms_last, ms_base; cbn. unfold go_len; cbn. split; [done|].
  split; [|repeat split; lia]. eexists _, []. split; [done|]. cbn. split; [|unfold go_len; cbn; lia].
  apply contiguous_cons. split; [done|]. apply contiguous_nil.
Qed.

Lemma ms_CreateSnapshot_wp (E : string → Prop) ms i cs data :
  ms_ok ms → SM_Index (Metadata (ms_snapshot ms)) < i → ms_base ms < i ≤ ms_last ms →
  wp E (CreateSnapshot i cs data) (λ r ms', ∃ e, ms_at ms i = Some e ∧
    let snap := mkSnapshot data (mkSnapshotMetadata
                  (default (SM_ConfState (Metadata (ms_snapshot ms))) cs) i (E_Term e)) in
    r = inl snap ∧ ms' = set_snapshot snap ms) ms.
Proof.
  intros Hok Hs Hi. unfold CreateSnapshot. do 2 wp_step.
  destruct (Z.leb_spec i (SM_Index (Metadata (ms_snapshot ms)))); [lia|].
  wp_step. apply ms_dummy_wp; [done|]. intros d rest Hents Hd _. wp_step. apply ms_lastIndex_wp; [done|].
  destruct (Z.ltb_spec (ms_last ms) i); [lia|]. do 2 wp_step. rewrite Hd.
  destruct (lv_bounds _ _ _ (ms_view ms Hok)) as [Hb Hl]. rewrite u64_id by lia.
  destruct (lv_in _ _ _ (ms_view ms Hok) i Hi) as (e & He & _). wp_step. eapply wp_must.
  { unfold ms_at, at_from in He. rewrite Hents in *. cbn [tail] in He. rewrite go_at_tail by lia.
    rewrite <- He. f_equal. lia. }
  do 3 wp_step. by exists e.
Qed.
