(* ===== verification/RaftPb.v ===== *)
(** * The wire format of the etcd raft messages (raftpb/raft.pb.go)

    The encoders and decoders of the seven message types.  [Marshal] allocates a
    buffer of [Size] bytes and [MarshalTo] writes into it: a [Writer] is a
    computation over the buffer and the position, and a write outside the buffer
    panics.  [Unmarshal] reads fields until the end of the data; its loop is the
    same for all types ([unmarshal_loop]), and a type gives the [switch] on the
    field number.  A decoder that fails leaves what it has decoded so far in the
    message, so it returns the message with the error.

    [nil] slices of bytes are [None]; integers have their width: [uint64] fields
    are kept in [0, 2^64), [int] values wrap at 64 bits, the enumerations are
    [int32].  RaftPbTheorems.v proves what the code guarantees. *)
From S2P Require Import Prelude GoRt EtcdStorage.
Open Scope Z_scope.

(** ** Messages *)

Definition bytes : Type := list Z.

Record PbEntry : Type := mkPbEntry {
  PE_Term : Z; PE_Index : Z; PE_Type : Z; PE_Data : option bytes; PE_XXX : option bytes;
}.
Record PbConfState : Type := mkPbConfState { PCS_Nodes : list Z; PCS_XXX : option bytes }.
Record PbSnapshotMetadata : Type := mkPbSnapshotMetadata {
  PSM_ConfState : PbConfState; PSM_Index : Z; PSM_Term : Z; PSM_XXX : option bytes;
}.
Record PbSnapshot : Type := mkPbSnapshot {
  PS_Data : option bytes; PS_Metadata : PbSnapshotMetadata; PS_XXX : option bytes;
}.
Record PbMessage : Type := mkPbMessage {
  PM_Type : Z; PM_To : Z; PM_From : Z; PM_Term : Z; PM_LogTerm : Z; PM_Index : Z;
  PM_Entries : list PbEntry; PM_Commit : Z; PM_Snapshot : PbSnapshot; PM_Reject : bool;
  PM_RejectHint : Z; PM_Context : option bytes; PM_XXX : option bytes;
}.
Record PbHardState : Type := mkPbHardState { PH_Term : Z; PH_Vote : Z; PH_Commit : Z; PH_XXX : option bytes }.
Record PbConfChange : Type := mkPbConfChange {
  PC_ID : Z; PC_Type : Z; PC_NodeID : Z; PC_Context : option bytes; PC_XXX : option bytes;
}.

(** [Reset]: the zero values. *)
Definition PbEntry_Reset : PbEntry := mkPbEntry 0 0 0 None None.
Definition PbConfState_Reset : PbConfState := mkPbConfState [] None.
Definition PbSnapshotMetadata_Reset : PbSnapshotMetadata := mkPbSnapshotMetadata PbConfState_Reset 0 0 None.
Definition PbSnapshot_Reset : PbSnapshot := mkPbSnapshot None PbSnapshotMetadata_Reset None.
Definition PbMessage_Reset : PbMessage := mkPbMessage 0 0 0 0 0 0 [] 0 PbSnapshot_Reset false 0 None None.
Definition PbHardState_Reset : PbHardState := mkPbHardState 0 0 0 None.
Definition PbConfChange_Reset : PbConfChange := mkPbConfChange 0 0 0 None None.

(** ** Sizes *)

(** [if m.Data != nil { l = len(m.Data); n += 1 + l + sovRaft(uint64(l)) }] *)
Definition size_bytes (o : option bytes) : Z :=
  match o with Some bs => 1 + go_len bs + sovRaft (go_len bs) | None => 0 end.
(** [if m.XXX_unrecognized != nil { n += len(m.XXX_unrecognized) }] *)
Definition size_unrecognized (o : option bytes) : Z :=
  match o with Some bs => go_len bs | None => 0 end.
(** [l = m.Size(); n += 1 + l + sovRaft(uint64(l))] *)
Definition size_msg (l : Z) : Z := 1 + l + sovRaft l.

Definition PbEntry_Size (m : PbEntry) : Z :=
  (1 + sovRaft (PE_Type m)) + (1 + sovRaft (PE_Term m)) + (1 + sovRaft (PE_Index m)) +
  size_bytes (PE_Data m) + size_unrecognized (PE_XXX m).

Definition PbConfState_Size (m : PbConfState) : Z :=
  foldr (λ e n, (1 + sovRaft e) + n) 0 (PCS_Nodes m) + size_unrecognized (PCS_XXX m).

Definition PbSnapshotMetadata_Size (m : PbSnapshotMetadata) : Z :=
  size_msg (PbConfState_Size (PSM_ConfState m)) + (1 + sovRaft (PSM_Index m)) +
  (1 + sovRaft (PSM_Term m)) + size_unrecognized (PSM_XXX m).

Definition PbSnapshot_Size (m : PbSnapshot) : Z :=
  size_bytes (PS_Data m) + size_msg (PbSnapshotMetadata_Size (PS_Metadata m)) + size_unrecognized (PS_XXX m).

Definition PbMessage_Size (m : PbMessage) : Z :=
  (1 + sovRaft (PM_Type m)) + (1 + sovRaft (PM_To m)) + (1 + sovRaft (PM_From m)) +
  (1 + sovRaft (PM_Term m)) + (1 + sovRaft (PM_LogTerm m)) + (1 + sovRaft (PM_Index m)) +
  foldr (λ e n, size_msg (PbEntry_Size e) + n) 0 (PM_Entries m) +
  (1 + sovRaft (PM_Commit m)) + size_msg (PbSnapshot_Size (PM_Snapshot m)) + 2 +
  (1 + sovRaft (PM_RejectHint m)) + size_bytes (PM_Context m) + size_unrecognized (PM_XXX m).

Definition PbHardState_Size (m : PbHardState) : Z :=
  (1 + sovRaft (PH_Term m)) + (1 + sovRaft (PH_Vote m)) + (1 + sovRaft (PH_Commit m)) +
  size_unrecognized (PH_XXX m).

Definition PbConfChange_Size (m : PbConfChange) : Z :=
  (1 + sovRaft (PC_ID m)) + (1 + sovRaft (PC_Type m)) + (1 + sovRaft (PC_NodeID m)) +
  size_bytes (PC_Context m) + size_unrecognized (PC_XXX m).

(** ** Encoding *)

Definition fuel_panic : string := "out of fuel".

(** The buffer and the position [i] in it. *)
Definition Writer : Type := M (bytes * Z) ().

(** The loop of [encodeVarintRaft]: a [uint64] has at most ten groups of seven bits. *)
Fixpoint encodeVarint_loop (fuel : nat) (data : bytes) (offset v : Z) : res (bytes * Z) :=
  match fuel with
  | O => Panic fuel_panic
  | S fuel' =>
      if 128 <=? v then
        match go_set data offset (Z.lor (Z.land v 127) 128) with
        | Some data' => encodeVarint_loop fuel' data' (offset + 1) (Z.shiftr v 7)
        | None => Panic index_panic
        end
      else
        match go_set data offset v with
        | Some data' => Ok (data', offset + 1)
        | None => Panic index_panic
        end
  end.
Definition encodeVarintRaft (data : bytes) (offset v : Z) : res (bytes * Z) :=
  encodeVarint_loop 10 data offset v.

(** [data[i] = b; i++] *)
Definition put_byte (b : Z) : Writer := λ '(data, i),
  match go_set data i b with Some data' => Ok (tt, (data', i + 1)) | None => Panic index_panic end.

(** [i = encodeVarintRaft(data, i, uint64(v))] *)
Definition put_varint (v : Z) : Writer := λ '(data, i),
  match encodeVarintRaft data i (u64 v) with Ok (data', i') => Ok (tt, (data', i')) | Panic w => Panic w end.

(** [i += copy(data[i:], bs)] *)
Definition put_copy (bs : bytes) : Writer := λ '(data, i),
  match go_slice data i (go_len data) with
  | Some tl =>
      let k := Nat.min (length tl) (length bs) in
      Ok (tt, (take (Z.to_nat i) data ++ take k bs ++ drop k tl, i + Z.of_nat k))
  | None => Panic slice_panic
  end.

(** [n, err := msg.MarshalTo(data[i:]); i += n]; the slice shares the memory of the buffer. *)
Definition put_sub (w : Writer) : Writer := λ '(data, i),
  match go_slice data i (go_len data) with
  | Some tl =>
      match w (tl, 0) with
      | Ok (_, (tl', n)) => Ok (tt, (take (Z.to_nat i) data ++ tl', i + n))
      | Panic e => Panic e
      end
  | None => Panic slice_panic
  end.

Definition put_uint (tag v : Z) : Writer := put_byte tag ;; put_varint v.
Definition put_bytes (tag : Z) (o : option bytes) : Writer :=
  match o with Some bs => put_byte tag ;; put_varint (go_len bs) ;; put_copy bs | None => ret tt end.
Definition put_msg (tag size : Z) (w : Writer) : Writer := put_byte tag ;; put_varint size ;; put_sub w.
Definition put_unrecognized (o : option bytes) : Writer :=
  match o with Some bs => put_copy bs | None => ret tt end.

Definition PbEntry_MarshalTo (m : PbEntry) : Writer :=
  put_uint 0x8 (PE_Type m) ;;
  put_uint 0x10 (PE_Term m) ;;
  put_uint 0x18 (PE_Index m) ;;
  put_bytes 0x22 (PE_Data m) ;;
  put_unrecognized (PE_XXX m).

Definition PbConfState_MarshalTo (m : PbConfState) : Writer :=
  for_range (PCS_Nodes m) (λ num, put_uint 0x8 num) ;;
  put_unrecognized (PCS_XXX m).

Definition PbSnapshotMetadata_MarshalTo (m : PbSnapshotMetadata) : Writer :=
  put_msg 0xa (PbConfState_Size (PSM_ConfState m)) (PbConfState_MarshalTo (PSM_ConfState m)) ;;
  put_uint 0x10 (PSM_Index m) ;;
  put_uint 0x18 (PSM_Term m) ;;
  put_unrecognized (PSM_XXX m).

Definition PbSnapshot_MarshalTo (m : PbSnapshot) : Writer :=
  put_bytes 0xa (PS_Data m) ;;
  put_msg 0x12 (PbSnapshotMetadata_Size (PS_Metadata m)) (PbSnapshotMetadata_MarshalTo (PS_Metadata m)) ;;
  put_unrecognized (PS_XXX m).

Definition PbMessage_MarshalTo (m : PbMessage) : Writer :=
  put_uint 0x8 (PM_Type m) ;;
  put_uint 0x10 (PM_To m) ;;
  put_uint 0x18 (PM_From m) ;;
  put_uint 0x20 (PM_Term m) ;;
  put_uint 0x28 (PM_LogTerm m) ;;
  put_uint 0x30 (PM_Index m) ;;
  for_range (PM_Entries m) (λ msg, put_msg 0x3a (PbEntry_Size msg) (PbEntry_MarshalTo msg)) ;;
  put_uint 0x40 (PM_Commit m) ;;
  put_msg 0x4a (PbSnapshot_Size (PM_Snapshot m)) (PbSnapshot_MarshalTo (PM_Snapshot m)) ;;
  put_byte 0x50 ;;
  put_byte (if PM_Reject m then 1 else 0) ;;
  put_uint 0x58 (PM_RejectHint m) ;;
  put_bytes 0x62 (PM_Context m) ;;
  put_unrecognized (PM_XXX m).

Definition PbHardState_MarshalTo (m : PbHardState) : Writer :=
  put_uint 0x8 (PH_Term m) ;;
  put_uint 0x10 (PH_Vote m) ;;
  put_uint 0x18 (PH_Commit m) ;;
  put_unrecognized (PH_XXX m).

Definition PbConfChange_MarshalTo (m : PbConfChange) : Writer :=
  put_uint 0x8 (PC_ID m) ;;
  put_uint 0x10 (PC_Type m) ;;
  put_uint 0x18 (PC_NodeID m) ;;
  put_bytes 0x22 (PC_Context m) ;;
  put_unrecognized (PC_XXX m).

(** [Marshal]: a buffer of the computed size, written and cut at the final position. *)
Definition marshal_with (size : Z) (to : Writer) : res bytes :=
  match to (go_make size 0, 0) with
  | Ok (_, (data, n)) =>
      match go_slice data 0 n with Some bs => Ok bs | None => Panic slice_panic end
  | Panic w => Panic w
  end.

Definition PbEntry_Marshal (m : PbEntry) : res bytes := marshal_with (PbEntry_Size m) (PbEntry_MarshalTo m).
Definition PbConfState_Marshal (m : PbConfState) : res bytes :=
  marshal_with (PbConfState_Size m) (PbConfState_MarshalTo m).
Definition PbSnapshotMetadata_Marshal (m : PbSnapshotMetadata) : res bytes :=
  marshal_with (PbSnapshotMetadata_Size m) (PbSnapshotMetadata_MarshalTo m).
Definition PbSnapshot_Marshal (m : PbSnapshot) : res bytes :=
  marshal_with (PbSnapshot_Size m) (PbSnapshot_MarshalTo m).
Definition PbMessage_Marshal (m : PbMessage) : res bytes :=
  marshal_with (PbMessage_Size m) (PbMessage_MarshalTo m).
Definition PbHardState_Marshal (m : PbHardState) : res bytes :=
  marshal_with (PbHardState_Size m) (PbHardState_MarshalTo m).
Definition PbConfChange_Marshal (m : PbConfChange) : res bytes :=
  marshal_with (PbConfChange_Size m) (PbConfChange_MarshalTo m).

(** ** Decoding *)

Inductive PbErr : Type :=
| ErrIntOverflowRaft
| ErrUnexpectedEOF
| ErrInvalidLengthRaft
| ErrEndGroup                              (* wiretype end group for non-group *)
| ErrIllegalTag (fieldNum wire : Z)
| ErrWrongWireType (wireType : Z)
| ErrIllegalWireType (wireType : Z).

(** A position behind what was read, or an error; with the value read so far. *)
Definition reading (A : Type) : Type := res (A * (Z + PbErr)).

(** The loop that reads a varint into an integer of [w] bits, kept in [0, 2^w). *)
Fixpoint varint_loop (w : Z) (fuel : nat) (data : bytes) (i shift acc : Z) : reading Z :=
  match fuel with
  | O => Panic fuel_panic
  | S fuel' =>
      if 64 <=? shift then Ok (acc, inr ErrIntOverflowRaft)
      else if go_len data <=? i then Ok (acc, inr ErrUnexpectedEOF)
      else
        match go_at data i with
        | None => Panic index_panic
        | Some b =>
            let acc' := Z.lor acc (Z.shiftl (Z.land b 127) shift mod 2 ^ w) in
            if b <? 128 then Ok (acc', inl (i + 1)) else varint_loop w fuel' data (i + 1) (shift + 7) acc'
        end
  end.
Definition varint (w : Z) (data : bytes) (i : Z) : reading Z := varint_loop w 11 data i 0 0.

(** The loop of [skipRaft] for a group, which calls [skipRaft] for the fields in it. *)
Fixpoint skip_group (skip : bytes → res (Z + PbErr)) (fuel : nat) (data : bytes) (i : Z) : res (Z + PbErr) :=
  match fuel with
  | O => Panic fuel_panic
  | S fuel' =>
      match varint 64 data i with
      | Panic w => Panic w
      | Ok (_, inr e) => Ok (inr e)
      | Ok (innerWire, inl i') =>
          if Z.land innerWire 7 =? 4 then Ok (inl i')
          else
            match go_slice data i (go_len data) with
            | None => Panic slice_panic
            | Some rest =>
                match skip rest with
                | Panic w => Panic w
                | Ok (inr e) => Ok (inr e)
                | Ok (inl next) => skip_group skip fuel' data (wrap64 (i + next))
                end
            end
      end
  end.

Fixpoint skip (fuel : nat) (data : bytes) : res (Z + PbErr) :=
  match fuel with
  | O => Panic fuel_panic
  | S fuel' =>
      if go_len data <=? 0 then Panic "unreachable"
      else
        match varint 64 data 0 with
        | Panic w => Panic w
        | Ok (_, inr e) => Ok (inr e)
        | Ok (wire, inl i) =>
            let wireType := Z.land wire 7 in
            if wireType =? 0 then
              match varint 64 data i with
              | Panic w => Panic w
              | Ok (_, r) => Ok r
              end
            else if wireType =? 1 then Ok (inl (i + 8))
            else if wireType =? 2 then
              match varint 64 data i with
              | Panic w => Panic w
              | Ok (_, inr e) => Ok (inr e)
              | Ok (len, inl i') =>
                  if wrap64 len <? 0 then Ok (inr ErrInvalidLengthRaft) else Ok (inl (wrap64 (i' + wrap64 len)))
              end
            else if wireType =? 3 then skip_group (skip fuel') (length data) data i
            else if wireType =? 4 then Ok (inl i)
            else if wireType =? 5 then Ok (inl (i + 4))
            else Ok (inr (ErrIllegalWireType wireType))
        end
  end.
Definition skipRaft (data : bytes) : res (Z + PbErr) := skip (S (length data)) data.

(** *** The fields of a message *)

(** A case of the [switch]: from the wire type, the data and the position behind the tag. *)
Definition field (A : Type) : Type := Z → bytes → Z → A → reading A.

(** An integer field: set to zero, then filled bit by bit. *)
Definition field_uint {A} (w : Z) (conv : Z → Z) (set : Z → A → A) : field A := λ wireType data i m,
  if negb (wireType =? 0) then Ok (m, inr (ErrWrongWireType wireType))
  else match varint w data i with Ok (v, r) => Ok (set (conv v) m, r) | Panic e => Panic e end.

(** A varint that is used only when it is complete. *)
Definition field_var {A} (set : Z → A → A) : field A := λ wireType data i m,
  if negb (wireType =? 0) then Ok (m, inr (ErrWrongWireType wireType))
  else match varint 64 data i with
       | Ok (v, inl i') => Ok (set v m, inl i')
       | Ok (_, inr e) => Ok (m, inr e)
       | Panic e => Panic e
       end.

(** The length of a field of bytes or of a message, and the data behind it. *)
Definition field_len {A} (use : bytes → Z → A → reading A) : field A := λ wireType data i m,
  if negb (wireType =? 2) then Ok (m, inr (ErrWrongWireType wireType))
  else match varint 64 data i with
       | Panic e => Panic e
       | Ok (_, inr e) => Ok (m, inr e)
       | Ok (v, inl i') =>
           if wrap64 v <? 0 then Ok (m, inr ErrInvalidLengthRaft)
           else
             let postIndex := wrap64 (i' + wrap64 v) in
             if go_len data <? postIndex then Ok (m, inr ErrUnexpectedEOF)
             else match go_slice data i' postIndex with
                  | None => Panic slice_panic
                  | Some bs => use bs postIndex m
                  end
       end.

Definition field_bytes {A} (set : option bytes → A → A) : field A :=
  field_len (λ bs postIndex m, Ok (set (Some bs) m, inl postIndex)).

(** A message inside the message; [unmarshal] fills [get m]. *)
Definition field_msg {A B} (unmarshal : bytes → B → res (B * option PbErr)) (get : A → B) (set : B → A → A) : field A :=
  field_len (λ bs postIndex m,
    match unmarshal bs (get m) with
    | Ok (b, None) => Ok (set b m, inl postIndex)
    | Ok (b, Some e) => Ok (set b m, inr e)
    | Panic w => Panic w
    end).

(** The loop of [Unmarshal]: [fields] is the [switch], [keep] adds to [XXX_unrecognized]. *)
Section unmarshal.
Context {A : Type} (fields : Z → option (field A)) (keep : bytes → A → A).

(** The [default] case. *)
Definition unknown_field (data : bytes) (pre : Z) (m : A) : reading A :=
  match go_slice data pre (go_len data) with
  | None => Panic slice_panic
  | Some rest =>
      match skipRaft rest with
      | Panic w => Panic w
      | Ok (inr e) => Ok (m, inr e)
      | Ok (inl skippy) =>
          if skippy <? 0 then Ok (m, inr ErrInvalidLengthRaft)
          else if go_len data <? wrap64 (pre + skippy) then Ok (m, inr ErrUnexpectedEOF)
          else match go_slice data pre (wrap64 (pre + skippy)) with
               | None => Panic slice_panic
               | Some bs => Ok (keep bs m, inl (wrap64 (pre + skippy)))
               end
      end
  end.

(** One field. *)
Definition unmarshal_field (data : bytes) (pre : Z) (m : A) : reading A :=
  match varint 64 data pre with
  | Panic w => Panic w
  | Ok (_, inr e) => Ok (m, inr e)
  | Ok (wire, inl i) =>
      let fieldNum := wrap32 (Z.shiftr wire 3) in
      let wireType := Z.land wire 7 in
      if wireType =? 4 then Ok (m, inr ErrEndGroup)
      else if fieldNum <=? 0 then Ok (m, inr (ErrIllegalTag fieldNum wire))
      else match fields fieldNum with
           | Some f => f wireType data i m
           | None => unknown_field data pre m
           end
  end.

Fixpoint unmarshal_loop (fuel : nat) (data : bytes) (i : Z) (m : A) : res (A * option PbErr) :=
  if i <? go_len data then
    match fuel with
    | O => Panic fuel_panic
    | S fuel' =>
        match unmarshal_field data i m with
        | Panic w => Panic w
        | Ok (m', inr e) => Ok (m', Some e)
        | Ok (m', inl i') => unmarshal_loop fuel' data i' m'
        end
    end
  else if go_len data <? i then Ok (m, Some ErrUnexpectedEOF) else Ok (m, None).

Definition unmarshal_with (data : bytes) (m : A) : res (A * option PbErr) :=
  unmarshal_loop (length data) data 0 m.
End unmarshal.

(** [append(m.XXX_unrecognized, bs...)]: nil stays nil when there is nothing to append. *)
Definition append_unrecognized (bs : bytes) (o : option bytes) : option bytes :=
  match o, bs with
  | None, [] => None
  | _, _ => Some (default [] o ++ bs)
  end.

(** *** The seven decoders *)

Definition uint64 (v : Z) : Z := v.

Definition PbEntry_fields (fieldNum : Z) : option (field PbEntry) :=
  match fieldNum with
  | 1 => Some (field_uint 32 wrap32 (λ v m, mkPbEntry (PE_Term m) (PE_Index m) v (PE_Data m) (PE_XXX m)))
  | 2 => Some (field_uint 64 uint64 (λ v m, mkPbEntry v (PE_Index m) (PE_Type m) (PE_Data m) (PE_XXX m)))
  | 3 => Some (field_uint 64 uint64 (λ v m, mkPbEntry (PE_Term m) v (PE_Type m) (PE_Data m) (PE_XXX m)))
  | 4 => Some (field_bytes (λ d m, mkPbEntry (PE_Term m) (PE_Index m) (PE_Type m) d (PE_XXX m)))
  | _ => None
  end.
Definition PbEntry_keep (bs : bytes) (m : PbEntry) : PbEntry :=
  mkPbEntry (PE_Term m) (PE_Index m) (PE_Type m) (PE_Data m) (append_unrecognized bs (PE_XXX m)).
Definition PbEntry_Unmarshal : bytes → PbEntry → res (PbEntry * option PbErr) :=
  unmarshal_with PbEntry_fields PbEntry_keep.

Definition PbConfState_fields (fieldNum : Z) : option (field PbConfState) :=
  match fieldNum with
  | 1 => Some (field_var (λ v m, mkPbConfState (PCS_Nodes m ++ [v]) (PCS_XXX m)))
  | _ => None
  end.
Definition PbConfState_keep (bs : bytes) (m : PbConfState) : PbConfState :=
  mkPbConfState (PCS_Nodes m) (append_unrecognized bs (PCS_XXX m)).
Definition PbConfState_Unmarshal : bytes → PbConfState → res (PbConfState * option PbErr) :=
  unmarshal_with PbConfState_fields PbConfState_keep.

Definition PbSnapshotMetadata_fields (fieldNum : Z) : option (field PbSnapshotMetadata) :=
  match fieldNum with
  | 1 => Some (field_msg PbConfState_Unmarshal PSM_ConfState
           (λ b m, mkPbSnapshotMetadata b (PSM_Index m) (PSM_Term m) (PSM_XXX m)))
  | 2 => Some (field_uint 64 uint64 (λ v m, mkPbSnapshotMetadata (PSM_ConfState m) v (PSM_Term m) (PSM_XXX m)))
  | 3 => Some (field_uint 64 uint64 (λ v m, mkPbSnapshotMetadata (PSM_ConfState m) (PSM_Index m) v (PSM_XXX m)))
  | _ => None
  end.
Definition PbSnapshotMetadata_keep (bs : bytes) (m : PbSnapshotMetadata) : PbSnapshotMetadata :=
  mkPbSnapshotMetadata (PSM_ConfState m) (PSM_Index m) (PSM_Term m) (append_unrecognized bs (PSM_XXX m)).
Definition PbSnapshotMetadata_Unmarshal : bytes → PbSnapshotMetadata → res (PbSnapshotMetadata * option PbErr) :=
  unmarshal_with PbSnapshotMetadata_fields PbSnapshotMetadata_keep.

Definition PbSnapshot_fields (fieldNum : Z) : option (field PbSnapshot) :=
  match fieldNum with
  | 1 => Some (field_bytes (λ d m, mkPbSnapshot d (PS_Metadata m) (PS_XXX m)))
  | 2 => Some (field_msg PbSnapshotMetadata_Unmarshal PS_Metadata (λ b m, mkPbSnapshot (PS_Data m) b (PS_XXX m)))
  | _ => None
  end.
Definition PbSnapshot_keep (bs : bytes) (m : PbSnapshot) : PbSnapshot :=
  mkPbSnapshot (PS_Data m) (PS_Metadata m) (append_unrecognized bs (PS_XXX m)).
Definition PbSnapshot_Unmarshal : bytes → PbSnapshot → res (PbSnapshot * option PbErr) :=
  unmarshal_with PbSnapshot_fields PbSnapshot_keep.

(** Assignments to the fields of a message. *)
Definition PM_set_Type v m := mkPbMessage v (PM_To m) (PM_From m) (PM_Term m) (PM_LogTerm m) (PM_Index m)
  (PM_Entries m) (PM_Commit m) (PM_Snapshot m) (PM_Reject m) (PM_RejectHint m) (PM_Context m) (PM_XXX m).
Definition PM_set_To v m := mkPbMessage (PM_Type m) v (PM_From m) (PM_Term m) (PM_LogTerm m) (PM_Index m)
  (PM_Entries m) (PM_Commit m) (PM_Snapshot m) (PM_Reject m) (PM_RejectHint m) (PM_Context m) (PM_XXX m).
Definition PM_set_From v m := mkPbMessage (PM_Type m) (PM_To m) v (PM_Term m) (PM_LogTerm m) (PM_Index m)
  (PM_Entries m) (PM_Commit m) (PM_Snapshot m) (PM_Reject m) (PM_RejectHint m) (PM_Context m) (PM_XXX m).
Definition PM_set_Term v m := mkPbMessage (PM_Type m) (PM_To m) (PM_From m) v (PM_LogTerm m) (PM_Index m)
  (PM_Entries m) (PM_Commit m) (PM_Snapshot m) (PM_Reject m) (PM_RejectHint m) (PM_Context m) (PM_XXX m).
Definition PM_set_LogTerm v m := mkPbMessage (PM_Type m) (PM_To m) (PM_From m) (PM_Term m) v (PM_Index m)
  (PM_Entries m) (PM_Commit m) (PM_Snapshot m) (PM_Reject m) (PM_RejectHint m) (PM_Context m) (PM_XXX m).
Definition PM_set_Index v m := mkPbMessage (PM_Type m) (PM_To m) (PM_From m) (PM_Term m) (PM_LogTerm m) v
  (PM_Entries m) (PM_Commit m) (PM_Snapshot m) (PM_Reject m) (PM_RejectHint m) (PM_Context m) (PM_XXX m).
Definition PM_add_Entry e m := mkPbMessage (PM_Type m) (PM_To m) (PM_From m) (PM_Term m) (PM_LogTerm m) (PM_Index m)
  (PM_Entries m ++ [e]) (PM_Commit m) (PM_Snapshot m) (PM_Reject m) (PM_RejectHint m) (PM_Context m) (PM_XXX m).
Definition PM_set_Commit v m := mkPbMessage (PM_Type m) (PM_To m) (PM_From m) (PM_Term m) (PM_LogTerm m) (PM_Index m)
  (PM_Entries m) v (PM_Snapshot m) (PM_Reject m) (PM_RejectHint m) (PM_Context m) (PM_XXX m).
Definition PM_set_Snapshot v m := mkPbMessage (PM_Type m) (PM_To m) (PM_From m) (PM_Term m) (PM_LogTerm m) (PM_Index m)
  (PM_Entries m) (PM_Commit m) v (PM_Reject m) (PM_RejectHint m) (PM_Context m) (PM_XXX m).
Definition PM_set_Reject v m := mkPbMessage (PM_Type m) (PM_To m) (PM_From m) (PM_Term m) (PM_LogTerm m) (PM_Index m)
  (PM_Entries m) (PM_Commit m) (PM_Snapshot m) v (PM_RejectHint m) (PM_Context m) (PM_XXX m).
Definition PM_set_RejectHint v m := mkPbMessage (PM_Type m) (PM_To m) (PM_From m) (PM_Term m) (PM_LogTerm m) (PM_Index m)
  (PM_Entries m) (PM_Commit m) (PM_Snapshot m) (PM_Reject m) v (PM_Context m) (PM_XXX m).
Definition PM_set_Context v m := mkPbMessage (PM_Type m) (PM_To m) (PM_From m) (PM_Term m) (PM_LogTerm m) (PM_Index m)
  (PM_Entries m) (PM_Commit m) (PM_Snapshot m) (PM_Reject m) (PM_RejectHint m) v (PM_XXX m).

Definition PbMessage_fields (fieldNum : Z) : option (field PbMessage) :=
  match fieldNum with
  | 1 => Some (field_uint 32 wrap32 PM_set_Type)
  | 2 => Some (field_uint 64 uint64 PM_set_To)
  | 3 => Some (field_uint 64 uint64 PM_set_From)
  | 4 => Some (field_uint 64 uint64 PM_set_Term)
  | 5 => Some (field_uint 64 uint64 PM_set_LogTerm)
  | 6 => Some (field_uint 64 uint64 PM_set_Index)
  | 7 => Some (field_msg PbEntry_Unmarshal (λ _, PbEntry_Reset) PM_add_Entry)
  | 8 => Some (field_uint 64 uint64 PM_set_Commit)
  | 9 => Some (field_msg PbSnapshot_Unmarshal PM_Snapshot PM_set_Snapshot)
  | 10 => Some (field_var (λ v, PM_set_Reject (negb (wrap64 v =? 0))))
  | 11 => Some (field_uint 64 uint64 PM_set_RejectHint)
  | 12 => Some (field_bytes PM_set_Context)
  | _ => None
  end.
Definition PbMessage_keep (bs : bytes) (m : PbMessage) : PbMessage :=
  mkPbMessage (PM_Type m) (PM_To m) (PM_From m) (PM_Term m) (PM_LogTerm m) (PM_Index m) (PM_Entries m)
    (PM_Commit m) (PM_Snapshot m) (PM_Reject m) (PM_RejectHint m) (PM_Context m) (append_unrecognized bs (PM_XXX m)).
Definition PbMessage_Unmarshal : bytes → PbMessage → res (PbMessage * option PbErr) :=
  unmarshal_with PbMessage_fields PbMessage_keep.

Definition PbHardState_fields (fieldNum : Z) : option (field PbHardState) :=
  match fieldNum with
  | 1 => Some (field_uint 64 uint64 (λ v m, mkPbHardState v (PH_Vote m) (PH_Commit m) (PH_XXX m)))
  | 2 => Some (field_uint 64 uint64 (λ v m, mkPbHardState (PH_Term m) v (PH_Commit m) (PH_XXX m)))
  | 3 => Some (field_uint 64 uint64 (λ v m, mkPbHardState (PH_Term m) (PH_Vote m) v (PH_XXX m)))
  | _ => None
  end.
Definition PbHardState_keep (bs : bytes) (m : PbHardState) : PbHardState :=
  mkPbHardState (PH_Term m) (PH_Vote m) (PH_Commit m) (append_unrecognized bs (PH_XXX m)).
Definition PbHardState_Unmarshal : bytes → PbHardState → res (PbHardState * option PbErr) :=
  unmarshal_with PbHardState_fields PbHardState_keep.

Definition PbConfChange_fields (fieldNum : Z) : option (field PbConfChange) :=
  match fieldNum with
  | 1 => Some (field_uint 64 uint64 (λ v m, mkPbConfChange v (PC_Type m) (PC_NodeID m) (PC_Context m) (PC_XXX m)))
  | 2 => Some (field_uint 32 wrap32 (λ v m, mkPbConfChange (PC_ID m) v (PC_NodeID m) (PC_Context m) (PC_XXX m)))
  | 3 => Some (field_uint 64 uint64 (λ v m, mkPbConfChange (PC_ID m) (PC_Type m) v (PC_Context m) (PC_XXX m)))
  | 4 => Some (field_bytes (λ d m, mkPbConfChange (PC_ID m) (PC_Type m) (PC_NodeID m) d (PC_XXX m)))
  | _ => None
  end.
Definition PbConfChange_keep (bs : bytes) (m : PbConfChange) : PbConfChange :=
  mkPbConfChange (PC_ID m) (PC_Type m) (PC_NodeID m) (PC_Context m) (append_unrecognized bs (PC_XXX m)).
Definition PbConfChange_Unmarshal : bytes → PbConfChange → res (PbConfChange * option PbErr) :=
  unmarshal_with PbConfChange_fields PbConfChange_keep.
