(* ===== verification/RaftPbTheorems.v ===== *)
(** * Encoding and decoding raft messages

    [emits w bs]: the writer [w] writes the bytes [bs] into a buffer that has room
    for them.  Each [MarshalTo] emits the reference encoding of its message, which
    has [Size] bytes, so [Marshal] never runs out of its buffer
    ([PbMessage_marshal]).  [reads]: the loop of [Unmarshal] reads an encoded part of
    a message; so decoding gives back every message ([message_roundtrip] and the
    lemmas for the other types).  The decoders end on all data
    ([unmarshal_terminates]), but a crafted length makes them panic
    ([crafted_length_panics]). *)
From S2P Require Import Prelude GoRt EtcdStorage RaftPb.
Open Scope Z_scope.

(** ** The reference encoding *)

Fixpoint enc_loop (fuel : nat) (v : Z) : bytes :=
  match fuel with
  | O => []
  | S fuel' => if 128 <=? v then Z.lor (Z.land v 127) 128 :: enc_loop fuel' (Z.shiftr v 7) else [v]
  end.
Definition enc_varint (v : Z) : bytes := enc_loop 10 (u64 v).

Definition enc_uint (tag v : Z) : bytes := tag :: enc_varint v.
Definition enc_bytes (tag : Z) (o : option bytes) : bytes :=
  match o with Some bs => tag :: enc_varint (go_len bs) ++ bs | None => [] end.
Definition enc_msg (tag : Z) (bs : bytes) : bytes := tag :: enc_varint (go_len bs) ++ bs.

Definition enc_PbEntry (m : PbEntry) : bytes :=
  enc_uint 8 (PE_Type m) ++ enc_uint 16 (PE_Term m) ++ enc_uint 24 (PE_Index m) ++
  enc_bytes 34 (PE_Data m) ++ default [] (PE_XXX m).
Definition enc_PbConfState (m : PbConfState) : bytes :=
  concat (map (enc_uint 8) (PCS_Nodes m)) ++ default [] (PCS_XXX m).
Definition enc_PbSnapshotMetadata (m : PbSnapshotMetadata) : bytes :=
  enc_msg 10 (enc_PbConfState (PSM_ConfState m)) ++ enc_uint 16 (PSM_Index m) ++
  enc_uint 24 (PSM_Term m) ++ default [] (PSM_XXX m).
Definition enc_PbSnapshot (m : PbSnapshot) : bytes :=
  enc_bytes 10 (PS_Data m) ++ enc_msg 18 (enc_PbSnapshotMetadata (PS_Metadata m)) ++ default [] (PS_XXX m).
Definition enc_PbMessage (m : PbMessage) : bytes :=
  enc_uint 8 (PM_Type m) ++ enc_uint 16 (PM_To m) ++ enc_uint 24 (PM_From m) ++
  enc_uint 32 (PM_Term m) ++ enc_uint 40 (PM_LogTerm m) ++ enc_uint 48 (PM_Index m) ++
  concat (map (λ e, enc_msg 58 (enc_PbEntry e)) (PM_Entries m)) ++ enc_uint 64 (PM_Commit m) ++
  enc_msg 74 (enc_PbSnapshot (PM_Snapshot m)) ++ [80] ++ [if PM_Reject m then 1 else 0] ++
  enc_uint 88 (PM_RejectHint m) ++ enc_bytes 98 (PM_Context m) ++ default [] (PM_XXX m).
Definition enc_PbHardState (m : PbHardState) : bytes :=
  enc_uint 8 (PH_Term m) ++ enc_uint 16 (PH_Vote m) ++ enc_uint 24 (PH_Commit m) ++ default [] (PH_XXX m).
Definition enc_PbConfChange (m : PbConfChange) : bytes :=
  enc_uint 8 (PC_ID m) ++ enc_uint 16 (PC_Type m) ++ enc_uint 24 (PC_NodeID m) ++
  enc_bytes 34 (PC_Context m) ++ default [] (PC_XXX m).

(** ** Writers *)

Definition emits (w : Writer) (bs : bytes) : Prop :=
  ∀ pre rest, (length bs ≤ length rest)%nat →
    w (pre ++ rest, go_len pre) = Ok (tt, (pre ++ bs ++ drop (length bs) rest, go_len (pre ++ bs))).

Lemma go_len_app {A} (l l' : list A) : go_len (l ++ l') = go_len l + go_len l'.
Proof. unfold go_len. rewrite length_app. lia. Qed.
Lemma go_len_S {A} (x : A) l : go_len (x :: l) = 1 + go_len l.
Proof. unfold go_len. simpl. lia. Qed.
Lemma go_len_nonneg {A} (l : list A) : 0 ≤ go_len l.
Proof. unfold go_len. lia. Qed.

Lemma emits_bind w w' bs bs' : emits w bs → emits w' bs' → emits (w ;; w') (bs ++ bs').
Proof.
  intros Hw Hw' pre rest Hlen. rewrite length_app in Hlen. unfold bind. rewrite Hw by lia.
  rewrite (app_assoc pre), Hw' by (rewrite length_drop; lia).
  rewrite drop_drop, length_app. by rewrite <- !app_assoc.
Qed.

Lemma emits_nil : emits (ret tt) [].
Proof. intros pre rest _. by rewrite app_nil_r. Qed.

Lemma go_set_app (pre rest : bytes) b x :
  go_set (pre ++ x :: rest) (go_len pre) b = Some ((pre ++ [b]) ++ rest).
Proof.
  unfold go_set. rewrite go_len_app, go_len_S. pose proof (go_len_nonneg pre). pose proof (go_len_nonneg rest).
  rewrite (proj2 (Z.leb_le _ _)), (proj2 (Z.ltb_lt _ _)) by lia. simpl. unfold go_len. rewrite Nat2Z.id.
  f_equal. rewrite <- app_assoc. rewrite insert_app_r_alt, Nat.sub_diag by lia. done.
Qed.

Lemma emits_byte b : emits (put_byte b) [b].
Proof.
  intros pre [|x rest] Hlen; simpl in Hlen; [lia|]. unfold put_byte. rewrite go_set_app.
  rewrite go_len_app. simpl. rewrite <- app_assoc. by rewrite drop_0.
Qed.

Lemma encodeVarint_loop_spec fuel pre rest v :
  0 ≤ v < 2 ^ (7 * Z.of_nat fuel) → (0 < fuel)%nat → (length (enc_loop fuel v) ≤ length rest)%nat →
  encodeVarint_loop fuel (pre ++ rest) (go_len pre) v =
    Ok (pre ++ enc_loop fuel v ++ drop (length (enc_loop fuel v)) rest, go_len (pre ++ enc_loop fuel v)).
Proof.
  revert pre rest v. induction fuel as [|fuel IH]; intros pre rest v Hv Hf Hlen; [lia|].
  cbn [encodeVarint_loop enc_loop] in *. destruct (128 <=? v) eqn:H128; boolify.
  - destruct rest as [|x rest]; simpl in Hlen; [lia|]. rewrite go_set_app.
    replace (go_len pre + 1) with (go_len (pre ++ [Z.lor (Z.land v 127) 128])) by (by rewrite go_len_app).
    destruct fuel as [|fuel]; [simpl in Hv; lia|].
    rewrite IH; [|split; [apply Z.shiftr_nonneg; lia|]|lia|lia].
    + simpl. by rewrite <- !app_assoc.
    + rewrite Z.shiftr_div_pow2 by lia. apply Z.div_lt_upper_bound; [lia|]. rewrite <- Z.pow_add_r by lia.
      replace (7 + 7 * Z.of_nat (S fuel)) with (7 * Z.of_nat (S (S fuel))) by lia. lia.
  - destruct rest as [|x rest]; simpl in Hlen; [lia|]. rewrite go_set_app. simpl. rewrite drop_0.
    rewrite <- app_assoc, go_len_app. done.
Qed.

Lemma u64_range v : 0 ≤ u64 v < 2 ^ 64.
Proof. apply Z.mod_pos_bound. lia. Qed.

Lemma emits_varint v : emits (put_varint v) (enc_varint v).
Proof.
  intros pre rest Hlen. unfold put_varint, encodeVarintRaft. pose proof (u64_range v).
  rewrite encodeVarint_loop_spec; [done| |lia|done]. split; [lia|]. change (7 * Z.of_nat 10) with 70. lia.
Qed.

Lemma slice_tail (pre rest : bytes) : go_slice (pre ++ rest) (go_len pre) (go_len (pre ++ rest)) = Some rest.
Proof.
  unfold go_slice. rewrite go_len_app. pose proof (go_len_nonneg pre). pose proof (go_len_nonneg rest).
  rewrite !(proj2 (Z.leb_le _ _)) by lia. simpl. rewrite <- go_len_app. unfold go_len.
  rewrite !Nat2Z.id, firstn_all. by rewrite drop_app_length.
Qed.

Lemma take_go_len (pre rest : bytes) : take (Z.to_nat (go_len pre)) (pre ++ rest) = pre.
Proof. unfold go_len. rewrite Nat2Z.id. by rewrite take_app_length. Qed.

Lemma emits_copy bs : emits (put_copy bs) bs.
Proof.
  intros pre rest Hlen. unfold put_copy. rewrite slice_tail, take_go_len.
  rewrite Nat.min_r by done. rewrite take_ge by done. by rewrite go_len_app.
Qed.

Lemma emits_sub w bs : emits w bs → emits (put_sub w) bs.
Proof.
  intros Hw pre rest Hlen. unfold put_sub. rewrite slice_tail, take_go_len.
  pose proof (Hw [] rest Hlen) as H. simpl in H. change (go_len []) with 0 in H. rewrite H.
  by rewrite go_len_app.
Qed.

Lemma emits_uint tag v : emits (put_uint tag v) (enc_uint tag v).
Proof. apply (emits_bind _ _ [tag]); [apply emits_byte|apply emits_varint]. Qed.

Lemma emits_bytes tag o : emits (put_bytes tag o) (enc_bytes tag o).
Proof.
  destruct o as [bs|]; [|apply emits_nil]. apply (emits_bind _ _ [tag]); [apply emits_byte|].
  apply emits_bind; [apply emits_varint|apply emits_copy].
Qed.

Lemma emits_msg tag size w bs : size = go_len bs → emits w bs → emits (put_msg tag size w) (enc_msg tag bs).
Proof.
  intros -> Hw. apply (emits_bind _ _ [tag]); [apply emits_byte|].
  apply emits_bind; [apply emits_varint|by apply emits_sub].
Qed.

Lemma emits_unrecognized o : emits (put_unrecognized o) (default [] o).
Proof. destruct o; [apply emits_copy|apply emits_nil]. Qed.

Lemma emits_for_range {A} (l : list A) f enc :
  (∀ x, x ∈ l → emits (f x) (enc x)) → emits (for_range l f) (concat (map enc l)).
Proof.
  induction l as [|x l IH]; intros H; [apply emits_nil|]. simpl.
  apply emits_bind; [apply H; left|]. apply IH. intros y Hy. apply H. by right.
Qed.

Create HintDb emits discriminated.
#[export] Hint Resolve emits_bind emits_uint emits_bytes emits_msg emits_unrecognized emits_byte : emits.

(** ** Sizes *)

Lemma shiftr7_zero v : 0 ≤ v → (Z.shiftr v 7 =? 0) = negb (128 <=? v).
Proof.
  intros Hv. rewrite Z.shiftr_div_pow2 by lia. change (2 ^ 7) with 128. apply eq_bool_prop_intro.
  rewrite !Is_true_true, negb_true_iff, Z.leb_gt, Z.eqb_eq. rewrite Z.div_small_iff by lia. lia.
Qed.

Lemma enc_loop_size fuel v : 0 ≤ v → go_len (enc_loop fuel v) = sov_loop fuel v.
Proof.
  revert v. induction fuel as [|fuel IH]; intros v Hv; [done|]. cbn [enc_loop sov_loop].
  rewrite shiftr7_zero by done. destruct (128 <=? v) eqn:H; simpl; [|done].
  rewrite go_len_S, IH; [done|]. apply Z.shiftr_nonneg. lia.
Qed.

Lemma enc_varint_size v : go_len (enc_varint v) = sovRaft v.
Proof. apply enc_loop_size, u64_range. Qed.

Lemma enc_uint_size tag v : go_len (enc_uint tag v) = 1 + sovRaft v.
Proof. unfold enc_uint. by rewrite go_len_S, enc_varint_size. Qed.

Lemma enc_bytes_size tag o : go_len (enc_bytes tag o) = size_bytes o.
Proof. destruct o as [bs|]; [|done]. simpl. rewrite go_len_S, go_len_app, enc_varint_size. lia. Qed.

Lemma enc_msg_size tag bs : go_len (enc_msg tag bs) = size_msg (go_len bs).
Proof. unfold enc_msg, size_msg. rewrite go_len_S, go_len_app, enc_varint_size. lia. Qed.

Lemma unrecognized_size o : go_len (default [] o) = size_unrecognized o.
Proof. by destruct o. Qed.

Lemma concat_size {A} (f : A → bytes) (size : A → Z) l :
  (∀ x, go_len (f x) = size x) → go_len (concat (map f l)) = foldr (λ x n, size x + n) 0 l.
Proof. intros H. induction l as [|x l IH]; [done|]. simpl. by rewrite go_len_app, H, IH. Qed.

Create Rewrite HintDb sizes.
#[local] Hint Rewrite @go_len_app enc_uint_size enc_bytes_size enc_msg_size unrecognized_size : sizes.

Lemma PbEntry_size m : go_len (enc_PbEntry m) = PbEntry_Size m.
Proof. unfold enc_PbEntry, PbEntry_Size. autorewrite with sizes. lia. Qed.
Lemma PbConfState_size m : go_len (enc_PbConfState m) = PbConfState_Size m.
Proof.
  unfold enc_PbConfState, PbConfState_Size. autorewrite with sizes.
  by rewrite (concat_size _ (λ e, 1 + sovRaft e)) by (intros; apply enc_uint_size).
Qed.
#[local] Hint Rewrite PbEntry_size PbConfState_size : sizes.
Lemma PbSnapshotMetadata_size m : go_len (enc_PbSnapshotMetadata m) = PbSnapshotMetadata_Size m.
Proof. unfold enc_PbSnapshotMetadata, PbSnapshotMetadata_Size. autorewrite with sizes. lia. Qed.
#[local] Hint Rewrite PbSnapshotMetadata_size : sizes.
Lemma PbSnapshot_size m : go_len (enc_PbSnapshot m) = PbSnapshot_Size m.
Proof. unfold enc_PbSnapshot, PbSnapshot_Size. autorewrite with sizes. lia. Qed.
#[local] Hint Rewrite PbSnapshot_size : sizes.
Lemma PbMessage_size m : go_len (enc_PbMessage m) = PbMessage_Size m.
Proof.
  unfold enc_PbMessage, PbMessage_Size. autorewrite with sizes.
  rewrite (concat_size _ (λ e, size_msg (PbEntry_Size e)))
    by (intros; by rewrite enc_msg_size, PbEntry_size).
  unfold go_len. simpl. lia.
Qed.
Lemma PbHardState_size m : go_len (enc_PbHardState m) = PbHardState_Size m.
Proof. unfold enc_PbHardState, PbHardState_Size. autorewrite with sizes. lia. Qed.
Lemma PbConfChange_size m : go_len (enc_PbConfChange m) = PbConfChange_Size m.
Proof. unfold enc_PbConfChange, PbConfChange_Size. autorewrite with sizes. lia. Qed.

(** ** [Marshal] is the reference encoding *)

Lemma marshal_emits size w bs : emits w bs → size = go_len bs → marshal_with size w = Ok bs.
Proof.
  intros Hw ->. unfold marshal_with, go_make, go_len at 1. rewrite Nat2Z.id.
  pose proof (Hw [] (replicate (length bs) 0)) as H. simpl in H. rewrite length_replicate in H.
  change (go_len []) with 0 in H. rewrite H by done. rewrite drop_ge by (by rewrite length_replicate).
  rewrite app_nil_r. unfold go_slice. rewrite !(proj2 (Z.leb_le _ _)) by (pose proof (go_len_nonneg bs); lia).
  simpl. rewrite drop_0. unfold go_len. by rewrite Nat2Z.id, firstn_all.
Qed.

Lemma PbEntry_emits m : emits (PbEntry_MarshalTo m) (enc_PbEntry m).
Proof. unfold PbEntry_MarshalTo, enc_PbEntry. auto with emits. Qed.
Lemma PbConfState_emits m : emits (PbConfState_MarshalTo m) (enc_PbConfState m).
Proof.
  apply emits_bind; [|apply emits_unrecognized]. apply emits_for_range. intros x _. apply emits_uint.
Qed.
#[local] Hint Resolve PbEntry_emits PbConfState_emits : emits.
Lemma PbSnapshotMetadata_emits m : emits (PbSnapshotMetadata_MarshalTo m) (enc_PbSnapshotMetadata m).
Proof.
  apply emits_bind; [|auto with emits]. apply emits_msg; [by rewrite PbConfState_size|auto with emits].
Qed.
#[local] Hint Resolve PbSnapshotMetadata_emits : emits.
Lemma PbSnapshot_emits m : emits (PbSnapshot_MarshalTo m) (enc_PbSnapshot m).
Proof.
  apply emits_bind; [auto with emits|]. apply emits_bind; [|auto with emits].
  apply emits_msg; [by rewrite PbSnapshotMetadata_size|auto with emits].
Qed.
#[local] Hint Resolve PbSnapshot_emits : emits.
Lemma PbMessage_emits m : emits (PbMessage_MarshalTo m) (enc_PbMessage m).
Proof.
  unfold PbMessage_MarshalTo, enc_PbMessage. do 6 (apply emits_bind; [auto with emits|]).
  apply emits_bind; [apply emits_for_range; intros e _; apply emits_msg; [by rewrite PbEntry_size|auto with emits]|].
  apply emits_bind; [auto with emits|].
  apply emits_bind; [apply emits_msg; [by rewrite PbSnapshot_size|auto with emits]|]. auto 6 with emits.
Qed.
Lemma PbHardState_emits m : emits (PbHardState_MarshalTo m) (enc_PbHardState m).
Proof. unfold PbHardState_MarshalTo, enc_PbHardState. auto with emits. Qed.
Lemma PbConfChange_emits m : emits (PbConfChange_MarshalTo m) (enc_PbConfChange m).
Proof. unfold PbConfChange_MarshalTo, enc_PbConfChange. auto with emits. Qed.

Lemma PbEntry_marshal m : PbEntry_Marshal m = Ok (enc_PbEntry m).
Proof. apply marshal_emits; [apply PbEntry_emits|by rewrite PbEntry_size]. Qed.
Lemma PbConfState_marshal m : PbConfState_Marshal m = Ok (enc_PbConfState m).
Proof. apply marshal_emits; [apply PbConfState_emits|by rewrite PbConfState_size]. Qed.
Lemma PbSnapshotMetadata_marshal m : PbSnapshotMetadata_Marshal m = Ok (enc_PbSnapshotMetadata m).
Proof. apply marshal_emits; [apply PbSnapshotMetadata_emits|by rewrite PbSnapshotMetadata_size]. Qed.
Lemma PbSnapshot_marshal m : PbSnapshot_Marshal m = Ok (enc_PbSnapshot m).
Proof. apply marshal_emits; [apply PbSnapshot_emits|by rewrite PbSnapshot_size]. Qed.
Lemma PbHardState_marshal m : PbHardState_Marshal m = Ok (enc_PbHardState m).
Proof. apply marshal_emits; [apply PbHardState_emits|by rewrite PbHardState_size]. Qed.
Lemma PbConfChange_marshal m : PbConfChange_Marshal m = Ok (enc_PbConfChange m).
Proof. apply marshal_emits; [apply PbConfChange_emits|by rewrite PbConfChange_size]. Qed.
Lemma PbMessage_marshal m : PbMessage_Marshal m = Ok (enc_PbMessage m).
Proof. apply marshal_emits; [apply PbMessage_emits|by rewrite PbMessage_size]. Qed.

(** ** Reading varints *)

Lemma testbit_mod_pow2 a n k : 0 ≤ n → Z.testbit (a mod 2 ^ n) k = bool_decide (k < n) && Z.testbit a k.
Proof.
  intros Hn. case_bool_decide as Hk.
  - destruct (Z.neg_nonneg_cases k); [by rewrite !Z.testbit_neg_r by lia|]. by apply Z.mod_pow2_bits_low.
  - rewrite Z.mod_pow2_bits_high by lia. done.
Qed.

(** A group of seven bits and the rest. *)
Lemma split_group v s w :
  0 ≤ s → 0 ≤ w →
  Z.lor (Z.shiftl (Z.land v 127) s mod 2 ^ w) (Z.shiftl (Z.shiftr v 7) (s + 7) mod 2 ^ w) = Z.shiftl v s mod 2 ^ w.
Proof.
  intros Hs Hw. apply Z.bits_inj'. intros k Hk. change 127 with (Z.ones 7).
  rewrite Z.lor_spec, !testbit_mod_pow2 by done. rewrite !Z.shiftl_spec by done. rewrite Z.land_spec.
  destruct (bool_decide (k < w)); [|done]. simpl. destruct (Z.neg_nonneg_cases (k - s)) as [Hn|Hn].
  { rewrite !(Z.testbit_neg_r _ (k - s)), (Z.testbit_neg_r _ (k - (s + 7))) by lia. done. }
  rewrite Z.testbit_ones by lia. rewrite (proj2 (Z.leb_le _ _) Hn). simpl. destruct (k - s <? 7) eqn:Hlt; boolify.
  - rewrite andb_true_r, (Z.testbit_neg_r _ (k - (s + 7))) by lia. by rewrite orb_false_r.
  - rewrite andb_false_r, Z.shiftr_spec by lia. simpl. f_equal. lia.
Qed.

Lemma group_byte v : 128 ≤ v → let b := Z.lor (Z.land v 127) 128 in Z.land b 127 = Z.land v 127 ∧ (b <? 128) = false.
Proof.
  intros Hv b. split.
  - unfold b. apply Z.bits_inj'. intros k Hk. change 127 with (Z.ones 7). change 128 with (2 ^ 7).
    rewrite !Z.land_spec, Z.lor_spec, Z.land_spec, Z.testbit_ones, Z.pow2_bits_eqb by lia.
    destruct (Z.eqb_spec 7 k) as [<-|]; [simpl; by rewrite !andb_false_r|]. rewrite orb_false_r.
    rewrite <- andb_assoc. by rewrite andb_diag.
  - apply Z.ltb_ge. unfold b. destruct (Z.le_gt_cases 128 (Z.lor (Z.land v 127) 128)) as [?|Hlt]; [done|].
    exfalso. assert (Z.testbit (Z.lor (Z.land v 127) 128) 7 = true) as Ht.
    { rewrite Z.lor_spec. by rewrite orb_true_r. }
    rewrite (Z.bits_above_log2 _ 7) in Ht; [done| |].
    + apply Z.lor_nonneg. split; [apply Z.land_nonneg|]; lia.
    + destruct (Z.eq_dec (Z.lor (Z.land v 127) 128) 0) as [->|]; [done|]. apply Z.log2_lt_pow2; [|done].
      assert (0 ≤ Z.lor (Z.land v 127) 128); [|lia]. apply Z.lor_nonneg. split; [apply Z.land_nonneg|]; lia.
Qed.

Lemma go_at_app (pre rest : bytes) b : go_at (pre ++ b :: rest) (go_len pre) = Some b.
Proof.
  unfold go_at. rewrite (proj2 (Z.ltb_ge _ _)) by apply go_len_nonneg. unfold go_len. rewrite Nat2Z.id.
  by rewrite list_lookup_middle.
Qed.

Lemma enc_loop_cons k v : (0 < k)%nat → ∃ b bs, enc_loop k v = b :: bs.
Proof. destruct k as [|k]; [lia|]. intros _. simpl. destruct (128 <=? v); eauto. Qed.

Lemma varint_loop_spec w k v shift acc pre rest :
  0 ≤ w → 0 ≤ shift → shift + 7 * Z.of_nat k = 70 → (0 < k)%nat → 0 ≤ v < 2 ^ (64 - shift) →
  varint_loop w (S k) (pre ++ enc_loop k v ++ rest) (go_len pre) shift acc =
    Ok (Z.lor acc (Z.shiftl v shift mod 2 ^ w), inl (go_len (pre ++ enc_loop k v))).
Proof.
  intros Hw. revert v shift acc pre. induction k as [|k IH]; intros v shift acc pre Hs Hsk Hk Hv; [lia|].
  assert (shift < 64) by lia. remember (S k) as k1 eqn:Hk1. cbn [varint_loop].
  rewrite (proj2 (Z.leb_gt _ _)) by done. subst k1. cbn [enc_loop].
  destruct (128 <=? v) eqn:H128; boolify; cbn [app].
  - rewrite (proj2 (Z.leb_gt _ _)) by (rewrite !go_len_app, go_len_S; pose proof (go_len_nonneg (enc_loop k (Z.shiftr v 7) ++ rest)); lia).
    rewrite go_at_app. destruct (group_byte v H128) as [-> ->].
    assert (shift ≤ 56).
    { destruct (Z.le_gt_cases shift 56); [done|]. assert (2 ^ (64 - shift) ≤ 2 ^ 7) by (apply Z.pow_le_mono_r; lia). lia. }
    set (b := Z.lor (Z.land v 127) 128).
    replace (pre ++ b :: enc_loop k (Z.shiftr v 7) ++ rest) with ((pre ++ [b]) ++ enc_loop k (Z.shiftr v 7) ++ rest)
      by (by rewrite <- app_assoc).
    replace (go_len pre + 1) with (go_len (pre ++ [b])) by (by rewrite go_len_app).
    rewrite IH; [|lia|lia|lia|].
    + f_equal. f_equal; [|by rewrite <- app_assoc]. rewrite <- Z.lor_assoc. f_equal. by apply split_group.
    + split; [apply Z.shiftr_nonneg; lia|]. rewrite Z.shiftr_div_pow2 by lia.
      apply Z.div_lt_upper_bound; [lia|]. rewrite <- Z.pow_add_r by lia. replace (7 + (64 - (shift + 7))) with (64 - shift) by lia. lia.
  - rewrite (proj2 (Z.leb_gt _ _)) by (rewrite go_len_app, go_len_S; pose proof (go_len_nonneg rest); lia).
    rewrite go_at_app. change 127 with (Z.ones 7). rewrite Z.land_ones, (Z.mod_small v) by (change (2 ^ 7) with 128; lia).
    rewrite (proj2 (Z.ltb_lt _ _)) by done. by rewrite go_len_app.
Qed.

Lemma varint_spec w v pre rest :
  0 ≤ w → varint w (pre ++ enc_varint v ++ rest) (go_len pre) = Ok (u64 v mod 2 ^ w, inl (go_len (pre ++ enc_varint v))).
Proof.
  intros Hw. unfold varint, enc_varint. pose proof (u64_range v).
  rewrite varint_loop_spec by lia. by rewrite Z.lor_0_l, Z.shiftl_0_r.
Qed.

(** A single byte below 128 is its own varint. *)
Lemma varint_byte w b pre rest :
  0 ≤ b < 128 → 7 ≤ w → varint w (pre ++ b :: rest) (go_len pre) = Ok (b, inl (go_len (pre ++ [b]))).
Proof.
  intros Hb Hw. assert (enc_varint b = [b]) as He.
  { unfold enc_varint, u64. rewrite Z.mod_small by lia. cbn [enc_loop]. by rewrite (proj2 (Z.leb_gt _ _)) by lia. }
  pose proof (varint_spec w b pre rest ltac:(lia)) as H. rewrite He in H. simpl in H. rewrite H.
  unfold u64. assert (2 ^ 7 ≤ 2 ^ w) by (apply Z.pow_le_mono_r; lia). rewrite !Z.mod_small; [done|..]; try lia.
  rewrite Z.mod_small; lia.
Qed.

(** ** Reading fields *)

(** The case [f] of the [switch] reads [payload] and changes [m] to [m']. *)
Definition consumes {A} (f : field A) (wireType : Z) (payload : bytes) (m m' : A) : Prop :=
  ∀ pre rest, go_len (pre ++ payload ++ rest) < 2 ^ 62 →
    f wireType (pre ++ payload ++ rest) (go_len pre) m = Ok (m', inl (go_len (pre ++ payload))).

Lemma consumes_uint {A} w conv (set : Z → A → A) v m :
  0 ≤ w → consumes (field_uint w conv set) 0 (enc_varint v) m (set (conv (u64 v mod 2 ^ w)) m).
Proof. intros Hw pre rest _. unfold field_uint. simpl. by rewrite varint_spec. Qed.

Lemma consumes_var {A} (set : Z → A → A) v m :
  consumes (field_var set) 0 (enc_varint v) m (set (u64 v) m).
Proof.
  intros pre rest _. unfold field_var. simpl. rewrite varint_spec by lia. unfold u64. by rewrite Zmod_mod.
Qed.

Lemma slice_middle (pre bs rest : bytes) :
  go_slice (pre ++ bs ++ rest) (go_len pre) (go_len (pre ++ bs)) = Some bs.
Proof.
  unfold go_slice. rewrite !go_len_app. pose proof (go_len_nonneg pre). pose proof (go_len_nonneg bs).
  pose proof (go_len_nonneg rest). rewrite !(proj2 (Z.leb_le _ _)) by lia. simpl. f_equal.
  rewrite <- go_len_app. unfold go_len. rewrite !Nat2Z.id, app_assoc, take_app_length. by rewrite drop_app_length.
Qed.

Lemma consumes_len {A} (use : bytes → Z → A → reading A) bs m m' :
  (∀ post, use bs post m = Ok (m', inl post)) →
  consumes (field_len use) 2 (enc_varint (go_len bs) ++ bs) m m'.
Proof.
  intros Hu pre rest Hlen. unfold field_len. simpl. rewrite <- app_assoc, varint_spec by lia.
  rewrite !go_len_app in Hlen. pose proof (go_len_nonneg bs). pose proof (go_len_nonneg pre).
  pose proof (go_len_nonneg rest). pose proof (go_len_nonneg (enc_varint (go_len bs))).
  unfold u64. rewrite Zmod_mod, Z.mod_small by lia. rewrite wrap64_id by (unfold max_int; lia).
  rewrite (proj2 (Z.ltb_ge _ _)) by lia. rewrite <- go_len_app, <- app_assoc.
  rewrite wrap64_id by (unfold max_int; rewrite !go_len_app; lia).
  rewrite (proj2 (Z.ltb_ge _ _)) by (rewrite !go_len_app; lia).
  rewrite !app_assoc, <- app_assoc. rewrite slice_middle. by rewrite Hu.
Qed.

Lemma consumes_bytes {A} (set : option bytes → A → A) bs m :
  consumes (field_bytes set) 2 (enc_varint (go_len bs) ++ bs) m (set (Some bs) m).
Proof. by apply consumes_len. Qed.

Lemma consumes_msg {A B} unmarshal (get : A → B) set bs b m :
  unmarshal bs (get m) = Ok (b, None) →
  consumes (field_msg unmarshal get set) 2 (enc_varint (go_len bs) ++ bs) m (set b m).
Proof. intros H. apply consumes_len. intros post. by rewrite H. Qed.

Section reads.
Context {A : Type} (fields : Z → option (field A)) (keep : bytes → A → A).

(** The loop reads the bytes [bs] and changes [m] to [m']. *)
Definition reads (bs : bytes) (m m' : A) : Prop :=
  ∀ pre rest, go_len (pre ++ bs ++ rest) < 2 ^ 62 → ∃ k, (k ≤ length bs)%nat ∧ ∀ fuel,
    unmarshal_loop fields keep (k + fuel) (pre ++ bs ++ rest) (go_len pre) m =
    unmarshal_loop fields keep fuel (pre ++ bs ++ rest) (go_len (pre ++ bs)) m'.

Lemma reads_nil m : reads [] m m.
Proof. intros pre rest _. exists 0%nat. split; [done|]. intros fuel. by rewrite app_nil_r. Qed.

Lemma reads_app bs bs' m m1 m2 : reads bs m m1 → reads bs' m1 m2 → reads (bs ++ bs') m m2.
Proof.
  intros H H' pre rest Hlen. rewrite <- app_assoc in *. destruct (H pre (bs' ++ rest) Hlen) as (k & Hk & Hr).
  destruct (H' (pre ++ bs) rest) as (k' & Hk' & Hr'); [by rewrite <- app_assoc|].
  exists (k + k')%nat. rewrite length_app. split; [lia|]. intros fuel. rewrite <- Nat.add_assoc, Hr.
  specialize (Hr' fuel). rewrite <- !app_assoc in Hr'. exact Hr'.
Qed.

(** A field with a one-byte tag. *)
Lemma reads_field tag payload f m m' :
  0 < tag < 128 → (Z.land tag 7 =? 4) = false → (wrap32 (Z.shiftr tag 3) <=? 0) = false →
  fields (wrap32 (Z.shiftr tag 3)) = Some f → consumes f (Z.land tag 7) payload m m' →
  reads (tag :: payload) m m'.
Proof.
  intros Ht H4 H0 Hf Hc pre rest Hlen. exists 1%nat. split; [simpl; lia|]. intros fuel. cbn [Nat.add unmarshal_loop].
  pose proof (go_len_nonneg (payload ++ rest)).
  rewrite (proj2 (Z.ltb_lt _ _)) by (cbn [app]; rewrite go_len_app, go_len_S; lia).
  unfold unmarshal_field. cbn [app]. rewrite varint_byte by lia. rewrite H4, H0, Hf.
  pose proof (Hc (pre ++ [tag]) rest) as Hc'. rewrite <- !app_assoc in Hc'. cbn [app] in Hc'.
  by rewrite Hc'.
Qed.

Lemma unmarshal_reads bs m m' : reads bs m m' → go_len bs < 2 ^ 62 → unmarshal_with fields keep bs m = Ok (m', None).
Proof.
  intros H Hlen. destruct (H [] []) as (k & Hk & Hr); [by rewrite app_nil_r|]. rewrite app_nil_r in Hr.
  unfold unmarshal_with. replace (length bs) with (k + (length bs - k))%nat by lia.
  change 0 with (go_len (A := Z) []). rewrite Hr. simpl.
  destruct (length bs - k)%nat; simpl; by rewrite !Z.ltb_irrefl.
Qed.

Lemma reads_concat {B} (enc : B → bytes) (add : B → A → A) l m :
  (∀ x m, x ∈ l → reads (enc x) m (add x m)) → reads (concat (map enc l)) m (fold_left (λ m x, add x m) l m).
Proof.
  revert m. induction l as [|x l IH]; intros m H; simpl; [apply reads_nil|].
  eapply reads_app; [apply H; left|]. apply IH. intros y m' Hy. apply H. by right.
Qed.
End reads.

Definition is_uint64 (v : Z) : Prop := 0 ≤ v < 2 ^ 64.
Definition is_int32 (v : Z) : Prop := - 2 ^ 31 ≤ v < 2 ^ 31.

Lemma wrap32_u64 v : is_int32 v → wrap32 (u64 v mod 2 ^ 32) = v.
Proof.
  intros Hv. unfold wrap32, u64. rewrite Z.mod_mod_divide by (exists (2 ^ 32); reflexivity).
  rewrite Zplus_mod_idemp_l, Z.mod_small; unfold is_int32 in Hv; lia.
Qed.

Section read_fields.
Context {A : Type} (fields : Z → option (field A)) (keep : bytes → A → A) (tag : Z).
Local Abbreviation fieldNum := (wrap32 (Z.shiftr tag 3)).
Context (Ht : 0 < tag < 128) (H0 : (fieldNum <=? 0) = false).

Lemma reads_uint64 set v m :
  Z.land tag 7 = 0 → fields fieldNum = Some (field_uint 64 uint64 set) → is_uint64 v →
  reads fields keep (enc_uint tag v) m (set v m).
Proof using All.
  intros Hw Hf Hv. eapply reads_field; [done|by rewrite Hw|done|done|]. rewrite Hw.
  pose proof (consumes_uint 64 uint64 set v m ltac:(lia)) as Hc.
  unfold u64, uint64 in Hc. by rewrite Zmod_mod, Z.mod_small in Hc.
Qed.

Lemma reads_int32 set v m :
  Z.land tag 7 = 0 → fields fieldNum = Some (field_uint 32 wrap32 set) → is_int32 v →
  reads fields keep (enc_uint tag v) m (set v m).
Proof using All.
  intros Hw Hf Hv. eapply reads_field; [done|by rewrite Hw|done|done|]. rewrite Hw.
  pose proof (consumes_uint 32 wrap32 set v m ltac:(lia)) as Hc. by rewrite wrap32_u64 in Hc.
Qed.

Lemma reads_var set v m :
  Z.land tag 7 = 0 → fields fieldNum = Some (field_var set) → is_uint64 v →
  reads fields keep (enc_uint tag v) m (set v m).
Proof using All.
  intros Hw Hf Hv. eapply reads_field; [done|by rewrite Hw|done|done|]. rewrite Hw.
  pose proof (consumes_var set v m) as Hc. unfold u64 in Hc. by rewrite Z.mod_small in Hc.
Qed.

Lemma reads_bytes set o m :
  Z.land tag 7 = 2 → fields fieldNum = Some (field_bytes set) →
  reads fields keep (enc_bytes tag o) m (match o with Some bs => set (Some bs) m | None => m end).
Proof using All.
  intros Hw Hf. destruct o as [bs|]; [|apply reads_nil].
  eapply reads_field; [done|by rewrite Hw|done|done|]. rewrite Hw. apply consumes_bytes.
Qed.

Lemma reads_msg {B} unmarshal (get : A → B) set bs b m :
  Z.land tag 7 = 2 → fields fieldNum = Some (field_msg unmarshal get set) → unmarshal bs (get m) = Ok (b, None) →
  reads fields keep (enc_msg tag bs) m (set b m).
Proof using All.
  intros Hw Hf Hu. eapply reads_field; [done|by rewrite Hw|done|done|]. rewrite Hw. by apply consumes_msg.
Qed.
End read_fields.

(** ** Round trips *)

(** The fields have their types, and there are no unknown fields. *)
Definition wf_PbEntry (m : PbEntry) : Prop :=
  is_int32 (PE_Type m) ∧ is_uint64 (PE_Term m) ∧ is_uint64 (PE_Index m) ∧ PE_XXX m = None.
Definition wf_PbConfState (m : PbConfState) : Prop := Forall is_uint64 (PCS_Nodes m) ∧ PCS_XXX m = None.
Definition wf_PbSnapshotMetadata (m : PbSnapshotMetadata) : Prop :=
  wf_PbConfState (PSM_ConfState m) ∧ is_uint64 (PSM_Index m) ∧ is_uint64 (PSM_Term m) ∧ PSM_XXX m = None.
Definition wf_PbSnapshot (m : PbSnapshot) : Prop := wf_PbSnapshotMetadata (PS_Metadata m) ∧ PS_XXX m = None.
Definition wf_PbMessage (m : PbMessage) : Prop :=
  is_int32 (PM_Type m) ∧ is_uint64 (PM_To m) ∧ is_uint64 (PM_From m) ∧ is_uint64 (PM_Term m) ∧
  is_uint64 (PM_LogTerm m) ∧ is_uint64 (PM_Index m) ∧ Forall wf_PbEntry (PM_Entries m) ∧
  is_uint64 (PM_Commit m) ∧ wf_PbSnapshot (PM_Snapshot m) ∧ is_uint64 (PM_RejectHint m) ∧ PM_XXX m = None.
Definition wf_PbHardState (m : PbHardState) : Prop :=
  is_uint64 (PH_Term m) ∧ is_uint64 (PH_Vote m) ∧ is_uint64 (PH_Commit m) ∧ PH_XXX m = None.
Definition wf_PbConfChange (m : PbConfChange) : Prop :=
  is_uint64 (PC_ID m) ∧ is_int32 (PC_Type m) ∧ is_uint64 (PC_NodeID m) ∧ PC_XXX m = None.

(** Reads the next field with the lemma of its kind, and the last one. *)
Ltac read_next lem := eapply reads_app; [eapply lem; solve [lia|reflexivity|eassumption]|].
Lemma reads_last {A} fields keep bs (m m1 m2 : A) : reads fields keep bs m m1 → m1 = m2 → reads fields keep (bs ++ []) m m2.
Proof. intros H <-. by rewrite app_nil_r. Qed.
Ltac read_last lem := eapply reads_last; [eapply lem; solve [lia|reflexivity|eassumption]|].

Lemma PbEntry_reads m : wf_PbEntry m → reads PbEntry_fields PbEntry_keep (enc_PbEntry m) PbEntry_Reset m.
Proof.
  intros (Ht & Hte & Hi & Hx). unfold enc_PbEntry. rewrite Hx.
  read_next @reads_int32. read_next @reads_uint64. read_next @reads_uint64. read_last @reads_bytes.
  destruct m as [? ? ? [|] ?]; simpl in *; by subst.
Qed.

Lemma PbEntry_decode m :
  wf_PbEntry m → go_len (enc_PbEntry m) < 2 ^ 62 → PbEntry_Unmarshal (enc_PbEntry m) PbEntry_Reset = Ok (m, None).
Proof. intros Hw Hl. by apply unmarshal_reads; [apply PbEntry_reads|]. Qed.

Lemma PbHardState_decode m :
  wf_PbHardState m → go_len (enc_PbHardState m) < 2 ^ 62 →
  PbHardState_Unmarshal (enc_PbHardState m) PbHardState_Reset = Ok (m, None).
Proof.
  intros (Ht & Hv & Hc & Hx) Hl. apply unmarshal_reads; [|done]. unfold enc_PbHardState. rewrite Hx.
  read_next @reads_uint64. read_next @reads_uint64. read_last @reads_uint64. destruct m; simpl in *; by subst.
Qed.

Lemma PbConfChange_decode m :
  wf_PbConfChange m → go_len (enc_PbConfChange m) < 2 ^ 62 →
  PbConfChange_Unmarshal (enc_PbConfChange m) PbConfChange_Reset = Ok (m, None).
Proof.
  intros (Hi & Ht & Hn & Hx) Hl. apply unmarshal_reads; [|done]. unfold enc_PbConfChange. rewrite Hx.
  read_next @reads_uint64. read_next @reads_int32. read_next @reads_uint64. read_last @reads_bytes.
  destruct m as [? ? ? [|] ?]; simpl in *; by subst.
Qed.

Lemma PbConfState_decode m :
  wf_PbConfState m → go_len (enc_PbConfState m) < 2 ^ 62 →
  PbConfState_Unmarshal (enc_PbConfState m) PbConfState_Reset = Ok (m, None).
Proof.
  intros [Hn Hx] Hl. apply unmarshal_reads; [|done]. unfold enc_PbConfState. rewrite Hx. eapply reads_last.
  - apply (reads_concat _ _ (enc_uint 8) (λ v m, mkPbConfState (PCS_Nodes m ++ [v]) (PCS_XXX m))).
    intros v m' Hv. rewrite Forall_forall in Hn. specialize (Hn v Hv).
    eapply (reads_var _ _ 8 ltac:(lia) eq_refl (λ v m, mkPbConfState (PCS_Nodes m ++ [v]) (PCS_XXX m))); done.
  - assert (∀ l m0, fold_left (λ m v, mkPbConfState (PCS_Nodes m ++ [v]) (PCS_XXX m)) l m0 =
      mkPbConfState (PCS_Nodes m0 ++ l) (PCS_XXX m0)) as Hf.
    { induction l as [|v l IH]; intros [ns x]; simpl; [by rewrite app_nil_r|]. rewrite IH. simpl. by rewrite <- app_assoc. }
    rewrite Hf. destruct m; simpl in *; by subst.
Qed.

Lemma enc_msg_le tag bs : go_len bs ≤ go_len (enc_msg tag bs).
Proof. rewrite enc_msg_size. unfold size_msg. pose proof (go_len_nonneg (enc_varint (go_len bs))). rewrite enc_varint_size in *. lia. Qed.

Lemma PbSnapshotMetadata_decode m :
  wf_PbSnapshotMetadata m → go_len (enc_PbSnapshotMetadata m) < 2 ^ 62 →
  PbSnapshotMetadata_Unmarshal (enc_PbSnapshotMetadata m) PbSnapshotMetadata_Reset = Ok (m, None).
Proof.
  intros (Hc & Hi & Ht & Hx) Hl. apply unmarshal_reads; [|done]. unfold enc_PbSnapshotMetadata in *. rewrite Hx.
  assert (PbConfState_Unmarshal (enc_PbConfState (PSM_ConfState m)) (PSM_ConfState PbSnapshotMetadata_Reset) =
    Ok (PSM_ConfState m, None)) as Hd.
  { apply PbConfState_decode; [done|]. pose proof (enc_msg_le 10 (enc_PbConfState (PSM_ConfState m))).
    unfold go_len in *. rewrite !length_app in Hl. lia. }
  read_next @reads_msg. read_next @reads_uint64. read_last @reads_uint64. destruct m; simpl in *; by subst.
Qed.

Lemma PbSnapshot_decode m :
  wf_PbSnapshot m → go_len (enc_PbSnapshot m) < 2 ^ 62 →
  PbSnapshot_Unmarshal (enc_PbSnapshot m) PbSnapshot_Reset = Ok (m, None).
Proof.
  intros [Hm Hx] Hl. apply unmarshal_reads; [|done]. unfold enc_PbSnapshot in *. rewrite Hx.
  assert (PbSnapshotMetadata_Unmarshal (enc_PbSnapshotMetadata (PS_Metadata m)) PbSnapshotMetadata_Reset =
    Ok (PS_Metadata m, None)) as Hd.
  { apply PbSnapshotMetadata_decode; [done|]. pose proof (enc_msg_le 18 (enc_PbSnapshotMetadata (PS_Metadata m))).
    unfold go_len in *. rewrite !length_app in Hl. lia. }
  read_next @reads_bytes. eapply reads_last.
  - eapply reads_msg; [lia|reflexivity|reflexivity|reflexivity|]. destruct (PS_Data m); exact Hd.
  - destruct m as [[|] ? ?]; simpl in *; by subst.
Qed.

Lemma fold_entries l m :
  fold_left (λ m e, PM_add_Entry e m) l m =
  mkPbMessage (PM_Type m) (PM_To m) (PM_From m) (PM_Term m) (PM_LogTerm m) (PM_Index m) (PM_Entries m ++ l)
    (PM_Commit m) (PM_Snapshot m) (PM_Reject m) (PM_RejectHint m) (PM_Context m) (PM_XXX m).
Proof.
  revert m. induction l as [|e l IH]; intros m; simpl; [by rewrite app_nil_r; destruct m|].
  rewrite IH. simpl. by rewrite <- app_assoc.
Qed.

Lemma enc_entry_le m e : e ∈ PM_Entries m → go_len (enc_PbEntry e) ≤ go_len (enc_PbMessage m).
Proof.
  intros [k Hk]%list_elem_of_lookup_1. unfold enc_PbMessage. pose proof (enc_msg_le 58 (enc_PbEntry e)).
  assert (go_len (enc_msg 58 (enc_PbEntry e)) ≤ go_len (concat (map (λ e, enc_msg 58 (enc_PbEntry e)) (PM_Entries m)))).
  { rewrite <- (take_drop_middle _ _ _ Hk), map_app, concat_app. cbn [map concat]. unfold go_len. rewrite !length_app. lia. }
  unfold go_len in *. rewrite !length_app. lia.
Qed.

Lemma enc_snapshot_le m : go_len (enc_PbSnapshot (PM_Snapshot m)) ≤ go_len (enc_PbMessage m).
Proof.
  pose proof (enc_msg_le 74 (enc_PbSnapshot (PM_Snapshot m))). unfold enc_PbMessage, go_len in *.
  rewrite !length_app. lia.
Qed.

Lemma PbMessage_decode m :
  wf_PbMessage m → go_len (enc_PbMessage m) < 2 ^ 62 →
  PbMessage_Unmarshal (enc_PbMessage m) PbMessage_Reset = Ok (m, None).
Proof.
  intros (H1 & H2 & H3 & H4 & H5 & H6 & He & H8 & Hs & H11 & Hx) Hl. apply unmarshal_reads; [|done].
  assert (PbSnapshot_Unmarshal (enc_PbSnapshot (PM_Snapshot m)) PbSnapshot_Reset = Ok (PM_Snapshot m, None)) as Hd.
  { apply PbSnapshot_decode; [done|]. pose proof (enc_snapshot_le m). lia. }
  assert (∀ e m', e ∈ PM_Entries m → reads PbMessage_fields PbMessage_keep (enc_msg 58 (enc_PbEntry e)) m' (PM_add_Entry e m')) as Hent.
  { intros e m' Hin. eapply reads_msg; [lia|reflexivity..|]. apply PbEntry_decode.
    - rewrite Forall_forall in He. by apply He.
    - pose proof (enc_entry_le m e Hin). lia. }
  unfold enc_PbMessage. rewrite Hx. read_next @reads_int32. do 5 read_next @reads_uint64.
  eapply reads_app; [by apply reads_concat|]. rewrite fold_entries. read_next @reads_uint64. read_next @reads_msg.
  rewrite (app_assoc [80]).
  assert ([80] ++ [if PM_Reject m then 1 else 0] = enc_uint 80 (if PM_Reject m then 1 else 0)) as -> by (by destruct (PM_Reject m)).
  assert (is_uint64 (if PM_Reject m then 1 else 0)) as H10 by (unfold is_uint64; destruct (PM_Reject m); lia).
  read_next @reads_var. read_next @reads_uint64. read_last @reads_bytes.
  destruct m as [? ? ? ? ? ? ? ? ? [|] ? [|] ?]; simpl in *; by subst.
Qed.

(** ** Termination *)

Lemma varint_total w data i :
  match varint w data i with
  | Panic p => p = index_panic ∧ i < 0
  | Ok (_, inl i') => 0 ≤ i < i' ∧ i' ≤ go_len data
  | Ok (_, inr _) => True
  end.
Proof.
  unfold varint. assert (∀ k shift acc i, 64 ≤ shift + 7 * (Z.of_nat k) →
    match varint_loop w (S k) data i shift acc with
    | Panic p => p = index_panic ∧ i < 0 | Ok (_, inl i') => 0 ≤ i < i' ∧ i' ≤ go_len data | Ok (_, inr _) => True end) as H;
    [|by apply H].
  clear i. induction k as [|k IH]; intros shift acc i Hs.
  { cbn [varint_loop]. by rewrite (proj2 (Z.leb_le _ _)) by lia. }
  remember (S k) as k1 eqn:Hk1. cbn [varint_loop].
  destruct (64 <=? shift); [done|]. destruct (go_len data <=? i) eqn:Hi; [done|]. boolify.
  destruct (go_at data i) as [b|] eqn:Hb.
  - assert (0 ≤ i) by (unfold go_at in Hb; destruct (i <? 0) eqn:Hn; [done|by boolify]).
    destruct (b <? 128); [lia|]. specialize (IH (shift + 7) (Z.lor acc (Z.shiftl (Z.land b 127) shift mod 2 ^ w)) (i + 1) ltac:(lia)).
    destruct (varint_loop w k1 data (i + 1) (shift + 7) _) as [[v [i'|e]]|p]; [lia|done|].
    destruct IH. lia.
  - split; [done|]. unfold go_at in Hb. destruct (i <? 0) eqn:Hn; [by boolify|]. boolify.
    apply lookup_ge_None in Hb. unfold go_len in Hi. lia.
Qed.

(** What [skipRaft] returns: a position behind the start, or the wrapped sum with a huge length. *)
Definition skipped (r : res (Z + PbErr)) : Prop :=
  match r with
  | Panic p => p ≠ fuel_panic
  | Ok (inl n) => 0 < n ≤ max_int ∨ - 2 ^ 63 ≤ n ≤ - 2 ^ 62
  | Ok (inr _) => True
  end.

Lemma skip_group_total f gf data i :
  go_len data < 2 ^ 62 → (∀ rest, (length rest < length data)%nat → skipped (f rest)) →
  (0 < gf)%nat → - 2 ^ 63 ≤ i → i < 0 ∨ (1 ≤ i ∧ go_len data - i < Z.of_nat gf) →
  skipped (skip_group f gf data i).
Proof.
  intros Hl Hf. revert i. induction gf as [|gf IH]; intros i Hg Hlo Hi; [lia|]. cbn [skip_group].
  pose proof (varint_total 64 data i) as Hv. destruct (varint 64 data i) as [[v [i'|e]]|p]; [..|done|by destruct Hv as [-> _]].
  unfold go_len in Hl, Hv. destruct (_ =? 4); [simpl; unfold max_int; lia|].
  destruct (go_slice data i (go_len data)) as [rest|] eqn:Hs; [|done]. unfold go_slice in Hs.
  destruct (_ && _) eqn:Hc; [|done]. boolify. injection Hs as <-. destruct Hi as [?|[Hi Hgf]]; [lia|].
  assert (skipped (f (drop (Z.to_nat i) (take (Z.to_nat (go_len data)) data)))) as Hsk.
  { apply Hf. rewrite length_drop, length_take. unfold go_len in *. lia. }
  destruct (f _) as [[next|e]|p]; [|done..]. simpl in Hsk. unfold go_len in *.
  assert (- 2 ^ 63 ≤ wrap64 (i + next)) by apply wrap64_range.
  apply IH; [lia|done|]. destruct Hsk as [[Hn1 Hn2]|Hn].
  - destruct (Z.le_gt_cases (i + next) max_int).
    + right. rewrite wrap64_id by (unfold max_int in *; lia). lia.
    + left. unfold wrap64, max_int in *. assert ((i + next + 2 ^ 63) mod 2 ^ 64 = i + next + 2 ^ 63 - 2 ^ 64) as ->; [|lia].
      symmetry. apply (Z.mod_unique_pos _ _ 1); lia.
  - left. rewrite wrap64_id by (unfold max_int in *; lia). lia.
Qed.

Lemma skip_total fuel data : go_len data < 2 ^ 62 → (length data < fuel)%nat → skipped (skip fuel data).
Proof.
  revert data. induction fuel as [|fuel IH]; intros data Hl Hf; [lia|]. cbn [skip].
  destruct (go_len data <=? 0) eqn:H0; [done|]. pose proof (varint_total 64 data 0) as Hv.
  destruct (varint 64 data 0) as [[wire [i|e]]|p]; [|done|by destruct Hv]. boolify.
  destruct (_ =? 0).
  { pose proof (varint_total 64 data i) as Hv'. destruct (varint 64 data i) as [[v [i'|e]]|p]; simpl; unfold max_int; [lia|done|].
    by destruct Hv' as [-> _]. }
  destruct (_ =? 1); [simpl; unfold max_int; lia|]. destruct (_ =? 2).
  { pose proof (varint_total 64 data i) as Hv'. destruct (varint 64 data i) as [[v [i'|e]]|p]; [|done|by destruct Hv' as [-> _]].
    destruct (wrap64 v <? 0) eqn:Hn; [done|]. boolify. pose proof (wrap64_range v) as Hw. simpl. unfold max_int in *.
    destruct (Z.le_gt_cases (i' + wrap64 v) (2 ^ 63 - 1)).
    - left. rewrite wrap64_id by (unfold max_int; lia). lia.
    - right. set (x := i' + wrap64 v) in *. unfold wrap64.
      assert ((x + 2 ^ 63) mod 2 ^ 64 = x + 2 ^ 63 - 2 ^ 64) as ->; [|unfold x; lia].
      symmetry. apply (Z.mod_unique_pos _ _ 1); unfold x; lia. }
  destruct (_ =? 3).
  { apply skip_group_total; [done| |unfold go_len in H0; lia|lia|right; unfold go_len in *; lia].
    intros rest Hr. apply IH; [unfold go_len in *; lia|lia]. }
  destruct (_ =? 4); [simpl; unfold max_int; lia|]. destruct (_ =? 5); [simpl; unfold max_int; lia|done].
Qed.

Section total.
Context {A : Type}.

(** A case of the [switch] ends, at a position that is not before its start. *)
Definition total_field (f : field A) : Prop :=
  ∀ wireType data i m, 0 ≤ i ≤ go_len data → go_len data < 2 ^ 62 →
    match f wireType data i m with
    | Panic p => p ≠ fuel_panic
    | Ok (_, inl i') => i ≤ i'
    | Ok (_, inr _) => True
    end.

(** A decoder ends. *)
Definition ends (unmarshal : bytes → A → res (A * option PbErr)) : Prop :=
  ∀ data m, go_len data < 2 ^ 62 → unmarshal data m ≠ Panic fuel_panic.

Lemma field_uint_total w conv set : total_field (field_uint w conv set).
Proof.
  intros wt data i m Hi _. unfold field_uint. destruct (negb _); [done|]. pose proof (varint_total w data i) as Hv.
  destruct (varint w data i) as [[v [i'|e]]|p]; [lia|done|lia].
Qed.

Lemma field_var_total set : total_field (field_var set).
Proof.
  intros wt data i m Hi _. unfold field_var. destruct (negb _); [done|]. pose proof (varint_total 64 data i) as Hv.
  destruct (varint 64 data i) as [[v [i'|e]]|p]; [lia|done|lia].
Qed.

Lemma field_len_total use :
  (∀ bs post m, go_len bs < 2 ^ 62 → match use bs post m with
     | Panic p => p ≠ fuel_panic | Ok (_, inl i') => i' = post | Ok (_, inr _) => True end) →
  total_field (field_len use).
Proof.
  intros Hu wt data i m Hi Hl. unfold field_len. destruct (negb _); [done|]. pose proof (varint_total 64 data i) as Hv.
  destruct (varint 64 data i) as [[v [i'|e]]|p]; [|done|lia]. destruct (_ <? 0); [done|]. destruct (_ <? _); [done|].
  destruct (go_slice data i' _) as [bs|] eqn:Hs; [|done]. unfold go_slice in Hs. destruct (_ && _) eqn:Hc; [|done].
  boolify. injection Hs as <-. set (post := wrap64 _) in *.
  pose proof (Hu (drop (Z.to_nat i') (take (Z.to_nat post) data)) post m) as Hu'.
  destruct (use _ _ _) as [[m' [i1|e]]|p]; [|done|apply Hu'; unfold go_len in *; rewrite length_drop, length_take; lia].
  rewrite Hu'; [lia|]. unfold go_len in *. rewrite length_drop, length_take. lia.
Qed.

Lemma field_bytes_total set : total_field (field_bytes set).
Proof. by apply field_len_total. Qed.
End total.

Lemma field_msg_total {A B} (unmarshal : bytes → B → res (B * option PbErr)) (get : A → B) set :
  ends unmarshal → total_field (field_msg unmarshal get set).
Proof.
  intros He. apply field_len_total. intros bs post m Hl. specialize (He bs (get m) Hl).
  destruct (unmarshal bs (get m)) as [[b [e|]]|p]; [done..|]. congruence.
Qed.

Lemma unmarshal_ends {A} (fields : Z → option (field A)) keep :
  (∀ k f, fields k = Some f → total_field f) → ends (unmarshal_with fields keep).
Proof.
  intros Hf data m Hl. unfold unmarshal_with.
  assert (∀ fuel i m, 0 ≤ i → go_len data - i ≤ Z.of_nat fuel →
    unmarshal_loop fields keep fuel data i m ≠ Panic fuel_panic) as H; [|apply H; unfold go_len; lia].
  clear m. induction fuel as [|fuel IH]; intros i m Hi Hfuel; simpl.
  { destruct (i <? go_len data) eqn:H; [boolify; lia|]. destruct (go_len data <? i); discriminate. }
  destruct (i <? go_len data) eqn:H; [|destruct (go_len data <? i); discriminate]. boolify.
  assert (match unmarshal_field fields keep data i m with
          | Panic p => p ≠ fuel_panic | Ok (_, inl i') => i < i' | Ok (_, inr _) => True end) as Hstep.
  { unfold unmarshal_field. pose proof (varint_total 64 data i) as Hv.
    destruct (varint 64 data i) as [[wire [i1|e]]|p]; [|done|lia]. destruct (_ =? 4); [done|].
    destruct (_ <=? 0); [done|]. destruct (fields _) as [f|] eqn:Hfk.
    - pose proof (Hf _ f Hfk (Z.land wire 7) data i1 m ltac:(lia) Hl) as Hs.
      destruct (f _ _ _ _) as [[m' [i'|e]]|p]; [lia|done|done].
    - unfold unknown_field. destruct (go_slice data i (go_len data)) as [rest|] eqn:Hs; [|done].
      assert (go_len rest ≤ go_len data) as Hrest.
      { unfold go_slice in Hs. destruct (_ && _); [|done]. injection Hs as <-. unfold go_len. rewrite length_drop, length_take. lia. }
      pose proof (skip_total (S (length rest)) rest ltac:(lia) ltac:(lia)) as Hsk. unfold skipRaft.
      destruct (skip _ rest) as [[n|e]|p]; [|done|done]. simpl in Hsk.
      destruct (n <? 0) eqn:Hn; [done|]. destruct (_ <? wrap64 _); [done|].
      destruct (go_slice data i (wrap64 (i + n))) as [bs|] eqn:Hs'; [|done]. unfold go_slice in Hs'.
      destruct (_ && _) eqn:Hc in Hs'; [|done]. boolify.
      destruct (Z.eq_dec i (wrap64 (i + n))) as [Heq|]; [|lia]. exfalso.
      unfold wrap64, max_int in *. pose proof (Z.div_mod (i + n + 2 ^ 63) (2 ^ 64) ltac:(lia)) as Hdm.
      set (q := (i + n + 2 ^ 63) / 2 ^ 64) in *. assert (n = 2 ^ 64 * q) by lia. nia. }
  destruct (unmarshal_field fields keep data i m) as [[m' [i'|e]]|p]; [|done|congruence].
  apply IH; lia.
Qed.

Create HintDb total discriminated.
#[local] Hint Resolve field_uint_total field_var_total field_bytes_total field_msg_total : total.
(** The cases of a [switch], one by one. *)
Ltac total_cases fields :=
  apply unmarshal_ends; intros k f Hk; unfold fields in Hk;
  repeat match type of Hk with match ?x with _ => _ end = _ => destruct x; try done end;
  injection Hk as <-; auto with total.

Lemma PbEntry_ends : ends PbEntry_Unmarshal.
Proof. total_cases PbEntry_fields. Qed.
Lemma PbConfState_ends : ends PbConfState_Unmarshal.
Proof. total_cases PbConfState_fields. Qed.
#[local] Hint Resolve PbEntry_ends PbConfState_ends : total.
Lemma PbSnapshotMetadata_ends : ends PbSnapshotMetadata_Unmarshal.
Proof. total_cases PbSnapshotMetadata_fields. Qed.
#[local] Hint Resolve PbSnapshotMetadata_ends : total.
Lemma PbSnapshot_ends : ends PbSnapshot_Unmarshal.
Proof. total_cases PbSnapshot_fields. Qed.
#[local] Hint Resolve PbSnapshot_ends : total.
Lemma PbMessage_ends : ends PbMessage_Unmarshal.
Proof. total_cases PbMessage_fields. Qed.
Lemma PbHardState_ends : ends PbHardState_Unmarshal.
Proof. total_cases PbHardState_fields. Qed.
Lemma PbConfChange_ends : ends PbConfChange_Unmarshal.
Proof. total_cases PbConfChange_fields. Qed.

(** ** What the generated code guarantees *)

(** C10: Round trip.  [Marshal] of a raft message fills its buffer of [Size] bytes exactly, without a
    panic, and [Unmarshal] of these bytes gives the message back: all integers of the full width
    (negative types of the enumerations too), entries, snapshot, and the difference between nil
    and empty byte slices. *)
Theorem message_roundtrip m :
  wf_PbMessage m → PbMessage_Size m < 2 ^ 62 →
  ∃ data, PbMessage_Marshal m = Ok data ∧ go_len data = PbMessage_Size m ∧
    PbMessage_Unmarshal data PbMessage_Reset = Ok (m, None).
Proof.
  intros Hw Hs. exists (enc_PbMessage m). split_and!; [apply PbMessage_marshal|apply PbMessage_size|].
  apply PbMessage_decode; [done|]. by rewrite PbMessage_size.
Qed.

(** C31: The decoder of raft messages ends on all data, whatever bytes it is given (malformed
    varints, unknown fields, nested groups): the loop reads at least one byte per field, and
    [skipRaft] recurses on less data. *)
Theorem unmarshal_terminates data m :
  go_len data < 2 ^ 62 → PbMessage_Unmarshal data m ≠ Panic fuel_panic.
Proof. apply PbMessage_ends. Qed.

(** A crafted length makes the decoders panic instead of returning an error: [iNdEx + byteLen]
    wraps around and passes the test against the end of the data; inside a group the position
    becomes negative. *)
Theorem crafted_length_panics :
  PbEntry_Unmarshal [0x22; 255; 255; 255; 255; 255; 255; 255; 255; 127] PbEntry_Reset = Panic slice_panic ∧
  PbEntry_Unmarshal [0x7b; 0x7a; 255; 255; 255; 255; 255; 255; 255; 255; 127] PbEntry_Reset = Panic index_panic.
Proof. split; vm_compute; reflexivity. Qed.

(** A message with a negative type, two entries and a snapshot. *)
Definition sample_message : PbMessage :=
  mkPbMessage 3 (2 ^ 64 - 1) 2 5 4 300
    [mkPbEntry 5 301 (-1) (Some [1; 2; 255]) None; mkPbEntry 5 302 1 (Some []) None] 9
    (mkPbSnapshot None (mkPbSnapshotMetadata (mkPbConfState [1; 1000] None) 7 8 None) None) true 7 None None.

Lemma message_roundtrip_witness :
  ∃ data, PbMessage_Marshal sample_message = Ok data ∧ go_len data = PbMessage_Size sample_message ∧
    PbMessage_Unmarshal data PbMessage_Reset = Ok (sample_message, None).
Proof.
  apply (message_roundtrip sample_message).
  - repeat constructor; unfold is_int32, is_uint64; simpl; lia.
  - vm_compute. reflexivity.
Defined.

Lemma unmarshal_terminates_witness : PbMessage_Unmarshal [0x7b; 0x7b; 0x7c; 0x7c] PbMessage_Reset ≠ Panic fuel_panic.
Proof. apply (unmarshal_terminates [0x7b; 0x7b; 0x7c; 0x7c] PbMessage_Reset). vm_compute. reflexivity. Defined.
