(* ===== verification/EtcdNode.v ===== *)
(** * The raft node of the etcd example (src/etcd-raft/raft.go)

    The state of a [raftNode], its handlers, and the event loop [serveChannels].
    The raft library itself ([raft.Node]), the write-ahead log, the snapshotter
    and the HTTP transport are other packages: what the node does to them is the
    trace [out] of its state, in program order, and what it gets from them
    ([Ready] values, the entries of the log on disk, failing writes) is input.

    - [faults]: for the coming disk operations, whether they fail;
    - [stops]: for the coming sends on [commitC] in a [select] with [stopc], whether
      the [stopc] case is taken.
    An exhausted list means no failure and no stop. *)
From stdpp Require Import pretty.
From S2P Require Import Prelude GoRt EtcdStorage.
Open Scope Z_scope.

(** ** Data *)

Inductive ConfChangeType : Type := ConfChangeAddNode | ConfChangeRemoveNode | ConfChangeUpdateNode.
Record ConfChange : Type := mkConfChange {
  CC_ID : Z; CC_Type : ConfChangeType; CC_NodeID : Z; CC_Context : option string;  (* [None] is nil *)
}.

(** What the node does to the rest of the program. *)
Inductive effect : Type :=
| Commit (data : option string)          (** a send on [commitC]; [None] is the nil pointer *)
| NodeApplyConfChange (cc : ConfChange)
| NodePropose (data : string)
| NodeProposeConfChange (cc : ConfChange)
| NodeTick | NodeAdvance | NodeStop
| NodeStart (peers : list Z) | NodeRestart
| AddPeer (id : Z) (url : string) | RemovePeer (id : Z)
| WalSave (st : HardState) (ents : list Entry)
| WalSaveSnapshot (index term : Z) | WalReleaseLockTo (index : Z) | WalClose
| Mkdir (dir : string) | WalCreate (dir : string) | WalOpen (dir : string)
| SaveSnap (snap : Snapshot)
| TransportStart | TransportSend (msgs : list string) | StopHTTP
| CloseCommitC | SendErrorC (err : string) | CloseErrorC.

Record raftNode : Type := mkRaftNode {
  rc_id : Z; rc_peers : list string; rc_join : bool;
  lastIndex : Z; confState : ConfState; snapshotIndex : Z; appliedIndex : Z;
  raftStorage : MemoryStorage; snapCount : Z;
  out : list effect; faults : list bool; stops : list bool;
}.

Record Ready : Type := mkReady {
  rd_HardState : HardState; rd_Entries : list Entry; rd_Snapshot : Snapshot;
  rd_CommittedEntries : list Entry; rd_Messages : list string;
}.

Definition defaultSnapCount : Z := 10000.
Definition snapshotCatchUpEntriesN : Z := 10000.

Definition newRaftNode (id : Z) (peers : list string) (join : bool) : raftNode :=
  mkRaftNode id peers join 0 (mkConfState []) 0 0 NewMemoryStorage defaultSnapCount [] [] [].

(** Assignments to the fields. *)
Definition set_lastIndex (x : Z) (rc : raftNode) : raftNode :=
  mkRaftNode (rc_id rc) (rc_peers rc) (rc_join rc) x (confState rc) (snapshotIndex rc)
    (appliedIndex rc) (raftStorage rc) (snapCount rc) (out rc) (faults rc) (stops rc).
Definition set_confState (x : ConfState) (rc : raftNode) : raftNode :=
  mkRaftNode (rc_id rc) (rc_peers rc) (rc_join rc) (lastIndex rc) x (snapshotIndex rc)
    (appliedIndex rc) (raftStorage rc) (snapCount rc) (out rc) (faults rc) (stops rc).
Definition set_snapshotIndex (x : Z) (rc : raftNode) : raftNode :=
  mkRaftNode (rc_id rc) (rc_peers rc) (rc_join rc) (lastIndex rc) (confState rc) x
    (appliedIndex rc) (raftStorage rc) (snapCount rc) (out rc) (faults rc) (stops rc).
Definition set_appliedIndex (x : Z) (rc : raftNode) : raftNode :=
  mkRaftNode (rc_id rc) (rc_peers rc) (rc_join rc) (lastIndex rc) (confState rc) (snapshotIndex rc)
    x (raftStorage rc) (snapCount rc) (out rc) (faults rc) (stops rc).
Definition set_storage (x : MemoryStorage) (rc : raftNode) : raftNode :=
  mkRaftNode (rc_id rc) (rc_peers rc) (rc_join rc) (lastIndex rc) (confState rc) (snapshotIndex rc)
    (appliedIndex rc) x (snapCount rc) (out rc) (faults rc) (stops rc).
Definition set_out (x : list effect) (rc : raftNode) : raftNode :=
  mkRaftNode (rc_id rc) (rc_peers rc) (rc_join rc) (lastIndex rc) (confState rc) (snapshotIndex rc)
    (appliedIndex rc) (raftStorage rc) (snapCount rc) x (faults rc) (stops rc).
Definition set_faults (x : list bool) (rc : raftNode) : raftNode :=
  mkRaftNode (rc_id rc) (rc_peers rc) (rc_join rc) (lastIndex rc) (confState rc) (snapshotIndex rc)
    (appliedIndex rc) (raftStorage rc) (snapCount rc) (out rc) x (stops rc).
Definition set_stops (x : list bool) (rc : raftNode) : raftNode :=
  mkRaftNode (rc_id rc) (rc_peers rc) (rc_join rc) (lastIndex rc) (confState rc) (snapshotIndex rc)
    (appliedIndex rc) (raftStorage rc) (snapCount rc) (out rc) (faults rc) x.

Abbreviation Node := (M raftNode).

Definition emit (e : effect) : Node () := modify (λ rc, set_out (out rc ++ [e]) rc).

(** A disk operation: its effect if it succeeds, and whether it did. *)
Definition disk (e : effect) : Node bool :=
  rc <- get ;;
  match faults rc with
  | true :: l => modify (set_faults l) ;; ret false
  | l => modify (set_faults (tail l)) ;; emit e ;; ret true
  end.

(** [select { case rc.commitC <- v: case <-rc.stopc: return false }] *)
Definition send_commit (v : option string) : Node bool :=
  rc <- get ;;
  match stops rc with
  | true :: l => modify (set_stops l) ;; ret false
  | l => modify (set_stops (tail l)) ;; emit (Commit v) ;; ret true
  end.

(** An operation of the storage. *)
Definition on_storage {A} (m : M MemoryStorage A) : Node A :=
  λ rc, match m (raftStorage rc) with
        | Ok (a, ms) => Ok (a, set_storage ms rc)
        | Panic w => Panic w
        end.

Section node.
(** [cc.Unmarshal], of the generated protobuf code: the change, or an empty one.  EtcdWire.v puts the
    decoder of RaftPb.v in its place. *)
Context (unmarshal : option string → ConfChange).

(** ** Snapshots and committed entries *)

(** [true] is a nil error. *)
Definition saveSnap (snap : Snapshot) : Node bool :=
  ok <- disk (SaveSnap snap) ;;
  if negb ok then ret false else
  ok <- disk (WalSaveSnapshot (SM_Index (Metadata snap)) (SM_Term (Metadata snap))) ;;
  if negb ok then ret false else
  disk (WalReleaseLockTo (SM_Index (Metadata snap))).

Definition entriesToApply (ents : list Entry) : Node (list Entry) :=
  match ents with
  | [] => ret []
  | e0 :: _ =>
      rc <- get ;;
      let firstIdx := E_Index e0 in
      (when u64 (appliedIndex rc + 1) <? firstIdx
       do panic "first index of committed entry should <= progress.appliedIndex 1") ;;
      if u64 (u64 (appliedIndex rc - firstIdx) + 1) <? go_len ents
      then must slice_panic (go_slice ents (u64 (u64 (appliedIndex rc - firstIdx) + 1)) (go_len ents))
      else ret []
  end.

Definition data_of (e : Entry) : string := default EmptyString (E_Data e).

(** One committed entry, up to the assignment of [appliedIndex]; [false] is [return false]. *)
Definition publish_entry (e : Entry) : Node bool :=
  match E_Type e with
  | EntryNormal => if decide (data_of e = EmptyString) then ret true else send_commit (Some (data_of e))
  | EntryConfChange =>
      let cc := unmarshal (E_Data e) in
      emit (NodeApplyConfChange cc) ;;
      match CC_Type cc with
      | ConfChangeAddNode =>
          let context := default EmptyString (CC_Context cc) in
          (when negb (bool_decide (context = EmptyString)) do emit (AddPeer (CC_NodeID cc) context)) ;;
          ret true
      | ConfChangeRemoveNode =>
          rc <- get ;;
          if CC_NodeID cc =? u64 (rc_id rc) then ret false else
          emit (RemovePeer (CC_NodeID cc)) ;; ret true
      | ConfChangeUpdateNode => ret true
      end
  end.

Fixpoint publishEntries (ents : list Entry) : Node bool :=
  match ents with
  | [] => ret true
  | e :: ents' =>
      ok <- publish_entry e ;;
      if negb ok then ret false else
      modify (set_appliedIndex (E_Index e)) ;;
      rc <- get ;;
      ok <- (if E_Index e =? lastIndex rc then send_commit None else ret true) ;;
      if negb ok then ret false else publishEntries ents'
  end.

Definition IsEmptySnap (sp : Snapshot) : bool := SM_Index (Metadata sp) =? 0.

Definition publishSnapshot (snapshotToSave : Snapshot) : Node () :=
  if IsEmptySnap snapshotToSave then ret tt else
  rc <- get ;;
  let md := Metadata snapshotToSave in
  (when SM_Index md <=? appliedIndex rc do panic "snapshot index should > progress.appliedIndex + 1") ;;
  emit (Commit None) ;;
  modify (set_confState (SM_ConfState md)) ;;
  modify (set_snapshotIndex (SM_Index md)) ;;
  modify (set_appliedIndex (SM_Index md)).

(** [getSnapshot] of the key-value store: its data, or an error. *)
Definition maybeTriggerSnapshot (getSnapshot : option (option string)) : Node () :=
  rc <- get ;;
  if u64 (appliedIndex rc - snapshotIndex rc) <=? snapCount rc then ret tt else
  data <- must "getSnapshot" getSnapshot ;;
  snap <- on_storage (CreateSnapshot (appliedIndex rc) (Some (confState rc)) data) ;;
  match snap with
  | inr _ => panic "CreateSnapshot"
  | inl snap =>
      ok <- saveSnap snap ;;
      (when negb ok do panic "saveSnap") ;;
      let compactIndex := if snapshotCatchUpEntriesN <? appliedIndex rc
                          then u64 (appliedIndex rc - snapshotCatchUpEntriesN) else 1 in
      err <- on_storage (Compact compactIndex) ;;
      (when bool_decide (err ≠ None) do panic "Compact") ;;
      modify (set_snapshotIndex (appliedIndex rc))
  end.

(** ** Stopping *)

Definition stopHTTP : Node () := emit StopHTTP.
Definition stop : Node () := stopHTTP ;; emit CloseCommitC ;; emit CloseErrorC ;; emit NodeStop.
Definition writeError (err : string) : Node () :=
  stopHTTP ;; emit CloseCommitC ;; emit (SendErrorC err) ;; emit CloseErrorC ;; emit NodeStop.

(** ** The event loop *)

Inductive event : Type :=
| EvTick                                                    (** [<-ticker.C] *)
| EvReady (rd : Ready) (getSnapshot : option (option string)) (** [<-rc.node.Ready()] *)
| EvError (err : string)                                    (** [<-rc.transport.ErrorC] *)
| EvStop.                                                   (** [<-rc.stopc] *)

(** The case of a [Ready] up to the publication. *)
Definition store_ready (rd : Ready) : Node () :=
  disk (WalSave (rd_HardState rd) (rd_Entries rd)) ;;
  (when negb (IsEmptySnap (rd_Snapshot rd)) do
     (saveSnap (rd_Snapshot rd) ;;
      on_storage (ApplySnapshot (rd_Snapshot rd)) ;;
      publishSnapshot (rd_Snapshot rd))) ;;
  on_storage (ms_Append (rd_Entries rd)) ;;
  emit (TransportSend (rd_Messages rd)).

(** One event; [false] if the loop returns. *)
Definition serve_event (ev : event) : Node bool :=
  match ev with
  | EvTick => emit NodeTick ;; ret true
  | EvReady rd getSnapshot =>
      store_ready rd ;;
      ents <- entriesToApply (rd_CommittedEntries rd) ;;
      ok <- publishEntries ents ;;
      if negb ok then stop ;; ret false else
      maybeTriggerSnapshot getSnapshot ;;
      emit NodeAdvance ;;
      ret true
  | EvError err => writeError err ;; ret false
  | EvStop => stop ;; ret false
  end.

(** The loop on the events that arrive, with the deferred close; [true] if it still waits. *)
Fixpoint serve_loop (evs : list event) : Node bool :=
  match evs with
  | [] => ret true
  | ev :: evs' =>
      more <- serve_event ev ;;
      if more then serve_loop evs' else (emit WalClose ;; ret false)
  end.

Definition serveChannels_init : Node () :=
  rc <- get ;;
  let md := Metadata (ms_snapshot (raftStorage rc)) in
  modify (set_confState (SM_ConfState md)) ;;
  modify (set_snapshotIndex (SM_Index md)) ;;
  modify (set_appliedIndex (SM_Index md)).

Definition serveChannels (evs : list event) : Node bool := serveChannels_init ;; serve_loop evs.
End node.

(** ** Starting *)

Definition waldir (rc : raftNode) : string := ("raftexample-" +:+ pretty (rc_id rc))%string.
Definition snapdir (rc : raftNode) : string := ("raftexample-" +:+ pretty (rc_id rc) +:+ "-snap")%string.

Definition must_disk (e : effect) (why : string) : Node () :=
  ok <- disk e ;; when negb ok do panic why.

(** [exists_]: whether there is a write-ahead log. *)
Definition openWAL (exists_ : bool) : Node () :=
  rc <- get ;;
  (when negb exists_ do
     (must_disk (Mkdir (waldir rc)) "raftexample: cannot create dir for wal" ;;
      must_disk (WalCreate (waldir rc)) "raftexample: create wal error")) ;;
  must_disk (WalOpen (waldir rc)) "raftexample: error loading wal".

(** [content]: what [ReadAll] finds in it, or an error. *)
Definition replayWAL (exists_ : bool) (content : option (HardState * list Entry)) : Node () :=
  openWAL exists_ ;;
  c <- must "raftexample: failed to read WAL" content ;;
  let '(st, ents) := c in
  on_storage (ms_Append ents) ;;
  match last ents with
  | Some e => modify (set_lastIndex (E_Index e))
  | None => emit (Commit None)
  end ;;
  on_storage (SetHardState st).

Definition startRaft (snap_exists wal_exists : bool) (content : option (HardState * list Entry)) : Node () :=
  rc <- get ;;
  (when negb snap_exists do must_disk (Mkdir (snapdir rc)) "raftexample: cannot create dir for snapshot") ;;
  replayWAL wal_exists content ;;
  let rpeers := map (λ i, i + 1) (go_range (rc_peers rc)) in
  (if wal_exists then emit NodeRestart
   else emit (NodeStart (if rc_join rc then [] else rpeers))) ;;
  emit TransportStart ;;
  for_range (zip (go_range (rc_peers rc)) (rc_peers rc)) (λ '(i, url),
    when negb (i + 1 =? rc_id rc) do emit (AddPeer (i + 1) url)).

(** ** The goroutine that passes proposals on *)

Record Proposer : Type := mkProposer {
  proposeC_open : bool; confChangeC_open : bool; confChangeCount : Z; stopc_closed : bool;
  proposed : list effect;
}.
Definition new_proposer : Proposer := mkProposer true true 0 false [].

(** A receive from [proposeC] or [confChangeC]; [None] if the channel was closed. *)
Inductive receive : Type := RProp (prop : option string) | RConf (cc : option ConfChange).

Definition with_ID (id : Z) (cc : ConfChange) : ConfChange :=
  mkConfChange id (CC_Type cc) (CC_NodeID cc) (CC_Context cc).

(** One turn of the loop; the loop ends, and closes [stopc], once a channel is nil. *)
Definition proposer_step (r : receive) (p : Proposer) : Proposer :=
  if negb (proposeC_open p && confChangeC_open p) then p else
  match r with
  | RProp None => mkProposer false (confChangeC_open p) (confChangeCount p) true (proposed p)
  | RProp (Some prop) =>
      mkProposer true (confChangeC_open p) (confChangeCount p) false (proposed p ++ [NodePropose prop])
  | RConf None => mkProposer (proposeC_open p) false (confChangeCount p) true (proposed p)
  | RConf (Some cc) =>
      let n := u64 (confChangeCount p + 1) in
      mkProposer (proposeC_open p) true n false (proposed p ++ [NodeProposeConfChange (with_ID n cc)])
  end.
