(* ===== verification/EtcdWire.v ===== *)
(** * Configuration changes on the wire

    [ProposeConfChange] encodes a change into the data of an entry, and
    [publishEntries] of every node decodes it again, ignoring errors.  With the
    codec of RaftPb.v in the place of the parameter [unmarshal] of EtcdNode.v, a
    node applies exactly the change that was proposed ([conf_change_published]). *)
From Stdlib Require Import Ascii.
From S2P Require Import Prelude GoRt EtcdStorage RaftPb RaftPbTheorems EtcdNode.
Open Scope Z_scope.

(** ** Strings as byte slices *)

Definition byte_of (c : ascii) : Z := Z.of_N (N_of_ascii c).
Definition of_byte_val (b : Z) : ascii := ascii_of_N (Z.to_N b).
Definition bytes_of_string (s : string) : bytes := map byte_of (String.list_ascii_of_string s).
Definition string_of_bytes (bs : bytes) : string := String.string_of_list_ascii (map of_byte_val bs).

Definition is_byte (b : Z) : Prop := 0 ≤ b < 256.

Lemma string_bytes s : string_of_bytes (bytes_of_string s) = s.
Proof.
  unfold string_of_bytes, bytes_of_string. etrans; [|apply String.string_of_list_ascii_of_string]. f_equal.
  induction (String.list_ascii_of_string s) as [|c l IH]; [done|]. simpl. f_equal; [|exact IH].
  unfold of_byte_val, byte_of. by rewrite N2Z.id, ascii_N_embedding.
Qed.

Lemma bytes_string bs : Forall is_byte bs → bytes_of_string (string_of_bytes bs) = bs.
Proof.
  intros H. unfold string_of_bytes, bytes_of_string. rewrite String.list_ascii_of_string_of_list_ascii.
  induction H as [|b bs Hb _ IH]; [done|]. simpl. f_equal; [|exact IH]. unfold is_byte in Hb.
  unfold of_byte_val, byte_of. rewrite N_ascii_embedding by lia. lia.
Qed.

Lemma byte_of_range c : is_byte (byte_of c).
Proof. unfold is_byte, byte_of. pose proof (N_ascii_bounded c). lia. Qed.

Lemma enc_loop_bytes fuel v : 0 ≤ v → Forall is_byte (enc_loop fuel v).
Proof.
  revert v. induction fuel as [|fuel IH]; intros v Hv; [constructor|]. cbn [enc_loop].
  destruct (128 <=? v) eqn:H; boolify; [|repeat constructor; lia].
  constructor; [|apply IH, Z.shiftr_nonneg; lia]. split.
  - apply Z.lor_nonneg. split; [apply Z.land_nonneg|]; lia.
  - change 256 with (2 ^ 8). apply Z.log2_lt_cancel. rewrite Z.log2_lor by (try apply Z.land_nonneg; lia).
    change 127 with (Z.ones 7). rewrite Z.land_ones by lia.
    assert (Z.log2 (v mod 2 ^ 7) ≤ Z.log2 127) by (apply Z.log2_le_mono; pose proof (Z.mod_pos_bound v (2 ^ 7) ltac:(lia)); lia).
    change (Z.log2 127) with 6 in *. change (Z.log2 128) with 7. change (Z.log2 (2 ^ 8)) with 8. lia.
Qed.

Lemma enc_varint_bytes v : Forall is_byte (enc_varint v).
Proof. apply enc_loop_bytes, u64_range. Qed.

(** ** Changes *)

(** [cc.Type] as it is on the wire; the node treats an unknown type like an update. *)
Definition conf_type_code (t : ConfChangeType) : Z :=
  match t with ConfChangeAddNode => 0 | ConfChangeRemoveNode => 1 | ConfChangeUpdateNode => 2 end.
Definition conf_type (z : Z) : ConfChangeType :=
  if z =? 0 then ConfChangeAddNode else if z =? 1 then ConfChangeRemoveNode else ConfChangeUpdateNode.

Definition conf_pb (cc : ConfChange) : PbConfChange :=
  mkPbConfChange (CC_ID cc) (conf_type_code (CC_Type cc)) (CC_NodeID cc) (bytes_of_string <$> CC_Context cc) None.
Definition conf_of_pb (m : PbConfChange) : ConfChange :=
  mkConfChange (PC_ID m) (conf_type (PC_Type m)) (PC_NodeID m) (string_of_bytes <$> PC_Context m).

(** The data of the entry [ProposeConfChange] makes. *)
Definition ProposeConfChange_data (cc : ConfChange) : res string :=
  match PbConfChange_Marshal (conf_pb cc) with Ok data => Ok (string_of_bytes data) | Panic w => Panic w end.

(** [var cc raftpb.ConfChange; cc.Unmarshal(ents[i].Data)], the error being ignored. *)
Definition decode_conf (data : option string) : res ConfChange :=
  match PbConfChange_Unmarshal (bytes_of_string (default EmptyString data)) PbConfChange_Reset with
  | Ok (m, _) => Ok (conf_of_pb m)
  | Panic w => Panic w
  end.

(** The parameter of EtcdNode.v, for data that does not crash the decoder. *)
Definition unmarshal_conf (data : option string) : ConfChange :=
  match decode_conf data with Ok cc => cc | Panic _ => conf_of_pb PbConfChange_Reset end.

Definition conf_ok (cc : ConfChange) : Prop :=
  is_uint64 (CC_ID cc) ∧ is_uint64 (CC_NodeID cc) ∧ PbConfChange_Size (conf_pb cc) < 2 ^ 62.

Lemma conf_wire cc :
  conf_ok cc → ∃ data, ProposeConfChange_data cc = Ok data ∧ decode_conf (Some data) = Ok cc.
Proof.
  intros (Hid & Hnode & Hsize). unfold ProposeConfChange_data. rewrite PbConfChange_marshal. eexists. split; [done|].
  unfold decode_conf. simpl. rewrite bytes_string.
  - rewrite PbConfChange_decode; [| |by rewrite PbConfChange_size].
    + unfold conf_of_pb. simpl. destruct cc as [? [] ? [context|]]; simpl; by rewrite ?string_bytes.
    + split; [done|]. split; [|done]. unfold is_int32. by destruct cc as [? [] ? ?].
  - unfold enc_PbConfChange, enc_uint, enc_bytes. rewrite app_nil_r. repeat first
      [apply Forall_app; split|apply Forall_cons; split|apply enc_varint_bytes|done].
    unfold conf_pb. simpl. destruct (CC_Context cc) as [context|]; simpl; [|done]. repeat first
      [apply Forall_app; split|apply Forall_cons; split|apply enc_varint_bytes|done].
    apply Forall_fmap, Forall_true. intros c. apply byte_of_range.
Qed.

(** C23: What a node applies when it publishes the entry of a configuration change is the change that
    was proposed, whichever node proposed it. *)
Theorem conf_change_published cc term index rc :
  conf_ok cc → ∃ data, ProposeConfChange_data cc = Ok data ∧
    let e := mkEntry term index EntryConfChange (Some data) in
    publish_entry unmarshal_conf e rc = publish_entry (λ _, cc) e rc.
Proof.
  intros Hcc. destruct (conf_wire cc Hcc) as (data & Hp & Hd). exists data. split; [done|].
  unfold publish_entry. simpl. unfold unmarshal_conf. by rewrite Hd.
Qed.

Definition sample_change : ConfChange := mkConfChange 1 ConfChangeAddNode 4 (Some "http://127.0.0.1:42379").

Lemma conf_change_published_witness :
  ∃ data, ProposeConfChange_data sample_change = Ok data ∧
    let e := mkEntry 2 5 EntryConfChange (Some data) in
    publish_entry unmarshal_conf e (newRaftNode 1 [] false) = publish_entry (λ _, sample_change) e (newRaftNode 1 [] false).
Proof.
  apply (conf_change_published sample_change 2 5 (newRaftNode 1 [] false)).
  split_and!; [vm_compute; done..|]. vm_compute. reflexivity.
Defined.
