(* ===== verification/EtcdTheorems.v ===== *)
(** * The etcd example node: what it publishes, and that it does not fail

    - [published_once]: whatever batches the raft library hands out, the key-value
      store sees every committed entry once and in order;
    - [node_ready_safe]: processing a [Ready] that honours the library's contract
      neither panics nor breaks the invariant of the node, snapshots and
      compaction included;
    - [storage_append]: the log storage below it. *)
From S2P Require Import Prelude GoRt EtcdStorage EtcdNode.
Open Scope Z_scope.

(** ** What the node publishes *)

(** The values sent on [commitC]. *)
Definition commits (l : list effect) : list (option string) :=
  omap (λ e, match e with Commit v => Some v | _ => None end) l.

(** What the commit channel should carry for an entry: its data, then the marker
    after the last entry of the replayed log. *)
Definition entry_commits (li : Z) (e : Entry) : list (option string) :=
  (match E_Type e with
   | EntryNormal => if decide (data_of e = EmptyString) then [] else [Some (data_of e)]
   | EntryConfChange => []
   end) ++ (if E_Index e =? li then [None] else []).

Definition stream (li : Z) (ents : list Entry) : list (option string) :=
  concat (map (entry_commits li) ents).

Lemma commits_app l1 l2 : commits (l1 ++ l2) = commits l1 ++ commits l2.
Proof. apply omap_app. Qed.

(** ** Steps that publish nothing *)

(** [calm]: only the trace, by effects other than commits, and the lists of failures
    and stops changed. *)
Record calm (rc rc' : raftNode) : Prop := {
  calm_id : rc_id rc' = rc_id rc;
  calm_last : lastIndex rc' = lastIndex rc;
  calm_conf : confState rc' = confState rc;
  calm_snap : snapshotIndex rc' = snapshotIndex rc;
  calm_applied : appliedIndex rc' = appliedIndex rc;
  calm_storage : raftStorage rc' = raftStorage rc;
  calm_count : snapCount rc' = snapCount rc;
  calm_commits : commits (out rc') = commits (out rc);
  calm_faults : faults rc = [] → faults rc' = [];
}.

#[export] Instance calm_preorder : PreOrder calm.
Proof.
  split; [by split|]. intros x y z [] []. split; try congruence. auto.
Qed.

Definition quiet (e : effect) : Prop := match e with Commit _ => False | _ => True end.

Lemma commits_quiet l e : quiet e → commits (l ++ [e]) = commits l.
Proof. intros He. rewrite commits_app. destruct e; try done; apply app_nil_r. Qed.

Section steps.
Context (E : string → Prop).
Implicit Types rc : raftNode.

Lemma emit_wp e rc (Q : () → raftNode → Prop) :
  quiet e → (∀ rc', calm rc rc' → Q tt rc') → wp E (emit e) Q rc.
Proof. intros He HQ. unfold emit. wp_step. apply HQ. split; try done. by apply commits_quiet. Qed.

Lemma disk_wp e rc (Q : bool → raftNode → Prop) :
  quiet e → (∀ ok rc', calm rc rc' → (faults rc = [] → ok = true) → Q ok rc') → wp E (disk e) Q rc.
Proof.
  intros He HQ. unfold disk, emit. do 2 wp_step. destruct (faults rc) as [|[] l] eqn:Hf; wp_steps; apply HQ;
    try done; (split; [done..|cbn; try by apply commits_quiet|rewrite Hf; done]); done.
Qed.

Lemma saveSnap_wp snap rc (Q : bool → raftNode → Prop) :
  (∀ ok rc', calm rc rc' → (faults rc = [] → ok = true) → Q ok rc') → wp E (saveSnap snap) Q rc.
Proof.
  intros HQ. unfold saveSnap. wp_step. apply disk_wp; [done|]. intros [] rc1 H1 Hf1; cbn [negb]; [|by wp_step; apply HQ].
  wp_step. apply disk_wp; [done|]. intros [] rc2 H2 Hf2; cbn [negb].
  - apply disk_wp; [done|]. intros ok rc3 H3 Hf3. apply HQ; [by etrans; [|etrans]|].
    intros Hf. apply Hf3, (calm_faults _ _ H2), (calm_faults _ _ H1), Hf.
  - wp_step. apply HQ; [by etrans|]. intros Hf. apply Hf2, (calm_faults _ _ H1), Hf.
Qed.

Lemma on_storage_wp {A} (m : M MemoryStorage A) rc (Q : A → raftNode → Prop) :
  wp E m (λ a ms, Q a (set_storage ms rc)) (raftStorage rc) → wp E (on_storage m) Q rc.
Proof. unfold wp, on_storage. by destruct (m (raftStorage rc)) as [[a ms]|]. Qed.

(** *** Publication *)

Context (unmarshal : option string → ConfChange).

(** What publication does not touch: everything but the trace, [appliedIndex] and [stops]. *)
Record framed (rc rc' : raftNode) : Prop := {
  fr_last : lastIndex rc' = lastIndex rc;
  fr_conf : confState rc' = confState rc;
  fr_snap : snapshotIndex rc' = snapshotIndex rc;
  fr_storage : raftStorage rc' = raftStorage rc;
  fr_count : snapCount rc' = snapCount rc;
  fr_faults : faults rc' = faults rc;
}.

Lemma send_commit_wp v rc (Q : bool → raftNode → Prop) :
  (∀ l, Q false (set_stops l rc)) →
  (∀ l, Q true (set_out (out rc ++ [Commit v]) (set_stops l rc))) → wp E (send_commit v) Q rc.
Proof.
  intros Hf Ht. unfold send_commit, emit. do 2 wp_step.
  destruct (stops rc) as [|[] l]; wp_steps; [apply (Ht [])|apply Hf|apply (Ht l)].
Qed.

Lemma framed_trans rc1 rc2 rc3 : framed rc1 rc2 → framed rc2 rc3 → framed rc1 rc3.
Proof. intros [] []. split; congruence. Qed.

(** The data of one entry. *)
Definition body_commits (e : Entry) : list (option string) :=
  match E_Type e with
  | EntryNormal => if decide (data_of e = EmptyString) then [] else [Some (data_of e)]
  | EntryConfChange => []
  end.

Lemma publish_entry_wp e rc :
  wp E (publish_entry unmarshal e) (λ ok rc',
    framed rc rc' ∧ appliedIndex rc' = appliedIndex rc ∧
    (ok = true → commits (out rc') = commits (out rc) ++ body_commits e)) rc.
Proof.
  unfold publish_entry, body_commits. destruct (E_Type e).
  - destruct (decide _); [wp_steps; by rewrite app_nil_r|].
    apply send_commit_wp; intros l; (split; [done|]); (split; [done|]); [done|]. intros _. apply commits_app.
  - rewrite app_nil_r. unfold emit. do 2 wp_step.
    set (rc1 := set_out _ rc). assert (H1 : commits (out rc1) = commits (out rc)) by (by apply commits_quiet).
    destruct (CC_Type _).
    + destruct (negb _); wp_steps; (split; [done|]); (split; [done|]); [|done].
      intros _. cbn [out set_out]. by rewrite commits_quiet.
    + do 2 wp_step. destruct (_ =? _); wp_steps; (split; [done|]); (split; [done|]); [done|].
      intros _. cbn [out set_out]. by rewrite commits_quiet.
    + by wp_steps.
Qed.

Lemma marker_wp e rc :
  wp E (if E_Index e =? lastIndex rc then send_commit None else ret true) (λ ok rc',
    framed rc rc' ∧ appliedIndex rc' = appliedIndex rc ∧
    (ok = true → commits (out rc') = commits (out rc) ++ if E_Index e =? lastIndex rc then [None] else [])) rc.
Proof.
  destruct (E_Index e =? lastIndex rc); [|wp_steps; by rewrite app_nil_r].
  apply send_commit_wp; intros l; (split; [done|]); (split; [done|]); [done|]. intros _. apply commits_app.
Qed.

Lemma publishEntries_wp ents : ∀ rc,
  wp E (publishEntries unmarshal ents) (λ ok rc',
    framed rc rc' ∧
    (appliedIndex rc' = appliedIndex rc ∨ ∃ e, e ∈ ents ∧ appliedIndex rc' = E_Index e) ∧
    (ok = true → commits (out rc') = commits (out rc) ++ stream (lastIndex rc) ents ∧
       appliedIndex rc' = from_option E_Index (appliedIndex rc) (last ents))) rc.
Proof.
  induction ents as [|e ents IH]; intros rc; cbn [publishEntries].
  { wp_steps. split; [done|]. split; [by left|]. intros _. by rewrite app_nil_r. }
  wp_step. eapply wp_mono; [apply publish_entry_wp|]. intros [] rc1 (F1 & A1 & C1); cbn [negb].
  2: { wp_step. split; [done|]. split; [by left|]. done. }
  do 5 wp_step. set (rc2 := set_appliedIndex _ rc1). eapply wp_mono; [apply marker_wp|].
  assert (F2 : framed rc rc2) by (destruct F1; by split).
  intros [] rc3 (F3 & A3 & C3); cbn [negb].
  2: { wp_step. split; [by eapply framed_trans|]. split; [|done]. right. exists e. split; [left|]. by rewrite A3. }
  eapply wp_mono; [apply IH|]. intros ok rc4 (F4 & A4 & C4).
  assert (F24 : framed rc rc4) by (eapply framed_trans; [done|]; by eapply framed_trans).
  split; [done|]. split.
  { right. destruct A4 as [->|(e' & He' & ->)]; [exists e; split; [left|by rewrite A3]|].
    exists e'. split; [by right|done]. }
  intros Hok. destruct (C4 Hok) as [C4' A4'].
  rewrite (fr_last _ _ F3) in C4'. cbn [rc2 set_appliedIndex lastIndex] in C4'.
  rewrite (fr_last _ _ F1) in C4'. split.
  - rewrite C4', C3 by done. cbn [rc2 set_appliedIndex out lastIndex]. rewrite C1, (fr_last _ _ F1) by done.
    unfold stream. cbn [map concat]. unfold entry_commits, body_commits. by rewrite <- !app_assoc.
  - rewrite A4', A3. destruct ents as [|e' ents]; [done|]. rewrite last_cons_cons.
    destruct (last (e' :: ents)) eqn:Hl; [done|]. by apply last_None in Hl.
Qed.

(** *** The entries to publish *)

(** A batch of committed entries: the part [lo, hi) of the committed log [L]. *)
Record batch (L : Z → option Entry) (lo hi : Z) (ents : list Entry) : Prop := {
  ba_ents : ents = sub L lo hi;
  ba_bounds : 0 ≤ lo < hi ∧ hi < 2 ^ 62;
  ba_log : ∀ i, lo ≤ i < hi → ∃ e, L i = Some e ∧ E_Index e = i;
}.

Lemma batch_Some L lo hi ents i : batch L lo hi ents → lo ≤ i < hi → is_Some (L i).
Proof. intros Hb Hi. destruct (ba_log _ _ _ _ Hb i Hi) as (e & -> & _). eauto. Qed.

Lemma batch_index L lo hi ents e : batch L lo hi ents → e ∈ ents → lo ≤ E_Index e < hi.
Proof.
  intros Hb [k Hk]%list_elem_of_lookup_1. rewrite (ba_ents _ _ _ _ Hb), sub_lookup in Hk
    by (intros; by eapply batch_Some).
  case_match; [|done]. boolify. destruct (ba_log _ _ _ _ Hb (lo + Z.of_nat k)) as (e' & He' & Hi'); [lia|].
  simplify_eq. lia.
Qed.

Lemma entriesToApply_wp L lo hi ents rc :
  batch L lo hi ents → 0 ≤ appliedIndex rc < 2 ^ 62 → lo ≤ appliedIndex rc + 1 →
  wp E (entriesToApply ents) (λ r rc', rc' = rc ∧ r = sub L (appliedIndex rc + 1) hi) rc.
Proof.
  intros Hb Ha Hlo. destruct (ba_bounds _ _ _ _ Hb) as [? ?].
  assert (Hlen : go_len ents = hi - lo).
  { rewrite (ba_ents _ _ _ _ Hb), sub_length by (intros; by eapply batch_Some). lia. }
  assert (Hcut : ents = sub L lo (Z.min hi (appliedIndex rc + 1)) ++ sub L (appliedIndex rc + 1) hi).
  { rewrite (ba_ents _ _ _ _ Hb). destruct (Z.le_gt_cases hi (appliedIndex rc + 1)).
    - rewrite Z.min_l by lia. unfold sub at 3. by rewrite seqZ_nil, app_nil_r by lia.
    - rewrite Z.min_r by lia. apply sub_app. lia. }
  destruct ents as [|e0 rest] eqn:Hents; [unfold go_len in Hlen; cbn in Hlen; lia|].
  assert (He0 : E_Index e0 = lo).
  { assert (Hl : sub L lo hi !! 0%nat = Some e0) by (by rewrite <- (ba_ents _ _ _ _ Hb)).
    rewrite sub_lookup in Hl by (intros; by eapply batch_Some). case_match; [|done].
    destruct (ba_log _ _ _ _ Hb (lo + Z.of_nat 0)) as (e' & He' & Hi'); [lia|]. simplify_eq. lia. }
  unfold entriesToApply. rewrite <- Hents in *. do 2 wp_step. rewrite He0, (u64_id (_ + 1)) by lia.
  destruct (Z.ltb_spec (appliedIndex rc + 1) lo); [lia|]. do 2 wp_step.
  assert (Hoff : u64 (u64 (appliedIndex rc - lo) + 1) = appliedIndex rc + 1 - lo).
  { unfold u64. rewrite Z.add_mod_idemp_l by lia.
    replace (appliedIndex rc - lo + 1) with (appliedIndex rc + 1 - lo) by lia. rewrite Z.mod_small; lia. }
  rewrite Hoff, Hlen. destruct (Z.ltb_spec (appliedIndex rc + 1 - lo) (hi - lo)).
  - eapply wp_must; [rewrite <- Hlen; apply go_slice_tail; lia|]. split; [done|].
    rewrite Hcut at 1. apply drop_app_length'.
    pose proof (sub_length L lo (Z.min hi (appliedIndex rc + 1))) as Hs.
    unfold go_len in Hs. rewrite Z.max_r in Hs by lia.
    specialize (Hs ltac:(intros; eapply batch_Some; [done|lia])). lia.
  - wp_step. split; [done|]. unfold sub. by rewrite seqZ_nil by lia.
Qed.

(** *** The invariant of the node *)

Record node_inv (rc : raftNode) : Prop := {
  ni_storage : ms_ok (raftStorage rc);
  ni_base : ms_base (raftStorage rc) ≤ snapshotIndex rc;
  ni_snap : SM_Index (Metadata (ms_snapshot (raftStorage rc))) = snapshotIndex rc;
  ni_applied : snapshotIndex rc ≤ appliedIndex rc ≤ ms_last (raftStorage rc);
  ni_count : snapCount rc = defaultSnapCount;
}.

Lemma node_inv_bounds rc :
  node_inv rc → 0 ≤ ms_base (raftStorage rc) ∧ 0 ≤ appliedIndex rc ∧ ms_last (raftStorage rc) < 2 ^ 62.
Proof.
  intros [Hok Hb _ Ha _]. destruct (lv_bounds _ _ _ (ms_view _ Hok)). lia.
Qed.

Lemma node_inv_calm rc rc' : calm rc rc' → node_inv rc → node_inv rc'.
Proof.
  intros Hc [H1 H2 H3 H4 H5]. destruct Hc as [_ _ _ Hs Ha Hst Hn _ _].
  split; rewrite ?Hst, ?Hs, ?Ha, ?Hn; done.
Qed.

(** What the raft library promises about a [Ready], given the state of the node:
    a snapshot is newer than what was applied, the entries to save continue the
    log behind it without a gap, and the committed entries start no later than the
    first one not applied and are saved. *)
Definition snap_applied (rc : raftNode) (rd : Ready) : Z :=
  if IsEmptySnap (rd_Snapshot rd) then appliedIndex rc else SM_Index (Metadata (rd_Snapshot rd)).
Definition snap_last (rc : raftNode) (rd : Ready) : Z :=
  if IsEmptySnap (rd_Snapshot rd) then ms_last (raftStorage rc) else SM_Index (Metadata (rd_Snapshot rd)).
Definition ready_last (rc : raftNode) (rd : Ready) : Z :=
  match rd_Entries rd with
  | [] => snap_last rc rd
  | e0 :: _ => E_Index e0 + go_len (rd_Entries rd) - 1
  end.

Record ready_ok (L : Z → option Entry) (rc : raftNode) (rd : Ready) : Prop := {
  ro_snap : IsEmptySnap (rd_Snapshot rd) = false →
    appliedIndex rc < SM_Index (Metadata (rd_Snapshot rd)) < 2 ^ 62;
  ro_entries : match rd_Entries rd with
    | [] => True
    | e0 :: l => contiguous (E_Index e0) (e0 :: l) ∧
                 snap_applied rc rd < E_Index e0 ≤ snap_last rc rd + 1 ∧
                 E_Index e0 + go_len (e0 :: l) ≤ 2 ^ 62
    end;
  ro_committed : match rd_CommittedEntries rd with
    | [] => True
    | ents => ∃ lo hi, batch L lo hi ents ∧ lo ≤ snap_applied rc rd + 1 ∧ hi ≤ ready_last rc rd + 1
    end;
}.

Lemma publishSnapshot_wp snap rc (Q : () → raftNode → Prop) :
  let md := Metadata snap in
  IsEmptySnap snap = false → appliedIndex rc < SM_Index md →
  Q tt (set_appliedIndex (SM_Index md) (set_snapshotIndex (SM_Index md) (set_confState (SM_ConfState md)
         (set_out (out rc ++ [Commit None]) rc)))) →
  wp E (publishSnapshot snap) Q rc.
Proof.
  intros md He Hlt HQ. unfold publishSnapshot, emit. rewrite He. do 2 wp_step.
  destruct (Z.leb_spec (SM_Index (Metadata snap)) (appliedIndex rc)); [subst md; lia|]. wp_steps. exact HQ.
Qed.

(** The node has stored a [Ready]: it has applied up to [a], its log ends at [l], and it
    sent [cs] on the commit channel. *)
Record stored (rc : raftNode) (a l : Z) (cs : list (option string)) (rc' : raftNode) : Prop := {
  so_inv : node_inv rc';
  so_applied : appliedIndex rc' = a;
  so_log : ms_last (raftStorage rc') = l;
  so_last : lastIndex rc' = lastIndex rc;
  so_commits : commits (out rc') = commits (out rc) ++ cs;
  so_faults : faults rc = [] → faults rc' = [];
}.

Lemma stored_calm rc a l cs rc1 rc2 : stored rc a l cs rc1 → calm rc1 rc2 → stored rc a l cs rc2.
Proof.
  intros [S1 S2 S3 S4 S5 S6] Hc. pose proof (node_inv_calm _ _ Hc S1).
  destruct Hc as [_ T2 _ _ T5 T6 _ T8 T9]. split; [done|..]; rewrite ?T5, ?T6, ?T2, ?T8; auto.
Qed.
Lemma calm_stored rc a l cs rc0 rc1 : calm rc rc0 → stored rc0 a l cs rc1 → stored rc a l cs rc1.
Proof.
  intros [_ T2 _ _ _ _ _ T8 T9] [S1 S2 S3 S4 S5 S6]. split; try done; [by rewrite <- T2|by rewrite <- T8|auto].
Qed.

Definition snap_commits (rd : Ready) : list (option string) :=
  if IsEmptySnap (rd_Snapshot rd) then [] else [None].

Lemma store_snapshot_wp L rd rc :
  node_inv rc → ready_ok L rc rd →
  wp E (when negb (IsEmptySnap (rd_Snapshot rd)) do
          (saveSnap (rd_Snapshot rd) ;;
           on_storage (ApplySnapshot (rd_Snapshot rd)) ;;
           publishSnapshot (rd_Snapshot rd)))
    (λ _, stored rc (snap_applied rc rd) (snap_last rc rd) (snap_commits rd)) rc.
Proof.
  intros Hinv Hro. unfold snap_applied, snap_last, snap_commits.
  destruct (IsEmptySnap (rd_Snapshot rd)) eqn:He; cbn [negb].
  { wp_step. split; try done. by rewrite app_nil_r. }
  pose proof (ro_snap _ _ _ Hro He) as Hs. pose proof (node_inv_bounds rc Hinv) as (? & ? & ?).
  wp_step. apply saveSnap_wp. intros ok rc1 Hc _. pose proof (node_inv_calm _ _ Hc Hinv) as [_ _ Hsn Ha Hcnt].
  pose proof (calm_applied _ _ Hc) as Hca.
  wp_step. apply on_storage_wp. eapply wp_mono; [apply ms_ApplySnapshot_wp; lia|].
  intros r ms (-> & Hok & Hb & Hl & _ & Hms). apply publishSnapshot_wp; [done|cbn; lia|].
  split; cbn; [split; cbn; rewrite ?Hms; lia || done|done|done|apply (calm_last _ _ Hc)| |apply (calm_faults _ _ Hc)].
  rewrite commits_app, (calm_commits _ _ Hc). done.
Qed.

(** Appending the entries of a [Ready] to the storage. *)
Lemma append_ready_wp L rd rc rc2 :
  ready_ok L rc rd → stored rc (snap_applied rc rd) (snap_last rc rd) (snap_commits rd) rc2 →
  wp E (on_storage (ms_Append (rd_Entries rd)))
    (λ _, stored rc (snap_applied rc rd) (ready_last rc rd) (snap_commits rd)) rc2.
Proof.
  intros Hro [Hinv Ha Hl Hli Hcm Hf]. apply on_storage_wp. unfold ready_last.
  pose proof (ro_entries _ _ _ Hro) as Hre. pose proof (node_inv_bounds rc2 Hinv) as (? & ? & ?).
  destruct (rd_Entries rd) as [|e0 l]; cbn [ms_Append]; [wp_step; by split; destruct Hinv|].
  destruct Hre as (Hcont & [Hlo Hhi] & Hb), Hinv as [I1 I2 I3 I4 I5].
  eapply wp_weaken; [|eapply wp_mono; [apply (ms_Append_snapshot_wp _ (E_Index e0)); [done|done|lia|done]|]].
  - intros w [_ Hgap]. lia.
  - intros r ms (_ & Hok & Hb' & _ & Hs' & Hcase). rewrite go_len_cons in *. pose proof (go_len_pos l).
    destruct (Z.leb_spec (E_Index e0 + (go_len l + 1)) (ms_base (raftStorage rc2) + 1)); [lia|].
    destruct Hcase as [Hl' _]. split; cbn; [split; cbn; rewrite ?Hs'; lia || done|done|lia|done..].
Qed.

Lemma store_ready_wp L rd rc :
  node_inv rc → ready_ok L rc rd →
  wp E (store_ready rd) (λ _, stored rc (snap_applied rc rd) (ready_last rc rd) (snap_commits rd)) rc.
Proof.
  intros Hinv Hro. unfold store_ready. wp_step. apply disk_wp; [done|]. intros ok rc1 Hc _.
  assert (Hsa : snap_applied rc1 rd = snap_applied rc rd) by (unfold snap_applied; by rewrite (calm_applied _ _ Hc)).
  assert (Hsl : snap_last rc1 rd = snap_last rc rd) by (unfold snap_last; by rewrite (calm_storage _ _ Hc)).
  assert (Hro1 : ready_ok L rc1 rd).
  { destruct Hro as [R1 R2 R3]. split; unfold ready_last in *; rewrite ?Hsa, ?Hsl, ?(calm_applied _ _ Hc); done. }
  wp_step. eapply wp_mono; [eapply store_snapshot_wp; [by eapply node_inv_calm|done]|].
  intros ? rc2 Hst. rewrite Hsa, Hsl in Hst. apply (calm_stored _ _ _ _ _ _ Hc) in Hst.
  wp_step. eapply wp_mono; [apply (append_ready_wp L _ _ _ Hro Hst)|]. intros ? rc3 Hst3.
  apply emit_wp; [done|]. intros rc4 Hc4. exact (stored_calm _ _ _ _ _ _ Hst3 Hc4).
Qed.

(** *** Snapshots of the node *)

Lemma maybeTriggerSnapshot_wp data rc :
  node_inv rc → faults rc = [] →
  wp E (maybeTriggerSnapshot (Some data)) (λ _ rc', node_inv rc' ∧ appliedIndex rc' = appliedIndex rc ∧
    lastIndex rc' = lastIndex rc ∧ commits (out rc') = commits (out rc) ∧ faults rc' = []) rc.
Proof.
  intros Hinv Hf. pose proof Hinv as [I1 I2 I3 I4 I5]. pose proof (node_inv_bounds rc Hinv) as (? & ? & ?).
  unfold maybeTriggerSnapshot. do 2 wp_step. rewrite I5, u64_id by lia. unfold defaultSnapCount.
  destruct (Z.leb_spec (appliedIndex rc - snapshotIndex rc) 10000); [by wp_step|].
  wp_step. eapply wp_must; [done|]. wp_step. apply on_storage_wp.
  eapply wp_mono; [apply ms_CreateSnapshot_wp; [done|lia|lia]|].
  intros r ms (e & He & -> & ->). wp_step. apply saveSnap_wp. intros ok rc1 Hc Hok.
  rewrite (Hok Hf). cbn [negb]. do 2 wp_step. unfold snapshotCatchUpEntriesN.
  destruct (Z.ltb_spec 10000 (appliedIndex rc)); [|lia]. rewrite u64_id by lia.
  wp_step. apply on_storage_wp. rewrite (calm_storage _ _ Hc). cbn [raftStorage set_storage].
  eapply wp_mono; [apply ms_Compact_wp; [exact I1|]|].
  { change (ms_base (raftStorage rc) < appliedIndex rc - 10000 ≤ ms_last (raftStorage rc)). lia. }
  intros r ms' (-> & Hok' & Hb' & Hl' & Hs' & _). rewrite bool_decide_eq_false_2 by (intros Hne; by apply Hne). wp_steps.
  destruct Hc as [_ T2 _ _ T5 _ T7 T8 T9].
  cbn [raftStorage set_storage set_snapshotIndex appliedIndex lastIndex out faults snapCount] in *.
  split; [|rewrite T5, T2, T8; auto].
  change (ms_last (set_snapshot _ (raftStorage rc))) with (ms_last (raftStorage rc)) in Hl'.
  split; cbn; rewrite ?Hb', ?Hs', ?T5, ?T7; cbn; done || lia.
Qed.

(** *** A [Ready], from storing it to [Advance] *)

(** [L] holds the entries from [lo] up to [hi]. *)
Definition holds (L : Z → option Entry) (lo hi : Z) : Prop :=
  ∀ i, lo ≤ i < hi → ∃ e, L i = Some e ∧ E_Index e = i.

Lemma holds_index L lo hi e : holds L lo hi → e ∈ sub L lo hi → lo ≤ E_Index e < hi.
Proof.
  intros Hh He. unfold sub in He. apply list_elem_of_omap in He as (i & Hi%elem_of_seqZ & Hl).
  destruct (Hh i) as (e' & He' & <-); [lia|]. simplify_eq. lia.
Qed.

Lemma sub_last L lo hi : lo ≤ hi → holds L lo hi → from_option E_Index (lo - 1) (last (sub L lo hi)) = hi - 1.
Proof.
  intros Hle Hh. destruct (Z.eq_dec lo hi) as [->|].
  - unfold sub. by rewrite Z.sub_diag, seqZ_nil by lia.
  - destruct (Hh (hi - 1)) as (e & He & Hi); [lia|].
    rewrite (sub_app L lo (hi - 1) hi) by lia.
    assert (Hl : sub L (hi - 1) hi = [e]).
    { unfold sub. replace (hi - (hi - 1)) with 1 by lia.
      rewrite seqZ_cons, seqZ_nil by lia. cbn. by rewrite He. }
    rewrite Hl, last_snoc. done.
Qed.

(** What is left to publish of a [Ready]. *)
Lemma apply_ready_wp L rd rc rc1 :
  ready_ok L rc rd → stored rc (snap_applied rc rd) (ready_last rc rd) (snap_commits rd) rc1 →
  wp E (entriesToApply (rd_CommittedEntries rd)) (λ r rc', rc' = rc1 ∧ ∃ hi,
    r = sub L (snap_applied rc rd + 1) hi ∧ snap_applied rc rd + 1 ≤ hi ≤ ready_last rc rd + 1 ∧
    holds L (snap_applied rc rd + 1) hi) rc1.
Proof.
  intros Hro [S1 S2 S3 S4 S5 S6]. pose proof (node_inv_bounds rc1 S1) as (? & ? & ?).
  assert (Hle : snap_applied rc rd ≤ ready_last rc rd) by (destruct S1; lia).
  assert (Hnil : ∀ hi, hi ≤ snap_applied rc rd + 1 → sub L (snap_applied rc rd + 1) hi = [])
    by (intros hi ?; unfold sub; by rewrite seqZ_nil by lia).
  pose proof (ro_committed _ _ _ Hro) as Hc. destruct (rd_CommittedEntries rd) as [|e0 l] eqn:Hents.
  - cbn [entriesToApply]. wp_step. split; [done|]. exists (snap_applied rc rd + 1). rewrite Hnil by lia.
    split; [done|]. split; [lia|]. intros i ?. lia.
  - destruct Hc as (lo & hi & Hb & Hlo & Hhi).
    eapply wp_mono; [apply (entriesToApply_wp L lo hi); [done|lia|lia]|]. intros r rc' [-> ->]. split; [done|].
    exists (Z.max hi (snap_applied rc rd + 1)). rewrite S2. split; [|split; [lia|]].
    + destruct (Z.le_gt_cases hi (snap_applied rc rd + 1)).
      * rewrite Z.max_r by lia. by rewrite !Hnil by lia.
      * by rewrite Z.max_l by lia.
    + intros i ?. apply (ba_log _ _ _ _ Hb). lia.
Qed.

Lemma stop_wp rc (Q : () → raftNode → Prop) : (∀ rc', calm rc rc' → Q tt rc') → wp E stop Q rc.
Proof.
  intros HQ. unfold stop, stopHTTP. wp_step. apply emit_wp; [done|]. intros rc1 H1.
  wp_step. apply emit_wp; [done|]. intros rc2 H2. wp_step. apply emit_wp; [done|]. intros rc3 H3.
  apply emit_wp; [done|]. intros rc4 H4. apply HQ. by repeat (etrans; [eassumption|]).
Qed.

Lemma serve_ready_wp L rd data rc :
  node_inv rc → ready_ok L rc rd → faults rc = [] →
  wp E (serve_event unmarshal (EvReady rd (Some data))) (λ more rc',
    node_inv rc' ∧ faults rc' = [] ∧ lastIndex rc' = lastIndex rc ∧
    (more = true →
       snap_applied rc rd ≤ appliedIndex rc' ∧
       holds L (snap_applied rc rd + 1) (appliedIndex rc' + 1) ∧
       commits (out rc') = commits (out rc) ++ snap_commits rd ++
         stream (lastIndex rc) (sub L (snap_applied rc rd + 1) (appliedIndex rc' + 1)))) rc.
Proof.
  intros Hinv Hro Hf. cbn [serve_event]. wp_step. eapply wp_mono; [by eapply store_ready_wp|].
  intros ? rc1 Hst. wp_step. eapply wp_mono; [by apply (apply_ready_wp L _ rc)|].
  intros r ? (-> & hi & -> & Hhi & Hh). destruct Hst as [S1 S2 S3 S4 S5 S6].
  wp_step. eapply wp_mono; [apply publishEntries_wp|]. intros ok rc2 (F & A & C).
  assert (Hinv2 : node_inv rc2).
  { destruct S1 as [I1 I2 I3 I4 I5], F as [_ _ F3 F4 F5 _]. split; rewrite ?F4, ?F3, ?F5; try done.
    destruct A as [->|(e & He & ->)]; [done|]. apply (holds_index _ _ _ _ Hh) in He. lia. }
  assert (Hf2 : faults rc2 = []) by (rewrite (fr_faults _ _ F); auto).
  assert (Hl2 : lastIndex rc2 = lastIndex rc) by (rewrite (fr_last _ _ F); done).
  destruct ok; cbn [negb].
  - destruct (C eq_refl) as [Hc2 Ha2]. rewrite S2 in Ha2.
    replace (snap_applied rc rd) with (snap_applied rc rd + 1 - 1) in Ha2 at 1 by lia.
    rewrite sub_last in Ha2 by (done || lia).
    wp_step. eapply wp_mono; [by apply maybeTriggerSnapshot_wp|].
    intros ? rc3 (Hinv3 & Ha3 & Hl3 & Hc3 & Hf3). wp_step. apply emit_wp; [done|]. intros rc4 Hc4.
    wp_step. split; [by eapply node_inv_calm|]. split; [by apply (calm_faults _ _ Hc4)|].
    split; [rewrite (calm_last _ _ Hc4); congruence|]. intros _.
    rewrite (calm_applied _ _ Hc4), Ha3, Ha2, (calm_commits _ _ Hc4), Hc3, Hc2, S5, S4, <- app_assoc.
    split; [lia|]. replace (hi - 1 + 1) with hi by lia. done.
  - wp_step. apply stop_wp. intros rc3 Hc3. wp_step. split; [by eapply node_inv_calm|].
    split; [by apply (calm_faults _ _ Hc3)|]. split; [rewrite (calm_last _ _ Hc3); congruence|done].
Qed.
End steps.

(** ** The theorems *)

(** The events the raft library produces in a run that starts at [rc]. *)
Fixpoint honoured (unmarshal : option string → ConfChange) (L : Z → option Entry)
    (evs : list event) (rc : raftNode) : Prop :=
  match evs with
  | [] => True
  | ev :: evs' =>
      match ev with
      | EvTick => True
      | EvReady rd (Some _) => ready_ok L rc rd
      | _ => False
      end ∧ ∀ more rc', serve_event unmarshal ev rc = Ok (more, rc') → honoured unmarshal L evs' rc'
  end.

Definition no_snapshots (evs : list event) : Prop :=
  Forall (λ ev, match ev with EvReady rd _ => IsEmptySnap (rd_Snapshot rd) = true | _ => True end) evs.

Lemma stream_app li l1 l2 : stream li (l1 ++ l2) = stream li l1 ++ stream li l2.
Proof. unfold stream. by rewrite map_app, concat_app. Qed.

Lemma holds_nil L i : holds L i i.
Proof. intros k ?. lia. Qed.
Lemma holds_app L lo mid hi : holds L lo mid → holds L mid hi → holds L lo hi.
Proof. intros H1 H2 i Hi. destruct (Z.lt_ge_cases i mid); [apply H1|apply H2]; lia. Qed.
Lemma holds_contiguous L lo hi : holds L lo hi → contiguous lo (sub L lo hi).
Proof.
  intros Hh k e Hk. rewrite sub_lookup in Hk
    by (intros i Hi; destruct (Hh i Hi) as (? & -> & _); eauto).
  case_match; [|done]. boolify. destruct (Hh (lo + Z.of_nat k)) as (e' & He' & <-); [lia|]. congruence.
Qed.

Lemma sub_nil L i : sub L i i = [].
Proof. unfold sub. by rewrite Z.sub_diag. Qed.

Section loop.
Context (unmarshal : option string → ConfChange) (L : Z → option Entry).

(** One event, with what it publishes if it carries no snapshot. *)
Lemma event_wp ev evs rc :
  node_inv rc → faults rc = [] → honoured unmarshal L (ev :: evs) rc →
  wp (λ _, False) (serve_event unmarshal ev) (λ more rc',
    node_inv rc' ∧ faults rc' = [] ∧ honoured unmarshal L evs rc' ∧ lastIndex rc' = lastIndex rc ∧
    (no_snapshots [ev] → more = true → appliedIndex rc ≤ appliedIndex rc' ∧
       holds L (appliedIndex rc + 1) (appliedIndex rc' + 1) ∧
       commits (out rc') = commits (out rc) ++
         stream (lastIndex rc) (sub L (appliedIndex rc + 1) (appliedIndex rc' + 1)))) rc.
Proof.
  intros Hinv Hf [Hev Hnext].
  assert (Hstep : wp (λ _, False) (serve_event unmarshal ev) (λ more rc',
    node_inv rc' ∧ faults rc' = [] ∧ lastIndex rc' = lastIndex rc ∧
    (no_snapshots [ev] → more = true → appliedIndex rc ≤ appliedIndex rc' ∧
       holds L (appliedIndex rc + 1) (appliedIndex rc' + 1) ∧
       commits (out rc') = commits (out rc) ++
         stream (lastIndex rc) (sub L (appliedIndex rc + 1) (appliedIndex rc' + 1)))) rc).
  { destruct ev as [|rd [data|]|err|]; try done.
    - cbn [serve_event]. wp_step. apply emit_wp; [done|]. intros rc1 Hc. wp_step.
      split; [by eapply node_inv_calm|]. split; [by apply (calm_faults _ _ Hc)|].
      split; [apply (calm_last _ _ Hc)|]. intros _ _.
      rewrite (calm_applied _ _ Hc), (calm_commits _ _ Hc), sub_nil, app_nil_r.
      split; [done|]. split; [apply holds_nil|done].
    - eapply wp_mono; [by apply (serve_ready_wp _ _ L)|]. intros more rc' (H1 & H2 & H3 & H4).
      split; [done|]. split; [done|]. split; [done|]. intros Hns Hm. destruct (H4 Hm) as (Ha & Hh & Hc).
      apply Forall_inv in Hns. change (IsEmptySnap (rd_Snapshot rd) = true) in Hns.
      unfold snap_applied, snap_commits in Ha, Hh, Hc. rewrite Hns in Ha, Hh, Hc. done. }
  unfold wp in *. destruct (serve_event unmarshal ev rc) as [[more rc']|] eqn:Hrun; [|done].
  destruct Hstep as (H1 & H2 & H3 & H4). pose proof (Hnext more rc' eq_refl). auto 10.
Qed.

Lemma loop_wp evs : ∀ rc,
  node_inv rc → faults rc = [] → honoured unmarshal L evs rc →
  wp (λ _, False) (serve_loop unmarshal evs) (λ more rc',
    node_inv rc' ∧
    (no_snapshots evs → more = true → appliedIndex rc ≤ appliedIndex rc' ∧
       holds L (appliedIndex rc + 1) (appliedIndex rc' + 1) ∧
       commits (out rc') = commits (out rc) ++
         stream (lastIndex rc) (sub L (appliedIndex rc + 1) (appliedIndex rc' + 1)))) rc.
Proof.
  induction evs as [|ev evs IH]; intros rc Hinv Hf Hh; cbn [serve_loop].
  { wp_step. split; [done|]. intros _ _. rewrite sub_nil, app_nil_r. split; [done|]. split; [apply holds_nil|done]. }
  wp_step. eapply wp_mono; [by eapply event_wp|]. intros [] rc1 (Hinv1 & Hf1 & Hh1 & Hl1 & Hp1).
  - eapply wp_mono; [by apply IH|]. intros more rc2 [Hinv2 Hp2]. split; [done|].
    intros [Hn1 Hn2]%Forall_cons Hm. destruct (Hp1 ltac:(by constructor) eq_refl) as (Ha1 & Hho1 & Hc1).
    destruct (Hp2 Hn2 Hm) as (Ha2 & Hho2 & Hc2). split; [lia|]. split; [exact (holds_app _ _ _ _ Hho1 Hho2)|].
    rewrite Hc2, Hc1, Hl1, <- app_assoc. f_equal.
    by rewrite (sub_app L (appliedIndex rc + 1) (appliedIndex rc1 + 1) (appliedIndex rc2 + 1)), stream_app by lia.
  - wp_step. apply emit_wp; [done|]. intros rc2 Hc. wp_step. split; [by eapply node_inv_calm|done].
Qed.
End loop.

(** C9: The commit channel is an exact copy of the committed log: if no disk operation
    fails and no snapshot arrives, then, whatever batches the raft library hands
    out, overlapping ones included, the node runs without a failure and,
    as long as it is not stopped, has sent the non-empty entries it did not apply
    before, each once and in log order, and after the last entry of the replayed
    log the nil that tells the key-value store it is up to date. *)
Theorem published_once unmarshal L evs rc :
  node_inv rc → faults rc = [] → honoured unmarshal L evs rc → no_snapshots evs →
  ∃ more rc', serve_loop unmarshal evs rc = Ok (more, rc') ∧
    (more = true → commits (out rc') = commits (out rc) ++
       stream (lastIndex rc) (sub L (appliedIndex rc + 1) (appliedIndex rc' + 1))).
Proof.
  intros Hinv Hf Hh Hns. pose proof (loop_wp unmarshal L evs rc Hinv Hf Hh) as Hwp. unfold wp in Hwp.
  destruct (serve_loop unmarshal evs rc) as [[more rc']|]; [|done]. exists more, rc'. split; [done|].
  intros Hm. by apply Hwp.
Qed.

(** C22: A node that gets [Ready] values as the raft library promises them, snapshots
    included, never fails as long as no disk operation does: no index is out of range, no snapshot is refused and no
    compaction goes wrong.  Its invariant holds throughout: the stored log starts at or
    before the last snapshot, and what was applied is stored. *)
Theorem node_ready_safe unmarshal L evs rc :
  node_inv rc → faults rc = [] → honoured unmarshal L evs rc →
  ∃ more rc', serve_loop unmarshal evs rc = Ok (more, rc') ∧ node_inv rc'.
Proof.
  intros Hinv Hf Hh. pose proof (loop_wp unmarshal L evs rc Hinv Hf Hh) as Hwp. unfold wp in Hwp.
  destruct (serve_loop unmarshal evs rc) as [[more rc']|]; [|done]. exists more, rc'. split; [done|]. apply Hwp.
Qed.

(** Appending to the storage overwrites the log from the first new entry on: entries
    before it stay, those behind it that were not appended are gone, and entries
    that were compacted away are ignored; a gap makes it panic. *)
Theorem storage_append ms f e0 entries :
  ms_ok ms → contiguous f (e0 :: entries) → 0 ≤ f → f + go_len (e0 :: entries) ≤ 2 ^ 62 →
  match ms_Append (e0 :: entries) ms with
  | Ok (_, ms') => ms_ok ms' ∧ ms_base ms' = ms_base ms ∧
      (ms_base ms + 1 < f + go_len (e0 :: entries) → ms_last ms' = f + go_len (e0 :: entries) - 1 ∧
        ∀ i, ms_at ms' i = overwrite (ms_at ms) (ms_base ms) f (e0 :: entries) i)
  | Panic _ => ms_last ms + 1 < f
  end.
Proof.
  intros Hok Hc Hf Hb. pose proof (ms_Append_wp ms f e0 entries Hok Hc Hf Hb) as Hwp. unfold wp in Hwp.
  destruct (ms_Append _ ms) as [[r ms']|]; [|by destruct Hwp].
  destruct Hwp as (_ & Hok' & Hb' & _ & Hcase). split; [done|]. split; [done|]. intros Hlt.
  destruct (Z.leb_spec (f + go_len (e0 :: entries)) (ms_base ms + 1)); [lia|done].
Qed.

(** ** Starting the node *)

Section start.
Context (E : string → Prop).

Lemma must_disk_wp e why rc (Q : () → raftNode → Prop) :
  quiet e → faults rc = [] → (∀ rc', calm rc rc' → Q tt rc') → wp E (must_disk e why) Q rc.
Proof.
  intros He Hf HQ. unfold must_disk. wp_step. apply disk_wp; [done|]. intros ok rc' Hc Hok.
  rewrite (Hok Hf). cbn [negb]. wp_step. by apply HQ.
Qed.

Lemma openWAL_wp ex rc (Q : () → raftNode → Prop) :
  faults rc = [] → (∀ rc', calm rc rc' → Q tt rc') → wp E (openWAL ex) Q rc.
Proof.
  intros Hf HQ. unfold openWAL. do 3 wp_step.
  apply (wp_mono _ _ (λ _ rc1, calm rc rc1)).
  - destruct ex; cbn [negb]; [by wp_step|]. wp_step. apply must_disk_wp; [done|done|]. intros rc1 H1.
    apply must_disk_wp; [done|by apply (calm_faults _ _ H1)|]. intros rc2 H2. by etrans.
  - intros ? rc1 H1. apply must_disk_wp; [done|by apply (calm_faults _ _ H1)|].
    intros rc2 H2. apply HQ. by etrans.
Qed.

(** The node after [startRaft] and the first lines of [serveChannels]. *)
Record started (ents : list Entry) (rc : raftNode) : Prop := {
  sd_inv : node_inv rc;
  sd_faults : faults rc = [];
  sd_applied : appliedIndex rc = 0;
  sd_last : lastIndex rc = from_option E_Index 0 (last ents);
  sd_commits : commits (out rc) = match ents with [] => [None] | _ => [] end;
}.

(** The log of the disk goes into the storage, and the replay gets its last index. *)
Lemma replayWAL_wp ex st ents rc :
  contiguous 1 ents → go_len ents < 2 ^ 62 - 1 →
  raftStorage rc = NewMemoryStorage → lastIndex rc = 0 → snapCount rc = defaultSnapCount →
  commits (out rc) = [] → faults rc = [] →
  wp E (replayWAL ex (Some (st, ents))) (λ _ rc',
    ms_ok (raftStorage rc') ∧ ms_base (raftStorage rc') = 0 ∧ ms_snapshot (raftStorage rc') = no_snapshot ∧
    snapCount rc' = defaultSnapCount ∧ faults rc' = [] ∧
    lastIndex rc' = from_option E_Index 0 (last ents) ∧
    commits (out rc') = match ents with [] => [None] | _ => [] end) rc.
Proof.
  intros Hc Hlen Hst Hli Hcnt Hcm Hf. unfold replayWAL. wp_step. apply openWAL_wp; [done|].
  intros rc1 [T1 T2 T3 T4 T5 T6 T7 T8 T9]. wp_step. eapply wp_must; [done|]. cbv iota beta. wp_step. apply on_storage_wp.
  rewrite T6, Hst. destruct ents as [|e0 l].
  - cbn [ms_Append]. do 2 wp_step. unfold emit. wp_steps. apply on_storage_wp. unfold SetHardState. wp_step.
    cbn [raftStorage set_storage set_out out lastIndex snapCount faults].
    rewrite commits_app, T7, T8, Hcm, T2, Hli, T9 by done.
    split; [exact NewMemoryStorage_ok|]. done.
  - eapply wp_weaken; [|eapply wp_mono; [apply (ms_Append_snapshot_wp _ 1);
      [apply NewMemoryStorage_ok|done|lia|lia]|]].
    { intros w [_ Hgap]. change (ms_last NewMemoryStorage) with 0 in Hgap. lia. }
    intros r ms (_ & Hok & Hb & _ & Hs & _).
    assert (Hl : ∃ e, last (e0 :: l) = Some e) by (apply last_is_Some; done). destruct Hl as [e Hl].
    wp_step. rewrite Hl. wp_step. apply on_storage_wp. unfold SetHardState. wp_step.
    cbn [raftStorage set_storage set_lastIndex out lastIndex snapCount faults].
    rewrite T7, T8, Hcm, T9 by done.
    split; [exact Hok|]. split; [exact Hb|]. split; [exact Hs|]. done.
Qed.

Lemma startRaft_wp sn ex st ents id peers join :
  contiguous 1 ents → go_len ents < 2 ^ 62 - 1 →
  wp E (startRaft sn ex (Some (st, ents)) ;; serveChannels_init) (λ _ rc, started ents rc)
    (newRaftNode id peers join).
Proof.
  intros Hc Hlen. set (rc0 := newRaftNode id peers join). wp_step. unfold startRaft. do 3 wp_step.
  apply (wp_mono _ _ (λ _ rc1, calm rc0 rc1)).
  { destruct sn; cbn [negb]; [by wp_step|]. by apply must_disk_wp. }
  intros ? rc1 H1. pose proof H1 as [T1 T2 T3 T4 T5 T6 T7 T8 T9].
  wp_step. eapply wp_mono; [apply replayWAL_wp;
    [done|done|by rewrite T6|by rewrite T2|by rewrite T7|by rewrite T8|by apply T9]|].
  intros ? rc2 (Hok & Hb & Hs & Hn & Hf & Hl & Hcm). wp_step.
  apply (wp_mono _ _ (λ _ rc3, calm rc2 rc3)); [destruct ex; by apply emit_wp|].
  intros ? rc3 H3. wp_step. apply emit_wp; [done|]. intros rc4 H4.
  eapply wp_mono; [apply (wp_for_range E _ (λ _ rc5, calm rc2 rc5)); [by etrans|]|].
  { intros [i url] rest rc5 H5. destruct (negb _); [|by wp_step].
    apply emit_wp; [done|]. intros rc6 H6. by etrans. }
  intros ? rc5 [U1 U2 U3 U4 U5 U6 U7 U8 U9]. unfold serveChannels_init. wp_steps.
  rewrite U6, Hs.
  split; cbn [faults appliedIndex lastIndex out set_appliedIndex set_snapshotIndex set_confState];
    [|auto|done|congruence|congruence].
  destruct (lv_bounds _ _ _ (ms_view _ Hok)).
  split; cbn; rewrite ?U6, ?Hs, ?U7; cbn; done || lia.
Qed.
End start.

(** ** A run with overlapping batches *)

Definition demo_log : list Entry :=
  [mkEntry 1 1 EntryNormal (Some "a"); mkEntry 1 2 EntryNormal None; mkEntry 1 3 EntryNormal (Some "c")].
Definition demo_L : Z → option Entry := at_from 1 demo_log.
Definition demo_ready (ents committed : list Entry) : Ready :=
  mkReady (mkHardState 1 0 0) ents no_snapshot committed [].
Definition demo_events : list event :=
  [EvTick; EvReady (demo_ready (take 2 demo_log) (take 2 demo_log)) (Some None);
   EvReady (demo_ready (drop 2 demo_log) (drop 1 demo_log)) (Some None)].
Definition demo_cc : option string → ConfChange := λ _, mkConfChange 0 ConfChangeUpdateNode 0 None.
Definition demo_node : raftNode := set_lastIndex 2 (newRaftNode 1 ["http://127.0.0.1:9021"] false).

Lemma demo_node_inv : node_inv demo_node.
Proof. split; [apply NewMemoryStorage_ok|..]; vm_compute; repeat split; discriminate. Qed.

Lemma demo_contiguous k n : (k + n ≤ 3)%nat → contiguous (1 + Z.of_nat k) (take n (drop k demo_log)).
Proof.
  intros _. apply contiguous_take. apply (contiguous_drop 1). unfold demo_log.
  repeat (apply contiguous_cons; split; [done|]). apply contiguous_nil.
Qed.

Lemma demo_batch lo hi : 1 ≤ lo < hi → hi ≤ 4 → batch demo_L lo hi (sub demo_L lo hi).
Proof.
  intros Hlo Hhi. split; [done|lia|]. intros i Hi.
  destruct (at_from_Some 1 demo_log i) as [e He]; [unfold go_len; cbn; lia|]. exists e. split; [done|].
  eapply at_from_index; [|exact He]. apply (demo_contiguous 0 3). lia.
Qed.

Lemma demo_honoured : honoured demo_cc demo_L demo_events demo_node.
Proof.
  split; [done|]. intros more rc1 H1. vm_compute in H1. injection H1 as <- <-. split.
  - split; [discriminate| |].
    + split; [apply (demo_contiguous 0 2); lia|]. vm_compute. repeat split; discriminate.
    + exists 1, 3. split; [apply demo_batch; lia|]. vm_compute. split; discriminate.
  - intros more rc2 H2. vm_compute in H2. injection H2 as <- <-. split; [|done]. split; [discriminate| |].
    + split; [apply (demo_contiguous 2 1); lia|]. vm_compute. repeat split; discriminate.
    + exists 2, 4. split; [apply demo_batch; lia|]. vm_compute. split; discriminate.
Qed.

Lemma published_once_witness :
  ∃ rc, serve_loop demo_cc demo_events demo_node = Ok (true, rc) ∧
    commits (out rc) = [Some "a"; None; Some "c"]%string.
Proof.
  destruct (published_once demo_cc demo_L demo_events demo_node demo_node_inv eq_refl demo_honoured
    ltac:(repeat constructor)) as (more & rc & Hrun & Hpub).
  assert (Hm : more = true).
  { apply (f_equal (λ r, match r with Ok (m, _) => m | Panic _ => true end)) in Hrun.
    rewrite <- Hrun. vm_compute. reflexivity. }
  assert (Ha : appliedIndex rc = 3).
  { apply (f_equal (λ r, match r with Ok (_, x) => appliedIndex x | Panic _ => 0 end)) in Hrun.
    rewrite <- Hrun. vm_compute. reflexivity. }
  exists rc. subst more. split; [exact Hrun|]. rewrite (Hpub eq_refl), Ha. vm_compute. reflexivity.
Defined.

Lemma node_ready_safe_witness :
  ∃ more rc, serve_loop demo_cc demo_events demo_node = Ok (more, rc) ∧ node_inv rc.
Proof. exact (node_ready_safe demo_cc demo_L demo_events demo_node demo_node_inv eq_refl demo_honoured). Defined.

Lemma storage_append_witness :
  match ms_Append demo_log NewMemoryStorage with
  | Ok (_, ms) => ms_last ms = 3
  | Panic _ => False
  end.
Proof.
  assert (H := storage_append NewMemoryStorage 1 _ _ NewMemoryStorage_ok (demo_contiguous 0 3 ltac:(lia))
    ltac:(lia) ltac:(vm_compute; discriminate)).
  cbn [take drop demo_log] in H. fold demo_log in H.
  destruct (ms_Append demo_log NewMemoryStorage) as [[r ms]|w] eqn:Hrun; [|by vm_compute in H].
  destruct H as (_ & _ & H). apply H. vm_compute. reflexivity.
Defined.
