(* ===== verification/EtcdKv.v ===== *)
(** * The key-value store and HTTP interface of the etcd example
      (src/etcd-raft/kvstore.go, httpapi.go)

    The store consumes the commit channel of the node ([EtcdNode]): a list of
    strings, [None] for the nil pointer.  [encoding/gob] and [encoding/json] are
    the class [Codec]: what they encode they decode, JSON if the strings are UTF-8.
    What [snapshotter.Load] returns follows from the snapshots the node has saved
    ([Load_after]).

    - [store_replays_log]: the store is the log, applied in order, as long as the
      node has saved no snapshot;
    - [snapshot_load_panics]: a snapshot on disk makes the store dereference nil;
    - [http_put_get]: a value put over HTTP and committed is the value got. *)
From Stdlib Require Import Ascii.
From Stdlib Require Strings.String.
From S2P Require Import Prelude GoRt Utf8 EtcdStorage EtcdNode EtcdTheorems.
Open Scope Z_scope.

(** ** Encodings *)

Definition utf8_map (m : gmap string string) : Prop :=
  ∀ k v, m !! k = Some v → valid_utf8 k = true ∧ valid_utf8 v = true.

Class Codec : Type := {
  gob_encode : string * string → string;
  gob_decode : string → option (string * string);
  json_marshal : gmap string string → string;
  json_unmarshal : string → option (gmap string string);
  gob_roundtrip : ∀ kv, gob_decode (gob_encode kv) = Some kv;
  json_roundtrip : ∀ m, utf8_map m → json_unmarshal (json_marshal m) = Some m;
  gob_nonempty : ∀ kv, gob_encode kv ≠ EmptyString;
}.

(** ** The store *)

Record kvstore : Type := mkKvstore { kvStore : gmap string string; proposeC : list string }.

(** What [snapshotter.Load] returns. *)
Inductive load_result : Type := ErrNoSnapshot | LoadError | Loaded (snap : Snapshot).

(** [Load] of the snapshotter of a node that was started without snapshots on disk, once the node has
    done [effs]: the newest snapshot it has saved. *)
Definition saved_snap (e : effect) : option Snapshot := match e with SaveSnap snap => Some snap | _ => None end.
Definition Load_after (effs : list effect) : load_result :=
  match last (omap saved_snap effs) with Some snap => Loaded snap | None => ErrNoSnapshot end.

Definition set_kvStore (m : gmap string string) (s : kvstore) : kvstore := mkKvstore m (proposeC s).

Definition nil_panic : string := "runtime error: invalid memory address or nil pointer dereference".

Section kv.
Context `{Codec}.

Definition kv_Lookup (key : string) (s : kvstore) : option string := kvStore s !! key.

Definition kv_Propose (k v : string) : M kvstore () :=
  modify (λ s, mkKvstore (kvStore s) (proposeC s ++ [gob_encode (k, v)])).

Definition kv_getSnapshot (s : kvstore) : option string := Some (json_marshal (kvStore s)).

(** [false] is an error. *)
Definition recoverFromSnapshot (data : option string) : M kvstore bool :=
  match json_unmarshal (default EmptyString data) with
  | None => ret false
  | Some store => modify (set_kvStore store) ;; ret true
  end.

(** The loop over the values received from [commitC].  [Some rest]: it returned, with [rest]
    not received yet; [None]: it waits for the next value. *)
Fixpoint readCommits (load : load_result) (commitC : list (option string)) :
    M kvstore (option (list (option string))) :=
  match commitC with
  | [] => ret None
  | data :: commitC' =>
      stop_ <- match data with
               | None =>
                   match load with
                   | ErrNoSnapshot => ret true
                   | LoadError => panic "snapshotter.Load"
                   | Loaded snapshot =>
                       ok <- recoverFromSnapshot (Snap_Data snapshot) ;;
                       (when negb ok do panic "recoverFromSnapshot") ;;
                       ret false
                   end
               | Some _ => ret false
               end ;;
      if (stop_ : bool) then ret (Some commitC') else
      data <- must nil_panic data ;;
      dataKv <- must "raftexample: could not decode message" (gob_decode data) ;;
      modify (λ s, set_kvStore (<[dataKv.1 := dataKv.2]> (kvStore s)) s) ;;
      readCommits load commitC'
  end.

(** After [commitC] was closed: the error the node reports, if any. *)
Definition readCommits_closed (errorC : option string) : M kvstore () :=
  match errorC with Some err => panic err | None => ret tt end.

(** The replay, then the goroutine that goes on reading. *)
Definition newKVStore (load : load_result) (commitC : list (option string)) :
    M kvstore (option (list (option string))) :=
  r <- readCommits load commitC ;;
  match r with Some rest => readCommits load rest | None => ret None end.

Definition empty_store : kvstore := mkKvstore ∅ [].

(** ** [strconv.ParseUint(s, 0, 64)] *)

Definition digit_value (c : ascii) : option Z :=
  let n := Z.of_nat (nat_of_ascii c) in
  if (48 <=? n) && (n <=? 57) then Some (n - 48) else
  if (97 <=? n) && (n <=? 122) then Some (n - 97 + 10) else
  if (65 <=? n) && (n <=? 90) then Some (n - 65 + 10) else None.

Fixpoint parse_digits (base acc : Z) (s : list ascii) : option Z :=
  match s with
  | [] => Some acc
  | c :: s' =>
      match digit_value c with
      | None => None
      | Some v =>
          if base <=? v then None else
          let n := acc * base + v in
          if 2 ^ 64 <=? n then None else parse_digits base n s'
      end
  end.

Definition ParseUint (s : string) : option Z :=
  match String.list_ascii_of_string s with
  | [] => None
  | "0"%char :: "x"%char :: l | "0"%char :: "X"%char :: l =>
      match l with [] => None | _ => parse_digits 16 0 l end
  | "0"%char :: l => parse_digits 8 0 l
  | l => parse_digits 10 0 l
  end.

(** ** HTTP *)

Record Request : Type := mkRequest {
  Method : string; RequestURI : string; Body : option string (** [None]: reading it fails *) ;
}.
Inductive Response : Type :=
| WriteHeader (status : Z)
| Write (body : string)
| HttpError (msg : string) (status : Z)
| NotAllowed (allow : list string) (msg : string) (status : Z).

Definition StatusNoContent : Z := 204.
Definition StatusBadRequest : Z := 400.
Definition StatusNotFound : Z := 404.
Definition StatusMethodNotAllowed : Z := 405.

(** [key[1:]] *)
Definition key_tail (key : string) : M kvstore string :=
  match key with String.String _ s => ret s | EmptyString => panic slice_panic end.

(** The handler: its response and what it sends on [confChangeC]. *)
Definition ServeHTTP (r : Request) : M kvstore (Response * list ConfChange) :=
  let key := RequestURI r in
  if decide (Method r = "PUT"%string) then
    match Body r with
    | None => ret (HttpError "Failed on PUT" StatusBadRequest, [])
    | Some v => kv_Propose key v ;; ret (WriteHeader StatusNoContent, [])
    end
  else if decide (Method r = "GET"%string) then
    s <- get ;;
    ret (match kv_Lookup key s with
         | Some v => Write v
         | None => HttpError "Failed to GET" StatusNotFound
         end, [])
  else if decide (Method r = "POST"%string) then
    match Body r with
    | None => ret (HttpError "Failed on POST" StatusBadRequest, [])
    | Some url =>
        t <- key_tail key ;;
        ret (match ParseUint t with
             | None => (HttpError "Failed on POST" StatusBadRequest, [])
             | Some nodeId => (WriteHeader StatusNoContent, [mkConfChange 0 ConfChangeAddNode nodeId (Some url)])
             end)
    end
  else if decide (Method r = "DELETE"%string) then
    t <- key_tail key ;;
    ret (match ParseUint t with
         | None => (HttpError "Failed on DELETE" StatusBadRequest, [])
         | Some nodeId =>
             (WriteHeader StatusNoContent, [mkConfChange 0 ConfChangeRemoveNode nodeId None])
         end)
  else ret (NotAllowed ["PUT"; "GET"; "POST"; "DELETE"] "Method not allowed" StatusMethodNotAllowed, []).

(** ** The store is the log *)

Definition apply_puts (l : list (string * string)) (m : gmap string string) : gmap string string :=
  fold_left (λ m kv, <[kv.1 := kv.2]> m) l m.

(** The put an entry holds. *)
Definition entry_put (e : Entry) : option (string * string) :=
  match E_Type e with
  | EntryNormal => if decide (data_of e = EmptyString) then None else gob_decode (data_of e)
  | EntryConfChange => None
  end.
Definition log_puts (ents : list Entry) : list (string * string) := omap entry_put ents.

(** The entries were proposed by a store. *)
Definition proposed_entry (e : Entry) : Prop :=
  E_Type e = EntryNormal → data_of e ≠ EmptyString → is_Some (gob_decode (data_of e)).

Definition data_puts (l : list (option string)) : list (string * string) :=
  omap (λ d, d ≫= gob_decode) l.
Definition decodable (d : option string) : Prop := ∃ s, d = Some s ∧ is_Some (gob_decode s).

Lemma readCommits_data load l rest : ∀ s,
  Forall decodable l →
  readCommits load (l ++ rest) s =
  readCommits load rest (set_kvStore (apply_puts (data_puts l) (kvStore s)) s).
Proof.
  induction l as [|d l IH]; intros s Hl; [by destruct s|].
  apply Forall_cons in Hl as [(x & -> & [kv Hkv]) Hl]. cbn [app readCommits]. unfold bind; cbn.
  rewrite Hkv. cbn. by rewrite IH.
Qed.

(** At most one nil is among the values. *)
Lemma newKVStore_once l1 l2 s :
  Forall decodable l1 → Forall decodable l2 →
  newKVStore ErrNoSnapshot (l1 ++ None :: l2) s =
  Ok (None, set_kvStore (apply_puts (data_puts (l1 ++ l2)) (kvStore s)) s).
Proof.
  intros H1 H2. unfold newKVStore, bind. rewrite readCommits_data by done. cbn.
  rewrite <- (app_nil_r l2) at 1. rewrite readCommits_data by done. cbn.
  unfold data_puts. rewrite omap_app. unfold apply_puts. by rewrite fold_left_app.
Qed.
Lemma newKVStore_none l s :
  Forall decodable l →
  newKVStore ErrNoSnapshot l s = Ok (None, set_kvStore (apply_puts (data_puts l) (kvStore s)) s).
Proof.
  intros Hl. unfold newKVStore, bind. rewrite <- (app_nil_r l) at 1. by rewrite readCommits_data.
Qed.

Lemma entry_data li e :
  E_Index e ≠ li → proposed_entry e →
  Forall decodable (entry_commits li e) ∧ data_puts (entry_commits li e) = log_puts [e].
Proof.
  intros Hne He. unfold entry_commits, log_puts, entry_put, proposed_entry in *.
  rewrite (proj2 (Z.eqb_neq _ _)), app_nil_r by done. cbn.
  destruct (E_Type e); [|done]. destruct (decide (data_of e = EmptyString)) as [|Hd]; [done|].
  destruct (He eq_refl Hd) as [kv Hkv]. cbn. rewrite Hkv. split; [|done].
  constructor; [|done]. eexists. by rewrite Hkv.
Qed.

Lemma stream_data li ents :
  (∀ e, e ∈ ents → E_Index e ≠ li) → Forall proposed_entry ents →
  Forall decodable (stream li ents) ∧ data_puts (stream li ents) = log_puts ents.
Proof.
  induction ents as [|e ents IH]; intros Hne Hp; [done|]. apply Forall_cons in Hp as [He Hp].
  destruct IH as [IHd IHp]; [intros; apply Hne; by right|done|].
  destruct (entry_data li e) as [Ed Ep]; [apply Hne; left|done|].
  change (stream li (e :: ents)) with (entry_commits li e ++ stream li ents).
  split; [by apply Forall_app|]. unfold data_puts, log_puts in *.
  rewrite omap_app, Ep, IHp, <- omap_app. done.
Qed.

(** The stream of a contiguous log: before the marker, the marker if it is reached, and after. *)
Lemma stream_replay li from ents s :
  contiguous from ents → Forall proposed_entry ents →
  newKVStore ErrNoSnapshot (stream li ents) s =
  Ok (None, set_kvStore (apply_puts (log_puts ents) (kvStore s)) s).
Proof.
  intros Hc Hp. destruct (decide (Exists (λ e, E_Index e = li) ents)) as [Hex|Hno].
  - apply Exists_exists in Hex as (e & [k Hk]%list_elem_of_lookup_1 & He).
    pose proof (take_drop_middle _ _ _ Hk) as Hsplit.
    assert (Hix : ∀ x, x ∈ take k ents ∨ x ∈ drop (S k) ents → E_Index x ≠ li).
    { pose proof (Hc _ _ Hk).
      intros x [[n Hn]%list_elem_of_lookup_1|[n Hn]%list_elem_of_lookup_1].
      - apply lookup_take_Some in Hn as [Hn ?]. apply Hc in Hn. lia.
      - rewrite lookup_drop in Hn. apply Hc in Hn. lia. }
    rewrite <- Hsplit in Hp. apply Forall_app in Hp as [Hp1 [Hpe Hp2]%Forall_cons].
    destruct (stream_data li (take k ents)) as [D1 P1]; [intros; apply Hix; by left|done|].
    destruct (stream_data li (drop (S k) ents)) as [D2 P2]; [intros; apply Hix; by right|done|].
    destruct (stream_data (li - 1) [e]) as [De Pe]; [intros x ->%list_elem_of_singleton; lia|by constructor|].
    assert (Hse : stream li [e] = stream (li - 1) [e] ++ [None]).
    { unfold stream, entry_commits; cbn. rewrite He, Z.eqb_refl, (proj2 (Z.eqb_neq li (li - 1))) by lia.
      by rewrite !app_nil_r. }
    rewrite <- Hsplit, (cons_middle e), !stream_app, Hse, <- !app_assoc, app_assoc.
    etrans; [apply (newKVStore_once _ (stream li (drop (S k) ents))); [by apply Forall_app|done]|].
    do 3 f_equal.
    unfold data_puts, log_puts in *. rewrite !omap_app, P1, P2, Pe, <- app_assoc. done.
  - destruct (stream_data li ents) as [D P]; [|done|by rewrite newKVStore_none, P].
    intros x Hx He. apply Hno, Exists_exists. eauto.
Qed.
End kv.

(** ** The theorems *)

(** While the node has saved no snapshot there is none to load. *)
Lemma Load_none effs k : (∀ snap, SaveSnap snap ∉ effs) → Load_after (take k effs) = ErrNoSnapshot.
Proof.
  intros Hno. unfold Load_after. destruct (last _) as [snap|] eqn:Hl; [|done]. exfalso.
  apply last_Some_elem_of in Hl. apply list_elem_of_omap in Hl as (e & He & Hs). destruct e; simplify_eq/=.
  apply (Hno snap). apply elem_of_take in He as (n & Hn & _). by eapply list_elem_of_lookup_2.
Qed.

(** C21: The store of a node is the committed log, applied in order.  A node without snapshots on disk
    is started on a write-ahead log whose entries are proposals of the store, no disk operation
    fails, and the raft library hands out whatever batches it may, but no snapshots: then the
    node runs without a failure and, as long as it has saved no snapshot itself, the store, at
    whatever moment it looks for one, runs without a failure too and holds the value of the last
    put to every key among the entries applied so far, the replayed ones included.  (The node
    saves a snapshot once more than 10000 entries are applied; a store that finds one at the end
    of its replay crashes, see [snapshot_load_panics].) *)
Theorem store_replays_log `{Codec} unmarshal L evs sn ex st ents id peers join :
  contiguous 1 ents → go_len ents < 2 ^ 62 - 1 → no_snapshots evs → (∀ i e, L i = Some e → proposed_entry e) →
  (∀ rc0, (startRaft sn ex (Some (st, ents)) ;; serveChannels_init) (newRaftNode id peers join) = Ok (tt, rc0) →
     honoured unmarshal L evs rc0) →
  ∃ more rc, (startRaft sn ex (Some (st, ents)) ;; serveChannels unmarshal evs) (newRaftNode id peers join) =
      Ok (more, rc) ∧
    (more = true → (∀ snap, SaveSnap snap ∉ out rc) →
     ∃ s, (∀ k, newKVStore (Load_after (take k (out rc))) (commits (out rc)) empty_store = Ok (None, s)) ∧
       kvStore s = apply_puts (log_puts (sub L 1 (appliedIndex rc + 1))) ∅).
Proof.
  intros Hc Hlen Hns HL Hh.
  pose proof (startRaft_wp (λ _, False) sn ex st ents id peers join Hc Hlen) as Hstart.
  unfold serveChannels. unfold wp in Hstart. unfold bind in *.
  destruct (startRaft sn ex (Some (st, ents)) (newRaftNode id peers join)) as [[[] rc1]|]; [|done].
  destruct (serveChannels_init rc1) as [[[] rc0]|]; [|done].
  specialize (Hh rc0 eq_refl). destruct Hstart as [S1 S2 S3 S4 S5].
  pose proof (loop_wp unmarshal L evs rc0 S1 S2 Hh) as Hwp. unfold wp in Hwp.
  destruct (serve_loop unmarshal evs rc0) as [[more rc]|]; [|done]. exists more, rc. split; [done|].
  intros Hm Hno. destruct Hwp as [_ Hp]. destruct (Hp Hns Hm) as (_ & Hho & Hcm). rewrite S3 in *.
  apply holds_contiguous in Hho as Hcont. rewrite Hcm, S5, S4.
  assert (Hpro : Forall proposed_entry (sub L (0 + 1) (appliedIndex rc + 1))).
  { apply Forall_forall. intros e He. unfold sub in He. apply list_elem_of_omap in He as (i & _ & Hi). by eapply HL. }
  exists (set_kvStore (apply_puts (log_puts (sub L 1 (appliedIndex rc + 1))) ∅) empty_store).
  split; [|reflexivity]. intros k. rewrite Load_none by done. destruct ents as [|e0 l].
  - (* the marker was sent before anything else *)
    destruct (stream_data 0 (sub L (0 + 1) (appliedIndex rc + 1))) as [D P]; [|done|].
    { intros e He. apply (holds_index _ _ _ _ Hho) in He. lia. }
    cbn [from_option last]. etrans; [apply (newKVStore_once []); [done|exact D]|]. by rewrite app_nil_l, P.
  - cbn [app]. by eapply stream_replay.
Qed.

(** A store that finds a snapshot on disk crashes on the first nil of the commit channel, after
    whatever was replayed: after loading the snapshot it goes on to dereference the nil it
    received. *)
Theorem snapshot_load_panics `{Codec} snap m replayed commitC s :
  Snap_Data snap = Some (json_marshal m) → utf8_map m → Forall decodable replayed →
  newKVStore (Loaded snap) (replayed ++ None :: commitC) s = Panic nil_panic.
Proof.
  intros Hs Hm Hr. unfold newKVStore, bind. rewrite readCommits_data by done. cbn. unfold bind, recoverFromSnapshot.
  rewrite Hs. cbn. by rewrite json_roundtrip.
Qed.

(** A value put over HTTP and committed is the value got: the proposal a PUT sends, once it
    comes back through the commit channel, makes a GET of the same URI return the body. *)
Theorem http_put_get `{Codec} load uri v s :
  ∃ s1 s2 p, ServeHTTP (mkRequest "PUT" uri (Some v)) s = Ok ((WriteHeader StatusNoContent, []), s1) ∧
    proposeC s1 = proposeC s ++ [p] ∧ readCommits load [Some p] s1 = Ok (None, s2) ∧
    ServeHTTP (mkRequest "GET" uri None) s2 = Ok ((Write v, []), s2).
Proof.
  eexists _, _, _. split; [reflexivity|]. split; [reflexivity|].
  cbn [readCommits]. unfold bind; cbn. rewrite gob_roundtrip. cbn. split; [reflexivity|].
  unfold ServeHTTP. cbn [Method RequestURI]. rewrite decide_False, decide_True by done.
  unfold bind, get, ret, kv_Lookup. cbn [kvStore set_kvStore]. by rewrite lookup_insert_eq.
Qed.

(** ** A codec, and runs with it: strings behind their length in unary *)

Definition enc_str (s : string) : list ascii :=
  replicate (String.length s) "x"%char ++ ":"%char :: String.list_ascii_of_string s.
Fixpoint dec_len (n : nat) (l : list ascii) : option (string * list ascii) :=
  match l with
  | "x"%char :: l' => dec_len (S n) l'
  | ":"%char :: l' => Some (String.string_of_list_ascii (take n l'), drop n l')
  | _ => None
  end.
Definition enc_kv (kv : string * string) : list ascii := enc_str kv.1 ++ enc_str kv.2.
Definition dec_kv (l : list ascii) : option (string * string * list ascii) :=
  '(k, l) ← dec_len 0 l; '(v, l) ← dec_len 0 l; Some (k, v, l).
Fixpoint dec_kvs (fuel : nat) (l : list ascii) : option (list (string * string)) :=
  match fuel, l with
  | _, [] => Some []
  | O, _ => None
  | S fuel', _ => '(kv, l') ← dec_kv l; kvs ← dec_kvs fuel' l'; Some (kv :: kvs)
  end.

Lemma length_list_ascii s : length (String.list_ascii_of_string s) = String.length s.
Proof. induction s as [|c s IH]; cbn; [done|]. by rewrite IH. Qed.

Lemma dec_len_enc m n s rest :
  length (String.list_ascii_of_string s) = (n + m)%nat →
  dec_len n (replicate m "x"%char ++ ":"%char :: String.list_ascii_of_string s ++ rest) = Some (s, rest).
Proof.
  revert n. induction m as [|m IH]; intros n Hn; cbn.
  - rewrite take_app_length', drop_app_length' by lia. by rewrite String.string_of_list_ascii_of_string.
  - apply IH. lia.
Qed.

Lemma dec_str_enc s rest : dec_len 0 (enc_str s ++ rest) = Some (s, rest).
Proof.
  unfold enc_str. rewrite <- app_assoc. cbn [app]. apply dec_len_enc. by rewrite length_list_ascii.
Qed.

Lemma dec_kv_enc kv rest : dec_kv (enc_kv kv ++ rest) = Some (kv, rest).
Proof.
  unfold dec_kv, enc_kv. rewrite <- app_assoc, dec_str_enc. cbn. rewrite dec_str_enc. by destruct kv.
Qed.

Lemma enc_kv_nonempty kv : enc_kv kv ≠ [].
Proof. unfold enc_kv, enc_str. by destruct (replicate _ _). Qed.

Lemma dec_kvs_enc l : ∀ fuel,
  (length l ≤ fuel)%nat → dec_kvs fuel (concat (map enc_kv l)) = Some l.
Proof.
  induction l as [|kv l IH]; intros fuel Hf; [by destruct fuel|]. cbn [length] in Hf.
  destruct fuel as [|fuel]; [lia|]. cbn [map concat]. pose proof (dec_kv_enc kv (concat (map enc_kv l))) as Hkv.
  pose proof (enc_kv_nonempty kv). destruct (enc_kv kv) as [|c t]; [done|]. cbn [app dec_kvs] in *.
  rewrite Hkv. cbn. by rewrite IH by lia.
Qed.

Lemma length_concat_enc l : (length l ≤ length (concat (map enc_kv l)))%nat.
Proof.
  induction l as [|kv l IH]; cbn; [lia|]. rewrite length_app.
  pose proof (enc_kv_nonempty kv). destruct (enc_kv kv); [done|cbn; lia].
Qed.

#[export] Instance plain_codec : Codec.
Proof.
  refine {|
    gob_encode kv := String.string_of_list_ascii (enc_kv kv);
    gob_decode s := fst <$> dec_kv (String.list_ascii_of_string s);
    json_marshal m := String.string_of_list_ascii (concat (map enc_kv (map_to_list m)));
    json_unmarshal s := list_to_map <$> dec_kvs (String.length s) (String.list_ascii_of_string s);
  |}.
  - intros kv. rewrite String.list_ascii_of_string_of_list_ascii, <- (app_nil_r (enc_kv kv)). by rewrite dec_kv_enc.
  - intros m _. rewrite <- length_list_ascii, String.list_ascii_of_string_of_list_ascii.
    rewrite dec_kvs_enc by apply length_concat_enc. cbn. by rewrite list_to_map_to_list.
  - intros kv. pose proof (enc_kv_nonempty kv). by destruct (enc_kv kv).
Defined.

Definition put_entry (i : Z) (k v : string) : Entry := mkEntry 1 i EntryNormal (Some (gob_encode (k, v))).
Definition put_log : list Entry := [put_entry 1 "k" "old"; put_entry 2 "k" "new"; put_entry 3 "l" "x"].
Definition put_L : Z → option Entry := at_from 1 put_log.
Definition put_events : list event :=
  [EvReady (demo_ready (drop 1 put_log) (take 2 put_log)) (Some None);
   EvReady (demo_ready [] (drop 1 put_log)) (Some None)].

Lemma put_contiguous k n : contiguous (1 + Z.of_nat k) (take n (drop k put_log)).
Proof.
  apply contiguous_take, (contiguous_drop 1). unfold put_log.
  repeat (apply contiguous_cons; split; [done|]). apply contiguous_nil.
Qed.

Lemma put_batch lo hi : 1 ≤ lo < hi → hi ≤ 4 → batch put_L lo hi (sub put_L lo hi).
Proof.
  intros Hlo Hhi. split; [done|lia|]. intros i Hi.
  destruct (at_from_Some 1 put_log i) as [e He]; [unfold go_len; cbn; lia|]. exists e. split; [done|].
  eapply at_from_index; [|exact He]. apply (put_contiguous 0 3).
Qed.

Lemma put_entry_data i k v : data_of (put_entry i k v) = gob_encode (k, v).
Proof. done. Qed.

Lemma put_proposed i e : put_L i = Some e → proposed_entry e.
Proof.
  intros [_ He]%go_at_Some _ _. apply list_elem_of_lookup_2 in He. unfold put_log in He.
  rewrite !elem_of_cons in He. destruct He as [->|[->|[->|?%not_elem_of_nil]]]; [..|done];
    rewrite put_entry_data, gob_roundtrip; eauto.
Qed.

Lemma put_honoured rc0 :
  (startRaft true true (Some (mkHardState 1 0 0, take 1 put_log)) ;; serveChannels_init)
    (newRaftNode 1 ["http://127.0.0.1:9021"] false) = Ok (tt, rc0) →
  honoured demo_cc put_L put_events rc0.
Proof.
  intros H0. vm_compute in H0. injection H0 as <-. split.
  - split; [discriminate| |].
    + split; [apply (put_contiguous 1 2)|]. vm_compute. repeat split; discriminate.
    + exists 1, 3. split; [apply (put_batch 1 3); lia|]. vm_compute. split; discriminate.
  - intros more rc1 H1. vm_compute in H1. injection H1 as <- <-. split; [|done]. split; [discriminate|done|].
    exists 2, 4. split; [apply (put_batch 2 4); lia|]. vm_compute. split; discriminate.
Qed.

Lemma store_replays_log_witness :
  ∃ rc s, (startRaft true true (Some (mkHardState 1 0 0, take 1 put_log)) ;; serveChannels demo_cc put_events)
      (newRaftNode 1 ["http://127.0.0.1:9021"] false) = Ok (true, rc) ∧
    newKVStore (Load_after (out rc)) (commits (out rc)) empty_store = Ok (None, s) ∧ kvStore s !! "k" = Some "new"%string.
Proof.
  destruct (store_replays_log demo_cc put_L put_events true true (mkHardState 1 0 0) (take 1 put_log)
    1 ["http://127.0.0.1:9021"] false (put_contiguous 0 1) ltac:(vm_compute; reflexivity)
    ltac:(repeat constructor) put_proposed put_honoured) as (more & rc & Hrun & Hs).
  assert (Hm : (more, appliedIndex rc, omap saved_snap (out rc)) = (true, 3, [])).
  { change (match Ok (more, rc) with
            | Ok (m, x) => (m, appliedIndex x, omap saved_snap (out x))
            | Panic _ => (true, 0, [])
            end = (true, 3, [])).
    rewrite <- Hrun. vm_compute. reflexivity. }
  injection Hm as -> Ha Hno. destruct (Hs eq_refl) as (s & Hnew & Hst).
  { intros snap Hin. assert (snap ∈ omap saved_snap (out rc)) as Hsn by (apply list_elem_of_omap; by exists (SaveSnap snap)).
    rewrite Hno in Hsn. by apply not_elem_of_nil in Hsn. }
  specialize (Hnew (length (out rc))). rewrite firstn_all in Hnew.
  exists rc, s. split; [exact Hrun|]. split; [exact Hnew|]. rewrite Hst, Ha. vm_compute. reflexivity.
Defined.

Lemma snapshot_load_panics_witness :
  newKVStore (Loaded (mkSnapshot (Some (json_marshal {["k" := "v"]}))
    (mkSnapshotMetadata (mkConfState [1]) 10001 1))) [None] empty_store = Panic nil_panic.
Proof.
  apply (snapshot_load_panics _ {["k" := "v"]} []); [reflexivity| |constructor].
  intros k v [<- <-]%lookup_singleton_Some. split; reflexivity.
Defined.

Lemma http_put_get_witness :
  ∃ s1 s2 p, ServeHTTP (mkRequest "PUT" "/k" (Some "v")) empty_store =
      Ok ((WriteHeader StatusNoContent, []), s1) ∧
    proposeC s1 = proposeC empty_store ++ [p] ∧ readCommits ErrNoSnapshot [Some p] s1 = Ok (None, s2) ∧
    ServeHTTP (mkRequest "GET" "/k" None) s2 = Ok ((Write "v", []), s2).
Proof. exact (http_put_get ErrNoSnapshot "/k" "v" empty_store). Defined.
