(* ===== verification/EtcdServe.v ===== *)
(** * The servers of the etcd example (src/etcd-raft/listener.go, main.go, [serveRaft] and
      [stopHTTP] of raft.go, [serveHttpKVAPI] of httpapi.go)

    The peers talk over an HTTP server on a listener that can be stopped.  [serveRaft]
    runs it in a goroutine of its own; [stopHTTP] closes [httpstopc] and waits
    for [httpdonec].  The two interleave statement by statement.  The process ends in
    a panic or in [log.Fatal], both [Panic].

    - [http_server_stops]: [stopHTTP] does not hang or crash the process;
    - [serve_index_panics]: a node whose id is no position of the cluster
      panics. *)
From Stdlib Require Import Ascii.
From Stdlib Require Strings.String.
From stdpp Require Import pretty.
From S2P Require Import Prelude GoRt EtcdStorage EtcdNode EtcdTheorems EtcdKv.
Open Scope Z_scope.

(** ** The listener *)

(** [sl_stopc]: the channel [stopc] is closed. *)
Record stoppableListener : Type := mkListener { sl_host : string; sl_stopc : bool }.

(** [listen host]: [net.Listen] succeeds. *)
Definition newStoppableListener (listen : string → bool) (addr : string) (stopc : bool) : option stoppableListener :=
  if listen addr then Some (mkListener addr stopc) else None.

(** What arrives first, if more than one channel is ready what [select] picks. *)
Inductive accept_case : Type :=
| OnStop                       (** [<-ln.stopc] *)
| OnErr (temporary : bool)     (** [<-errc] *)
| OnConn.                      (** [<-connc] *)
Inductive accept_result : Type := AcceptErr (err : string) (temporary : bool) | Accepted (keepAlive : bool).

Definition Accept (ln : stoppableListener) (c : accept_case) : option accept_result :=
  match c with
  | OnStop => if sl_stopc ln then Some (AcceptErr "server stopped" false) else None
  | OnErr temporary => Some (AcceptErr "accept" temporary)
  | OnConn => Some (Accepted true)
  end.

(** ** The server for the peers *)

Section serve.
(** The host of a URL, [None] if [url.Parse] fails; [net.Listen]; the node. *)
Context (url_host : string → option string) (listen : string → bool) (rc : raftNode).

(** [serveRaft] up to [Serve]. *)
Definition serveRaft_listen (stopc : bool) : res stoppableListener :=
  if (rc_id rc - 1 <? 0) then Panic index_panic
  else match rc_peers rc !! Z.to_nat (rc_id rc - 1) with
       | None => Panic index_panic
       | Some u =>
           match url_host u with
           | None => Panic "raftexample: Failed parsing URL"
           | Some host =>
               match newStoppableListener listen host stopc with
               | None => Panic "raftexample: Failed to listen rafthttp"
               | Some ln => Ok ln
               end
           end
       end.

Inductive serve_stage : Type :=
| SvStart                      (** before [url.Parse] *)
| SvAccept (host : string)     (** in [Serve], waiting in [Accept] *)
| SvReturned                   (** [Serve] has returned *)
| SvDone.                      (** [httpdonec] is closed *)
Inductive stop_stage : Type :=
| StIdle                       (** [stopHTTP] is not called *)
| StClose                      (** the transport is stopped *)
| StWait                       (** at [<-rc.httpdonec] *)
| StDone.

Record HttpServer : Type := mkHttp {
  hs_stopc : bool; hs_donec : bool; hs_stage : serve_stage; hs_stop : stop_stage; hs_conns : nat;
}.
Definition http_start : HttpServer := mkHttp false false SvStart StIdle 0.

Inductive hevent : Type :=
| HListen | HAccept (c : accept_case) | HSelect   (** [serveRaft] *)
| HStop.                                          (** the next statement of [stopHTTP] *)

(** [close] of a channel. *)
Definition close_chan (closed : bool) : res bool := if closed then Panic "close of closed channel" else Ok true.

(** [http.Server.Serve] goes on after a connection and after a temporary error. *)
Definition serveRaft_step (e : hevent) (s : HttpServer) : option (res HttpServer) :=
  let '(mkHttp stopc donec stage stop conns) := s in
  match e, stage with
  | HListen, SvStart =>
      Some (match serveRaft_listen stopc with
            | Ok ln => Ok (mkHttp stopc donec (SvAccept (sl_host ln)) stop conns)
            | Panic w => Panic w
            end)
  | HAccept c, SvAccept host =>
      match Accept (mkListener host stopc) c with
      | None => None
      | Some (Accepted _) => Some (Ok (mkHttp stopc donec stage stop (S conns)))
      | Some (AcceptErr _ true) => Some (Ok s)
      | Some (AcceptErr _ false) => Some (Ok (mkHttp stopc donec SvReturned stop conns))
      end
  | HSelect, SvReturned =>
      Some (if stopc
            then match close_chan donec with Ok d => Ok (mkHttp stopc d SvDone stop conns) | Panic w => Panic w end
            else Panic "raftexample: Failed to serve rafthttp")
  | _, _ => None
  end.

Definition stopHTTP_step (s : HttpServer) : option (res HttpServer) :=
  let '(mkHttp stopc donec stage stop conns) := s in
  match stop with
  | StIdle => Some (Ok (mkHttp stopc donec stage StClose conns))
  | StClose =>
      Some (match close_chan stopc with Ok c => Ok (mkHttp c donec stage StWait conns) | Panic w => Panic w end)
  | StWait => if donec then Some (Ok (mkHttp stopc donec stage StDone conns)) else None
  | StDone => None
  end.

Definition http_exec (e : hevent) (s : HttpServer) : option (res HttpServer) :=
  match e with HStop => stopHTTP_step s | _ => serveRaft_step e s end.

Fixpoint http_run (evs : list hevent) (s : HttpServer) : option (res HttpServer) :=
  match evs with
  | [] => Some (Ok s)
  | e :: evs' =>
      match http_exec e s with Some (Ok s') => http_run evs' s' | r => r end
  end.

(** ** Methods of the transport's interface *)

(** [step m] is the error of [rc.node.Step], [None] if there is none. *)
Definition Process {Message} (step : Message → option string) (m : Message) : option string := step m.
Definition IsIDRemoved (id : Z) : bool := false.
Definition ReportUnreachable (id : Z) : raftNode := rc.
Definition ReportSnapshot {SnapshotStatus} (id : Z) (status : SnapshotStatus) : raftNode := rc.
End serve.

(** ** The server for the clients, and the program *)

Record httpKVAPI : Type := mkHttpKVAPI { api_addr : string; api_store : kvstore }.

(** What the process sees first: [ListenAndServe] fails, or a receive from [errorC]. *)
Inductive api_event : Type := ApiFailed (err : string) | ApiErrorC (err : option string).

(** The server that handles requests with [EtcdKv.ServeHTTP], and how the call ends. *)
Definition serveHttpKVAPI (kv : kvstore) (port : Z) (ev : api_event) : httpKVAPI * res () :=
  (mkHttpKVAPI (":" +:+ Itoa port)%string kv,
   match ev with
   | ApiFailed err => Panic err
   | ApiErrorC (Some err) => Panic err
   | ApiErrorC None => Ok ()
   end).

(** [strings.Split] for a separator of one byte. *)
Fixpoint split_at (sep : ascii) (acc : list ascii) (s : list ascii) : list string :=
  match s with
  | [] => [String.string_of_list_ascii (rev acc)]
  | c :: s' =>
      if decide (c = sep) then String.string_of_list_ascii (rev acc) :: split_at sep [] s'
      else split_at sep (c :: acc) s'
  end.
Definition Split (s : string) (sep : ascii) : list string := split_at sep [] (String.list_ascii_of_string s).

(** The flags of the program. *)
Record etcd_flags : Type := mkFlags { fl_cluster : string; fl_id : Z; fl_port : Z; fl_join : bool }.
Definition flags_default : etcd_flags := mkFlags "http://127.0.0.1:9021" 1 9121 false.

(** [main]: the node, and the rest once the node has made its snapshotter: [load] is the result of
    its [Load], [commitC] what the node commits.  The server starts when the replay of [newKVStore]
    is over, [None] before. *)
Section main.
Context `{Codec}.
Definition main_node (f : etcd_flags) : raftNode := newRaftNode (fl_id f) (Split (fl_cluster f) ",") (fl_join f).
Definition main_store (f : etcd_flags) (load : load_result) (commitC : list (option string)) (ev : api_event) :
    M kvstore (option httpKVAPI) := λ s,
  match readCommits load commitC s with
  | Panic w => Panic w
  | Ok (None, kvs) => Ok (None, kvs)
  | Ok (Some _, _) =>
      match newKVStore load commitC s with
      | Panic w => Panic w
      | Ok (_, kvs) =>
          match serveHttpKVAPI kvs (fl_port f) ev with
          | (api, Ok _) => Ok (Some api, kvs)
          | (_, Panic w) => Panic w
          end
      end
  end.
End main.

(** ** Stopping the server for the peers *)

(** Which channels are closed, from where the two goroutines are. *)
Definition http_inv (s : HttpServer) : Prop :=
  hs_stopc s = match hs_stop s with StIdle | StClose => false | _ => true end ∧
  hs_donec s = match hs_stage s with SvDone => true | _ => false end ∧
  (hs_stage s = SvDone → hs_stopc s = true) ∧
  (hs_stop s = StDone → hs_stage s = SvDone).

Section stopping.
Context (url_host : string → option string) (listen : string → bool) (rc : raftNode).
Context (ln : stoppableListener) (Hln : ∀ stopc, serveRaft_listen url_host listen rc stopc = Ok (mkListener (sl_host ln) stopc)).
Local Abbreviation exec := (http_exec url_host listen rc).
Local Abbreviation run := (http_run url_host listen rc).

Lemma http_exec_inv e s s' : http_inv s → exec e s = Some (Ok s') → http_inv s'.
Proof using Hln.
  destruct s as [stopc donec stage stop_ conns], e as [|c| |]; unfold http_inv; simpl; intros (-> & -> & Hd & Hs) H.
  - destruct stage; try done. rewrite Hln in H. simplify_eq/=. by destruct stop_; naive_solver.
  - destruct stage as [|host| |]; try done. by destruct stop_, c as [|[]|]; simplify_eq/=; naive_solver.
  - destruct stage; try done. by destruct stop_; simplify_eq/=; naive_solver.
  - by destruct stop_, stage; simplify_eq/=; naive_solver.
Qed.

Lemma http_run_inv evs : ∀ s s', http_inv s → run evs s = Some (Ok s') → http_inv s'.
Proof using Hln.
  induction evs as [|e evs IH]; intros s s' Hs H; cbn [http_run] in H; [by simplify_eq|].
  destruct (exec e s) as [[s1|]|] eqn:He; simplify_eq/=. eauto using http_exec_inv.
Qed.

Lemma http_exec_panic e s w : http_inv s → exec e s = Some (Panic w) → hs_stopc s = false ∧ e = HSelect.
Proof using Hln.
  destruct s as [stopc donec stage stop_ conns], e as [|c| |]; unfold http_inv; simpl; intros (-> & -> & Hd & Hs) H.
  - destruct stage; try done. by rewrite Hln in H.
  - destruct stage as [|host| |]; try done. by destruct stop_, c as [|[]|].
  - destruct stage; try done. by destruct stop_; simplify_eq/=.
  - by destruct stop_, stage; simplify_eq/=.
Qed.

Lemma http_finishes s :
  http_inv s → hs_stop s = StWait →
  ∃ evs s', (length evs ≤ 4)%nat ∧ run evs s = Some (Ok s') ∧ hs_stop s' = StDone ∧ hs_conns s' = hs_conns s.
Proof using Hln.
  destruct s as [stopc donec stage stop_ conns]. unfold http_inv. simpl. intros (-> & -> & _) ->. destruct stage as [|host| |].
  - exists [HListen; HAccept OnStop; HSelect; HStop]. eexists. simpl. by rewrite Hln.
  - exists [HAccept OnStop; HSelect; HStop]. eexists. simpl. split; [lia|done].
  - exists [HSelect; HStop]. eexists. simpl. split; [lia|done].
  - exists [HStop]. eexists. simpl. split; [lia|done].
Qed.

(** C30: The server for the peers can be stopped whatever it is doing.  In every interleaving of
    [serveRaft], on a listener that could be made, with [stopHTTP]: the process can only be ended
    by an error of [Accept] that was looked at before [httpstopc] was closed, no channel is
    closed twice, [stopHTTP] returns only after the server has ended, and once it waits it can
    return within four steps with no further connection. *)
Theorem http_server_stops evs s :
  run evs http_start = Some (Ok s) →
  (∀ e w, exec e s = Some (Panic w) → e = HSelect ∧ hs_stopc s = false ∧ hs_stage s = SvReturned) ∧
  (hs_stop s = StDone → hs_stage s = SvDone) ∧
  (hs_stop s = StWait →
   ∃ evs' s', (length evs' ≤ 4)%nat ∧ run evs' s = Some (Ok s') ∧ hs_stop s' = StDone ∧ hs_conns s' = hs_conns s).
Proof using Hln.
  intros Hrun. assert (http_inv s) as Hs by (eapply http_run_inv; [|done]; by repeat split).
  split_and!; [|by apply Hs|by apply http_finishes].
  intros e w He. destruct (http_exec_panic e s w Hs He) as [Hc ->]. split_and!; [done..|].
  destruct s as [? ? [] ? ?]; by simplify_eq/=.
Qed.
End stopping.

(** Three peers, of which the second runs; it gets a connection and is stopped. *)
Definition three_peers : etcd_flags := mkFlags "http://a:1,http://b:2,http://c:3" 2 9121 false.
Definition sample_host (u : string) : option string := Some (String.substring 7 3 u).
Definition stop_events : list hevent := [HListen; HAccept OnConn; HStop; HStop; HAccept OnConn].

Lemma http_server_stops_witness :
  ∃ s, http_run sample_host (λ _, true) (main_node three_peers) stop_events http_start = Some (Ok s) ∧
  hs_conns s = 2%nat ∧
  ∃ evs' s', (length evs' ≤ 4)%nat ∧ http_run sample_host (λ _, true) (main_node three_peers) evs' s = Some (Ok s') ∧
    hs_stop s' = StDone ∧ hs_conns s' = hs_conns s.
Proof.
  eexists. split; [vm_compute; reflexivity|]. split; [reflexivity|].
  apply (http_server_stops sample_host (λ _, true) (main_node three_peers) (mkListener "b:2" false)
           ltac:(intros []; reflexivity) stop_events); reflexivity.
Defined.

(** A node started with an id that is no position in the cluster panics in [serveRaft]. *)
Lemma serve_index_panics url_host listen stopc f :
  fl_id f < 1 ∨ go_len (Split (fl_cluster f) ",") < fl_id f →
  serveRaft_listen url_host listen (main_node f) stopc = Panic index_panic.
Proof.
  intros Hid. unfold serveRaft_listen, main_node, newRaftNode. cbn [rc_id rc_peers].
  destruct (Z.ltb_spec (fl_id f - 1) 0); [done|].
  rewrite (proj2 (lookup_ge_None _ _)); [done|]. unfold go_len in *. lia.
Qed.
