(* ===== verification/DisKV.v ===== *)
(** * The files of the persistent key/value server (src/mit/src/diskv/server.go)

    The helpers that keep a shard in a directory, one file per key, on a model
    of the file system that exposes crashes: besides the present disk the
    state carries every disk a crash could have left so far ([past]), with the
    partly written files in between.  A write may also fail after some bytes.
    A crash is one of the process: what was written stays, in the order in which
    it was written.  The code never calls [fsync], so after a crash of the machine
    a renamed file could be empty; that is not modelled.

    A path is the pair of its directory and its file name; the doubled slash of
    [shardDir(shard) + "/key-..."] is one separator.  [log.Fatalf] is a panic.

    The theorems: base32 names decode to the key; replacing the content of a key
    is atomic with respect to crashes and errors; a shard that was written is
    read back. *)
From Stdlib Require Import Ascii.
From Stdlib Require Strings.String.
From S2P Require Import Prelude GoRt.
Open Scope Z_scope.

(** ** [base32.StdEncoding] *)

Definition alphabet : list ascii := String.list_ascii_of_string "ABCDEFGHIJKLMNOPQRSTUVWXYZ234567".
Definition digit (v : Z) : ascii := nth (Z.to_nat v) alphabet "A"%char.

Fixpoint find_ascii (c : ascii) (l : list ascii) (k : Z) : option Z :=
  match l with
  | [] => None
  | d :: l' => if decide (c = d) then Some k else find_ascii c l' (k + 1)
  end.
Definition undigit (c : ascii) : option Z := find_ascii c alphabet 0.

Definition byte (c : ascii) : Z := Z.of_nat (nat_of_ascii c).
Definition of_byte (z : Z) : ascii := ascii_of_nat (Z.to_nat z).

(** Five bytes are eight digits of five bits. *)
Definition pack (a b c d e : Z) : Z := (((a * 256 + b) * 256 + c) * 256 + d) * 256 + e.
Definition digits (w : Z) : list Z :=
  [w / 32 ^ 7 mod 32; w / 32 ^ 6 mod 32; w / 32 ^ 5 mod 32; w / 32 ^ 4 mod 32;
   w / 32 ^ 3 mod 32; w / 32 ^ 2 mod 32; w / 32 mod 32; w mod 32].
Definition undigits (ds : list Z) : Z := foldl (λ w d, w * 32 + d) 0 ds.
Definition bytes (w : Z) : list Z :=
  [w / 256 ^ 4 mod 256; w / 256 ^ 3 mod 256; w / 256 ^ 2 mod 256; w / 256 mod 256; w mod 256].

(** A quantum with [k] digits and padding. *)
Definition quantum (k : nat) (w : Z) : list ascii :=
  map digit (take k (digits w)) ++ replicate (8 - k) "="%char.

Fixpoint encode_bytes (l : list ascii) : list ascii :=
  match l with
  | [] => []
  | [a] => quantum 2 (pack (byte a) 0 0 0 0)
  | [a; b] => quantum 4 (pack (byte a) (byte b) 0 0 0)
  | [a; b; c] => quantum 5 (pack (byte a) (byte b) (byte c) 0 0)
  | [a; b; c; d] => quantum 7 (pack (byte a) (byte b) (byte c) (byte d) 0)
  | a :: b :: c :: d :: e :: l' =>
      quantum 8 (pack (byte a) (byte b) (byte c) (byte d) (byte e)) ++ encode_bytes l'
  end.

(** The digits before the padding, the number of padding characters, or an invalid character. *)
Fixpoint quantum_digits (q : list ascii) : option (list Z * nat) :=
  match q with
  | [] => Some ([], O)
  | c :: q' =>
      if decide (c = "="%char) then
        if decide (Forall (λ d, d = "="%char) q') then Some ([], length q) else None
      else
        match undigit c, quantum_digits q' with
        | Some v, Some (ds, p) => Some (v :: ds, p)
        | _, _ => None
        end
  end.

(** How many bytes a quantum of so many digits carries. *)
Definition quantum_size (k : nat) : option nat :=
  match k with 2%nat => Some 1%nat | 4%nat => Some 2%nat | 5%nat => Some 3%nat
          | 7%nat => Some 4%nat | 8%nat => Some 5%nat | _ => None end.

Definition decode_quantum (q : list ascii) : option (list ascii) :=
  match quantum_digits q with
  | Some (ds, p) =>
      match quantum_size (length ds) with
      | Some m => Some (map of_byte (take m (bytes (undigits (ds ++ replicate p 0)))))
      | None => None
      end
  | None => None
  end.

(** Padding ends the input. *)
Fixpoint decode_bytes (l : list ascii) : option (list ascii) :=
  match l with
  | [] => Some []
  | c0 :: c1 :: c2 :: c3 :: c4 :: c5 :: c6 :: c7 :: l' =>
      match decode_quantum [c0; c1; c2; c3; c4; c5; c6; c7] with
      | Some bs =>
          if decide (length bs = 5%nat) then
            match decode_bytes l' with Some bs' => Some (bs ++ bs') | None => None end
          else match l' with [] => Some bs | _ => None end
      | None => None
      end
  | _ => None
  end.

(** [DecodeString] skips line breaks. *)
Definition not_break (c : ascii) : bool :=
  negb (bool_decide (c = "010"%char) || bool_decide (c = "013"%char)).

Definition encodeKey (key : string) : string :=
  String.string_of_list_ascii (encode_bytes (String.list_ascii_of_string key)).
Definition decodeKey (filename : string) : option string :=
  option_map String.string_of_list_ascii
    (decode_bytes (List.filter not_break (String.list_ascii_of_string filename))).

(** *** The round trip *)

Lemma byte_range c : 0 ≤ byte c < 256.
Proof. unfold byte. pose proof (nat_ascii_bounded c). lia. Qed.

Lemma of_byte_byte c : of_byte (byte c) = c.
Proof. unfold of_byte, byte. rewrite Nat2Z.id. apply ascii_nat_embedding. Qed.

Lemma undigit_digit v : 0 ≤ v < 32 → undigit (digit v) = Some v.
Proof.
  intros Hv. assert (Forall (λ v, undigit (digit v) = Some v) (seqZ 0 32)) as H.
  { apply Forall_forall. intros x. vm_compute seqZ. intros Hin.
    repeat (apply elem_of_cons in Hin as [->|Hin]; [reflexivity|]). by apply not_elem_of_nil in Hin. }
  rewrite Forall_forall in H. apply H, elem_of_seqZ. lia.
Qed.

Lemma digit_not_special v :
  0 ≤ v < 32 → digit v ≠ "="%char ∧ not_break (digit v) = true.
Proof.
  intros Hv. assert (Forall (λ v, digit v ≠ "="%char ∧ not_break (digit v) = true) (seqZ 0 32)) as H.
  { apply Forall_forall. intros x. vm_compute seqZ. intros Hin.
    repeat (apply elem_of_cons in Hin as [->|Hin]; [split; [done|reflexivity]|]).
    by apply not_elem_of_nil in Hin. }
  rewrite Forall_forall in H. apply H, elem_of_seqZ. lia.
Qed.

Lemma digits_range w : Forall (λ v, 0 ≤ v < 32) (digits w).
Proof. unfold digits. repeat (apply Forall_cons; split; [apply Z.mod_pos_bound; lia|]). by apply Forall_nil. Qed.

Lemma quantum_digits_map ds p :
  Forall (λ v, 0 ≤ v < 32) ds →
  quantum_digits (map digit ds ++ replicate p "="%char) = Some (ds, p).
Proof.
  induction 1 as [|v ds Hv _ IH].
  - simpl. destruct p as [|p]; [done|]. simpl. rewrite decide_True by apply Forall_replicate, eq_refl.
    by rewrite length_replicate.
  - simpl. destruct (digit_not_special v Hv) as [Hne _]. rewrite decide_False by done.
    by rewrite undigit_digit, IH.
Qed.

(** Digits that were cut off are zero when the last bytes are. *)
Lemma undigits_take k w :
  0 ≤ w < 32 ^ 8 → (k ≤ 8)%nat → w mod 32 ^ Z.of_nat (8 - k) = 0 →
  undigits (take k (digits w) ++ replicate (8 - k) 0) = w.
Proof.
  intros Hw Hk Hmod. unfold digits, undigits.
  do 9 (destruct k as [|k]; [simpl in Hmod |- *; Z.to_euclidean_division_equations; lia|]). lia.
Qed.

Lemma bytes_pack a b c d e :
  0 ≤ a < 256 → 0 ≤ b < 256 → 0 ≤ c < 256 → 0 ≤ d < 256 → 0 ≤ e < 256 →
  bytes (pack a b c d e) = [a; b; c; d; e].
Proof.
  intros. unfold bytes, pack. repeat f_equal; Z.to_euclidean_division_equations; lia.
Qed.

Lemma decode_quantum_quantum k m w :
  quantum_size k = Some m → (k ≤ 8)%nat → 0 ≤ w < 32 ^ 8 → w mod 32 ^ Z.of_nat (8 - k) = 0 →
  decode_quantum (quantum k w) = Some (map of_byte (take m (bytes w))).
Proof.
  intros Hm Hk Hw Hmod. unfold decode_quantum, quantum.
  rewrite quantum_digits_map by apply Forall_take, digits_range.
  rewrite length_take. replace (k `min` length (digits w))%nat with k by (simpl; lia).
  by rewrite Hm, undigits_take.
Qed.

Lemma pack_range a b c d e :
  0 ≤ a < 256 → 0 ≤ b < 256 → 0 ≤ c < 256 → 0 ≤ d < 256 → 0 ≤ e < 256 →
  0 ≤ pack a b c d e < 32 ^ 8.
Proof. unfold pack. lia. Qed.

(** The quantum of the last [m] bytes [l], padded with zero bytes. *)
Lemma decode_last k m l a b c d e :
  quantum_size k = Some m → (k ≤ 8)%nat → map byte l ++ replicate (5 - m) 0 = [a; b; c; d; e] →
  length l = m → pack a b c d e mod 32 ^ Z.of_nat (8 - k) = 0 →
  decode_quantum (quantum k (pack a b c d e)) = Some l.
Proof.
  intros Hm Hk Hl Hlen Hmod.
  assert (Forall (λ x, 0 ≤ x < 256) [a; b; c; d; e]) as Hr.
  { rewrite <- Hl. apply Forall_app. split; [|apply Forall_replicate; lia].
    apply Forall_map, Forall_forall. intros x _. apply byte_range. }
  rewrite !Forall_cons in Hr. destruct Hr as (?&?&?&?&?&_).
  rewrite (decode_quantum_quantum k m) by auto using pack_range. f_equal.
  rewrite bytes_pack, <- Hl by done.
  rewrite take_app_length' by (by rewrite length_map).
  rewrite map_map, (map_ext _ id), map_id; [done|]. apply of_byte_byte.
Qed.

Lemma quantum_length k w : (k ≤ 8)%nat → length (quantum k w) = 8%nat.
Proof.
  intros Hk. unfold quantum. rewrite length_app, length_map, length_take, length_replicate. simpl. lia.
Qed.

Lemma decode_bytes_quantum q l bs :
  length q = 8%nat → decode_quantum q = Some bs →
  decode_bytes (q ++ l) =
    if decide (length bs = 5%nat) then match decode_bytes l with Some bs' => Some (bs ++ bs') | None => None end
    else match l with [] => Some bs | _ => None end.
Proof.
  intros Hlen Hq. do 8 (destruct q as [|? q]; [done|]). destruct q; [|done]. simpl app.
  cbn [decode_bytes]. by rewrite Hq.
Qed.

Lemma decode_last_bytes k m l q a b c d e :
  quantum_size k = Some m → (k ≤ 7)%nat → map byte l ++ replicate (5 - m) 0 = [a; b; c; d; e] →
  length l = m → (m < 5)%nat → pack a b c d e = q * 32 ^ Z.of_nat (8 - k) →
  decode_bytes (quantum k (pack a b c d e)) = Some l.
Proof.
  intros Hm Hk Hl Hlen Hlt Hmod. rewrite <- (app_nil_r (quantum _ _)).
  rewrite (decode_bytes_quantum _ _ l); [|apply quantum_length; lia|].
  - by rewrite decide_False by lia.
  - eapply decode_last; [done|lia|done..|]. rewrite Hmod. apply Z_mod_mult.
Qed.

Lemma decode_encode l : decode_bytes (encode_bytes l) = Some l.
Proof.
  induction l as [l IH] using (induction_ltof1 _ (@length ascii)). unfold ltof in IH.
  destruct l as [|a [|b [|c [|d [|e l]]]]]; [done|..]; cbn [encode_bytes].
  - apply (decode_last_bytes 2 1 [a] (byte a * 4)); try done; [lia|lia|].
    unfold pack. simpl Z.of_nat. lia.
  - apply (decode_last_bytes 4 2 [a; b] ((byte a * 256 + byte b) * 16)); try done; [lia|lia|].
    unfold pack. simpl Z.of_nat. lia.
  - apply (decode_last_bytes 5 3 [a; b; c] (((byte a * 256 + byte b) * 256 + byte c) * 2)); try done; [lia|lia|].
    unfold pack. simpl Z.of_nat. lia.
  - apply (decode_last_bytes 7 4 [a; b; c; d] ((((byte a * 256 + byte b) * 256 + byte c) * 256 + byte d) * 8)); try done; [lia|].
    unfold pack. simpl Z.of_nat. lia.
  - rewrite (decode_bytes_quantum _ _ [a; b; c; d; e]).
    + simpl. by rewrite IH by (simpl; lia).
    + by apply quantum_length.
    + eapply (decode_last 8 5); [done|lia|done|done|]. cbn. by rewrite Z.mod_1_r.
Qed.

Lemma encode_no_breaks l : List.filter not_break (encode_bytes l) = encode_bytes l.
Proof.
  assert (∀ k w, List.filter not_break (quantum k w) = quantum k w) as Hq.
  { intros k w. unfold quantum. rewrite List.filter_app. f_equal.
    - assert (Forall (λ v, 0 ≤ v < 32) (take k (digits w))) as Hr by apply Forall_take, digits_range.
      induction Hr as [|v ds Hv _ IH]; [done|]. simpl.
      destruct (digit_not_special v Hv) as [_ ->]. by rewrite IH.
    - induction (8 - k)%nat as [|p IH]; [done|]. simpl. by rewrite IH. }
  induction l as [l IH] using (induction_ltof1 _ (@length ascii)). unfold ltof in IH.
  destruct l as [|a [|b [|c [|d [|e l]]]]]; [done|apply Hq..|]. cbn [encode_bytes].
  rewrite List.filter_app, Hq, IH by (simpl; lia). done.
Qed.

Lemma decodeKey_encodeKey key : decodeKey (encodeKey key) = Some key.
Proof.
  unfold decodeKey, encodeKey. rewrite String.list_ascii_of_string_of_list_ascii.
  rewrite encode_no_breaks, decode_encode. simpl. by rewrite String.string_of_list_ascii_of_string.
Qed.

#[export] Instance encodeKey_inj : Inj (=) (=) encodeKey.
Proof. intros k1 k2 H. apply (f_equal decodeKey) in H. rewrite !decodeKey_encodeKey in H. congruence. Qed.

(** ** The file system *)

Record disk : Type := mkDisk { dirs : gset string; files : gmap (string * string) string }.

(** How a system call fails: before it has any effect, or while writing, after some bytes. *)
Inductive fault : Type := NoEffect | Short (k : nat).

Record fsys : Type := mkFsys {
  now : disk;
  past : list disk;                   (* the disks a crash could have left *)
  faults : list (option fault);       (* the outcome of the next calls; none when it runs out *)
}.

Definition to_disk (d : disk) : M fsys () := modify (λ s, mkFsys d (past s ++ [d]) (faults s)).

Definition next_fault : M fsys (option fault) :=
  s <- get ;;
  match faults s with
  | [] => ret None
  | f :: fs => modify (λ s, mkFsys (now s) (past s) fs) ;; ret f
  end.

Definition put_file (p : string * string) (c : string) (d : disk) : disk :=
  mkDisk (dirs d) (<[p := c]> (files d)).
Definition del_file (p : string * string) (d : disk) : disk :=
  mkDisk (dirs d) (delete p (files d)).

(** The system calls and library functions; a [bool] is [err != nil]. *)

Definition Mkdir (parent d : string) : M fsys bool :=
  f <- next_fault ;;
  s <- get ;;
  if bool_decide (f = None) && bool_decide (parent ∈ dirs (now s)) then
    to_disk (mkDisk ({[d]} ∪ dirs (now s)) (files (now s))) ;; ret false
  else ret true.

(** The file is there, and empty, before its first byte is. *)
Definition write_upto (p : string * string) (content : string) (k : nat) : M fsys () :=
  for_range (seq 0 (S k)) (λ x,
    s <- get ;; to_disk (put_file p (String.substring 0 x content) (now s))).

Definition WriteFile (p : string * string) (content : string) : M fsys bool :=
  f <- next_fault ;;
  match f with
  | None => write_upto p content (String.length content) ;; ret false
  | Some NoEffect => ret true
  | Some (Short k) => write_upto p content k ;; ret true
  end.

Definition Rename (p q : string * string) : M fsys bool :=
  f <- next_fault ;;
  s <- get ;;
  match f, files (now s) !! p with
  | None, Some c => to_disk (put_file q c (del_file p (now s))) ;; ret false
  | _, _ => ret true
  end.

Definition ReadFile (p : string * string) : M fsys (option string) := gets (λ s, files (now s) !! p).

Definition names_in (d : string) (dk : disk) : list string :=
  omap (λ p, if decide (p.1 = d) then Some p.2 else None) (map fst (map_to_list (files dk))).

Definition ReadDir (d : string) : M fsys (option (list string)) :=
  gets (λ s, if decide (d ∈ dirs (now s)) then Some (sort_Strings (names_in d (now s))) else None).

(** [os.RemoveAll] stops at the first error. *)
Fixpoint remove_files (d : string) (ns : list string) : M fsys bool :=
  match ns with
  | [] => ret false
  | n :: ns' =>
      f <- next_fault ;;
      match f with
      | None => s <- get ;; to_disk (del_file (d, n) (now s)) ;; remove_files d ns'
      | Some _ => ret true
      end
  end.

Definition RemoveAll (d : string) : M fsys bool :=
  s <- get ;;
  if decide (d ∈ dirs (now s)) then
    e <- remove_files d (names_in d (now s)) ;;
    if e : bool then ret true else
    f <- next_fault ;;
    match f with
    | None => s <- get ;; to_disk (mkDisk (dirs (now s) ∖ {[d]}) (files (now s))) ;; ret false
    | Some _ => ret true
    end
  else ret false.

(** ** The helpers of [DisKV] *)

Section diskv.
Context (dir : string).

Definition shard_dir (shard : Z) : string := (dir +:+ "/shard-" +:+ Itoa shard +:+ "/")%string.

Definition mkdir_fatal : string := "Mkdir".

Definition shardDir (shard : Z) : M fsys string :=
  let d := shard_dir shard in
  s <- get ;;
  if decide (d ∈ dirs (now s)) then ret d else
  e <- Mkdir dir d ;;
  if e : bool then panic mkdir_fatal else ret d.

Definition key_name (key : string) : string := ("key-" +:+ encodeKey key)%string.
Definition temp_name (key : string) : string := ("temp-" +:+ encodeKey key)%string.

Definition fileGet (shard : Z) (key : string) : M fsys (option string) :=
  d <- shardDir shard ;; ReadFile (d, key_name key).

Definition filePut (shard : Z) (key content : string) : M fsys bool :=
  d <- shardDir shard ;;
  d' <- shardDir shard ;;
  let fullname := (d, key_name key) in
  let tempname := (d', temp_name key) in
  e <- WriteFile tempname content ;;
  if e : bool then ret true else Rename tempname fullname.

(** [n1[0:4]] and [n1[4:]] *)
Definition head4 (s : string) : option string :=
  if (4 <=? String.length s)%nat then Some (String.substring 0 4 s) else None.
Definition tail4 (s : string) : string := String.substring 4 (String.length s - 4) s.

Fixpoint read_loop (shard : Z) (ns : list string) (m : gmap string string) :
    M fsys (gmap string string) :=
  match ns with
  | [] => ret m
  | n1 :: ns' =>
      h <- must slice_panic (head4 n1) ;;
      if decide (h = "key-"%string) then
        key <- must "fileReadShard bad file name" (decodeKey (tail4 n1)) ;;
        c <- fileGet shard key ;;
        content <- must "fileReadShard fileGet failed" c ;;
        read_loop shard ns' (<[key := content]> m)
      else read_loop shard ns' m
  end.

Definition fileReadShard (shard : Z) : M fsys (gmap string string) :=
  d <- shardDir shard ;;
  fs <- ReadDir d ;;
  ns <- must "fileReadShard could not read" fs ;;
  read_loop shard ns ∅.

(** [kvs]: the entries of the map in the order [range] visits them; errors are ignored. *)
Definition fileReplaceShard (shard : Z) (kvs : list (string * string)) : M fsys () :=
  d <- shardDir shard ;;
  RemoveAll d ;;
  for_range kvs (λ '(k, v), filePut shard k v ;; ret tt).

End diskv.

(** ** Names *)

Lemma substring_0_0 s : String.substring 0 0 s = EmptyString.
Proof. by destruct s. Qed.

Lemma substring_all s : String.substring 0 (String.length s) s = s.
Proof. induction s as [|c s IH]; [done|]. simpl. by rewrite IH. Qed.

Lemma substring_all_ge k s : (String.length s ≤ k)%nat → String.substring 0 k s = s.
Proof.
  revert k. induction s as [|c s IH]; intros k Hk; [by destruct k|]. simpl in Hk.
  destruct k as [|k]; [lia|]. simpl. rewrite IH by lia. done.
Qed.

Lemma string_length_app s1 s2 :
  String.length (s1 +:+ s2) = (String.length s1 + String.length s2)%nat.
Proof. induction s1 as [|c s1 IH]; [done|]. simpl. by rewrite <- IH. Qed.

Lemma head4_key key : head4 (key_name key) = Some "key-"%string.
Proof. unfold head4, key_name. simpl. by rewrite substring_0_0. Qed.

Lemma tail4_key key : tail4 (key_name key) = encodeKey key.
Proof. unfold tail4, key_name. simpl. rewrite Nat.sub_0_r. apply substring_all. Qed.

Lemma head4_temp key : head4 (temp_name key) = Some "temp"%string.
Proof. done. Qed.

#[export] Instance key_name_inj : Inj (=) (=) key_name.
Proof. intros k1 k2 H. unfold key_name in H. simpl in H. injection H. apply (inj encodeKey). Qed.

Lemma temp_not_key k1 k2 : temp_name k1 ≠ key_name k2.
Proof. done. Qed.

(** ** Reading a shard *)

Section shard.
Context (dir : string) (shard : Z).
Local Abbreviation d := (shard_dir dir shard).

(** The content of a key's file. *)
Definition view (dk : disk) (key : string) : option string := files dk !! (d, key_name key).

(** The server's directory is there, and only files of [filePut] are in the shard's. *)
Record shard_ok (dk : disk) : Prop := mkShardOk {
  so_parent : dir ∈ dirs dk;
  so_files n c : files dk !! (d, n) = Some c → d ∈ dirs dk ∧ ∃ k, n = key_name k ∨ n = temp_name k;
}.

Lemma elem_of_names_in dk n : n ∈ names_in d dk ↔ is_Some (files dk !! (d, n)).
Proof.
  unfold names_in. rewrite list_elem_of_omap. split.
  - intros ([d' n'] & Hin & Heq). simpl in Heq. case_decide; [|done]. injection Heq as <-. subst d'.
    apply list_elem_of_fmap in Hin as ([p c] & -> & Hc%elem_of_map_to_list). eauto.
  - intros [c Hc]. exists (d, n). simpl. rewrite decide_True by done. split; [|done].
    apply list_elem_of_fmap. exists ((d, n), c). by rewrite elem_of_map_to_list.
Qed.

Lemma read_loop_spec s ns m :
  d ∈ dirs (now s) →
  Forall (λ n, is_Some (files (now s) !! (d, n)) ∧ ∃ k, n = key_name k ∨ n = temp_name k) ns →
  ∃ m', read_loop dir shard ns m s = Ok (m', s) ∧
    ∀ k, m' !! k = if decide (key_name k ∈ ns) then view (now s) k else m !! k.
Proof.
  intros Hd. revert m. induction ns as [|n ns IH]; intros m Hns.
  { exists m. split; [done|]. intros k. by rewrite decide_False by set_solver. }
  apply Forall_cons in Hns as [[[c Hc] [key Hn]] Hns]. cbn [read_loop]. destruct Hn as [->| ->].
  - unfold bind at 1. rewrite head4_key. cbn [must ret]. rewrite decide_True by done.
    unfold bind at 1. rewrite tail4_key, decodeKey_encodeKey. cbn [must ret].
    assert (fileGet dir shard key s = Ok (Some c, s)) as Hg.
    { unfold fileGet, shardDir, bind, get. rewrite decide_True by done. simpl.
      unfold ReadFile, gets. by rewrite Hc. }
    unfold bind at 1. rewrite Hg. unfold bind at 1. cbn [must ret].
    destruct (IH (<[key := c]> m) Hns) as (m' & Hrun & Hm'). exists m'. split; [exact Hrun|].
    intros k. rewrite Hm'. destruct (decide (k = key)) as [->|Hne].
    + rewrite lookup_insert_eq, (decide_True (P := key_name key ∈ key_name key :: ns)) by left.
      unfold view. rewrite Hc. by case_decide.
    + rewrite lookup_insert_ne by done. repeat case_decide; try done; set_solver.
  - unfold bind at 1. rewrite head4_temp. cbn [must ret]. rewrite decide_False by done.
    destruct (IH m Hns) as (m' & Hrun & Hm'). exists m'. split; [exact Hrun|].
    intros k. rewrite Hm'. pose proof (temp_not_key key k). repeat case_decide; try done; set_solver.
Qed.

(** Reading a shard gives the content of its key files. *)
Lemma fileReadShard_spec dk ps :
  shard_ok dk → ∃ m s, fileReadShard dir shard (mkFsys dk ps []) = Ok (m, s) ∧
    ∀ k, m !! k = view dk k.
Proof.
  intros [Hpar Hf].
  assert (∃ s, shardDir dir shard (mkFsys dk ps []) = Ok (d, s) ∧ d ∈ dirs (now s) ∧
    files (now s) = files dk) as (s & Hs & Hd & Hfs).
  { unfold shardDir, bind, get. simpl. case_decide; [eauto|].
    unfold Mkdir, next_fault, bind, get. simpl. rewrite bool_decide_true by done. simpl.
    eexists. split; [done|]. simpl. split; [set_solver|done]. }
  assert (sort_Strings (names_in d (now s)) ≡ₚ names_in d (now s)) as Hp by apply merge_sort_Permutation.
  destruct (read_loop_spec s (sort_Strings (names_in d (now s))) ∅ Hd) as (m & Hrun & Hm).
  { apply Forall_forall. intros n Hn. rewrite Hp, elem_of_names_in in Hn. split; [done|].
    destruct Hn as [c Hc]. rewrite Hfs in Hc. by apply Hf in Hc as [_ ?]. }
  exists m, s. split.
  - unfold fileReadShard, bind at 1. rewrite Hs. unfold bind at 1, ReadDir, gets.
    rewrite decide_True by done. unfold bind at 1. cbn [must ret]. exact Hrun.
  - intros k. rewrite Hm. unfold view at 2. rewrite <- Hfs. case_decide as Hin; [done|].
    rewrite Hp, elem_of_names_in in Hin. rewrite lookup_empty.
    destruct (files (now s) !! _) eqn:E; [|done]. destruct Hin. eauto.
Qed.

(** ** Writing a key *)

Section put.
Context (key content : string).
Local Abbreviation full := (d, key_name key).
Local Abbreviation temp := (d, temp_name key).

(** Only the temporary file of the key and the shard's directory may differ. *)
Record temp_only (a b : disk) : Prop := mkTempOnly {
  to_dirs x : x ∈ dirs a → x ∈ dirs b;
  to_files p : p ≠ temp → files b !! p = files a !! p;
  to_temp c : files b !! temp = Some c → files a !! temp = Some c ∨ d ∈ dirs b;
}.

(** ... and the content of the key is the new one. *)
Record replaced (a b : disk) : Prop := mkReplaced {
  re_dirs x : x ∈ dirs a → x ∈ dirs b;
  re_dir : d ∈ dirs b;
  re_files p : p ≠ temp → files b !! p = if decide (p = full) then Some content else files a !! p;
}.

(** [s'] comes after [s], and every disk since then satisfies [P]. *)
Definition grown (P : disk → Prop) (s s' : fsys) : Prop :=
  P (now s') ∧ ∃ new, past s' = past s ++ new ∧ Forall P new.

Lemma grown_refl (P : disk → Prop) s : P (now s) → grown P s s.
Proof. intros HP. split; [done|]. exists []. by rewrite app_nil_r. Qed.

Lemma grown_trans (P : disk → Prop) s1 s2 s3 : grown P s1 s2 → grown P s2 s3 → grown P s1 s3.
Proof.
  intros [_ (n1 & E1 & F1)] [HP (n2 & E2 & F2)]. split; [done|]. exists (n1 ++ n2).
  rewrite E2, E1, <- app_assoc. split; [done|by apply Forall_app].
Qed.

Lemma grown_mono (P Q : disk → Prop) s s' : (∀ x, P x → Q x) → grown P s s' → grown Q s s'.
Proof.
  intros HPQ [HP (new & E & F)]. split; [auto|]. exists new. split; [done|]. by eapply Forall_impl.
Qed.

Lemma wp_to_disk E dk s (Q : () → fsys → Prop) :
  Q tt (mkFsys dk (past s ++ [dk]) (faults s)) → wp E (to_disk dk) Q s.
Proof. unfold to_disk. intros HQ. by wp_step. Qed.

(** Without faults to come, no call fails. *)
Lemma wp_next_fault E s (Q : option fault → fsys → Prop) :
  (∀ f fs, (faults s = [] → f = None ∧ fs = []) → Q f (mkFsys (now s) (past s) fs)) →
  wp E next_fault Q s.
Proof.
  intros HQ. unfold next_fault. wp_step. wp_step. destruct s as [dk ps [|f fs]]; simpl.
  - wp_step. by apply HQ.
  - wp_steps. by apply HQ.
Qed.

Lemma temp_only_refl a : temp_only a a.
Proof. split; auto. Qed.

Lemma temp_only_trans a b c : temp_only a b → temp_only b c → temp_only a c.
Proof.
  intros [D1 F1 T1] [D2 F2 T2]. split; [auto| |].
  - intros p Hp. rewrite F2, F1 by done. done.
  - intros x [[?|?]%T1|?]%T2; auto.
Qed.

Lemma temp_only_put a b c : temp_only a b → d ∈ dirs b → temp_only a (put_file temp c b).
Proof.
  intros [Hd Hf Ht] Hin. split; simpl; auto. intros p Hp. rewrite lookup_insert_ne by done. auto.
Qed.

(** The faults that can make a call at [s] fail. *)
Definition faulty (s : fsys) : Prop := faults s ≠ [] ∨ dir ∉ dirs (now s).

Lemma shardDir_wp s :
  wp (λ w, w = mkdir_fatal ∧ faulty s) (shardDir dir shard) (λ r s', r = d ∧ d ∈ dirs (now s') ∧
    files (now s') = files (now s) ∧
    (∀ x, x ∈ dirs (now s) → x ∈ dirs (now s')) ∧ (faults s = [] → faults s' = []) ∧
    grown (temp_only (now s)) s s') s.
Proof.
  unfold shardDir. wp_step. wp_step. case_decide.
  - wp_step. split_and!; auto using grown_refl, temp_only_refl.
  - wp_step. unfold Mkdir. wp_step. apply wp_next_fault. intros f fs Hf. wp_step. wp_step. case_test.
    + wp_step. apply wp_to_disk. wp_step. wp_step. simpl.
      split_and!; [done|set_solver|done|set_solver|naive_solver|].
      assert (temp_only (now s) (mkDisk ({[d]} ∪ dirs (now s)) (files (now s)))) as Ht.
      { split; simpl; [set_solver|done|]. intros c ?. by left. }
      split; [done|]. simpl. eexists. split; [done|]. by apply Forall_singleton.
    + wp_step. apply wp_panic. split; [done|]. unfold faulty.
      destruct (decide (faults s = [])) as [Hs|]; [right|by left]. destruct (Hf Hs) as [-> _].
      match goal with H : _ ∨ _ |- _ => destruct H as [H|H]; apply bool_decide_eq_false in H; done end.
Qed.

Lemma write_upto_wp k s :
  d ∈ dirs (now s) →
  wp (λ _, False) (write_upto temp content k) (λ _ s', faults s' = faults s ∧
    grown (temp_only (now s)) s s' ∧ dirs (now s') = dirs (now s) ∧
    files (now s') !! temp = Some (String.substring 0 k content)) s.
Proof.
  intros Hd. unfold write_upto. rewrite seq_S.
  assert (∀ l s0, dirs (now s0) = dirs (now s) → temp_only (now s) (now s0) →
    wp (λ _, False) (for_range (l ++ [k]) (λ x, s1 <- get ;;
        to_disk (put_file temp (String.substring 0 x content) (now s1))))
      (λ _ s', faults s' = faults s0 ∧ grown (temp_only (now s)) s0 s' ∧
        dirs (now s') = dirs (now s) ∧ files (now s') !! temp = Some (String.substring 0 k content)) s0) as Hl.
  { induction l as [|x l IH]; intros s0 Hds Ht; simpl.
    - wp_step. wp_step. wp_step. apply wp_to_disk. wp_step.
      assert (temp_only (now s) (put_file temp (String.substring 0 k content) (now s0))) as Hp
        by (apply temp_only_put; [done|by rewrite Hds]).
      simpl. split_and!; [done| |done|by rewrite lookup_insert_eq].
      split; [done|]. eexists. split; [done|]. by apply Forall_singleton.
    - wp_step. wp_step. wp_step. apply wp_to_disk.
      assert (temp_only (now s) (put_file temp (String.substring 0 x content) (now s0))) as Hp
        by (apply temp_only_put; [done|by rewrite Hds]).
      eapply wp_mono; [by apply IH|]. intros _ s' (Hf & Hg & ? & ?). simpl in Hf.
      split_and!; [done| |done|done]. eapply grown_trans; [|exact Hg].
      split; [done|]. eexists. split; [done|]. by apply Forall_singleton. }
  apply Hl; auto using temp_only_refl.
Qed.

Lemma WriteFile_wp s :
  d ∈ dirs (now s) →
  wp (λ _, False) (WriteFile temp content) (λ e s', grown (temp_only (now s)) s s' ∧
    dirs (now s') = dirs (now s) ∧ (e = false → files (now s') !! temp = Some content) ∧
    (faults s = [] → e = false ∧ faults s' = [])) s.
Proof.
  intros Hd. unfold WriteFile. wp_step. apply wp_next_fault. intros f fs Hf.
  destruct f as [[|k]|].
  - wp_step. split_and!; [|done|done|naive_solver].
    split; [apply temp_only_refl|]. exists []. by rewrite app_nil_r.
  - wp_step. eapply wp_mono; [by apply write_upto_wp|]. intros _ s' (E & Hg & ? & ?). wp_step.
    split_and!; [exact Hg|done|done|naive_solver].
  - wp_step. eapply wp_mono; [by apply write_upto_wp|]. intros _ s' (E & Hg & ? & Ht). wp_step.
    rewrite substring_all in Ht. simpl in E. split_and!; [exact Hg|done|done|].
    intros Hs. destruct (Hf Hs). split; [done|congruence].
Qed.

Lemma replaced_rename a b :
  temp_only a b → d ∈ dirs b → files b !! temp = Some content →
  replaced a (put_file full content (del_file temp b)).
Proof.
  intros [Hd Hf _] Hin Ht. split; simpl; [done|done|]. intros p Hp. case_decide as E.
  - subst p. by rewrite lookup_insert_eq.
  - rewrite lookup_insert_ne by done. rewrite lookup_delete_ne by done. auto.
Qed.

(** [filePut]: every disk on the way has the old content or the new one. *)
Lemma filePut_wp s :
  wp (λ w, w = mkdir_fatal ∧ faulty s) (filePut dir shard key content)
    (λ e s', grown (λ b, temp_only (now s) b ∨ replaced (now s) b) s s' ∧
       (if e : bool then temp_only (now s) (now s') else replaced (now s) (now s')) ∧
       (faults s = [] → e = false ∧ faults s' = [])) s.
Proof.
  unfold filePut. wp_step. eapply wp_mono; [apply shardDir_wp|].
  intros ? s1 (-> & Hd1 & _ & _ & Hf1 & Hg1). wp_step.
  unfold shardDir. wp_step. wp_step. rewrite decide_True by done. wp_step. wp_step.
  eapply wp_weaken with (E' := λ _, False); [done|]. eapply wp_mono; [by apply WriteFile_wp|].
  intros e s2 (Hg2 & Hdirs & Hc & Hf2). rewrite <- Hdirs in Hd1.
  assert (grown (temp_only (now s)) s s2) as Hg.
  { eapply grown_trans; [exact Hg1|]. eapply grown_mono; [|exact Hg2].
    intros x. apply temp_only_trans, Hg1. }
  pose proof (grown_mono _ (λ b, temp_only (now s) b ∨ replaced (now s) b) _ _
    (λ x H, or_introl H) Hg) as Hg'. destruct Hg as [Ht _].
  destruct e; [wp_step; naive_solver|]. unfold Rename. wp_step.
  apply wp_next_fault. intros f fs Hf. wp_step. wp_step. simpl. rewrite Hc by done.
  destruct f as [f|].
  - wp_step. split_and!; [exact Hg'|done|naive_solver].
  - wp_step. apply wp_to_disk. wp_step.
    pose proof (replaced_rename _ _ Ht Hd1 (Hc eq_refl)) as Hr. simpl. split_and!; [|done|naive_solver].
    eapply grown_trans; [exact Hg'|]. split; [by right|]. eexists. split; [done|].
    apply Forall_singleton. by right.
Qed.

Lemma temp_only_view a b k : temp_only a b → view b k = view a k.
Proof. intros [_ Hf _]. apply Hf. intros [= H]. Qed.

Lemma replaced_view a b k : replaced a b → view b k = if decide (k = key) then Some content else view a k.
Proof.
  intros [_ _ Hf]. unfold view. rewrite Hf by (by intros [= H]). repeat case_decide; naive_solver.
Qed.

Lemma temp_only_ok a b : temp_only a b → shard_ok a → shard_ok b.
Proof.
  intros [Hd Hf Ht] [Hp Hn]. split; [auto|]. intros n c Hc. destruct (decide (n = temp_name key)) as [->|Hne].
  - split; [|eauto]. destruct (Ht c Hc) as [Ha|]; [|done]. by apply Hn in Ha as [? _]; auto.
  - rewrite Hf in Hc by congruence. apply Hn in Hc as [? ?]. auto.
Qed.

Lemma replaced_ok a b : replaced a b → shard_ok a → shard_ok b.
Proof.
  intros [Hd Hin Hf] [Hp Hn]. split; [auto|]. intros n c Hc. split; [done|].
  destruct (decide (n = temp_name key)) as [->|Hne]; [eauto|].
  rewrite Hf in Hc by congruence. case_decide as E; [injection E as ->; eauto|].
  by apply Hn in Hc as [_ ?].
Qed.

End put.

(** C12: Replacing the content of a key is atomic with respect to crashes of the process (which keep
    what was written; there is no [fsync]).  Whatever calls fail,
    on every disk such a crash during [filePut] could leave, the shard reads as before or with the
    new content; it reads with the new content if [filePut] returned no error and as before if
    it did; without faults there is no error; the only panic is the one for a directory that
    cannot be made. *)
Theorem disk_put_atomic key content s m0 s0 :
  shard_ok (now s) → fileReadShard dir shard (mkFsys (now s) [] []) = Ok (m0, s0) →
  match filePut dir shard key content s with
  | Ok (e, s') =>
      (∃ new, past s' = past s ++ new ∧ Forall (λ dk, ∃ m s2,
         fileReadShard dir shard (mkFsys dk [] []) = Ok (m, s2) ∧
         (m = m0 ∨ m = <[key := content]> m0)) new) ∧
      (∃ s2, fileReadShard dir shard (mkFsys (now s') [] []) =
         Ok (if e : bool then m0 else <[key := content]> m0, s2)) ∧
      (faults s = [] → e = false)
  | Panic w => w = mkdir_fatal ∧ faults s ≠ []
  end.
Proof.
  intros Hok Hm0.
  assert (∀ k, m0 !! k = view (now s) k) as Hv0.
  { destruct (fileReadShard_spec (now s) [] Hok) as (m & s1 & Hm & Hv). rewrite Hm0 in Hm.
    by injection Hm as <- <-. }
  assert (∀ b, temp_only key (now s) b →
    ∃ s2, fileReadShard dir shard (mkFsys b [] []) = Ok (m0, s2)) as Hsame.
  { intros b Hb. destruct (fileReadShard_spec b []) as (m & s2 & Hm & Hv); [by eapply temp_only_ok|].
    exists s2. rewrite Hm. do 2 f_equal. apply map_eq. intros k.
    by rewrite Hv, Hv0, (temp_only_view key (now s)). }
  assert (∀ b, replaced key content (now s) b →
    ∃ s2, fileReadShard dir shard (mkFsys b [] []) = Ok (<[key := content]> m0, s2)) as Hnew.
  { intros b Hb. destruct (fileReadShard_spec b []) as (m & s2 & Hm & Hv); [by eapply replaced_ok|].
    exists s2. rewrite Hm. do 2 f_equal. apply map_eq. intros k.
    rewrite Hv, (replaced_view key content (now s)) by done. case_decide as E.
    - subst k. by rewrite lookup_insert_eq.
    - by rewrite lookup_insert_ne, Hv0. }
  pose proof (filePut_wp key content s) as Hwp. unfold wp in Hwp.
  destruct (filePut _ _ _ _ s) as [[e s']|w].
  - destruct Hwp as ([_ (new & Hpast & Hall)] & He & Hnf). split_and!.
    + exists new. split; [done|]. eapply Forall_impl; [exact Hall|].
      intros b [Hb|Hb]; [destruct (Hsame b Hb)|destruct (Hnew b Hb)]; eauto.
    + destruct e; auto.
    + intros Hf. by apply Hnf.
  - destruct Hwp as [-> Hf]. split; [done|]. destruct Hf as [?|Hf]; [done|].
    by destruct Hf, Hok.
Qed.

(** ** Replacing a shard *)

Lemma remove_files_wp ns s :
  faults s = [] →
  wp (λ _, False) (remove_files d ns) (λ e s', e = false ∧ faults s' = [] ∧
    dirs (now s') = dirs (now s) ∧
    ∀ p, files (now s') !! p = if decide (p.1 = d ∧ p.2 ∈ ns) then None else files (now s) !! p) s.
Proof.
  revert s. induction ns as [|n ns IH]; intros s Hf; cbn [remove_files].
  { wp_step. split_and!; try done. intros p. rewrite decide_False; [done|]. set_solver. }
  wp_step. apply wp_next_fault. intros f fs Hfs. destruct (Hfs Hf) as [-> ->].
  wp_step. wp_step. wp_step. apply wp_to_disk. eapply wp_mono; [by apply IH|].
  intros e s' (-> & Hf' & Hd & Hl). split_and!; try done. intros [d' n']. rewrite Hl. simpl.
  destruct (decide ((d', n') = (d, n))) as [[= -> ->]|Hne].
  - rewrite lookup_delete_eq. rewrite (decide_True (P := d = d ∧ n ∈ n :: ns)) by (split; [done|left]).
    by case_decide.
  - rewrite lookup_delete_ne by congruence.
    destruct (decide (d' = d ∧ n' ∈ ns)) as [[-> ?]|Hn1].
    + by rewrite decide_True by (split; [done|by right]).
    + rewrite decide_False; [done|]. intros [-> [->|?]%elem_of_cons]; naive_solver.
Qed.

Lemma shard_dir_ne : dir ≠ d.
Proof.
  intros H. apply (f_equal String.length) in H. unfold shard_dir in H.
  rewrite string_length_app in H. simpl in H. lia.
Qed.

Lemma RemoveAll_wp s :
  faults s = [] → shard_ok (now s) →
  wp (λ _, False) (RemoveAll d) (λ _ s', faults s' = [] ∧ shard_ok (now s') ∧
    ∀ p, files (now s') !! p = if decide (p.1 = d) then None else files (now s) !! p) s.
Proof.
  intros Hf [Hp Hn]. pose proof shard_dir_ne as Hne. unfold RemoveAll. wp_step. wp_step. case_decide as Hd.
  - wp_step. eapply wp_mono; [by apply remove_files_wp|]. intros e s1 (-> & Hf1 & Hd1 & Hl1).
    cbn beta iota. wp_step. apply wp_next_fault. intros f fs Hfs. destruct (Hfs Hf1) as [-> ->].
    wp_step. wp_step. wp_step. apply wp_to_disk. wp_step. simpl.
    assert (∀ p, files (now s1) !! p = if decide (p.1 = d) then None else files (now s) !! p) as Hl.
    { intros [d' n]. rewrite Hl1. simpl. destruct (decide (d' = d)) as [->|]; [|by rewrite decide_False by tauto].
      case_decide as Hin; [done|]. destruct (files (now s) !! (d, n)) eqn:E; [|done].
      destruct Hin. split; [done|]. apply elem_of_names_in. eauto. }
    split_and!; [done| |done]. split; simpl; [rewrite Hd1; set_solver|].
    intros n c. rewrite Hl. simpl. by rewrite decide_True.
  - wp_step. split_and!; [done|done|]. intros [d' n]. simpl. case_decide; [|done]. subst d'.
    destruct (files (now s) !! (d, n)) eqn:E; [|done]. by apply Hn in E as [? _].
Qed.

Lemma put_all_wp kvs done s :
  faults s = [] → shard_ok (now s) → NoDup (done ++ kvs).*1 →
  (∀ k, view (now s) k = (list_to_map done : gmap string string) !! k) →
  wp (λ _, False) (for_range kvs (λ '(k, v), filePut dir shard k v ;; ret tt))
    (λ _ s', shard_ok (now s') ∧
       (∀ k, view (now s') k = (list_to_map (done ++ kvs) : gmap string string) !! k) ∧
       ∀ p, p.1 ≠ d → files (now s') !! p = files (now s) !! p) s.
Proof.
  revert done s. induction kvs as [|[k v] kvs IH]; intros done s Hf Hok Hnd Hv; simpl.
  { wp_step. by rewrite app_nil_r. }
  wp_step. wp_step. eapply wp_weaken with (E' := λ w, w = mkdir_fatal ∧ faulty s).
  { intros w [_ [?|Hp]]; [done|]. by destruct Hp, Hok. }
  eapply wp_mono; [apply filePut_wp|]. intros e s1 (_ & He & Hf1). destruct (Hf1 Hf) as [-> Hf1'].
  wp_step. rewrite cons_middle, app_assoc in Hnd |- *.
  assert (k ∉ done.*1) as Hk.
  { rewrite !fmap_app in Hnd. apply NoDup_app in Hnd as [Hnd _].
    apply NoDup_app in Hnd as (_ & Hd & _). intros Hin. apply (Hd k Hin). left. }
  eapply wp_mono; [apply (IH (done ++ [(k, v)]))|]; [done|by eapply replaced_ok|done|..].
  - intros k'. rewrite (replaced_view k v (now s)) by done. rewrite list_to_map_snoc by done.
    case_decide as E; [subst; by rewrite lookup_insert_eq|]. by rewrite lookup_insert_ne, Hv.
  - intros _ s' (? & ? & Hp). split_and!; [done..|]. intros p Hne. rewrite Hp by done.
    destruct He as [_ _ Hfiles]. rewrite Hfiles by (intros ->; by apply Hne).
    rewrite decide_False; [done|]. intros ->. by apply Hne.
Qed.

(** C33: A shard that was replaced is read back: without faults, [fileReadShard] returns the map
    that [fileReplaceShard] wrote, and the files of other shards are untouched. *)
Theorem replace_shard_roundtrip kvs s :
  faults s = [] → shard_ok (now s) → NoDup kvs.*1 →
  ∃ s' s2, fileReplaceShard dir shard kvs s = Ok (tt, s') ∧
    fileReadShard dir shard (mkFsys (now s') [] []) = Ok (list_to_map kvs, s2) ∧
    ∀ p, p.1 ≠ d → files (now s') !! p = files (now s) !! p.
Proof.
  intros Hf Hok Hnd.
  destruct (wp_total (fileReplaceShard dir shard kvs) (λ _ s', shard_ok (now s') ∧
    (∀ k, view (now s') k = (list_to_map kvs : gmap string string) !! k) ∧
    ∀ p, p.1 ≠ d → files (now s') !! p = files (now s) !! p) s) as ([] & s' & Hrun & Hok' & Hv & Hp).
  - unfold fileReplaceShard. wp_step. eapply wp_weaken with (E' := λ w, w = mkdir_fatal ∧ faulty s).
    { intros w [_ [?|Hp]]; [done|]. by destruct Hp, Hok. }
    eapply wp_mono; [apply (shardDir_wp EmptyString)|].
    intros ? s1 (-> & Hd1 & Hfiles & Hdirs & Hf1 & Hg1). wp_step.
    assert (shard_ok (now s1)) as Hok1 by (eapply temp_only_ok; [apply Hg1|done]).
    eapply wp_mono; [by apply RemoveAll_wp; auto|]. intros _ s2 (Hf2 & Hok2 & Hl2).
    eapply wp_mono; [apply (put_all_wp kvs [])|]; [done..| |].
    + intros k. unfold view. rewrite Hl2. simpl. by rewrite decide_True.
    + intros _ s3 (? & ? & Hp). split_and!; [done..|]. intros p Hne.
      rewrite Hp, Hl2, decide_False by done. by rewrite Hfiles.
  - destruct (fileReadShard_spec (now s') [] Hok') as (m & s2 & Hm & Hmv).
    exists s', s2. split_and!; [done| |done]. rewrite Hm. do 2 f_equal. apply map_eq.
    intros k. by rewrite Hmv, Hv.
Qed.

End shard.

Lemma encode_alphabet l : Forall (λ c, c ∈ alphabet ∨ c = "="%char) (encode_bytes l).
Proof.
  assert (∀ v, digit v ∈ alphabet) as Hd.
  { intros v. unfold digit. destruct (nth_in_or_default (Z.to_nat v) alphabet "A"%char) as [H| ->].
    - by apply list_elem_of_In.
    - left. }
  assert (∀ k w, Forall (λ c, c ∈ alphabet ∨ c = "="%char) (quantum k w)) as Hq.
  { intros k w. apply Forall_app. split; [|apply Forall_replicate; by right].
    apply Forall_map, Forall_forall. intros v _. by left. }
  induction l as [l IH] using (induction_ltof1 _ (@length ascii)). unfold ltof in IH.
  destruct l as [|a [|b [|c [|d [|e l]]]]]; [by apply Forall_nil|apply Hq..|]. cbn [encode_bytes].
  apply Forall_app. split; [apply Hq|]. apply IH. simpl. lia.
Qed.

(** Keys survive their file names: the name of a key's file is made of the letters, digits
    and padding of base32 only, so no key can escape from the directory, and it decodes to the
    key it was made from. *)
Theorem key_file_name key :
  decodeKey (encodeKey key) = Some key ∧
  Forall (λ c, c ∈ alphabet ∨ c = "="%char) (String.list_ascii_of_string (encodeKey key)).
Proof.
  split; [apply decodeKey_encodeKey|]. unfold encodeKey.
  rewrite String.list_ascii_of_string_of_list_ascii. apply encode_alphabet.
Qed.

(** ** An example *)

Definition empty_disk : disk := mkDisk {["d"%string]} ∅.

Lemma empty_disk_ok : shard_ok "d" 3 empty_disk.
Proof. split; simpl; [set_solver|]. intros n c. by rewrite lookup_empty. Qed.

(** The write of the second put is cut short after one byte. *)
Definition short_write : fsys := mkFsys empty_disk [] [None; Some (Short 1)].

Lemma disk_put_atomic_witness :
  ∃ s' s2, filePut "d" 3 "k" "value" short_write = Ok (true, s') ∧
    fileReadShard "d" 3 (mkFsys (now s') [] []) = Ok (∅, s2).
Proof.
  destruct (fileReadShard "d" 3 (mkFsys empty_disk [] [])) as [[m0 s0]|w] eqn:E;
    [|vm_compute in E; discriminate E].
  assert (m0 = ∅) as ->.
  { apply (f_equal (λ x, match x with Ok (m, _) => m | _ => ∅ end)) in E. cbv beta iota in E.
    rewrite <- E. vm_compute. reflexivity. }
  pose proof (disk_put_atomic "d" 3 "k" "value" short_write ∅ s0 empty_disk_ok E) as H.
  destruct (filePut "d" 3 "k" "value" short_write) as [[e s']|w] eqn:Hp; [|vm_compute in Hp; discriminate Hp].
  assert (e = true) as ->.
  { apply (f_equal (λ x, match x with Ok (b, _) => b | _ => false end)) in Hp. cbv beta iota in Hp.
    rewrite <- Hp. vm_compute. reflexivity. }
  destruct H as (_ & [s2 H2] & _). exists s', s2. split; [reflexivity|exact H2].
Defined.

Lemma replace_shard_roundtrip_witness :
  ∃ s' s2, fileReplaceShard "d" 3 [("a", "1"); ("b", "2")]%string (mkFsys empty_disk [] []) = Ok (tt, s') ∧
    fileReadShard "d" 3 (mkFsys (now s') [] []) =
      Ok (list_to_map [("a", "1"); ("b", "2")]%string, s2).
Proof.
  destruct (replace_shard_roundtrip "d" 3 [("a", "1"); ("b", "2")]%string (mkFsys empty_disk [] [])
    eq_refl empty_disk_ok) as (s' & s2 & H1 & H2 & _).
  - apply (bool_decide_unpack _). vm_compute. exact I.
  - exists s', s2. split; [exact H1|exact H2].
Defined.
