(* ===== verification/ShardClerk.v ===== *)
(** * Clerks of the sharded services (src/mit/src/shardmaster, shardkv, diskv, paxos-shardkv)

    The clients of the shard master and of the sharded key/value services.  The
    servers of these labs are not implemented; the clerks' retry loops are.
    Calls are numbered, and what a call returns is an oracle: [mcall k m args]
    is the reply of master [m] to call [k], [kcall k s] that of server [s],
    [None] if the call failed.  Endless loops take a number of iterations.

    The labrpc variants test [WrongLeader]; the older variants on net/rpc
    (diskv, paxos-shardkv, paxos-shardmaster) have no such field.

    The theorems: the shard of a key is always an index of [Config.Shards]; a
    clerk returns only what a server of the group responsible for the key
    answered; it does return once masters and group answer and no server of the group
    says that it is the wrong one. *)
From Stdlib Require Import Ascii.
From Stdlib Require Strings.String.
From S2P Require Import Prelude GoRt.
Open Scope Z_scope.

Definition NShards : Z := 10.

(** [Shards] is an array: its length is always [NShards]. *)
Record Config : Type := mkShardConfig {
  Num : Z; Shards : list Z; Groups : gmap Z (list string);
}.

Definition key2shard (key : string) : Z :=
  (match key with
   | EmptyString => 0
   | String.String c _ => Z.of_nat (nat_of_ascii c)
   end) mod NShards.
Definition disk_key2shard : string → Z := key2shard.
Definition paxos_key2shard : string → Z := key2shard.

(** ** The clerk of the shard master *)

Inductive margs : Type :=
| QueryArgs (num : Z)
| JoinArgs (servers : gmap Z (list string))
| LeaveArgs (gids : list Z)
| MoveArgs (shard gid : Z).

Record mreply : Type := mkMreply { M_WrongLeader : bool; M_Err : string; M_Config : Config }.

Section master.
Context (mcall : nat → Z → margs → option mreply) (nmasters : Z).

(** The inner loop: the reply that ends it and the number of the next call. *)
Fixpoint master_pass (args : margs) (srvs : list Z) (k : nat) : option mreply * nat :=
  match srvs with
  | [] => (None, k)
  | srv :: srvs' =>
      match mcall k srv args with
      | Some reply =>
          if negb (M_WrongLeader reply) then (Some reply, S k) else master_pass args srvs' (S k)
      | None => master_pass args srvs' (S k)
      end
  end.

Fixpoint master_loop (fuel : nat) (args : margs) (k : nat) : option (mreply * nat) :=
  match fuel with
  | O => None
  | S fuel' =>
      match master_pass args (seqZ 0 nmasters) k with
      | (Some reply, k') => Some (reply, k')
      | (None, k') => master_loop fuel' args k'
      end
  end.

Definition Query (fuel : nat) (num : Z) (k : nat) : option (Config * nat) :=
  match master_loop fuel (QueryArgs num) k with
  | Some (reply, k') => Some (M_Config reply, k')
  | None => None
  end.
Definition Join (fuel : nat) (servers : gmap Z (list string)) (k : nat) : option nat :=
  option_map snd (master_loop fuel (JoinArgs servers) k).
Definition Leave (fuel : nat) (gids : list Z) (k : nat) : option nat :=
  option_map snd (master_loop fuel (LeaveArgs gids) k).
Definition Move (fuel : nat) (shard gid : Z) (k : nat) : option nat :=
  option_map snd (master_loop fuel (MoveArgs shard gid) k).

End master.

(** The older masters do not say that they are not the leader. *)
Definition paxos_reply (c : Config) : mreply := mkMreply false EmptyString c.
Definition paxos_mcall (mcall : nat → Z → margs → option Config) (k : nat) (m : Z) (a : margs) :
    option mreply := option_map paxos_reply (mcall k m a).
Definition paxos_Query mcall nmasters := Query (paxos_mcall mcall) nmasters.
Definition paxos_Join mcall nmasters (fuel : nat) (gid : Z) (servers : list string) :=
  Join (paxos_mcall mcall) nmasters fuel {[gid := servers]}.
Definition paxos_Leave mcall nmasters (fuel : nat) (gid : Z) :=
  Leave (paxos_mcall mcall) nmasters fuel [gid].
Definition paxos_Move mcall nmasters := Move (paxos_mcall mcall) nmasters.

(** ** The clerk of the key/value service *)

Record kreply : Type := mkKreply { K_WrongLeader : bool; K_Err : string; K_Value : string }.

Definition err_OK : string := "OK".
Definition err_NoKey : string := "ErrNoKey".
Definition err_WrongGroup : string := "ErrWrongGroup".

(** How a loop ends: with a reply, with a run-time panic, or not within the given iterations. *)
Inductive outcome (A : Type) : Type :=
| Returned (a : A)
| Crashed
| Looping.
Arguments Returned {A} a.
Arguments Crashed {A}.
Arguments Looping {A}.

Section clerk.
Context (mcall : nat → Z → margs → option mreply) (nmasters : Z).
Context (accept : kreply → bool).

(** The loop over the servers of the group. *)
Fixpoint try_servers (kcall : nat → string → option kreply) (srvs : list string) (k : nat) :
    option kreply * nat :=
  match srvs with
  | [] => (None, k)
  | srv :: srvs' =>
      match kcall k srv with
      | Some reply =>
          if accept reply then (Some reply, S k)
          else if bool_decide (K_Err reply = err_WrongGroup) then (None, S k)
          else try_servers kcall srvs' (S k)
      | None => try_servers kcall srvs' (S k)
      end
  end.

(** [qfuel] bounds the passes of each [Query]; [k] and [km] number the calls. *)
Fixpoint shard_loop (kcall : nat → string → option kreply) (qfuel fuel : nat) (key : string)
    (config : Config) (k km : nat) : outcome (kreply * Config) :=
  match fuel with
  | O => Looping
  | S fuel' =>
      match go_at (Shards config) (key2shard key) with
      | None => Crashed
      | Some gid =>
          match (match Groups config !! gid with
                 | Some servers => try_servers kcall servers k
                 | None => (None, k)
                 end) with
          | (Some reply, _) => Returned (reply, config)
          | (None, k') =>
              match Query mcall nmasters qfuel (-1) km with
              | Some (config', km') => shard_loop kcall qfuel fuel' key config' k' km'
              | None => Looping
              end
          end
      end
  end.

End clerk.

(** The replies that end [Get] and [PutAppend] in shardkv ... *)
Definition get_accept (r : kreply) : bool :=
  negb (K_WrongLeader r) &&
  (bool_decide (K_Err r = err_OK) || bool_decide (K_Err r = err_NoKey)).
Definition put_accept (r : kreply) : bool :=
  negb (K_WrongLeader r) && bool_decide (K_Err r = err_OK).

(** ... and in diskv and paxos-shardkv. *)
Definition disk_get_accept (r : kreply) : bool :=
  bool_decide (K_Err r = err_OK) || bool_decide (K_Err r = err_NoKey).
Definition disk_put_accept (r : kreply) : bool := bool_decide (K_Err r = err_OK).

Definition get_value (o : outcome (kreply * Config)) : outcome (string * Config) :=
  match o with
  | Returned (r, c) => Returned (K_Value r, c)
  | Crashed => Crashed
  | Looping => Looping
  end.
Definition put_done (o : outcome (kreply * Config)) : outcome Config :=
  match o with Returned (_, c) => Returned c | Crashed => Crashed | Looping => Looping end.

Section operations.
Context (mcall : nat → Z → margs → option mreply) (nmasters : Z).
Context (getcall : string → nat → string → option kreply).
Context (putcall : string → string → string → nat → string → option kreply).
Context (qfuel fuel : nat).

Definition ShardKV_Get (key : string) (config : Config) (k km : nat) :=
  get_value (shard_loop mcall nmasters get_accept (getcall key) qfuel fuel key config k km).
Definition ShardKV_PutAppend (key value op : string) (config : Config) (k km : nat) :=
  put_done (shard_loop mcall nmasters put_accept (putcall key value op) qfuel fuel key config k km).
Definition ShardKV_Put (key value : string) := ShardKV_PutAppend key value "Put".
Definition ShardKV_Append (key value : string) := ShardKV_PutAppend key value "Append".

Definition DisKV_Get (key : string) (config : Config) (k km : nat) :=
  get_value (shard_loop mcall nmasters disk_get_accept (getcall key) qfuel fuel key config k km).
Definition DisKV_PutAppend (key value op : string) (config : Config) (k km : nat) :=
  put_done (shard_loop mcall nmasters disk_put_accept (putcall key value op) qfuel fuel key config k km).
Definition DisKV_Put (key value : string) := DisKV_PutAppend key value "Put".
Definition DisKV_Append (key value : string) := DisKV_PutAppend key value "Append".

(** paxos-shardkv has the same two methods. *)
Definition PaxosKV_Get := DisKV_Get.
Definition PaxosKV_PutAppend := DisKV_PutAppend.
Definition PaxosKV_Put (key value : string) := PaxosKV_PutAppend key value "Put".
Definition PaxosKV_Append (key value : string) := PaxosKV_PutAppend key value "Append".

End operations.

(** [new(Clerk)]: no shard is assigned and no group is known. *)
Definition zero_config : Config := mkShardConfig 0 (replicate 10 0) ∅.

(** ** Theorems *)

Definition config_ok (c : Config) : Prop := go_len (Shards c) = NShards.

Lemma key2shard_range key : 0 ≤ key2shard key < NShards.
Proof. unfold key2shard, NShards. apply Z.mod_pos_bound. lia. Qed.

(** The servers of the group that is responsible for a key. *)
Definition group_of (c : Config) (key : string) : option (list string) :=
  match go_at (Shards c) (key2shard key) with Some gid => Groups c !! gid | None => None end.

Section loop.
Context (mcall : nat → Z → margs → option mreply) (nmasters : Z) (accept : kreply → bool).
Context (kcall : nat → string → option kreply) (key : string).

Lemma try_servers_reply srvs k r k' :
  try_servers accept kcall srvs k = (Some r, k') →
  ∃ s k1, s ∈ srvs ∧ (k ≤ k1)%nat ∧ kcall k1 s = Some r ∧ accept r = true.
Proof.
  revert k. induction srvs as [|s srvs IH]; intros k; [done|]. simpl.
  destruct (kcall k s) as [r0|] eqn:Hc.
  - case_test; [intros [= <- <-]; exists s, k; split_and!; [left|done..]|].
    case_test; [done|]. intros (s' & k1 & ? & ? & ?)%IH. exists s', k1. split_and!; [by right|lia|tauto..].
  - intros (s' & k1 & ? & ? & ?)%IH. exists s', k1. split_and!; [by right|lia|tauto..].
Qed.

Lemma try_servers_calls srvs k : (k ≤ (try_servers accept kcall srvs k).2)%nat.
Proof.
  revert k. induction srvs as [|s srvs IH]; intros k; simpl; [done|].
  destruct (kcall k s); [case_test; [simpl; lia|]; case_test; [simpl; lia|]|]; specialize (IH (S k)); lia.
Qed.

Lemma try_servers_progress s srvs k : (k < (try_servers accept kcall (s :: srvs) k).2)%nat.
Proof.
  simpl. pose proof (try_servers_calls srvs (S k)).
  destruct (kcall k s); [case_test; [simpl; lia|]; case_test; [simpl; lia|]|]; lia.
Qed.

(** Configurations the clerk can use: the one it has, and those the masters give. *)
Inductive known (c0 : Config) : Config → Prop :=
| known_own : known c0 c0
| known_query qfuel km c km' : Query mcall nmasters qfuel (-1) km = Some (c, km') → known c0 c.

Lemma shard_loop_sound qfuel fuel c0 c k km r c' :
  known c0 c → shard_loop mcall nmasters accept kcall qfuel fuel key c k km = Returned (r, c') →
  known c0 c' ∧ accept r = true ∧
  ∃ srvs s k1, group_of c' key = Some srvs ∧ s ∈ srvs ∧ kcall k1 s = Some r.
Proof.
  revert c k km. induction fuel as [|fuel IH]; intros c k km Hk; [done|]. cbn [shard_loop].
  destruct (go_at (Shards c) (key2shard key)) as [gid|] eqn:Hg; [|done].
  destruct (match Groups c !! gid with Some servers => _ | None => _ end) as [[r0|] k'] eqn:Ht.
  - intros [= <- <-]. destruct (Groups c !! gid) as [srvs|] eqn:Hs; [|done].
    destruct (try_servers_reply _ _ _ _ Ht) as (s & k1 & ? & _ & ? & ?).
    split_and!; [done..|]. exists srvs, s, k1. unfold group_of. by rewrite Hg.
  - destruct (Query mcall nmasters qfuel (-1) km) as [[c1 km']|] eqn:Hq; [|done].
    apply IH. by eapply known_query.
Qed.

(** A pass over a group in which the servers before [s] do not break the loop, and [s] accepts. *)
Lemma try_servers_accepts pre s post k :
  (∀ k1 s1 r, (k ≤ k1)%nat → s1 ∈ pre → kcall k1 s1 = Some r → K_Err r ≠ err_WrongGroup) →
  (∀ k1, (k ≤ k1)%nat → ∃ r, kcall k1 s = Some r ∧ accept r = true) →
  ∃ r k', try_servers accept kcall (pre ++ s :: post) k = (Some r, k').
Proof.
  revert k. induction pre as [|s1 pre IH]; intros k Hpre Hs; simpl.
  - destruct (Hs k) as (r & -> & ->); [lia|]. eauto.
  - assert (∃ r k', try_servers accept kcall (pre ++ s :: post) (S k) = (Some r, k')) as Hrest.
    { apply IH; [intros; eapply Hpre; [|by right|done]; lia|intros; apply Hs; lia]. }
    destruct (kcall k s1) as [r|] eqn:Hc; [|done]. case_test; [eauto|].
    rewrite bool_decide_false; [done|]. eapply Hpre; [|left|done]. lia.
Qed.

(** The masters answer every query with [c], whose group for the key has a server that accepts
    from call [N] on, and no server before it answers [ErrWrongGroup]. *)
Record serving (qfuel N : nat) (c : Config) : Prop := mkServing {
  sv_ok : config_ok c;
  sv_query km : ∃ km', Query mcall nmasters qfuel (-1) km = Some (c, km');
  sv_group : ∃ pre s post, group_of c key = Some (pre ++ s :: post) ∧
    (∀ k s1 r, s1 ∈ pre → kcall k s1 = Some r → K_Err r ≠ err_WrongGroup) ∧
    (∀ k, (N ≤ k)%nat → ∃ r, kcall k s = Some r ∧ accept r = true);
}.

Lemma shard_loop_serving qfuel N c fuel k km :
  serving qfuel N c → (N < k + fuel)%nat → (0 < fuel)%nat →
  ∃ r c', shard_loop mcall nmasters accept kcall qfuel fuel key c k km = Returned (r, c').
Proof.
  intros [Hok Hq (pre & s & post & Hg & Hpre & Hs)]. revert k km.
  induction fuel as [|fuel IH]; intros k km Hf Hpos; [lia|]. cbn [shard_loop].
  unfold group_of in Hg. destruct (go_at (Shards c) (key2shard key)) as [gid|]; [|done]. rewrite Hg.
  destruct (decide (N ≤ k)%nat) as [Hk|Hk].
  - destruct (try_servers_accepts pre s post k) as (r & k' & ->); [eauto|intros; apply Hs; lia|]. eauto.
  - assert (k < (try_servers accept kcall (pre ++ s :: post) k).2)%nat as Hprog.
    { destruct pre; apply try_servers_progress. }
    destruct (try_servers accept kcall (pre ++ s :: post) k) as [[r|] k']; [eauto|]. simpl in Hprog.
    destruct (Hq km) as [km' ->]. apply IH; lia.
Qed.

End loop.

(** A clerk of the sharded service returns only what it was told by the right server: the
    value of [Get] is the value of a reply without error that a server gave, and the server
    belongs to the group that holds the key's shard in a configuration the clerk had or got
    from a master. *)
Theorem shard_get_sound mcall nmasters getcall qfuel fuel key c0 k km v c :
  ShardKV_Get mcall nmasters getcall qfuel fuel key c0 k km = Returned (v, c) →
  known mcall nmasters c0 c ∧ ∃ srvs s k1 r, group_of c key = Some srvs ∧ s ∈ srvs ∧
    getcall key k1 s = Some r ∧ K_Value r = v ∧ K_WrongLeader r = false ∧
    (K_Err r = err_OK ∨ K_Err r = err_NoKey).
Proof.
  unfold ShardKV_Get. destruct (shard_loop _ _ _ _ _ _ _ _ _ _) as [[r c']| |] eqn:Hl; try done.
  intros [= <- <-]. destruct (shard_loop_sound _ _ _ _ _ _ _ c0 _ _ _ _ _ (known_own _ _ _) Hl)
    as (Hk & Ha & srvs & s & k1 & ? & ? & ?).
  split; [done|]. exists srvs, s, k1, r. unfold get_accept in Ha. boolify.
  split_and!; try done. match goal with H : _ ∨ _ |- _ =>
    destruct H as [H|H]; apply bool_decide_eq_true in H; auto end.
Qed.

(** C32: [Get] returns.  Started with any configuration whose [Shards] is an array of ten, the clerk
    returns after at most [N + 2] rounds, and so without indexing out of range, provided that
    every query of the masters is answered, within [qfuel] rounds, with one configuration [c], and
    that the group [c] has for the key contains a server that answers without an error (or with
    [ErrNoKey]) from call [N] on, while the servers listed before it in the group may fail, refuse
    or not know the key in any way but never answer [ErrWrongGroup], at which the clerk stops
    asking the group. *)
Theorem shard_get_returns mcall nmasters getcall qfuel N key c0 c k km :
  config_ok c0 → serving mcall nmasters get_accept (getcall key) key qfuel N c →
  ∃ v c', ShardKV_Get mcall nmasters getcall qfuel (N + 2) key c0 k km = Returned (v, c').
Proof.
  intros Hok Sv. unfold ShardKV_Get.
  assert (∃ r c', shard_loop mcall nmasters get_accept (getcall key) qfuel (N + 2) key c0 k km =
    Returned (r, c')) as (r & c' & ->); [|simpl; eauto].
  replace (N + 2)%nat with (S (S N)) by lia. remember (S N) as fuel eqn:Hfuel. cbn [shard_loop].
  destruct (go_at_is_Some (Shards c0) (key2shard key)) as [gid ->].
  { rewrite Hok. apply key2shard_range. }
  destruct (match Groups c0 !! gid with Some servers => _ | None => _ end) as [[r|] k']; [eauto|].
  destruct (sv_query _ _ _ _ _ _ _ _ Sv km) as [km' ->].
  destruct (shard_loop_serving _ _ _ _ _ qfuel N c fuel k' km' Sv) as (r & c' & H); [lia|lia|].
  rewrite H. eauto.
Qed.

(** ** An example *)

(** One master, and one group of two servers of which the second answers. *)
Definition demo_shards : Config := mkShardConfig 1 (replicate 10 7) {[7 := ["s1"; "s2"]%string]}.
Definition demo_mcall (k : nat) (m : Z) (a : margs) : option mreply :=
  if (k <? 3)%nat then None else Some (mkMreply false EmptyString demo_shards).
Definition demo_getcall (key : string) (k : nat) (s : string) : option kreply :=
  if bool_decide (s = "s2"%string) && (4 <=? k)%nat
  then Some (mkKreply false err_OK "v") else Some (mkKreply true err_OK EmptyString).

Lemma shard_get_sound_witness :
  ShardKV_Get demo_mcall 1 demo_getcall 10 6 "a" zero_config 0 0 = Returned ("v"%string, demo_shards) ∧
  known demo_mcall 1 zero_config demo_shards.
Proof.
  assert (ShardKV_Get demo_mcall 1 demo_getcall 10 6 "a" zero_config 0 0 =
    Returned ("v"%string, demo_shards)) as H by reflexivity.
  split; [exact H|]. exact (proj1 (shard_get_sound _ _ _ _ _ _ _ _ _ _ _ H)).
Defined.

Lemma demo_serving : serving demo_mcall 1 get_accept (demo_getcall "a") "a" 10 4 demo_shards.
Proof.
  split; [reflexivity| |].
  - intros km. destruct km as [|[|[|km]]]; eexists; reflexivity.
  - exists ["s1"%string], "s2"%string, []. split_and!; [reflexivity|..].
    + intros k s1 r ->%list_elem_of_singleton. unfold demo_getcall. simpl. by intros [= <-].
    + intros k Hk. unfold demo_getcall. rewrite bool_decide_true by done. simpl.
      destruct k as [|[|[|[|k]]]]; try lia. eexists. split; reflexivity.
Qed.

Lemma shard_get_returns_witness :
  ∃ v c', ShardKV_Get demo_mcall 1 demo_getcall 10 6 "a" zero_config 0 0 = Returned (v, c').
Proof. exact (shard_get_returns demo_mcall 1 demo_getcall 10 4 "a" zero_config demo_shards 0 0 eq_refl demo_serving). Defined.
