(* ===== verification/ShardServers.v ===== *)
(** * The servers of the sharded services (src/mit/src/shardmaster/server.go,
    src/mit/src/shardkv/server.go)

    Both are skeletons: the handlers leave the reply as the RPC layer made it, and
    the servers are a Raft peer with some fields.  The harness of the shard master
    (src/mit/src/shardmaster/config.go) is that of KvHarness.v with this server
    ([sm_service]); its operations are named here.

    The theorems are about the shard master together with the clerks of
    ShardClerk.v: joining is acknowledged and has no effect, and a clerk of the
    key/value service never gets an answer. *)
From S2P Require Import Prelude GoRt RaftTypes Labrpc RaftNode RaftNet RaftHarness HarnessNet HarnessTheorems.
From S2P Require Import KvHarness ShardClerk.
Open Scope Z_scope.

(** ** The shard master *)

(** [Op] has no fields: commands are the unit value. *)
Record ShardMaster : Type := mkShardMaster { sm_me : Z; sm_rf : Raft (); configs : list Config }.

(** The reply the RPC layer passes to a handler. *)
Definition mreply_zero : mreply := mkMreply false EmptyString zero_config.

Definition sm_Join (servers : gmap Z (list string)) (reply : mreply) : M ShardMaster mreply := ret reply.
Definition sm_Leave (gids : list Z) (reply : mreply) : M ShardMaster mreply := ret reply.
Definition sm_Move (shard gid : Z) (reply : mreply) : M ShardMaster mreply := ret reply.
Definition sm_Query (num : Z) (reply : mreply) : M ShardMaster mreply := ret reply.

Definition sm_Kill : M ShardMaster () := λ sm,
  match Kill (sm_rf sm) with
  | Ok (_, rf) => Ok (tt, mkShardMaster (sm_me sm) rf (configs sm))
  | Panic w => Panic w
  end.

Definition sm_Raft (sm : ShardMaster) : Raft () := sm_rf sm.

(** [servers] are the ends of [n] servers. *)
Definition sm_StartServer (n me : Z) (persister : Persister ()) (rand : list Z) : res ShardMaster :=
  match Make (seqZ 0 n) me persister rand with
  | Ok rf => Ok (mkShardMaster me rf [zero_config])
  | Panic w => Panic w
  end.

(** The methods [reflect] finds on a [*ShardMaster]. *)
Definition sm_methods : list Method :=
  [mkMethod "Join" EmptyString 3 true 0; mkMethod "Kill" EmptyString 1 false 0;
   mkMethod "Leave" EmptyString 3 true 0; mkMethod "Move" EmptyString 3 true 0;
   mkMethod "Query" EmptyString 3 true 0; mkMethod "Raft" EmptyString 1 false 1].

(** What a call of a clerk runs. *)
Definition sm_serve (args : margs) : M ShardMaster mreply :=
  match args with
  | QueryArgs num => sm_Query num mreply_zero
  | JoinArgs servers => sm_Join servers mreply_zero
  | LeaveArgs gids => sm_Leave gids mreply_zero
  | MoveArgs shard gid => sm_Move shard gid mreply_zero
  end.

(** ** The harness of the shard master *)

#[global] Instance sm_service : Service () ShardMaster () :=
  mkServiceOps _ _ _ sm_rf sm_Kill (λ _, sm_StartServer) "ShardMaster" sm_methods.

Section sm_harness.
Context {V : Type}.
Abbreviation sm_config := (kvconfig (V := V) (C := ()) (Sv := ShardMaster) (Conf := ())).
Local Abbreviation SM := (M sm_config).

Definition sm_cleanup : SM () := kv_cleanup.
Definition sm_LogSize (bytes : list (gobval ()) → Z) : SM Z := LogSize bytes.
Definition sm_connectUnlocked (i : Z) (to : list Z) : SM () := connectUnlocked i to.
Definition sm_disconnectUnlocked (i : Z) (from : list Z) : SM () := disconnectUnlocked i from.
Definition sm_connect (i : Z) (to : list Z) : SM () := sm_connectUnlocked i to.
Definition sm_disconnect (i : Z) (from : list Z) : SM () := sm_disconnectUnlocked i from.
Definition sm_All (c : sm_config) : list Z := All c.
Definition sm_ConnectAll : SM () := ConnectAll.
Definition sm_partition (p1 p2 : list Z) : SM () := partition p1 p2.
Definition sm_random_handles (draw : nat → nat) (kvh : list Z) : option (list Z) := random_handles draw kvh.
Definition sm_makeClient (names : Z → string) (draw : nat → nat) (to : list Z) : SM (nat * list Z) :=
  makeClient names draw to.
Definition sm_deleteClient (ck : nat) : SM () := deleteClient ck.
Definition sm_ConnectClientUnlocked (ck : nat) (to : list Z) : SM () := ConnectClientUnlocked ck to.
Definition sm_DisconnectClientUnlocked (ck : nat) (from : list Z) : SM () := DisconnectClientUnlocked ck from.
Definition sm_ConnectClient (ck : nat) (to : list Z) : SM () := sm_ConnectClientUnlocked ck to.
Definition sm_DisconnectClient (ck : nat) (from : list Z) : SM () := sm_DisconnectClientUnlocked ck from.
Definition sm_ShutdownServer (i : Z) : SM () := ShutdownServer i.
Definition sm_start_server (names : Z → string) (rand : list Z) (i : Z) : SM () := kv_StartServer names rand i.
Definition sm_Leader : SM (bool * Z) := Leader.
Definition sm_make_partition : SM (list Z * list Z) := make_partition.
Definition sm_make_config (n : Z) (unreliable : bool) (names : Z → Z → string) (rand : Z → list Z) :
    res sm_config := kv_make_config n unreliable tt names rand.

End sm_harness.

(** ** A server of a key/value group *)

Record ShardKV : Type := mkShardKV {
  skv_me : Z; skv_rf : Raft (); skv_gid : Z; skv_masters : list string; skv_maxraftstate : Z;
}.

Definition skv_Get (key : string) (reply : kreply) : M ShardKV kreply := ret reply.
Definition skv_PutAppend (key value op : string) (reply : kreply) : M ShardKV kreply := ret reply.

Definition skv_Kill : M ShardKV () := λ kv,
  match Kill (skv_rf kv) with
  | Ok (_, rf) => Ok (tt, mkShardKV (skv_me kv) rf (skv_gid kv) (skv_masters kv) (skv_maxraftstate kv))
  | Panic w => Panic w
  end.

(** [masters] are the names of the ends to the shard masters; [make_end] is kept for later use. *)
Definition skv_StartServer (n me : Z) (persister : Persister ()) (maxraftstate gid : Z)
    (masters : list string) (rand : list Z) : res ShardKV :=
  match Make (seqZ 0 n) me persister rand with
  | Ok rf => Ok (mkShardKV me rf gid masters maxraftstate)
  | Panic w => Panic w
  end.

Definition skv_methods : list Method :=
  [mkMethod "Get" EmptyString 3 true 0; mkMethod "Kill" EmptyString 1 false 0;
   mkMethod "PutAppend" EmptyString 3 true 0].

(** ** Clerks and servers together *)

(** Masters [sms]; [up k] is whether call [k] gets through. *)
Definition stub_mcall (up : nat → bool) (sms : Z → ShardMaster) (k : nat) (m : Z) (a : margs) : option mreply :=
  if up k then match sm_serve a (sms m) with Ok (rep, _) => Some rep | Panic _ => None end else None.

Lemma stub_mcall_eq up sms k m a : stub_mcall up sms k m a = if up k then Some mreply_zero else None.
Proof. unfold stub_mcall. destruct (up k); [|done]. by destruct a. Qed.

Section stubs.
Context (up : nat → bool) (sms : Z → ShardMaster) (nmasters : Z).

Lemma stub_pass args srvs k rep k' :
  master_pass (stub_mcall up sms) args srvs k = (Some rep, k') → rep = mreply_zero.
Proof.
  revert k. induction srvs as [|s srvs IH]; intros k; simpl; [done|]. rewrite stub_mcall_eq.
  destruct (up k); [simpl; by intros [= <- _]|apply IH].
Qed.

Lemma stub_loop fuel args k rep k' :
  master_loop (stub_mcall up sms) nmasters fuel args k = Some (rep, k') → rep = mreply_zero.
Proof.
  revert k. induction fuel as [|fuel IH]; intros k; simpl; [done|].
  destruct (master_pass _ _ _ _) as [[r|] k1] eqn:Hp; [|apply IH].
  intros [= <- <-]. by eapply stub_pass.
Qed.

Lemma stub_query fuel num k c k' :
  Query (stub_mcall up sms) nmasters fuel num k = Some (c, k') → c = zero_config.
Proof.
  unfold Query. destruct (master_loop _ _ _ _ _) as [[r k1]|] eqn:Hl; [|done].
  intros [= <- _]. by rewrite (stub_loop _ _ _ _ _ Hl).
Qed.

Lemma stub_shard_loop accept kcall qfuel fuel key k km :
  shard_loop (stub_mcall up sms) nmasters accept kcall qfuel fuel key zero_config k km = Looping.
Proof.
  revert k km. induction fuel as [|fuel IH]; intros k km; [done|]. cbn [shard_loop].
  destruct (go_at_is_Some (Shards zero_config) (key2shard key)) as [gid Hg].
  { pose proof (key2shard_range key). unfold go_len, NShards in *. simpl. lia. }
  rewrite Hg. simpl (Groups zero_config !! gid). rewrite lookup_empty.
  destruct (Query _ _ _ _ _) as [[c km']|] eqn:Hq; [|done]. by rewrite (stub_query _ _ _ _ _ Hq).
Qed.

End stubs.

(** The shard master acknowledges changes it does not make, and the sharded key/value service
    never answers.  Whatever calls get through: the first call that reaches a master ends [Join]
    as if it had succeeded, every [Query] that returns gives configuration 0 without groups, and a
    clerk's [Get] on a new clerk does not return, however long it runs. *)
Theorem shard_master_ignores_joins up sms nmasters servers num getcall key fuel qfuel k km :
  1 ≤ nmasters → up k = true →
  Join (stub_mcall up sms) nmasters 1 servers k = Some (S k) ∧
  (∀ c k', Query (stub_mcall up sms) nmasters fuel num km = Some (c, k') → Num c = 0 ∧ Groups c = ∅) ∧
  ShardKV_Get (stub_mcall up sms) nmasters getcall qfuel fuel key zero_config k km = Looping.
Proof.
  intros Hn Hup. split_and!.
  - unfold Join. simpl. rewrite seqZ_cons by lia. simpl. by rewrite stub_mcall_eq, Hup.
  - intros c k' Hq. by rewrite (stub_query _ _ _ _ _ _ _ _ Hq).
  - unfold ShardKV_Get. by rewrite stub_shard_loop.
Qed.

(** Three masters on new Raft peers, every second call being lost. *)
Definition new_master (m : Z) : ShardMaster :=
  match sm_StartServer 3 m MakePersister [] with
  | Ok sm => sm
  | Panic _ => mkShardMaster m (new_Raft (seqZ 0 3) m MakePersister []) []
  end.

Lemma shard_master_ignores_joins_witness :
  Join (stub_mcall Nat.even new_master) 3 1 {[100 := ["a"]%string]} 0 = Some 1%nat ∧
  ShardKV_Get (stub_mcall Nat.even new_master) 3 (λ _ _ _, None) 5 9 "key" zero_config 0 0 = Looping.
Proof.
  destruct (shard_master_ignores_joins Nat.even new_master 3 {[100 := ["a"]%string]} 0 (λ _ _ _, None)
    "key" 9 5 0 0 ltac:(lia) eq_refl) as (H1 & _ & H3).
  split; [exact H1|exact H3].
Defined.
