(* ===== verification/ShardHarness.v ===== *)
(** * The test harness of the sharded key/value service (src/mit/src/shardkv/config.go)

    [skconfig] is the Go struct [config]: a simulated network on which the names of
    servers and ends are strings, three shard masters, and three groups of [n]
    key/value servers.  As in RaftHarness.v, drawn names and random numbers are
    arguments, and [saved[i]] is shared with a running peer.

    The theorems: server names do not collide; whatever servers a test stops and
    starts, a running server's ends lead to its group and to the masters and are
    enabled, and those of a stopped server are disabled; [make_config] indexes out
    of range with more than three servers in a group. *)
From stdpp Require Import pretty.
From S2P Require Import Prelude GoRt RaftTypes Labrpc RaftNode RaftNet RaftSpec RaftSim RaftHarness HarnessNet.
From S2P Require Import RaftSafety ShardClerk ShardServers.
Open Scope Z_scope.

Definition mastername (i : Z) : string := ("master" +:+ Itoa i)%string.
Definition servername (gid i : Z) : string := ("server-" +:+ Itoa gid +:+ "-" +:+ Itoa i)%string.

Record group : Type := mkGroup {
  gid : Z;
  g_servers : list (option ShardKV);
  g_saved : list (option (saved_obj ()));
  g_endnames : list (option (list string));
  g_mendnames : list (option (list string));
}.

Definition set_g_servers l g := mkGroup (gid g) l (g_saved g) (g_endnames g) (g_mendnames g).
Definition set_g_saved l g := mkGroup (gid g) (g_servers g) l (g_endnames g) (g_mendnames g).
Definition set_g_endnames l g := mkGroup (gid g) (g_servers g) (g_saved g) l (g_mendnames g).
Definition set_g_mendnames l g := mkGroup (gid g) (g_servers g) (g_saved g) (g_endnames g) l.

Section skharness.
Context {V : Type}.
Local Abbreviation Network := (Labrpc.Network (Name := string) (V := V) (A := ())).

Record skconfig : Type := mkSkConfig {
  sk_net : Network;
  nmasters : Z;
  masterservers : list (option ShardMaster);
  mck : list string;                     (* the ends of the harness's own clerk *)
  ngroups : Z;
  sk_n : Z;
  groups : list (option group);
  sk_clerks : gmap nat (list string);
  sk_nextClientId : Z;
  sk_maxraftstate : Z;
}.

Definition set_sk_net f c := mkSkConfig (f (sk_net c)) (nmasters c) (masterservers c) (mck c) (ngroups c)
  (sk_n c) (groups c) (sk_clerks c) (sk_nextClientId c) (sk_maxraftstate c).
Definition set_masterservers l c := mkSkConfig (sk_net c) (nmasters c) l (mck c) (ngroups c)
  (sk_n c) (groups c) (sk_clerks c) (sk_nextClientId c) (sk_maxraftstate c).
Definition set_mck l c := mkSkConfig (sk_net c) (nmasters c) (masterservers c) l (ngroups c)
  (sk_n c) (groups c) (sk_clerks c) (sk_nextClientId c) (sk_maxraftstate c).
Definition set_groups l c := mkSkConfig (sk_net c) (nmasters c) (masterservers c) (mck c) (ngroups c)
  (sk_n c) l (sk_clerks c) (sk_nextClientId c) (sk_maxraftstate c).
Definition set_sk_clerks m k c := mkSkConfig (sk_net c) (nmasters c) (masterservers c) (mck c) (ngroups c)
  (sk_n c) (groups c) m k (sk_maxraftstate c).

Local Abbreviation SK := (M skconfig).

(** [gg := cfg.groups[gi]], and its fields. *)
Definition group_at (gi : Z) : SK group :=
  c <- get ;; o <- must index_panic (go_at (groups c) gi) ;; must nil_panic o.
Definition put_group (gi : Z) (g : group) : SK () :=
  c <- get ;; l <- must index_panic (go_set (groups c) gi (Some g)) ;; modify (set_groups l).

(** [gg.f[i]] and [gg.f[i] = x] *)
Definition gat {A} (f : group → list A) (gi i : Z) : SK A :=
  g <- group_at gi ;; must index_panic (go_at (f g) i).
Definition gassign {A} (f : group → list A) (upd : list A → group → group) (gi i : Z) (x : A) : SK () :=
  g <- group_at gi ;; l <- must index_panic (go_set (f g) i x) ;; put_group gi (upd l g).

Definition sk_Enable (e : string) (b : bool) : SK () := modify (set_sk_net (Enable e b)).

(** A new end to a server, which is enabled at once. *)
Definition sk_make_end (name servername : string) : SK () :=
  c <- get ;;
  match MakeEnd name (sk_net c) with
  | Ok rn => modify (set_sk_net (λ _, Enable name true (Connect name servername rn)))
  | Panic w => panic w
  end.

(** A new server object under a name. *)
Definition sk_add_server (name : string) (sv : Server) : SK () :=
  c <- get ;;
  let sid := fresh (dom (heap (sk_net c))) in
  modify (set_sk_net (λ rn, AddServer name sid (new_server sid sv rn))).

(** ** Servers of a group *)

Definition sk_ShutdownServer (gi i : Z) : SK () :=
  gg <- group_at gi ;;
  for_range (go_range (g_servers gg)) (λ j,
    es <- gat g_endnames gi i ;;
    name <- must index_panic (go_at (default [] es) j) ;; sk_Enable name false) ;;
  ms <- gat g_mendnames gi i ;;
  for_range (default [] ms) (λ name, sk_Enable name false) ;;
  modify (set_sk_net (DeleteServer (servername (gid gg) i))) ;;
  sv <- gat g_saved gi i ;;
  kv <- gat g_servers gi i ;;
  (match sv with
   | Some o =>
       p <- must nil_panic (saved_value o (option_map skv_rf kv)) ;;
       gassign g_saved set_g_saved gi i (Some (Own (Persister_Copy p)))
   | None => ret tt
   end) ;;
  match kv with
  | Some s =>
      match skv_Kill s with
      | Ok _ => gassign g_servers set_g_servers gi i None
      | Panic w => panic w
      end
  | None => ret tt
  end.

Definition ShutdownGroup (gi : Z) : SK () :=
  c <- get ;; for_range (seqZ 0 (sk_n c)) (λ i, sk_ShutdownServer gi i).

Definition sk_cleanup : SK () :=
  c <- get ;; for_range (seqZ 0 (ngroups c)) ShutdownGroup.

(** [names j], [mnames j]: the names drawn for the ends to server [j] of the group and to master
    [j]. *)
Definition sk_StartServer (names mnames : Z → string) (rand : list Z) (gi i : Z) : SK () :=
  c <- get ;;
  gg <- group_at gi ;;
  gassign g_endnames set_g_endnames gi i (Some (map names (seqZ 0 (sk_n c)))) ;;
  for_range (seqZ 0 (sk_n c)) (λ j, sk_make_end (names j) (servername (gid gg) j)) ;;
  gassign g_mendnames set_g_mendnames gi i (Some (map mnames (seqZ 0 (nmasters c)))) ;;
  for_range (seqZ 0 (nmasters c)) (λ j, sk_make_end (mnames j) (mastername j)) ;;
  sv <- gat g_saved gi i ;;
  kv <- gat g_servers gi i ;;
  p <- (match sv with
        | Some o => p <- must nil_panic (saved_value o (option_map skv_rf kv)) ;; ret (Persister_Copy p)
        | None => ret MakePersister
        end) ;;
  match skv_StartServer (sk_n c) i p (sk_maxraftstate c) (gid gg) (map mnames (seqZ 0 (nmasters c))) rand with
  | Ok s =>
      gassign g_servers set_g_servers gi i (Some s) ;;
      gassign g_saved set_g_saved gi i (Some Shared) ;;
      sk_add_server (servername (gid gg) i)
        (AddService (MakeService "Raft" raft_methods) (AddService (MakeService "ShardKV" skv_methods) MakeServer))
  | Panic w => panic w
  end.

Definition StartGroup (names mnames : Z → Z → string) (rand : Z → list Z) (gi : Z) : SK () :=
  c <- get ;; for_range (seqZ 0 (sk_n c)) (λ i, sk_StartServer (names i) (mnames i) (rand i) gi i).

(** [check that no server's log is too big]; [bytes] is the length of the encoding of a persisted
    state. *)
Definition checklogs (bytes : list (gobval ()) → Z) : SK () :=
  c <- get ;;
  for_range (seqZ 0 (ngroups c)) (λ gi, for_range (seqZ 0 (sk_n c)) (λ i,
    sv <- gat g_saved gi i ;;
    kv <- gat g_servers gi i ;;
    p <- must nil_panic (sv ≫= λ o, saved_value o (option_map skv_rf kv)) ;;
    let raft := bytes (ReadRaftState p) in
    let snap := go_len (ReadSnapshot p) in
    (if (0 <=? sk_maxraftstate c) && (2 * sk_maxraftstate c <? raft)
     then panic "persister.RaftStateSize() too large" else ret tt) ;;
    if (sk_maxraftstate c <? 0) && (0 <? snap)
    then panic "maxraftstate is -1, but snapshot is non-empty!" else ret tt)).

(** ** Masters and clerks *)

Definition StartMasterServer (names : Z → string) (rand : list Z) (i : Z) : SK () :=
  c <- get ;;
  for_range (seqZ 0 (nmasters c)) (λ j, sk_make_end (names j) (mastername j)) ;;
  match sm_StartServer (nmasters c) i MakePersister rand with
  | Ok s =>
      l <- must index_panic (go_set (masterservers c) i (Some s)) ;;
      modify (set_masterservers l) ;;
      sk_add_server (mastername i)
        (AddService (MakeService "Raft" raft_methods) (AddService (MakeService "ShardMaster" sm_methods) MakeServer))
  | Panic w => panic w
  end.

(** The ends of the new clerk. *)
Definition shardclerk (names : Z → string) : SK (list string) :=
  c <- get ;;
  for_range (seqZ 0 (nmasters c)) (λ j, sk_make_end (names j) (mastername j)) ;;
  ret (map names (seqZ 0 (nmasters c))).

(** The loop of [makeClient]: [endnames] has one element per server of a group, not per master. *)
Fixpoint client_ends (names : Z → string) (js : list Z) (endnames : list string) : SK (list string) :=
  match js with
  | [] => ret endnames
  | j :: js' =>
      endnames' <- must index_panic (go_set endnames j (names j)) ;;
      sk_make_end (names j) (mastername j) ;;
      client_ends names js' endnames'
  end.

Definition sk_makeClient (names : Z → string) : SK nat :=
  c <- get ;;
  endnames <- client_ends names (seqZ 0 (nmasters c)) (go_make (sk_n c) EmptyString) ;;
  let ck := fresh (dom (sk_clerks c)) in
  modify (λ c, set_sk_clerks (<[ck := endnames]> (sk_clerks c)) (sk_nextClientId c + 1) c) ;;
  ret ck.

(** [make_end] as clerks and servers get it. *)
Definition sk_clerk_end (name servername : string) : SK () := sk_make_end name servername.

Definition sk_deleteClient (ck : nat) : SK () :=
  modify (λ c, set_sk_clerks (delete ck (sk_clerks c)) (sk_nextClientId c) c).

(** ** Joining and leaving *)

Fixpoint joinm_map (gis : list Z) (m : gmap Z (list string)) : SK (gmap Z (list string)) :=
  match gis with
  | [] => ret m
  | g :: gis' =>
      c <- get ;;
      gg <- group_at g ;;
      joinm_map gis' (<[gid gg := map (servername (gid gg)) (seqZ 0 (sk_n c))]> m)
  end.

Fixpoint leavem_gids (gis : list Z) (gids : list Z) : SK (list Z) :=
  match gis with
  | [] => ret gids
  | g :: gis' => gg <- group_at g ;; leavem_gids gis' (gids ++ [gid gg])
  end.

(** The calls are those of the clerk [mck] ([mcall], as in ShardClerk.v). *)
Section joins.
Context (mcall : nat → Z → margs → option mreply) (fuel k : nat).

Definition joinm (gis : list Z) : SK (option nat) :=
  m <- joinm_map gis ∅ ;; c <- get ;; ret (Join mcall (go_len (mck c)) fuel m k).
Definition join (gi : Z) : SK (option nat) := joinm [gi].
Definition leavem (gis : list Z) : SK (option nat) :=
  gids <- leavem_gids gis [] ;; c <- get ;; ret (Leave mcall (go_len (mck c)) fuel gids k).
Definition leave (gi : Z) : SK (option nat) := leavem [gi].

End joins.

(** ** [make_config] *)

(** What a drawn name is for. *)
Inductive name_use : Type :=
| UMaster (i j : Z) | UClerk (j : Z) | UServer (gi i j : Z) | UMend (gi i j : Z).

Definition sk_make_config (n : Z) (unreliable : bool) (maxraftstate : Z) (draw : name_use → string)
    (mrand : Z → list Z) (rand : Z → Z → list Z) : res skconfig :=
  let cfg := mkSkConfig (MakeNetwork tt) 3 (go_make 3 None) [] 0 0 [] ∅ 0 maxraftstate in
  match (for_range (seqZ 0 3) (λ i, StartMasterServer (λ j, draw (UMaster i j)) (mrand i) i) ;;
         ck <- shardclerk (λ j, draw (UClerk j)) ;;
         modify (set_mck ck) ;;
         modify (λ c, mkSkConfig (sk_net c) (nmasters c) (masterservers c) (mck c) 3 n (go_make 3 None)
                        (sk_clerks c) (sk_nextClientId c) (sk_maxraftstate c)) ;;
         for_range (seqZ 0 3) (λ gi,
           put_group gi (mkGroup (100 + gi) (go_make n None) (go_make n None) (go_make n None)
                           (go_make 3 None)) ;;
           for_range (seqZ 0 n) (λ i,
             sk_StartServer (λ j, draw (UServer gi i j)) (λ j, draw (UMend gi i j)) (rand gi i) gi i)) ;;
         modify (λ c, set_sk_clerks ∅ (sk_n c + 1000) c) ;;
         modify (set_sk_net (Reliable (negb unreliable)))) cfg with
  | Ok (_, c) => Ok c
  | Panic w => Panic w
  end.

End skharness.

(** ** Server names *)

Lemma servername_inj g i g' i' :
  0 ≤ g → 0 ≤ g' → servername g i = servername g' i' → g = g' ∧ i = i'.
Proof.
  unfold servername. intros ?? Heq. apply (inj (String.append _)) in Heq.
  apply digits_dash in Heq as [Hg Hi]; [|by apply Itoa_digits..]. split; by apply (inj pretty).
Qed.

Lemma mastername_inj i i' : mastername i = mastername i' → i = i'.
Proof. unfold mastername. intros Heq. apply (inj (String.append _)) in Heq. by apply (inj pretty). Qed.

Lemma servername_master g i j : servername g i ≠ mastername j.
Proof. done. Qed.

(** ** New ends *)

Section proofs.
Context {V : Type}.
Local Abbreviation skconfig := (ShardHarness.skconfig (V := V)).
Local Abbreviation Network := (Labrpc.Network (Name := string) (V := V) (A := ())).
Implicit Types (c : skconfig) (rn : Network) (g : group).

(** Ends with these names have been made, lead to these servers, and are enabled. *)
Record made (ps : list (string * string)) rn0 rn : Prop := mkMade {
  md_ends k : k ∈ ends rn ↔ k ∈ ends rn0 ∨ k ∈ map fst ps;
  md_new e s : (e, s) ∈ ps → connections rn !! e = Some (Some s) ∧ enabled rn !! e = Some true;
  md_old k : k ∉ map fst ps → connections rn !! k = connections rn0 !! k ∧ enabled rn !! k = enabled rn0 !! k;
  md_core : Labrpc.servers rn = Labrpc.servers rn0 ∧ heap rn = heap rn0;
}.

Lemma made_nil rn : made [] rn rn.
Proof. split; set_solver. Qed.

Lemma make_end_made ps c rn e s :
  made ps (sk_net c) rn → e ∉ ends (sk_net c) → e ∉ map fst ps →
  ∃ rn', sk_make_end e s (set_sk_net (λ _, rn) c) = Ok (tt, set_sk_net (λ _, rn') c) ∧
    made (ps ++ [(e, s)]) (sk_net c) rn'.
Proof.
  intros [He Hnew Hold Hcore] Hf Hd. unfold sk_make_end, bind, get, MakeEnd. simpl.
  rewrite decide_False by (rewrite He; tauto). eexists. split; [done|]. split; simpl.
  - intros k. rewrite map_app, elem_of_union, elem_of_singleton, He, elem_of_app. simpl.
    rewrite list_elem_of_singleton. tauto.
  - intros e' s' [Hin|[= -> ->]%list_elem_of_singleton]%elem_of_app; [|by rewrite !lookup_insert_eq].
    rewrite !lookup_insert_ne by (intros <-; apply Hd; by apply (list_elem_of_fmap_2 fst) in Hin). auto.
  - intros k. rewrite map_app, elem_of_app. simpl. rewrite list_elem_of_singleton. intros Hk.
    rewrite !lookup_insert_ne by (intros <-; tauto). auto.
  - done.
Qed.

Lemma make_ends_made {A} (l : list A) (f t : A → string) c rn ps :
  made ps (sk_net c) rn → NoDup (map fst ps ++ map f l) → (∀ x, x ∈ l → f x ∉ ends (sk_net c)) →
  ∃ rn', for_range l (λ x, sk_make_end (f x) (t x)) (set_sk_net (λ _, rn) c) =
      Ok (tt, set_sk_net (λ _, rn') c) ∧
    made (ps ++ map (λ x, (f x, t x)) l) (sk_net c) rn'.
Proof.
  revert rn ps. induction l as [|x l IH]; intros rn ps Hm Hnd Hf.
  { exists rn. rewrite app_nil_r. done. }
  cbn [for_range map] in *. pose proof Hnd as (_ & Hd & _)%NoDup_app.
  destruct (make_end_made ps c rn (f x) (t x) Hm) as (rn1 & H1 & Hm1); [apply Hf; left|..].
  { intros Hin. apply (Hd _ Hin). left. }
  destruct (IH rn1 (ps ++ [(f x, t x)]) Hm1) as (rn2 & H2 & Hm2).
  { rewrite map_app, <- app_assoc. exact Hnd. }
  { intros y Hy. apply Hf. by right. }
  exists rn2. rewrite <- app_assoc in Hm2. split; [|done]. unfold bind. by rewrite H1.
Qed.

(** ** The invariant *)

(** An end of a server: to a server of its group, or to a master. *)
Inductive end_use : Type := ToServer (j : Z) | ToMaster (j : Z).

Definition row (l : list (option (list string))) (i j : Z) : option string :=
  match go_at l i with Some (Some es) => go_at es j | _ => None end.
Definition name_of g (i : Z) (u : end_use) : option string :=
  match u with ToServer j => row (g_endnames g) i j | ToMaster j => row (g_mendnames g) i j end.
Definition target (g : group) (u : end_use) : string :=
  match u with ToServer j => servername (gid g) j | ToMaster j => mastername j end.
Definition running g (i : Z) : bool :=
  match go_at (g_servers g) i with Some (Some _) => true | _ => false end.
Definition registered_as rn (name : string) : bool :=
  bool_decide (is_Some (default None (Labrpc.servers rn !! name))).

(** The group of [n] servers with number [gi], in the network [rn]. *)
Record group_ok (n gi : Z) rn g : Prop := mkGroupOk {
  gk_gid : gid g = 100 + gi;
  gk_servers : go_len (g_servers g) = n;
  gk_saved : go_len (g_saved g) = n;
  gk_endnames : go_len (g_endnames g) = n;
  gk_mendnames : go_len (g_mendnames g) = 3;
  gk_row i es : go_at (g_endnames g) i = Some (Some es) → go_len es = n;
  gk_mrow i ms : go_at (g_mendnames g) i = Some (Some ms) → go_len ms = 3;
  gk_alive i s : go_at (g_servers g) i = Some (Some s) →
    stopc (skv_rf s) = false ∧ go_at (g_saved g) i = Some (Some Shared);
  gk_shared i : go_at (g_saved g) i = Some (Some Shared) → running g i = true;
  gk_link i u e : name_of g i u = Some e →
    e ∈ ends rn ∧ connections rn !! e = Some (Some (target g u)) ∧ enabled rn !! e = Some (running g i);
  gk_name i : 0 ≤ i < n → registered_as rn (servername (gid g) i) = running g i;
}.

Definition grp c (gi : Z) : option group := default None (go_at (groups c) gi).
Definition end_of c (gi i : Z) (u : end_use) : option string := grp c gi ≫= λ g, name_of g i u.

Record sk_inv (n : Z) c : Prop := mkSkInv {
  si_n : sk_n c = n;
  si_masters : nmasters c = 3;
  si_ngroups : ngroups c = 3;
  si_groups : go_len (groups c) = 3;
  si_group gi g : grp c gi = Some g → group_ok n gi (sk_net c) g;
  si_inj gi i u gi' i' u' e :
    end_of c gi i u = Some e → end_of c gi' i' u' = Some e → gi = gi' ∧ i = i' ∧ u = u';
}.

(** Group [gi] becomes [g'] when its server [i] is stopped or started. *)
Record changed (n gi i : Z) rn g rn' g' : Prop := mkChanged {
  ch_ok : group_ok n gi rn g;
  ch_range : 0 ≤ i < n;
  ch_gid : gid g' = gid g;
  ch_lens : go_len (g_servers g') = n ∧ go_len (g_saved g') = n ∧ go_len (g_endnames g') = n ∧
    go_len (g_mendnames g') = 3;
  ch_other j : j ≠ i → go_at (g_servers g') j = go_at (g_servers g) j ∧
    go_at (g_saved g') j = go_at (g_saved g) j ∧ go_at (g_endnames g') j = go_at (g_endnames g) j ∧
    go_at (g_mendnames g') j = go_at (g_mendnames g) j;
  ch_row es : go_at (g_endnames g') i = Some (Some es) → go_len es = n;
  ch_mrow ms : go_at (g_mendnames g') i = Some (Some ms) → go_len ms = 3;
  ch_alive s : go_at (g_servers g') i = Some (Some s) →
    stopc (skv_rf s) = false ∧ go_at (g_saved g') i = Some (Some Shared);
  ch_shared : go_at (g_saved g') i = Some (Some Shared) → running g' i = true;
  ch_link u e : name_of g' i u = Some e →
    e ∈ ends rn' ∧ connections rn' !! e = Some (Some (target g u)) ∧ enabled rn' !! e = Some (running g' i);
  ch_name : registered_as rn' (servername (gid g) i) = running g' i;
  ch_names s : s ≠ servername (gid g) i → Labrpc.servers rn' !! s = Labrpc.servers rn !! s;
  ch_ends e : e ∈ ends rn → e ∈ ends rn' ∧ connections rn' !! e = connections rn !! e;
  ch_enabled e : e ∈ ends rn → (∀ u, name_of g' i u ≠ Some e) → (∀ u, name_of g i u ≠ Some e) →
    enabled rn' !! e = enabled rn !! e;
  ch_fresh u e : name_of g' i u = Some e → name_of g i u = Some e ∨ e ∉ ends rn;
  ch_inj u u' e : name_of g' i u = Some e → name_of g' i u' = Some e → u = u';
}.

Lemma grp_set c gi g' gi' :
  0 ≤ gi < go_len (groups c) →
  grp (set_groups (<[Z.to_nat gi := Some g']> (groups c)) c) gi' = if decide (gi' = gi) then Some g' else grp c gi'.
Proof. intros H. unfold grp. simpl. rewrite go_at_insert by done. by case_decide. Qed.

Lemma name_of_other (n gi i j : Z) rn g rn' g' u :
  changed n gi i rn g rn' g' → j ≠ i → name_of g' j u = name_of g j u.
Proof.
  intros Ch Hj. destruct (ch_other _ _ _ _ _ _ _ Ch j Hj) as (_ & _ & He & Hm).
  unfold name_of, row. rewrite He, Hm. done.
Qed.

Lemma running_other (n gi i j : Z) rn g rn' g' :
  changed n gi i rn g rn' g' → j ≠ i → running g' j = running g j.
Proof. intros Ch Hj. unfold running. by destruct (ch_other _ _ _ _ _ _ _ Ch j Hj) as (-> & _). Qed.

(** Links and names of other servers are as before. *)
Lemma link_kept (n gi i : Z) c g rn' g' gi1 i1 u e b t :
  sk_inv n c → grp c gi = Some g → changed n gi i (sk_net c) g rn' g' →
  end_of c gi1 i1 u = Some e → (gi1 ≠ gi ∨ i1 ≠ i) →
  e ∈ ends (sk_net c) ∧ connections (sk_net c) !! e = Some (Some t) ∧ enabled (sk_net c) !! e = Some b →
  e ∈ ends rn' ∧ connections rn' !! e = Some (Some t) ∧ enabled rn' !! e = Some b.
Proof.
  intros I Hg Ch He Hne (Hin & Hc & Hen). destruct (ch_ends _ _ _ _ _ _ _ Ch e Hin) as [? ->].
  split_and!; [done..|]. assert (∀ u', name_of g i u' ≠ Some e) as Hold.
  { intros u' Hu'. destruct (si_inj _ _ I gi i u' gi1 i1 u e) as (-> & -> & _); [|done|tauto].
    unfold end_of. by rewrite Hg. }
  rewrite (ch_enabled _ _ _ _ _ _ _ Ch) by (done || (intros u' Hu';
    destruct (ch_fresh _ _ _ _ _ _ _ Ch u' e Hu') as [?|?]; [by eapply Hold|done])). done.
Qed.

Lemma name_kept (n gi i gi1 i1 : Z) rn g rn' g' g1 :
  changed n gi i rn g rn' g' → group_ok n gi1 rn g1 → 0 ≤ gi → 0 ≤ gi1 → (gi1 ≠ gi ∨ i1 ≠ i) →
  registered_as rn' (servername (gid g1) i1) = registered_as rn (servername (gid g1) i1).
Proof.
  intros Ch G1 H0 H1 Hne. unfold registered_as. rewrite (ch_names _ _ _ _ _ _ _ Ch); [done|].
  rewrite (gk_gid _ _ _ _ G1), (gk_gid _ _ _ _ (ch_ok _ _ _ _ _ _ _ Ch)).
  intros [? ?]%servername_inj; lia.
Qed.

(** The group itself. *)
Lemma group_changed (n gi i : Z) c g rn' g' :
  sk_inv n c → 0 ≤ gi → grp c gi = Some g → changed n gi i (sk_net c) g rn' g' → group_ok n gi rn' g'.
Proof.
  intros I Hgi Hg Ch. pose proof (ch_ok _ _ _ _ _ _ _ Ch) as G.
  destruct (ch_lens _ _ _ _ _ _ _ Ch) as (?&?&?&?). pose proof (ch_gid _ _ _ _ _ _ _ Ch) as Hgid.
  split; [by rewrite Hgid; apply G|done|done|done|done|..]; intros i1; destruct (decide (i1 = i)) as [->|Hi];
    try (destruct (ch_other _ _ _ _ _ _ _ Ch i1 Hi) as (Es & Ev & Ee & Em); rewrite ?Es, ?Ev, ?Ee, ?Em);
    rewrite ?(running_other _ _ _ i1 _ _ _ _ Ch) by done.
  1,3,5,7: apply Ch. 1-4: apply G.
  - intros u e Hu. unfold target. rewrite Hgid. by apply (ch_link _ _ _ _ _ _ _ Ch).
  - intros u e. rewrite (name_of_other _ _ _ i1 _ _ _ _ u Ch) by done. intros Hu.
    unfold target. rewrite Hgid. apply (link_kept n gi i c g rn' g' gi i1 u); auto.
    + unfold end_of. by rewrite Hg.
    + by apply (gk_link _ _ _ _ G).
  - intros _. rewrite Hgid. apply Ch.
  - intros Hr. rewrite Hgid, (name_kept n gi i gi i1 (sk_net c) g rn' g' g) by (done || lia || auto).
    by apply G.
Qed.

(** The other groups. *)
Lemma group_unchanged (n gi i gi1 : Z) c g rn' g' g1 :
  sk_inv n c → 0 ≤ gi → 0 ≤ gi1 → gi1 ≠ gi → grp c gi = Some g → grp c gi1 = Some g1 →
  changed n gi i (sk_net c) g rn' g' → group_ok n gi1 rn' g1.
Proof.
  intros I Hgi Hgi1 Hne Hg Hg1 Ch. pose proof (si_group _ _ I _ _ Hg1) as G1. split; try apply G1.
  - intros i1 u e Hu. apply (link_kept n gi i c g rn' g' gi1 i1 u); auto.
    + unfold end_of. by rewrite Hg1.
    + by apply (gk_link _ _ _ _ G1).
  - intros i1 Hr. rewrite (name_kept n gi i gi1 i1 (sk_net c) g rn' g' g1) by (done || lia || eauto).
    by apply G1.
Qed.

(** A name of the changed server is not that of another one. *)
Lemma names_apart (n gi i gi2 i2 : Z) c g rn' g' u u2 e :
  sk_inv n c → grp c gi = Some g → changed n gi i (sk_net c) g rn' g' →
  name_of g' i u = Some e → end_of c gi2 i2 u2 = Some e → gi2 ≠ gi ∨ i2 ≠ i → False.
Proof.
  intros I Hg Ch H1 H2 Hne. destruct (ch_fresh _ _ _ _ _ _ _ Ch _ _ H1) as [Ho|Hno].
  - destruct (si_inj _ _ I gi i u gi2 i2 u2 e) as (? & ? & _); [unfold end_of; by rewrite Hg|done|naive_solver].
  - apply Hno. unfold end_of in H2. destruct (grp c gi2) as [g2|] eqn:Hg2; [|done].
    by apply (gk_link _ _ _ _ (si_group _ _ I gi2 g2 Hg2) i2 u2).
Qed.

Lemma sk_inv_changed (n gi i : Z) c g rn' g' :
  sk_inv n c → 0 ≤ gi < 3 → grp c gi = Some g → changed n gi i (sk_net c) g rn' g' →
  sk_inv n (set_sk_net (λ _, rn') (set_groups (<[Z.to_nat gi := Some g']> (groups c)) c)).
Proof.
  intros I Hgi Hg Ch. assert (0 ≤ gi < go_len (groups c)) as Hlen by (rewrite (si_groups _ _ I); lia).
  set (c' := set_sk_net _ _).
  assert (∀ gi', grp c' gi' = if decide (gi' = gi) then Some g' else grp c gi') as Hgrp
    by (intros; by apply grp_set).
  assert (∀ gi1 i1 u e, end_of c' gi1 i1 u = Some e → (gi1 = gi ∧ i1 = i ∧ name_of g' i u = Some e) ∨
    ((gi1 ≠ gi ∨ i1 ≠ i) ∧ end_of c gi1 i1 u = Some e)) as Hend.
  { intros gi1 i1 u e. unfold end_of. rewrite Hgrp. case_decide; [subst gi1|auto].
    rewrite Hg. simpl. destruct (decide (i1 = i)) as [->|]; [auto|].
    rewrite (name_of_other _ _ _ i1 _ _ _ _ u Ch) by done. auto. }
  split; [apply I|apply I|apply I|simpl; by rewrite go_len_insert; apply I|..].
  - intros gi1 g1. rewrite Hgrp. change (sk_net c') with rn'. case_decide as Hd; intros Hg1.
    + injection Hg1 as <-. subst gi1. eapply group_changed; eauto. lia.
    + eapply (group_unchanged n gi i gi1); eauto; [lia|]. unfold grp in Hg1.
      destruct (go_at _ _) eqn:E; [|done]. apply go_at_range in E. lia.
  - intros gi1 i1 u1 gi2 i2 u2 e [(-> & -> & H1)|[Hn1 H1]]%Hend [(-> & -> & H2)|[Hn2 H2]]%Hend.
    + split_and!; [done..|]. by apply (ch_inj _ _ _ _ _ _ _ Ch u1 u2 e).
    + by destruct (names_apart n gi i gi2 i2 c g rn' g' u1 u2 e).
    + by destruct (names_apart n gi i gi1 i1 c g rn' g' u2 u1 e).
    + by eapply (si_inj _ _ I).
Qed.

(** ** Statements on groups *)

Lemma bind_ok {S A B} (m : M S A) (k : A → M S B) s a s' : m s = Ok (a, s') → bind m k s = k a s'.
Proof. intros H. unfold bind. by rewrite H. Qed.

Lemma group_at_ok c gi g : grp c gi = Some g → group_at gi c = Ok (g, c).
Proof.
  unfold grp, group_at, bind, get. destruct (go_at (groups c) gi) as [[g'|]|]; [|done..]. by intros [= ->].
Qed.

Lemma gat_ok {A} (f : group → list A) c gi i g x :
  grp c gi = Some g → go_at (f g) i = Some x → gat f gi i c = Ok (x, c).
Proof. intros Hg Hx. unfold gat. rewrite (bind_ok _ _ _ _ _ (group_at_ok c gi g Hg)). by rewrite Hx. Qed.

Lemma grp_range c gi g : grp c gi = Some g → 0 ≤ gi < go_len (groups c).
Proof. unfold grp. destruct (go_at _ _) eqn:E; [|done]. intros _. by apply go_at_range in E. Qed.

Definition with_group (gi : Z) g c : skconfig := set_groups (<[Z.to_nat gi := Some g]> (groups c)) c.

Lemma with_group_twice gi g g' c : with_group gi g' (with_group gi g c) = with_group gi g' c.
Proof. unfold with_group. simpl. by rewrite list_insert_insert_eq. Qed.

Lemma grp_with_group c gi g g' : grp c gi = Some g → grp (with_group gi g' c) gi = Some g'.
Proof. intros Hg. unfold with_group. rewrite grp_set by (by eapply grp_range). by rewrite decide_True. Qed.

Lemma gassign_ok {A} (f : group → list A) upd c gi i g x :
  grp c gi = Some g → 0 ≤ i < go_len (f g) →
  gassign f upd gi i x c = Ok (tt, with_group gi (upd (<[Z.to_nat i := x]> (f g)) g) c).
Proof.
  intros Hg Hi. unfold gassign. rewrite (bind_ok _ _ _ _ _ (group_at_ok c gi g Hg)).
  rewrite go_set_eq by done. unfold must, bind, ret, put_group, get, bind.
  rewrite go_set_eq by (by eapply grp_range). done.
Qed.

(** ** Stopping a server *)

Definition switch_off (es : list string) rn : Network := foldl (λ rn e, Enable e false rn) rn es.

Lemma switch_off_spec es rn :
  ends (switch_off es rn) = ends rn ∧ connections (switch_off es rn) = connections rn ∧
  Labrpc.servers (switch_off es rn) = Labrpc.servers rn ∧
  ∀ e, enabled (switch_off es rn) !! e = if decide (e ∈ es) then Some false else enabled rn !! e.
Proof.
  revert rn. induction es as [|e0 es IH]; intros rn; [done|].
  change (switch_off (e0 :: es) rn) with (switch_off es (Enable e0 false rn)).
  destruct (IH (Enable e0 false rn)) as (-> & -> & -> & He). split_and!; [done..|]. intros e.
  rewrite He. simpl. destruct (decide (e = e0)) as [->|].
  - rewrite lookup_insert_eq, (decide_True (P := e0 ∈ e0 :: es)) by set_solver. by case_decide.
  - rewrite lookup_insert_ne by congruence.
    destruct (decide (e ∈ es)); [by rewrite decide_True by set_solver|].
    by rewrite decide_False by set_solver.
Qed.

Lemma off_loop {A} (l : list A) (body : A → M skconfig ()) (nm : A → string) c :
  (∀ x rn, x ∈ l → body x (set_sk_net (λ _, rn) c) = Ok (tt, set_sk_net (λ _, Enable (nm x) false rn) c)) →
  ∀ rn, for_range l body (set_sk_net (λ _, rn) c) = Ok (tt, set_sk_net (λ _, switch_off (map nm l) rn) c).
Proof.
  induction l as [|x l IH]; intros Hb rn; [done|]. cbn [for_range]. rewrite (bind_ok _ _ _ _ _ (Hb x rn ltac:(left))).
  apply IH. intros y rn' ?. apply Hb. by right.
Qed.

Lemma set_net_same c : c = set_sk_net (λ _, sk_net c) c.
Proof. by destruct c. Qed.

(** The names of a row, in order. *)
Lemma row_names (es : list string) (n : Z) :
  go_len es = n → map (λ j, default EmptyString (go_at es j)) (seqZ 0 n) = es.
Proof.
  intros Hn. apply list_eq. intros x. rewrite list_lookup_fmap. unfold go_len in Hn.
  destruct (decide (x < length es)%nat) as [Hx|Hx].
  - rewrite lookup_seqZ_lt by lia. destruct (lookup_lt_is_Some_2 es x Hx) as [e He]. rewrite He.
    assert (go_at es (0 + Z.of_nat x) = Some e) as Hat.
    { apply go_at_Some. rewrite Z.add_0_l, Nat2Z.id. split; [lia|done]. }
    cbn [option_fmap option_map fmap]. by rewrite Hat.
  - rewrite lookup_seqZ_ge by lia. simpl. symmetry. apply lookup_ge_None. lia.
Qed.

(** The group after server [i] has been stopped. *)
Definition stopped g (i : Z) (p : Persister ()) : group :=
  set_g_servers (<[Z.to_nat i := None]> (g_servers g))
    (set_g_saved (<[Z.to_nat i := Some (Own p)]> (g_saved g)) g).

(** Server [i] has been started at least once. *)
Definition was_started g (i : Z) : Prop :=
  ∃ es ms o, go_at (g_endnames g) i = Some (Some es) ∧ go_at (g_mendnames g) i = Some (Some ms) ∧
    go_at (g_saved g) i = Some (Some o).

Lemma skv_Kill_ok s : stopc (skv_rf s) = false → ∃ s', skv_Kill s = Ok (tt, s').
Proof. intros Hs. unfold skv_Kill, Kill, bind, get. rewrite Hs. simpl. eauto. Qed.

Lemma ShutdownServer_runs n c gi g i :
  sk_inv n c → grp c gi = Some g → 0 ≤ i < n → was_started g i →
  ∃ es ms p, go_at (g_endnames g) i = Some (Some es) ∧ go_at (g_mendnames g) i = Some (Some ms) ∧
    sk_ShutdownServer gi i c = Ok (tt, set_sk_net
      (λ _, DeleteServer (servername (gid g) i) (switch_off ms (switch_off es (sk_net c))))
      (with_group gi (stopped g i p) c)).
Proof.
  intros I Hg Hi (es & ms & o & Hes & Hms & Ho). pose proof (si_group _ _ I _ _ Hg) as G. exists es, ms.
  pose proof (gk_row _ _ _ _ G _ _ Hes) as Hlen. unfold sk_ShutdownServer.
  destruct (go_at_is_Some (g_servers g) i) as [kv Hkv]; [rewrite (gk_servers _ _ _ _ G); lia|].
  assert (∃ p, saved_value o (option_map skv_rf kv) = Some p) as [p Hp].
  { destruct o; simpl; [|eauto]. apply (gk_shared _ _ _ _ G) in Ho. unfold running in Ho. rewrite Hkv in Ho.
    destruct kv; [simpl; eauto|done]. }
  exists (Persister_Copy p). split_and!; [done..|].
  rewrite (bind_ok _ _ _ _ _ (group_at_ok c gi g Hg)).
  assert (∀ rn, for_range (go_range (g_servers g)) (λ j, es0 <- gat g_endnames gi i ;;
      name <- must index_panic (go_at (default [] es0) j) ;; sk_Enable name false) (set_sk_net (λ _, rn) c) =
    Ok (tt, set_sk_net (λ _, switch_off es rn) c)) as Hloop1.
  { intros rn. unfold go_range. rewrite (gk_servers _ _ _ _ G).
    etrans; [apply (off_loop _ _ (λ j, default EmptyString (go_at es j)))|by rewrite row_names]. intros j rn' Hj%elem_of_seqZ. erewrite bind_ok by (eapply gat_ok; [exact Hg|exact Hes]).
    simpl. destruct (go_at_is_Some es j) as [e He]; [lia|]. rewrite He. done. }
  rewrite (set_net_same c) at 1. rewrite (bind_ok _ _ _ _ _ (Hloop1 _)).
  erewrite bind_ok by (eapply gat_ok; [exact Hg|exact Hms]). simpl (default [] (Some ms)).
  assert (∀ rn, for_range ms (λ name, sk_Enable name false) (set_sk_net (λ _, rn) c) =
    Ok (tt, set_sk_net (λ _, switch_off ms rn) c)) as Hloop2.
  { intros rn. etrans; [by apply (off_loop ms _ (λ e, e))|]. by rewrite map_id. }
  rewrite (bind_ok _ _ _ _ _ (Hloop2 _)). rewrite (bind_ok _ _ _ _ _ eq_refl).
  erewrite bind_ok by (eapply gat_ok; [exact Hg|exact Ho]).
  erewrite bind_ok by (eapply gat_ok; [exact Hg|exact Hkv]). rewrite Hp. cbn [must].
  assert (∀ rn, bind (ret p) (λ p0, gassign g_saved set_g_saved gi i (Some (Own (Persister_Copy p0))))
    (set_sk_net (λ _, rn) c) = Ok (tt, set_sk_net (λ _, rn) (with_group gi
      (set_g_saved (<[Z.to_nat i := Some (Own (Persister_Copy p))]> (g_saved g)) g) c))) as Hsave.
  { intros rn. rewrite (bind_ok _ _ _ _ _ eq_refl). erewrite gassign_ok; [done|exact Hg|].
    rewrite (gk_saved _ _ _ _ G). lia. }
  erewrite bind_ok by apply Hsave. set (g1 := set_g_saved _ g).
  destruct kv as [s|].
  - destruct (gk_alive _ _ _ _ G _ _ Hkv) as [Hstop _]. destruct (skv_Kill_ok s Hstop) as [s' ->].
    erewrite gassign_ok; [|by eapply grp_with_group|].
    + do 2 f_equal. change (with_group gi ?g2 (set_sk_net ?f (with_group gi g1 c))) with
        (set_sk_net f (with_group gi g2 (with_group gi g1 c))). by rewrite with_group_twice.
    + simpl. rewrite (gk_servers _ _ _ _ G). lia.
  - unfold stopped. simpl. fold g1. rewrite go_insert_same by done. done.
Qed.

Lemma row_Some l i j e : row l i j = Some e ↔ ∃ es, go_at l i = Some (Some es) ∧ go_at es j = Some e.
Proof. unfold row. split; [destruct (go_at l i) as [[es|]|]; [eauto|done..]|]. by intros (es & -> & ?). Qed.

Lemma go_at_elem {A} (l : list A) j x : go_at l j = Some x → x ∈ l.
Proof. intros [_ H]%go_at_Some. by eapply list_elem_of_lookup_2. Qed.

Lemma stopped_changed n c gi g i es ms p :
  sk_inv n c → grp c gi = Some g → 0 ≤ i < n →
  go_at (g_endnames g) i = Some (Some es) → go_at (g_mendnames g) i = Some (Some ms) →
  changed n gi i (sk_net c) g
    (DeleteServer (servername (gid g) i) (switch_off ms (switch_off es (sk_net c)))) (stopped g i p).
Proof.
  intros I Hg Hi Hes Hms. pose proof (si_group _ _ I _ _ Hg) as G.
  destruct (switch_off_spec es (sk_net c)) as (E1 & C1 & S1 & N1).
  destruct (switch_off_spec ms (switch_off es (sk_net c))) as (E2 & C2 & S2 & N2).
  assert (0 ≤ i < go_len (g_servers g)) as His by (rewrite (gk_servers _ _ _ _ G); lia).
  assert (0 ≤ i < go_len (g_saved g)) as Hiv by (rewrite (gk_saved _ _ _ _ G); lia).
  assert (go_at (g_servers (stopped g i p)) i = Some None) as Hoff
    by (simpl; by rewrite go_at_insert, decide_True).
  assert (running (stopped g i p) i = false) as Hrun by (unfold running; by rewrite Hoff).
  assert (∀ u e, name_of g i u = Some e → e ∈ es ∨ e ∈ ms) as Hnames.
  { intros [j|j] e (x & Hx & Hj)%row_Some; simplify_eq; apply go_at_elem in Hj; auto. }
  split; try done.
  - simpl. rewrite !go_len_insert. split_and!; apply G.
  - intros j Hj. simpl. by rewrite !go_at_insert, !decide_False by done.
  - apply G.
  - apply G.
  - rewrite Hoff. done.
  - simpl. rewrite go_at_insert, decide_True by done. done.
  - intros u e Hu. destruct (gk_link _ _ _ _ G i u e Hu) as (? & ? & _). simpl. rewrite E2, E1, C2, C1.
    split_and!; [done..|]. rewrite N2, N1, Hrun. destruct (Hnames u e Hu); repeat case_decide; done.
  - rewrite Hrun. unfold registered_as. simpl. by rewrite lookup_insert_eq.
  - intros x Hx. simpl. by rewrite lookup_insert_ne, S2, S1.
  - intros e He. simpl. by rewrite E2, E1, C2, C1.
  - intros e He Hno _. simpl. rewrite N2, N1.
    assert (e ∉ ms) as ?.
    { intros Hin. apply list_elem_of_lookup_1 in Hin as [x Hx]. apply (Hno (ToMaster (Z.of_nat x))), row_Some.
      exists ms. split; [done|]. apply go_at_Some. rewrite Nat2Z.id. split; [lia|done]. }
    assert (e ∉ es) as ?.
    { intros Hin. apply list_elem_of_lookup_1 in Hin as [x Hx]. apply (Hno (ToServer (Z.of_nat x))), row_Some.
      exists es. split; [done|]. apply go_at_Some. rewrite Nat2Z.id. split; [lia|done]. }
    by rewrite !decide_False.
  - intros u e Hu. by left.
  - intros u u' e Hu Hu'. destruct (si_inj _ _ I gi i u gi i u' e) as (_ & _ & ?); [..|done];
      unfold end_of; by rewrite Hg.
Qed.

(** ** Starting a server *)

Definition uses (n : Z) : list end_use := map ToServer (seqZ 0 n) ++ map ToMaster (seqZ 0 3).

Definition fresh_draw (n : Z) c (draw : end_use → string) : Prop :=
  NoDup (map draw (uses n)) ∧ ∀ u, u ∈ uses n → draw u ∉ ends (sk_net c).

(** The group after server [i] has been started. *)
Definition restarted (n : Z) (draw : end_use → string) g (i : Z) (s : ShardKV) : group :=
  mkGroup (gid g) (<[Z.to_nat i := Some s]> (g_servers g)) (<[Z.to_nat i := Some Shared]> (g_saved g))
    (<[Z.to_nat i := Some (map (λ j, draw (ToServer j)) (seqZ 0 n))]> (g_endnames g))
    (<[Z.to_nat i := Some (map (λ j, draw (ToMaster j)) (seqZ 0 3))]> (g_mendnames g)).

Lemma saved_copy_ok n gi rn c g i (o : option (saved_obj ())) kv :
  group_ok n gi rn g → go_at (g_saved g) i = Some o → go_at (g_servers g) i = Some kv →
  ∃ p, (match o with
        | Some o => p <- must nil_panic (saved_value o (option_map skv_rf kv)) ;; ret (Persister_Copy p)
        | None => ret MakePersister
        end) c = Ok (p, c).
Proof.
  intros G Ho Hkv. destruct o as [o|]; [|eauto].
  assert (∃ p, saved_value o (option_map skv_rf kv) = Some p) as [p ->]; [|eexists; done].
  destruct o; simpl; [|eauto]. apply (gk_shared _ _ _ _ G) in Ho. unfold running in Ho. rewrite Hkv in Ho.
  destruct kv; [simpl; eauto|done].
Qed.

Lemma StartServer_runs n c gi g i draw rand :
  sk_inv n c → grp c gi = Some g → 0 ≤ i < n → i < 3 → fresh_draw n c draw →
  ∃ rn sid sv s, made (map (λ u, (draw u, target g u)) (uses n)) (sk_net c) rn ∧
    stopc (skv_rf s) = false ∧
    sk_StartServer (λ j, draw (ToServer j)) (λ j, draw (ToMaster j)) rand gi i c = Ok (tt, set_sk_net
      (λ _, AddServer (servername (gid g) i) sid (new_server sid sv rn))
      (with_group gi (restarted n draw g i s) c)).
Proof.
  intros I Hg Hi Hi3 [Hnd Hf]. pose proof (si_group _ _ I _ _ Hg) as G. unfold uses in *. rewrite !map_app in Hnd.
  set (es := map (λ j, draw (ToServer j)) (seqZ 0 n)). set (ms := map (λ j, draw (ToMaster j)) (seqZ 0 3)).
  set (g1 := set_g_endnames (<[Z.to_nat i := Some es]> (g_endnames g)) g).
  set (g2 := set_g_mendnames (<[Z.to_nat i := Some ms]> (g_mendnames g1)) g1).
  destruct (make_ends_made (seqZ 0 n) (λ j, draw (ToServer j)) (λ j, servername (gid g) j) (with_group gi g1 c) (sk_net c) []
    (made_nil _)) as (rn1 & H1 & M1).
  { apply NoDup_app in Hnd as (Hn & _). by rewrite map_map in Hn. }
  { intros j Hj. apply Hf, elem_of_app. left. by apply list_elem_of_fmap_2. }
  destruct (make_ends_made (seqZ 0 3) (λ j, draw (ToMaster j)) mastername (with_group gi g2 c) rn1 _ M1) as (rn2 & H2 & M2).
  { rewrite app_nil_l, map_map. rewrite !map_map in Hnd. exact Hnd. }
  { intros j Hj. apply Hf, elem_of_app. right. by apply list_elem_of_fmap_2. }
  exists rn2, (fresh (dom (heap rn2))), (AddService (MakeService "Raft" raft_methods)
    (AddService (MakeService "ShardKV" skv_methods) MakeServer)).
  destruct (go_at_is_Some (g_saved g) i) as [o Ho]; [rewrite (gk_saved _ _ _ _ G); lia|].
  destruct (go_at_is_Some (g_servers g) i) as [kv Hkv]; [rewrite (gk_servers _ _ _ _ G); lia|].
  destruct (saved_copy_ok n gi _ (set_sk_net (λ _, rn2) (with_group gi g2 c)) g i o kv G Ho Hkv) as [p Hp].
  destruct (Make_spec (seqZ 0 n) i p rand) as (rf & HM & _). exists (mkShardKV i rf (gid g) ms (sk_maxraftstate c)).
  split_and!; [by rewrite map_app, !map_map|simpl; by apply Make_identity in HM; injection HM|].
  unfold sk_StartServer. rewrite (bind_ok _ _ _ _ _ eq_refl), (bind_ok _ _ _ _ _ (group_at_ok c gi g Hg)).
  rewrite (si_n _ _ I), (si_masters _ _ I).
  erewrite bind_ok by (apply gassign_ok; [exact Hg|rewrite (gk_endnames _ _ _ _ G); lia]). fold es g1.
  rewrite (set_net_same (with_group gi g1 c)) at 1. rewrite (bind_ok _ _ _ _ _ H1).
  assert (grp (set_sk_net (λ _, rn1) (with_group gi g1 c)) gi = Some g1) as Hg1 by (by eapply grp_with_group).
  erewrite bind_ok by (apply gassign_ok; [exact Hg1|simpl; rewrite (gk_mendnames _ _ _ _ G); lia]). fold ms g2.
  change (with_group gi g2 (set_sk_net (λ _, rn1) (with_group gi g1 c))) with
    (set_sk_net (λ _, rn1) (with_group gi g2 (with_group gi g1 c))). rewrite with_group_twice.
  rewrite (bind_ok _ _ _ _ _ H2). set (c2 := set_sk_net (λ _, rn2) (with_group gi g2 c)) in *.
  assert (grp c2 gi = Some g2) as Hg2 by (by eapply grp_with_group).
  rewrite (bind_ok _ _ _ _ _ (gat_ok g_saved c2 gi i g2 o Hg2 Ho)).
  rewrite (bind_ok _ _ _ _ _ (gat_ok g_servers c2 gi i g2 kv Hg2 Hkv)).
  rewrite (bind_ok _ _ _ _ _ Hp). unfold skv_StartServer. rewrite HM. fold ms. set (s := mkShardKV _ _ _ _ _).
  erewrite bind_ok by (apply gassign_ok; [exact Hg2|simpl; rewrite (gk_servers _ _ _ _ G); lia]).
  set (g3 := set_g_servers _ g2).
  assert (grp (with_group gi g3 c2) gi = Some g3) as Hg3 by (by eapply grp_with_group).
  erewrite bind_ok by (apply gassign_ok; [exact Hg3|simpl; rewrite (gk_saved _ _ _ _ G); lia]).
  rewrite with_group_twice. unfold sk_add_server, bind, get, modify.
  unfold c2. change (with_group gi ?g4 (set_sk_net (λ _, rn2) (with_group gi g2 c))) with
    (set_sk_net (λ _, rn2) (with_group gi g4 (with_group gi g2 c))). rewrite with_group_twice. done.
Qed.

Lemma uses_spec n u : u ∈ uses n ↔ match u with ToServer j => 0 ≤ j < n | ToMaster j => 0 ≤ j < 3 end.
Proof.
  unfold uses. rewrite elem_of_app, !list_elem_of_fmap. destruct u as [j|j]; split.
  - intros [(x & [= ->] & Hx%elem_of_seqZ)|(x & [=] & _)]. lia.
  - intros Hj. left. exists j. rewrite elem_of_seqZ. split; [done|lia].
  - intros [(x & [=] & _)|(x & [= ->] & Hx%elem_of_seqZ)]. lia.
  - intros Hj. right. exists j. rewrite elem_of_seqZ. split; [done|lia].
Qed.

Lemma go_at_map_seqZ {A} (f : Z → A) m j x :
  go_at (map f (seqZ 0 m)) j = Some x ↔ 0 ≤ j < m ∧ x = f j.
Proof.
  rewrite go_at_Some, list_lookup_fmap. split.
  - intros [Hj H]. destruct (decide (j < m)).
    + rewrite lookup_seqZ_lt in H by lia. simpl in H. injection H as <-. split; [lia|]. f_equal. lia.
    + by rewrite lookup_seqZ_ge in H by lia.
  - intros [Hj ->]. rewrite lookup_seqZ_lt by lia. simpl. split; [lia|]. do 2 f_equal. lia.
Qed.

(** The names of a server that has just been started. *)
Lemma restarted_name n gi rn draw g i s u e :
  group_ok n gi rn g → 0 ≤ i < n → i < 3 →
  name_of (restarted n draw g i s) i u = Some e ↔ u ∈ uses n ∧ e = draw u.
Proof.
  intros G Hi Hi3. rewrite uses_spec. destruct u as [j|j]; unfold name_of, row; simpl.
  - rewrite go_at_insert, decide_True by (done || rewrite (gk_endnames _ _ _ _ G); lia).
    apply (go_at_map_seqZ (λ j, draw (ToServer j))).
  - rewrite go_at_insert, decide_True by (done || rewrite (gk_mendnames _ _ _ _ G); lia).
    apply (go_at_map_seqZ (λ j, draw (ToMaster j)) 3).
Qed.

Lemma NoDup_map_inj {A B} (f : A → B) l x y : NoDup (map f l) → x ∈ l → y ∈ l → f x = f y → x = y.
Proof.
  intros Hnd [a Ha]%list_elem_of_lookup_1 [b Hb]%list_elem_of_lookup_1 Heq.
  assert (a = b) as ->; [|congruence].
  apply (NoDup_lookup (map f l) a b (f x)); [done|..]; rewrite list_lookup_fmap; [by rewrite Ha|by rewrite Hb, Heq].
Qed.

Lemma restarted_changed n c gi g i draw rn sid sv s :
  sk_inv n c → grp c gi = Some g → 0 ≤ i < n → i < 3 → fresh_draw n c draw →
  made (map (λ u, (draw u, target g u)) (uses n)) (sk_net c) rn → stopc (skv_rf s) = false →
  changed n gi i (sk_net c) g (AddServer (servername (gid g) i) sid (new_server sid sv rn))
    (restarted n draw g i s).
Proof.
  intros I Hg Hi Hi3 [Hnd Hf] [He Hnew Hold (Hs & _)] Hstop. pose proof (si_group _ _ I _ _ Hg) as G.
  assert (0 ≤ i < go_len (g_servers g)) as His by (rewrite (gk_servers _ _ _ _ G); lia).
  assert (0 ≤ i < go_len (g_saved g)) as Hiv by (rewrite (gk_saved _ _ _ _ G); lia).
  assert (0 ≤ i < go_len (g_endnames g)) as Hie by (rewrite (gk_endnames _ _ _ _ G); lia).
  assert (0 ≤ i < go_len (g_mendnames g)) as Him by (rewrite (gk_mendnames _ _ _ _ G); lia).
  pose proof (λ u e, restarted_name n gi (sk_net c) draw g i s u e G Hi Hi3) as Hname.
  assert (map fst (map (λ u, (draw u, target g u)) (uses n)) = map draw (uses n)) as Hfst by (by rewrite map_map).
  assert (running (restarted n draw g i s) i = true) as Hrun.
  { unfold running. simpl. by rewrite go_at_insert, decide_True. }
  split; try done.
  - simpl. rewrite !go_len_insert. split_and!; apply G.
  - intros j Hj. simpl. by rewrite !go_at_insert, !decide_False by done.
  - intros es. simpl. rewrite go_at_insert, decide_True by done. intros [= <-].
    unfold go_len. rewrite length_fmap, length_seqZ. lia.
  - intros ms. simpl. rewrite go_at_insert, decide_True by done. by intros [= <-].
  - intros s'. simpl. rewrite !go_at_insert, !decide_True by done. by intros [= <-].
  - intros u e [Hu ->]%Hname. rewrite Hrun. destruct (Hnew (draw u) (target g u)) as [? ?].
    { by apply (list_elem_of_fmap_2 (λ u, (draw u, target g u))). }
    simpl. split_and!; [|done..]. rewrite He, Hfst. right. by apply list_elem_of_fmap_2.
  - rewrite Hrun. unfold registered_as. simpl. by rewrite lookup_insert_eq.
  - intros x Hx. simpl. by rewrite lookup_insert_ne, Hs.
  - intros e Hin. simpl. rewrite He. split; [by left|]. apply Hold. rewrite Hfst.
    intros (u & -> & Hu)%list_elem_of_fmap. by apply (Hf u).
  - intros e Hin _ _. simpl. apply Hold. rewrite Hfst. intros (u & -> & Hu)%list_elem_of_fmap. by apply (Hf u).
  - intros u e [Hu ->]%Hname. right. by apply Hf.
  - intros u u' e [Hu ->]%Hname [Hu' Heq]%Hname. by apply (NoDup_map_inj draw (uses n)).
Qed.

(** ** What a test does *)

Inductive sk_step (n : Z) c c' : Prop :=
| SkStop gi i : 0 ≤ gi < 3 → 0 ≤ i < n → sk_ShutdownServer gi i c = Ok (tt, c') → sk_step n c c'
| SkStart gi i draw rand : 0 ≤ gi < 3 → 0 ≤ i < n → fresh_draw n c draw →
    sk_StartServer (λ j, draw (ToServer j)) (λ j, draw (ToMaster j)) rand gi i c = Ok (tt, c') → sk_step n c c'
| SkEnd e s : sk_make_end e s c = Ok (tt, c') → sk_step n c c'
| SkNet rn : ends rn = ends (sk_net c) → connections rn = connections (sk_net c) →
    enabled rn = enabled (sk_net c) → Labrpc.servers rn = Labrpc.servers (sk_net c) →
    c' = set_sk_net (λ _, rn) c → sk_step n c c'.

(** The invariant, every server having been started. *)
Definition all_started (n : Z) c : Prop :=
  sk_inv n c ∧ ∀ gi, 0 ≤ gi < 3 → ∃ g, grp c gi = Some g ∧ ∀ i, 0 ≤ i < n → was_started g i.

(** More ends, and nothing else. *)
Lemma sk_inv_net n c rn :
  sk_inv n c → (∀ e, e ∈ ends (sk_net c) → e ∈ ends rn ∧
    connections rn !! e = connections (sk_net c) !! e ∧ enabled rn !! e = enabled (sk_net c) !! e) →
  Labrpc.servers rn = Labrpc.servers (sk_net c) → sk_inv n (set_sk_net (λ _, rn) c).
Proof.
  intros I He Hs. split; try apply I. intros gi g Hg. pose proof (si_group _ _ I gi g Hg) as G.
  split; try apply G.
  - intros i u e Hu. destruct (gk_link _ _ _ _ G i u e Hu) as (Hin & Hc & Hen).
    cbn [sk_net set_sk_net]. destruct (He e Hin) as (? & -> & ->). done.
  - intros i Hi. unfold registered_as. simpl. rewrite Hs. by apply G.
Qed.

Lemma was_started_other n gi i rn g rn' g' j :
  changed n gi i rn g rn' g' → j ≠ i → was_started g j → was_started g' j.
Proof.
  intros Ch Hj (es & ms & o & He & Hm & Ho). destruct (ch_other _ _ _ _ _ _ _ Ch j Hj) as (_ & Ev & Ee & Em).
  exists es, ms, o. by rewrite Ev, Ee, Em.
Qed.

Lemma was_started_stopped n gi rn g i p :
  group_ok n gi rn g → 0 ≤ i < n → was_started g i → was_started (stopped g i p) i.
Proof.
  intros G Hi (es & ms & o & He & Hm & _). exists es, ms, (Own p). split_and!; [done..|]. simpl.
  rewrite go_at_insert, decide_True by (done || rewrite (gk_saved _ _ _ _ G); lia). done.
Qed.

Lemma was_started_restarted n gi rn draw g i s :
  group_ok n gi rn g → 0 ≤ i < n → i < 3 → was_started (restarted n draw g i s) i.
Proof.
  intros G Hi Hi3. eexists _, _, Shared. simpl. rewrite !go_at_insert, !decide_True
    by (done || rewrite ?(gk_saved _ _ _ _ G), ?(gk_endnames _ _ _ _ G), ?(gk_mendnames _ _ _ _ G); lia). done.
Qed.

(** After a change to server [i] of group [gi], if that is started. *)
Lemma all_started_changed n gi i c g rn' g' :
  all_started n c → 0 ≤ gi < 3 → grp c gi = Some g → changed n gi i (sk_net c) g rn' g' → was_started g' i →
  all_started n (set_sk_net (λ _, rn') (with_group gi g' c)).
Proof.
  intros [I Hall] Hgi Hg Ch Hw. split; [by eapply sk_inv_changed|]. intros gi1 Hgi1.
  destruct (Hall gi1 Hgi1) as (g1 & Hg1 & Hst).
  assert (grp (set_sk_net (λ _, rn') (with_group gi g' c)) gi1 = if decide (gi1 = gi) then Some g' else grp c gi1)
    as -> by (apply grp_set; rewrite (si_groups _ _ I); lia).
  case_decide; [|eauto]. subst gi1. rewrite Hg in Hg1. injection Hg1 as <-. exists g'. split; [done|].
  intros j Hj. destruct (decide (j = i)) as [->|]; [done|]. eapply was_started_other; eauto.
Qed.

Lemma stop_step n c gi i :
  all_started n c → 0 ≤ gi < 3 → 0 ≤ i < n →
  ∃ c' g', sk_ShutdownServer gi i c = Ok (tt, c') ∧ all_started n c' ∧ grp c' gi = Some g' ∧ running g' i = false.
Proof.
  intros [I Hall] Hgi Hi. destruct (Hall gi Hgi) as (g & Hg & Hst).
  destruct (ShutdownServer_runs n c gi g i I Hg Hi (Hst i Hi)) as (es & ms & p & Hes & Hms & Hrun).
  eexists _, (stopped g i p). split_and!; [exact Hrun| | |].
  - eapply all_started_changed; [done|done|done|by apply stopped_changed|].
    eapply was_started_stopped; [by apply (si_group _ _ I)|done|by apply Hst].
  - by eapply grp_with_group.
  - unfold running. simpl. rewrite go_at_insert, decide_True; [done|done|].
    rewrite (gk_servers _ _ _ _ (si_group _ _ I _ _ Hg)). lia.
Qed.

Lemma start_step n c gi i draw rand :
  all_started n c → n ≤ 3 → 0 ≤ gi < 3 → 0 ≤ i < n → fresh_draw n c draw →
  ∃ c' g', sk_StartServer (λ j, draw (ToServer j)) (λ j, draw (ToMaster j)) rand gi i c = Ok (tt, c') ∧
    all_started n c' ∧ grp c' gi = Some g' ∧ running g' i = true.
Proof.
  intros [I Hall] Hn Hgi Hi Hf. destruct (Hall gi Hgi) as (g & Hg & Hst).
  destruct (StartServer_runs n c gi g i draw rand I Hg Hi ltac:(lia) Hf) as (rn & sid & sv & s & Hm & Hs & Hrun).
  pose proof (si_group _ _ I _ _ Hg) as G.
  eexists _, (restarted n draw g i s). split_and!; [exact Hrun| | |].
  - eapply all_started_changed; [done|done|done|apply restarted_changed; [done..|lia|done|done|done]|].
    eapply was_started_restarted; [done|done|lia].
  - by eapply grp_with_group.
  - unfold running. simpl. rewrite go_at_insert, decide_True; [done|done|].
    rewrite (gk_servers _ _ _ _ G). lia.
Qed.

Lemma make_end_ok e s c c' :
  sk_make_end e s c = Ok (tt, c') → ∃ rn, c' = set_sk_net (λ _, rn) c ∧ made [(e, s)] (sk_net c) rn ∧ e ∉ ends (sk_net c).
Proof.
  intros H. assert (e ∉ ends (sk_net c)) as Hf.
  { intros Hin. unfold sk_make_end, bind, get, MakeEnd in H. by rewrite decide_True in H. }
  destruct (make_end_made [] c (sk_net c) e s (made_nil _) Hf) as (rn & H' & Hm); [by apply not_elem_of_nil|].
  rewrite <- set_net_same, H in H'. injection H' as ->. eauto.
Qed.

Lemma sk_step_started n c c' : n ≤ 3 → sk_step n c c' → all_started n c → all_started n c'.
Proof.
  intros Hn [gi i Hgi Hi H|gi i draw rand Hgi Hi Hf H|e s H|rn He Hc Hen Hs ->] A.
  - destruct (stop_step n c gi i A Hgi Hi) as (c1 & g1 & H1 & A1 & _). rewrite H in H1. by injection H1 as <-.
  - destruct (start_step n c gi i draw rand A Hn Hgi Hi Hf) as (c1 & g1 & H1 & A1 & _).
    rewrite H in H1. by injection H1 as <-.
  - apply make_end_ok in H as (rn & -> & [Hends Hnew Hold (Hs & _)] & Hf). destruct A as [I Hall].
    split; [|done]. apply sk_inv_net; [done| |done]. intros k Hk. rewrite Hends. split; [by left|].
    apply Hold. intros Hin%list_elem_of_singleton. simpl in Hin. by subst k.
  - destruct A as [I Hall]. split; [|done]. apply sk_inv_net; [done| |done]. intros k. by rewrite He, Hc, Hen.
Qed.

(** ** [make_config] *)

(** Server [i] runs. *)
Definition is_up g (i : Z) : Prop := was_started g i ∧ running g i = true.

Lemma is_up_other n gi i rn g rn' g' j : changed n gi i rn g rn' g' → j ≠ i → is_up g j → is_up g' j.
Proof.
  intros Ch Hj [Hw Hr]. split; [by eapply was_started_other|]. by rewrite (running_other _ _ _ j _ _ _ _ Ch).
Qed.

Lemma is_up_restarted n gi rn draw g i s :
  group_ok n gi rn g → 0 ≤ i < n → i < 3 → is_up (restarted n draw g i s) i.
Proof.
  intros G Hi Hi3. split; [by eapply was_started_restarted|]. unfold running. simpl.
  by rewrite go_at_insert, decide_True by (done || rewrite (gk_servers _ _ _ _ G); lia).
Qed.

Section make.
Context (n : Z) (Hn : 0 ≤ n ≤ 3) (draw : name_use → string) (Hdraw : ∀ x y, draw x = draw y → x = y).
Context (mrand : Z → list Z) (rand : Z → Z → list Z).

(** The first [k] masters have been started. *)
Record masters_up (k : Z) c : Prop := mkMastersUp {
  mu_masters : nmasters c = 3;
  mu_len : go_len (masterservers c) = 3;
  mu_fresh x : match x with UMaster i _ => k ≤ i | _ => True end → draw x ∉ ends (sk_net c);
  mu_names (gid i : Z) : Labrpc.servers (sk_net c) !! servername gid i = None;
}.

(** Three ends to the masters. *)
Lemma three_ends (f : Z → string) c :
  (∀ j j', f j = f j' → j = j') → (∀ j, f j ∉ ends (sk_net c)) →
  ∃ rn, for_range (seqZ 0 3) (λ j, sk_make_end (f j) (mastername j)) c = Ok (tt, set_sk_net (λ _, rn) c) ∧
    made (map (λ j, (f j, mastername j)) (seqZ 0 3)) (sk_net c) rn.
Proof.
  intros Hinj Hf. destruct (make_ends_made (seqZ 0 3) f mastername c (sk_net c) [] (made_nil _)) as (rn & H & Hm).
  { simpl (map fst []). rewrite app_nil_l. apply NoDup_fmap_2; [|apply NoDup_seqZ]. intros j j'. apply Hinj. }
  { auto. }
  exists rn. rewrite <- set_net_same in H. done.
Qed.

Lemma masters_up_next k c :
  masters_up k c → 0 ≤ k < 3 →
  wp (λ _, False) (StartMasterServer (λ j, draw (UMaster k j)) (mrand k) k) (λ _, masters_up (k + 1)) c.
Proof.
  intros [Hm Hl Hf Hnm] Hk. destruct (three_ends (λ j, draw (UMaster k j)) c) as (rn & Hrun & [He _ _ (Hs & _)]).
  { intros j j' Heq%Hdraw. by injection Heq. }
  { intros j. by apply (Hf (UMaster k j)). }
  unfold StartMasterServer, wp. rewrite (bind_ok _ _ _ _ _ eq_refl), Hm, (bind_ok _ _ _ _ _ Hrun).
  unfold sm_StartServer. destruct (Make_spec (seqZ 0 3) k (MakePersister (C := ())) (mrand k)) as (rf & -> & _).
  rewrite go_set_eq by lia. rewrite (bind_ok _ _ _ _ _ eq_refl), (bind_ok _ _ _ _ _ eq_refl).
  unfold sk_add_server. rewrite (bind_ok _ _ _ _ _ eq_refl). unfold modify. split; simpl; [done|..].
  - by rewrite go_len_insert.
  - intros x Hx. rewrite He, map_map. intros [Hin|(j & Heq%Hdraw & _)%list_elem_of_fmap].
    + apply (Hf x); [|done]. destruct x; try done. lia.
    + subst x. lia.
  - intros g i. rewrite lookup_insert_ne by (intros Heq; by apply (servername_master g i k)). by rewrite Hs.
Qed.

(** The first [k] servers of group [gi] have been started, and all of those before. *)
Record starting_group (gi k : Z) c : Prop := mkStartingGroup {
  sg_inv : sk_inv n c;
  sg_before gi' : 0 ≤ gi' < gi → ∃ g, grp c gi' = Some g ∧ ∀ i, 0 ≤ i < n → is_up g i;
  sg_now : ∃ g, grp c gi = Some g ∧ ∀ i, 0 ≤ i < k → is_up g i;
  sg_fresh gi' i u : gi < gi' ∨ (gi' = gi ∧ k ≤ i) →
    draw (match u with ToServer j => UServer gi' i j | ToMaster j => UMend gi' i j end) ∉ ends (sk_net c);
  sg_names gi' i : 0 ≤ gi → gi < gi' → Labrpc.servers (sk_net c) !! servername (100 + gi') i = None;
}.

(** The groups before [gi] are complete. *)
Record groups_up (gi : Z) c : Prop := mkGroupsUp {
  gu_inv : sk_inv n c;
  gu_before gi' : 0 ≤ gi' < gi → ∃ g, grp c gi' = Some g ∧ ∀ i, 0 ≤ i < n → is_up g i;
  gu_fresh gi' i u : gi ≤ gi' →
    draw (match u with ToServer j => UServer gi' i j | ToMaster j => UMend gi' i j end) ∉ ends (sk_net c);
  gu_names gi' i : gi ≤ gi' → Labrpc.servers (sk_net c) !! servername (100 + gi') i = None;
}.

Definition new_group (gi : Z) : group :=
  mkGroup (100 + gi) (go_make n None) (go_make n None) (go_make n None) (go_make 3 None).

Lemma new_group_ok gi rn :
  (∀ i, Labrpc.servers rn !! servername (100 + gi) i = None) → group_ok n gi rn (new_group gi).
Proof.
  intros Hs. assert (∀ i, running (new_group gi) i = false) as Hr.
  { intros i. unfold running. simpl. rewrite go_at_make by lia. by case_decide. }
  split; simpl; rewrite ?go_len_make by lia; try done; intros i; rewrite ?Hr, ?go_at_make by lia;
    try (intros ?; by case_decide); try (by case_decide).
  - intros u e Hu. exfalso. destruct u as [j|j]; apply row_Some in Hu as (es & Hes & _); simpl in Hes;
      rewrite go_at_make in Hes by lia; by case_decide.
  - intros _. unfold registered_as. by rewrite Hs.
Qed.

Lemma new_group_names gi i u : name_of (new_group gi) i u = None.
Proof.
  destruct (name_of (new_group gi) i u) as [e|] eqn:Hu; [|done]. exfalso.
  destruct u as [j|j]; apply row_Some in Hu as (es & Hes & _); simpl in Hes;
    rewrite go_at_make in Hes by lia; by case_decide.
Qed.

Lemma put_new_group gi c :
  groups_up gi c → 0 ≤ gi < 3 →
  ∃ c', put_group gi (new_group gi) c = Ok (tt, c') ∧ starting_group gi 0 c'.
Proof.
  intros [I Hb Hf Hs] Hgi. pose proof (si_groups _ _ I) as Hlen. unfold put_group.
  rewrite (bind_ok _ _ _ _ _ eq_refl), go_set_eq by lia. eexists. split; [done|].
  set (c' := set_groups _ c). pose proof (grp_set c gi (new_group gi)) as Hgrp. fold c' in Hgrp.
  assert (∀ gi' i u e, end_of c' gi' i u = Some e → gi' ≠ gi ∧ end_of c gi' i u = Some e) as Hend.
  { intros gi' i u e. unfold end_of. rewrite Hgrp by lia. case_decide; [|done]. simpl.
    by rewrite new_group_names. }
  split; [split|..]; try apply I.
  - simpl. by rewrite go_len_insert.
  - intros gi' g. rewrite Hgrp by lia. case_decide; [|apply I]. intros [= <-]. subst gi'.
    apply new_group_ok. intros i. apply Hs. lia.
  - intros gi1 i1 u1 gi2 i2 u2 e [_ H1]%Hend [_ H2]%Hend. by eapply (si_inj _ _ I).
  - intros gi' Hgi'. rewrite Hgrp by lia. rewrite decide_False by lia. by apply Hb.
  - exists (new_group gi). rewrite Hgrp, decide_True by (done || lia). split; [done|]. intros i Hi. lia.
  - intros gi' i u Hor. apply Hf. lia.
  - intros gi' i _ Hlt. apply Hs. lia.
Qed.

(** The names drawn for server [i] of group [gi]. *)
Definition server_draw (gi i : Z) (u : end_use) : string :=
  draw (match u with ToServer j => UServer gi i j | ToMaster j => UMend gi i j end).

Lemma server_draw_inj gi i u gi' i' u' :
  server_draw gi i u = server_draw gi' i' u' → gi = gi' ∧ i = i' ∧ u = u'.
Proof. unfold server_draw. intros Heq%Hdraw. destruct u, u'; by simplify_eq. Qed.

Lemma starting_group_next gi k c :
  0 ≤ gi < 3 → starting_group gi k c → 0 ≤ k < n →
  wp (λ _, False) (sk_StartServer (λ j, draw (UServer gi k j)) (λ j, draw (UMend gi k j)) (rand gi k) gi k)
    (λ _, starting_group gi (k + 1)) c.
Proof.
  intros Hgi [I Hb (g & Hg & Hst) Hf Hs] Hk.
  assert (fresh_draw n c (server_draw gi k)) as Hfd.
  { split; [|intros u _; apply Hf; lia]. apply NoDup_fmap_2.
    - intros u u' Heq. by apply server_draw_inj in Heq as (_ & _ & ?).
    - unfold uses. apply NoDup_app. split_and!; [apply NoDup_fmap_2; [by intros ?? [=]|apply NoDup_seqZ]| |
        apply NoDup_fmap_2; [by intros ?? [=]|apply NoDup_seqZ]].
      intros u (j & -> & _)%list_elem_of_fmap (j' & [=] & _)%list_elem_of_fmap. }
  destruct (StartServer_runs n c gi g k (server_draw gi k) (rand gi k) I Hg Hk ltac:(lia) Hfd)
    as (rn & sid & sv & s & Hm & Hstop & Hrun). pose proof (si_group _ _ I _ _ Hg) as G.
  unfold wp. change (sk_StartServer _ _ _ _ _ c) with
    (sk_StartServer (λ j, server_draw gi k (ToServer j)) (λ j, server_draw gi k (ToMaster j)) (rand gi k) gi k c).
  rewrite Hrun. pose proof (restarted_changed n c gi g k _ rn sid sv s I Hg Hk ltac:(lia) Hfd Hm Hstop) as Ch.
  set (g' := restarted _ _ _ _ _) in *. set (c' := set_sk_net _ _).
  assert (∀ gi', grp c' gi' = if decide (gi' = gi) then Some g' else grp c gi') as Hgrp
    by (intros; apply grp_set; rewrite (si_groups _ _ I); lia).
  split.
  - by eapply sk_inv_changed.
  - intros gi' Hgi'. rewrite Hgrp, decide_False by lia. by apply Hb.
  - exists g'. rewrite Hgrp, decide_True by done. split; [done|]. intros i Hi.
    destruct (decide (i = k)) as [->|]; [by eapply is_up_restarted; [done|done|lia]|].
    eapply is_up_other; [done|done|apply Hst; lia].
  - intros gi' i u Hor. simpl. rewrite (md_ends _ _ _ Hm), map_map. intros [Hin|Hin].
    + eapply Hf, Hin. lia.
    + apply list_elem_of_fmap in Hin as (u' & Heq & _). apply (server_draw_inj gi' i u gi k u') in Heq. lia.
  - intros gi' i H0 Hlt. simpl. destruct (md_core _ _ _ Hm) as [-> _].
    rewrite lookup_insert_ne; [by apply Hs|]. rewrite (gk_gid _ _ _ _ G). intros [? _]%servername_inj; lia.
Qed.

Lemma groups_up_next gi c :
  groups_up gi c → 0 ≤ gi < 3 →
  wp (λ _, False) (put_group gi (new_group gi) ;; for_range (seqZ 0 n) (λ i,
    sk_StartServer (λ j, draw (UServer gi i j)) (λ j, draw (UMend gi i j)) (rand gi i) gi i))
    (λ _, groups_up (gi + 1)) c.
Proof.
  intros Hu Hgi. destruct (put_new_group gi c Hu Hgi) as (c1 & H1 & S1). apply wp_bind. unfold wp at 1. rewrite H1.
  eapply wp_mono; [apply (wp_for_seqZ n _ (starting_group gi)); [lia|done|intros k s' Hs Hk; by apply starting_group_next]|].
  intros _ c2 [I Hb (g & Hg & Hst) Hf Hs]. split; [done|..].
  - intros gi' Hgi'. destruct (decide (gi' = gi)) as [->|]; [eauto|apply Hb; lia].
  - intros gi' i u Hle. apply Hf. lia.
  - intros gi' i Hle. apply Hs; lia.
Qed.

Lemma groups_up_0 c :
  nmasters c = 3 → ngroups c = 3 → sk_n c = n → groups c = go_make 3 None →
  (∀ x, match x with UMaster _ _ | UClerk _ => True | _ => draw x ∉ ends (sk_net c) end) →
  (∀ gid i, Labrpc.servers (sk_net c) !! servername gid i = None) → groups_up 0 c.
Proof.
  intros Hm Hng Hsn Hg Hf Hs. assert (∀ gi, grp c gi = None) as Hnone.
  { intros gi. unfold grp. rewrite Hg, go_at_make by lia. by case_decide. }
  split; [split; try done|..].
  - by rewrite Hg.
  - intros gi g. by rewrite Hnone.
  - intros gi i u gi' i' u' e. unfold end_of. by rewrite Hnone.
  - intros gi' ?. lia.
  - intros gi' i [j|j] _; [apply (Hf (UServer gi' i j))|apply (Hf (UMend gi' i j))].
  - intros gi' i _. apply Hs.
Qed.

Lemma make_config_started unreliable maxraftstate :
  ∃ c, sk_make_config n unreliable maxraftstate draw mrand rand = Ok c ∧ all_started n c ∧
    ∀ gi, 0 ≤ gi < 3 → ∃ g, grp c gi = Some g ∧ ∀ i, 0 ≤ i < n → running g i = true.
Proof.
  unfold sk_make_config. set (c0 := mkSkConfig _ _ _ _ _ _ _ _ _ _).
  assert (masters_up 0 c0) as M0 by (split; [done|done|set_solver|done]).
  destruct (wp_total _ _ _ (wp_for_seqZ 3 _ masters_up c0 ltac:(lia) M0 masters_up_next)) as ([] & c1 & H1 & [Hm _ Hf Hs]).
  destruct (three_ends (λ j, draw (UClerk j)) c1) as (rn & H2 & [He _ _ (Hs2 & _)]).
  { intros j j' Heq%Hdraw. by injection Heq. }
  { intros j. by apply (Hf (UClerk j)). }
  assert (shardclerk (λ j, draw (UClerk j)) c1 =
    Ok (map (λ j, draw (UClerk j)) (seqZ 0 3), set_sk_net (λ _, rn) c1)) as H2'.
  { unfold shardclerk. by rewrite (bind_ok _ _ _ _ _ eq_refl), Hm, (bind_ok _ _ _ _ _ H2). }
  rewrite (bind_ok _ _ _ _ _ H1), (bind_ok _ _ _ _ _ H2').
  rewrite (bind_ok _ _ _ _ _ eq_refl), (bind_ok _ _ _ _ _ eq_refl). set (c2 := mkSkConfig _ _ _ _ _ _ _ _ _ _).
  assert (groups_up 0 c2) as G0.
  { apply groups_up_0; try done.
    - intros x. destruct x as [| |gi i j|gi i j]; try done; simpl; rewrite He, map_map;
        (intros [Hin|(j' & Heq%Hdraw & _)%list_elem_of_fmap]; [by eapply Hf, Hin|done]).
    - intros gid i. simpl. rewrite Hs2. apply Hs. }
  destruct (wp_total _ _ _ (wp_for_seqZ 3 _ groups_up c2 ltac:(lia) G0 groups_up_next)) as ([] & c3 & H3 & [I Hb _ _]).
  unfold new_group in H3. rewrite (bind_ok _ _ _ _ _ H3), (bind_ok _ _ _ _ _ eq_refl).
  eexists. split; [done|]. split; [split|].
  - apply (sk_inv_net n (set_sk_clerks ∅ (sk_n c3 + 1000) c3)); [|done|done]. destruct I. by split.
  - intros gi Hgi. destruct (Hb gi Hgi) as (g & Hg & Hup). exists g. split; [exact Hg|]. intros i Hi. by apply Hup.
  - intros gi Hgi. destruct (Hb gi Hgi) as (g & Hg & Hup). exists g. split; [exact Hg|]. intros i Hi. by apply Hup.
Qed.

End make.

(** ** Theorems *)

(** C24: The groups of the sharded service are wired as the tests need it.  With at most three servers
    per group [make_config] succeeds and every server runs; whatever servers are then stopped and
    started, and whatever ends are made for clerks, the ends of a server lead to the servers of
    its group and to the masters, they are enabled exactly while the server runs, and its name is
    registered exactly then; stopping and starting a server does not panic. *)
Theorem group_links n unreliable maxraftstate draw mrand rand :
  0 ≤ n ≤ 3 → (∀ x y, draw x = draw y → x = y) →
  ∃ c0, sk_make_config n unreliable maxraftstate draw mrand rand = Ok c0 ∧
    (∀ gi, 0 ≤ gi < 3 → ∃ g, grp c0 gi = Some g ∧ ∀ i, 0 ≤ i < n → running g i = true) ∧
    ∀ c, rtc (sk_step n) c0 c → ∀ gi i, 0 ≤ gi < 3 → 0 ≤ i < n →
      (∃ g, grp c gi = Some g ∧ registered_as (sk_net c) (servername (100 + gi) i) = running g i ∧
         ∀ u, u ∈ uses n → ∃ e, name_of g i u = Some e ∧
           connections (sk_net c) !! e = Some (Some (target g u)) ∧
           enabled (sk_net c) !! e = Some (running g i)) ∧
      (∃ c', sk_ShutdownServer gi i c = Ok (tt, c')) ∧
      (∀ d r, fresh_draw n c d → ∃ c', sk_StartServer (λ j, d (ToServer j)) (λ j, d (ToMaster j)) r gi i c = Ok (tt, c')).
Proof.
  intros Hn Hd. destruct (make_config_started n Hn draw Hd mrand rand unreliable maxraftstate) as (c0 & Hmk & A0 & Hup).
  exists c0. split_and!; [done..|]. intros c Hr gi i Hgi Hi.
  assert (all_started n c) as A.
  { eapply (rtc_keeps (sk_step n) (all_started n)); [|exact Hr|done]. intros x y. apply sk_step_started. lia. }
  pose proof A as [I Hall]. destruct (Hall gi Hgi) as (g & Hg & Hst). pose proof (si_group _ _ I _ _ Hg) as G.
  split_and!.
  - exists g. split; [done|]. split; [rewrite <- (gk_gid _ _ _ _ G); by apply G|]. intros u Hu.
    destruct (Hst i Hi) as (es & ms & o & He & Hm & _).
    assert (∃ e, name_of g i u = Some e) as [e Hne].
    { apply uses_spec in Hu. unfold name_of, row. destruct u as [j|j]; rewrite ?He, ?Hm; apply go_at_is_Some;
        [rewrite (gk_row _ _ _ _ G _ _ He)|rewrite (gk_mrow _ _ _ _ G _ _ Hm)]; done. }
    exists e. split; [done|]. by apply (gk_link _ _ _ _ G i u e Hne).
  - destruct (stop_step n c gi i A Hgi Hi) as (c' & _ & H & _). eauto.
  - intros d r Hf. destruct (start_step n c gi i d r A ltac:(lia) Hgi Hi Hf) as (c' & _ & H & _). eauto.
Qed.

End proofs.

(** ** Names for examples *)

Definition name_code (x : name_use) : Z * Z * Z * Z :=
  match x with
  | UMaster i j => (0, i, j, 0) | UClerk j => (1, j, 0, 0)
  | UServer gi i j => (2, gi, i, j) | UMend gi i j => (3, gi, i, j)
  end.
Definition some_draw (x : name_use) : string := pretty (N.pos (encode (name_code x))).

Lemma some_draw_inj x y : some_draw x = some_draw y → x = y.
Proof.
  unfold some_draw. intros Heq%(inj pretty). injection Heq as Heq. apply (inj encode) in Heq.
  destruct x, y; simpl in Heq; congruence.
Qed.

Lemma group_links_witness :
  ∃ c0 c1 : skconfig (V := ()), sk_make_config 3 false (-1) some_draw (λ _, []) (λ _ _, []) = Ok c0 ∧
    sk_ShutdownServer 1 2 c0 = Ok (tt, c1).
Proof.
  destruct (group_links (V := ()) 3 false (-1) some_draw (λ _, []) (λ _ _, []) ltac:(lia) some_draw_inj)
    as (c0 & H0 & _ & H1).
  destruct (H1 c0 (rtc_refl _ _) 1 2 ltac:(lia) ltac:(lia)) as (_ & (c1 & H2) & _).
  exists c0, c1. split; [exact H0|exact H2].
Defined.

(** *** The defects *)

(** [gg.mendnames] has one element per master and is indexed by server, so a fourth server of a
    group cannot be started. *)
Lemma four_servers_panic :
  sk_make_config (V := ()) 4 false (-1) some_draw (λ _, []) (λ _ _, []) = Panic index_panic.
Proof. vm_compute. reflexivity. Qed.

(** [makeClient] keeps the names of its ends to the masters in a slice with one element per server. *)
Lemma two_servers_no_client :
  match sk_make_config (V := ()) 2 false (-1) some_draw (λ _, []) (λ _ _, []) with
  | Ok c => sk_makeClient (λ j, some_draw (UClerk (10 + j))) c = Panic index_panic
  | Panic _ => False
  end.
Proof. vm_compute. reflexivity. Qed.
