(* ===== verification/RpcServers.v ===== *)
(** * The servers on sockets

    The viewservice, primary/backup, Paxos, key/value, shard master, shard and
    disk servers that listen on a socket (src/mit/src/viewservice, pbservice,
    paxos, kvpaxos, paxos-shardmaster, paxos-shardkv, diskv).  Their request
    handlers are empty; what they do is to accept connections: each runs the
    same loop, which may drop a request or its reply for the tests, next to the
    goroutines that kill the server, change its flags and tick.

    [SockServer] is what the loop uses of a server, [SockLaws] what it relies on;
    each server is an instance.  [sock_exec] interleaves the loop, the kills and
    the clients statement by statement, and the theorems hold for every instance:
    [sock_server_safe] and [killed_server_stops]. *)
From S2P Require Import Prelude GoRt ShardClerk.
Open Scope Z_scope.

(** A [net.Listener]: [None] is nil, [Some true] is open. *)
Abbreviation listener := (option bool).

Definition nil_listener : string := "nil pointer dereference".
Definition listen_error : string := "listen error".
Definition index_out_of_range : string := "index out of range".

(** [os.Remove(name)] and [net.Listen("unix", name)], where [listen name] tells whether the
    latter succeeds; its failure is fatal. *)
Definition Listen (listen : string → bool) (name : string) : res listener :=
  if listen name then Ok (Some true) else Panic listen_error.

(** [l.Close()] *)
Definition Close_l (l : listener) : res listener :=
  match l with None => Panic nil_listener | Some _ => Ok (Some false) end.

(** [atomic.StoreInt32] of a flag and the test of it. *)
Definition flag (b : bool) : Z := if b then 1 else 0.
Definition is_set (z : Z) : bool := negb (z =? 0).

(** ** What the accept loop uses of a server *)

Class SockServer (T : Type) : Type := {
  sock_l : T → listener;
  isdead : T → bool;
  (** [isunreliable] and [setunreliable]; a server without the flag is never unreliable. *)
  isunreliable : T → bool;
  setunreliable : option (bool → T → T);
  (** [atomic.AddInt32] of the counter of requests, and the counter *)
  add_count : T → T;
  rpc_count : T → option Z;
  (** the statements of [kill], each of them atomic *)
  kill : list (M T ());
  (** whether the loop kills the server when [Accept] fails *)
  kill_on_error : bool;
  (** the body of the loop that ticks *)
  tick : option (T → T);
}.

(** What became of a connection: closed for the test, closed because the server is dead, or
    served by a goroutine of [net/rpc], with or without its reply. *)
Inductive fate : Type := Discarded | Refused | Served (replied : bool).

#[export] Instance fate_eq_dec : EqDecision fate.
Proof. solve_decision. Defined.

(** Where the loop is: at its test, in [Accept], at the second test of [dead], at the two tests
    of [unreliable], before [ServeConn], after an error, in a [kill], or past the loop. *)
Inductive loop_pc (T : Type) : Type :=
| AtTest | InAccept | Accepted (c : nat) | Flip1 (c : nat) | Flip2 (c : nat)
| ToServe (c : nat) (replied : bool) | Failed | InKill (todo : list (M T ())) | Stopped.
Arguments AtTest {T}.
Arguments InAccept {T}.
Arguments Accepted {T} c.
Arguments Flip1 {T} c.
Arguments Flip2 {T} c.
Arguments ToServe {T} c replied.
Arguments Failed {T}.
Arguments InKill {T} todo.
Arguments Stopped {T}.

(** The server with its goroutines.  Connections are numbered in the order of the dials;
    [backlog] are those the listener holds.  [reported] counts the accept errors the loop prints
    and [failures] those of an open listener. *)
Record sproc (T : Type) : Type := mkSproc {
  srv : T; pc : loop_pc T; killers : list (list (M T ())); ticking : bool;
  dialled : nat; backlog : list nat; fates : list (nat * fate); reported : nat; failures : nat;
}.
Arguments mkSproc {T} _ _ _ _ _ _ _ _ _.
Arguments srv {T} _.
Arguments pc {T} _.
Arguments killers {T} _.
Arguments ticking {T} _.
Arguments dialled {T} _.
Arguments backlog {T} _.
Arguments fates {T} _.
Arguments reported {T} _.
Arguments failures {T} _.

Section loop.
Context {T : Type} `{SockServer T}.

Definition set_srv (s : T) (p : sproc T) :=
  mkSproc s (pc p) (killers p) (ticking p) (dialled p) (backlog p) (fates p) (reported p) (failures p).
Definition set_pc (k : loop_pc T) (p : sproc T) :=
  mkSproc (srv p) k (killers p) (ticking p) (dialled p) (backlog p) (fates p) (reported p) (failures p).
Definition set_killers (ks : list (list (M T ()))) (p : sproc T) :=
  mkSproc (srv p) (pc p) ks (ticking p) (dialled p) (backlog p) (fates p) (reported p) (failures p).
Definition set_ticking (b : bool) (p : sproc T) :=
  mkSproc (srv p) (pc p) (killers p) b (dialled p) (backlog p) (fates p) (reported p) (failures p).
Definition set_backlog (n : nat) (l : list nat) (p : sproc T) :=
  mkSproc (srv p) (pc p) (killers p) (ticking p) n l (fates p) (reported p) (failures p).
Definition set_fate (c : nat) (f : fate) (p : sproc T) :=
  mkSproc (srv p) (pc p) (killers p) (ticking p) (dialled p) (backlog p) (fates p ++ [(c, f)])
    (reported p) (failures p).
Definition add_reported (n m : nat) (p : sproc T) :=
  mkSproc (srv p) (pc p) (killers p) (ticking p) (dialled p) (backlog p) (fates p)
    (reported p + n) (failures p + m).

(** A client dials; [Accept] returns a connection or an error; the loop takes its next step, [r]
    being what [rand.Int63()] returns there; a goroutine calls [kill], and the [k]-th such call
    takes its next step; a test sets [unreliable]; the ticker makes a round. *)
Inductive sock_event : Type :=
| Dial | AcceptConn | AcceptError | LoopStep (r : Z) | CallKill | KillStep (k : nat)
| SetUnreliable (b : bool) | TickRound.

(** One statement of a [kill]. *)
Definition kill_stmt (m : M T ()) (p : sproc T) (k : sproc T → sproc T) : option (res (sproc T)) :=
  match m (srv p) with Ok (_, s) => Some (Ok (k (set_srv s p))) | Panic w => Some (Panic w) end.

Definition loop_step (r : Z) (p : sproc T) : option (res (sproc T)) :=
  match pc p with
  | AtTest => Some (Ok (set_pc (if isdead (srv p) then Stopped else InAccept) p))
  | Accepted c =>
      Some (Ok (if isdead (srv p) then set_pc AtTest (set_fate c Refused p) else set_pc (Flip1 c) p))
  | Flip1 c =>
      Some (Ok (if isunreliable (srv p) && (r mod 1000 <? 100)
                then set_pc AtTest (set_fate c Discarded p) else set_pc (Flip2 c) p))
  | Flip2 c =>
      Some (Ok (set_pc (ToServe c (negb (isunreliable (srv p) && (r mod 1000 <? 200)))) p))
  | ToServe c replied =>
      Some (Ok (set_pc AtTest (set_fate c (Served replied) (set_srv (add_count (srv p)) p))))
  | Failed =>
      Some (Ok (if isdead (srv p) then set_pc AtTest p
                else add_reported 1 0 (set_pc (if kill_on_error then InKill kill else AtTest) p)))
  | InKill [] => Some (Ok (set_pc AtTest p))
  | InKill (m :: todo) => kill_stmt m p (set_pc (InKill todo))
  | InAccept | Stopped => None
  end.

Definition sock_exec (e : sock_event) (p : sproc T) : option (res (sproc T)) :=
  match e with
  | Dial =>
      if bool_decide (sock_l (srv p) = Some true)
      then Some (Ok (set_backlog (S (dialled p)) (backlog p ++ [dialled p]) p)) else None
  | AcceptConn =>
      match pc p, backlog p with
      | InAccept, c :: b =>
          if bool_decide (sock_l (srv p) = Some true)
          then Some (Ok (set_pc (Accepted c) (set_backlog (dialled p) b p))) else None
      | _, _ => None
      end
  | AcceptError =>
      match pc p with
      | InAccept =>
          let n := if bool_decide (sock_l (srv p) = Some true) then 1%nat else 0%nat in
          Some (Ok (add_reported 0 n (set_pc Failed p)))
      | _ => None
      end
  | LoopStep r => loop_step r p
  | CallKill => Some (Ok (set_killers (killers p ++ [kill]) p))
  | KillStep k =>
      match killers p !! k with
      | Some (m :: todo) => kill_stmt m p (set_killers (<[k := todo]> (killers p)))
      | _ => None
      end
  | SetUnreliable b =>
      match setunreliable with Some f => Some (Ok (set_srv (f b (srv p)) p)) | None => None end
  | TickRound =>
      match tick with
      | Some f =>
          if ticking p
          then Some (Ok (if isdead (srv p) then set_ticking false p else set_srv (f (srv p)) p)) else None
      | None => None
      end
  end.

Fixpoint sock_run (es : list sock_event) (p : sproc T) : option (res (sproc T)) :=
  match es with
  | [] => Some (Ok p)
  | e :: es' => match sock_exec e p with Some (Ok p') => sock_run es' p' | o => o end
  end.

(** The goroutines as [StartServer] leaves them. *)
Definition sock_start (s : T) : sproc T := mkSproc s AtTest [] true 0 [] [] 0 0.

End loop.

(** ** What the loop relies on *)

Section laws.
Context {T : Type} `{SockServer T}.

(** A statement that changes nothing the loop reads, the listener apart, which it may close. *)
Definition quiet (m : M T ()) : Prop := ∀ s, is_Some (sock_l s) →
  ∃ s', m s = Ok (tt, s') ∧ isdead s' = isdead s ∧ isunreliable s' = isunreliable s ∧
    rpc_count s' = rpc_count s ∧ (sock_l s' = sock_l s ∨ sock_l s' = Some false).

Definition closes (m : M T ()) : Prop := ∀ s s', is_Some (sock_l s) → m s = Ok (tt, s') → sock_l s' = Some false.

(** The statement that marks the server dead. *)
Definition marks (m : M T ()) : Prop := ∀ s, ∃ s', m s = Ok (tt, s') ∧ isdead s' = true ∧
  isunreliable s' = isunreliable s ∧ rpc_count s' = rpc_count s ∧ sock_l s' = sock_l s.

End laws.

(** [kill] marks the server dead before it closes the listener; the flags and the counter are
    independent. *)
Class SockLaws (T : Type) `{SockServer T} : Prop := {
  law_kill : ∃ mark rest, kill = mark :: rest ∧ marks mark ∧ Forall quiet rest ∧ Exists closes rest;
  law_count s : isdead (add_count s) = isdead s ∧ isunreliable (add_count s) = isunreliable s ∧
    sock_l (add_count s) = sock_l s ∧ rpc_count (add_count s) = (λ n, wrap32 (n + 1)) <$> rpc_count s;
  law_unreliable f b s : setunreliable = Some f → isdead (f b s) = isdead s ∧ isunreliable (f b s) = b ∧
    sock_l (f b s) = sock_l s ∧ rpc_count (f b s) = rpc_count s;
  law_tick f s : tick = Some f → isdead (f s) = isdead s ∧ isunreliable (f s) = isunreliable s ∧
    sock_l (f s) = sock_l s ∧ rpc_count (f s) = rpc_count s;
}.

Lemma wrap32_succ z : wrap32 (wrap32 z + 1) = wrap32 (z + 1).
Proof.
  unfold wrap32. f_equal.
  replace ((z + 2 ^ 31) mod 2 ^ 32 - 2 ^ 31 + 1 + 2 ^ 31) with ((z + 2 ^ 31) mod 2 ^ 32 + 1) by lia.
  rewrite Zplus_mod_idemp_l. f_equal. lia.
Qed.

(** ** The invariant of the loop *)

Definition is_served (f : fate) : bool := match f with Served _ => true | _ => false end.
Definition served (l : list (nat * fate)) : nat := length (filter (λ q, is_served q.2) l).

Lemma served_app l c f : served (l ++ [(c, f)]) = (served l + if is_served f then 1 else 0)%nat.
Proof.
  unfold served. rewrite filter_app, length_app. f_equal. unfold filter. simpl.
  by destruct (is_served f).
Qed.

(** The connection the loop works on. *)
Definition in_hand {T} (k : loop_pc T) : option nat :=
  match k with Accepted c | Flip1 c | Flip2 c | ToServe c _ => Some c | _ => None end.

(** The [kill] calls under way. *)
Definition kills {T} (p : sproc T) : list (list (M T ())) :=
  match pc p with InKill todo => [todo] | _ => [] end ++ killers p.

Section invariant.
Context {T : Type} `{SockLaws T}.
Implicit Types (p : sproc T) (s : T).

(** A [kill] that has not begun, or that has marked the server. *)
Definition kill_ok s (todo : list (M T ())) : Prop := todo = kill ∨ (isdead s = true ∧ Forall quiet todo).

Record sock_inv (n0 : option Z) p : Prop := mkSockInv {
  si_open : is_Some (sock_l (srv p));
  si_closed : sock_l (srv p) = Some false → isdead (srv p) = true;
  si_kills : Forall (kill_ok (srv p)) (kills p);
  si_closing : isdead (srv p) = true → sock_l (srv p) = Some false ∨ Exists (Exists closes) (kills p);
  si_conns : NoDup ((fates p).*1 ++ option_list (in_hand (pc p)) ++ backlog p);
  si_dialled : Forall (λ c, c < dialled p)%nat ((fates p).*1 ++ option_list (in_hand (pc p)) ++ backlog p);
  si_refused c : (c, Refused) ∈ fates p → isdead (srv p) = true;
  si_reports : (reported p + (match pc p with Failed => if isdead (srv p) then 0 else 1 | _ => 0 end) ≤ failures p)%nat;
  si_count : rpc_count (srv p) = (λ n, wrap32 (n + Z.of_nat (served (fates p)))) <$> n0;
}.

(** A change of the server that the loop does not see. *)
Lemma inv_srv n0 p s : sock_inv n0 p → (isdead s, sock_l s, rpc_count s) =
  (isdead (srv p), sock_l (srv p), rpc_count (srv p)) → sock_inv n0 (set_srv s p).
Proof.
  intros I Hs. injection Hs as Hd Hl Hc. destruct I.
  split; unfold kill_ok in *; simpl; rewrite ?Hd, ?Hl, ?Hc; try done.
Qed.

Lemma kill_ok_dead s s' l : isdead s' = true → Forall (kill_ok s) l → Forall (kill_ok s') l.
Proof. intros Hd HF. eapply Forall_impl; [exact HF|]. intros todo [->|[_ ?]]; [by left|by right]. Qed.

(** What a statement of a [kill] does. *)
Lemma kill_stmt_ok n0 p m todo l1 l2 :
  sock_inv n0 p → kills p = l1 ++ (m :: todo) :: l2 →
  ∃ s, m (srv p) = Ok (tt, s) ∧ isdead s = true ∧ isunreliable s = isunreliable (srv p) ∧
    rpc_count s = rpc_count (srv p) ∧ (sock_l s = sock_l (srv p) ∨ sock_l s = Some false) ∧
    Forall quiet todo ∧ (sock_l s = Some false ∨ Exists (Exists closes) (l1 ++ todo :: l2)).
Proof.
  intros I Hk. pose proof (si_kills _ _ I) as Hok. rewrite Hk in Hok.
  apply Forall_app in Hok as [_ Hok]. apply Forall_cons in Hok as [[Hall|[Hd Hq]] _].
  - destruct law_kill as (mark & rest & E & Hm & Hq & Hc). rewrite E in Hall. injection Hall as -> ->.
    destruct (Hm (srv p)) as (s' & ? & ? & ? & ? & ?). exists s'. split_and!; auto.
    right. apply Exists_app. right. by left.
  - apply Forall_cons in Hq as [Hm Hq]. destruct (Hm (srv p) (si_open _ _ I)) as (s' & Es & Hd' & ? & ? & Hl).
    exists s'. split_and!; auto; [congruence|].
    destruct (si_closing _ _ I Hd) as [Hcl|Hex]; [left; destruct Hl; congruence|].
    rewrite Hk, Exists_app, Exists_cons, Exists_cons in Hex. rewrite Exists_app, Exists_cons.
    destruct Hex as [|[[Hc|]|]]; auto. left. by apply (Hc (srv p) s' (si_open _ _ I)).
Qed.

(** One statement of a [kill]: [k] takes it off the list it is on. *)
Lemma kill_stmt_inv n0 p m todo (k : sproc T → sproc T) l1 l2 :
  sock_inv n0 p → kills p = l1 ++ (m :: todo) :: l2 →
  (∀ s, let p' := k (set_srv s p) in kills p' = l1 ++ todo :: l2 ∧ srv p' = s ∧
    (fates p', in_hand (pc p'), backlog p', dialled p', reported p', failures p') =
    (fates p, in_hand (pc p), backlog p, dialled p, reported p, failures p)) →
  ∃ p', kill_stmt m p k = Some (Ok p') ∧ sock_inv n0 p' ∧ isunreliable (srv p') = isunreliable (srv p) ∧
    isdead (srv p') = true.
Proof.
  intros I Hk Hp'. destruct (kill_stmt_ok n0 p m todo l1 l2 I Hk) as (s & Hs & Hd & Hu & Hc & Hl & Hq & Hcl).
  unfold kill_stmt. rewrite Hs. eexists. split; [done|]. specialize (Hp' s). simpl in Hp'.
  set (p' := k (set_srv s p)) in *. destruct Hp' as (Hk' & Hsrv & Hrest).
  injection Hrest as Hf Hh Hb Hdl Hr Hfl. rewrite Hsrv. split; [|done].
  pose proof (si_kills _ _ I) as Hok. rewrite Hk in Hok.
  apply Forall_app in Hok as [Hok1 Hok]. apply Forall_cons in Hok as [_ Hok2].
  split; rewrite ?Hsrv, ?Hf, ?Hh, ?Hb, ?Hdl, ?Hr, ?Hfl, ?Hk', ?Hd; try done; try apply I.
  - destruct Hl as [->| ->]; [apply I|eauto].
  - apply Forall_app. split; [by eapply kill_ok_dead|]. constructor; [by right|by eapply kill_ok_dead].
  - pose proof (si_reports _ _ I). destruct (pc p'); lia.
  - rewrite Hc. apply I.
Qed.

(** The fate of the connection in hand. *)
Lemma inv_fate n0 p s c f : sock_inv n0 p → in_hand (pc p) = Some c → (f = Refused → isdead s = true) →
  (isdead s, sock_l s) = (isdead (srv p), sock_l (srv p)) →
  rpc_count s = (if is_served f then (λ n, wrap32 (n + 1)) <$> rpc_count (srv p) else rpc_count (srv p)) →
  sock_inv n0 (set_pc AtTest (set_fate c f (set_srv s p))).
Proof.
  intros I Hh Hf Hs Hc. injection Hs as Hd Hl.
  assert (kills p = killers p) as Hk by (unfold kills; by destruct (pc p)).
  destruct I as [I1 I2 I3 I4 I5 I6 I7 I8 I9]. rewrite Hh in I5, I6. rewrite Hk in I3, I4. simpl in I5, I6.
  split; simpl; rewrite ?Hd, ?Hl; auto.
  - eapply Forall_impl; [exact I3|]. unfold kill_ok. by rewrite Hd.
  - rewrite fmap_app. by rewrite <-app_assoc.
  - rewrite fmap_app. by rewrite <-app_assoc.
  - intros c' [Hin|Hin%list_elem_of_singleton]%elem_of_app; [eauto|]. rewrite <-Hd. apply Hf. by injection Hin.
  - destruct (pc p); simpl in *; lia.
  - rewrite Hc, served_app. destruct (is_served f); rewrite I9; [|by rewrite Nat.add_0_r].
    destruct n0; simpl; [|done]. f_equal. rewrite wrap32_succ. f_equal. lia.
Qed.

Lemma inv_pc n0 p k : sock_inv n0 p → in_hand k = in_hand (pc p) → k ≠ Failed →
  kills (set_pc k p) = kills p → sock_inv n0 (set_pc k p).
Proof.
  intros I Hh Hk Hks. destruct I as [I1 I2 I3 I4 I5 I6 I7 I8 I9].
  split; rewrite ?Hks; simpl; rewrite ?Hh; auto. destruct k; try done; destruct (pc p); lia.
Qed.

Lemma loop_step_inv n0 r p : sock_inv n0 p →
  match loop_step r p with
  | Some (Ok p') => sock_inv n0 p' ∧ isunreliable (srv p') = isunreliable (srv p) ∧
      (isdead (srv p) = true → isdead (srv p') = true)
  | Some (Panic _) => False
  | None => True
  end.
Proof.
  intros I. unfold loop_step. destruct (pc p) as [| |c|c|c|c rp| |todo|] eqn:Hpc; try done.
  - split; [|done]. apply inv_pc; auto; [rewrite Hpc; by destruct (isdead _)|by destruct (isdead _)|].
    unfold kills. rewrite Hpc. simpl. by destruct (isdead _).
  - destruct (isdead (srv p)) eqn:Hd; (split; [|done]).
    + apply (inv_fate n0 p (srv p) c Refused); auto. by rewrite Hpc.
    + apply inv_pc; auto; [by rewrite Hpc|]. unfold kills. by rewrite Hpc.
  - case_match; (split; [|done]).
    + apply (inv_fate n0 p (srv p) c Discarded); try done; by rewrite Hpc.
    + apply inv_pc; auto; [by rewrite Hpc|]. unfold kills. by rewrite Hpc.
  - split; [|done]. apply inv_pc; auto; [by rewrite Hpc|]. unfold kills. by rewrite Hpc.
  - destruct (law_count (srv p)) as (Hd & Hu & Hl & Hc). simpl. rewrite Hd, Hu. split; [|done].
    apply (inv_fate n0 p (add_count (srv p)) c (Served rp)); try done; [by rewrite Hpc|by rewrite Hd, Hl].
  - destruct (isdead (srv p)) eqn:Hd; (split; [|split; [done|]; simpl; congruence]).
    + apply inv_pc; auto; [by rewrite Hpc|]. unfold kills. by rewrite Hpc.
    + assert (kills p = killers p) as Hk by (unfold kills; by rewrite Hpc).
      destruct I as [I1 I2 I3 I4 I5 I6 I7 I8 I9]. rewrite Hpc, Hd in *. rewrite Hk in *. simpl in *.
      split; simpl; rewrite ?Hd; try (by destruct kill_on_error); try done.
      * unfold kills. simpl. destruct kill_on_error; simpl; [|done]. constructor; [by left|done].
      * destruct kill_on_error; lia.
  - destruct todo as [|m todo].
    + split; [|done]. destruct I as [I1 I2 I3 I4 I5 I6 I7 I8 I9]. unfold kills in *. rewrite Hpc in *. simpl in *.
      apply Forall_cons in I3 as [_ I3]. split; simpl; auto. intros Hd. destruct (I4 Hd) as [|Hex]; [by left|].
      right. apply Exists_cons in Hex as [Hex|]; [by apply Exists_nil in Hex|done].
    + destruct (kill_stmt_inv n0 p m todo (set_pc (InKill todo)) [] (killers p) I) as (p' & -> & ? & ? & ?).
      * unfold kills. by rewrite Hpc.
      * intros s. simpl. by rewrite Hpc.
      * done.
Qed.

(** The server after a step of any goroutine. *)
Lemma sock_exec_inv n0 e p : sock_inv n0 p →
  match sock_exec e p with
  | Some (Ok p') => sock_inv n0 p' ∧ (isdead (srv p) = true → isdead (srv p') = true) ∧
      (e ≠ SetUnreliable true → isunreliable (srv p) = false → isunreliable (srv p') = false)
  | Some (Panic _) => False
  | None => True
  end.
Proof.
  intros I. destruct e as [| | |r| |k|b|]; simpl.
  - case_bool_decide; [|done]. split; [|done]. destruct I as [I1 I2 I3 I4 I5 I6 I7 I8 I9]. split; simpl; auto.
    + rewrite !app_assoc. apply NoDup_app. rewrite <-!app_assoc. split_and!; [done| |by apply NoDup_singleton].
      intros c Hc ->%list_elem_of_singleton. rewrite Forall_forall in I6. apply I6 in Hc. lia.
    + rewrite !app_assoc. apply Forall_app. rewrite <-!app_assoc. split; [|by constructor; [lia|]].
      eapply Forall_impl; [exact I6|]. simpl. lia.
  - destruct (pc p) eqn:Hpc; try done. destruct (backlog p) as [|c b] eqn:Hb; [done|].
    case_bool_decide; [|done]. split; [|done].
    assert (kills p = killers p) as Hk by (unfold kills; by rewrite Hpc).
    destruct I as [I1 I2 I3 I4 I5 I6 I7 I8 I9]. rewrite Hpc, Hb, Hk in *. by split.
  - destruct (pc p) eqn:Hpc; try done. split; [|done].
    assert (kills p = killers p) as Hk by (unfold kills; by rewrite Hpc).
    destruct I as [I1 I2 I3 I4 I5 I6 I7 I8 I9]. rewrite Hpc, Hk in *. split; auto. simpl.
    case_bool_decide as Ho; [destruct (isdead (srv p)); lia|].
    rewrite I2; [lia|]. destruct I1 as [[] Hl]; congruence.
  - pose proof (loop_step_inv n0 r p I) as Hl. destruct (loop_step r p) as [[p'|]|]; try done.
    destruct Hl as (? & Hu & ?). rewrite Hu. auto.
  - split; [|done]. destruct I as [I1 I2 I3 I4 I5 I6 I7 I8 I9]. split; auto; unfold kills in *; simpl.
    + rewrite app_assoc. apply Forall_app. split; [done|]. constructor; [by left|done].
    + intros Hd. rewrite app_assoc, Exists_app. destruct (I4 Hd); auto.
  - destruct (killers p !! k) as [[|m todo]|] eqn:Hk; try done.
    pose proof (lookup_lt_Some _ _ _ Hk). pose proof (take_drop_middle _ _ _ Hk) as Hsplit.
    set (l0 := match pc p with InKill todo => [todo] | _ => [] end).
    destruct (kill_stmt_inv n0 p m todo (set_killers (<[k := todo]> (killers p)))
      (l0 ++ take k (killers p)) (drop (S k) (killers p)) I) as (p' & -> & ? & Hu & ?).
    + unfold kills. rewrite <-app_assoc, Hsplit. done.
    + intros s. simpl. split; [|done]. unfold kills. simpl. rewrite insert_take_drop by done.
      by rewrite <-app_assoc.
    + rewrite Hu. auto.
  - destruct setunreliable as [f|] eqn:Hf; [|done]. destruct (law_unreliable f b (srv p) Hf) as (Hd & Hu & Hl & Hc).
    simpl. split; [|split; [by rewrite Hd|]].
    + apply inv_srv; [done|]. by rewrite Hd, Hl, Hc.
    + rewrite Hu. destruct b; [by intros []|done].
  - destruct tick as [f|] eqn:Hf; [|done]. destruct (ticking p); [|done].
    destruct (law_tick f (srv p) Hf) as (Hd & Hu & Hl & Hc).
    destruct (isdead (srv p)) eqn:Hdd; [split; [by destruct I; split|simpl; auto]|].
    simpl. rewrite Hu. split; [apply inv_srv; [done|by rewrite Hd, Hl, Hc, Hdd]|]. split; [done|auto].
Qed.

Lemma sock_run_inv n0 es : ∀ p, sock_inv n0 p →
  match sock_run es p with
  | Some (Ok p') => sock_inv n0 p' ∧ (isdead (srv p) = true → isdead (srv p') = true)
  | Some (Panic _) => False
  | None => True
  end.
Proof.
  induction es as [|e es IH]; intros p I; simpl; [done|].
  pose proof (sock_exec_inv n0 e p I) as He. destruct (sock_exec e p) as [[p1|]|]; try done.
  destruct He as (I1 & Hd & _). specialize (IH p1 I1). destruct (sock_run es p1) as [[p'|]|]; naive_solver.
Qed.

Lemma sock_run_app es1 es2 : ∀ p, sock_run (es1 ++ es2) p =
  match sock_run es1 p with Some (Ok p1) => sock_run es2 p1 | o => o end.
Proof.
  induction es1 as [|e es1 IH]; intros p; simpl; [done|]. by destruct (sock_exec e p) as [[p1|]|].
Qed.

(** Case analysis of a step. *)
Ltac sock_cases := unfold sock_exec, loop_step, kill_stmt in *; repeat case_match; simplify_eq/=.

(** A server whose [unreliable] flag is not set. *)
Record reliable p : Prop := mkReliable {
  rl_flag : isunreliable (srv p) = false;
  rl_pc c : pc p ≠ ToServe c false;
  rl_fates c f : (c, f) ∈ fates p → f = Served true ∨ f = Refused;
}.

Lemma exec_reliable n0 e p p' : sock_inv n0 p → e ≠ SetUnreliable true → reliable p →
  sock_exec e p = Some (Ok p') → reliable p'.
Proof.
  intros I He [Hf Hp Hfs] E. pose proof (sock_exec_inv n0 e p I) as Hu. rewrite E in Hu.
  destruct Hu as (_ & _ & Hu). split; [by apply Hu|..]; clear Hu.
  - intros c. destruct e; sock_cases; try done; rewrite ?Hf; naive_solver.
  - intros c f. destruct e; sock_cases; try (by eauto); rewrite ?Hf in *; try done.
    all: intros [Hin|Hin%list_elem_of_singleton]%elem_of_app; [by eauto|]; simplify_eq; auto.
    destruct replied; [auto|exfalso; by eapply Hp].
Qed.

Lemma run_reliable n0 es : ∀ p p', sock_inv n0 p → reliable p → Forall (.≠ SetUnreliable true) es →
  sock_run es p = Some (Ok p') → reliable p'.
Proof.
  induction es as [|e es IH]; intros p p' I Hr Hes E; simpl in E; [by injection E as <-|].
  apply Forall_cons in Hes as [He Hes]. pose proof (sock_exec_inv n0 e p I) as He'.
  destruct (sock_exec e p) as [[p1|]|] eqn:Ep; try done. destruct He' as (I1 & _).
  apply (IH p1 p'); auto. by apply (exec_reliable n0 e p).
Qed.

(** A connection the loop is about to serve. *)
Definition committed (k : loop_pc T) : option nat :=
  match k with Flip1 c | Flip2 c | ToServe c _ => Some c | _ => None end.

(** The connections of [P] were not served and will not be. *)
Record too_late (P : nat → Prop) p : Prop := mkTooLate {
  tl_dead : isdead (srv p) = true;
  tl_pc c : P c → committed (pc p) ≠ Some c;
  tl_fates c b : P c → (c, Served b) ∉ fates p;
}.

Lemma exec_too_late n0 P e p p' : sock_inv n0 p → too_late P p → sock_exec e p = Some (Ok p') → too_late P p'.
Proof.
  intros I [Hd Hp Hfs] E. pose proof (sock_exec_inv n0 e p I) as Hu. rewrite E in Hu.
  destruct Hu as (_ & Hd' & _). split; [by apply Hd'|..]; clear Hd'.
  - intros c Hc. specialize (Hp c Hc). destruct e; sock_cases; try done; congruence.
  - intros c b Hc. specialize (Hp c Hc). specialize (Hfs c).
    destruct e; sock_cases; try (by eauto).
    all: intros [Hin|Hin%list_elem_of_singleton]%elem_of_app; [by eapply Hfs|]; by simplify_eq.
Qed.

Lemma run_too_late n0 P es : ∀ p p', sock_inv n0 p → too_late P p → sock_run es p = Some (Ok p') → too_late P p'.
Proof.
  induction es as [|e es IH]; intros p p' I Hr E; simpl in E; [by injection E as <-|].
  pose proof (sock_exec_inv n0 e p I) as He'.
  destruct (sock_exec e p) as [[p1|]|] eqn:Ep; try done. destruct He' as (I1 & _).
  apply (IH p1 p'); auto. by apply (exec_too_late n0 P e p).
Qed.

(** When a server is dead, the connections still in its backlog and those to come. *)
Lemma dead_too_late n0 p : sock_inv n0 p → isdead (srv p) = true →
  too_late (λ c, c ∈ backlog p ∨ (dialled p ≤ c)%nat) p.
Proof.
  intros I Hd. pose proof (si_conns _ _ I) as Hn. pose proof (si_dialled _ _ I) as Hl.
  rewrite Forall_forall in Hl. rewrite app_assoc in Hn, Hl. apply NoDup_app in Hn as (_ & Hn & _).
  assert (∀ c, c ∈ backlog p ∨ (dialled p ≤ c)%nat → c ∉ (fates p).*1 ++ option_list (in_hand (pc p))) as Hc.
  { intros c [Hc|Hc] Hin; [by apply (Hn c)|]. apply (Nat.lt_irrefl c).
    eapply Nat.lt_le_trans; [apply Hl; set_solver|done]. }
  split; [done|..].
  - intros c Hin%Hc Hpc. apply Hin. apply elem_of_app. right.
    destruct (pc p); simpl in *; simplify_eq; by apply list_elem_of_singleton.
  - intros c b Hin%Hc Hf. apply Hin. apply elem_of_app. left. by apply (list_elem_of_fmap_2 fst) in Hf.
Qed.

(** ** The loop of a dead server ends *)

Definition loop_event (e : sock_event) : bool :=
  match e with AcceptConn | AcceptError | LoopStep _ => true | _ => false end.
Definition loop_events (es : list sock_event) : nat := length (filter loop_event es).

(** The steps the loop of a dead server has left. *)
Definition loop_left (k : loop_pc T) : nat :=
  match k with
  | Stopped => 0 | AtTest => 1 | Accepted _ | ToServe _ _ | Failed => 2
  | InAccept | Flip2 _ => 3 | Flip1 _ => 4 | InKill todo => 2 + length todo
  end.

Lemma exec_loop_left e p p' : isdead (srv p) = true → sock_exec e p = Some (Ok p') →
  (loop_left (pc p') + (if loop_event e then 1 else 0) ≤ loop_left (pc p))%nat.
Proof. intros Hd E. destruct e; sock_cases; try congruence; lia. Qed.

Lemma loop_events_cons e es : loop_events (e :: es) = ((if loop_event e then 1 else 0) + loop_events es)%nat.
Proof. unfold loop_events, filter. simpl. by destruct (loop_event e). Qed.

Lemma run_loop_left n0 es : ∀ p p', sock_inv n0 p → isdead (srv p) = true → sock_run es p = Some (Ok p') →
  (loop_left (pc p') + loop_events es ≤ loop_left (pc p))%nat.
Proof.
  induction es as [|e es IH]; intros p p' I Hd E; simpl in E; [injection E as <-; unfold loop_events; simpl; lia|].
  pose proof (sock_exec_inv n0 e p I) as He. destruct (sock_exec e p) as [[p1|]|] eqn:Ep; try done.
  destruct He as (I1 & Hd1 & _). specialize (IH p1 p' I1 (Hd1 Hd) E).
  pose proof (exec_loop_left e p p1 Hd Ep) as Hl. rewrite loop_events_cons. lia.
Qed.

(** A step that the goroutines of a dead server can take by themselves: [Accept] fails because
    the listener is closed. *)
Definition own_step (e : sock_event) p : bool :=
  match e with
  | LoopStep _ | KillStep _ => true
  | AcceptError => bool_decide (sock_l (srv p) = Some false)
  | _ => false
  end.

Lemma dead_progress n0 p : sock_inv n0 p → isdead (srv p) = true →
  pc p = Stopped ∨ ∃ e p', own_step e p = true ∧ sock_exec e p = Some (Ok p').
Proof.
  intros I Hd. assert (∀ e, own_step e p = true → sock_exec e p ≠ None →
    ∃ e p', own_step e p = true ∧ sock_exec e p = Some (Ok p')) as Hgo.
  { intros e He Hn. pose proof (sock_exec_inv n0 e p I) as Hi.
    destruct (sock_exec e p) as [[p'|]|] eqn:E; [by exists e, p'|done|done]. }
  destruct (pc p) as [| |c|c|c|c rp| |[|m todo]|] eqn:Hpc; [right..|by left].
  2: { destruct (si_closing _ _ I Hd) as [Hcl|Hex].
    - apply (Hgo AcceptError); simpl; [by apply bool_decide_eq_true|by rewrite Hpc].
    - unfold kills in Hex. rewrite Hpc in Hex. simpl in Hex.
      apply Exists_exists in Hex as (todo & (k & Hk)%list_elem_of_lookup & Htodo).
      destruct todo as [|m todo]; [by apply Exists_nil in Htodo|].
      apply (Hgo (KillStep k)); [done|]. simpl. rewrite Hk. unfold kill_stmt. by destruct (m (srv p)) as [[[]]|]. }
  all: apply (Hgo (LoopStep 0)); [done|]; simpl; unfold loop_step, kill_stmt; rewrite Hpc; try done.
  by destruct (m (srv p)) as [[[]]|].
Qed.

End invariant.

(** ** The servers *)

(** *** viewservice/server.go *)

Record View : Type := mkView { Viewnum : Z; Primary : string; Backup : string }.
Definition zero_view : View := mkView 0 EmptyString EmptyString.

Record ViewServer : Type := mkViewServer { vs_l : listener; vs_dead : Z; vs_rpccount : Z; vs_me : string }.

Definition vs_Ping (me : string) (viewnum : Z) (reply : View) : M ViewServer View := ret reply.
Definition vs_Get (reply : View) : M ViewServer View := ret reply.
Definition vs_tick (vs : ViewServer) : ViewServer := vs.

Definition vs_Kill : list (M ViewServer ()) :=
  [modify (λ vs, mkViewServer (vs_l vs) 1 (vs_rpccount vs) (vs_me vs));
   λ vs, match Close_l (vs_l vs) with
         | Ok l => Ok (tt, mkViewServer l (vs_dead vs) (vs_rpccount vs) (vs_me vs))
         | Panic w => Panic w
         end].

Definition GetRPCCount (vs : ViewServer) : Z := vs_rpccount vs.

Definition vs_StartServer (listen : string → bool) (me : string) : res ViewServer :=
  match Listen listen me with Ok l => Ok (mkViewServer l 0 0 me) | Panic w => Panic w end.

#[export] Instance vs_sock : SockServer ViewServer := {|
  sock_l := vs_l; isdead vs := is_set (vs_dead vs);
  isunreliable _ := false; setunreliable := None;
  add_count vs := mkViewServer (vs_l vs) (vs_dead vs) (wrap32 (vs_rpccount vs + 1)) (vs_me vs);
  rpc_count vs := Some (GetRPCCount vs);
  kill := vs_Kill; kill_on_error := true; tick := Some vs_tick |}.

(** *** viewservice/client.go *)

(** [call]: [dial] tells whether [rpc.Dial] succeeds and [response] is the reply [c.Call] gets,
    [None] if it returns an error; what [call] leaves in [reply] when it returns [true]. *)
Definition call {R} (dial : bool) (response : option R) : option R := if dial then response else None.

(** The other packages have copies of it. *)
Definition pb_call {R} : bool → option R → option R := call.
Definition px_call {R} : bool → option R → option R := call.
Definition kp_call {R} : bool → option R → option R := call.
Definition pm_call {R} : bool → option R → option R := call.
Definition pk_call {R} : bool → option R → option R := call.
Definition dk_call {R} : bool → option R → option R := call.

Record vs_Clerk : Type := mkVsClerk { vc_me : string; vc_server : string }.
Definition vs_MakeClerk (me server : string) : vs_Clerk := mkVsClerk me server.

(** [rpc srv args] is the result of [call] for a server and the arguments. *)
Definition vc_Ping (rpc : string → string * Z → option View) (ck : vs_Clerk) (viewnum : Z) : View * option string :=
  match rpc (vc_server ck) (vc_me ck, viewnum) with
  | None => (zero_view, Some ("Ping(" +:+ Itoa viewnum +:+ ") failed")%string)
  | Some v => (v, None)
  end.
Definition vc_Get (rpc : string → option View) (ck : vs_Clerk) : View * bool :=
  match rpc (vc_server ck) with None => (zero_view, false) | Some v => (v, true) end.
Definition vc_Primary (rpc : string → option View) (ck : vs_Clerk) : string :=
  let '(v, ok) := vc_Get rpc ck in if ok then Primary v else EmptyString.

(** *** pbservice *)

Record PBServer : Type := mkPBServer {
  pb_l : listener; pb_dead : Z; pb_unreliable : Z; pb_me : string; pb_vs : vs_Clerk;
}.

Definition pb_Get (key : string) (reply : kreply) : M PBServer kreply := ret reply.
Definition pb_PutAppend (key value : string) (reply : kreply) : M PBServer kreply := ret reply.
Definition pb_tick (pb : PBServer) : PBServer := pb.

Definition pb_kill : list (M PBServer ()) :=
  [modify (λ pb, mkPBServer (pb_l pb) 1 (pb_unreliable pb) (pb_me pb) (pb_vs pb));
   λ pb, match Close_l (pb_l pb) with
         | Ok l => Ok (tt, mkPBServer l (pb_dead pb) (pb_unreliable pb) (pb_me pb) (pb_vs pb))
         | Panic w => Panic w
         end].
Definition pb_setunreliable (what : bool) (pb : PBServer) : PBServer :=
  mkPBServer (pb_l pb) (pb_dead pb) (flag what) (pb_me pb) (pb_vs pb).

Definition pb_StartServer (listen : string → bool) (vshost me : string) : res PBServer :=
  match Listen listen me with Ok l => Ok (mkPBServer l 0 0 me (vs_MakeClerk me vshost)) | Panic w => Panic w end.

#[export] Instance pb_sock : SockServer PBServer := {|
  sock_l := pb_l; isdead pb := is_set (pb_dead pb);
  isunreliable pb := is_set (pb_unreliable pb); setunreliable := Some pb_setunreliable;
  add_count pb := pb; rpc_count _ := None;
  kill := pb_kill; kill_on_error := true; tick := Some pb_tick |}.

Definition pb_MakeClerk (vshost me : string) : vs_Clerk := vs_MakeClerk me vshost.
Definition pc_Get (ck : vs_Clerk) (key : string) : string := "???".
Definition pc_PutAppend (ck : vs_Clerk) (key value op : string) : vs_Clerk := ck.
Definition pc_Put (ck : vs_Clerk) (key value : string) : vs_Clerk := pc_PutAppend ck key value "Put".
Definition pc_Append (ck : vs_Clerk) (key value : string) : vs_Clerk := pc_PutAppend ck key value "Append".

(** *** paxos/paxos.go *)

Inductive Fate : Type := Decided | Pending | Forgotten.

Record Paxos : Type := mkPaxos {
  px_l : listener; px_dead : Z; px_unreliable : Z; px_rpcCount : Z; px_peers : list string; px_me : Z;
}.

Definition px_Start (seq : Z) (v : string) (px : Paxos) : Paxos := px.
Definition px_Done (seq : Z) (px : Paxos) : Paxos := px.
Definition px_Max (px : Paxos) : Z := 0.
Definition px_Min (px : Paxos) : Z := 0.
Definition px_Status (seq : Z) (px : Paxos) : Fate * option string := (Pending, None).

Definition px_mark (px : Paxos) : Paxos :=
  mkPaxos (px_l px) 1 (px_unreliable px) (px_rpcCount px) (px_peers px) (px_me px).
Definition px_close (px : Paxos) : Paxos :=
  mkPaxos (match px_l px with None => None | Some _ => Some false end) (px_dead px) (px_unreliable px)
    (px_rpcCount px) (px_peers px) (px_me px).
Definition px_Kill : list (M Paxos ()) := [modify px_mark; modify px_close].
Definition px_setunreliable (what : bool) (px : Paxos) : Paxos :=
  mkPaxos (px_l px) (px_dead px) (flag what) (px_rpcCount px) (px_peers px) (px_me px).

(** [Make]: with the caller's [rpcs] the peer has no listener of its own. *)
Definition px_Make (listen : string → bool) (peers : list string) (me : Z) (rpcs : bool) : res Paxos :=
  if rpcs then Ok (mkPaxos None 0 0 0 peers me)
  else match go_at peers me with
       | None => Panic index_out_of_range
       | Some name =>
           match Listen listen name with Ok l => Ok (mkPaxos l 0 0 0 peers me) | Panic w => Panic w end
       end.

(** Its loop reports an accept error and goes on. *)
#[export] Instance px_sock : SockServer Paxos := {|
  sock_l := px_l; isdead px := is_set (px_dead px);
  isunreliable px := is_set (px_unreliable px); setunreliable := Some px_setunreliable;
  add_count px := mkPaxos (px_l px) (px_dead px) (px_unreliable px) (wrap32 (px_rpcCount px + 1))
                    (px_peers px) (px_me px);
  rpc_count px := Some (px_rpcCount px);
  kill := px_Kill; kill_on_error := false; tick := None |}.

(** *** The servers that embed a Paxos peer *)

(** The fields that kvpaxos, paxos-shardmaster, paxos-shardkv and diskv have in common, with the
    others as [X]. *)
Record PxServer (X : Type) : Type := mkPxServer {
  ps_l : listener; ps_me : Z; ps_dead : Z; ps_unreliable : Z; ps_px : Paxos; ps_data : X;
}.
Arguments mkPxServer {X} _ _ _ _ _ _.
Arguments ps_l {X} _.
Arguments ps_me {X} _.
Arguments ps_dead {X} _.
Arguments ps_unreliable {X} _.
Arguments ps_px {X} _.
Arguments ps_data {X} _.

Section px_server.
Context {X : Type}.

Definition ps_set_px (px : Paxos) (kv : PxServer X) : PxServer X :=
  mkPxServer (ps_l kv) (ps_me kv) (ps_dead kv) (ps_unreliable kv) px (ps_data kv).

(** [kill] of the four servers: it kills the embedded peer too. *)
Definition ps_kill : list (M (PxServer X) ()) :=
  [modify (λ kv, mkPxServer (ps_l kv) (ps_me kv) 1 (ps_unreliable kv) (ps_px kv) (ps_data kv));
   λ kv, match Close_l (ps_l kv) with
         | Ok l => Ok (tt, mkPxServer l (ps_me kv) (ps_dead kv) (ps_unreliable kv) (ps_px kv) (ps_data kv))
         | Panic w => Panic w
         end;
   modify (λ kv, ps_set_px (px_mark (ps_px kv)) kv); modify (λ kv, ps_set_px (px_close (ps_px kv)) kv)].

Definition ps_setunreliable (what : bool) (kv : PxServer X) : PxServer X :=
  mkPxServer (ps_l kv) (ps_me kv) (ps_dead kv) (flag what) (ps_px kv) (ps_data kv).

(** The part of [StartServer] that they share. *)
Definition ps_start (listen : string → bool) (servers : list string) (me : Z) (data : X) : res (PxServer X) :=
  match px_Make listen servers me true with
  | Ok px =>
      match go_at servers me with
      | None => Panic index_out_of_range
      | Some name =>
          match Listen listen name with Ok l => Ok (mkPxServer l me 0 0 px data) | Panic w => Panic w end
      end
  | Panic w => Panic w
  end.

Definition ps_sock (tk : option (PxServer X → PxServer X)) : SockServer (PxServer X) := {|
  sock_l := ps_l; isdead kv := is_set (ps_dead kv);
  isunreliable kv := is_set (ps_unreliable kv); setunreliable := Some ps_setunreliable;
  add_count kv := kv; rpc_count _ := None;
  kill := ps_kill; kill_on_error := true; tick := tk |}.

End px_server.

(** kvpaxos *)
Record KVPaxos_data : Type := mkKVPaxosData {}.
Abbreviation KVPaxos := (PxServer KVPaxos_data).
Definition kp_Get (key : string) (reply : kreply) : M KVPaxos kreply := ret reply.
Definition kp_PutAppend (key value op : string) (reply : kreply) : M KVPaxos kreply := ret reply.
Definition kp_kill : list (M KVPaxos ()) := ps_kill.
Definition kp_setunreliable : bool → KVPaxos → KVPaxos := ps_setunreliable.
Definition kp_StartServer (listen : string → bool) (servers : list string) (me : Z) : res KVPaxos :=
  ps_start listen servers me mkKVPaxosData.
#[export] Instance kp_sock : SockServer KVPaxos := ps_sock None.

Record kp_Clerk : Type := mkKpClerk { kc_servers : list string }.
Definition kp_MakeClerk (servers : list string) : kp_Clerk := mkKpClerk servers.
Definition kc_Get (ck : kp_Clerk) (key : string) : string := EmptyString.
Definition kc_PutAppend (ck : kp_Clerk) (key value op : string) : kp_Clerk := ck.
Definition kc_Put (ck : kp_Clerk) (key value : string) : kp_Clerk := kc_PutAppend ck key value "Put".
Definition kc_Append (ck : kp_Clerk) (key value : string) : kp_Clerk := kc_PutAppend ck key value "Append".

(** paxos-shardmaster: the configurations, of which [StartServer] makes the first. *)
Record PShardMaster_data : Type := mkPShardMasterData { pm_configs : list Config }.
Abbreviation PShardMaster := (PxServer PShardMaster_data).
Definition pm_Join (gid : Z) (servers : list string) (reply : ()) : M PShardMaster () := ret reply.
Definition pm_Leave (gid : Z) (reply : ()) : M PShardMaster () := ret reply.
Definition pm_Move (shard gid : Z) (reply : ()) : M PShardMaster () := ret reply.
Definition pm_Query (num : Z) (reply : Config) : M PShardMaster Config := ret reply.
Definition pm_Kill : list (M PShardMaster ()) := ps_kill.
Definition pm_setunreliable : bool → PShardMaster → PShardMaster := ps_setunreliable.
Definition pm_StartServer (listen : string → bool) (servers : list string) (me : Z) : res PShardMaster :=
  ps_start listen servers me (mkPShardMasterData [zero_config]).
#[export] Instance pm_sock : SockServer PShardMaster := ps_sock None.

(** The shard master's clerk: the names of its servers. *)
Definition pm_MakeClerk (servers : list string) : list string := servers.

(** paxos-shardkv *)
Record PShardKV_data : Type := mkPShardKVData { pk_sm : list string; pk_gid : Z }.
Abbreviation PShardKV := (PxServer PShardKV_data).
Definition pk_Get (key : string) (reply : kreply) : M PShardKV kreply := ret reply.
Definition pk_PutAppend (key value op : string) (reply : kreply) : M PShardKV kreply := ret reply.
Definition pk_tick (kv : PShardKV) : PShardKV := kv.
Definition pk_kill : list (M PShardKV ()) := ps_kill.
Definition pk_Setunreliable : bool → PShardKV → PShardKV := ps_setunreliable.
Definition pk_StartServer (listen : string → bool) (gid : Z) (shardmasters servers : list string) (me : Z) :
    res PShardKV :=
  ps_start listen servers me (mkPShardKVData (pm_MakeClerk shardmasters) gid).
#[export] Instance pk_sock : SockServer PShardKV := ps_sock (Some pk_tick).

(** diskv *)
Record DisKV_data : Type := mkDisKVData { dk_sm : list string; dk_dir : string; dk_gid : Z }.
Abbreviation DisKV := (PxServer DisKV_data).
Definition dk_Get (key : string) (reply : kreply) : M DisKV kreply := ret reply.
Definition dk_PutAppend (key value op : string) (reply : kreply) : M DisKV kreply := ret reply.
Definition dk_tick (kv : DisKV) : DisKV := kv.
Definition dk_kill : list (M DisKV ()) := ps_kill.
Definition dk_Setunreliable : bool → DisKV → DisKV := ps_setunreliable.
Definition dk_StartServer (listen : string → bool) (gid : Z) (shardmasters servers : list string) (me : Z)
    (dir : string) (restart : bool) : res DisKV :=
  ps_start listen servers me (mkDisKVData (pm_MakeClerk shardmasters) dir gid).
#[export] Instance dk_sock : SockServer DisKV := ps_sock (Some dk_tick).

(** ** The servers satisfy the laws *)

Lemma close_l_some l : is_Some l → Close_l l = Ok (Some false).
Proof. by intros [? ->]. Qed.

Ltac sock_laws :=
  match goal with
  | |- quiet _ => intros s Hs; simpl in Hs |- *; rewrite ?close_l_some by done; eexists; split; [done|]; simpl; auto
  | |- marks _ => intros s; eexists; split; [done|]; simpl; auto
  | |- closes _ => intros s s' [o Ho]; simpl in Ho |- *; rewrite ?Ho; intros [= <-]; simpl; by rewrite ?Ho
  end.

#[export] Instance vs_laws : SockLaws ViewServer.
Proof.
  split; try done; [|by intros f s [= <-]].
  eexists _, _. split; [done|]. split; [sock_laws|]. split; [repeat constructor; sock_laws|left; sock_laws].
Qed.

#[export] Instance pb_laws : SockLaws PBServer.
Proof.
  split; try done; [|by intros f [] s [= <-]|by intros f s [= <-]].
  eexists _, _. split; [done|]. split; [sock_laws|]. split; [repeat constructor; sock_laws|left; sock_laws].
Qed.

#[export] Instance px_laws : SockLaws Paxos.
Proof.
  split; try done; [|by intros f [] s [= <-]].
  eexists _, _. split; [done|]. split; [sock_laws|]. split; [|left; sock_laws].
  repeat constructor. intros s [o Ho]. simpl in Ho. eexists. split; [done|]. simpl. rewrite Ho. auto.
Qed.

(** A [tick] that changes nothing keeps the laws. *)
Lemma ps_laws {X} (tk : option (PxServer X → PxServer X)) :
  (∀ f, tk = Some f → ∀ s, f s = s) → @SockLaws _ (ps_sock tk).
Proof.
  intros Hid. split; try done; [|by intros f [] s [= <-]|intros f s Hf; by rewrite (Hid f Hf)].
  eexists _, _. split; [done|]. split; [sock_laws|]. split; [repeat constructor; sock_laws|left; sock_laws].
Qed.

#[export] Instance kp_laws : SockLaws KVPaxos.
Proof. by apply ps_laws. Qed.
#[export] Instance pm_laws : SockLaws PShardMaster.
Proof. by apply ps_laws. Qed.
#[export] Instance pk_laws : SockLaws PShardKV.
Proof. apply ps_laws. by intros f [= <-]. Qed.
#[export] Instance dk_laws : SockLaws DisKV.
Proof. apply ps_laws. by intros f [= <-]. Qed.

(** A server [StartServer] returns listens and is not dead. *)
Lemma listen_ok listen name l : Listen listen name = Ok l → l = Some true.
Proof. unfold Listen. case_match; congruence. Qed.

Lemma ps_start_ok {X} listen servers me (data : X) kv : ps_start listen servers me data = Ok kv →
  ps_l kv = Some true ∧ ps_dead kv = 0 ∧ px_l (ps_px kv) = None.
Proof.
  unfold ps_start. simpl. case_match; [|done]. destruct (Listen _ _) eqn:E; [|done].
  intros [= <-]. by apply listen_ok in E as ->.
Qed.

(** ** The theorems *)

Section theorems.
Context {T : Type} `{SockLaws T}.

Lemma start_inv (s : T) : sock_l s = Some true → isdead s = false → rpc_count s = None ∨ rpc_count s = Some 0 →
  sock_inv (rpc_count s) (sock_start s).
Proof.
  intros Hl Hd Hc. split; simpl; rewrite ?Hl, ?Hd; eauto; try done; try constructor.
  - by intros c ?%not_elem_of_nil.
  - by destruct Hc as [->| ->].
Qed.

(** C25: A server on a socket serves each connection at most once, and no connection it accepts after
    it was killed.  However the clients, the tests and the goroutines of [kill] interleave with
    the loop that accepts connections, no goroutine panics; a connection has one fate; the
    counter of requests is the number of connections served; a connection is closed unserved for
    want of a live server only when the server is dead; without [setunreliable(true)] no request
    and no reply is dropped; and an accept error is reported only if the listener failed while it
    was open: a [kill] reports none, because it marks the server dead before it closes the
    listener. *)
Theorem sock_server_safe (s : T) es1 es2 :
  sock_l s = Some true → isdead s = false → rpc_count s = None ∨ rpc_count s = Some 0 →
  match sock_run (es1 ++ es2) (sock_start s) with
  | None => True
  | Some (Panic _) => False
  | Some (Ok p) =>
      ∃ p1, sock_run es1 (sock_start s) = Some (Ok p1) ∧ NoDup (fates p).*1 ∧
      rpc_count (srv p) = (λ n, wrap32 (n + Z.of_nat (served (fates p)))) <$> rpc_count s ∧
      (∀ c, (c, Refused) ∈ fates p → isdead (srv p) = true) ∧
      (isunreliable s = false → Forall (.≠ SetUnreliable true) (es1 ++ es2) →
         ∀ c f, (c, f) ∈ fates p → f = Served true ∨ f = Refused) ∧
      (reported p ≤ failures p)%nat ∧
      (isdead (srv p1) = true → ∀ c b, c ∈ backlog p1 ∨ (dialled p1 ≤ c)%nat → (c, Served b) ∉ fates p)
  end.
Proof.
  intros Hl Hd Hc. pose proof (start_inv s Hl Hd Hc) as I0.
  pose proof (sock_run_inv _ (es1 ++ es2) _ I0) as I. pose proof (sock_run_inv _ es1 _ I0) as I1.
  destruct (sock_run (es1 ++ es2) (sock_start s)) as [[p|]|] eqn:E; try done.
  pose proof E as E2. rewrite sock_run_app in E2. destruct (sock_run es1 (sock_start s)) as [[p1|]|] eqn:E1; try done.
  destruct I as [I _]. destruct I1 as [I1 _]. exists p1. split_and!; [done|..].
  - pose proof (si_conns _ _ I) as Hn. by apply NoDup_app in Hn as (? & _).
  - apply I.
  - apply I.
  - intros Hu Hes. apply (run_reliable _ _ _ _ I0) in E; [apply E| |done].
    split; [done|done|]. by intros c f ?%not_elem_of_nil.
  - pose proof (si_reports _ _ I). lia.
  - intros Hdead c b Hc1. by apply (run_too_late _ _ _ _ _ I1 (dead_too_late _ _ I1 Hdead) E2).
Qed.

(** A killed server stops.  Once the server is dead its accept loop takes at most
    [loop_left] more steps, whatever the other goroutines do, and until it has ended it, or a
    [kill] that has not closed the listener yet, can take one. *)
Theorem killed_server_stops (s : T) es1 es2 p1 p :
  sock_l s = Some true → isdead s = false → rpc_count s = None ∨ rpc_count s = Some 0 →
  sock_run es1 (sock_start s) = Some (Ok p1) → isdead (srv p1) = true → sock_run es2 p1 = Some (Ok p) →
  (loop_events es2 ≤ loop_left (pc p1))%nat ∧
  (pc p = Stopped ∨ ∃ e p', own_step e p = true ∧ sock_exec e p = Some (Ok p')).
Proof.
  intros Hl Hd Hc E1 Hdead E2. pose proof (start_inv s Hl Hd Hc) as I0.
  pose proof (sock_run_inv _ es1 _ I0) as I1. rewrite E1 in I1. destruct I1 as [I1 _].
  pose proof (sock_run_inv _ es2 _ I1) as I2. rewrite E2 in I2. destruct I2 as [I2 Hd2].
  split; [|by eapply dead_progress; eauto]. pose proof (run_loop_left _ _ _ _ I1 Hdead E2). lia.
Qed.

(** The loop by itself serves the first connection that waits at a live and reliable server. *)
Lemma pending_served (p : sproc T) c b :
  pc p = AtTest → backlog p = c :: b → sock_l (srv p) = Some true → isdead (srv p) = false →
  isunreliable (srv p) = false →
  ∃ p', sock_run [LoopStep 0; AcceptConn; LoopStep 0; LoopStep 0; LoopStep 0; LoopStep 0] p = Some (Ok p') ∧
    fates p' = fates p ++ [(c, Served true)] ∧ backlog p' = b ∧ pc p' = AtTest.
Proof.
  intros Hpc Hb Hl Hd Hu. destruct p as [s k ks t n bl fs rp fl]. simpl in *. subst k bl.
  unfold sock_run, sock_exec, loop_step. simpl. rewrite Hd. simpl. rewrite bool_decide_eq_true_2 by done.
  simpl. rewrite Hd. simpl. rewrite Hu. simpl. rewrite Hu. simpl. eauto.
Qed.

End theorems.

(** ** What the clients see *)

(** The reply of a connection that carries one request, whose handler answers [reply]. *)
Definition conn_reply {R} (f : fate) (reply : R) : option R :=
  match f with Served true => Some reply | _ => None end.

(** The view server never tells its clients a primary: its handlers leave the reply zero. *)
Lemma no_primary vs ck (f : fate) (dial : bool) :
  vc_Primary (λ _, call dial (match vs_Get zero_view vs with
    | Ok (v, _) => conn_reply f v | Panic _ => None end)) ck = EmptyString.
Proof. unfold vc_Primary, vc_Get, call. simpl. by destruct dial, f as [| |[]]. Qed.

(** ** Witnesses *)

Definition demo_px : Paxos := mkPaxos (Some true) 0 0 0 ["p0"%string] 0.

Lemma demo_px_made : px_Make (λ _, true) ["p0"%string] 0 false = Ok demo_px.
Proof. done. Qed.

(** Two connections; the second is accepted after the mark of [Kill] and before it closes the
    listener, and is closed unserved. *)
Definition demo_events1 : list sock_event :=
  [Dial; LoopStep 0; AcceptConn; LoopStep 0; LoopStep 0; LoopStep 0; LoopStep 0; LoopStep 0; CallKill; KillStep 0].
Definition demo_events2 : list sock_event :=
  [Dial; AcceptConn; LoopStep 0; KillStep 0; LoopStep 0].

Definition demo_after (es : list sock_event) : sproc Paxos :=
  match sock_run es (sock_start demo_px) with Some (Ok p) => p | _ => sock_start demo_px end.

Lemma demo_run : sock_run (demo_events1 ++ demo_events2) (sock_start demo_px) =
  Some (Ok (demo_after (demo_events1 ++ demo_events2))).
Proof. vm_compute. reflexivity. Qed.

Lemma sock_server_safe_witness : let p := demo_after (demo_events1 ++ demo_events2) in
  fates p = [(0%nat, Served true); (1%nat, Refused)] ∧ NoDup (fates p).*1 ∧ rpc_count (srv p) = Some 1.
Proof.
  intros p. split; [vm_compute; reflexivity|].
  pose proof (sock_server_safe demo_px demo_events1 demo_events2 eq_refl eq_refl (or_intror eq_refl)) as Hs.
  rewrite demo_run in Hs. destruct Hs as (p1 & _ & Hn & Hc & _). split; [exact Hn|].
  unfold p. rewrite Hc. vm_compute. reflexivity.
Defined.

Lemma killed_server_stops_witness : let p := demo_after (demo_events1 ++ demo_events2) in
  (loop_events demo_events2 ≤ 3)%nat ∧
  (pc p = Stopped ∨ ∃ e p', own_step e p = true ∧ sock_exec e p = Some (Ok p')).
Proof.
  intros p.
  apply (killed_server_stops demo_px demo_events1 demo_events2 (demo_after demo_events1) p);
    [reflexivity|reflexivity|right; reflexivity|vm_compute; reflexivity..].
Defined.
