(* ===== verification/MrRpc.v ===== *)
(** * The RPC servers of MapReduce (src/mit/src/mapreduce/master_rpc.go, common_rpc.go,
    and the ends of a job in master.go and worker.go)

    The master's server accepts registrations until [Shutdown] closes its
    [shutdown] channel and its listener; [Distributed] ends a job by shutting down the
    workers and then this server.  As in RpcServers.v the loop and the handler
    interleave statement by statement.  [Distributed], [Wait] and the start of a worker put
    the parts together.

    - [master_server_stops]: one call of [Shutdown] does not panic and ends the loop;
      [second_shutdown_panics]: another one does panic;
    - [worker_waits_after_shutdown]: a worker that was shut down goes on waiting
      for one more connection. *)
From S2P Require Import Prelude GoRt MapReduce RpcServers.
Open Scope Z_scope.

(** ** The master's server *)

Inductive mstage : Type :=
| MTop                         (** at the [select] on [mr.shutdown] *)
| MAccept                      (** in [Accept] *)
| MDone.

(** [mr_shutdown]: the channel is closed; [mr_conns]: connections handed to a goroutine;
    [mr_calls]: what the calls of [Shutdown] have left to do. *)
Record MasterServer : Type := mkMasterServer {
  mr_shutdown : bool; mr_l : listener; mr_stage : mstage; mr_conns : nat;
  mr_calls : list (list (M (bool * listener) ()));
}.

Definition close_closed : string := "close of closed channel".

(** [close(mr.shutdown)] and [mr.l.Close()], over the channel and the listener. *)
Definition Master_Shutdown : list (M (bool * listener) ()) :=
  [λ s, if s.1 : bool then Panic close_closed else Ok (tt, (true, s.2));
   λ s, match Close_l s.2 with Ok l => Ok (tt, (s.1, l)) | Panic w => Panic w end].

Definition startRPCServer (listen : string → bool) (address : string) : res MasterServer :=
  match Listen listen address with
  | Ok l => Ok (mkMasterServer false l MTop 0 [])
  | Panic w => Panic w
  end.

Inductive mevent : Type :=
| MSelect                      (** the [select] *)
| MConn | MError               (** [Accept] returns *)
| MCall                        (** [Master.Shutdown] is called *)
| MStmt (k : nat).             (** the [k]-th call takes its next statement *)

Definition master_exec (e : mevent) (s : MasterServer) : option (res MasterServer) :=
  let at_stage st n := Some (Ok (mkMasterServer (mr_shutdown s) (mr_l s) st n (mr_calls s))) in
  match e, mr_stage s with
  | MSelect, MTop => at_stage (if mr_shutdown s then MDone else MAccept) (mr_conns s)
  | MConn, MAccept =>
      if bool_decide (mr_l s = Some true) then at_stage MTop (S (mr_conns s)) else None
  | MError, MAccept => at_stage MDone (mr_conns s)
  | MCall, _ =>
      Some (Ok (mkMasterServer (mr_shutdown s) (mr_l s) (mr_stage s) (mr_conns s) (mr_calls s ++ [Master_Shutdown])))
  | MStmt k, _ =>
      match mr_calls s !! k with
      | Some (m :: todo) =>
          match m (mr_shutdown s, mr_l s) with
          | Ok (_, (b, l)) => Some (Ok (mkMasterServer b l (mr_stage s) (mr_conns s) (<[k := todo]> (mr_calls s))))
          | Panic w => Some (Panic w)
          end
      | _ => None
      end
  | _, _ => None
  end.

Fixpoint master_run (es : list mevent) (s : MasterServer) : option (res MasterServer) :=
  match es with
  | [] => Some (Ok s)
  | e :: es' => match master_exec e s with Some (Ok s') => master_run es' s' | o => o end
  end.

(** [stopRPCServer], which returns here whether the call succeeded, and the end of a distributed
    job: the workers are shut down and their replies are the statistics. *)
Definition stopRPCServer (dial : bool) (response : option ()) : bool :=
  match call dial response with Some _ => true | None => false end.

Definition dist_finish (shutdown_call : string → option Z) (dial : bool) (response : option ()) (mr : Master) :
    Master * bool :=
  (set_stats (killWorkers shutdown_call mr) mr, stopRPCServer dial response).

(** [register]: whether the call of [Master.Register] was answered; [rpc srv worker] is the result of
    [call]. *)
Definition register (rpc : string → string → option ()) (master name : string) : bool :=
  match rpc master name with Some _ => true | None => false end.

(** [call] of common_rpc.go is that of the other packages. *)
Definition mr_call {R} : bool → option R → option R := RpcServers.call.

(** [Distributed]: the RPC server is started, and the job runs with the scheduler of the master and
    the end above; [schedule] is the effect of [mr.schedule] (MapReduce.v). *)
Definition Distributed (listen : string → bool) (jobName : string) (files : list string) (nreduce : Z) (master : string)
    (schedule : jobPhase → M World ()) (shutdown_call : string → option Z) (dial : bool) (response : option ()) :
    M FS (Master * MasterServer) := λ fs,
  match startRPCServer listen master with
  | Panic w => Panic w
  | Ok srv =>
      match run jobName files nreduce schedule
              (on_master (λ mr, (dist_finish shutdown_call dial response mr).1)) (newMaster master, fs) with
      | Ok (_, (mr, fs')) => Ok ((mr, srv), fs')
      | Panic w => Panic w
      end
  end.

(** [Wait]: the receive from [doneChannel], [None] while it blocks. *)
Definition Wait (mr : Master) : option Master :=
  match doneC mr with
  | [] => None
  | _ :: l => Some (mkMaster (address mr) (workers mr) (jobName_ mr) (files_ mr) (nReduce_ mr) (stats mr) (registerC mr) l)
  end.

(** [Wait] returns once the job has ended. *)
Lemma wait_returns listen job files nreduce master schedule sc dial resp fs mr srv fs' :
  Distributed listen job files nreduce master schedule sc dial resp fs = Ok ((mr, srv), fs') →
  ∃ mr', Wait mr = Some mr'.
Proof.
  unfold Distributed. destruct (startRPCServer listen master); [|done]. unfold run, bind.
  repeat (case_match; try done); intros; simplify_eq/=. unfold on_master, send_done, modify in *. simplify_eq/=.
  match goal with H : (let '(_, _) := ?p in _) = _ |- _ => destruct p as [m0 fs0] end. simplify_eq/=.
  unfold Wait. simpl. destruct (doneC m0); simpl; eauto.
Qed.

(** The start of [RunWorker]: the listener, the worker and whether it was registered. *)
Definition RunWorker_start (listen : string → bool) (rpc : string → string → option ()) (MasterAddress me : string)
    (nRPC : Z) : res (listener * Worker * bool) :=
  match Listen listen me with
  | Ok l => Ok (l, mkWorker nRPC 0 WTop, register rpc MasterAddress me)
  | Panic w => Panic w
  end.

(** ** One [Shutdown] stops the loop *)

(** The state of the one call of [Shutdown] there is. *)
Definition once (s : MasterServer) : Prop :=
  (mr_calls s = [] ∧ mr_shutdown s = false ∧ mr_l s = Some true) ∨
  (mr_calls s = [Master_Shutdown] ∧ mr_shutdown s = false ∧ mr_l s = Some true) ∨
  (mr_calls s = [drop 1 Master_Shutdown] ∧ mr_shutdown s = true ∧ mr_l s = Some true) ∨
  (mr_calls s = [[]] ∧ mr_shutdown s = true ∧ mr_l s = Some false).

Lemma master_exec_once e s : once s → (e = MCall → mr_calls s = []) →
  match master_exec e s with
  | Some (Ok s') => once s' ∧ (mr_shutdown s = true → mr_shutdown s' = true) ∧
      (mr_calls s ≠ [] ∨ e = MCall ↔ mr_calls s' ≠ [])
  | Some (Panic _) => False
  | None => True
  end.
Proof.
  intros Ho Hc. destruct s as [b l st n cs]. unfold once in *. simpl in *.
  destruct e as [| | | |k]; destruct st; simpl; try done; try (split; [tauto|]; split; [done|]; naive_solver).
  all: try (case_bool_decide; [|done]; split; [tauto|]; split; [done|]; naive_solver).
  all: try (specialize (Hc eq_refl); subst cs; split; [naive_solver|]; split; [done|]; split; [done|by right]).
  all: destruct Ho as [(-> & -> & ->)|[(-> & -> & ->)|[(-> & -> & ->)|(-> & -> & ->)]]];
    destruct k as [|k]; simpl; try done; split; naive_solver.
Qed.

(** The steps of the loop left once the channel is closed. *)
Definition master_left (s : MasterServer) : nat := match mr_stage s with MTop => 1 | MAccept => 2 | MDone => 0 end.
Definition master_loop_event (e : mevent) : bool := match e with MSelect | MConn | MError => true | _ => false end.

Lemma master_exec_left e s s' : mr_shutdown s = true → master_exec e s = Some (Ok s') →
  (master_left s' + (if master_loop_event e then 1 else 0) ≤ master_left s)%nat.
Proof.
  intros Hs. destruct s as [b l st n cs]. simpl in *. subst b. unfold master_left.
  destruct e, st; simpl; try done; repeat case_match; intros; simplify_eq/=; lia.
Qed.

(** How often [Shutdown] is called. *)
Fixpoint shutdown_calls (es : list mevent) : nat :=
  match es with [] => 0 | MCall :: es' => S (shutdown_calls es') | _ :: es' => shutdown_calls es' end.
Fixpoint master_loop_events (es : list mevent) : nat :=
  match es with [] => 0 | e :: es' => (if master_loop_event e then 1 else 0) + master_loop_events es' end.

Lemma master_run_once es : ∀ s, once s → (shutdown_calls es + length (mr_calls s) ≤ 1)%nat →
  match master_run es s with
  | Some (Ok s') => once s' ∧ (shutdown_calls es + length (mr_calls s) = length (mr_calls s'))%nat ∧
      (mr_shutdown s = true → (master_left s' + master_loop_events es ≤ master_left s)%nat)
  | Some (Panic _) => False
  | None => True
  end.
Proof.
  induction es as [|e es IH]; intros s Ho Hn; simpl; [split; [done|lia]|].
  assert (e = MCall → mr_calls s = []) as Hc.
  { intros ->. simpl in Hn. apply nil_length_inv. lia. }
  pose proof (master_exec_once e s Ho Hc) as He.
  destruct (master_exec e s) as [[s1|]|] eqn:Ee; try done. destruct He as (Ho1 & Hs1 & Hcalls).
  assert (length (mr_calls s1) = length (mr_calls s) + if e is MCall then 1 else 0)%nat as Hlen.
  { destruct e; try destruct (mr_stage s) eqn:?; simpl in Ee; repeat case_match; simplify_eq/=;
      rewrite ?length_app, ?length_insert; simpl; lia. }
  specialize (IH s1 Ho1). destruct (master_run es s1) as [[s'|]|]; [|by apply IH; destruct e; simpl in *; lia|done].
  destruct IH as (Ho' & Hlen' & Hl'); [destruct e; simpl in *; lia|]. split; [done|].
  split; [destruct e; simpl in *; lia|]. intros Hs. specialize (Hl' (Hs1 Hs)).
  pose proof (master_exec_left e s s1 Hs Ee). lia.
Qed.

(** One call of [Shutdown], as [stopRPCServer] makes it, does not panic.  When it has closed the
    channel the loop takes at most two more steps; until it has ended, it can take one, or the
    handler has still to close the listener. *)
Theorem master_server_stops listen address s0 es :
  startRPCServer listen address = Ok s0 → (shutdown_calls es ≤ 1)%nat →
  match master_run es s0 with
  | Some (Panic _) => False
  | None => True
  | Some (Ok s) => mr_shutdown s = true →
      (∀ es' s', shutdown_calls es' = 0%nat → master_run es' s = Some (Ok s') →
         (master_loop_events es' ≤ 2)%nat) ∧
      (mr_stage s = MDone ∨ mr_l s = Some false ∨
       ∃ e s', e ≠ MCall ∧ e ≠ MError ∧ master_exec e s = Some (Ok s'))
  end.
Proof.
  unfold startRPCServer, Listen. intros H0 Hn. destruct (listen address); [|done]. injection H0 as <-.
  set (s0 := mkMasterServer _ _ _ _ _). assert (once s0) as Ho by (left; done).
  pose proof (master_run_once es s0 Ho ltac:(simpl; lia)) as Hr.
  destruct (master_run es s0) as [[s|]|]; try done. destruct Hr as (Hos & Hlen & _). intros Hs. split.
  - intros es' s' Hc Hr. pose proof (master_run_once es' s Hos) as Hr'. rewrite Hr in Hr'.
    destruct Hr' as (_ & _ & Hl); [simpl in Hlen; lia|]. specialize (Hl Hs). unfold master_left in Hl.
    destruct (mr_stage s); lia.
  - destruct Hos as [(_ & ? & _)|[(_ & ? & _)|[(Hk & _ & Hl)|(_ & _ & Hl)]]]; [congruence..| |auto].
    right; right. exists (MStmt 0). unfold master_exec. rewrite Hk. simpl. rewrite Hl.
    destruct (mr_stage s); by eexists.
Qed.

(** A second call panics: the channel is already closed. *)
Lemma second_shutdown_panics l st n :
  master_run [MCall; MStmt 0; MStmt 0; MCall; MStmt 1] (mkMasterServer false (Some l) st n []) = Some (Panic close_closed).
Proof. by destruct st. Qed.

(** ** A worker after [Shutdown] *)

Lemma worker_no_accept es : ∀ wk wk', nRPC wk ≠ 0 → wk_stage wk ≠ WExited →
  Forall (λ e, e = WTest ∨ e = WCount) es → worker_run es wk = Some wk' →
  nRPC wk' = nRPC wk ∧ wk_stage wk' ≠ WExited.
Proof.
  induction es as [|e es IH]; intros wk wk' Hn Hst Hes Hrun; simpl in Hrun; [by injection Hrun as <-|].
  apply Forall_cons in Hes as [He Hes]. destruct wk as [n t st].
  destruct He as [-> | ->]; destruct st; simpl in Hrun; try done.
  - rewrite (proj2 (Z.eqb_neq n 0) Hn) in Hrun. by apply (IH (mkWorker n t WAccepting)).
  - by apply (IH (mkWorker n (wrap64 (t + 1)) WTop)).
Qed.

(** A worker that was shut down does not leave its loop before another connection arrives: the
    handler leaves one RPC to wait for. *)
Theorem worker_waits_after_shutdown wk wk' es :
  wk_stage wk ≠ WExited → Forall (λ e, e = WTest ∨ e = WCount) es →
  worker_run (WShutdown :: es) wk = Some wk' → nRPC wk' = 1 ∧ wk_stage wk' ≠ WExited.
Proof. intros Hst Hes Hrun. by apply (worker_no_accept es (Worker_Shutdown wk).2). Qed.
