(* ===== verification/LockService.v ===== *)
(** * The lock service (src/mit/src/lockservice)

    The lock server with its two handlers, the loop that accepts connections and the
    clerk.  [Unlock] is not implemented: its handler does nothing and its clerk
    method returns [false].

    The accept loop, the goroutines that serve the connections ([ServeConn]), the
    test that makes the server die and [kill] run concurrently: [lock_exec] is one
    step of one of them.  A connection carries one request, as those of [call] do.
    Its reply may get lost; that of the connection a dying server accepts always
    does ([DeafConn]).

    The theorem: what was granted once is never granted again, whatever is
    unlocked in between; the test expects it to be. *)
From S2P Require Import Prelude GoRt.
Open Scope Z_scope.

Record LockServer : Type := mkLockServer {
  dead : bool; dying : bool; am_primary : bool; backup : string; locks : gmap string bool;
}.

Inductive lock_req : Type := LockArgs (Lockname : string) | UnlockArgs (Lockname : string).

Definition set_locks l ls := mkLockServer (dead ls) (dying ls) (am_primary ls) (backup ls) l.
Definition set_dead b ls := mkLockServer b (dying ls) (am_primary ls) (backup ls) (locks ls).

(** The handlers return [reply.OK]. *)
Definition Lock (name : string) : M LockServer bool :=
  ls <- get ;;
  let locked := default false (locks ls !! name) in
  if locked then ret false
  else modify (set_locks (<[name := true]> (locks ls))) ;; ret true.

Definition Unlock (name : string) : M LockServer bool := ret false.

Definition serve_req (r : lock_req) : M LockServer bool :=
  match r with LockArgs n => Lock n | UnlockArgs n => Unlock n end.

(** The first statement; then the listener is closed. *)
Definition lock_kill : M LockServer () := modify (set_dead true).

Definition lock_StartServer (backup : string) (am_primary : bool) : LockServer :=
  mkLockServer false false am_primary backup ∅.

(** The rest of [StartServer]: the port the server listens on; [listen] tells whether
    [net.Listen] succeeds. *)
Definition lock_listen (listen : string → bool) (primary backup : string) (am_primary : bool) : res string :=
  let me := if am_primary then primary else backup in
  if listen me then Ok me else Panic "listen error: ".

(** A connection: its request, the reply of the handler once it has run, whether the reply is
    discarded, and what the client's [call] has returned ([Some None]: that it failed). *)
Record lock_conn : Type := mkConn {
  cn_req : lock_req; cn_handled : option bool; cn_deaf : bool; cn_result : option (option bool);
}.

(** The accept loop: at its test or in [Accept], serving the deaf connection [k], or over. *)
Inductive lock_stage : Type := LkAccepting | LkDeaf (k : nat) | LkExited.

Record LockSys : Type := mkLockSys {
  lk_server : LockServer; lk_closed : bool (* the listener *); lk_stage : lock_stage; lk_conns : list lock_conn;
}.

(** The test makes the server discard the reply to its next request. *)
Definition set_dying (ls : LockServer) : LockServer :=
  mkLockServer (dead ls) true (am_primary ls) (backup ls) (locks ls).

Inductive lock_event : Type :=
| LkTest                        (* [for ls.dead == false] *)
| LkConn (r : lock_req)         (* [Accept] returns a connection on which [r] is sent *)
| LkAcceptErr                   (* [Accept] returns an error *)
| LkHandle (k : nat)            (* the handler of connection [k] runs *)
| LkReply (k : nat)             (* the reply reaches the client *)
| LkFail (k : nat)              (* the client's call fails *)
| LkDeafDone                    (* the deaf connection is closed *)
| LkDying
| LkKill | LkClose.             (* the two statements of [kill] *)

Definition new_conn (r : lock_req) (deaf : bool) : lock_conn := mkConn r None deaf None.
Definition set_conn (k : nat) (c : lock_conn) (y : LockSys) : LockSys :=
  mkLockSys (lk_server y) (lk_closed y) (lk_stage y) (<[k := c]> (lk_conns y)).

(** What the loop does with a new connection: it closes it when the server is dead, and the call
    fails; it serves it itself and without replies when the server is dying, having closed the
    listener; otherwise a goroutine serves it. *)
Definition accept_conn (r : lock_req) (y : LockSys) : LockSys :=
  let ls := lk_server y in
  let k := length (lk_conns y) in
  if dead ls then y
  else if dying ls then mkLockSys ls true (LkDeaf k) (lk_conns y ++ [new_conn r true])
  else mkLockSys ls (lk_closed y) LkAccepting (lk_conns y ++ [new_conn r false]).

Definition lock_exec (e : lock_event) (y : LockSys) : option LockSys :=
  let ls := lk_server y in
  match e with
  | LkTest =>
      match lk_stage y with
      | LkAccepting => if dead ls then Some (mkLockSys ls (lk_closed y) LkExited (lk_conns y)) else Some y
      | _ => None
      end
  | LkConn r =>
      match lk_stage y with
      | LkAccepting => if lk_closed y then None else Some (accept_conn r y)
      | _ => None
      end
  | LkAcceptErr =>
      match lk_stage y with
      | LkAccepting =>
          if dead ls then Some y else Some (mkLockSys (set_dead true ls) true LkAccepting (lk_conns y))
      | _ => None
      end
  | LkHandle k =>
      match lk_conns y !! k with
      | Some (mkConn r None deaf res) =>
          match serve_req r ls with
          | Ok (ok, ls') => Some (set_conn k (mkConn r (Some ok) deaf res) (mkLockSys ls' (lk_closed y) (lk_stage y) (lk_conns y)))
          | Panic _ => None
          end
      | _ => None
      end
  | LkReply k =>
      match lk_conns y !! k with
      | Some (mkConn r (Some ok) false None) => Some (set_conn k (mkConn r (Some ok) false (Some (Some ok))) y)
      | _ => None
      end
  | LkFail k =>
      match lk_conns y !! k with
      | Some (mkConn r h deaf None) => Some (set_conn k (mkConn r h deaf (Some None)) y)
      | _ => None
      end
  | LkDeafDone =>
      match lk_stage y with
      | LkDeaf k => Some (mkLockSys (set_dead true ls) (lk_closed y) LkAccepting (lk_conns y))
      | _ => None
      end
  | LkDying => Some (mkLockSys (set_dying ls) (lk_closed y) (lk_stage y) (lk_conns y))
  | LkKill => match lock_kill ls with Ok (_, ls') => Some (mkLockSys ls' (lk_closed y) (lk_stage y) (lk_conns y)) | Panic _ => None end
  | LkClose => if dead ls then Some (mkLockSys ls true (lk_stage y) (lk_conns y)) else None
  end.

Fixpoint lock_run (es : list lock_event) (y : LockSys) : option LockSys :=
  match es with
  | [] => Some y
  | e :: es' => match lock_exec e y with Some y' => lock_run es' y' | None => None end
  end.

Definition lock_start (backup : string) (am_primary : bool) : LockSys :=
  mkLockSys (lock_StartServer backup am_primary) false LkAccepting [].

(** ** The clerk *)

Record LockClerk : Type := mkLockClerk { lc_primary : string; lc_backup : string }.

Definition lock_call {R} (dial : bool) (response : option R) : option R := if dial then response else None.
Definition lock_MakeClerk (primary backup : string) : LockClerk := mkLockClerk primary backup.

(** [call srv r]: the reply, [None] if the call failed. *)
Definition Clerk_Lock (call : string → lock_req → option bool) (ck : LockClerk) (name : string) : bool :=
  match call (lc_primary ck) (LockArgs name) with
  | None => false
  | Some ok => ok
  end.

Definition Clerk_Unlock (ck : LockClerk) (name : string) : bool := false.

(** ** A lock is never released *)

#[export] Instance lock_req_eq_dec : EqDecision lock_req.
Proof. solve_decision. Defined.

(** The requests the handler has granted. *)
Definition granted (name : string) (c : lock_conn) : bool :=
  bool_decide (cn_req c = LockArgs name ∧ cn_handled c = Some true).
Definition grants (name : string) (l : list lock_conn) : nat := length (filter (λ c, granted name c = true) l).

Definition held (name : string) (ls : LockServer) : bool := default false (locks ls !! name).

Lemma grants_app name l1 l2 : grants name (l1 ++ l2) = (grants name l1 + grants name l2)%nat.
Proof. unfold grants. by rewrite filter_app, length_app. Qed.

Lemma grants_one name c : grants name [c] = if granted name c then 1%nat else 0%nat.
Proof. unfold grants. rewrite filter_cons. by destruct (granted name c). Qed.

Lemma grants_unhandled name r deaf res : grants name [mkConn r None deaf res] = 0%nat.
Proof. rewrite grants_one. unfold granted. simpl. by rewrite bool_decide_false by naive_solver. Qed.

Lemma grants_insert name l k c c' :
  l !! k = Some c →
  (grants name (<[k := c']> l) + grants name [c] = grants name l + grants name [c'])%nat.
Proof.
  intros Hk. pose proof (lookup_lt_Some _ _ _ Hk). rewrite insert_take_drop by done.
  rewrite <- (take_drop_middle l k c Hk) at 3. rewrite !(cons_middle _ _ (drop _ _)), !grants_app. lia.
Qed.

(** One request was granted if the lock is held, and none otherwise. *)
Definition grants_inv (name : string) (y : LockSys) : Prop :=
  grants name (lk_conns y) = if held name (lk_server y) then 1%nat else 0%nat.

Lemma serve_grants name r ls ok ls' deaf res :
  serve_req r ls = Ok (ok, ls') →
  ((if held name ls then 1 else 0) + grants name [mkConn r (Some ok) deaf res] = (if held name ls' then 1 else 0))%nat.
Proof.
  rewrite grants_one. unfold granted, held. destruct r as [n|n]; simpl.
  - unfold Lock, bind, get. simpl. destruct (default false (locks ls !! n)) eqn:Hn; intros [= <- <-]; simpl.
    + rewrite bool_decide_false by naive_solver. lia.
    + destruct (decide (n = name)) as [->|Hne].
      * by rewrite Hn, lookup_insert_eq, bool_decide_true.
      * rewrite lookup_insert_ne by done. rewrite bool_decide_false by naive_solver. lia.
  - intros [= <- <-]. lia.
Qed.

Lemma exec_grants name e y y' : grants_inv name y → lock_exec e y = Some y' → grants_inv name y'.
Proof.
  unfold grants_inv. intros I He. destruct e as [|r| |k|k|k| | | |]; simpl in He.
  1,3,7: destruct (lk_stage y); try done; try (destruct (dead _)); injection He as <-; exact I.
  - destruct (lk_stage y); [|done..]. destruct (lk_closed y); [done|]. injection He as <-. unfold accept_conn, new_conn.
    destruct (dead _); [done|]. destruct (dying _); simpl; rewrite grants_app, I, grants_unhandled; simpl; lia.
  - destruct (lk_conns y !! k) as [[r [|] deaf res]|] eqn:Hk; [done| |done].
    destruct (serve_req r (lk_server y)) as [[ok ls']|] eqn:Hs; [|done]. injection He as <-. simpl.
    pose proof (grants_insert name _ k _ (mkConn r (Some ok) deaf res) Hk) as Hg.
    pose proof (serve_grants name r _ ok ls' deaf res Hs) as Hv. rewrite I in Hg.
    rewrite grants_unhandled in Hg. lia.
  - destruct (lk_conns y !! k) as [[r [ok|] [] [|]]|] eqn:Hk; try done. injection He as <-. simpl.
    pose proof (grants_insert name _ k _ (mkConn r (Some ok) false (Some (Some ok))) Hk) as Hg.
    rewrite !grants_one in Hg. unfold granted in Hg. simpl in Hg. lia.
  - destruct (lk_conns y !! k) as [[r h deaf [|]]|] eqn:Hk; try done. injection He as <-. simpl.
    pose proof (grants_insert name _ k _ (mkConn r h deaf (Some None)) Hk) as Hg.
    rewrite !grants_one in Hg. unfold granted in Hg. simpl in Hg. lia.
  - by injection He as <-.
  - by injection He as <-.
  - destruct (dead _); [|done]. by injection He as <-.
Qed.

Lemma exec_held name e y y' :
  lock_exec e y = Some y' → held name (lk_server y) = true → held name (lk_server y') = true.
Proof.
  intros He Hh. destruct e as [|r| |k|k|k| | | |]; simpl in He.
  4: { destruct (lk_conns y !! k) as [[r [|] deaf res]|]; [done| |done].
    destruct (serve_req r (lk_server y)) as [[ok ls']|] eqn:Hs; [|done]. injection He as <-. simpl.
    pose proof (serve_grants name r _ ok ls' deaf res Hs) as Hv. rewrite Hh in Hv. by destruct (held name ls'); [|lia]. }
  all: repeat case_match; simplify_eq; try done; unfold accept_conn; by repeat case_match.
Qed.

Lemma run_grants name es : ∀ y y',
  grants_inv name y → lock_run es y = Some y' →
  grants_inv name y' ∧ (held name (lk_server y) = true → held name (lk_server y') = true).
Proof.
  induction es as [|e es IH]; intros y y' I Hr; simpl in Hr; [by simplify_eq|].
  destruct (lock_exec e y) as [y1|] eqn:He; [|done]. destruct (IH y1 y' (exec_grants _ _ _ _ I He) Hr) as [I' Hh].
  split; [done|]. intros ?. by apply Hh, (exec_held name e y).
Qed.

(** A lock is never released.  Once a request for the lock has been granted, no other request for
    it is, whatever requests to unlock it come in between and whatever else happens: [Unlock] does
    nothing.  The comment in common.go and TestBasic want it to be free again. *)
Theorem lock_never_released es es' backup p name y y' :
  lock_run es (lock_start backup p) = Some y → (0 < grants name (lk_conns y))%nat → lock_run es' y = Some y' →
  grants name (lk_conns y) = 1%nat ∧ grants name (lk_conns y') = 1%nat.
Proof.
  intros H1 Hg H2. destruct (run_grants name es (lock_start backup p) y eq_refl H1) as [I1 _]. destruct (run_grants name es' _ _ I1 H2) as [I2 Hh].
  unfold grants_inv in *. destruct (held name (lk_server y)); [|lia]. by rewrite I1, I2, (Hh eq_refl).
Qed.

(** The beginning of TestBasic, with a request to unlock: the second request for the lock is refused. *)
Definition basic_call (k : nat) (r : lock_req) : list lock_event := [LkTest; LkConn r; LkHandle k; LkReply k].
Definition basic_events : list lock_event :=
  basic_call 0 (LockArgs "a") ++ basic_call 1 (UnlockArgs "a") ++ basic_call 2 (LockArgs "a").

Example basic_refused :
  (map cn_result ∘ lk_conns) <$> lock_run basic_events (lock_start "b" true) =
  Some [Some (Some true); Some (Some false); Some (Some false)].
Proof. vm_compute. reflexivity. Qed.
