(* ===== verification/Commands.v ===== *)
(** * The command line programs (src/mit/src/main)

    What each [main] makes of its arguments: [args] is [os.Args], with the name of
    the program first.  [None] is the usage message, after which the program ends.
    The programs then call the functions of the other files; what a server does after
    that is to sleep.

    - [diskvd_args_roundtrip]: the arguments made for a server of the persistent
      key/value service are read back;
    - [diskvd_bad_number]: a number that cannot be parsed is taken to be zero. *)
From Stdlib Require Import Ascii.
From stdpp Require Import pretty.
From S2P Require Import Prelude GoRt Utf8 MapReduce MrTheorems MrApps LockService RpcServers MrRpc.
Open Scope Z_scope.

(** ** MapReduce: wc.go, ii.go *)

Inductive mr_command : Type :=
| MrSequential (files : list string)
| MrDistributed (files : list string) (master : string)
| MrWorker (master me : string).

Definition mr_args (args : list string) : option mr_command :=
  match args with
  | _ :: a1 :: a2 :: a3 :: rest =>
      Some (if decide (a1 = "master")
            then if decide (a2 = "sequential") then MrSequential (a3 :: rest) else MrDistributed (a3 :: rest) a2
            else MrWorker a2 a3)
  | _ => None
  end.

(** The whole of [main] for a job: its master, once [Wait] has returned, or what a worker
    starts with.  The parameters are those of [Sequential], [Distributed] and [RunWorker_start]. *)
Section mr_main.
Context (json_text : list KeyValue → string)
        (range_order : gmap string (list string) → list (string * list string))
        (listen : string → bool) (schedule : jobPhase → M World ()) (shutdown_call : string → option Z)
        (dial : bool) (response : option ()) (rpc : string → string → option ()).

Definition mr_run (jobName : string) mapF reduceF (c : mr_command) :
    M FS (option Master + listener * Worker * bool) :=
  match c with
  | MrSequential files =>
      mr <- Sequential json_text range_order jobName files 3 mapF reduceF ;; ret (inl (Wait mr))
  | MrDistributed files master =>
      r <- Distributed listen jobName files 3 master schedule shutdown_call dial response ;; ret (inl (Wait r.1))
  | MrWorker master me =>
      λ fs, match RunWorker_start listen rpc master me 100 with
            | Ok w => Ok (inr w, fs)
            | Panic msg => Panic msg
            end
  end.

Definition wc_main (IsLetter : Z → bool) (args : list string) :=
  mr_run "wcseq" (wc_mapF IsLetter) wc_reduceF <$> mr_args args.
Definition ii_main (IsLetter : Z → bool) (args : list string) :=
  mr_run "iiseq" (ii_mapF IsLetter) ii_reduceF <$> mr_args args.
End mr_main.

(** ** Locks: lockc.go, lockd.go *)

(** The reply that is printed; [call] is the oracle of LockService.v. *)
Definition lockc_main (call : string → lock_req → option bool) (args : list string) : option bool :=
  match args with
  | [_; a1; primary; backup; name] =>
      let ck := lock_MakeClerk primary backup in
      if decide (a1 = "-l") then Some (Clerk_Lock call ck name)
      else if decide (a1 = "-u") then Some (Clerk_Unlock ck name)
      else None
  | _ => None
  end.

Definition lockd_main (listen : string → bool) (args : list string) : option (res LockServer) :=
  let start primary backup am_primary :=
    match lock_listen listen primary backup am_primary with
    | Ok _ => Ok (lock_StartServer backup am_primary)
    | Panic w => Panic w
    end in
  match args with
  | [_; a1; primary; backup] =>
      if decide (a1 = "-p") then Some (start primary backup true)
      else if decide (a1 = "-b") then Some (start primary backup false)
      else None
  | _ => None
  end.

(** ** Views and primary/backup: viewd.go, pbd.go, pbc.go *)

Definition viewd_main (listen : string → bool) (args : list string) : option (res ViewServer) :=
  match args with [_; port] => Some (vs_StartServer listen port) | _ => None end.

Definition pbd_main (listen : string → bool) (args : list string) : option (res PBServer) :=
  match args with [_; viewport; myport] => Some (pb_StartServer listen viewport myport) | _ => None end.

(** What is printed: the value of a get, nothing for a put. *)
Definition pbc_main (args : list string) : option (option string) :=
  match args with
  | [_; viewport; key] => Some (Some (pc_Get (pb_MakeClerk viewport EmptyString) key))
  | [_; viewport; key; value] =>
      let _ := pc_Put (pb_MakeClerk viewport EmptyString) key value in Some None
  | _ => None
  end.

(** ** The persistent key/value server: diskvd.go *)

(** [strconv.ParseBool], [false] with an error for other strings. *)
Definition ParseBool (s : string) : bool * bool :=
  if bool_decide (s ∈ ["1"; "t"; "T"; "TRUE"; "true"; "True"]%string) then (true, true)
  else if bool_decide (s ∈ ["0"; "f"; "F"; "FALSE"; "false"; "False"]%string) then (false, true)
  else (false, false).

Record diskvd_config : Type := mkDiskvd {
  dc_gid : Z; dc_masters : list string; dc_replicas : list string; dc_me : Z; dc_unreliable : bool;
  dc_dir : string; dc_restart : bool;
}.
Definition diskvd_default : diskvd_config := mkDiskvd (-1) [] [] (-1) false EmptyString false.

(** One flag with its value; the errors of the parsers are dropped. *)
Definition diskvd_flag (a0 a1 : string) (c : diskvd_config) : option diskvd_config :=
  let '(mkDiskvd gid masters replicas me unreliable dir restart) := c in
  if decide (a0 = "-g") then Some (mkDiskvd (Atoi a1).1 masters replicas me unreliable dir restart)
  else if decide (a0 = "-m") then Some (mkDiskvd gid (masters ++ [a1]) replicas me unreliable dir restart)
  else if decide (a0 = "-s") then Some (mkDiskvd gid masters (replicas ++ [a1]) me unreliable dir restart)
  else if decide (a0 = "-i") then Some (mkDiskvd gid masters replicas (Atoi a1).1 unreliable dir restart)
  else if decide (a0 = "-u") then Some (mkDiskvd gid masters replicas me (ParseBool a1).1 dir restart)
  else if decide (a0 = "-d") then Some (mkDiskvd gid masters replicas me unreliable a1 restart)
  else if decide (a0 = "-r") then Some (mkDiskvd gid masters replicas me unreliable dir (ParseBool a1).1)
  else None.

(** [for i := 1; i+1 < len(os.Args); i += 2]; a last flag without a value is not looked at. *)
Fixpoint diskvd_flags (args : list string) (c : diskvd_config) : option diskvd_config :=
  match args with
  | a0 :: a1 :: args' => c' ← diskvd_flag a0 a1 c; diskvd_flags args' c'
  | _ => Some c
  end.

Definition diskvd_valid (c : diskvd_config) : bool :=
  negb ((dc_gid c <? 0) || (dc_me c <? 0) || (go_len (dc_masters c) <? 1) ||
        (go_len (dc_replicas c) <=? dc_me c) || bool_decide (dc_dir c = EmptyString)).

Definition diskvd_args (args : list string) : option diskvd_config :=
  c ← diskvd_flags (drop 1 args) diskvd_default; if diskvd_valid c then Some c else None.

Definition diskvd_main (listen : string → bool) (args : list string) : option (res DisKV) :=
  c ← diskvd_args args;
  Some (match dk_StartServer listen (dc_gid c) (dc_masters c) (dc_replicas c) (dc_me c) (dc_dir c) (dc_restart c) with
        | Ok srv => Ok (dk_Setunreliable (dc_unreliable c) srv)
        | Panic w => Panic w
        end).

(** ** Numbers *)

Lemma atoi_digits_pretty x s :
  atoi_digits (String.list_ascii_of_string (pretty_N_go x s)) 0 = atoi_digits (String.list_ascii_of_string s) (Z.of_N x).
Proof.
  revert s. induction (N.lt_wf_0 x) as [x _ IH]. intros s. destruct (decide (x = 0)%N) as [->|Hx].
  { by rewrite pretty_N_go_0. }
  rewrite pretty_N_go_step by lia. rewrite IH by (apply N.div_lt; lia).
  cbn [String.list_ascii_of_string atoi_digits].
  assert (∀ d, (d < 10)%N → byte (pretty_N_char d) = 48 + Z.of_N d) as Hd.
  { intros d Hlt. destruct d as [|[[[|[]|]|[[]|[]|]|]|[[[]|[]|]|[[]|[]|]|]|]]; try reflexivity; lia. }
  pose proof (N.mod_lt x 10 ltac:(lia)) as Hm. rewrite Hd by done. set (d := (x mod 10)%N) in *.
  assert (between 48 (48 + Z.of_N d) 57 = true) as -> by (unfold between; apply andb_true_iff; lia).
  f_equal. pose proof (N.div_mod x 10 ltac:(lia)). fold d in H. lia.
Qed.

Lemma Atoi_Itoa z : 0 ≤ z ≤ max_int → Atoi (Itoa z) = (z, true).
Proof.
  intros Hz. assert (∃ c l, String.list_ascii_of_string (Itoa z) = c :: l ∧ atoi_digits (c :: l) 0 = Some z) as (c & l & Hl & Hd).
  { destruct z as [|p|p]; [by exists "0"%char, []| |lia].
    assert (Itoa (Z.pos p) = pretty_N_go (N.pos p) EmptyString) as -> by reflexivity.
    pose proof (atoi_digits_pretty (N.pos p) EmptyString) as H. simpl in H.
    destruct (String.list_ascii_of_string _) as [|c l]; [done|]. by exists c, l. }
  unfold Atoi. rewrite Hl. assert (clamp (1 * z) = (z, true)) as Hc.
  { unfold clamp. rewrite Z.mul_1_l. by rewrite !(proj2 (Z.ltb_ge _ _)) by (unfold max_int in *; lia). }
  assert (between 48 (byte c) 57 = true) as Hb by (simpl in Hd; by destruct (between _ _ _)).
  destruct (decide (c = "+"%char)) as [->|]; [done|]. destruct (decide (c = "-"%char)) as [->|]; [done|].
  by destruct c as [[] [] [] [] [] [] [] []]; first [rewrite Hd|done].
Qed.

(** ** The arguments of diskvd *)

(** The arguments that [start1] of diskv/test_test.go gives the program. *)
Definition diskvd_print (c : diskvd_config) : list string :=
  ["-g"; Itoa (dc_gid c)] ++ concat (map (λ m, ["-m"; m]) (dc_masters c)) ++
  concat (map (λ s, ["-s"; s]) (dc_replicas c)) ++ ["-i"; Itoa (dc_me c)] ++
  ["-u"; if dc_unreliable c then "true" else "false"] ++ ["-d"; dc_dir c] ++
  ["-r"; if dc_restart c then "true" else "false"].

Lemma flags_step a0 a1 rest c c' :
  diskvd_flag a0 a1 c = Some c' → diskvd_flags ([a0; a1] ++ rest) c = diskvd_flags rest c'.
Proof. intros H. simpl. by rewrite H. Qed.

Lemma flags_masters ms rest : ∀ gid masters replicas me u dir r,
  diskvd_flags (concat (map (λ m, ["-m"; m]) ms) ++ rest) (mkDiskvd gid masters replicas me u dir r) =
  diskvd_flags rest (mkDiskvd gid (masters ++ ms) replicas me u dir r).
Proof.
  induction ms as [|m ms IH]; intros; simpl; [by rewrite app_nil_r|].
  by rewrite IH, <-app_assoc.
Qed.

Lemma flags_replicas ss rest : ∀ gid masters replicas me u dir r,
  diskvd_flags (concat (map (λ s, ["-s"; s]) ss) ++ rest) (mkDiskvd gid masters replicas me u dir r) =
  diskvd_flags rest (mkDiskvd gid masters (replicas ++ ss) me u dir r).
Proof.
  induction ss as [|s ss IH]; intros; simpl; [by rewrite app_nil_r|].
  by rewrite IH, <-app_assoc.
Qed.

(** The arguments made for a configuration start a server with it: every field is read
    back, and the configuration is accepted when it is valid. *)
Theorem diskvd_args_roundtrip name c :
  dc_gid c ≤ max_int → dc_me c ≤ max_int → diskvd_valid c = true →
  diskvd_args (name :: diskvd_print c) = Some c.
Proof.
  intros Hg Hm Hv. unfold diskvd_args. change (drop 1 (name :: diskvd_print c)) with (diskvd_print c).
  assert (diskvd_flags (diskvd_print c) diskvd_default = Some c) as ->; [|cbn; by rewrite Hv].
  destruct c as [gid masters replicas me u dir r]. unfold diskvd_valid in Hv. cbn [dc_gid dc_me] in *.
  assert (0 ≤ gid ∧ 0 ≤ me) as [? ?].
  { apply negb_true_iff in Hv. repeat (apply orb_false_iff in Hv as [Hv ?]). lia. }
  unfold diskvd_print, diskvd_default. cbn [dc_gid dc_masters dc_replicas dc_me dc_unreliable dc_dir dc_restart].
  erewrite flags_step by (unfold diskvd_flag; rewrite Atoi_Itoa by lia; reflexivity).
  rewrite flags_masters, flags_replicas.
  erewrite flags_step by (unfold diskvd_flag; rewrite Atoi_Itoa by lia; reflexivity).
  by destruct u, r.
Qed.

(** An unparsable group or index is not refused: the error is dropped and the server starts as
    group 0, member 0. *)
Lemma diskvd_bad_number :
  diskvd_args ["diskvd"; "-g"; "abc"; "-m"; "m0"; "-s"; "s0"; "-i"; "xyz"; "-d"; "/tmp/d"]%string =
  Some (mkDiskvd 0 ["m0"%string] ["s0"%string] 0 false "/tmp/d" false).
Proof. reflexivity. Qed.
